(* ===== verification/_CoqProject ===== *)
-Q . S2P
Prelude.v
Bytes.v
Ordering.v
RaftTypes.v
RaftLog.v
RaftTracker.v
RaftFsm.v
RaftMonotone.v
RaftReplication.v
RaftInvariant.v
RaftSafety.v
RaftApi.v
RaftTheorems.v
RaftElection.v
RaftStorage.v
RaftWaiters.v
RaftServer.v
RaftGrowth.v
RaftDurability.v
RaftServerTheory.v
RaftServerRuns.v
Interval.v
IntervalTheory.v
Vint.v
Tokens.v
Ring.v
RingTheory.v
Clustering.v
RangeTombstones.v
RangeTombstonesTheory.v
RangeTombstonesTheorems.v
RangeTombstoneChanges.v
RangeTombstoneChangesTheory.v
RangesWalker.v
RangesWalkerTheory.v
Uuid.v
Cells.v
CellsTheory.v
Paxos.v
PaxosTheory.v
PaxosRows.v
PaxosSafety.v
PaxosRuns.v
