(* ===== verification/Prelude.v ===== *)
(** A verification of parts of ScyllaDB: its Raft implementation, its intervals, the
    division of data among shards, rows and the deletion of ranges of them, conditional
    updates by Paxos, time UUIDs and the encoding of integers.

    * The program

    [src/raft/] is a library that replicates a log of commands among servers. Its
    parts, from the inside out: the data and the messages ([raft.hh]), the log with
    its snapshot ([log.hh], [log.cc]), the leader's view of its followers and the
    counting of votes ([tracker.hh], [tracker.cc]), the protocol state machine, which
    does no input or output ([fsm.hh], [fsm.cc]), and the server around it
    ([server.cc]), whose io fiber brings each output of the state machine to disk,
    sends its messages and queues its committed entries, and whose applier fiber
    takes the queue to the user's state machine, while clients wait for entries and
    other servers call in. [src/service/raft/raft_sys_table_storage.cc] is the
    storage in system tables. [src/interval.hh] holds the intervals over an ordered
    type that query ranges are made of. [src/dht/] places partitions on a ring of
    64-bit tokens and divides the ring, and ranges of it, among the shards of a node.
    Inside a partition rows are ordered by their clustering key; [src/mutation/] has
    the positions in that order ([position_in_partition.hh]) and the deletions of
    ranges of rows ([range_tombstone.hh], [range_tombstone_list.cc]), which replicas
    merge. Readers hand out the rows of a partition as a stream with changes of the
    tombstone that is active: [range_tombstone_change_generator.hh] and
    [readers/upgrading_consumer.hh] make the changes of range tombstones,
    [range_tombstone_assembler.hh] makes range tombstones of the changes, and
    [clustering_ranges_walker.hh] with the slicer of [readers/mutation_readers.cc] cuts
    a stream to the ranges of a query. A row has cells, a marker and tombstones
    ([atomic_cell.cc], [mutation_partition.cc]), which replicas merge and compaction
    expires. [src/utils/UUID_gen.hh] makes the UUIDs that carry a time; they are the
    ballots of conditional updates, which replicas and coordinators agree on by Paxos
    ([src/service/paxos/], a part of [src/service/storage_proxy.cc], and the table
    [system.paxos] of [src/db/system_keyspace.cc]).
    [src/vint-serialization.cc] is the variable-length encoding of integers.

    * The files

    - [Prelude]: 64-bit arithmetic that wraps, results of code that may throw or
      abort ([outcome]), the state and error monad [M] with weakest preconditions
      ([wp]) and relations that code keeps ([keeps]), tactics and generic lemmas.
    - [Bytes], [Ordering]: integers of a given width and their bytes; total orders and
      merges that converge.
    - [RaftTypes] ([raft.hh], [logical_clock.hh], [utils/tagged_integer.hh]): data.
    - [RaftLog] ([log.cc]): the record [log], its operations, its invariant [log_wf],
      and what each operation does to the entries.
    - [RaftTracker] ([tracker.cc]): progress of followers, commit index, votes.
    - [RaftFsm] ([fsm.cc]): the record [fsm] and every handler, as computations of the
      monad [FSM].
    - [RaftMonotone], [RaftReplication], [RaftInvariant], [RaftSafety], [RaftApi]: what
      never goes back; what a leader sends; the invariant [fsm_wf]; that every
      operation keeps it and fails no assertion; the interface as a whole ([call],
      [run_call], [reachable]).
    - [RaftTheorems]: the claims about the state machine.
    - [RaftElection]: a network of state machines that loses, duplicates and reorders
      messages and whose members crash and restart; election safety.
    - [RaftStorage]: the contract of [class persistence] as the type class
      [persistence], and the system tables as an instance of it.
    - [RaftWaiters]: clients that wait ([wait_for_entry], [notify_waiters], reads,
      promises) and what they are told.
    - [RaftServer]: the record [server], [start], the fibers as steps from one wait to
      the next ([io_step], [applier_step]), the handlers of messages and calls, the
      shutdown, and the loop that follows the leader.
    - [RaftGrowth], [RaftDurability], [RaftServerTheory]: how calls change what is
      stable, how the storage operations of an output bring the disk up to date, and
      the invariant [server_ok] of a server.
    - [RaftServerRuns]: everything that can happen to a server ([event]), its runs in
      any order of events ([runs]), and the claims about them.
    - [Interval], [IntervalTheory] ([interval.hh]): intervals and their claims.
    - [Vint] ([vint-serialization.cc]): variable-length integers.
    - [Tokens] ([dht/token.hh], [dht/token.cc], the sharder of [dht/i_partitioner.cc]):
      tokens, the function that gives each its shard, and its inverses.
    - [Ring], [RingTheory] ([dht/ring_position.hh], [dht/sharder.hh],
      [dht/i_partitioner.cc]): positions, the contract of a sharder as the type class
      [SharderLaws], and the division and subtraction of ranges.
    - [Clustering] ([clustering_bounds_comparator.hh], [keys.cc],
      [mutation/position_in_partition.hh], a part of [query.cc]): bounds and positions,
      as places in one total order, and ranges of positions.
    - [RangeTombstones] ([mutation/tombstone.hh], [mutation/range_tombstone.cc],
      [mutation/range_tombstone_list.cc]): tombstones, the accumulator of readers, and
      lists of range tombstones whose entries have addresses, with the undo log.
    - [RangeTombstonesTheory], [RangeTombstonesTheorems]: what covers a place
      ([covering]), the invariant [rl_ok] of lists, insertion, and the claims.
    - [RangeTombstoneChanges], [RangeTombstoneChangesTheory]
      ([mutation/range_tombstone_change_generator.hh],
      [mutation/range_tombstone_assembler.hh], [readers/upgrading_consumer.hh]): streams
      of changes, what is active at a place ([active_at]), and both directions.
    - [RangesWalker], [RangesWalkerTheory] ([clustering_ranges_walker.hh], the slicer of
      [readers/mutation_readers.cc]): the walker over clustering ranges and slicing.
    - [Uuid] ([utils/UUID.hh], [utils/UUID_gen.hh]): time UUIDs, their orders and their
      generation.
    - [Cells], [CellsTheory] ([mutation/atomic_cell.cc],
      [mutation/mutation_partition.cc]): cells, row markers, row tombstones and rows, their
      merge, difference and compaction.
    - [Paxos] ([service/paxos/], [class paxos_response_handler] of
      [service/storage_proxy.cc], a part of [db/system_keyspace.cc]): replicas and
      coordinators of conditional updates of one partition as step functions, the
      messages between them, and their runs ([net_step], [run]). [PaxosTheory]: the two rounds
      of requests; [PaxosRows]: the rows of the table; [PaxosSafety]: the invariants of a
      replica and of a coordinator; [PaxosRuns]: reachable states and the claims.

    * How the code is modelled

    A [uint64_t] is a [Z]; [+!] and [-!] wrap. A class is a record, a [std::variant] an
    inductive type, a [std::unordered_map] a [gmap], a [std::map] a list ordered by
    its keys. A function that throws or asserts returns an [outcome]: [Throw] for an
    exception, [Abort] for a failed assertion, an access out of range or exhausted
    fuel. So a theorem that an operation returns also says that no assertion fails and
    that its loops end. Code of other components is an argument: the platform
    ([raft_env]: the size of an entry, random draws), the storage ([persistence]), the
    encoding of entries, which the build generates ([entry_codec]), the user's state
    machine (its answers are part of the events), the order of intervals, and the
    comparators of the clustering columns' types, which are total orders
    ([ColumnTypes]). A clustering key is the list of its values. A
    coroutine is cut at its waits; between two cuts anything else may happen.

    * What is proved

    - State machine: valid calls in any order keep the invariant and abort nothing;
      terms, votes, commit index and snapshot never go back; the handlers do what Raft
      prescribes (log update, commit rule, votes, snapshots, read barriers, joint
      configurations); two leaders of one term are the same server if the
      configurations they campaigned with are equal, are neighbours in a change through
      a joint configuration, or have intersecting quorums otherwise.
    - Storage: the tables refine the contract, up to the [server_info] of a snapshot's
      members, which they do not keep; batches end and are complete; whatever fails, a
      prefix of the statements takes effect.
    - Server: no message of an output, replies to snapshots included, is sent before
      the output is on disk; from every disk that a run leaves behind, also in the
      middle of an output or of a storage operation or after one that failed half-way,
      a server starts again with what was stored, the store of a snapshot descriptor
      excepted ([torn]); the queue of the applier continues what was applied; no
      assertion fails but in named places ([may_fail]); clients are told the truth
      about their entries.
    - Intervals: each operation against the set of points that an interval covers.
    - Shards: the table of first tokens inverts the sharding function; the pieces into
      which a range is divided cover it and each belongs to its shard, for every
      sharder that keeps its contract; subtraction of ranges is that of sets.
    - Range tombstones: merging one into a list gives every place the newer deletion
      and keeps the list canonical, so that replicas converge; a merge can be undone
      exactly, also when it was interrupted; search, slices, trimming, difference and
      the accumulator agree with what the tombstones cover.
    - Streams of changes: range tombstones that may overlap, turned into changes as a
      whole or range by range, make the newest deletion active at every row and place,
      and assembling the changes gives the deletions back; the walker knows which
      positions its ranges contain, and a sliced stream has the rows and deletions
      inside of the ranges and nothing else.
    - Rows: replicas that merge the same writes converge; compaction keeps what can
      still be read, in tables and in views; applying a difference is applying the row.
    - Conditional updates: a value that a quorum accepted is kept by every later proposal
      until it is learned, and only such values are applied, whatever is lost, repeated,
      delayed or stopped; the rounds of requests end with the right result.
    - Time UUIDs: a shard makes them in growing order whatever its clock shows, and the
      sub-microsecond part keeps its order.
    - Variable-length integers: what is written is read back, by both ways of reading,
      and takes as few bytes as the format allows.
    - Flaws, as theorems on concrete inputs: [last_conf_for] forgets a configuration
      after a truncation, storing a snapshot descriptor is not atomic, a requested
      snapshot can fail an assertion if a snapshot of the leader overtakes it, and so
      can the transfer of a snapshot that was started in an earlier leadership;
      [subtract_ranges] leaves positions in its result that it should remove; the
      walker makes redundant changes when it is advanced beyond its ranges; the merge of
      rows depends on the order once a marker of a deleted row meets a shadowable
      tombstone, and the difference of rows forgets a deletion under a shadowable one;
      a conditional update can be pruned and lost when one replica has learned it.

    * Fuel

    [replicate_to] has fuel for 12 rounds, more than the 10 requests in flight that
    flow control allows; collecting entries of a request, and the search of
    [last_conf_for], for as many rounds as the log has entries; storing entries for as
    many batches as there are entries; [maybe_commit] calls itself once at most and is
    unfolded twice; the tests of intervals call themselves on plain intervals once;
    [subtract] has fuel 98, a bound of its potential for two times two pieces. That
    none of it runs out is part of the theorems about these functions. The search for
    the start of a shard needs at most two steps. A range sharder is run with any fuel,
    and enough of it is proved to exist; [subtract_ranges], and the difference of lists
    of range tombstones, have fuel for every element of either list; the walker has
    fuel for a pass over the rest of its ranges ([walk_fuel]).

    * Assumptions and what is left out

    The inputs of a theorem about runs are valid: messages respect the protocol as far
    as one message shows it ([valid_message]), terms and indexes stay below 2^63, where
    the tables' signed integers end ([in_range]), and the server takes a snapshot of
    itself only while its log has not forgotten a previous configuration
    ([conf_remembered]; [last_conf_for_forgets] shows that it can). Election safety has
    no such assumption: it records the configuration of each campaign ([campaigns]) and
    compares those of the leaders; [joint_change_safe] shows that the quorums of the
    configurations of one step of a change intersect. That the leaders of one term
    never campaign further than one step apart is not proved. Runs of conditional updates have ballots that are unique, participants
    that do not change, and Paxos state that is not past the time it is kept
    ([event_ok]); the value of an update and the answers of queries are arbitrary. Not
    modelled are logging, metrics, error injection, the waiting on the semaphore for log
    memory, failure detection and transport, the functions that exist for tests, and the
    parts of the database other than those above, which are storage engine, query
    language, networking and services around them. *)
From Stdlib Require Export ZArith Lia.
From stdpp Require Export base gmap sets list option strings numbers list_numbers sorting.
Open Scope Z_scope.

(** * Unsigned 64-bit arithmetic *)

Definition u64_modulus : Z := 2 ^ 64.

(** [x + y] and [x - y] of two [uint64_t] values: both wrap. *)
Definition u64_add (x y : Z) : Z := (x + y) mod u64_modulus.
Definition u64_sub (x y : Z) : Z := (x - y) mod u64_modulus.

Declare Scope u64_scope.
Delimit Scope u64_scope with u64.
Infix "+!" := u64_add (at level 50, left associativity) : u64_scope.
Infix "-!" := u64_sub (at level 50, left associativity) : u64_scope.
Open Scope u64_scope.

(** A value that fits in 64 bits. *)
Definition is_u64 (x : Z) : Prop := 0 <= x < u64_modulus.

Lemma u64_add_small x y : 0 <= x + y < u64_modulus -> x +! y = x + y.
Proof. apply Z.mod_small. Qed.

Lemma u64_sub_small x y : 0 <= x - y < u64_modulus -> x -! y = x - y.
Proof. apply Z.mod_small. Qed.

Lemma u64_add_range x y : is_u64 (x +! y).
Proof. apply Z.mod_pos_bound. reflexivity. Qed.

Lemma u64_sub_range x y : is_u64 (x -! y).
Proof. apply Z.mod_pos_bound. reflexivity. Qed.

(** The wrap of [x + 1] is the only way it fails to exceed [x]. *)
Lemma u64_succ_lt x : is_u64 x -> x < x +! 1 -> x +! 1 = x + 1.
Proof.
  unfold is_u64, u64_add. intros Hx Hlt.
  destruct (decide (x + 1 < u64_modulus)); [by rewrite Z.mod_small by lia|].
  replace (x + 1) with u64_modulus in Hlt by lia.
  rewrite Z_mod_same_full in Hlt. lia.
Qed.

Lemma u64_add_comm x y : x +! y = y +! x.
Proof. unfold u64_add. f_equal. lia. Qed.

Lemma u64_add_assoc x y z : x +! y +! z = x +! (y +! z).
Proof. unfold u64_add. rewrite Zplus_mod_idemp_l, Zplus_mod_idemp_r. f_equal. lia. Qed.

Lemma u64_add_0_l x : is_u64 x -> 0 +! x = x.
Proof. apply Z.mod_small. Qed.

(** An addend may be reduced first. *)
Lemma u64_add_wrap_r x y : x +! (0 +! y) = x +! y.
Proof. unfold u64_add. by rewrite Zplus_mod_idemp_r. Qed.

Lemma u64_add_sub_l x y : is_u64 y -> x +! y -! x = y.
Proof.
  unfold u64_add, u64_sub. intros Hy. rewrite Zminus_mod_idemp_l.
  replace (x + y - x) with y by lia. by apply Z.mod_small.
Qed.

#[global] Opaque u64_add u64_sub.

(** Replaces every wrapping operation whose exact result provably fits in 64
    bits by the exact operation. *)
Ltac u64_norm :=
  unfold is_u64 in *;
  repeat first
    [ rewrite u64_add_small in * by (unfold u64_modulus in *; lia)
    | rewrite u64_sub_small in * by (unfold u64_modulus in *; lia) ].
Ltac u64_lia := u64_norm; unfold u64_modulus in *; lia.

(** * Indexed access *)

(** [v[k]] of a vector or deque, [None] where the access is undefined. *)
Definition at_z {A} (l : list A) (k : Z) : option A :=
  if (0 <=? k) && (k <? Z.of_nat (length l)) then l !! Z.to_nat k else None.

Lemma at_z_Some {A} (l : list A) k x :
  at_z l k = Some x <-> 0 <= k /\ l !! Z.to_nat k = Some x.
Proof.
  unfold at_z. destruct (0 <=? k) eqn:E1, (k <? Z.of_nat (length l)) eqn:E2; simpl.
  - intuition lia.
  - split; [done|]. intros [_ H%lookup_lt_Some]. lia.
  - split; [done|]. lia.
  - split; [done|]. lia.
Qed.

Lemma at_z_nat {A} (l : list A) (n : nat) : at_z l (Z.of_nat n) = l !! n.
Proof.
  apply option_eq. intros x. rewrite at_z_Some, Nat2Z.id. intuition lia.
Qed.

(** Decides the boolean comparisons of the goal that [lia] settles. *)
Ltac zbool :=
  repeat match goal with
  | |- context [?a <=? ?b] =>
    first [rewrite (proj2 (Z.leb_le a b)) by lia | rewrite (proj2 (Z.leb_gt a b)) by lia]
  | |- context [?a <? ?b] =>
    first [rewrite (proj2 (Z.ltb_lt a b)) by lia | rewrite (proj2 (Z.ltb_ge a b)) by lia]
  | |- context [?a >=? ?b] =>
    first [replace (a >=? b) with true by lia | replace (a >=? b) with false by lia]
  | |- context [?a >? ?b] =>
    first [replace (a >? b) with true by lia | replace (a >? b) with false by lia]
  | |- context [?a =? ?b] =>
    first [rewrite (proj2 (Z.eqb_eq a b)) by lia | rewrite (proj2 (Z.eqb_neq a b)) by lia]
  end.

(** * Lists *)

Lemma list_filter_all {A} (P : A -> Prop) `{forall x, Decision (P x)} (l : list A) :
  Forall P l -> filter P l = l.
Proof. induction 1 as [|x l Hx _ IH]; [done|]. by rewrite filter_cons_True, IH. Qed.

Lemma list_filter_none {A} (P : A -> Prop) `{forall x, Decision (P x)} (l : list A) :
  Forall (fun x => ~ P x) l -> filter P l = [].
Proof. induction 1 as [|x l Hx _ IH]; [done|]. by rewrite filter_cons_False, IH. Qed.

Lemma NoDup_fmap_filter {A B} (f : A -> B) (P : A -> Prop) `{forall x, Decision (P x)} (l : list A) :
  NoDup (f <$> l) -> NoDup (f <$> filter P l).
Proof.
  induction l as [|x l IH]; [done|]. rewrite fmap_cons, NoDup_cons, filter_cons.
  intros [Hx Hl]. case_decide; [|auto]. rewrite fmap_cons, NoDup_cons. split; [|auto].
  contradict Hx. apply list_elem_of_fmap in Hx as (y & -> & [_ Hy]%list_elem_of_filter).
  by apply list_elem_of_fmap_2.
Qed.

Lemma snoc_cases {A} (l : list A) : l = [] \/ exists l' x, l = l' ++ [x].
Proof. destruct l as [|x l _] using rev_ind; eauto. Qed.

Lemma snoc2_inv {A} (l l' : list A) x y z :
  l ++ [x] = l' ++ [y; z] -> l = l' ++ [y] /\ x = z.
Proof.
  change [y; z] with ([y] ++ [z]). rewrite (assoc_L (++)). apply app_inj_tail.
Qed.

Lemma StronglySorted_snoc_lt {A} (R : relation A) (l : list A) x :
  StronglySorted R (l ++ [x]) -> Forall (fun y => R y x) l.
Proof.
  intros [H _]%StronglySorted_app. apply Forall_forall. intros y Hy. apply H; set_solver.
Qed.

(** What holds of all elements but the last holds of those before any one. *)
Lemma Forall_butlast_prefix {A} (P : A -> Prop) (xs : list A) y zs :
  (forall cs i, xs ++ y :: zs = cs ++ [i] -> Forall P cs) -> Forall P xs.
Proof.
  intros H. destruct (snoc_cases (y :: zs)) as [?|(ys & i & Heq)]; [done|].
  rewrite Heq, (assoc_L (++)) in H. specialize (H _ _ eq_refl).
  by apply Forall_app in H as [? _].
Qed.

(** * Outcomes of fallible code *)

(** Why a computation stops without a value or an exception: an assertion
    that does not hold ([SCYLLA_ASSERT] aborts the process in every build
    mode), an access C++ leaves undefined, or a loop of the model that needs
    more iterations than it was given. *)
Inductive abort_reason := assertion_failed | undefined_behaviour | out_of_fuel.

(** A value, a C++ exception, or an abort. *)
Inductive outcome (E A : Type) :=
| Ret (a : A)
| Throw (e : E)
| Abort (r : abort_reason).
Arguments Ret {E A} a.
Arguments Throw {E A} e.
Arguments Abort {E A} r.

#[export] Instance Ret_inj {E A} : Inj (=) (=) (@Ret E A).
Proof. by intros ?? [=]. Qed.

#[export] Instance outcome_ret {E} : MRet (outcome E) := fun A => Ret.
#[export] Instance outcome_fmap {E} : FMap (outcome E) := fun A B f m =>
  match m with Ret a => Ret (f a) | Throw e => Throw e | Abort r => Abort r end.
#[export] Instance outcome_bind {E} : MBind (outcome E) := fun A B k m =>
  match m with Ret a => k a | Throw e => Throw e | Abort r => Abort r end.

(** [SCYLLA_ASSERT(b)]. *)
Definition check {E} (b : bool) : outcome E unit :=
  if b then Ret tt else Abort assertion_failed.

(** An access that is undefined when the element is absent. *)
Definition defined {E A} (o : option A) : outcome E A :=
  match o with Some a => Ret a | None => Abort undefined_behaviour end.

Lemma outcome_bind_Ret {E A B} (m : outcome E A) (k : A -> outcome E B) b :
  m ≫= k = Ret b <-> exists a, m = Ret a /\ k a = Ret b.
Proof. destruct m; naive_solver. Qed.

Lemma check_Ret {E} b u : check (E := E) b = Ret u <-> b = true.
Proof. destruct b, u; naive_solver. Qed.

Lemma defined_Ret {E A} (o : option A) a : defined (E := E) o = Ret a <-> o = Some a.
Proof. destruct o; naive_solver. Qed.

Lemma map_size_union_le {A} (m1 m2 : gmap N A) : (size (m1 ∪ m2) <= size m1 + size m2)%nat.
Proof.
  rewrite <- !(size_dom (D := gset N)), dom_union_L, size_union_alt.
  pose proof (subseteq_size (dom m2 ∖ dom m1) (dom m2) ltac:(set_solver)). lia.
Qed.

(** Evaluates the decisions of the goal on which [done] settles the proposition. *)
Ltac bdec := repeat first [rewrite bool_decide_eq_true_2 by done | rewrite bool_decide_eq_false_2 by done].

(** Decomposes the hypotheses that say that a computation returned. *)
Ltac outcome_inv :=
  repeat match goal with
  | H : mret _ = Ret _ |- _ => apply (inj Ret) in H; simplify_eq/=
  | H : Ret _ = Ret _ |- _ => simplify_eq/=
  | H : Throw _ = Ret _ |- _ => discriminate H
  | H : Abort _ = Ret _ |- _ => discriminate H
  | H : _ ≫= _ = Ret _ |- _ => apply outcome_bind_Ret in H as (? & ? & H)
  | H : check _ = Ret _ |- _ => apply check_Ret in H
  | H : defined _ = Ret _ |- _ => apply defined_Ret in H
  | H : (if ?b then _ else _) = Ret _ |- _ => destruct b eqn:?
  | H : (match ?x with _ => _ end) = Ret _ |- _ => destruct x eqn:?
  end.

(** * Stateful code

    [M S E A] is code that reads and writes a state [S] and ends in an
    [outcome]. The state written before an exception is thrown survives it, as
    in C++. *)
Definition M (S E A : Type) : Type := S -> outcome E A * S.

#[export] Instance M_ret {S E} : MRet (M S E) := fun A a s => (Ret a, s).
#[export] Instance M_bind {S E} : MBind (M S E) := fun A B k m s =>
  match m s with
  | (Ret a, s') => k a s'
  | (Throw e, s') => (Throw e, s')
  | (Abort r, s') => (Abort r, s')
  end.

Section monad_operations.
Context {S E : Type}.

(** Reads a function of the state. *)
Definition gets {A} (g : S -> A) : M S E A := fun s => (Ret (g s), s).
(** Rewrites the state. *)
Definition modify (g : S -> S) : M S E unit := fun s => (Ret tt, g s).
(** [throw e]. *)
Definition throw {A} (e : E) : M S E A := fun s => (Throw e, s).
(** Runs a computation that does not touch the state. *)
Definition lift {A} (o : outcome E A) : M S E A := fun s => (o, s).
(** [if (b) { m }]. *)
Definition when (b : bool) (m : M S E unit) : M S E unit :=
  if b then m else mret tt.
(** [for (auto& x : l) { body(x); }]. *)
Fixpoint for_each {X} (l : list X) (body : X -> M S E unit) : M S E unit :=
  match l with [] => mret tt | x :: l' => body x ;; for_each l' body end.
End monad_operations.

(** * Weakest preconditions *)

Section wp.
Context {S E : Type}.
Implicit Types (X : E -> S -> Prop) (B : abort_reason -> Prop) (s : S).

(** [wp m Q X B s]: from [s], [m] returns as [Q] says, throws as [X] says or
    aborts for a reason in [B]. *)
Definition wp {A} (m : M S E A) (Q : A -> S -> Prop) X B s : Prop :=
  match m s with
  | (Ret a, s') => Q a s'
  | (Throw e, s') => X e s'
  | (Abort r, _) => B r
  end.

Lemma wp_mono {A} (m : M S E A) (Q Q' : A -> S -> Prop) X X' B B' s :
  wp m Q X B s -> (forall a s', Q a s' -> Q' a s') -> (forall e s', X e s' -> X' e s') ->
  (forall r, B r -> B' r) -> wp m Q' X' B' s.
Proof. unfold wp. destruct (m s) as [[a|e|r] s']; eauto. Qed.

Lemma wp_ret {A} (a : A) (Q : A -> S -> Prop) X B s : Q a s -> wp (mret a) Q X B s.
Proof. done. Qed.

Lemma wp_bind {A A'} (m : M S E A) (k : A -> M S E A') Q X B s :
  wp m (fun a => wp (k a) Q X B) X B s -> wp (m ≫= k) Q X B s.
Proof.
  unfold wp, mbind, M_bind. destruct (m s) as [[a|e|r] s']; [|done..].
  by destruct (k a s') as [[]].
Qed.

Lemma wp_gets {A} (g : S -> A) (Q : A -> S -> Prop) X B s : Q (g s) s -> wp (gets g) Q X B s.
Proof. done. Qed.

Lemma wp_modify (g : S -> S) (Q : unit -> S -> Prop) X B s : Q tt (g s) -> wp (modify g) Q X B s.
Proof. done. Qed.

Lemma wp_throw {A} (e : E) (Q : A -> S -> Prop) X B s : X e s -> wp (throw e) Q X B s.
Proof. done. Qed.

Lemma wp_lift {A} (o : outcome E A) (Q : A -> S -> Prop) X B s :
  (forall a, o = Ret a -> Q a s) -> (forall e, o = Throw e -> X e s) ->
  (forall r, o = Abort r -> B r) -> wp (lift o) Q X B s.
Proof. unfold wp, lift. destruct o; auto. Qed.

Lemma wp_when (b : bool) (m : M S E unit) Q X B s :
  (b = true -> wp m Q X B s) -> (b = false -> Q tt s) -> wp (when b m) Q X B s.
Proof. destruct b; simpl; intros H1 H2; [by apply H1|by apply H2]. Qed.

(** A loop keeps an invariant that its body keeps. *)
Lemma wp_for_each {Y} (l : list Y) (body : Y -> M S E unit) (I : S -> Prop) X B s :
  (forall y s, y ∈ l -> I s -> wp (body y) (fun _ => I) X B s) ->
  I s -> wp (for_each l body) (fun _ => I) X B s.
Proof.
  revert s. induction l as [|y l IH]; intros s Hbody HI; [done|].
  apply wp_bind. eapply wp_mono; [apply Hbody; [left|done]| |done|done].
  intros [] s' HI'. apply IH; [|done]. intros y' s'' Hy'. apply Hbody. by right.
Qed.

(** ** Relations kept by every execution, whether it returns or throws *)

Definition keeps {A} (R : S -> S -> Prop) (m : M S E A) : Prop :=
  forall s, wp m (fun _ => R s) (fun _ => R s) (fun _ => True) s.

Lemma keeps_final {A} (R : S -> S -> Prop) (m : M S E A) s a s' :
  keeps R m -> m s = (Ret a, s') -> R s s'.
Proof. intros Hm Heq. specialize (Hm s). unfold wp in Hm. by rewrite Heq in Hm. Qed.

Lemma keeps_final_throw {A} (R : S -> S -> Prop) (m : M S E A) s e s' :
  keeps R m -> m s = (Throw e, s') -> R s s'.
Proof. intros Hm Heq. specialize (Hm s). unfold wp in Hm. by rewrite Heq in Hm. Qed.

(** The call rule. *)
Lemma wp_keeps {A} (R : S -> S -> Prop) (m : M S E A) (Q : A -> S -> Prop) X B s :
  keeps R m -> (forall a s', R s s' -> Q a s') -> (forall e s', R s s' -> X e s') ->
  (forall r, B r) -> wp m Q X B s.
Proof. intros Hm HQ HX HB. eapply wp_mono; [apply Hm|auto..]. Qed.

Section preorder.
Context (R : S -> S -> Prop) `{!PreOrder R}.

Lemma keeps_ret {A} (a : A) : keeps R (mret a).
Proof. intros s. apply wp_ret. reflexivity. Qed.

Lemma keeps_bind {A A'} (m : M S E A) (k : A -> M S E A') :
  keeps R m -> (forall a, keeps R (k a)) -> keeps R (m ≫= k).
Proof.
  intros Hm Hk s. apply wp_bind. eapply wp_keeps; [exact Hm| |done|done].
  intros a s' Hs. eapply wp_keeps; [apply Hk| | |done]; intros; by etransitivity.
Qed.

Lemma keeps_gets {A} (g : S -> A) : keeps R (gets g).
Proof. intros s. apply wp_gets. reflexivity. Qed.

Lemma keeps_throw {A} (e : E) : keeps R (throw e : M S E A).
Proof. intros s. apply wp_throw. reflexivity. Qed.

Lemma keeps_lift {A} (o : outcome E A) : keeps R (lift o).
Proof. intros s. apply wp_lift; intros; (done || reflexivity). Qed.

Lemma keeps_modify (g : S -> S) : (forall s, R s (g s)) -> keeps R (modify g).
Proof. intros Hg s. apply wp_modify, Hg. Qed.

Lemma keeps_when (b : bool) (m : M S E unit) : (b = true -> keeps R m) -> keeps R (when b m).
Proof. destruct b; simpl; [auto|]. intros _. apply keeps_ret. Qed.

Lemma keeps_for_each {Y} (l : list Y) (body : Y -> M S E unit) :
  (forall y, keeps R (body y)) -> keeps R (for_each l body).
Proof.
  intros Hb. induction l as [|y l IH]; [apply keeps_ret|].
  apply keeps_bind; [apply Hb|]. by intros [].
Qed.
End preorder.
End wp.

Create HintDb keeps discriminated.
#[export] Hint Resolve keeps_ret keeps_gets keeps_throw keeps_lift : keeps.

(** Splits a goal [keeps R m] along the structure of [m]; leaves the updates and
    the calls that no hint of the database [keeps] covers. *)
Ltac keeps_step :=
  match goal with
  | |- keeps _ (mbind _ _) => apply keeps_bind; [apply _| |intros ?]
  | |- keeps _ (when _ _) => apply keeps_when; [apply _|intros ?]
  | |- keeps _ (for_each _ _) => apply keeps_for_each; [apply _|intros ?]
  | |- keeps _ (if ?b then _ else _) => destruct b eqn:?
  | |- keeps _ (match ?x with _ => _ end) => destruct x eqn:?
  | |- keeps _ (let '(_, _) := ?x in _) => destruct x eqn:?
  | |- keeps _ _ => solve [auto 2 with keeps typeclass_instances]
  end.
Ltac keeps_auto := repeat keeps_step.

(** Symbolic execution of a goal [wp m Q X B s], up to the calls. *)
Ltac wp_step :=
  match goal with
  | |- wp (mbind _ _) _ _ _ _ => apply wp_bind
  | |- wp (mret _) _ _ _ _ => apply wp_ret
  | |- wp (gets _) _ _ _ _ => apply wp_gets
  | |- wp (modify _) _ _ _ _ => apply wp_modify
  | |- wp (throw _) _ _ _ _ => apply wp_throw
  | |- wp (when ?b _) _ _ _ _ => apply wp_when; intros ?
  end; cbn beta.
Ltac wp_auto := repeat wp_step.
