(* ===== verification/Bytes.v ===== *)
(** Machine integers and bytes, shared by the components that convert between them:
    conversions between integer types, integers laid out in memory in either byte
    order, and the lemmas that take bit operations to arithmetic.

    A byte is an [int8_t], the element type of [bytes] in the source: a value from
    -128 to 127. *)
From S2P Require Import Prelude.
Open Scope Z_scope.

(** * Conversions *)

(** A value converted to an unsigned and to a signed type of [w] bits. *)
Definition to_unsigned (w x : Z) : Z := x mod 2 ^ w.
Definition to_signed (w x : Z) : Z := (x + 2 ^ (w - 1)) mod 2 ^ w - 2 ^ (w - 1).

Abbreviation u8 := (to_unsigned 8).
Abbreviation u32 := (to_unsigned 32).
Abbreviation u64 := (to_unsigned 64).
Abbreviation i8 := (to_signed 8).
Abbreviation i32 := (to_signed 32).
Abbreviation i64 := (to_signed 64).

Definition fits_unsigned (w x : Z) : Prop := 0 <= x < 2 ^ w.
Definition fits_signed (w x : Z) : Prop := - 2 ^ (w - 1) <= x < 2 ^ (w - 1).

Abbreviation is_i8 := (fits_signed 8).
Abbreviation is_i32 := (fits_signed 32).
Abbreviation is_i64 := (fits_signed 64).

Lemma to_unsigned_fits w x : 0 <= w -> fits_unsigned w (to_unsigned w x).
Proof. intros. apply Z.mod_pos_bound. by apply Z.pow_pos_nonneg. Qed.

Lemma to_unsigned_id w x : fits_unsigned w x -> to_unsigned w x = x.
Proof. apply Z.mod_small. Qed.

Lemma half_pow w : 0 < w -> 2 ^ w = 2 * 2 ^ (w - 1).
Proof. intros. rewrite <- Z.pow_succ_r by lia. f_equal. lia. Qed.

Lemma to_signed_fits w x : 0 < w -> fits_signed w (to_signed w x).
Proof.
  intros Hw. unfold fits_signed, to_signed. pose proof (half_pow w Hw).
  pose proof (Z.pow_pos_nonneg 2 (w - 1)).
  pose proof (Z.mod_pos_bound (x + 2 ^ (w - 1)) (2 ^ w)). lia.
Qed.

Lemma to_signed_id w x : 0 < w -> fits_signed w x -> to_signed w x = x.
Proof.
  intros Hw. unfold fits_signed, to_signed. pose proof (half_pow w Hw). intros.
  rewrite Z.mod_small by lia. lia.
Qed.

(** Either conversion forgets all but the residue, so that one undoes the other. *)
Lemma to_unsigned_signed w x : 0 < w -> to_unsigned w (to_signed w x) = to_unsigned w x.
Proof.
  intros Hw. unfold to_unsigned, to_signed. pose proof (Z.pow_pos_nonneg 2 w).
  rewrite Zminus_mod_idemp_l. f_equal. lia.
Qed.

Lemma to_signed_unsigned w x : 0 < w -> to_signed w (to_unsigned w x) = to_signed w x.
Proof. intros Hw. unfold to_unsigned, to_signed. by rewrite Zplus_mod_idemp_l. Qed.

Lemma to_signed_of_unsigned w x : 0 < w -> fits_signed w x -> to_signed w (to_unsigned w x) = x.
Proof. intros. rewrite to_signed_unsigned by done. by apply to_signed_id. Qed.

Lemma to_unsigned_of_signed w x : 0 < w -> fits_unsigned w x -> to_unsigned w (to_signed w x) = x.
Proof. intros. rewrite to_unsigned_signed by done. by apply to_unsigned_id. Qed.

Create HintDb machine.
#[export] Hint Resolve to_unsigned_fits to_signed_fits : machine.
#[export] Hint Extern 2 (0 < _) => lia : machine.
#[export] Hint Extern 2 (0 <= _) => lia : machine.

(** * Bit operations *)

Lemma lor_shiftl q b k : 0 <= k -> 0 <= b < 2 ^ k -> Z.lor (Z.shiftl q k) b = q * 2 ^ k + b.
Proof.
  intros Hk Hb. assert (Z.land (Z.shiftl q k) b = 0) as Hland.
  { apply Z.bits_inj'. intros n Hn. rewrite Z.land_spec, Z.bits_0.
    destruct (decide (n < k)); [by rewrite Z.shiftl_spec_low by lia|].
    apply andb_false_iff. right.
    destruct (decide (b = 0)) as [->|]; [apply Z.bits_0|].
    apply Z.bits_above_log2; [lia|]. apply Z.lt_le_trans with k; [|lia]. by apply Z.log2_lt_pow2; lia. }
  pose proof (Z.add_lor_land (Z.shiftl q k) b) as Hadd. rewrite Z.shiftl_mul_pow2 in * by done. lia.
Qed.

Lemma land_mask x k : 0 <= k -> Z.land x (2 ^ k - 1) = x mod 2 ^ k.
Proof. intros. rewrite <- Z.land_ones by done. f_equal. rewrite Z.ones_equiv. lia. Qed.

(** * Integers in memory *)

(** The [n] bytes of [x], least significant first. *)
Fixpoint le_bytes (n : nat) (x : Z) : list Z :=
  match n with
  | O => []
  | S n => i8 x :: le_bytes n (Z.shiftr x 8)
  end.

(** The unsigned integer that is stored in the bytes, least significant first. *)
Fixpoint le_load (bs : list Z) : Z :=
  match bs with
  | [] => 0
  | b :: bs => u8 b + 2 ^ 8 * le_load bs
  end.

Definition be_bytes (n : nat) (x : Z) : list Z := rev (le_bytes n x).
Definition be_load (bs : list Z) : Z := le_load (rev bs).

Lemma length_le_bytes n x : length (le_bytes n x) = n.
Proof. revert x. induction n; simpl; auto. Qed.
Lemma length_be_bytes n x : length (be_bytes n x) = n.
Proof. unfold be_bytes. by rewrite length_rev, length_le_bytes. Qed.

Lemma le_bytes_i8 n x : Forall is_i8 (le_bytes n x).
Proof. revert x. induction n; simpl; constructor; auto with machine. Qed.
Lemma be_bytes_i8 n x : Forall is_i8 (be_bytes n x).
Proof. unfold be_bytes. apply Forall_rev, le_bytes_i8. Qed.

Lemma le_load_range bs : 0 <= le_load bs < 2 ^ (8 * Z.of_nat (length bs)).
Proof.
  induction bs as [|b bs IH]; [simpl; lia|]. cbn [le_load length].
  replace (8 * Z.of_nat (S (length bs))) with (8 + 8 * Z.of_nat (length bs)) by lia.
  rewrite Z.pow_add_r by lia. pose proof (to_unsigned_fits 8 b ltac:(lia)) as Hb. unfold fits_unsigned in Hb.
  change (2 ^ 8) with 256 in *. lia.
Qed.

Lemma le_load_app bs cs :
  le_load (bs ++ cs) = le_load bs + 2 ^ (8 * Z.of_nat (length bs)) * le_load cs.
Proof.
  induction bs as [|b bs IH]; [simpl; lia|]. cbn [le_load length app]. rewrite IH.
  replace (8 * Z.of_nat (S (length bs))) with (8 + 8 * Z.of_nat (length bs)) by lia.
  rewrite Z.pow_add_r by lia. lia.
Qed.

Lemma le_load_zeros n : le_load (replicate n 0) = 0.
Proof. induction n as [|n IH]; [done|]. cbn [replicate le_load]. by rewrite IH. Qed.

(** What is stored can be loaded back, and conversely. *)
Lemma le_load_bytes n x : le_load (le_bytes n x) = to_unsigned (8 * Z.of_nat n) x.
Proof.
  revert x. induction n as [|n IH]; intros x; cbn [le_bytes le_load].
  { unfold to_unsigned. by rewrite Z.mod_1_r. }
  rewrite IH, to_unsigned_signed by lia. unfold to_unsigned.
  replace (8 * Z.of_nat (S n)) with (8 + 8 * Z.of_nat n) by lia.
  rewrite Z.pow_add_r, Z.rem_mul_r, Z.shiftr_div_pow2 by lia. done.
Qed.

Lemma le_bytes_load bs : Forall is_i8 bs -> le_bytes (length bs) (le_load bs) = bs.
Proof.
  induction 1 as [|b bs Hb _ IH]; [done|]. cbn [le_load length le_bytes].
  pose proof (to_unsigned_fits 8 b ltac:(lia)) as Hu. unfold fits_unsigned in Hu. f_equal.
  - unfold to_signed. rewrite <- Z.add_assoc, (Z.add_comm (2 ^ 8 * _)), Z.add_assoc.
    rewrite (Z.mul_comm (2 ^ 8)), Z.mod_add by lia. fold (to_signed 8 (u8 b)).
    apply to_signed_of_unsigned; [lia|done].
  - rewrite Z.shiftr_div_pow2, (Z.mul_comm (2 ^ 8)), Z.div_add, Z.div_small by lia. by rewrite Z.add_0_l.
Qed.

Lemma be_load_bytes n x : be_load (be_bytes n x) = to_unsigned (8 * Z.of_nat n) x.
Proof. unfold be_load, be_bytes. by rewrite rev_involutive, le_load_bytes. Qed.

Lemma be_bytes_load bs : Forall is_i8 bs -> be_bytes (length bs) (be_load bs) = bs.
Proof.
  intros Hbs. unfold be_load, be_bytes. rewrite <- length_rev, le_bytes_load, rev_involutive; [done|].
  by apply Forall_rev.
Qed.

Lemma be_load_range bs : 0 <= be_load bs < 2 ^ (8 * Z.of_nat (length bs)).
Proof. unfold be_load. rewrite <- length_rev. apply le_load_range. Qed.

Lemma be_load_cons b bs : be_load (b :: bs) = u8 b * 2 ^ (8 * Z.of_nat (length bs)) + be_load bs.
Proof. unfold be_load. simpl rev. rewrite le_load_app, length_rev. cbn [le_load]. lia. Qed.

Lemma be_load_snoc bs b : be_load (bs ++ [b]) = be_load bs * 2 ^ 8 + u8 b.
Proof. unfold be_load. rewrite rev_app_distr. cbn [rev app le_load]. lia. Qed.

(** A pair of a stored and a loaded integer of the same width. *)
Lemma be_load_signed n x : 0 < Z.of_nat n -> fits_signed (8 * Z.of_nat n) x ->
  to_signed (8 * Z.of_nat n) (be_load (be_bytes n x)) = x.
Proof. intros. rewrite be_load_bytes. apply to_signed_of_unsigned; [lia|done]. Qed.

Lemma be_load_unsigned n x : fits_unsigned (8 * Z.of_nat n) x -> be_load (be_bytes n x) = x.
Proof. intros. rewrite be_load_bytes. by apply to_unsigned_id. Qed.

Lemma be_bytes_S n x : be_bytes (S n) x = be_bytes n (Z.shiftr x 8) ++ [i8 x].
Proof. done. Qed.

Lemma be_bytes_S_cons n x : be_bytes (S n) x = i8 (Z.shiftr x (8 * Z.of_nat n)) :: be_bytes n x.
Proof.
  revert x. induction n as [|n IH]; intros x; [by rewrite Z.shiftr_0_r|].
  rewrite be_bytes_S, IH, Z.shiftr_shiftr, (be_bytes_S n x) by lia. simpl. do 2 f_equal.
  f_equal. lia.
Qed.

Lemma be_load_zeros n bs : be_load (replicate n 0 ++ bs) = be_load bs.
Proof. induction n as [|n IH]; [done|]. cbn [replicate app]. by rewrite be_load_cons, IH. Qed.
