(* ===== verification/Ordering.v ===== *)
(** Orders and merges: what the comparators of the source are required to be, and
    what it takes for a merge to give every replica the same result.

    [TotalOrder] is the contract of a three-way comparator; lexicographic
    comparison, comparison by a key and comparison of lists keep it. Finitely many
    elements of a total order are ranked by integers, so that questions about them
    are linear arithmetic ([rank_with]). [Mergeable] is the contract of a merge:
    commutative, associative and idempotent up to an equivalence, on the values
    that satisfy an invariant; [merge_all_converges] is what it is for. *)
From S2P Require Import Prelude.
Open Scope Z_scope.

(** The order the comparator must define. *)
Class TotalOrder {T} (cmp : T -> T -> comparison) : Prop := {
  cmp_refl x : cmp x x = Eq;
  cmp_sym x y : cmp y x = CompOpp (cmp x y);
  cmp_le_trans x y z : cmp x y <> Gt -> cmp y z <> Gt -> cmp x z <> Gt;
}.
Arguments cmp_refl {T} cmp {_} x : rename.
Arguments cmp_sym {T} cmp {_} x y : rename.
Arguments cmp_le_trans {T} cmp {_} x y z : rename.

(** Case analysis on the integer comparisons of the goal. *)
Ltac zcompare :=
  repeat match goal with |- context [?a ?= ?b] => destruct (Z.compare_spec a b) end.

(** * Ranking finitely many elements of a total order by integers *)

Section ranking.
Context {A : Type} (cmp : A -> A -> comparison) `{TotalOrder A cmp}.

Lemma cmp_gt_lt x y : cmp x y = Gt <-> cmp y x = Lt.
Proof. rewrite (cmp_sym cmp x y). destruct (cmp x y); simpl; naive_solver. Qed.

Lemma cmp_lt_le_trans x y z : cmp x y = Lt -> cmp y z <> Gt -> cmp x z = Lt.
Proof.
  intros Hxy Hyz. destruct (cmp x z) eqn:Hxz; [|done|].
  - assert (cmp y x <> Gt) as Hyx.
    { apply (cmp_le_trans cmp y z x); [done|]. rewrite (cmp_sym cmp x z), Hxz. done. }
    by rewrite (cmp_sym cmp x y), Hxy in Hyx.
  - exfalso. apply (cmp_le_trans cmp x y z); [by rewrite Hxy|done|done].
Qed.

Lemma cmp_le_lt_trans x y z : cmp x y <> Gt -> cmp y z = Lt -> cmp x z = Lt.
Proof.
  intros Hxy Hyz. destruct (cmp x z) eqn:Hxz; [|done|].
  - assert (cmp z y <> Gt) as Hzy.
    { apply (cmp_le_trans cmp z x y); [|done]. rewrite (cmp_sym cmp x z), Hxz. done. }
    by rewrite (cmp_sym cmp y z), Hyz in Hzy.
  - exfalso. apply (cmp_le_trans cmp x y z); [done|by rewrite Hyz|done].
Qed.

Definition rank (ps : list A) (x : A) : Z := Z.of_nat (length (filter (fun p => cmp p x = Lt) ps)).

Lemma rank_le ps x y : cmp x y <> Gt -> rank ps x <= rank ps y.
Proof.
  intros Hxy. unfold rank. apply inj_le.
  induction ps as [|p ps IH]; [done|]. rewrite !filter_cons. repeat case_decide; simpl; try lia.
  exfalso. eauto using cmp_lt_le_trans.
Qed.

Lemma rank_lt ps x y : x ∈ ps -> cmp x y = Lt -> rank ps x < rank ps y.
Proof.
  intros [ps1 [ps2 ->]]%list_elem_of_split Hxy. unfold rank.
  rewrite !filter_app, !filter_cons, !length_app.
  rewrite decide_False by (rewrite cmp_refl; done). rewrite decide_True by done. simpl.
  pose proof (rank_le ps1 x y ltac:(by rewrite Hxy)). pose proof (rank_le ps2 x y ltac:(by rewrite Hxy)).
  unfold rank in *. lia.
Qed.

Lemma rank_exists (ps : list A) :
  exists rk : A -> Z, forall x y, x ∈ ps -> y ∈ ps -> cmp x y = (rk x ?= rk y).
Proof.
  exists (rank ps). intros x y Hx Hy. destruct (cmp x y) eqn:Hxy; symmetry.
  - apply Z.compare_eq_iff.
    pose proof (rank_le ps x y ltac:(by rewrite Hxy)).
    pose proof (rank_le ps y x ltac:(by rewrite (cmp_sym cmp x y), Hxy)). lia.
  - apply Z.compare_lt_iff. by apply rank_lt.
  - apply Z.compare_gt_iff. apply rank_lt; [done|]. by apply cmp_gt_lt.
Qed.

End ranking.

Ltac in_list := solve [repeat (apply list_elem_of_here || apply list_elem_of_further)].

(** Decides a goal about the comparisons by [cmp] of the listed elements. *)
Ltac rank_with cmp ps :=
  let rk := fresh "rk" in
  let Hrk := fresh "Hrk" in
  destruct (rank_exists cmp ps) as [rk Hrk];
  repeat match goal with
  | H : context [cmp ?a ?b] |- _ => rewrite (Hrk a b) in H by in_list
  | |- context [cmp ?a ?b] => rewrite (Hrk a b) by in_list
  end; clear Hrk;
  rewrite ?Z.compare_lt_iff, ?Z.compare_le_iff, ?Z.compare_gt_iff, ?Z.compare_eq_iff in *; lia.

(** * Building comparators *)

#[export] Instance Z_compare_total : TotalOrder Z.compare.
Proof.
  split.
  - apply Z.compare_refl.
  - intros x y. apply Z.compare_antisym.
  - intros x y z. rewrite !Z.compare_le_iff. lia.
Qed.

(** [if (auto c = ...; c != 0) return c; return d;] *)
Definition then_compare (c d : comparison) : comparison := match c with Eq => d | _ => c end.

Section building.
Context {A B : Type} (cmpA : A -> A -> comparison) (cmpB : B -> B -> comparison).
Context `{!TotalOrder cmpA, !TotalOrder cmpB}.

Lemma by_key_total {X} (f : X -> A) : TotalOrder (fun x y => cmpA (f x) (f y)).
Proof. split; intros *; [apply (cmp_refl cmpA)|apply (cmp_sym cmpA)|apply (cmp_le_trans cmpA)]. Qed.

Lemma lex_total {X} (f : X -> A) (g : X -> B) :
  TotalOrder (fun x y => then_compare (cmpA (f x) (f y)) (cmpB (g x) (g y))).
Proof.
  split.
  - intros x. by rewrite (cmp_refl cmpA), (cmp_refl cmpB).
  - intros x y. rewrite (cmp_sym cmpA (f x)), (cmp_sym cmpB (g x)). by destruct (cmpA (f x) (f y)).
  - intros x y z. unfold then_compare.
    destruct (rank_exists cmpA [f x; f y; f z]) as [rk Hrk]. rewrite !Hrk by in_list. clear Hrk.
    zcompare; try congruence; try lia. apply (cmp_le_trans cmpB).
Qed.

End building.

(** Lexicographic order of lists, a proper prefix first. *)
Fixpoint list_compare {A} (cmp : A -> A -> comparison) (l k : list A) : comparison :=
  match l, k with
  | [], [] => Eq
  | [], _ => Lt
  | _, [] => Gt
  | x :: l, y :: k => then_compare (cmp x y) (list_compare cmp l k)
  end.

#[export] Instance list_compare_total {A} (cmp : A -> A -> comparison) `{!TotalOrder cmp} :
  TotalOrder (list_compare cmp).
Proof.
  split.
  - intros l. induction l as [|x l IH]; simpl; [done|]. by rewrite (cmp_refl cmp).
  - intros l. induction l as [|x l IH]; intros [|y k]; simpl; try done.
    rewrite (cmp_sym cmp x y), IH. by destruct (cmp x y).
  - intros l. induction l as [|x l IH]; intros [|y k] [|z m]; simpl; try done.
    unfold then_compare. destruct (rank_exists cmp [x; y; z]) as [rk Hrk].
    rewrite !Hrk by in_list. clear Hrk. zcompare; try congruence; try lia. apply IH.
Qed.

Lemma list_compare_eq {A} (cmp : A -> A -> comparison) (l k : list A) :
  (forall x y, cmp x y = Eq -> x = y) -> list_compare cmp l k = Eq -> l = k.
Proof.
  intros Heq. revert k. induction l as [|x l IH]; intros [|y k]; simpl; try done.
  unfold then_compare. destruct (cmp x y) eqn:Hxy; [|done..]. intros Hlk.
  by rewrite (Heq _ _ Hxy), (IH _ Hlk).
Qed.

(** * Merges *)

(** What a merge of two replicas' states promises: on the states that satisfy
    [ok] it is a join, up to the equivalence [eqv] by which states are compared. *)
Class Mergeable {A} (ok : A -> Prop) (eqv : relation A) (join : A -> A -> A) : Prop := {
  merge_equivalence :: Equivalence eqv;
  merge_ok a b : ok a -> ok b -> ok (join a b);
  merge_proper a a' b b' : ok a -> ok a' -> ok b -> ok b' ->
    eqv a a' -> eqv b b' -> eqv (join a b) (join a' b');
  merge_comm a b : ok a -> ok b -> eqv (join a b) (join b a);
  merge_assoc a b c : ok a -> ok b -> ok c -> eqv (join a (join b c)) (join (join a b) c);
  merge_idem a : ok a -> eqv (join a a) a;
}.

Section merge.
Context {A : Type} (ok : A -> Prop) (eqv : relation A) (join : A -> A -> A) `{!Mergeable ok eqv join}.

Lemma join_ok a b : ok a -> ok b -> ok (join a b).
Proof. apply (merge_ok (eqv := eqv)). Qed.
#[local] Hint Resolve join_ok : core.

(** [b] already contains [a]. *)
Definition absorbed (a b : A) : Prop := eqv (join a b) b.

Lemma merge_all_ok (l : list A) a : ok a -> Forall ok l -> ok (fold_left join l a).
Proof.
  intros Ha Hl. revert a Ha. induction Hl as [|x l Hx _ IH]; intros a Ha; simpl; [done|].
  eauto.
Qed.

Lemma absorbed_join_l a b : ok a -> ok b -> absorbed a (join a b).
Proof.
  intros Ha Hb. unfold absorbed. rewrite (merge_assoc a a b) by done.
  apply merge_proper; eauto; [by apply merge_idem|reflexivity].
Qed.

Lemma absorbed_join_r a b : ok a -> ok b -> absorbed b (join a b).
Proof.
  intros Ha Hb. unfold absorbed. rewrite <- (merge_comm b a) at 2 by done.
  etrans; [|by apply absorbed_join_l].
  apply merge_proper; eauto; [reflexivity|by apply merge_comm].
Qed.

Lemma absorbed_trans a b c : ok a -> ok b -> ok c -> absorbed a b -> absorbed b c -> absorbed a c.
Proof.
  intros Ha Hb Hc Hab Hbc. unfold absorbed in *.
  transitivity (join a (join b c)).
  { apply merge_proper; eauto; [reflexivity|by symmetry]. }
  rewrite (merge_assoc a b c) by done. etrans; [|exact Hbc].
  apply merge_proper; eauto. reflexivity.
Qed.

(** The merge of a list is its least upper bound. *)
Lemma merge_all_upper (l : list A) a x :
  ok a -> Forall ok l -> x ∈ a :: l -> absorbed x (fold_left join l a).
Proof.
  intros Ha Hl. revert a x Ha. induction Hl as [|y l Hy Hl IH]; intros a x Ha Hx; simpl.
  { apply list_elem_of_singleton in Hx as ->. by apply merge_idem. }
  assert (ok x) as Hokx by (apply elem_of_cons in Hx as [->|[->|Hx]%elem_of_cons]; [done..|];
    by rewrite Forall_forall in Hl; apply Hl).
  assert (absorbed x (join a y) \/ x ∈ l) as [Hay|?].
  { apply elem_of_cons in Hx as [->|[->|Hx]%elem_of_cons];
      eauto using absorbed_join_l, absorbed_join_r. }
  - apply (absorbed_trans x (join a y)); eauto using merge_all_ok.
    apply IH; eauto. left.
  - apply IH; eauto. by right.
Qed.

Lemma merge_all_least (l : list A) a u :
  ok a -> Forall ok l -> ok u -> (forall x, x ∈ a :: l -> absorbed x u) ->
  absorbed (fold_left join l a) u.
Proof.
  intros Ha Hl Hu. revert a Ha. induction Hl as [|y l Hy Hl IH]; intros a Ha Hub; simpl.
  { apply Hub. left. }
  apply IH; [eauto|]. intros x [->|Hx]%elem_of_cons; [|apply Hub; by do 2 right].
  unfold absorbed. rewrite <- (merge_assoc a y u) by done. etrans; [|apply Hub; left].
  apply merge_proper; eauto; [reflexivity|]. apply Hub. right. left.
Qed.

(** Replicas that start alike and receive the same updates, in any order and any
    number of times, end alike. *)
Lemma merge_all_converges (l1 l2 : list A) a :
  ok a -> Forall ok l1 -> Forall ok l2 -> (forall x, x ∈ l1 <-> x ∈ l2) ->
  eqv (fold_left join l1 a) (fold_left join l2 a).
Proof.
  intros Ha H1 H2 Hsame.
  assert (absorbed (fold_left join l1 a) (fold_left join l2 a)) as H12.
  { apply merge_all_least; eauto using merge_all_ok. intros x Hx. apply merge_all_upper; [done..|].
    rewrite elem_of_cons in *. naive_solver. }
  assert (absorbed (fold_left join l2 a) (fold_left join l1 a)) as H21.
  { apply merge_all_least; eauto using merge_all_ok. intros x Hx. apply merge_all_upper; [done..|].
    rewrite elem_of_cons in *. naive_solver. }
  unfold absorbed in *. rewrite <- H12. rewrite <- H21 at 1.
  apply merge_comm; eauto using merge_all_ok.
Qed.

End merge.

(** The greater of two values, the first if they compare equal. *)
Definition greater {A} (cmp : A -> A -> comparison) (a b : A) : A :=
  match cmp a b with Lt => b | _ => a end.

#[export] Instance greater_mergeable {A} (cmp : A -> A -> comparison) `{!TotalOrder cmp} :
  Mergeable (fun _ => True) (fun a b => cmp a b = Eq) (greater cmp).
Proof.
  split.
  - split; [intros x; apply (cmp_refl cmp)|intros x y ?; rank_with cmp [x; y]|].
    intros x y z ??. rank_with cmp [x; y; z].
  - done.
  - intros a a' b b' _ _ _ _. unfold greater. destruct (cmp a b) eqn:?, (cmp a' b') eqn:?;
      intros; rank_with cmp [a; a'; b; b'].
  - intros a b _ _. unfold greater. destruct (cmp a b) eqn:?, (cmp b a) eqn:?; rank_with cmp [a; b].
  - intros a b c _ _ _. unfold greater.
    destruct (cmp a b) eqn:?, (cmp b c) eqn:?, (cmp a c) eqn:?; simplify_eq/=;
      repeat match goal with H : cmp _ _ = _ |- _ => rewrite H end; rank_with cmp [a; b; c].
  - intros a _. unfold greater. rewrite (cmp_refl cmp). apply (cmp_refl cmp).
Qed.
