(* ===== verification/RaftTypes.v ===== *)
(** The data of the Raft implementation: identifiers, configurations, log
    entries, snapshots, RPC messages and errors ([src/raft/raft.hh]) and the
    logical clock ([src/raft/logical_clock.hh]).

    A [server_id] or [snapshot_id] is a UUID, kept as the natural number of its
    128 bits; the default-constructed id is 0 and stands for "none". Terms,
    indexes and read ids are [uint64_t] values ([tagged_uint64]), kept as [Z]
    with the wrap-around of [+!] and [-!]. A [config_member_set] is an
    [unordered_set] hashed and compared by the member's id only, so it is a
    finite map from id to the rest of the member. *)
From S2P Require Import Prelude.

Abbreviation server_id := N (only parsing).
Abbreviation snapshot_id := N (only parsing).
Abbreviation term_t := Z (only parsing).
Abbreviation index_t := Z (only parsing).
Abbreviation read_id := Z (only parsing).
Abbreviation bytes := (list Byte.byte) (only parsing).

(** [server_id{}]. *)
Definition no_id : server_id := 0%N.

(** What the code takes from its platform: [sizeof(log_entry)], and the draws
    of the [uniform_int_distribution] over the thread's random engine, the
    [n]-th draw from the range [lo, hi] being [dist n lo hi]. *)
Class raft_env := {
  sizeof_log_entry : N;
  dist : nat -> Z -> Z -> Z;
}.

(** A platform to evaluate examples on. *)
Definition example_env : raft_env :=
  {| sizeof_log_entry := 40; dist := fun _ lo _ => lo |}.

(** * Errors *)

Inductive raft_error :=
| not_a_leader (leader : server_id)
| conf_change_in_progress
| no_other_voting_member
| invalid_argument
| runtime_error
| bad_variant_access
| internal_error.

(** * Configurations *)

Record config_member := ConfigMember {
  member_info : bytes;
  member_can_vote : bool;
}.

Abbreviation config_member_set := (gmap N config_member) (only parsing).

Record configuration := Configuration {
  current : gmap N config_member;
  previous : gmap N config_member;
}.

Record configuration_diff := ConfigurationDiff {
  joining : gmap N config_member;
  leaving : gmap N config_member;
}.

(** The constructor refuses the id zero. *)
Definition make_configuration (cur prev : config_member_set) : outcome raft_error configuration :=
  if decide (is_Some (cur !! no_id) \/ is_Some (prev !! no_id))
  then Throw invalid_argument
  else Ret (Configuration cur prev).

Definition is_joint (c : configuration) : bool :=
  negb (bool_decide (previous c = ∅)).

(** The ids of the members that can vote. *)
Definition voter_ids (s : config_member_set) : gset N :=
  dom (filter (fun kv => member_can_vote kv.2 = true) s).

Definition voter_count (c_new : config_member_set) : Z :=
  Z.of_nat (size (filter (fun kv => member_can_vote kv.2 = true) c_new)).

Definition configuration_check (c_new : config_member_set) : outcome raft_error unit :=
  if bool_decide (c_new = ∅) then Throw invalid_argument
  else if voter_count c_new =? 0 then Throw invalid_argument
  else Ret tt.

Definition diff (c : configuration) (c_new : config_member_set) : configuration_diff :=
  {| joining := filter (fun kv =>
       match current c !! kv.1 with
       | None => true
       | Some m => negb (Bool.eqb (member_can_vote m) (member_can_vote kv.2))
       end = true) c_new;
     leaving := filter (fun kv => c_new !! kv.1 = None) (current c) |}.

Definition configuration_contains (c : configuration) (id : server_id) : bool :=
  match current c !! id with
  | Some _ => true
  | None => bool_decide (is_Some (previous c !! id))
  end.

Definition can_vote (c : configuration) (id : server_id) : bool :=
  match current c !! id with Some m => member_can_vote m | None => false end ||
  match previous c !! id with Some m => member_can_vote m | None => false end.

Definition enter_joint (c : configuration) (c_new : config_member_set) :
    outcome raft_error configuration :=
  if bool_decide (c_new = ∅) then Throw invalid_argument
  else Ret {| current := c_new; previous := current c |}.

Definition leave_joint (c : configuration) : outcome raft_error configuration :=
  check (is_joint c) ;;
  mret {| current := current c; previous := ∅ |}.

(** A configuration whose members all vote, for examples. *)
Definition example_configuration (ids : list N) : configuration :=
  Configuration (list_to_map (map (fun id => (id, ConfigMember [] true)) ids)) ∅.

(** * Log entries and snapshots *)

(** [std::variant<command, configuration, dummy>]. *)
Inductive entry_data :=
| Command (c : bytes)
| ConfigurationEntry (c : configuration)
| Dummy.

Record log_entry := LogEntry {
  e_term : term_t;
  e_idx : index_t;
  e_data : entry_data;
}.

(** [std::get_if<configuration>(&e->data)]. *)
Definition entry_configuration (e : log_entry) : option configuration :=
  match e_data e with ConfigurationEntry c => Some c | _ => None end.

Record snapshot_descriptor := SnapshotDescriptor {
  snp_idx : index_t;
  snp_term : term_t;
  snp_config : configuration;
  snp_id : snapshot_id;
}.

(** * RPC messages *)

Record append_request := AppendRequest {
  areq_current_term : term_t;
  areq_prev_log_idx : index_t;
  areq_prev_log_term : term_t;
  areq_leader_commit_idx : index_t;
  areq_entries : list log_entry;
}.

(** [append_reply::rejected]. *)
Record rejected_result := Rejected {
  rej_non_matching_idx : index_t;
  rej_last_idx : index_t;
}.

(** [std::variant<rejected, accepted>]. *)
Inductive append_result :=
| rejected (r : rejected_result)
| accepted_to (last_new_idx : index_t).

Record append_reply := AppendReply {
  arep_current_term : term_t;
  arep_commit_idx : index_t;
  arep_result : append_result;
}.

Record vote_request := VoteRequest {
  vreq_current_term : term_t;
  vreq_last_log_idx : index_t;
  vreq_last_log_term : term_t;
  vreq_is_prevote : bool;
  vreq_force : bool;
}.

Record vote_reply := VoteReply {
  vrep_current_term : term_t;
  vrep_vote_granted : bool;
  vrep_is_prevote : bool;
}.

Record install_snapshot := InstallSnapshot {
  inst_current_term : term_t;
  inst_snp : snapshot_descriptor;
}.

Record snapshot_reply := SnapshotReply {
  srep_current_term : term_t;
  srep_success : bool;
}.

Record timeout_now := TimeoutNow { tnow_current_term : term_t }.

Record read_quorum := ReadQuorum {
  rq_current_term : term_t;
  rq_leader_commit_idx : index_t;
  rq_id : read_id;
}.

Record read_quorum_reply := ReadQuorumReply {
  rqr_current_term : term_t;
  rqr_commit_idx : index_t;
  rqr_id : read_id;
}.

Inductive rpc_message :=
| msg_append_request (m : append_request)
| msg_append_reply (m : append_reply)
| msg_vote_request (m : vote_request)
| msg_vote_reply (m : vote_reply)
| msg_install_snapshot (m : install_snapshot)
| msg_snapshot_reply (m : snapshot_reply)
| msg_timeout_now (m : timeout_now)
| msg_read_quorum (m : read_quorum)
| msg_read_quorum_reply (m : read_quorum_reply).

(** [msg.current_term], which every message has. *)
Definition msg_current_term (m : rpc_message) : term_t :=
  match m with
  | msg_append_request m => areq_current_term m
  | msg_append_reply m => arep_current_term m
  | msg_vote_request m => vreq_current_term m
  | msg_vote_reply m => vrep_current_term m
  | msg_install_snapshot m => inst_current_term m
  | msg_snapshot_reply m => srep_current_term m
  | msg_timeout_now m => tnow_current_term m
  | msg_read_quorum m => rq_current_term m
  | msg_read_quorum_reply m => rqr_current_term m
  end.

(** * Logical time *)

(** [ELECTION_TIMEOUT], in ticks. *)
Definition ELECTION_TIMEOUT : Z := 10.

(** [logical_clock::min()]. *)
Definition clock_min : Z := 0.

(** [logical_clock::advance] by one tick. *)
Definition clock_advance (now : Z) : Z := now + 1.

(** * Lemmas on configurations *)

Lemma elem_of_voter_ids (s : gmap N config_member) id :
  id ∈ voter_ids s <-> exists m, s !! id = Some m /\ member_can_vote m = true.
Proof.
  unfold voter_ids. rewrite elem_of_dom. unfold is_Some.
  setoid_rewrite map_lookup_filter_Some. naive_solver.
Qed.

Lemma voter_count_size (s : gmap N config_member) :
  voter_count s = Z.of_nat (size (voter_ids s)).
Proof. unfold voter_count, voter_ids. by rewrite size_dom. Qed.

Lemma is_joint_false c : is_joint c = false <-> previous c = ∅.
Proof. unfold is_joint. rewrite negb_false_iff. apply bool_decide_eq_true. Qed.

Lemma can_vote_spec c id :
  can_vote c id = true <-> id ∈ voter_ids (current c) ∪ voter_ids (previous c).
Proof.
  rewrite elem_of_union, !elem_of_voter_ids. unfold can_vote.
  destruct (current c !! id), (previous c !! id); rewrite orb_true_iff; naive_solver.
Qed.

#[global] Opaque voter_ids.
