(* ===== verification/RaftLog.v ===== *)
(** The in-memory Raft log ([src/raft/log.hh], [src/raft/log.cc]): its state,
    every operation on it, the invariant that the operations maintain, and
    what each operation does to the entries.

    Operations return an [outcome]: [SCYLLA_ASSERT]s and out-of-range accesses
    are aborts, so a theorem that an operation returns also shows that none of
    its assertions fails. *)
From S2P Require Import Prelude RaftTypes.

(** [class log]. *)
Record log := Log {
  l_snapshot : snapshot_descriptor;
  l_log : list log_entry;
  l_max_command_size : Z;
  l_first_idx : index_t;
  l_stable_idx : index_t;
  l_last_conf_idx : index_t;
  l_prev_conf_idx : index_t;
  l_memory_usage : Z;
}.

Section operations.
Context {env : raft_env}.

(** [memory_usage_of] a command: small commands also pay for the entry. *)
Definition memory_usage_of_command (c : bytes) (max_command_size : Z) : Z :=
  let size := Z.of_nat (length c) in
  let overhead := Z.of_N sizeof_log_entry in
  if (max_command_size >? overhead) && (size <? max_command_size -! overhead)
  then size +! overhead else size.

(** [memory_usage_of] a log entry. *)
Definition memory_usage_of (e : log_entry) (max_command_size : Z) : Z :=
  match e_data e with
  | Command c => memory_usage_of_command c max_command_size
  | _ => 0
  end.

Definition range_memory_usage (max_command_size : Z) (es : list log_entry) : Z :=
  fold_left (fun result e => result +! memory_usage_of e max_command_size) es 0.

Definition last_idx (l : log) : index_t :=
  Z.of_nat (length (l_log l)) +! l_first_idx l -! 1.

Definition next_idx (l : log) : index_t := last_idx l +! 1.

Definition get_entry (l : log) (i : index_t) : outcome raft_error log_entry :=
  defined (at_z (l_log l) (i -! l_first_idx l)).

(** [log::operator[]]. *)
Definition log_at (l : log) (i : index_t) : outcome raft_error log_entry :=
  check (negb (bool_decide (l_log l = [])) && (l_first_idx l <=? i)) ;;
  get_entry l i.

Definition emplace_back (l : log) (e : log_entry) : log :=
  let l1 := Log (l_snapshot l) (l_log l ++ [e]) (l_max_command_size l) (l_first_idx l)
    (l_stable_idx l) (l_last_conf_idx l) (l_prev_conf_idx l)
    (l_memory_usage l +! memory_usage_of e (l_max_command_size l)) in
  match entry_configuration e with
  | None => l1
  | Some _ => Log (l_snapshot l1) (l_log l1) (l_max_command_size l1) (l_first_idx l1)
      (l_stable_idx l1) (last_idx l1) (l_last_conf_idx l1) (l_memory_usage l1)
  end.

Definition last_term (l : log) : term_t :=
  match last (l_log l) with
  | None => snp_term (l_snapshot l)
  | Some e => e_term e
  end.

Definition is_up_to_date (l : log) (idx : index_t) (term : term_t) : bool :=
  (term >? last_term l) || ((term =? last_term l) && (idx >=? last_idx l)).

Definition stable_to (l : log) (idx : index_t) : outcome raft_error log :=
  check (idx <=? last_idx l) ;;
  mret (Log (l_snapshot l) (l_log l) (l_max_command_size l) (l_first_idx l)
    idx (l_last_conf_idx l) (l_prev_conf_idx l) (l_memory_usage l)).

Definition truncate_uncommitted (l : log) (idx : index_t) : outcome raft_error log :=
  check (l_first_idx l <=? idx) ;;
  let k := idx -! l_first_idx l in
  (* erasing from past the end is undefined *)
  defined (if k <=? Z.of_nat (length (l_log l)) then Some () else None) ;;
  let released_memory := range_memory_usage (l_max_command_size l) (drop (Z.to_nat k) (l_log l)) in
  let l1 := Log (l_snapshot l) (take (Z.to_nat k) (l_log l)) (l_max_command_size l)
    (l_first_idx l) (l_stable_idx l) (l_last_conf_idx l) (l_prev_conf_idx l)
    (l_memory_usage l -! released_memory) in
  l2 ← stable_to l1 (l_stable_idx l1 `min` last_idx l1);
  if l_last_conf_idx l2 >? last_idx l2 then
    check (l_prev_conf_idx l2 <? l_last_conf_idx l2) ;;
    mret (Log (l_snapshot l2) (l_log l2) (l_max_command_size l2) (l_first_idx l2)
      (l_stable_idx l2) (l_prev_conf_idx l2) 0 (l_memory_usage l2))
  else mret l2.

(** The reverse scan of [init_last_conf_idx], over the entries from the last
    to the first. *)
Fixpoint init_last_conf_idx_loop (snp : index_t) (rev_log : list log_entry)
    (last_conf prev_conf : index_t) : index_t * index_t :=
  match rev_log with
  | [] => (last_conf, prev_conf)
  | e :: rest =>
    if e_idx e =? snp then (last_conf, prev_conf)
    else match entry_configuration e with
      | None => init_last_conf_idx_loop snp rest last_conf prev_conf
      | Some _ =>
        if last_conf =? 0 then init_last_conf_idx_loop snp rest (e_idx e) prev_conf
        else (last_conf, e_idx e)
      end
  end.

Definition init_last_conf_idx (l : log) : log :=
  let '(last_conf, prev_conf) := init_last_conf_idx_loop (snp_idx (l_snapshot l))
    (rev (l_log l)) (l_last_conf_idx l) (l_prev_conf_idx l) in
  Log (l_snapshot l) (l_log l) (l_max_command_size l) (l_first_idx l)
    (l_stable_idx l) last_conf prev_conf (l_memory_usage l).

(** The constructor. *)
Definition make_log (snp : snapshot_descriptor) (es : list log_entry)
    (max_command_size : Z) : outcome raft_error log :=
  first ← match es with
    | [] => mret (snp_idx snp +! 1)
    | e :: _ => check (e_idx e <=? snp_idx snp +! 1) ;; mret (e_idx e)
    end;
  check (first >? 0) ;;
  let l := Log snp es max_command_size first 0 0 0 (range_memory_usage max_command_size es) in
  l ← stable_to l (last_idx l);
  mret (init_last_conf_idx l).

Definition last_conf_idx (l : log) : index_t :=
  if l_last_conf_idx l =? 0 then snp_idx (l_snapshot l) else l_last_conf_idx l.

Definition match_term (l : log) (idx : index_t) (term : term_t) :
    outcome raft_error (bool * term_t) :=
  if idx =? 0 then mret (true, 0)
  else if idx <? snp_idx (l_snapshot l) then mret (true, last_term l)
  else
    my_term ← (if idx =? snp_idx (l_snapshot l) then mret (Some (snp_term (l_snapshot l)))
      else let i := idx -! l_first_idx l in
        if i >=? Z.of_nat (length (l_log l)) then mret None
        else e ← defined (at_z (l_log l) i); mret (Some (e_term e)));
    mret match my_term with
      | None => (false, 0)
      | Some my_term => if my_term =? term then (true, 0) else (false, my_term)
      end.

Definition term_for (l : log) (idx : index_t) : outcome raft_error (option term_t) :=
  if negb (bool_decide (l_log l = [])) && (idx >=? l_first_idx l)
  then e ← get_entry l idx; mret (Some (e_term e))
  else if idx =? snp_idx (l_snapshot l) then mret (Some (snp_term (l_snapshot l)))
  else mret None.

(** [std::get<configuration>(get_entry(i)->data)]. *)
Definition get_configuration_entry (l : log) (i : index_t) : outcome raft_error configuration :=
  e ← get_entry l i;
  match entry_configuration e with Some c => mret c | None => Throw bad_variant_access end.

Definition get_configuration (l : log) : outcome raft_error configuration :=
  if l_last_conf_idx l =? 0 then mret (snp_config (l_snapshot l))
  else get_configuration_entry l (l_last_conf_idx l).

(** The backward scan that ends [last_conf_for]. *)
Fixpoint last_conf_for_loop (fuel : nat) (l : log) (idx : index_t) :
    outcome raft_error configuration :=
  if idx >? snp_idx (l_snapshot l) then
    match fuel with
    | O => Abort out_of_fuel
    | S fuel =>
      e ← get_entry l idx;
      match entry_configuration e with
      | Some cfg => mret cfg
      | None => last_conf_for_loop fuel l (idx -! 1)
      end
    end
  else mret (snp_config (l_snapshot l)).

Definition last_conf_for (l : log) (idx : index_t) : outcome raft_error configuration :=
  check (last_idx l >=? idx) ;;
  check (idx >=? snp_idx (l_snapshot l)) ;;
  if l_last_conf_idx l =? 0 then
    check (l_prev_conf_idx l =? 0) ;; mret (snp_config (l_snapshot l))
  else if idx >=? l_last_conf_idx l then get_configuration_entry l (l_last_conf_idx l)
  else if l_prev_conf_idx l =? 0 then mret (snp_config (l_snapshot l))
  else if idx >=? l_prev_conf_idx l then get_configuration_entry l (l_prev_conf_idx l)
  else last_conf_for_loop (length (l_log l)) l idx.

Definition get_prev_configuration (l : log) : outcome raft_error (option configuration) :=
  if negb (l_prev_conf_idx l =? 0) then
    c ← get_configuration_entry l (l_prev_conf_idx l); mret (Some c)
  else if l_last_conf_idx l >? snp_idx (l_snapshot l) then mret (Some (snp_config (l_snapshot l)))
  else mret None.

(** One iteration of the loop of [maybe_append]. *)
Definition maybe_append_entry (l : log) (e : log_entry) : outcome raft_error log :=
  let append (l : log) : outcome raft_error log :=
    check (e_idx e =? next_idx l) ;; mret (emplace_back l e) in
  if e_idx e <=? last_idx l then
    if e_idx e <? l_first_idx l then mret l
    else
      old ← get_entry l (e_idx e);
      if e_term e =? e_term old then mret l
      else
        check (e_idx e >? snp_idx (l_snapshot l)) ;;
        l ← truncate_uncommitted l (e_idx e);
        append l
  else append l.

Fixpoint maybe_append_loop (l : log) (es : list log_entry) : outcome raft_error log :=
  match es with
  | [] => mret l
  | e :: es => l ← maybe_append_entry l e; maybe_append_loop l es
  end.

(** Returns the index of the last entry of the request with the new log. *)
Definition maybe_append (l : log) (es : list log_entry) : outcome raft_error (index_t * log) :=
  check (negb (bool_decide (es = []))) ;;
  back ← defined (last es);
  l ← maybe_append_loop l es;
  mret (e_idx back, l).

(** The loop of [apply_snapshot] that keeps trailing entries; [n] is
    [entries_to_remove]. *)
Fixpoint trailing_loop (l : log) (max_trailing_entries max_trailing_bytes : Z)
    (i trailing_bytes : Z) (n : nat) : outcome raft_error nat :=
  match n with
  | O => mret O
  | S n' =>
    if i <? max_trailing_entries then
      e ← defined (l_log l !! n');
      let trailing_bytes := trailing_bytes +! memory_usage_of e (l_max_command_size l) in
      if trailing_bytes >? max_trailing_bytes then mret n
      else trailing_loop l max_trailing_entries max_trailing_bytes (i + 1) trailing_bytes n'
    else mret n
  end.

(** Returns the released memory and the new first index with the new log. *)
Definition log_apply_snapshot (l : log) (snp : snapshot_descriptor)
    (max_trailing_entries max_trailing_bytes : Z) : outcome raft_error (Z * index_t * log) :=
  check (snp_idx snp >? snp_idx (l_snapshot l)) ;;
  let idx := snp_idx snp in
  '(released_memory, l1) ←
    (if idx >? last_idx l then
      mret (l_memory_usage l,
        Log (l_snapshot l) [] (l_max_command_size l) (idx +! 1) (l_stable_idx l)
          (l_last_conf_idx l) (l_prev_conf_idx l) 0)
    else
      let entries_to_remove := Z.of_nat (length (l_log l)) -! (last_idx l -! idx) in
      n ← trailing_loop l max_trailing_entries max_trailing_bytes 0 0 (Z.to_nat entries_to_remove);
      let released_memory := range_memory_usage (l_max_command_size l) (take n (l_log l)) in
      mret (released_memory,
        Log (l_snapshot l) (drop n (l_log l)) (l_max_command_size l)
          (l_first_idx l +! Z.of_nat n) (l_stable_idx l) (l_last_conf_idx l) (l_prev_conf_idx l)
          (l_memory_usage l -! released_memory)));
  let '(last_conf, prev_conf) :=
    if idx >=? l_prev_conf_idx l1
    then ((if idx >=? l_last_conf_idx l1 then 0 else l_last_conf_idx l1), 0)
    else (l_last_conf_idx l1, l_prev_conf_idx l1) in
  mret (released_memory, l_first_idx l1,
    Log snp (l_log l1) (l_max_command_size l1) (l_first_idx l1)
      (idx `max` l_stable_idx l1) last_conf prev_conf (l_memory_usage l1)).
End operations.

(** * Invariant *)

(** The index of the last entry, without wrap-around. *)
Definition log_last (l : log) : Z := l_first_idx l + Z.of_nat (length (l_log l)) - 1.

(** The entry the log holds for an index. *)
Definition entry_at (l : log) (i : Z) : option log_entry :=
  at_z (l_log l) (i - l_first_idx l).

(** The entries are consecutive, start at most one past the snapshot and reach
    at least up to it; the stable index lies between the snapshot and the last
    entry; the index after the last one fits in 64 bits; the
    memory counter is the sum over the entries. *)
Record log_wf `{raft_env} (l : log) : Prop := {
  wf_first_pos : 0 < l_first_idx l;
  wf_first_snp : l_first_idx l <= snp_idx (l_snapshot l) + 1;
  wf_snp_last : snp_idx (l_snapshot l) <= log_last l;
  wf_bound : log_last l + 1 < u64_modulus;
  wf_idx : forall i e, entry_at l i = Some e -> e_idx e = i;
  wf_stable : snp_idx (l_snapshot l) <= l_stable_idx l <= log_last l;
  wf_memory : l_memory_usage l = range_memory_usage (l_max_command_size l) (l_log l);
}.

(** A list of entries with consecutive indexes from [i]. *)
Fixpoint consecutive (i : Z) (es : list log_entry) : Prop :=
  match es with [] => True | e :: es => e_idx e = i /\ consecutive (i + 1) es end.

Lemma consecutive_app i es es' :
  consecutive i (es ++ es') <->
  consecutive i es /\ consecutive (i + Z.of_nat (length es)) es'.
Proof.
  revert i. induction es as [|e es IH]; intros i; simpl.
  - rewrite Z.add_0_r. tauto.
  - rewrite IH. replace (i + Z.of_nat (S (length es))) with (i + 1 + Z.of_nat (length es)) by lia.
    tauto.
Qed.

Lemma consecutive_lookup i es :
  consecutive i es <-> forall k e, es !! k = Some e -> e_idx e = i + Z.of_nat k.
Proof.
  revert i. induction es as [|e es IH]; intros i; simpl; [done|].
  rewrite IH. split.
  - intros [H1 H2] [|k] e' He; simpl in He; [naive_solver lia|].
    apply H2 in He. lia.
  - intros H. split; [rewrite (H 0%nat e eq_refl); lia|].
    intros k e' He. rewrite (H (S k) e' He). lia.
Qed.

Lemma wf_consecutive `{raft_env} l :
  (forall i e, entry_at l i = Some e -> e_idx e = i) <-> consecutive (l_first_idx l) (l_log l).
Proof.
  rewrite consecutive_lookup. unfold entry_at. split.
  - intros H0 k e He. apply H0. rewrite at_z_Some. split; [lia|].
    by replace (Z.to_nat _) with k by lia.
  - intros H0 i e [Hi He]%at_z_Some. apply H0 in He. lia.
Qed.

(** * Basic facts *)

Section facts.
Context {env : raft_env}.

Lemma last_idx_eq l : log_wf l -> last_idx l = log_last l.
Proof. intros []. unfold last_idx, log_last in *. u64_lia. Qed.

Lemma next_idx_eq l : log_wf l -> next_idx l = log_last l + 1.
Proof.
  intros H. unfold next_idx. rewrite last_idx_eq by done. destruct H.
  unfold log_last in *. u64_lia.
Qed.

Lemma entry_at_is_Some l i :
  is_Some (entry_at l i) <-> l_first_idx l <= i <= log_last l.
Proof.
  unfold entry_at, log_last. split.
  - intros [e [Hi He%lookup_lt_Some]%at_z_Some]. lia.
  - intros Hi. destruct (lookup_lt_is_Some_2 (l_log l) (Z.to_nat (i - l_first_idx l)))
      as [e He]; [lia|].
    exists e. apply at_z_Some. split; [lia|done].
Qed.

Lemma get_entry_eq l i :
  log_wf l -> l_first_idx l <= i < u64_modulus -> get_entry l i = defined (entry_at l i).
Proof.
  intros [] Hi. unfold get_entry, entry_at. by rewrite u64_sub_small by (unfold u64_modulus in *; lia).
Qed.

Lemma get_entry_Ret l i :
  log_wf l -> l_first_idx l <= i <= log_last l ->
  exists e, entry_at l i = Some e /\ get_entry l i = Ret e.
Proof.
  intros Hwf Hi. pose proof Hi as [e He]%entry_at_is_Some.
  exists e. rewrite get_entry_eq, He; [done|done|]. destruct Hwf. lia.
Qed.

Lemma entry_at_app l es i :
  i <= log_last l -> at_z (l_log l ++ es) (i - l_first_idx l) = entry_at l i.
Proof.
  intros Hi. apply option_eq. intros e. unfold entry_at, log_last in *. rewrite !at_z_Some.
  split; intros [? He]; (split; [done|]).
  - by rewrite lookup_app_l in He by lia.
  - by rewrite lookup_app_l by lia.
Qed.

(** The sum of memory over a concatenation, modulo 2^64. *)
Lemma range_memory_usage_acc m es x :
  is_u64 x ->
  fold_left (fun result e => result +! memory_usage_of e m) es x =
  x +! range_memory_usage m es.
Proof.
  unfold range_memory_usage. revert x. induction es as [|e es IH]; intros x Hx; simpl.
  - by rewrite u64_add_comm, u64_add_0_l.
  - rewrite IH, (IH (0 +! _)) by apply u64_add_range.
    by rewrite !u64_add_assoc, u64_add_wrap_r.
Qed.

Lemma range_memory_usage_range m es : is_u64 (range_memory_usage m es).
Proof.
  unfold range_memory_usage. destruct es as [|e es] using rev_ind.
  - done.
  - rewrite fold_left_app. apply u64_add_range.
Qed.

Lemma range_memory_usage_app m es es' :
  range_memory_usage m (es ++ es') = range_memory_usage m es +! range_memory_usage m es'.
Proof.
  unfold range_memory_usage at 1. rewrite fold_left_app.
  apply range_memory_usage_acc, range_memory_usage_range.
Qed.

Lemma range_memory_usage_one m e :
  range_memory_usage m [e] = 0 +! memory_usage_of e m.
Proof. reflexivity. Qed.
End facts.

(** * Configuration tracking

    [_last_conf_idx] and [_prev_conf_idx] remember where the last two
    configuration entries above the snapshot are. The ghost index [c] stands for
    "committed anywhere": entries up to it are never truncated. The invariant
    says that the last configuration is tracked exactly, that [_prev_conf_idx],
    when set, is the one before, and that [_prev_conf_idx] is forgotten only
    while a single uncommitted configuration can exist. *)

Definition is_conf_above (snp : Z) (e : log_entry) : Prop :=
  is_Some (entry_configuration e) /\ snp < e_idx e.

#[export] Instance is_conf_above_dec snp e : Decision (is_conf_above snp e).
Proof. unfold is_conf_above. apply _. Defined.

Definition conf_indexes_of (snp : Z) (es : list log_entry) : list Z :=
  map e_idx (filter (is_conf_above snp) es).

Definition conf_indexes (l : log) : list Z :=
  conf_indexes_of (snp_idx (l_snapshot l)) (l_log l).

Record conf_wf (c : Z) (l : log) : Prop := {
  cw_last : l_last_conf_idx l = default 0 (last (conf_indexes l));
  cw_prev : l_prev_conf_idx l = 0 \/
    exists cs, conf_indexes l = cs ++ [l_prev_conf_idx l; l_last_conf_idx l];
  cw_lost : l_prev_conf_idx l = 0 ->
    (length (conf_indexes l) <= 1)%nat \/ l_last_conf_idx l <= c;
  cw_committed : forall cs i, conf_indexes l = cs ++ [i] -> Forall (fun j => j <= c) cs;
}.

Section conf_lemmas.
Context {env : raft_env}.

Lemma conf_indexes_of_app snp es es' :
  conf_indexes_of snp (es ++ es') = conf_indexes_of snp es ++ conf_indexes_of snp es'.
Proof. unfold conf_indexes_of. by rewrite filter_app, map_app. Qed.

Lemma elem_of_conf_indexes_of snp es i :
  i ∈ conf_indexes_of snp es ->
  snp < i /\ exists e, e ∈ es /\ e_idx e = i /\ is_Some (entry_configuration e).
Proof.
  unfold conf_indexes_of. intros (e & -> & [[Hc Hs] He]%list_elem_of_filter)%list_elem_of_fmap.
  naive_solver.
Qed.

Lemma conf_indexes_of_bounds snp i es j :
  consecutive i es -> j ∈ conf_indexes_of snp es ->
  snp < j /\ i <= j < i + Z.of_nat (length es).
Proof.
  intros Hc [Hs (e & [k Hk]%list_elem_of_lookup & <- & _)]%elem_of_conf_indexes_of.
  rewrite consecutive_lookup in Hc. pose proof (Hc _ _ Hk). apply lookup_lt_Some in Hk. lia.
Qed.

Lemma conf_indexes_bounds l j :
  log_wf l -> j ∈ conf_indexes l -> snp_idx (l_snapshot l) < j <= log_last l.
Proof.
  intros Hwf Hj. destruct Hwf as [_ _ _ _ Hc%wf_consecutive _ _].
  pose proof (conf_indexes_of_bounds _ _ _ _ Hc Hj). unfold log_last. lia.
Qed.

(** Cutting the log at position [k] keeps the configurations below it. *)
Lemma conf_indexes_of_take snp i es k :
  consecutive i es -> (k <= length es)%nat ->
  conf_indexes_of snp (take k es) = filter (fun j => j < i + Z.of_nat k) (conf_indexes_of snp es).
Proof.
  intros Hc Hk. rewrite <- (take_drop k es) in Hc. apply consecutive_app in Hc as [Hc1 Hc2].
  rewrite <- (take_drop k es) at 2. rewrite conf_indexes_of_app, filter_app.
  rewrite length_take_le in Hc2 by done.
  rewrite (list_filter_all _ (conf_indexes_of snp (take k es))); [|].
  - rewrite (list_filter_none _ (conf_indexes_of snp (drop k es))); [by rewrite app_nil_r|].
    apply Forall_forall. intros j Hj%(conf_indexes_of_bounds _ _ _ _ Hc2). lia.
  - apply Forall_forall. intros j Hj%(conf_indexes_of_bounds _ _ _ _ Hc1).
    rewrite length_take_le in Hj by done. lia.
Qed.

(** The indexes of configurations increase. *)
Lemma conf_indexes_of_sorted snp i es :
  consecutive i es -> StronglySorted Z.lt (conf_indexes_of snp es).
Proof.
  revert i. induction es as [|e es IH]; intros i Hc; [constructor|].
  destruct Hc as [He Hc]. unfold conf_indexes_of. rewrite filter_cons.
  case_decide; [|by eapply IH]. simpl. constructor; [by eapply IH|].
  apply Forall_forall. intros j Hj.
  pose proof (conf_indexes_of_bounds _ _ _ _ Hc Hj). lia.
Qed.

Lemma conf_indexes_sorted l : log_wf l -> StronglySorted Z.lt (conf_indexes l).
Proof. intros []. by eapply conf_indexes_of_sorted, wf_consecutive. Qed.
End conf_lemmas.

(** * Appending and truncating *)

(** The parts of a log that appending and truncating leave alone. *)
Definition same_base (l l' : log) : Prop :=
  l_snapshot l' = l_snapshot l /\ l_first_idx l' = l_first_idx l /\
  l_max_command_size l' = l_max_command_size l.

Section append.
Context {env : raft_env}.

Lemma emplace_back_base l e : same_base l (emplace_back l e).
Proof. unfold emplace_back. by destruct (entry_configuration e). Qed.

Lemma emplace_back_log l e : l_log (emplace_back l e) = l_log l ++ [e].
Proof. unfold emplace_back. by destruct (entry_configuration e). Qed.

Lemma emplace_back_stable l e : l_stable_idx (emplace_back l e) = l_stable_idx l.
Proof. unfold emplace_back. by destruct (entry_configuration e). Qed.

Lemma emplace_back_memory l e :
  l_memory_usage (emplace_back l e) = l_memory_usage l +! memory_usage_of e (l_max_command_size l).
Proof. unfold emplace_back. by destruct (entry_configuration e). Qed.

Lemma emplace_back_last l e : log_last (emplace_back l e) = log_last l + 1.
Proof.
  unfold log_last. rewrite emplace_back_log, length_app.
  destruct (emplace_back_base l e) as (_ & -> & _). simpl. lia.
Qed.

Lemma emplace_back_wf l e :
  log_wf l -> e_idx e = log_last l + 1 -> log_last l + 2 < u64_modulus ->
  log_wf (emplace_back l e).
Proof.
  intros Hwf He Hb. pose proof (emplace_back_last l e) as Hlast.
  destruct (emplace_back_base l e) as (Hs & Hf & Hm). destruct Hwf.
  split; rewrite ?Hs, ?Hf, ?Hm, ?Hlast, ?emplace_back_stable, ?emplace_back_log; try lia.
  - apply wf_consecutive. rewrite emplace_back_log, Hf. apply consecutive_app.
    split; [by apply wf_consecutive|]. simpl. unfold log_last in He. lia.
  - by rewrite emplace_back_memory, range_memory_usage_app, range_memory_usage_one,
      u64_add_wrap_r, wf_memory0.
Qed.

Lemma emplace_back_conf c l e :
  log_wf l -> conf_wf c l -> e_idx e = log_last l + 1 -> log_last l + 2 < u64_modulus ->
  (is_Some (entry_configuration e) -> Forall (fun j => j <= c) (conf_indexes l)) ->
  conf_wf c (emplace_back l e).
Proof.
  intros Hwf Hc He Hb Hcommitted.
  pose proof (last_idx_eq _ (emplace_back_wf l e Hwf He Hb)) as Hlast.
  rewrite emplace_back_last in Hlast.
  assert (conf_indexes (emplace_back l e) = conf_indexes l ++
    (if decide (is_Some (entry_configuration e)) then [e_idx e] else [])) as Hidx.
  { unfold conf_indexes. destruct (emplace_back_base l e) as (-> & _ & _).
    rewrite emplace_back_log, conf_indexes_of_app. f_equal.
    unfold conf_indexes_of. rewrite filter_cons, filter_nil. destruct Hwf. unfold is_conf_above.
    repeat case_decide; naive_solver lia. }
  unfold emplace_back, last_idx in *. simpl in *.
  destruct (entry_configuration e) as [cfg|] eqn:Ecfg; simpl in *.
  - specialize (Hcommitted ltac:(eauto)).
    destruct Hc as [Hl _ _ _].
    split; simpl; rewrite ?Hidx, ?last_snoc, ?Hlast, ?He; [done|..].
    + destruct (snoc_cases (conf_indexes l)) as [Hn|(cs & i & Hn)]; rewrite Hn in *.
      * by left.
      * right. exists cs. rewrite last_snoc in Hl. by rewrite Hl, <- (assoc_L (++)).
    + intros H0. left. destruct (snoc_cases (conf_indexes l)) as [->|(cs & i & Hn)]; [done|].
      rewrite Hn, last_snoc in Hl. simpl in Hl.
      destruct (conf_indexes_bounds l i) as [? ?]; [done|rewrite Hn; set_solver|].
      destruct Hwf. lia.
    + intros cs i [<- _]%app_inj_tail. done.
  - rewrite app_nil_r in Hidx.
    destruct Hc. split; simpl; rewrite ?Hidx; done.
Qed.

(** Removing a suffix subtracts exactly its memory. *)
Lemma range_memory_usage_take m k es :
  range_memory_usage m es -! range_memory_usage m (drop k es) = range_memory_usage m (take k es).
Proof.
  rewrite <- (take_drop k es) at 1. rewrite range_memory_usage_app, u64_add_comm.
  apply u64_add_sub_l, range_memory_usage_range.
Qed.

Lemma range_memory_usage_drop m k es :
  range_memory_usage m es -! range_memory_usage m (take k es) = range_memory_usage m (drop k es).
Proof.
  rewrite <- (take_drop k es) at 1. rewrite range_memory_usage_app.
  apply u64_add_sub_l, range_memory_usage_range.
Qed.

(** What truncation does to the configuration indexes, and that its assertion
    on them holds: only the last configuration can be above [c]. *)
Lemma truncate_conf c l idx :
  log_wf l -> conf_wf c l -> c < idx -> 0 < idx ->
  let cs := filter (fun j => j < idx) (conf_indexes l) in
  if l_last_conf_idx l >? idx - 1
  then l_prev_conf_idx l < l_last_conf_idx l /\
    l_prev_conf_idx l = default 0 (last cs) /\
    Forall (fun j => j <= c) cs /\ (cs = [] \/ l_prev_conf_idx l <= c)
  else cs = conf_indexes l.
Proof.
  intros Hwf [Hl Hp Hlost Hcom] Hidx Hpos cs.
  destruct (snoc_cases (conf_indexes l)) as [Hn|(js & i & Hn)]; unfold cs; rewrite Hn in *.
  { simpl in Hl. rewrite Hl. by destruct (Z.gtb_spec 0 (idx - 1)); [lia|]. }
  rewrite last_snoc in Hl. simpl in Hl. specialize (Hcom js i eq_refl).
  assert (Forall (fun x => x < i) js) as Hlt.
  { by apply StronglySorted_snoc_lt; rewrite <- Hn; apply conf_indexes_sorted. }
  destruct (conf_indexes_bounds l i Hwf) as [Hi _]; [rewrite Hn; set_solver|].
  rewrite Hl. destruct (Z.gtb_spec i (idx - 1)) as [Hcut|Hcut].
  - rewrite filter_app, filter_cons_False, filter_nil, app_nil_r by lia.
    rewrite list_filter_all by (eapply Forall_impl; [exact Hcom|]; simpl; lia).
    destruct Hp as [Hp|[js' Hp]].
    + rewrite Hp. destruct Hwf, Hlost as [Hlen|]; [done| |lia].
      rewrite length_app in Hlen. destruct js; simpl in Hlen; [|lia].
      split_and!; [lia|done..|by left].
    + apply snoc2_inv in Hp as [-> _].
      rewrite last_snoc. apply Forall_app in Hlt as [_ [Hlt _]%Forall_cons_1].
      split_and!; [done..|]. right. by apply Forall_app in Hcom as [_ [? _]%Forall_cons_1].
  - apply list_filter_all, Forall_app. split; [|repeat constructor; lia].
    eapply Forall_impl; [exact Hlt|]. simpl. lia.
Qed.

(** Truncation returns, keeps the invariants and cuts the log at [idx]. *)
Lemma truncate_uncommitted_spec c l idx :
  log_wf l -> conf_wf c l -> c < idx -> snp_idx (l_snapshot l) < idx <= log_last l + 1 ->
  exists l', truncate_uncommitted l idx = Ret l' /\ same_base l l' /\ log_wf l' /\ conf_wf c l' /\
    l_log l' = take (Z.to_nat (idx - l_first_idx l)) (l_log l) /\
    l_stable_idx l' = l_stable_idx l `min` (idx - 1).
Proof.
  intros Hwf Hc Hcidx Hidx. pose proof Hwf as [].
  pose proof (truncate_conf c l idx Hwf Hc Hcidx ltac:(lia)) as Hconf.
  set (k := Z.to_nat (idx - l_first_idx l)).
  assert (k <= length (l_log l))%nat as Hk by (unfold log_last in *; lia).
  set (l1 := Log (l_snapshot l) (take k (l_log l)) (l_max_command_size l) (l_first_idx l)
    (l_stable_idx l `min` (idx - 1)) (l_last_conf_idx l) (l_prev_conf_idx l)
    (range_memory_usage (l_max_command_size l) (take k (l_log l)))).
  assert (log_last l1 = idx - 1) as Hlast1.
  { unfold log_last. simpl. rewrite length_take_le by done. lia. }
  assert (log_wf l1) as Hwf1.
  { split; rewrite ?Hlast1; simpl; try lia. apply wf_consecutive. simpl.
    apply wf_consecutive in wf_idx0. rewrite <- (take_drop k (l_log l)) in wf_idx0.
    by apply consecutive_app in wf_idx0 as [? _]. }
  assert (conf_indexes l1 = filter (fun j => j < idx) (conf_indexes l)) as Hidx1.
  { unfold conf_indexes. simpl. rewrite (conf_indexes_of_take _ (l_first_idx l)); [|by apply wf_consecutive|done].
    apply list_filter_iff. intros j. lia. }
  assert (truncate_uncommitted l idx =
    if l_last_conf_idx l >? idx - 1 then
      check (l_prev_conf_idx l <? l_last_conf_idx l) ;;
      mret (Log (l_snapshot l1) (l_log l1) (l_max_command_size l1) (l_first_idx l1)
        (l_stable_idx l1) (l_prev_conf_idx l1) 0 (l_memory_usage l1))
    else mret l1) as ->.
  { unfold truncate_uncommitted. rewrite u64_sub_small by lia. rewrite wf_memory0.
    fold k. rewrite range_memory_usage_take. rewrite (proj2 (Z.leb_le _ _)) by lia. simpl.
    rewrite (proj2 (Z.leb_le _ _)) by lia. simpl.
    pose proof (last_idx_eq l1 Hwf1) as Hl1. unfold last_idx in *. simpl in *.
    rewrite Hl1, Hlast1. unfold stable_to, last_idx. simpl. rewrite Hl1, Hlast1.
    rewrite (proj2 (Z.leb_le _ _)) by lia. simpl. by rewrite Hl1, Hlast1. }
  destruct Hc, (l_last_conf_idx l >? idx - 1) eqn:E.
  - destruct Hconf as (Hpl & Hp & Hcom & Hlost). rewrite (proj2 (Z.ltb_lt _ _)) by done. simpl.
    eexists. split_and!; [done|done| | |done|done].
    + destruct Hwf1. by split.
    + split; change (conf_indexes (Log _ _ _ _ _ _ _ _)) with (conf_indexes l1);
        rewrite ?Hidx1; simpl; [done|by left| |].
      * intros _. destruct Hlost as [-> |]; [left; simpl; lia|by right].
      * intros cs i Hcs. rewrite Hcs in Hcom. by apply Forall_app in Hcom as [? _].
  - exists l1. split_and!; [done..| |done|done]. split; rewrite ?Hidx1, ?Hconf; done.
Qed.

(** Raft's rule for a follower (5.3): skip the entries the log already holds,
    and from the first one it does not, replace everything. *)
Fixpoint append_reference (first : Z) (old es : list log_entry) : list log_entry :=
  match es with
  | [] => old
  | e :: rest =>
    if decide (e_idx e < first \/ e_term <$> at_z old (e_idx e - first) = Some (e_term e))
    then append_reference first old rest
    else take (Z.to_nat (e_idx e - first)) old ++ es
  end.

(** What appending leaves of the stable part of a log: it shrinks at most to the
    committed index [c], and its entries stay. *)
Definition stable_kept (c : Z) (l l' : log) : Prop :=
  l_stable_idx l' <= l_stable_idx l /\
  (c `max` snp_idx (l_snapshot l)) `min` l_stable_idx l <= l_stable_idx l' /\
  forall i, i <= l_stable_idx l' -> entry_at l' i = entry_at l i.

Lemma stable_kept_mono c c' l l' : c' <= c -> stable_kept c l l' -> stable_kept c' l l'.
Proof. intros Hc (H1 & H2 & H3). unfold stable_kept. split_and!; [done|lia|done]. Qed.

Lemma stable_kept_refl c l : stable_kept c l l.
Proof. unfold stable_kept. split_and!; [lia|lia|done]. Qed.

Lemma entry_at_prefix l l' i :
  l_first_idx l' = l_first_idx l -> l_log l `prefix_of` l_log l' -> i <= log_last l ->
  entry_at l' i = entry_at l i.
Proof.
  intros Hf [es Hlog] Hi. unfold entry_at, log_last in *. rewrite Hf, Hlog. apply option_eq. intros e.
  rewrite !at_z_Some. split; intros [H0 He]; (split; [done|]).
  - rewrite lookup_app_l in He by lia. done.
  - by apply lookup_app_l_Some.
Qed.

Lemma entry_at_take l l' k i :
  l_first_idx l' = l_first_idx l -> l_log l' = take k (l_log l) -> i < l_first_idx l + Z.of_nat k ->
  entry_at l' i = entry_at l i.
Proof.
  intros Hf Hlog Hi. unfold entry_at. rewrite Hf, Hlog. apply option_eq. intros e. rewrite !at_z_Some.
  split; intros [H0 He]; (split; [done|]).
  - by apply lookup_take_Some in He as [? _].
  - apply lookup_take_Some. split; [done|lia].
Qed.

(** Entries that continue the log are all appended. *)
Lemma maybe_append_loop_tail c l es :
  log_wf l -> conf_wf c l -> consecutive (log_last l + 1) es ->
  log_last l + Z.of_nat (length es) + 1 < u64_modulus ->
  (forall cs i, conf_indexes_of (snp_idx (l_snapshot l)) (l_log l ++ es) = cs ++ [i] ->
    Forall (fun j => j <= c) cs) ->
  exists l', maybe_append_loop l es = Ret l' /\ same_base l l' /\ log_wf l' /\ conf_wf c l' /\
    l_log l' = l_log l ++ es /\ l_stable_idx l' = l_stable_idx l.
Proof.
  revert l. induction es as [|e es IH]; intros l Hwf Hc Hcons Hb Hcom; simpl.
  { exists l. by rewrite app_nil_r. }
  destruct Hcons as [He Hcons]. simpl in Hb.
  assert (log_wf (emplace_back l e)) as Hwf' by (apply emplace_back_wf; [done|done|lia]).
  assert (conf_wf c (emplace_back l e)) as Hc'.
  { apply emplace_back_conf; [done..|lia|]. intros He'.
    apply (Forall_butlast_prefix _ _ (e_idx e) (conf_indexes_of (snp_idx (l_snapshot l)) es)).
    intros cs i Heq. apply (Hcom cs i). rewrite <- Heq, conf_indexes_of_app. f_equal.
    unfold conf_indexes_of. rewrite filter_cons_True; [done|]. destruct Hwf. split; [done|lia]. }
  unfold maybe_append_entry. rewrite last_idx_eq, next_idx_eq by done.
  rewrite He. rewrite (proj2 (Z.leb_gt _ _)) by lia. rewrite Z.eqb_refl. simpl.
  destruct (emplace_back_base l e) as (Hs & Hf & Hm).
  destruct (IH (emplace_back l e)) as (l' & Hl' & Hbase & Hwf'' & Hc'' & Hlog & Hst).
  - done.
  - done.
  - by rewrite emplace_back_last.
  - rewrite emplace_back_last. lia.
  - rewrite Hs, emplace_back_log, <- (assoc_L (++)). done.
  - exists l'. unfold same_base in *. rewrite Hlog, emplace_back_log, <- (assoc_L (++)).
    rewrite Hst, emplace_back_stable. naive_solver congruence.
Qed.

(** The code's loop, which truncates and appends entry by entry, computes the
    reference. *)
Lemma maybe_append_loop_spec c l es j :
  log_wf l -> conf_wf c l -> consecutive j es -> 0 < j <= log_last l + 1 ->
  j + Z.of_nat (length es) < u64_modulus ->
  (forall e e', e ∈ es -> entry_at l (e_idx e) = Some e' ->
    e_idx e <= c `max` snp_idx (l_snapshot l) -> e_term e = e_term e') ->
  (forall cs i, conf_indexes_of (snp_idx (l_snapshot l))
      (append_reference (l_first_idx l) (l_log l) es) = cs ++ [i] ->
    Forall (fun j => j <= c) cs) ->
  exists l', maybe_append_loop l es = Ret l' /\ same_base l l' /\ log_wf l' /\ conf_wf c l' /\
    l_log l' = append_reference (l_first_idx l) (l_log l) es /\ stable_kept c l l'.
Proof.
  revert j. induction es as [|e es IH]; intros j Hwf Hc Hcons Hj Hb Hnc Hcom.
  { exists l. split_and!; try done. apply stable_kept_refl. }
  destruct Hcons as [He Hcons]. simpl in *. pose proof Hwf as [].
  case_decide as Hd.
  - assert (j <= log_last l /\ maybe_append_entry l e = Ret l) as [Hjl ->].
    { unfold maybe_append_entry. rewrite last_idx_eq, He by done.
      destruct Hd as [Hd|(e' & He' & Ht)%fmap_Some]; rewrite ?He in *.
      - zbool. split; [lia|done].
      - change (at_z _ _) with (entry_at l j) in He'.
        assert (l_first_idx l <= j <= log_last l) by (apply entry_at_is_Some; eauto).
        rewrite get_entry_eq, He' by (done || lia). simpl. zbool. split; [lia|done]. }
    apply (IH (j + 1)); try done; [lia..|]. intros e1 e1' H1. apply Hnc. by right.
  - apply Decidable.not_or in Hd as [Hd1 Hd2]. rewrite He in Hd1, Hd2, Hcom |- *.
    change (at_z _ _) with (entry_at l j) in Hd2.
    destruct (entry_at l j) as [e'|] eqn:Hej.
    + assert (l_first_idx l <= j <= log_last l) by (apply entry_at_is_Some; eauto).
      assert (c `max` snp_idx (l_snapshot l) < j).
      { apply Z.lt_nge. intros Hle. apply Hd2. simpl. f_equal. symmetry.
        apply Hnc; [by left|by rewrite He|by rewrite He]. }
      destruct (truncate_uncommitted_spec c l j) as (l2 & Ht & (Hs2 & Hf2 & Hm2) & Hwf2 & Hc2 & Hlog2 & Hst2);
        [done|done|lia|lia|].
      assert (log_last l2 = j - 1) as Hlast2.
      { unfold log_last in *. rewrite Hlog2, Hf2, length_take_le by lia. lia. }
      destruct (maybe_append_loop_tail c l2 (e :: es)) as (l' & Hl' & Hbase' & Hwf' & Hc' & Hlog' & Hst');
        [done|done| | | |].
      * rewrite Hlast2. simpl. replace (j - 1 + 1) with j by lia. done.
      * rewrite Hlast2. simpl. lia.
      * rewrite Hs2, Hlog2. done.
      * assert (stable_kept c l l') as Hkept.
        { destruct Hbase' as (_ & Hf' & _). rewrite Hst2 in Hst'. unfold stable_kept. split_and!; [lia|lia|]. intros i Hi.
          rewrite (entry_at_prefix l2 l' i), (entry_at_take l l2 (Z.to_nat (j - l_first_idx l)) i);
            [done|done|done|lia|done|rewrite Hlog'; by apply prefix_app_r|lia]. }
        exists l'. split_and!; [|unfold same_base in *; naive_solver congruence|done|done|by rewrite Hlog', Hlog2|done].
        rewrite <- Hl'. simpl. unfold maybe_append_entry.
        rewrite !last_idx_eq, Hlast2, He by done.
        assert (e_term e <> e_term e') by (intros Heq; apply Hd2; simpl; congruence).
        rewrite get_entry_eq, Hej by (done || lia). simpl. zbool. simpl. by rewrite Ht.
    + assert (j = log_last l + 1) as Hjl.
      { destruct (decide (l_first_idx l <= j <= log_last l)) as [Hr%entry_at_is_Some|]; [|lia].
        rewrite Hej in Hr. by destruct Hr. }
      assert (take (Z.to_nat (j - l_first_idx l)) (l_log l) = l_log l) as Htake.
      { apply take_ge. unfold log_last in Hjl. lia. }
      rewrite Htake in *.
      destruct (maybe_append_loop_tail c l (e :: es)) as (l' & Hl' & Hbase' & Hwf' & Hc' & Hlog' & Hst');
        [done|done|by rewrite <- Hjl|simpl; lia|done|].
      exists l'. unfold stable_kept. split_and!; try done; [lia|lia|]. intros i Hi. destruct Hbase' as (_ & Hf' & _).
      apply entry_at_prefix; [done|rewrite Hlog'; by apply prefix_app_r|lia].
Qed.
End append.

(** * Snapshots *)

Section snapshots.
Context {env : raft_env}.

(** The entries of [l] from position [k] up to position [n]. *)
Definition slice (l : log) (k n : nat) : list log_entry := take (n - k) (drop k (l_log l)).

Lemma slice_snoc l k n e :
  (k <= n)%nat -> l_log l !! n = Some e -> slice l k (S n) = slice l k n ++ [e].
Proof.
  intros Hk He. unfold slice. replace (S n - k)%nat with (S (n - k)) by lia.
  apply take_S_r. rewrite lookup_drop. by replace (k + (n - k))%nat with n by lia.
Qed.

(** The trailing loop stops above the bound on entries and on bytes. *)
Lemma trailing_loop_spec l me mb i tb n :
  (n <= length (l_log l))%nat -> is_u64 tb -> tb <= mb ->
  exists n', trailing_loop l me mb i tb n = Ret n' /\ (n' <= n)%nat /\
    Z.of_nat (n - n') <= 0 `max` (me - i) /\
    tb +! range_memory_usage (l_max_command_size l) (slice l n' n) <= mb.
Proof.
  revert i tb. induction n as [|n IH]; intros i tb Hn Hu Hb; simpl.
  { exists 0%nat. split_and!; [done|done|lia|]. by rewrite u64_add_comm, u64_add_0_l. }
  assert (tb +! range_memory_usage (l_max_command_size l) (slice l (S n) (S n)) <= mb) as Hstop.
  { unfold slice. rewrite Nat.sub_diag. by rewrite u64_add_comm, u64_add_0_l. }
  destruct (Z.ltb_spec i me) as [Hi|Hi]; [|exists (S n); split_and!; [done|done|lia|done]].
  destruct (lookup_lt_is_Some_2 (l_log l) n) as [e He]; [lia|]. rewrite He. simpl.
  destruct (Z.gtb_spec (tb +! memory_usage_of e (l_max_command_size l)) mb);
    [exists (S n); split_and!; [done|done|lia|done]|].
  destruct (IH (i + 1) (tb +! memory_usage_of e (l_max_command_size l)))
    as (n' & Hn' & Hle & Hcount & Hsum); [lia|apply u64_add_range|lia|].
  exists n'. split_and!; [done|lia|lia|].
  rewrite (slice_snoc _ _ _ e) by (done || lia).
  rewrite range_memory_usage_app, range_memory_usage_one, u64_add_wrap_r.
  rewrite u64_add_assoc in Hsum. by rewrite (u64_add_comm (range_memory_usage _ _)).
Qed.

(** Dropping entries that the snapshot covers keeps the configurations above it. *)
Lemma conf_indexes_of_drop snp snp' i es k :
  snp <= snp' -> consecutive i es -> i + Z.of_nat k <= snp' + 1 ->
  conf_indexes_of snp' (drop k es) = filter (fun j => snp' < j) (conf_indexes_of snp es).
Proof.
  intros Hs Hc Hk.
  assert (forall es, conf_indexes_of snp' es = filter (fun j => snp' < j) (conf_indexes_of snp es)) as Hall.
  { intros es'. unfold conf_indexes_of. induction es' as [|e es' IH]; [done|].
    rewrite !filter_cons. unfold is_conf_above in *.
    repeat case_decide; simpl; rewrite ?filter_cons; repeat case_decide; simpl; rewrite ?IH;
      (done || naive_solver lia). }
  rewrite <- Hall. rewrite <- (take_drop k es) at 2. rewrite conf_indexes_of_app.
  enough (conf_indexes_of snp' (take k es) = []) as -> by done.
  apply elem_of_nil_inv. intros j Hj.
  rewrite <- (take_drop k es) in Hc. apply consecutive_app in Hc as [Hc _].
  pose proof (conf_indexes_of_bounds _ _ _ _ Hc Hj) as [? Hb].
  rewrite length_take in Hb. lia.
Qed.

(** [apply_snapshot]'s update of the two configuration indexes. *)
Definition snapshot_conf (l : log) (idx : index_t) : index_t * index_t :=
  if idx >=? l_prev_conf_idx l
  then ((if idx >=? l_last_conf_idx l then 0 else l_last_conf_idx l), 0)
  else (l_last_conf_idx l, l_prev_conf_idx l).

Lemma snapshot_conf_wf c l l' :
  log_wf l -> conf_wf c l -> snp_idx (l_snapshot l) < snp_idx (l_snapshot l') ->
  conf_indexes l' = filter (fun j => snp_idx (l_snapshot l') < j) (conf_indexes l) ->
  (l_last_conf_idx l', l_prev_conf_idx l') = snapshot_conf l (snp_idx (l_snapshot l')) ->
  conf_wf c l'.
Proof.
  intros Hwf [Hl Hp Hlost Hcom] Hs Hidx Heq. unfold snapshot_conf in Heq.
  set (s' := snp_idx (l_snapshot l')) in *. pose proof (conf_indexes_sorted l Hwf) as Hsort.
  assert (0 <= s') by (destruct Hwf; lia).
  destruct (decide (Forall (fun j => j <= s') (conf_indexes l))) as [Hall|Hall].
  { assert (l_last_conf_idx l <= s' /\ l_prev_conf_idx l <= s') as [? ?].
    { rewrite Forall_forall in Hall. split.
      - rewrite Hl. destruct (last (conf_indexes l)) as [i|] eqn:E; simpl; [|lia].
        by apply Hall, last_Some_elem_of.
      - destruct Hp as [?|[cs Hp]]; [lia|]. apply Hall. rewrite Hp. set_solver. }
    rewrite list_filter_none in Hidx by (eapply Forall_impl; [exact Hall|]; simpl; lia).
    revert Heq. zbool. intros [= Hl' Hp'].
    split; rewrite ?Hidx; simpl; [done|by left|left; lia|]. intros [] ?; done. }
  destruct (snoc_cases (conf_indexes l)) as [Hn|(cs & i & Hn)];
    [exfalso; apply Hall; rewrite Hn; constructor|].
  rewrite Hn in *. pose proof (StronglySorted_snoc_lt _ _ _ Hsort) as Hlt.
  rewrite last_snoc in Hl. simpl in Hl. specialize (Hcom _ _ eq_refl).
  assert (s' < i) as Hi.
  { apply Z.nle_gt. intros Hle. apply Hall, Forall_app. split; [|by repeat constructor].
    eapply Forall_impl; [exact Hlt|]. simpl. lia. }
  rewrite filter_app, filter_cons_True, filter_nil in Hidx by done.
  assert (Forall (fun j => j <= c) (filter (fun j => s' < j) cs)) as Hcom'.
  { apply Forall_forall. intros j [_ Hj]%list_elem_of_filter. by rewrite Forall_forall in Hcom; apply Hcom. }
  assert (forall cs' i', conf_indexes l' = cs' ++ [i'] -> Forall (fun j => j <= c) cs') as Hcom''.
  { rewrite Hidx. by intros ? ? [<- _]%app_inj_tail. }
  destruct (Z.geb_spec s' (l_prev_conf_idx l)) as [Hsp|Hsp].
  - revert Heq. zbool. intros [= Hl' Hp'].
    split; rewrite ?Hidx, ?last_snoc, ?Hl', ?Hp'; [done|by left| |by rewrite <- Hidx].
    intros _. destruct Hp as [Hp|[cs' [-> _]%snoc2_inv]].
    + destruct (Hlost Hp) as [Hlen|]; [left|by right].
      rewrite length_app in *. pose proof (length_filter (fun j => s' < j) cs). simpl in *. lia.
    + left. rewrite list_filter_none; [done|]. apply StronglySorted_app_1_l in Hsort.
      apply Forall_app. split; [|constructor; [lia|constructor]].
      eapply Forall_impl; [by apply StronglySorted_snoc_lt|]. simpl. lia.
  - injection Heq as Hl' Hp'. destruct Hp as [Hp|[cs' [-> _]%snoc2_inv]]; [lia|].
    rewrite filter_app, filter_cons_True, filter_nil in Hidx by lia.
    split; [by rewrite Hidx, last_snoc, Hl'| |lia|done].
    right. eexists. by rewrite Hidx, Hl', Hp', <- (assoc_L (++)), Hl.
Qed.

(** What [apply_snapshot] promises: [l'] is [l] with snapshot [snp] and its
    first [n] entries, all covered by the snapshot, dropped. *)
Record snapshot_applied (l : log) (snp : snapshot_descriptor) (me mb released : Z) (l' : log) : Prop := {
  sa_snapshot : l_snapshot l' = snp;
  sa_first : l_first_idx l' <= snp_idx snp + 1;
  sa_kept : forall i, l_first_idx l' <= i -> entry_at l' i = entry_at l i;
  sa_entries : snp_idx snp + 1 - l_first_idx l' <= me;
  sa_bytes : range_memory_usage (l_max_command_size l)
    (take (Z.to_nat (snp_idx snp + 1 - l_first_idx l')) (l_log l')) <= mb;
  sa_memory : l_memory_usage l = released +! l_memory_usage l';
  sa_stable : l_stable_idx l' = snp_idx snp `max` l_stable_idx l;
}.

(** The log [apply_snapshot] builds from the remaining entries. *)
Definition with_snapshot (l : log) (snp : snapshot_descriptor) (es : list log_entry) (first mem : Z) : log :=
  let '(last_conf, prev_conf) := snapshot_conf l (snp_idx snp) in
  Log snp es (l_max_command_size l) first (snp_idx snp `max` l_stable_idx l) last_conf prev_conf mem.

Lemma with_snapshot_wf c l snp es first n :
  log_wf l -> conf_wf c l -> snp_idx (l_snapshot l) < snp_idx snp ->
  es = drop n (l_log l) ->
  0 < first <= snp_idx snp + 1 ->
  l_first_idx l + Z.of_nat n <= snp_idx snp + 1 ->
  (es = [] \/ first = l_first_idx l + Z.of_nat n) ->
  snp_idx snp `max` log_last l = first + Z.of_nat (length es) - 1 ->
  snp_idx snp `max` log_last l + 1 < u64_modulus ->
  let l' := with_snapshot l snp es first (range_memory_usage (l_max_command_size l) es) in
  log_wf l' /\ conf_wf c l'.
Proof.
  intros Hwf Hc Hs Hes Hfirst Hn Hcase Hlast Hb l'.
  assert (log_last l' = first + Z.of_nat (length es) - 1 /\ l_snapshot l' = snp /\ l_log l' = es /\
    l_first_idx l' = first /\ l_stable_idx l' = snp_idx snp `max` l_stable_idx l /\
    l_max_command_size l' = l_max_command_size l /\
    l_memory_usage l' = range_memory_usage (l_max_command_size l) es /\
    (l_last_conf_idx l', l_prev_conf_idx l') = snapshot_conf l (snp_idx snp))
    as (Hll & Hsnp & Hlog & Hf & Hst & Hm & Hmem & Hconf).
  { unfold l', with_snapshot, log_last. by destruct (snapshot_conf l (snp_idx snp)). }
  pose proof Hwf as []. apply wf_consecutive in wf_idx0. split.
  - split; rewrite ?Hll, ?Hsnp, ?Hf, ?Hst, ?Hm, ?Hmem, ?Hlog; try lia.
    apply wf_consecutive. rewrite Hlog, Hf. destruct Hcase as [-> | ->]; [done|].
    rewrite Hes. destruct (decide (n <= length (l_log l))%nat); [|by rewrite drop_ge by lia].
    rewrite <- (take_drop n (l_log l)), consecutive_app, length_take_le in wf_idx0 by done. tauto.
  - apply (snapshot_conf_wf c l l' Hwf Hc); rewrite ?Hsnp; [done| |done].
    unfold conf_indexes. rewrite Hsnp, Hlog, Hes.
    by apply (conf_indexes_of_drop _ _ (l_first_idx l)); [lia|..].
Qed.

(** The code's result when the snapshot is ahead of the log. *)
Lemma log_apply_snapshot_ahead l snp me mb :
  log_wf l -> log_last l < snp_idx snp < u64_modulus - 1 ->
  log_apply_snapshot l snp me mb =
  Ret (l_memory_usage l, snp_idx snp + 1, with_snapshot l snp [] (snp_idx snp + 1) 0).
Proof.
  intros Hwf Hs. pose proof Hwf as [].
  unfold log_apply_snapshot, with_snapshot, snapshot_conf. rewrite last_idx_eq by done. zbool. simpl.
  rewrite u64_add_small by lia. by repeat case_match.
Qed.

(** The code's result when the snapshot ends inside the log. *)
Lemma log_apply_snapshot_inside l snp me mb :
  log_wf l -> snp_idx (l_snapshot l) < snp_idx snp <= log_last l -> 0 <= mb ->
  exists n,
    let k := Z.to_nat (snp_idx snp + 1 - l_first_idx l) in
    log_apply_snapshot l snp me mb =
      Ret (range_memory_usage (l_max_command_size l) (take n (l_log l)), l_first_idx l + Z.of_nat n,
        with_snapshot l snp (drop n (l_log l)) (l_first_idx l + Z.of_nat n)
          (range_memory_usage (l_max_command_size l) (drop n (l_log l)))) /\
    (n <= k)%nat /\ Z.of_nat (k - n) <= 0 `max` me /\
    range_memory_usage (l_max_command_size l) (slice l n k) <= mb.
Proof.
  intros Hwf Hs Hmb. pose proof Hwf as [].
  set (k := Z.to_nat (snp_idx snp + 1 - l_first_idx l)).
  assert (k <= length (l_log l))%nat by (unfold log_last in *; lia).
  destruct (trailing_loop_spec l me mb 0 0 k) as (n & Hn & Hle & Hcount & Hsum); [done|done|done|].
  rewrite u64_add_0_l in Hsum by apply range_memory_usage_range.
  exists n. split_and!; [|done|lia|done].
  unfold log_apply_snapshot, with_snapshot, snapshot_conf. rewrite last_idx_eq by done. zbool. simpl.
  rewrite (u64_sub_small (log_last l)) by (unfold log_last in *; lia).
  rewrite u64_sub_small by (unfold log_last in *; lia).
  replace (Z.to_nat (Z.of_nat (length (l_log l)) - (log_last l - snp_idx snp))) with k
    by (unfold log_last in *; lia).
  rewrite Hn. simpl. rewrite u64_add_small by (unfold log_last in *; lia).
  rewrite wf_memory0, range_memory_usage_drop. by repeat case_match.
Qed.

Lemma log_apply_snapshot_correct c l snp me mb :
  log_wf l -> conf_wf c l -> snp_idx (l_snapshot l) < snp_idx snp ->
  snp_idx snp + 1 < u64_modulus -> 0 <= me -> 0 <= mb ->
  exists released l', log_apply_snapshot l snp me mb = Ret (released, l_first_idx l', l') /\
    log_wf l' /\ conf_wf c l' /\ snapshot_applied l snp me mb released l'.
Proof.
  intros Hwf Hc Hs Hb Hme Hmb. pose proof Hwf as [].
  destruct (decide (log_last l < snp_idx snp)) as [Hahead|Hinside].
  - rewrite log_apply_snapshot_ahead by (done || lia).
    destruct (with_snapshot_wf c l snp [] (snp_idx snp + 1) (length (l_log l))) as [Hwf' Hc'];
      [done..|by rewrite drop_ge|lia|unfold log_last in *; lia|by left|simpl; lia|lia|].
    do 2 eexists. split_and!; [|exact Hwf'|exact Hc'|].
    { unfold with_snapshot. by destruct (snapshot_conf _ _). }
    clear Hwf' Hc'. unfold with_snapshot. destruct (snapshot_conf _ _).
    split; simpl; [done|lia| |lia|by rewrite take_nil| |done].
    + intros i Hi. unfold entry_at at 1. simpl.
      destruct (entry_at l i) eqn:E; [|by unfold at_z; case_match].
      assert (is_Some (entry_at l i)) as ?%entry_at_is_Some by eauto. lia.
    + by rewrite u64_add_comm, u64_add_0_l by (rewrite wf_memory0; apply range_memory_usage_range).
  - destruct (log_apply_snapshot_inside l snp me mb) as (n & -> & Hn & Hcount & Hsum); [done|lia|done|].
    set (k := Z.to_nat (snp_idx snp + 1 - l_first_idx l)) in *.
    destruct (with_snapshot_wf c l snp (drop n (l_log l)) (l_first_idx l + Z.of_nat n) n) as [Hwf' Hc'];
      [done..|lia|lia|by right|rewrite length_drop; unfold log_last in *; lia|lia|].
    do 2 eexists. split_and!; [|exact Hwf'|exact Hc'|].
    { unfold with_snapshot. by destruct (snapshot_conf _ _). }
    clear Hwf' Hc'. unfold with_snapshot. destruct (snapshot_conf _ _).
    split; simpl; [done|lia| |lia| | |done].
    + intros i Hi. apply option_eq. intros e. unfold entry_at. simpl. rewrite !at_z_Some, lookup_drop.
      replace (n + Z.to_nat (i - (l_first_idx l + Z.of_nat n)))%nat
        with (Z.to_nat (i - l_first_idx l)) by lia. intuition lia.
    + unfold slice in Hsum. by replace (Z.to_nat _) with (k - n)%nat by lia.
    + by rewrite <- range_memory_usage_app, take_drop.
Qed.
End snapshots.

(** * Reading configurations *)

(** The configuration entries above the snapshot, with their indexes. *)
Definition conf_entries_of (snp : Z) (es : list log_entry) : list (Z * configuration) :=
  omap (fun e => if decide (snp < e_idx e) then pair (e_idx e) <$> entry_configuration e else None) es.

Definition conf_entries (l : log) : list (Z * configuration) :=
  conf_entries_of (snp_idx (l_snapshot l)) (l_log l).

(** The configuration in force at index [i]: the last configuration entry at or
    below [i], or the snapshot's. *)
Definition effective_configuration (l : log) (i : index_t) : configuration :=
  default (snp_config (l_snapshot l))
    (snd <$> last (filter (fun p => p.1 <= i) (conf_entries l))).

Section configurations.
Context {env : raft_env}.

Lemma conf_entries_of_indexes snp es : (conf_entries_of snp es).*1 = conf_indexes_of snp es.
Proof.
  unfold conf_entries_of, conf_indexes_of. induction es as [|e es IH]; [done|]. simpl.
  destruct (decide (is_conf_above snp e)) as [[[c Hc] Hs]|Hn].
  - rewrite filter_cons_True by (split; eauto). rewrite decide_True, Hc by done. simpl. by f_equal.
  - rewrite filter_cons_False by done. case_decide; [|done].
    destruct (entry_configuration e) eqn:E; [|done]. exfalso. apply Hn. split; eauto.
Qed.

Lemma elem_of_conf_entries_of snp es i c :
  (i, c) ∈ conf_entries_of snp es ->
  exists e, e ∈ es /\ e_idx e = i /\ entry_configuration e = Some c.
Proof.
  unfold conf_entries_of. intros (e & He & Hc)%list_elem_of_omap. case_decide; [|done].
  apply fmap_Some in Hc as (c' & Hc & [= -> ->]). eauto.
Qed.

Lemma get_configuration_entry_ok l i c :
  log_wf l -> (i, c) ∈ conf_entries l -> get_configuration_entry l i = Ret c.
Proof.
  intros Hwf (e & [k Hk]%list_elem_of_lookup & <- & Hc)%elem_of_conf_entries_of.
  pose proof Hwf as [? ? ? ? Hcons%wf_consecutive ? ?].
  rewrite consecutive_lookup in Hcons. pose proof (Hcons _ _ Hk) as Hi.
  unfold get_configuration_entry. pose proof (lookup_lt_Some _ _ _ Hk).
  rewrite get_entry_eq by (done || unfold log_last in *; lia).
  unfold entry_at. replace (e_idx e - l_first_idx l) with (Z.of_nat k) by lia.
  by rewrite at_z_nat, Hk; simpl; rewrite Hc.
Qed.

(** Cutting the configurations at an index that separates them. *)
Lemma filter_conf_entries snp es i cs cs' :
  (conf_entries_of snp es).*1 = cs ++ cs' ->
  Forall (fun j => j <= i) cs -> Forall (fun j => ~ j <= i) cs' ->
  exists ps ps', conf_entries_of snp es = ps ++ ps' /\ ps.*1 = cs /\
    filter (fun p : Z * configuration => p.1 <= i) (conf_entries_of snp es) = ps.
Proof.
  intros (ps & ps' & -> & -> & Heq)%fmap_app_inv H1 H2. exists ps, ps'.
  split_and!; [done|done|]. rewrite Heq, filter_app.
  rewrite list_filter_all by (rewrite Forall_fmap in H1; exact H1).
  rewrite list_filter_none by (rewrite Forall_fmap in H2; exact H2).
  apply app_nil_r.
Qed.

Lemma conf_entries_of_middle snp es e es' :
  snp < e_idx e ->
  conf_entries_of snp (es ++ e :: es') = conf_entries_of snp es ++
    (match entry_configuration e with Some c => [(e_idx e, c)] | None => [] end) ++
    conf_entries_of snp es'.
Proof.
  intros Hs. unfold conf_entries_of. rewrite omap_app. f_equal. simpl.
  rewrite decide_True by done. by destruct (entry_configuration e).
Qed.

Lemma conf_entries_of_bounds snp i es :
  consecutive i es ->
  Forall (fun p : Z * configuration => i <= p.1 < i + Z.of_nat (length es)) (conf_entries_of snp es).
Proof.
  intros Hc. apply Forall_forall. intros p Hp%(list_elem_of_fmap_2 fst).
  rewrite conf_entries_of_indexes in Hp.
  pose proof (conf_indexes_of_bounds _ _ _ _ Hc Hp). lia.
Qed.

(** The entry at [i] decides the configuration in force at [i]. *)
Lemma effective_configuration_step l i e :
  log_wf l -> snp_idx (l_snapshot l) < i -> entry_at l i = Some e ->
  effective_configuration l i =
  match entry_configuration e with
  | Some c => c
  | None => effective_configuration l (i - 1)
  end.
Proof.
  intros Hwf Hs [Hi Hk]%at_z_Some. pose proof Hwf as [_ _ _ _ Hcons%wf_consecutive _ _].
  unfold effective_configuration, conf_entries.
  apply take_drop_middle in Hk as Heq. rewrite <- Heq in Hcons |- *.
  apply consecutive_app in Hcons as [Hc1 [He Hc2]].
  set (k := Z.to_nat (i - l_first_idx l)) in *.
  rewrite length_take_le in Hc2, He by (apply lookup_lt_Some in Hk; lia).
  pose proof (conf_entries_of_bounds (snp_idx (l_snapshot l)) _ _ Hc1) as Hb1.
  pose proof (conf_entries_of_bounds (snp_idx (l_snapshot l)) _ _ Hc2) as Hb2.
  rewrite length_take_le in Hb1 by (apply lookup_lt_Some in Hk; lia).
  rewrite conf_entries_of_middle, He by lia.
  destruct (entry_configuration e) as [c|]; rewrite !filter_app.
  - rewrite filter_cons_True, filter_nil by (simpl; lia).
    rewrite (list_filter_none _ (conf_entries_of _ (drop _ _)))
      by (eapply Forall_impl; [exact Hb2|]; simpl; lia).
    by rewrite app_nil_r, last_snoc.
  - rewrite filter_nil, !(list_filter_none _ (conf_entries_of _ (drop _ _)))
      by (eapply Forall_impl; [exact Hb2|]; simpl; lia).
    by rewrite !(list_filter_all _ (conf_entries_of _ (take _ _)))
      by (eapply Forall_impl; [exact Hb1|]; simpl; lia).
Qed.

(** The entry that holds the configuration in force at [i], found from the
    indexes of the configurations. *)
Lemma effective_configuration_lookup l i cs cs' :
  log_wf l -> conf_indexes l = cs ++ cs' ->
  Forall (fun j => j <= i) cs -> Forall (fun j => i < j) cs' ->
  match last cs with
  | None => effective_configuration l i = snp_config (l_snapshot l)
  | Some j => get_configuration_entry l j = Ret (effective_configuration l i)
  end.
Proof.
  intros Hwf Heq H1 H2. unfold conf_indexes in Heq. rewrite <- conf_entries_of_indexes in Heq.
  destruct (filter_conf_entries _ _ i _ _ Heq H1) as (ps & ps' & Hps & <- & Hf).
  { eapply Forall_impl; [exact H2|]. simpl. lia. }
  fold (conf_entries l) in *. unfold effective_configuration. rewrite Hf, fmap_last.
  destruct (last ps) as [[j c]|] eqn:E; [|done]. simpl.
  apply get_configuration_entry_ok; [done|]. rewrite Hps.
  apply elem_of_app. left. by apply last_Some_elem_of.
Qed.

(** The last configuration, read through [_last_conf_idx]. *)
Lemma get_configuration_correct c l :
  log_wf l -> conf_wf c l -> get_configuration l = Ret (effective_configuration l (log_last l)).
Proof.
  intros Hwf [Hl _ _ _]. unfold get_configuration.
  pose proof (effective_configuration_lookup l (log_last l) (conf_indexes l) [] Hwf) as He.
  rewrite app_nil_r in He. destruct (last (conf_indexes l)) as [i|] eqn:E; simpl in Hl; rewrite Hl.
  - destruct (conf_indexes_bounds l i) as [Hi _]; [done|by apply last_Some_elem_of|].
    pose proof Hwf as []. zbool. apply He; [done| |constructor].
    apply Forall_forall. intros j Hj%conf_indexes_bounds; [lia|done].
  - rewrite He; [done|done| |constructor].
    apply Forall_forall. intros j Hj%conf_indexes_bounds; [lia|done].
Qed.

Lemma effective_configuration_snapshot l :
  log_wf l -> effective_configuration l (snp_idx (l_snapshot l)) = snp_config (l_snapshot l).
Proof.
  intros Hwf. apply (effective_configuration_lookup l _ [] (conf_indexes l)); [done..|].
  apply Forall_forall. intros j Hj%conf_indexes_bounds; [lia|done].
Qed.

(** Logs with the same configuration at [i] and the same entries after it. *)
Lemma effective_configuration_agree l l' i j :
  log_wf l -> log_wf l' -> snp_idx (l_snapshot l) <= i -> snp_idx (l_snapshot l') <= i -> i <= j <= log_last l' ->
  effective_configuration l' i = effective_configuration l i ->
  (forall k e, i < k <= j -> entry_at l' k = Some e -> entry_at l k = Some e) ->
  effective_configuration l' j = effective_configuration l j.
Proof.
  intros Hwf Hwf' Hi Hi' Hj Heq He. assert (forall k : nat, i + Z.of_nat k <= j ->
    effective_configuration l' (i + Z.of_nat k) = effective_configuration l (i + Z.of_nat k)) as Hk.
  2: { replace j with (i + Z.of_nat (Z.to_nat (j - i))) by lia. apply Hk. lia. }
  induction k as [|k IH]; intros Hkl; [by rewrite Z.add_0_r|]. pose proof Hwf' as [].
  assert (is_Some (entry_at l' (i + Z.of_nat (S k)))) as [e He']; [apply entry_at_is_Some; lia|].
  pose proof (He (i + Z.of_nat (S k)) e ltac:(lia) He') as Hl.
  rewrite (effective_configuration_step l' _ e Hwf'), (effective_configuration_step l _ e Hwf) by (done || lia).
  destruct (entry_configuration e); [done|].
  replace (i + Z.of_nat (S k) - 1) with (i + Z.of_nat k) by lia. apply IH. lia.
Qed.

Lemma last_conf_for_loop_correct fuel l idx :
  log_wf l -> snp_idx (l_snapshot l) <= idx <= log_last l ->
  idx - snp_idx (l_snapshot l) <= Z.of_nat fuel ->
  last_conf_for_loop fuel l idx = Ret (effective_configuration l idx).
Proof.
  intros Hwf. pose proof Hwf as []. revert idx. induction fuel as [|fuel IH]; intros idx Hi Hf; simpl.
  - replace idx with (snp_idx (l_snapshot l)) by lia. zbool.
    by rewrite effective_configuration_snapshot.
  - destruct (Z.gtb_spec idx (snp_idx (l_snapshot l))) as [Hgt|Hle].
    + destruct (get_entry_Ret l idx) as (e & He & ->); [done|lia|]. simpl.
      rewrite (effective_configuration_step _ _ e) by done.
      destruct (entry_configuration e); [done|].
      rewrite u64_sub_small by lia. apply IH; lia.
    + replace idx with (snp_idx (l_snapshot l)) by lia. by rewrite effective_configuration_snapshot.
Qed.
End configurations.

(** * The constructor *)

Section constructor.
Context {env : raft_env}.

(** The reverse scan after the last configuration was found. *)
Lemma init_loop_found snp i es x :
  x <> 0 -> consecutive i es -> es = [] \/ snp <= i + Z.of_nat (length es) - 1 ->
  init_last_conf_idx_loop snp (rev es) x 0 = (x, default 0 (last (conf_indexes_of snp es))).
Proof.
  intros Hx. revert i. induction es as [|e es IH] using rev_ind; intros i Hc Hs; [done|].
  rewrite rev_app_distr. simpl. apply consecutive_app in Hc as [Hc [He _]].
  destruct Hs as [Hs|Hs]; [by destruct es|]. rewrite length_app in Hs. simpl in Hs.
  rewrite conf_indexes_of_app. unfold conf_indexes_of at 2.
  destruct (Z.eqb_spec (e_idx e) snp) as [Heq|Hne].
  - rewrite filter_cons_False, filter_nil, app_nil_r by (intros [? ?]; lia).
    rewrite (elem_of_nil_inv (conf_indexes_of snp es)); [done|].
    intros j Hj%(conf_indexes_of_bounds _ _ _ _ Hc). lia.
  - destruct (entry_configuration e) as [cfg|] eqn:E.
    + rewrite filter_cons_True, filter_nil by (split; [eauto|lia]).
      change (map e_idx [e]) with [e_idx e]. rewrite last_snoc. by zbool.
    + rewrite filter_cons_False, filter_nil, app_nil_r by (intros [[? ?] ?]; congruence).
      apply (IH i Hc). destruct es; [by left|right; simpl in *; lia].
Qed.

(** The whole reverse scan finds the last two configurations. *)
Lemma init_loop_spec snp i es :
  0 <= snp -> consecutive i es -> es = [] \/ snp <= i + Z.of_nat (length es) - 1 ->
  let cs := conf_indexes_of snp es in
  let r := init_last_conf_idx_loop snp (rev es) 0 0 in
  r.1 = default 0 (last cs) /\
  (r.2 = 0 /\ (length cs <= 1)%nat \/ exists cs', cs = cs' ++ [r.2; r.1]).
Proof.
  intros Hsnp. revert i. induction es as [|e es IH] using rev_ind; intros i Hc Hs cs r.
  { split; [done|left; simpl; lia]. }
  unfold r, cs. rewrite rev_app_distr. simpl. apply consecutive_app in Hc as [Hc [He _]].
  destruct Hs as [Hs|Hs]; [by destruct es|]. rewrite length_app in Hs. simpl in Hs.
  assert (es = [] \/ snp <= i + Z.of_nat (length es) - 1 \/ e_idx e = snp) as Hs'.
  { destruct es; [by left|right; simpl in *; lia]. }
  rewrite conf_indexes_of_app. unfold conf_indexes_of at 2 4 6.
  destruct (Z.eqb_spec (e_idx e) snp) as [Heq|Hne].
  - rewrite filter_cons_False, filter_nil, app_nil_r by (intros [? ?]; lia).
    rewrite (elem_of_nil_inv (conf_indexes_of snp es)); [split; [done|left; simpl; lia]|].
    intros j Hj%(conf_indexes_of_bounds _ _ _ _ Hc). lia.
  - destruct (entry_configuration e) as [cfg|] eqn:E.
    + rewrite !filter_cons_True, !filter_nil by (split; [eauto|lia]).
      change (map e_idx [e]) with [e_idx e]. rewrite last_snoc.
      rewrite (init_loop_found snp i) by (done || lia || naive_solver).
      split; [done|]. simpl.
      destruct (snoc_cases (conf_indexes_of snp es)) as [-> |(cs' & j & ->)]; [left; simpl; lia|].
      right. exists cs'. by rewrite last_snoc, <- (assoc_L (++)).
    + rewrite !filter_cons_False, !filter_nil, app_nil_r by (intros [[? ?] ?]; congruence).
      apply (IH i Hc). naive_solver.
Qed.

(** The constructor accepts every list of consecutive entries that starts
    at most one past the snapshot and reaches it (none of its assertions
    fails), and establishes the invariants of the log: all entries stable,
    memory accounted, and the last two configuration entries above the
    snapshot found by the reverse scan. *)
Theorem make_log_correct snp es i m :
  0 <= snp_idx snp -> consecutive i es -> 0 < i <= snp_idx snp + 1 ->
  snp_idx snp <= i + Z.of_nat (length es) - 1 ->
  (es = [] -> i = snp_idx snp + 1) ->
  i + Z.of_nat (length es) < u64_modulus ->
  exists l, make_log snp es m = Ret l /\ log_wf l /\
    l_snapshot l = snp /\ l_log l = es /\ l_first_idx l = i /\ l_stable_idx l = log_last l /\
    l_last_conf_idx l = default 0 (last (conf_indexes l)) /\
    (l_prev_conf_idx l = 0 /\ (length (conf_indexes l) <= 1)%nat \/
     exists cs, conf_indexes l = cs ++ [l_prev_conf_idx l; l_last_conf_idx l]).
Proof.
  intros Hs Hc Hi Hlast Hempty Hb.
  destruct (init_loop_spec (snp_idx snp) i es) as [Hr1 Hr2]; [done|done|by right|].
  destruct (init_last_conf_idx_loop (snp_idx snp) (rev es) 0 0) as [lc pc] eqn:Eloop. simpl in *.
  set (l := Log snp es m i (i + Z.of_nat (length es) - 1) lc pc (range_memory_usage m es)).
  assert (log_wf l) as Hwf.
  { split; unfold log_last; simpl; try lia. by apply wf_consecutive. }
  exists l. split; [|done].
  assert ((match es with
    | [] => mret (snp_idx snp +! 1)
    | e :: _ => check (e_idx e <=? snp_idx snp +! 1) ;; mret (e_idx e)
    end : outcome raft_error Z) = Ret i) as Hfirst.
  { destruct es as [|e es']; simpl in *.
    - rewrite u64_add_small by lia. by rewrite <- Hempty.
    - destruct Hc as [He _]. rewrite u64_add_small by lia. rewrite He. by zbool. }
  unfold make_log. rewrite Hfirst. simpl. zbool. simpl. unfold stable_to, last_idx. simpl.
  rewrite (u64_add_small _ i) by lia. rewrite u64_sub_small by lia. zbool. simpl.
  unfold init_last_conf_idx. simpl. rewrite Eloop. unfold l. do 2 f_equal. lia.
Qed.
End constructor.

(** * Properties *)

Section properties.
Context {env : raft_env}.

(** The reference keeps the entries before the request and agrees with the
    request on the term of every entry of it. *)
Lemma append_reference_agrees first old es j :
  0 < first -> consecutive j es -> j <= first + Z.of_nat (length old) ->
  (forall i, i < j -> at_z (append_reference first old es) (i - first) = at_z old (i - first)) /\
  (forall e, e ∈ es -> first <= e_idx e ->
    e_term <$> at_z (append_reference first old es) (e_idx e - first) = Some (e_term e)).
Proof.
  intros Hf. revert j. induction es as [|e es IH]; intros j Hc Hj; simpl; [set_solver|].
  destruct Hc as [He Hc]. case_decide as Hd.
  - assert (j + 1 <= first + Z.of_nat (length old)) as Hj'.
    { destruct Hd as [Hd|(e' & [? Hd%lookup_lt_Some]%at_z_Some & _)%fmap_Some]; [|lia].
      destruct old; simpl in *; lia. }
    destruct (IH _ Hc Hj') as [IH1 IH2]. split; [intros i Hi; apply IH1; lia|].
    intros e' [-> |He']%elem_of_cons Hfe; [|by apply IH2].
    rewrite IH1 by lia. destruct Hd as [Hd|Hd]; [lia|done].
  - assert (first <= j) by lia. rewrite He. set (k := Z.to_nat (j - first)).
    assert (length (take k old) = k) as Hk by (rewrite length_take_le; lia).
    split.
    + intros i Hi. apply option_eq. intros e'. rewrite !at_z_Some.
      split; intros [Hi' Hl]; (split; [done|]).
      * by rewrite lookup_app_l, lookup_take_lt in Hl by lia.
      * by rewrite lookup_app_l, lookup_take_lt by lia.
    + intros e' [p Hp]%list_elem_of_lookup Hfe.
      assert (consecutive j (e :: es)) as Hc' by done.
      rewrite consecutive_lookup in Hc'. rewrite (Hc' _ _ Hp).
      replace (j + Z.of_nat p - first) with (Z.of_nat (k + p)) by lia.
      rewrite at_z_nat, lookup_app_r, Hk by lia. replace (k + p - k)%nat with p by lia. by rewrite Hp.
Qed.

(** What the request does not conflict with stays. *)
Lemma append_reference_keeps first old es c :
  (forall e e', e ∈ es -> at_z old (e_idx e - first) = Some e' -> e_idx e <= c ->
    e_term e = e_term e') ->
  forall i, i <= c -> is_Some (at_z old (i - first)) ->
  at_z (append_reference first old es) (i - first) = at_z old (i - first).
Proof.
  intros Hnc i Hi [e' He']. induction es as [|e es IH]; simpl; [done|].
  case_decide as Hd; [apply IH; intros ??? ; apply Hnc; by right|].
  apply Decidable.not_or in Hd as [Hd1 Hd2].
  pose proof He' as [Hp Hl]%at_z_Some.
  assert (i < e_idx e) as Hlt.
  { apply Z.lt_nge. intros Hle. destruct (at_z old (e_idx e - first)) as [e0|] eqn:E0.
    - apply Hd2. simpl. f_equal. symmetry. apply (Hnc e e0); [by left|done|lia].
    - apply lookup_lt_Some in Hl. unfold at_z in E0. case_match; [|lia].
      apply lookup_ge_None in E0. lia. }
  rewrite He'. apply at_z_Some. split; [done|].
  assert (Z.to_nat (i - first) < length old)%nat by (by eapply lookup_lt_Some).
  rewrite lookup_app_l by (rewrite length_take; lia). by rewrite lookup_take_lt by lia.
Qed.

Lemma elem_of_append_reference first old es e :
  e ∈ append_reference first old es -> e ∈ old \/ e ∈ es.
Proof.
  induction es as [|e' es IH]; simpl; [by left|]. case_decide.
  - intros [?|?]%IH; [by left|right; by right].
  - rewrite elem_of_app. intros [He|?]; [left|by right].
    rewrite <- (take_drop (Z.to_nat (e_idx e' - first)) old). set_solver.
Qed.

Lemma maybe_append_spec c l es j :
  log_wf l -> conf_wf c l -> es <> [] -> consecutive j es -> 0 < j <= log_last l + 1 ->
  j + Z.of_nat (length es) < u64_modulus ->
  (forall e e', e ∈ es -> entry_at l (e_idx e) = Some e' ->
    e_idx e <= c `max` snp_idx (l_snapshot l) -> e_term e = e_term e') ->
  (forall cs i, conf_indexes_of (snp_idx (l_snapshot l))
      (append_reference (l_first_idx l) (l_log l) es) = cs ++ [i] ->
    Forall (fun j => j <= c) cs) ->
  exists l', maybe_append l es = Ret (j + Z.of_nat (length es) - 1, l') /\
    same_base l l' /\ log_wf l' /\ conf_wf c l' /\
    l_log l' = append_reference (l_first_idx l) (l_log l) es /\
    (forall i, i < j -> entry_at l' i = entry_at l i) /\
    (forall e, e ∈ es -> l_first_idx l <= e_idx e ->
      e_term <$> entry_at l' (e_idx e) = Some (e_term e)) /\
    (forall i, i <= c `max` snp_idx (l_snapshot l) -> is_Some (entry_at l i) ->
      entry_at l' i = entry_at l i) /\
    stable_kept c l l'.
Proof.
  intros Hwf Hc Hne Hcons Hj Hb Hnc Hcom.
  destruct (maybe_append_loop_spec c l es j) as (l' & Hl' & Hbase & Hwf' & Hc' & Hlog & Hkept); [done..|].
  destruct (append_reference_agrees (l_first_idx l) (l_log l) es j) as [H1 H2];
    [by destruct Hwf|done|unfold log_last in *; lia|].
  exists l'. split_and!; [|done..| | | |done].
  - unfold maybe_append. rewrite bool_decide_eq_false_2 by done. simpl.
    destruct (snoc_cases es) as [?|(es' & e & Heq)]; [done|].
    rewrite Hl', Heq, last_snoc. simpl. do 2 f_equal.
    rewrite Heq in Hcons. apply consecutive_app in Hcons as [_ [He _]].
    rewrite length_app. simpl. lia.
  - intros i Hi. unfold entry_at. destruct Hbase as (_ & -> & _). rewrite Hlog. by apply H1.
  - intros e He Hfe. unfold entry_at. destruct Hbase as (_ & -> & _). rewrite Hlog. by apply H2.
  - intros i Hi HS. unfold entry_at in *. destruct Hbase as (_ & -> & _). rewrite Hlog.
    by apply (append_reference_keeps _ _ _ (c `max` snp_idx (l_snapshot l))).
Qed.

(** C27: Appending a leader's entries to a follower's log. For a request whose
    consecutive entries start at most one past the end of the log and which
    conflicts with no entry at or below the committed index [c] or the
    snapshot, [maybe_append] returns (no assertion fails) the index of the
    request's last entry, and the new log is what Raft's rule prescribes: the
    entries already present are skipped, a suffix is replaced only from the
    first conflict on. Entries before the request are untouched and the log
    agrees with the request on the term of each of its entries; no entry at or
    below the committed index or the snapshot changes, and neither does an entry
    that still counts as stable. *)
Theorem maybe_append_correct c l es j :
  log_wf l -> conf_wf c l -> es <> [] -> consecutive j es -> 0 < j <= log_last l + 1 ->
  j + Z.of_nat (length es) < u64_modulus ->
  (forall e e', e ∈ es -> entry_at l (e_idx e) = Some e' ->
    e_idx e <= c `max` snp_idx (l_snapshot l) -> e_term e = e_term e') ->
  (forall cs i, conf_indexes_of (snp_idx (l_snapshot l))
      (append_reference (l_first_idx l) (l_log l) es) = cs ++ [i] ->
    Forall (fun j => j <= c) cs) ->
  exists l', maybe_append l es = Ret (j + Z.of_nat (length es) - 1, l') /\
    same_base l l' /\ log_wf l' /\ conf_wf c l' /\
    l_log l' = append_reference (l_first_idx l) (l_log l) es /\
    (forall i, i < j -> entry_at l' i = entry_at l i) /\
    (forall e, e ∈ es -> l_first_idx l <= e_idx e ->
      e_term <$> entry_at l' (e_idx e) = Some (e_term e)) /\
    (forall i, i <= c `max` snp_idx (l_snapshot l) -> is_Some (entry_at l i) ->
      entry_at l' i = entry_at l i) /\
    stable_kept c l l'.
Proof. apply maybe_append_spec. Qed.

(** Taking a snapshot newer than the current one always returns (no
    assertion fails). It keeps every entry above the snapshot index and at
    most [me] entries and [mb] bytes at or below it, unchanged; the invariants
    of the log and its configuration tracking are kept, and the released
    memory plus the remaining usage is the previous usage. *)
Theorem apply_snapshot_correct c l snp me mb :
  log_wf l -> conf_wf c l -> snp_idx (l_snapshot l) < snp_idx snp ->
  snp_idx snp + 1 < u64_modulus -> 0 <= me -> 0 <= mb ->
  exists released l', log_apply_snapshot l snp me mb = Ret (released, l_first_idx l', l') /\
    log_wf l' /\ conf_wf c l' /\ snapshot_applied l snp me mb released l'.
Proof. apply log_apply_snapshot_correct. Qed.

(** What [last_conf_for] finds: the configuration in force, or the snapshot's if
    [_prev_conf_idx] was forgotten and the index is below the last configuration. *)
Lemma last_conf_for_cases c l idx :
  log_wf l -> conf_wf c l -> snp_idx (l_snapshot l) <= idx <= log_last l ->
  last_conf_for l idx = Ret (effective_configuration l idx) \/
  (l_prev_conf_idx l = 0 /\ (1 < length (conf_indexes l))%nat /\ idx < l_last_conf_idx l /\
   last_conf_for l idx = Ret (snp_config (l_snapshot l))).
Proof.
  intros Hwf [Hl Hp _ _] Hi. pose proof Hwf as []. unfold last_conf_for.
  rewrite last_idx_eq by done. zbool. simpl.
  pose proof (conf_indexes_sorted l Hwf) as Hsort.
  destruct (snoc_cases (conf_indexes l)) as [Hn|(cs & i & Hn)].
  { rewrite Hn in *. simpl in Hl. assert (l_prev_conf_idx l = 0) as -> by (destruct Hp as [?|[[] ?]]; done).
    rewrite Hl. left. simpl. by rewrite (effective_configuration_lookup l idx [] []). }
  rewrite Hn, last_snoc in Hl. simpl in Hl. rewrite Hl.
  destruct (conf_indexes_bounds l i) as [Hi1 _]; [done|rewrite Hn; set_solver|].
  rewrite Hn in Hsort. pose proof (StronglySorted_snoc_lt _ _ _ Hsort) as Hlt. zbool.
  destruct (Z.geb_spec idx i).
  { pose proof (effective_configuration_lookup l idx (cs ++ [i]) []) as He. left.
    rewrite last_snoc, app_nil_r in He. apply He; [done..| |constructor].
    apply Forall_app. split; [|by repeat constructor]. eapply Forall_impl; [exact Hlt|]. simpl. lia. }
  destruct (Z.eqb_spec (l_prev_conf_idx l) 0) as [Hp0|Hp0].
  { destruct cs as [|k cs].
    - left. by rewrite (effective_configuration_lookup l idx [] [i]) by first [done | repeat constructor; lia].
    - right. split_and!; [done|rewrite Hn, length_app; simpl; lia|lia|done]. }
  left. destruct Hp as [?|[cs' Hp]]; [done|]. rewrite Hn in Hp. apply snoc2_inv in Hp as [-> _].
  apply StronglySorted_app_1_l, StronglySorted_snoc_lt in Hsort.
  destruct (Z.geb_spec idx (l_prev_conf_idx l)).
  - pose proof (effective_configuration_lookup l idx (cs' ++ [l_prev_conf_idx l]) [i]) as He.
    rewrite last_snoc in He. apply He; [done..| |repeat constructor; lia].
    apply Forall_app. split; [|by repeat constructor]. eapply Forall_impl; [exact Hsort|]. simpl. lia.
  - apply last_conf_for_loop_correct; [done|done|]. unfold log_last in *. lia.
Qed.

(** [get_configuration] returns the last configuration entry of the log, or
    the snapshot's configuration when there is none above the snapshot, and
    [last_conf_for] returns the last one at or below the given index, as long
    as [_prev_conf_idx] has not been forgotten by a truncation. *)
Theorem configuration_lookup_correct c l idx :
  log_wf l -> conf_wf c l -> snp_idx (l_snapshot l) <= idx <= log_last l ->
  (l_prev_conf_idx l = 0 -> (length (conf_indexes l) <= 1)%nat) ->
  get_configuration l = Ret (effective_configuration l (log_last l)) /\
  last_conf_for l idx = Ret (effective_configuration l idx).
Proof.
  intros Hwf Hc Hi Hexact. split; [by eapply get_configuration_correct|].
  destruct (last_conf_for_cases c l idx) as [?|(Hp & Hlen & _)]; [done..|]. specialize (Hexact Hp). lia.
Qed.

(** The term the log or its snapshot has for an index. *)
Definition term_at (l : log) (i : index_t) : option term_t :=
  if decide (i = snp_idx (l_snapshot l)) then Some (snp_term (l_snapshot l))
  else e_term <$> entry_at l i.

Lemma match_term_spec l idx term :
  log_wf l -> is_u64 idx ->
  exists b t, match_term l idx term = Ret (b, t) /\
    (b = true <-> idx = 0 \/ idx < snp_idx (l_snapshot l) \/ term_at l idx = Some term).
Proof.
  intros Hwf Hidx. pose proof Hwf as []. unfold match_term, term_at.
  destruct (Z.eqb_spec idx 0); [do 2 eexists; split; [done|]; tauto|].
  destruct (Z.ltb_spec idx (snp_idx (l_snapshot l))); [do 2 eexists; split; [done|]; tauto|].
  destruct (Z.eqb_spec idx (snp_idx (l_snapshot l))); simpl.
  { rewrite decide_True by done. destruct (Z.eqb_spec (snp_term (l_snapshot l)) term);
      do 2 eexists; (split; [done|]); naive_solver lia. }
  rewrite decide_False by done. unfold is_u64 in *.
  rewrite u64_sub_small by lia. destruct (Z.geb_spec (idx - l_first_idx l) (Z.of_nat (length (l_log l)))).
  { do 2 eexists. split; [done|]. split; [done|].
    intros [?|[?|(e & He & _)%fmap_Some]]; [lia|lia|].
    assert (is_Some (entry_at l idx)) as ?%entry_at_is_Some by eauto. unfold log_last in *. lia. }
  assert (is_Some (entry_at l idx)) as [e He] by (apply entry_at_is_Some; unfold log_last; lia).
  unfold entry_at in *. rewrite He. simpl.
  destruct (Z.eqb_spec (e_term e) term); do 2 eexists; (split; [done|]); naive_solver lia.
Qed.

(** The consistency check of AppendEntries. [match_term] always returns, and
    accepts exactly the position 0, positions inside the snapshot, and
    positions where the log (or the snapshot's last entry) has the given term;
    positions past the end of the log are refused. *)
Theorem match_term_correct l idx term :
  log_wf l -> is_u64 idx ->
  exists b t, match_term l idx term = Ret (b, t) /\
    (b = true <-> idx = 0 \/ idx < snp_idx (l_snapshot l) \/ term_at l idx = Some term).
Proof. apply match_term_spec. Qed.

(** Reading an entry that the log holds. *)
Lemma log_at_spec l i :
  log_wf l -> l_first_idx l <= i <= log_last l ->
  exists e, log_at l i = Ret e /\ entry_at l i = Some e.
Proof.
  intros Hwf Hi. destruct (get_entry_Ret l i Hwf Hi) as (e & He & Hget).
  exists e. split; [|done]. unfold log_at. rewrite Hget, bool_decide_eq_false_2.
  - by zbool.
  - intros Hnil. unfold log_last in Hi. rewrite Hnil in Hi. simpl in Hi. lia.
Qed.

(** The term of a position as the leader knows it, from the log or from the
    snapshot. *)
Definition term_known (l : log) (i : index_t) (t : term_t) : Prop :=
  e_term <$> entry_at l i = Some t \/ i = snp_idx (l_snapshot l) /\ t = snp_term (l_snapshot l).

(** [term_for] returns for every position up to the last, and knows the term of
    every position from the snapshot on. *)
Lemma term_for_spec l i :
  log_wf l -> 0 <= i <= log_last l ->
  (exists t, term_for l i = Ret (Some t) /\ term_known l i t /\ l_first_idx l <= i + 1) \/
  (term_for l i = Ret None /\ i < snp_idx (l_snapshot l)).
Proof.
  intros Hwf Hi. pose proof Hwf as []. unfold term_for, term_known.
  destruct (negb (bool_decide (l_log l = [])) && (i >=? l_first_idx l)) eqn:Hin.
  - destruct (get_entry_Ret l i Hwf) as (e & He & Hget); [lia|].
    left. exists (e_term e). rewrite Hget, He. split_and!; [done|by left|lia].
  - destruct (Z.eqb_spec i (snp_idx (l_snapshot l))) as [->|Hne].
    + left. eexists. split_and!; [done|by right|lia].
    + right. split; [done|]. apply andb_false_iff in Hin as [Hnil|]; [|lia].
      rewrite negb_false_iff, bool_decide_eq_true in Hnil.
      unfold log_last in *. rewrite Hnil in *. simpl in *. lia.
Qed.
End properties.

(** * Examples *)

Module LogExamples.
#[local] Existing Instance example_env.

Definition dummy_entry (term idx : Z) : log_entry := LogEntry term idx Dummy.
Definition conf_entry (term idx : Z) (ids : list N) : log_entry :=
  LogEntry term idx (ConfigurationEntry (example_configuration ids)).

Definition snapshot_at (idx term : Z) (ids : list N) : snapshot_descriptor :=
  SnapshotDescriptor idx term (example_configuration ids) 7.

(** Snapshot at 2, one trailing entry, two entries above it. *)
Definition log234 : log :=
  Log (snapshot_at 2 1 [1; 2; 3]%N) [dummy_entry 1 2; LogEntry 1 3 (Command []); dummy_entry 2 4]
    100 2 4 0 0 40.

Lemma log234_wf : log_wf log234.
Proof.
  split; try (vm_compute; repeat split; congruence). apply wf_consecutive. vm_compute. auto.
Qed.

Lemma conf_wf_empty c l :
  conf_indexes l = [] -> l_last_conf_idx l = 0 -> l_prev_conf_idx l = 0 -> conf_wf c l.
Proof.
  intros Hi Hl Hp. split; rewrite ?Hi; [done|by left|intros _; left; simpl; lia|].
  intros [] ?; done.
Qed.

Lemma make_log_correct_witness :
  exists l, make_log (snapshot_at 2 1 [1; 2; 3]%N) (l_log log234) 100 = Ret l /\ log_wf l.
Proof.
  destruct (make_log_correct (snapshot_at 2 1 [1; 2; 3]%N) (l_log log234) 2 100) as (l & Hl & Hwf & _);
    [simpl; lia|vm_compute; auto|simpl; lia|simpl; lia|done|vm_compute; congruence|].
  by exists l.
Defined.

(** A request that matches entry 3, conflicts at 4 and adds 5. *)
Definition request345 : list log_entry := [dummy_entry 1 3; dummy_entry 3 4; dummy_entry 3 5].

Lemma maybe_append_correct_witness :
  exists l, maybe_append log234 request345 = Ret (5, l) /\
    map e_term (l_log l) = [1; 1; 3; 3].
Proof.
  destruct (maybe_append_correct 3 log234 request345 3) as (l & Hl & _ & _ & _ & Hlog & _).
  - apply log234_wf.
  - by apply conf_wf_empty.
  - done.
  - vm_compute. auto.
  - vm_compute. intuition congruence.
  - vm_compute. congruence.
  - intros e e' He. unfold request345 in He. rewrite !elem_of_cons in He.
    destruct He as [-> |[-> |[-> |[]%not_elem_of_nil]]]; vm_compute; intros; simplify_eq; congruence.
  - vm_compute. intros [] ?; done.
  - exists l. split; [exact Hl|]. by rewrite Hlog.
Defined.

Lemma apply_snapshot_correct_witness :
  exists released l,
    log_apply_snapshot log234 (snapshot_at 3 1 [1; 2; 3]%N) 1 100 = Ret (released, l_first_idx l, l) /\
    log_wf l.
Proof.
  destruct (apply_snapshot_correct 3 log234 (snapshot_at 3 1 [1; 2; 3]%N) 1 100) as (r & l & Hl & Hwf & _).
  - apply log234_wf.
  - by apply conf_wf_empty.
  - vm_compute. congruence.
  - vm_compute. congruence.
  - lia.
  - lia.
  - by exists r, l.
Defined.

(** Three configuration entries above an empty snapshot. *)
Definition log_confs : log :=
  Log (snapshot_at 0 0 [1]%N) [conf_entry 1 1 [1; 2]%N; conf_entry 1 2 [2; 3]%N; conf_entry 1 3 [3; 4]%N]
    100 1 3 3 2 0.

Lemma log_confs_wf : log_wf log_confs /\ conf_wf 2 log_confs.
Proof.
  split.
  - split; try (vm_compute; repeat split; congruence). apply wf_consecutive. vm_compute. auto.
  - change (conf_wf 2 log_confs) with (conf_wf 2 log_confs).
    assert (conf_indexes log_confs = [1] ++ [2; 3]) as Hi by reflexivity.
    split; rewrite ?Hi; [done|right; by exists [1]|done|].
    intros cs i Heq. symmetry in Heq. apply snoc2_inv in Heq as [-> _].
    repeat constructor; lia.
Qed.

Lemma configuration_lookup_correct_witness :
  last_conf_for log_confs 1 = Ret (effective_configuration log_confs 1) /\
  effective_configuration log_confs 1 = example_configuration [1; 2]%N.
Proof.
  split; [|reflexivity].
  apply (configuration_lookup_correct 2 log_confs 1); [apply log_confs_wf|apply log_confs_wf| |].
  - vm_compute. split; congruence.
  - done.
Defined.

Lemma match_term_correct_witness :
  exists b t, match_term log234 4 2 = Ret (b, t) /\ b = true.
Proof.
  destruct (match_term_correct log234 4 2) as (b & t & Hm & Hb).
  - apply log234_wf.
  - vm_compute. split; congruence.
  - exists b, t. split; [exact Hm|]. apply Hb. right. right. reflexivity.
Defined.
End LogExamples.

(** * What truncation forgets *)

(** C28: [last_conf_for] after a truncation. A log holds configurations at 1, 2
    and 3; the one at 3 is replaced by an entry of a newer leader. Truncation
    moves [_last_conf_idx] back to 2 and resets [_prev_conf_idx] to 0, after which
    [last_conf_for] takes the 0 to mean that there is no configuration between
    the snapshot and 2: asked for index 1 it returns the snapshot's configuration
    although the log still holds the configuration entry at 1. *)
Theorem last_conf_for_forgets :
  exists l, @maybe_append example_env LogExamples.log_confs [LogExamples.dummy_entry 2 3] = Ret (3, l) /\
    entry_at l 1 = Some (LogExamples.conf_entry 1 1 [1%N; 2%N]) /\
    effective_configuration l 1 = example_configuration [1%N; 2%N] /\
    last_conf_for l 1 = Ret (example_configuration [1%N]) /\
    example_configuration [1%N] <> example_configuration [1%N; 2%N].
Proof.
  eexists. split; [vm_compute; reflexivity|]. split_and!; [reflexivity..|].
  intros Heq%(f_equal (fun c => size (current c))). vm_compute in Heq. congruence.
Qed.
