(* ===== verification/RaftTracker.v ===== *)
(** The leader's view of its followers, the computation of the commit index
    and the counting of votes ([src/raft/tracker.hh], [src/raft/tracker.cc]). *)
From S2P Require Import Prelude RaftTypes.

(** * Follower progress *)

(** [enum class follower_progress::state]. *)
Inductive follower_state := PROBE | PIPELINE | SNAPSHOT.

#[export] Instance follower_state_eq_dec : EqDecision follower_state.
Proof. solve_decision. Defined.

(** [class follower_progress]. *)
Record follower_progress := FollowerProgress {
  fp_id : server_id;
  fp_next_idx : index_t;
  fp_match_idx : index_t;
  fp_commit_idx : index_t;
  fp_max_acked_read : read_id;
  fp_can_vote : bool;
  fp_state : follower_state;
  fp_probe_sent : bool;
  fp_in_flight : Z;
}.

Definition max_in_flight : Z := 10.

(** The constructor, with the default member initializers. *)
Definition make_follower_progress (id : server_id) (next_idx : index_t) : follower_progress :=
  FollowerProgress id next_idx 0 0 0 true PROBE false 0.

(** Field updates. *)
Definition fp_with_next_idx (p : follower_progress) (x : index_t) : follower_progress :=
  FollowerProgress (fp_id p) x (fp_match_idx p) (fp_commit_idx p) (fp_max_acked_read p)
    (fp_can_vote p) (fp_state p) (fp_probe_sent p) (fp_in_flight p).
Definition fp_with_commit_idx (p : follower_progress) (x : index_t) : follower_progress :=
  FollowerProgress (fp_id p) (fp_next_idx p) (fp_match_idx p) x (fp_max_acked_read p)
    (fp_can_vote p) (fp_state p) (fp_probe_sent p) (fp_in_flight p).
Definition fp_with_max_acked_read (p : follower_progress) (x : read_id) : follower_progress :=
  FollowerProgress (fp_id p) (fp_next_idx p) (fp_match_idx p) (fp_commit_idx p) x
    (fp_can_vote p) (fp_state p) (fp_probe_sent p) (fp_in_flight p).
Definition fp_with_can_vote (p : follower_progress) (x : bool) : follower_progress :=
  FollowerProgress (fp_id p) (fp_next_idx p) (fp_match_idx p) (fp_commit_idx p) (fp_max_acked_read p)
    x (fp_state p) (fp_probe_sent p) (fp_in_flight p).
Definition fp_with_probe_sent (p : follower_progress) (x : bool) : follower_progress :=
  FollowerProgress (fp_id p) (fp_next_idx p) (fp_match_idx p) (fp_commit_idx p) (fp_max_acked_read p)
    (fp_can_vote p) (fp_state p) x (fp_in_flight p).
Definition fp_with_in_flight (p : follower_progress) (x : Z) : follower_progress :=
  FollowerProgress (fp_id p) (fp_next_idx p) (fp_match_idx p) (fp_commit_idx p) (fp_max_acked_read p)
    (fp_can_vote p) (fp_state p) (fp_probe_sent p) x.

Definition is_stray_reject (p : follower_progress) (r : rejected_result) : bool :=
  if rej_non_matching_idx r <=? fp_match_idx p then true
  else if rej_last_idx r <? fp_match_idx p then true
  else match fp_state p with
    | PIPELINE => false
    | PROBE => negb (rej_non_matching_idx r =? fp_next_idx p -! 1)
    | SNAPSHOT => true
    end.

Definition become_probe (p : follower_progress) : follower_progress :=
  FollowerProgress (fp_id p) (fp_next_idx p) (fp_match_idx p) (fp_commit_idx p) (fp_max_acked_read p)
    (fp_can_vote p) PROBE false (fp_in_flight p).

Definition become_pipeline (p : follower_progress) : follower_progress :=
  match fp_state p with
  | PIPELINE => p
  | _ => FollowerProgress (fp_id p) (fp_next_idx p) (fp_match_idx p) (fp_commit_idx p)
      (fp_max_acked_read p) (fp_can_vote p) PIPELINE (fp_probe_sent p) 0
  end.

Definition become_snapshot (p : follower_progress) (snp_idx : index_t) : follower_progress :=
  FollowerProgress (fp_id p) (snp_idx +! 1) (fp_match_idx p) (fp_commit_idx p) (fp_max_acked_read p)
    (fp_can_vote p) SNAPSHOT (fp_probe_sent p) (fp_in_flight p).

Definition accepted (p : follower_progress) (idx : index_t) : follower_progress :=
  FollowerProgress (fp_id p) ((idx +! 1) `max` fp_next_idx p) (idx `max` fp_match_idx p)
    (fp_commit_idx p) (fp_max_acked_read p)
    (fp_can_vote p) (fp_state p) (fp_probe_sent p) (fp_in_flight p).

Definition can_send_to (p : follower_progress) : bool :=
  match fp_state p with
  | PROBE => negb (fp_probe_sent p)
  | PIPELINE => fp_in_flight p <? max_in_flight
  | SNAPSHOT => false
  end.

(** * The tracker *)

(** [class tracker]: the progress of each follower and the voters of the current
    and, in a joint configuration, the previous member set. *)
Record tracker := Tracker {
  t_progress : gmap N follower_progress;
  t_current_voters : gset N;
  t_previous_voters : gset N;
}.

Definition tracker_find (t : tracker) (dst : server_id) : option follower_progress :=
  t_progress t !! dst.

(** Stores a progress the code holds by reference. *)
Definition tracker_update (t : tracker) (dst : server_id) (p : follower_progress) : tracker :=
  Tracker (<[dst := p]> (t_progress t)) (t_current_voters t) (t_previous_voters t).

(** The body of [emplace_simple_config]'s loop for one member. *)
Definition emplace_member (old_progress : gmap N follower_progress) (next_idx : index_t)
    (acc : gmap N follower_progress * gset N) (s : N * config_member) :
    gmap N follower_progress * gset N :=
  let '(prog, voter_ids) := acc in
  let '(id, m) := s in
  let voter_ids := if member_can_vote m then {[id]} ∪ voter_ids else voter_ids in
  match prog !! id with
  | Some _ => (prog, voter_ids)
  | None =>
    let newp := match old_progress !! id with
      | Some p => p
      | None => make_follower_progress id next_idx
      end in
    (<[id := fp_with_can_vote newp (member_can_vote m)]> prog, voter_ids)
  end.

(** The lambda [emplace_simple_config]. *)
Definition emplace_simple_config (old_progress : gmap N follower_progress) (next_idx : index_t)
    (config : config_member_set) (prog : gmap N follower_progress) :
    gmap N follower_progress * gset N :=
  fold_left (emplace_member old_progress next_idx) (map_to_list config) (prog, ∅).

Definition set_configuration (t : tracker) (c : configuration) (next_idx : index_t) : tracker :=
  let old_progress := t_progress t in
  let '(prog, current_voters) := emplace_simple_config old_progress next_idx (current c) ∅ in
  if is_joint c then
    let '(prog, previous_voters) := emplace_simple_config old_progress next_idx (previous c) prog in
    Tracker prog current_voters previous_voters
  else Tracker prog current_voters ∅.

(** [class match_vector]. *)
Record match_vector := MatchVector {
  mv_match : list Z;
  mv_count : Z;
  mv_prev_commit_idx : Z;
}.

Definition match_vector_push_back (v : match_vector) (match_idx : Z) : match_vector :=
  MatchVector (mv_match v ++ [match_idx])
    (if match_idx >? mv_prev_commit_idx v then mv_count v + 1 else mv_count v)
    (mv_prev_commit_idx v).

Definition match_vector_committed (v : match_vector) : bool :=
  mv_count v >=? Z.of_nat (length (mv_match v)) / 2 + 1.

(** [std::nth_element] puts at the pivot the element sorting would put there. *)
Definition match_vector_commit_idx (v : match_vector) : outcome raft_error Z :=
  let pivot := (Z.of_nat (length (mv_match v)) -! 1) / 2 in
  defined (at_z (merge_sort Z.le (mv_match v)) pivot).

(** Pushes the index of every follower in a voter set. *)
Definition push_voters (sel : follower_progress -> Z) (voters : gset N)
    (v : match_vector) (ps : list follower_progress) : match_vector :=
  fold_left (fun v p => if bool_decide (fp_id p ∈ voters)
    then match_vector_push_back v (sel p) else v) ps v.

(** [tracker::committed<T>]; [sel] is [match_idx] for a commit index and
    [max_acked_read] for a read id. *)
Definition committed (sel : follower_progress -> Z) (t : tracker) (prev_commit_idx : Z) :
    outcome raft_error Z :=
  let ps := (map_to_list (t_progress t)).*2 in
  let cur := push_voters sel (t_current_voters t) (MatchVector [] 0 prev_commit_idx) ps in
  if bool_decide (t_previous_voters t = ∅) then
    if negb (match_vector_committed cur) then mret prev_commit_idx
    else match_vector_commit_idx cur
  else
    let prev := push_voters sel (t_previous_voters t) (MatchVector [] 0 prev_commit_idx) ps in
    if negb (match_vector_committed cur) || negb (match_vector_committed prev)
    then mret prev_commit_idx
    else x ← match_vector_commit_idx cur; y ← match_vector_commit_idx prev; mret (x `min` y).

(** [tracker::activity_tracker]: the numbers of active voters. *)
Record activity_tracker := ActivityTracker { at_cur : Z; at_prev : Z }.

Definition activity_tracker_add (t : tracker) (a : activity_tracker) (id : server_id) : activity_tracker :=
  ActivityTracker
    (if bool_decide (id ∈ t_current_voters t) then at_cur a + 1 else at_cur a)
    (if bool_decide (id ∈ t_previous_voters t) then at_prev a + 1 else at_prev a).

Definition activity_tracker_active (t : tracker) (a : activity_tracker) : bool :=
  (at_cur a >=? Z.of_nat (size (t_current_voters t)) / 2 + 1) &&
  (bool_decide (t_previous_voters t = ∅) ||
   (at_prev a >=? Z.of_nat (size (t_previous_voters t)) / 2 + 1)).

(** * Elections *)

Inductive vote_result := UNKNOWN | WON | LOST.

#[export] Instance vote_result_eq_dec : EqDecision vote_result.
Proof. solve_decision. Defined.

(** [class election_tracker]. *)
Record election_tracker := ElectionTracker {
  et_suffrage : gset N;
  et_responded : gset N;
  et_granted : Z;
}.

Definition make_election_tracker (c : config_member_set) : election_tracker :=
  ElectionTracker (voter_ids c) ∅ 0.

Definition election_register_vote (et : election_tracker) (from : server_id) (granted : bool) :
    bool * election_tracker :=
  if bool_decide (from ∈ et_suffrage et) then
    (true,
     if bool_decide (from ∈ et_responded et) then et
     else ElectionTracker (et_suffrage et) ({[from]} ∪ et_responded et)
       (et_granted et + if granted then 1 else 0))
  else (false, et).

Definition election_tally_votes (et : election_tracker) : outcome raft_error vote_result :=
  let suffrage := Z.of_nat (size (et_suffrage et)) in
  let quorum := suffrage / 2 + 1 in
  if et_granted et >=? quorum then mret WON
  else
    check (Z.of_nat (size (et_responded et)) <=? suffrage) ;;
    let unknown := suffrage - Z.of_nat (size (et_responded et)) in
    mret (if et_granted et + unknown >=? quorum then UNKNOWN else LOST).

(** [class votes]; [v_voters] maps the id of a voter to its address info. *)
Record votes := Votes {
  v_voters : gmap N (list Byte.byte);
  v_current : election_tracker;
  v_previous : option election_tracker;
}.

(** The addresses of the members that can vote. *)
Definition voter_addresses (c : config_member_set) : gmap N (list Byte.byte) :=
  member_info <$> filter (fun kv => member_can_vote kv.2 = true) c.

(** The constructor: the previous configuration's voters are inserted first. *)
Definition make_votes (c : configuration) : votes :=
  Votes (voter_addresses (previous c) ∪ voter_addresses (current c))
    (make_election_tracker (current c))
    (if is_joint c then Some (make_election_tracker (previous c)) else None).

Definition votes_register_vote (v : votes) (from : server_id) (granted : bool) : votes :=
  Votes (v_voters v)
    (election_register_vote (v_current v) from granted).2
    ((fun et => (election_register_vote et from granted).2) <$> v_previous v).

Definition votes_tally_votes (v : votes) : outcome raft_error vote_result :=
  match v_previous v with
  | None => election_tally_votes (v_current v)
  | Some et =>
    previous_result ← election_tally_votes et;
    if decide (previous_result = WON) then election_tally_votes (v_current v)
    else mret previous_result
  end.

(** * The commit index *)

(** Every voter is tracked, under its own id. *)
Record tracker_wf (t : tracker) : Prop := {
  tw_ids : forall id p, t_progress t !! id = Some p -> fp_id p = id;
  tw_current : t_current_voters t ⊆ dom (t_progress t);
  tw_previous : t_previous_voters t ⊆ dom (t_progress t);
  tw_bound : Z.of_nat (size (t_progress t)) < u64_modulus;
}.

(** The voters of a set whose index reached [n]. *)
Definition acked (sel : follower_progress -> Z) (t : tracker) (voters : gset N) (n : Z) : gset N :=
  filter (fun id => match t_progress t !! id with Some p => n <=? sel p | None => false end = true) voters.

(** More than half of a set of voters. *)
Definition majority_of (voters s : gset N) : Prop := (size voters < 2 * size s)%nat.

(** Index [n] is acknowledged by a majority of the current voters and, in a joint
    configuration, by a majority of the previous ones. *)
Definition has_quorum (sel : follower_progress -> Z) (t : tracker) (n : Z) : Prop :=
  majority_of (t_current_voters t) (acked sel t (t_current_voters t) n) /\
  (t_previous_voters t <> ∅ ->
   majority_of (t_previous_voters t) (acked sel t (t_previous_voters t) n)).

(** The number of elements of a list that are at least [n]. *)
Definition count_ge (n : Z) (l : list Z) : nat := length (filter (fun x => n <= x) l).

Lemma count_ge_perm n l l' : l ≡ₚ l' -> count_ge n l = count_ge n l'.
Proof. intros H. unfold count_ge. by rewrite H. Qed.

(** In a sorted list, what the element at a position says about the counts. *)
Lemma count_ge_sorted l k x n :
  StronglySorted Z.le l -> l !! k = Some x ->
  (n <= x -> (length l - k <= count_ge n l)%nat) /\
  (x < n -> (count_ge n l <= length l - k - 1)%nat).
Proof.
  intros Hs Hk. pose proof (lookup_lt_Some _ _ _ Hk) as Hlen.
  apply take_drop_middle in Hk. rewrite <- Hk in Hs |- *. unfold count_ge.
  apply StronglySorted_app in Hs as (Hlt & _ & Hs).
  apply StronglySorted_inv in Hs as [_ Hgt].
  rewrite filter_app, !length_app. simpl. rewrite length_take_le, length_drop by lia. split.
  - intros Hn. rewrite filter_cons_True by done. rewrite (list_filter_all _ (drop _ _)); [simpl; rewrite length_drop; lia|].
    eapply Forall_impl; [exact Hgt|]. simpl. lia.
  - intros Hn. rewrite (list_filter_none _ (take _ _)).
    + rewrite filter_cons_False by lia. pose proof (length_filter (fun x => n <= x) (drop (S k) l)) as H.
      rewrite length_drop in H. simpl. lia.
    + apply Forall_forall. intros y Hy. specialize (Hlt y x Hy ltac:(set_solver)). lia.
Qed.

(** The pivot is the largest index that a majority of the entries reaches. *)
Lemma match_vector_pivot v :
  mv_match v <> [] -> Z.of_nat (length (mv_match v)) < u64_modulus ->
  exists x, match_vector_commit_idx v = Ret x /\
    forall n, (length (mv_match v) < 2 * count_ge n (mv_match v))%nat <-> n <= x.
Proof.
  intros Hne Hb. unfold match_vector_commit_idx. set (l := mv_match v) in *.
  assert (0 < length l)%nat by (destruct l; [done|simpl; lia]).
  rewrite u64_sub_small by lia.
  pose proof (merge_sort_Permutation Z.le l) as Hp.
  assert (length (merge_sort Z.le l) = length l) as Hlen by by rewrite Hp.
  set (k := Z.to_nat ((Z.of_nat (length l) - 1) / 2)).
  assert (Z.of_nat k = (Z.of_nat (length l) - 1) / 2) as Hk by (unfold k; rewrite Z2Nat.id; [done|apply Z.div_pos; lia]).
  assert (2 * Z.of_nat k <= Z.of_nat (length l) - 1 <= 2 * Z.of_nat k + 1) as Hk2.
  { rewrite Hk. pose proof (Z.div_mod (Z.of_nat (length l) - 1) 2 ltac:(lia)).
    pose proof (Z.mod_pos_bound (Z.of_nat (length l) - 1) 2 ltac:(lia)). lia. }
  destruct (lookup_lt_is_Some_2 (merge_sort Z.le l) k) as [x Hx]; [lia|].
  exists x. rewrite <- Hk, at_z_nat, Hx. split; [done|]. intros n.
  rewrite <- (count_ge_perm n _ _ Hp).
  destruct (count_ge_sorted (merge_sort Z.le l) k x n) as [H1 H2]; [|done|].
  { apply (StronglySorted_merge_sort Z.le). }
  rewrite Hlen in *. destruct (decide (n <= x)); split; intros; try lia.
Qed.

(** The list a match vector collects for a set of voters. *)
Definition voter_indexes (sel : follower_progress -> Z) (t : tracker) (voters : gset N) : list Z :=
  sel <$> filter (fun p => fp_id p ∈ voters) (map_to_list (t_progress t)).*2.

Lemma push_voters_spec sel voters v ps :
  let l := sel <$> filter (fun p => fp_id p ∈ voters) ps in
  push_voters sel voters v ps =
  MatchVector (mv_match v ++ l) (mv_count v + Z.of_nat (count_ge (mv_prev_commit_idx v + 1) l))
    (mv_prev_commit_idx v).
Proof.
  unfold push_voters. revert v. induction ps as [|p ps IH]; intros v; simpl.
  { rewrite app_nil_r, Z.add_0_r. by destruct v. }
  rewrite IH. rewrite filter_cons. unfold match_vector_push_back, count_ge.
  case_bool_decide; rewrite ?decide_True, ?decide_False by done; [|done].
  rewrite fmap_cons, filter_cons. cbn [mv_match mv_count mv_prev_commit_idx].
  rewrite <- (assoc_L (++)). f_equal.
  destruct (Z.gtb_spec (sel p) (mv_prev_commit_idx v)); case_decide; simpl; lia.
Qed.

(** The progress entries that are voters and satisfy a test, counted as ids. *)
Lemma count_voters t voters (Q : follower_progress -> bool) :
  tracker_wf t -> voters ⊆ dom (t_progress t) ->
  length (filter (fun p => Q p = true) (filter (fun p => fp_id p ∈ voters) (map_to_list (t_progress t)).*2)) =
  size (filter (fun id => match t_progress t !! id with Some p => Q p | None => false end = true) voters).
Proof.
  intros [Hids _ _ _] Hsub. set (ps := (map_to_list (t_progress t)).*2).
  rewrite list_filter_filter. set (ps' := filter _ ps).
  assert (fp_id <$> ps = (map_to_list (t_progress t)).*1) as Hps.
  { unfold ps. rewrite <- list_fmap_compose. apply list_fmap_ext. intros _ [id p] Hin%list_elem_of_lookup_2.
    simpl. apply Hids. by apply elem_of_map_to_list in Hin. }
  assert (NoDup (fp_id <$> ps')) as Hnd.
  { apply NoDup_fmap_filter. rewrite Hps. apply NoDup_fst_map_to_list. }
  rewrite <- (length_fmap fp_id), <- (size_list_to_set (C := gset N)) by done. f_equal.
  apply set_eq. intros id. rewrite elem_of_list_to_set, elem_of_filter, list_elem_of_fmap. split.
  - intros (p & -> & [[HQ Hv] Hp]%list_elem_of_filter). unfold ps in Hp.
    apply list_elem_of_fmap in Hp as ([id' p'] & -> & Hin%elem_of_map_to_list). simpl in *.
    pose proof (Hids _ _ Hin) as Heq. by rewrite Heq, Hin in *.
  - intros [HQ Hv]. destruct (t_progress t !! id) as [p|] eqn:E; [|done].
    exists p. pose proof (Hids _ _ E) as Heq. split; [done|]. apply list_elem_of_filter.
    split; [by rewrite Heq|]. apply list_elem_of_fmap. exists (id, p). split; [done|].
    by apply elem_of_map_to_list.
Qed.

Lemma voter_indexes_length sel t voters :
  tracker_wf t -> voters ⊆ dom (t_progress t) ->
  length (voter_indexes sel t voters) = size voters.
Proof.
  intros Hwf Hsub. unfold voter_indexes. rewrite length_fmap.
  pose proof (count_voters t voters (fun _ => true) Hwf Hsub) as H.
  rewrite list_filter_all in H by (apply Forall_forall; done). rewrite H. f_equal.
  apply set_eq. intros id. rewrite elem_of_filter. split; [tauto|]. intros Hid. split; [|done].
  apply Hsub, elem_of_dom in Hid as [p ->]. done.
Qed.

Lemma voter_indexes_count sel t voters n :
  tracker_wf t -> voters ⊆ dom (t_progress t) ->
  count_ge n (voter_indexes sel t voters) = size (acked sel t voters n).
Proof.
  intros Hwf Hsub. unfold acked. rewrite <- (count_voters t voters (fun p => n <=? sel p)) by done.
  unfold count_ge, voter_indexes.
  generalize (filter (fun p => fp_id p ∈ voters) (map_to_list (t_progress t)).*2). intros ps.
  induction ps as [|p ps IH]; [done|].
  rewrite fmap_cons, !filter_cons. destruct (Z.leb_spec n (sel p)); repeat case_decide; simpl; rewrite ?IH; (done || lia).
Qed.

(** The part of [committed] for one set of voters. *)
Lemma committed_voters sel t voters prev :
  tracker_wf t -> voters ⊆ dom (t_progress t) ->
  let v := push_voters sel voters (MatchVector [] 0 prev) (map_to_list (t_progress t)).*2 in
  (match_vector_committed v = true <-> majority_of voters (acked sel t voters (prev + 1))) /\
  (match_vector_committed v = true -> exists x, match_vector_commit_idx v = Ret x /\
    forall n, majority_of voters (acked sel t voters n) <-> n <= x).
Proof.
  intros Hwf Hsub v. unfold v. rewrite push_voters_spec. simpl.
  change (sel <$> _) with (voter_indexes sel t voters).
  assert (match_vector_committed (MatchVector (voter_indexes sel t voters)
      (Z.of_nat (count_ge (prev + 1) (voter_indexes sel t voters))) prev) = true <->
      majority_of voters (acked sel t voters (prev + 1))) as Hcom.
  { unfold match_vector_committed, majority_of. simpl.
    rewrite voter_indexes_length, voter_indexes_count by done.
    rewrite Z.geb_le. pose proof (Z.div_mod (Z.of_nat (size voters)) 2 ltac:(lia)).
    pose proof (Z.mod_pos_bound (Z.of_nat (size voters)) 2 ltac:(lia)). lia. }
  split; [done|]. rewrite Hcom. intros Hmaj.
  assert (0 < size voters)%nat as Hpos.
  { unfold majority_of in Hmaj. destruct (decide (size voters = 0)%nat) as [H0|]; [|lia].
    enough (size (acked sel t voters (prev + 1)) <= size voters)%nat by lia.
    apply subseteq_size. unfold acked. set_solver. }
  edestruct match_vector_pivot as (x & Hx & Hiff); [| |exists x; split; [exact Hx|]]; simpl.
  - intros Hnil%(f_equal length). rewrite voter_indexes_length in Hnil by done. simpl in Hnil. lia.
  - rewrite voter_indexes_length by done. destruct Hwf as [_ _ _ Hb].
    enough (size voters <= size (t_progress t))%nat by lia.
    rewrite <- (size_dom (D := gset N)). by apply subseteq_size.
  - intros n. rewrite <- Hiff. simpl. rewrite voter_indexes_length, voter_indexes_count by done. done.
Qed.

Lemma majority_of_mono voters s s' : majority_of voters s -> s ⊆ s' -> majority_of voters s'.
Proof. unfold majority_of. intros H Hs%subseteq_size. lia. Qed.

Lemma acked_mono sel t voters n n' : n' <= n -> acked sel t voters n ⊆ acked sel t voters n'.
Proof.
  intros Hn id. unfold acked. rewrite !elem_of_filter. intros [Hid ?]. split; [|done].
  destruct (t_progress t !! id); [|done]. lia.
Qed.

(** The two outcomes of the computation for one set of voters. *)
Lemma committed_voters_cases sel t voters prev :
  tracker_wf t -> voters ⊆ dom (t_progress t) ->
  let v := push_voters sel voters (MatchVector [] 0 prev) (map_to_list (t_progress t)).*2 in
  let maj n := majority_of voters (acked sel t voters n) in
  (match_vector_committed v = false /\ forall n, prev < n -> ~ maj n) \/
  (match_vector_committed v = true /\ exists x, match_vector_commit_idx v = Ret x /\
    prev < x /\ forall n, maj n <-> n <= x).
Proof.
  intros Hwf Hsub v maj. destruct (committed_voters sel t voters prev Hwf Hsub) as [H1 H2].
  fold v in H1, H2. destruct (match_vector_committed v).
  - right. split; [done|]. destruct H2 as (x & Hx & Hn); [done|]. exists x. split_and!; [done| |done].
    enough (prev + 1 <= x) by lia. apply Hn, H1. done.
  - left. split; [done|]. intros n Hn Hm. enough (false = true) by done. apply H1.
    eapply majority_of_mono; [exact Hm|]. apply acked_mono. lia.
Qed.

Lemma committed_spec sel t prev :
  tracker_wf t ->
  exists r, committed sel t prev = Ret r /\ prev <= r /\
    (prev < r -> has_quorum sel t r) /\
    (forall n, prev < n -> has_quorum sel t n -> n <= r).
Proof.
  intros Hwf. unfold committed, has_quorum. pose proof Hwf as [_ Hsc Hsp _].
  destruct (committed_voters_cases sel t (t_current_voters t) prev Hwf Hsc)
    as [[-> Hc]|[-> (x & -> & Hx & Hc)]]; simpl.
  { case_bool_decide; exists prev; (split_and!; [done|lia|lia|]);
      intros n Hn [Hm _]; by destruct (Hc n Hn). }
  case_bool_decide as Hj.
  { exists x. split_and!; [done|lia|intros _; split; [by apply Hc|done]|]. intros n _ [Hn _]. by apply Hc. }
  destruct (committed_voters_cases sel t (t_previous_voters t) prev Hwf Hsp)
    as [[-> Hp]|[-> (y & -> & Hy & Hp)]]; simpl.
  - exists prev. split_and!; [done|lia|lia|]. intros n Hn [_ Hm]. destruct (Hp n Hn). by apply Hm.
  - exists (x `min` y). split_and!; [done|lia| |].
    + intros _. split; [|intros _]; [apply Hc|apply Hp]; lia.
    + intros n Hn [H1%Hc H2]. specialize (H2 Hj). apply Hp in H2. lia.
Qed.

(** C9: The commit index. For a tracker that tracks all its voters, [committed]
    returns (its pivot access is always in range), never goes below the
    previous index, moves only to an index acknowledged by a majority of the
    current voters and, in a joint configuration, also of the previous ones, and
    moves to the largest such index. It holds for commit indexes ([fp_match_idx])
    and for read ids ([fp_max_acked_read]). *)
Theorem committed_correct sel t prev :
  tracker_wf t ->
  exists r, committed sel t prev = Ret r /\ prev <= r /\
    (prev < r -> has_quorum sel t r) /\
    (forall n, prev < n -> has_quorum sel t n -> n <= r).
Proof. apply committed_spec. Qed.

(** * Changing the configuration *)

Section set_configuration.
Variable (old_progress : gmap N follower_progress) (next_idx : index_t).

(** The progress the tracker starts or continues with for a member. *)
Definition member_progress (id : server_id) (m : config_member) : follower_progress :=
  fp_with_can_vote (default (make_follower_progress id next_idx) (old_progress !! id))
    (member_can_vote m).

Lemma emplace_members_spec l prog vs :
  NoDup l.*1 ->
  let r := fold_left (emplace_member old_progress next_idx) l (prog, vs) in
  r.1 = prog ∪ list_to_map (map (fun s => (s.1, member_progress s.1 s.2)) l) /\
  forall id, id ∈ r.2 <-> id ∈ vs \/ exists m, (id, m) ∈ l /\ member_can_vote m = true.
Proof.
  revert prog vs. induction l as [|[id m] l IH]; intros prog vs Hnd; simpl.
  { split; [by rewrite map_union_empty|set_solver]. }
  apply NoDup_cons in Hnd as [Hid Hnd].
  set (vs' := if member_can_vote m then {[id]} ∪ vs else vs).
  assert (forall x, (x ∈ vs' \/ exists m, (x, m) ∈ l /\ member_can_vote m = true) <->
    x ∈ vs \/ exists m', (x, m') ∈ (id, m) :: l /\ member_can_vote m' = true) as Hvs.
  { intros x. unfold vs'. setoid_rewrite elem_of_cons. split.
    - intros [Hx|(m' & Hm' & Hv)]; [|eauto].
      destruct (member_can_vote m) eqn:E; [|by left].
      apply elem_of_union in Hx as [->%elem_of_singleton|Hx]; [right; eauto|by left].
    - intros [Hx|(m' & [[= -> ->]|Hm'] & Hv)]; [left|left; rewrite Hv|eauto]; [|set_solver].
      destruct (member_can_vote m); set_solver. }
  destruct (prog !! id) as [p|] eqn:E.
  - destruct (IH prog vs' Hnd) as [H1 H2]. rewrite H1. split; [|intros x; rewrite H2; apply Hvs].
    apply map_eq. intros x. rewrite !lookup_union, lookup_insert.
    case_decide; [subst; rewrite E|done]. by destruct (list_to_map _ !! x).
  - destruct (IH (<[id := member_progress id m]> prog) vs' Hnd) as [H1 H2].
    change (fp_with_can_vote _ _) with (member_progress id m).
    rewrite H1. split; [|intros x; rewrite H2; apply Hvs].
    apply map_eq. intros x. rewrite !lookup_union, !lookup_insert.
    case_decide; [subst; rewrite E|done]. by destruct (list_to_map _ !! x).
Qed.

Lemma emplace_simple_config_spec c prog :
  let r := emplace_simple_config old_progress next_idx c prog in
  r.1 = prog ∪ map_imap (fun id m => Some (member_progress id m)) c /\ r.2 = voter_ids c.
Proof.
  unfold emplace_simple_config.
  destruct (emplace_members_spec (map_to_list c) prog ∅) as [H1 H2]; [apply NoDup_fst_map_to_list|].
  split.
  - rewrite H1. f_equal. apply map_eq. intros id. rewrite map_lookup_imap.
    destruct (c !! id) as [m|] eqn:E; simpl.
    + apply elem_of_list_to_map_1.
      * rewrite map_map. simpl. apply NoDup_fst_map_to_list.
      * apply list_elem_of_fmap. exists (id, m). split; [done|]. by apply elem_of_map_to_list.
    + apply not_elem_of_list_to_map_1. rewrite list_elem_of_fmap. intros ([id' p] & -> & Hin).
      apply list_elem_of_fmap in Hin as ([id'' m] & [= -> ->] & Hin%elem_of_map_to_list). simpl in *. congruence.
  - apply set_eq. intros id. rewrite H2, elem_of_voter_ids. setoid_rewrite elem_of_map_to_list. set_solver.
Qed.
End set_configuration.

Lemma set_configuration_spec t c next_idx :
  (forall id p, t_progress t !! id = Some p -> fp_id p = id) ->
  Z.of_nat (size (current c ∪ previous c)) < u64_modulus ->
  let t' := set_configuration t c next_idx in
  (forall id, t_progress t' !! id =
    member_progress (t_progress t) next_idx id <$> (current c ∪ previous c) !! id) /\
  t_current_voters t' = voter_ids (current c) /\
  t_previous_voters t' = voter_ids (previous c) /\
  tracker_wf t'.
Proof.
  intros Hids Hsize t'.
  assert ((forall id, t_progress t' !! id =
      member_progress (t_progress t) next_idx id <$> (current c ∪ previous c) !! id) /\
    t_current_voters t' = voter_ids (current c) /\ t_previous_voters t' = voter_ids (previous c))
    as (Hp & Hc & Hv).
  { unfold t', set_configuration.
    destruct (emplace_simple_config_spec (t_progress t) next_idx (current c) ∅) as [H1 H2].
    destruct (emplace_simple_config _ _ (current c) ∅) as [prog vs] eqn:E. simpl in H1, H2.
    destruct (is_joint c) eqn:Ej.
    - destruct (emplace_simple_config_spec (t_progress t) next_idx (previous c) prog) as [H3 H4].
      destruct (emplace_simple_config _ _ (previous c) prog) as [prog' vs'] eqn:E'. simpl in *.
      split_and!; [|done|done]. intros id. rewrite H3, H1, (left_id_L ∅ (∪)), !lookup_union, !map_lookup_imap.
      by destruct (current c !! id), (previous c !! id).
    - apply is_joint_false in Ej. rewrite Ej. simpl. split_and!; [|done|].
      + intros id. rewrite H1, (left_id_L ∅ (∪)), map_lookup_imap, (right_id_L ∅ (∪)).
        by destruct (current c !! id).
      + apply set_eq. intros id. rewrite elem_of_voter_ids. set_solver. }
  split_and!; [done..|]. split.
  - intros id p Hid. rewrite Hp in Hid. apply fmap_Some in Hid as (m & _ & ->).
    unfold member_progress. simpl. destruct (t_progress t !! id) eqn:E; simpl; eauto.
  - rewrite Hc. intros id (m & Hm & _)%elem_of_voter_ids. apply elem_of_dom.
    rewrite Hp, lookup_union, Hm. by destruct (previous c !! id).
  - rewrite Hv. intros id (m & Hm & _)%elem_of_voter_ids. apply elem_of_dom.
    rewrite Hp, lookup_union, Hm. by destruct (current c !! id).
  - replace (size (t_progress t')) with (size (current c ∪ previous c)); [done|].
    rewrite <- !(size_dom (D := gset N)). f_equal. apply set_eq. intros id.
    rewrite !elem_of_dom, Hp, fmap_is_Some. done.
Qed.

(** Changing the configuration. The tracker then follows exactly the members
    of the new configuration (both member sets of a joint one): a follower that
    was tracked keeps its progress, a new one starts probing at [next_idx], all
    others are dropped, and each member's right to vote is taken from the
    configuration, the current member set first. The voter sets are the voters
    of the two member sets, and the tracker is well-formed again. *)
Theorem set_configuration_correct t c next_idx :
  (forall id p, t_progress t !! id = Some p -> fp_id p = id) ->
  Z.of_nat (size (current c ∪ previous c)) < u64_modulus ->
  let t' := set_configuration t c next_idx in
  (forall id, t_progress t' !! id =
    member_progress (t_progress t) next_idx id <$> (current c ∪ previous c) !! id) /\
  t_current_voters t' = voter_ids (current c) /\
  t_previous_voters t' = voter_ids (previous c) /\
  tracker_wf t'.
Proof. apply set_configuration_spec. Qed.

(** * Counting votes *)

(** Two majorities of the same voters share a voter. *)
Lemma majority_intersect voters s s' :
  s ⊆ voters -> s' ⊆ voters -> majority_of voters s -> majority_of voters s' ->
  exists id, id ∈ s /\ id ∈ s'.
Proof.
  unfold majority_of. intros H1 H2 Hs Hs'.
  destruct (decide (s ∩ s' = ∅)) as [He|(id & Hid)%set_choose_L].
  - assert (size (s ∪ s') <= size voters)%nat by (apply subseteq_size; set_solver).
    rewrite size_union in H by set_solver. lia.
  - exists id. set_solver.
Qed.

(** The tracker has counted the granted votes of the servers in [g]. *)
Record election_counts (et : election_tracker) (g : gset N) : Prop := {
  ec_granted : g ⊆ et_responded et;
  ec_responded : et_responded et ⊆ et_suffrage et;
  ec_count : et_granted et = Z.of_nat (size g);
}.

Lemma make_election_counts c : election_counts (make_election_tracker c) ∅.
Proof. by split. Qed.

Lemma election_register_suffrage et from granted :
  et_suffrage (election_register_vote et from granted).2 = et_suffrage et.
Proof. unfold election_register_vote. by repeat case_bool_decide. Qed.

(** A vote counts when its server may vote and has not responded yet. *)
Definition counts_vote (et : election_tracker) (from : server_id) (granted : bool) : bool :=
  bool_decide (from ∈ et_suffrage et) && negb (bool_decide (from ∈ et_responded et)) && granted.

Lemma election_register_counts et g from granted :
  election_counts et g ->
  election_counts (election_register_vote et from granted).2
    (if counts_vote et from granted then {[from]} ∪ g else g).
Proof.
  intros [Hg Hr Hc]. unfold election_register_vote, counts_vote.
  destruct (bool_decide_reflect (from ∈ et_suffrage et)) as [Hs|]; simpl; [|done].
  destruct (bool_decide_reflect (from ∈ et_responded et)) as [|Hn]; simpl; [done|].
  destruct granted; split; simpl; try set_solver; [|lia].
  rewrite size_union, size_singleton by set_solver. lia.
Qed.

Lemma election_tally_spec et g :
  election_counts et g ->
  exists r, election_tally_votes et = Ret r /\
    (r = WON <-> majority_of (et_suffrage et) g) /\
    (r = LOST <-> ~ majority_of (et_suffrage et) (g ∪ (et_suffrage et ∖ et_responded et))).
Proof.
  intros [Hg Hr Hc]. unfold election_tally_votes, majority_of.
  pose proof (subseteq_size _ _ Hg). pose proof (subseteq_size _ _ Hr).
  rewrite size_union, size_difference by set_solver. rewrite Hc.
  pose proof (Z.div_mod (Z.of_nat (size (et_suffrage et))) 2 ltac:(lia)).
  pose proof (Z.mod_pos_bound (Z.of_nat (size (et_suffrage et))) 2 ltac:(lia)).
  destruct (Z.geb_spec (Z.of_nat (size g)) (Z.of_nat (size (et_suffrage et)) / 2 + 1)).
  { exists WON. split_and!; [done| |]; (split; [intros; try done; lia|intros; try done; lia]). }
  zbool. simpl. eexists. split; [done|].
  destruct (Z.geb_spec (Z.of_nat (size g) + (Z.of_nat (size (et_suffrage et)) - Z.of_nat (size (et_responded et))))
    (Z.of_nat (size (et_suffrage et)) / 2 + 1)); split; split; intros; try done; lia.
Qed.

(** Registers a sequence of votes in a fresh election. *)
Definition register_votes (c : config_member_set) (vs : list (server_id * bool)) : election_tracker :=
  fold_left (fun et v => (election_register_vote et v.1 v.2).2) vs (make_election_tracker c).

(** A server's vote is the first one received from it. *)
Definition first_vote (vs : list (server_id * bool)) (id : server_id) : option bool :=
  snd <$> head (filter (fun v => v.1 = id) vs).

Lemma first_vote_snoc vs v id :
  first_vote (vs ++ [v]) id =
  match first_vote vs id with
  | Some g => Some g
  | None => if decide (v.1 = id) then Some v.2 else None
  end.
Proof.
  unfold first_vote. rewrite filter_app, filter_cons, filter_nil.
  destruct (filter _ vs); simpl; [|done]. by case_decide.
Qed.

(** The voters whose first vote is [g]. *)
Definition voters_voting (c : config_member_set) (vs : list (server_id * bool)) (g : bool) : gset N :=
  filter (fun id => first_vote vs id = Some g) (voter_ids c).

Lemma register_votes_spec c vs :
  et_suffrage (register_votes c vs) = voter_ids c /\
  et_responded (register_votes c vs) = filter (fun id => is_Some (first_vote vs id)) (voter_ids c) /\
  election_counts (register_votes c vs) (voters_voting c vs true).
Proof.
  unfold register_votes, voters_voting.
  induction vs as [|[from granted] vs IH] using rev_ind.
  { simpl. split_and!; [done| |].
    - symmetry. apply set_eq. intros id. rewrite elem_of_filter. unfold first_vote. simpl.
      split; [intros [[? ?] _]; done|set_solver].
    - replace (filter _ _) with (∅ : gset N); [apply make_election_counts|].
      symmetry. apply set_eq. intros id. rewrite elem_of_filter. unfold first_vote. simpl. set_solver. }
  rewrite fold_left_app. simpl. destruct IH as (Hs & Hr & Hc).
  set (et := fold_left _ vs _) in *. rewrite election_register_suffrage.
  assert (from ∈ et_responded et <-> from ∈ voter_ids c /\ is_Some (first_vote vs from)) as Hresp.
  { rewrite Hr, elem_of_filter. tauto. }
  pose proof (election_register_counts et _ from granted Hc) as Hc'. revert Hc'.
  unfold election_register_vote, counts_vote. rewrite Hs.
  destruct (decide (from ∈ voter_ids c /\ first_vote vs from = None)) as [[Hin Hn]|Hno].
  - rewrite Hn in Hresp. rewrite bool_decide_eq_true_2, bool_decide_eq_false_2 by (done || rewrite Hresp; intros [_ [? ?]]; done).
    simpl. intros Hc'. split_and!; [done| |].
    + apply set_eq. intros id. rewrite elem_of_union, elem_of_singleton, Hr, !elem_of_filter, first_vote_snoc. simpl.
      destruct (decide (id = from)) as [-> |]; [rewrite Hn, decide_True by done; naive_solver|].
      rewrite decide_False by done. destruct (first_vote vs id); naive_solver.
    + eapply (eq_rect _ (election_counts _) Hc'). apply set_eq. intros id.
      rewrite elem_of_filter, first_vote_snoc. simpl.
      destruct (decide (id = from)) as [-> |].
      * rewrite Hn, decide_True by done. destruct granted; set_solver.
      * rewrite decide_False by done.
        destruct granted; rewrite ?elem_of_union, ?elem_of_singleton, elem_of_filter;
          destruct (first_vote vs id); naive_solver.
  - intros _. assert (forall id, id ∈ voter_ids c -> first_vote (vs ++ [(from, granted)]) id = first_vote vs id) as Hsame.
    { intros id Hid. rewrite first_vote_snoc. simpl. destruct (first_vote vs id) eqn:E; [done|].
      case_decide; [|done]. subst. by destruct Hno. }
    assert ((if bool_decide (from ∈ voter_ids c)
      then (true, if bool_decide (from ∈ et_responded et) then et
        else ElectionTracker (voter_ids c) ({[from]} ∪ et_responded et) (et_granted et + if granted then 1 else 0))
      else (false, et)).2 = et) as ->.
    { repeat case_bool_decide; try done. destruct Hno. split; [done|].
      destruct (first_vote vs from); [|done]. naive_solver. }
    split_and!; [done| |].
    + rewrite Hr. apply set_eq. intros id. rewrite !elem_of_filter. split; intros [? Hid]; by rewrite Hsame in *.
    + eapply (eq_rect _ (election_counts _) Hc). apply set_eq. intros id. rewrite !elem_of_filter.
      split; intros [? Hid]; by rewrite Hsame in *.
Qed.

(** Registers a sequence of votes in the election of a candidate. *)
Definition votes_register_all (c : configuration) (vs : list (server_id * bool)) : votes :=
  fold_left (fun v x => votes_register_vote v x.1 x.2) vs (make_votes c).

Lemma votes_register_all_eq c vs :
  votes_register_all c vs =
  Votes (v_voters (make_votes c)) (register_votes (current c) vs)
    (if is_joint c then Some (register_votes (previous c) vs) else None).
Proof.
  unfold votes_register_all, register_votes. induction vs as [|v vs IH] using rev_ind.
  - unfold make_votes. simpl. by destruct (is_joint c).
  - rewrite !fold_left_app, IH. simpl. unfold votes_register_vote. simpl. f_equal.
    by destruct (is_joint c).
Qed.

Lemma election_outcome_spec c vs :
  let granted s := voters_voting s vs true in
  let possible s := voter_ids s ∖ voters_voting s vs false in
  exists r, votes_tally_votes (votes_register_all c vs) = Ret r /\
    (r = WON <-> majority_of (voter_ids (current c)) (granted (current c)) /\
      (is_joint c = true -> majority_of (voter_ids (previous c)) (granted (previous c)))) /\
    (r = LOST -> ~ majority_of (voter_ids (current c)) (possible (current c)) \/
      is_joint c = true /\ ~ majority_of (voter_ids (previous c)) (possible (previous c))).
Proof.
  intros granted possible. rewrite votes_register_all_eq. unfold votes_tally_votes. simpl.
  assert (forall s, exists r, election_tally_votes (register_votes s vs) = Ret r /\
    (r = WON <-> majority_of (voter_ids s) (granted s)) /\
    (r = LOST <-> ~ majority_of (voter_ids s) (possible s))) as Htally.
  { intros s. destruct (register_votes_spec s vs) as (Hs & Hr & Hc).
    destruct (election_tally_spec _ _ Hc) as (r & Hr' & Hw & Hl). exists r. rewrite Hs in *.
    split_and!; [done|done|]. rewrite Hl, Hr. replace (possible s) with
      (voters_voting s vs true ∪ voter_ids s ∖ filter (fun id => is_Some (first_vote vs id)) (voter_ids s)); [done|].
    unfold possible, voters_voting. apply set_eq. intros id.
    rewrite elem_of_union, !elem_of_difference, !elem_of_filter.
    destruct (first_vote vs id) as [[]|] eqn:E; naive_solver. }
  destruct (Htally (current c)) as (rc & Hc & Hcw & Hcl).
  destruct (is_joint c) eqn:Ej; simpl; [|exists rc; naive_solver].
  destruct (Htally (previous c)) as (rp & -> & Hpw & Hpl). simpl.
  case_decide as Hp; [exists rc|exists rp]; (split_and!; [done| |]); naive_solver.
Qed.

(** The outcome of an election. Whatever votes arrive, in any order and with
    any repetitions, a server's first vote is the one that counts and votes of
    non-voters are ignored; tallying never fails its assertion. The election is
    won exactly when a majority of the current voters and, in a joint
    configuration, a majority of the previous voters granted their vote. It is
    declared lost only when winning is out of reach: in one of the member sets
    those that have not refused are no majority. *)
Theorem election_outcome_correct c vs :
  let granted s := voters_voting s vs true in
  let possible s := voter_ids s ∖ voters_voting s vs false in
  exists r, votes_tally_votes (votes_register_all c vs) = Ret r /\
    (r = WON <-> majority_of (voter_ids (current c)) (granted (current c)) /\
      (is_joint c = true -> majority_of (voter_ids (previous c)) (granted (previous c)))) /\
    (r = LOST -> ~ majority_of (voter_ids (current c)) (possible (current c)) \/
      is_joint c = true /\ ~ majority_of (voter_ids (previous c)) (possible (previous c))).
Proof. apply election_outcome_spec. Qed.

(** Replication progress. The invariant [match_idx < next_idx] of a follower's
    progress is kept by every change the leader makes to it: accepting an
    acknowledgement, falling back on a reject that is not stray (to the smaller
    of the refused index and one past the follower's last entry), and entering
    snapshot transfer for a snapshot at or above the matched index. An
    acknowledgement never lowers the matched index. *)
Theorem progress_invariant p :
  fp_match_idx p < fp_next_idx p ->
  (forall idx, 0 <= idx < u64_modulus - 1 ->
    fp_match_idx (accepted p idx) < fp_next_idx (accepted p idx) /\
    fp_match_idx p <= fp_match_idx (accepted p idx) /\ idx <= fp_match_idx (accepted p idx)) /\
  (forall r, 0 <= rej_last_idx r < u64_modulus - 1 -> is_stray_reject p r = false ->
    let p' := become_probe (fp_with_next_idx p (rej_non_matching_idx r `min` (rej_last_idx r +! 1))) in
    fp_match_idx p' < fp_next_idx p') /\
  (forall snp, fp_match_idx p <= snp -> 0 <= snp < u64_modulus - 1 ->
    fp_match_idx (become_snapshot p snp) < fp_next_idx (become_snapshot p snp)).
Proof.
  intros Hinv. split_and!.
  - intros idx Hidx. simpl. rewrite u64_add_small by lia. lia.
  - intros r Hr. unfold is_stray_reject. simpl. rewrite u64_add_small by lia.
    destruct (Z.leb_spec (rej_non_matching_idx r) (fp_match_idx p)); [done|].
    destruct (Z.ltb_spec (rej_last_idx r) (fp_match_idx p)); [done|]. lia.
  - intros snp Hs Hb. simpl. rewrite u64_add_small by lia. lia.
Qed.

(** * Examples *)

Module TrackerExamples.
(** Three voters that acknowledged 5, 3 and 1. *)
Definition three : tracker :=
  let fp id m := FollowerProgress id (m + 1) m 0 0 true PIPELINE false 0 in
  Tracker {[1%N := fp 1%N 5; 2%N := fp 2%N 3; 3%N := fp 3%N 1]} {[1%N; 2%N; 3%N]} ∅.

Lemma three_wf : tracker_wf three.
Proof.
  split; [|refine (bool_decide_unpack _ _); vm_compute; exact I..|done].
  intros id p. simpl. rewrite !lookup_insert_Some, lookup_singleton_Some. naive_solver.
Qed.

Lemma committed_correct_witness :
  committed fp_match_idx three 2 = Ret 3 /\ has_quorum fp_match_idx three 3.
Proof.
  assert (committed fp_match_idx three 2 = Ret 3) as Heq by (vm_compute; reflexivity).
  split; [exact Heq|]. destruct (committed_correct fp_match_idx three 2 three_wf) as (r & Hr & _ & Hq & _).
  rewrite Heq in Hr. injection Hr as <-. apply Hq. lia.
Defined.

Lemma set_configuration_correct_witness :
  tracker_wf (set_configuration three (example_configuration [2%N; 3%N; 4%N]) 9).
Proof.
  apply (set_configuration_correct three (example_configuration [2%N; 3%N; 4%N]) 9).
  - apply three_wf.
  - vm_compute. reflexivity.
Defined.

Lemma progress_invariant_witness :
  fp_match_idx (accepted (make_follower_progress 1%N 4) 7) < fp_next_idx (accepted (make_follower_progress 1%N 4) 7).
Proof.
  destruct (progress_invariant (make_follower_progress 1%N 4)) as [H _]; [simpl; lia|].
  apply (H 7). vm_compute. split; congruence.
Defined.
End TrackerExamples.
