(* ===== verification/RaftFsm.v ===== *)
(** The Raft protocol state machine ([src/raft/fsm.hh], [src/raft/fsm.cc]): its
    state, and one definition per member function, each message handler in full.

    A member function that changes the machine is a computation of [FSM]: it
    reads and writes the whole [fsm] record and ends in a value, an exception
    ([raft_error]) or an abort. Loops over the tracker visit the followers in
    the order of the finite map; the source's [unordered_map] leaves the order
    open and no theorem depends on it. The condition variable [_sm_events] is a
    flag that [signal] raises. The leader's semaphore is its counter of available
    units; the fibers that wait on it are outside the machine. The failure
    detector is the argument [is_alive] of the operations that consult it. Log
    messages and the error-injection point of [add_entry], which is off unless a
    test enables it, are left out. *)
From S2P Require Import Prelude RaftTypes RaftLog RaftTracker.

(** * State *)

(** [fsm_output::applied_snapshot]. *)
Record applied_snapshot := AppliedSnapshot {
  as_snp : snapshot_descriptor;
  as_is_local : bool;
  as_preserved_log_entries : Z;
}.

Record fsm_output := FsmOutput {
  o_term_and_vote : option (term_t * server_id);
  o_log_entries : list log_entry;
  o_messages : list (server_id * rpc_message);
  o_committed : list log_entry;
  o_snp : option applied_snapshot;
  o_snps_to_drop : list snapshot_id;
  o_configuration : option (gmap N config_member);
  o_max_read_id_with_quorum : option read_id;
  o_state_changed : bool;
  o_abort_leadership_transfer : bool;
}.

(** [fsm_output{}]. *)
Definition empty_output : fsm_output :=
  FsmOutput None [] [] [] None [] None None false false.

Record fsm_config := FsmConfig {
  append_request_threshold : Z;
  max_log_size : Z;
  enable_prevoting : bool;
}.

(** [struct candidate]. *)
Record candidate := MkCandidate {
  c_votes : votes;
  c_is_prevote : bool;
}.

(** [struct leader]; [ld_log_limiter_semaphore] is the available units. *)
Record leader := MkLeader {
  ld_tracker : tracker;
  ld_log_limiter_semaphore : Z;
  ld_stepdown : option Z;
  ld_timeout_now_sent : option server_id;
  ld_last_read_id : read_id;
  ld_last_read_id_changed : bool;
  ld_max_read_id_with_quorum : read_id;
}.

(** [std::variant<follower, candidate, leader>]. *)
Inductive fsm_state :=
| Follower (current_leader : server_id)
| Candidate (c : candidate)
| Leader (l : leader).

(** [fsm::last_observed_state]. *)
Record last_observed_state := LastObservedState {
  ob_current_term : term_t;
  ob_voted_for : server_id;
  ob_commit_idx : index_t;
  ob_last_conf_idx : index_t;
  ob_last_term : term_t;
  ob_abort_leadership_transfer : bool;
}.

(** [class fsm]. [f_draws] counts the draws of the random engine. *)
Record fsm := Fsm {
  f_my_id : server_id;
  f_state : fsm_state;
  f_current_term : term_t;
  f_voted_for : server_id;
  f_commit_idx : index_t;
  f_log : log;
  f_config : fsm_config;
  f_abort_leadership_transfer : bool;
  f_ping_leader : bool;
  f_observed : last_observed_state;
  f_output : fsm_output;
  f_clock : Z;
  f_last_election_time : Z;
  f_randomized_election_timeout : Z;
  f_messages : list (server_id * rpc_message);
  f_sm_events : bool;
  f_draws : nat;
}.

(** Field updates. *)
Definition set_state (x : fsm_state) (f : fsm) : fsm :=
  Fsm (f_my_id f) x (f_current_term f) (f_voted_for f) (f_commit_idx f) (f_log f) (f_config f)
    (f_abort_leadership_transfer f) (f_ping_leader f) (f_observed f) (f_output f) (f_clock f)
    (f_last_election_time f) (f_randomized_election_timeout f) (f_messages f) (f_sm_events f)
    (f_draws f).
Definition set_current_term (x : term_t) (f : fsm) : fsm :=
  Fsm (f_my_id f) (f_state f) x (f_voted_for f) (f_commit_idx f) (f_log f) (f_config f)
    (f_abort_leadership_transfer f) (f_ping_leader f) (f_observed f) (f_output f) (f_clock f)
    (f_last_election_time f) (f_randomized_election_timeout f) (f_messages f) (f_sm_events f)
    (f_draws f).
Definition set_voted_for (x : server_id) (f : fsm) : fsm :=
  Fsm (f_my_id f) (f_state f) (f_current_term f) x (f_commit_idx f) (f_log f) (f_config f)
    (f_abort_leadership_transfer f) (f_ping_leader f) (f_observed f) (f_output f) (f_clock f)
    (f_last_election_time f) (f_randomized_election_timeout f) (f_messages f) (f_sm_events f)
    (f_draws f).
Definition set_commit_idx (x : index_t) (f : fsm) : fsm :=
  Fsm (f_my_id f) (f_state f) (f_current_term f) (f_voted_for f) x (f_log f) (f_config f)
    (f_abort_leadership_transfer f) (f_ping_leader f) (f_observed f) (f_output f) (f_clock f)
    (f_last_election_time f) (f_randomized_election_timeout f) (f_messages f) (f_sm_events f)
    (f_draws f).
Definition set_log (x : log) (f : fsm) : fsm :=
  Fsm (f_my_id f) (f_state f) (f_current_term f) (f_voted_for f) (f_commit_idx f) x (f_config f)
    (f_abort_leadership_transfer f) (f_ping_leader f) (f_observed f) (f_output f) (f_clock f)
    (f_last_election_time f) (f_randomized_election_timeout f) (f_messages f) (f_sm_events f)
    (f_draws f).
Definition set_abort_leadership_transfer (x : bool) (f : fsm) : fsm :=
  Fsm (f_my_id f) (f_state f) (f_current_term f) (f_voted_for f) (f_commit_idx f) (f_log f)
    (f_config f) x (f_ping_leader f) (f_observed f) (f_output f) (f_clock f)
    (f_last_election_time f) (f_randomized_election_timeout f) (f_messages f) (f_sm_events f)
    (f_draws f).
Definition set_ping_leader (x : bool) (f : fsm) : fsm :=
  Fsm (f_my_id f) (f_state f) (f_current_term f) (f_voted_for f) (f_commit_idx f) (f_log f)
    (f_config f) (f_abort_leadership_transfer f) x (f_observed f) (f_output f) (f_clock f)
    (f_last_election_time f) (f_randomized_election_timeout f) (f_messages f) (f_sm_events f)
    (f_draws f).
Definition set_observed (x : last_observed_state) (f : fsm) : fsm :=
  Fsm (f_my_id f) (f_state f) (f_current_term f) (f_voted_for f) (f_commit_idx f) (f_log f)
    (f_config f) (f_abort_leadership_transfer f) (f_ping_leader f) x (f_output f) (f_clock f)
    (f_last_election_time f) (f_randomized_election_timeout f) (f_messages f) (f_sm_events f)
    (f_draws f).
Definition set_output (x : fsm_output) (f : fsm) : fsm :=
  Fsm (f_my_id f) (f_state f) (f_current_term f) (f_voted_for f) (f_commit_idx f) (f_log f)
    (f_config f) (f_abort_leadership_transfer f) (f_ping_leader f) (f_observed f) x (f_clock f)
    (f_last_election_time f) (f_randomized_election_timeout f) (f_messages f) (f_sm_events f)
    (f_draws f).
Definition set_clock (x : Z) (f : fsm) : fsm :=
  Fsm (f_my_id f) (f_state f) (f_current_term f) (f_voted_for f) (f_commit_idx f) (f_log f)
    (f_config f) (f_abort_leadership_transfer f) (f_ping_leader f) (f_observed f) (f_output f) x
    (f_last_election_time f) (f_randomized_election_timeout f) (f_messages f) (f_sm_events f)
    (f_draws f).
Definition set_last_election_time (x : Z) (f : fsm) : fsm :=
  Fsm (f_my_id f) (f_state f) (f_current_term f) (f_voted_for f) (f_commit_idx f) (f_log f)
    (f_config f) (f_abort_leadership_transfer f) (f_ping_leader f) (f_observed f) (f_output f)
    (f_clock f) x (f_randomized_election_timeout f) (f_messages f) (f_sm_events f) (f_draws f).
Definition set_randomized_election_timeout (x : Z) (f : fsm) : fsm :=
  Fsm (f_my_id f) (f_state f) (f_current_term f) (f_voted_for f) (f_commit_idx f) (f_log f)
    (f_config f) (f_abort_leadership_transfer f) (f_ping_leader f) (f_observed f) (f_output f)
    (f_clock f) (f_last_election_time f) x (f_messages f) (f_sm_events f) (f_draws f).
Definition set_messages (x : list (server_id * rpc_message)) (f : fsm) : fsm :=
  Fsm (f_my_id f) (f_state f) (f_current_term f) (f_voted_for f) (f_commit_idx f) (f_log f)
    (f_config f) (f_abort_leadership_transfer f) (f_ping_leader f) (f_observed f) (f_output f)
    (f_clock f) (f_last_election_time f) (f_randomized_election_timeout f) x (f_sm_events f)
    (f_draws f).
Definition set_sm_events (x : bool) (f : fsm) : fsm :=
  Fsm (f_my_id f) (f_state f) (f_current_term f) (f_voted_for f) (f_commit_idx f) (f_log f)
    (f_config f) (f_abort_leadership_transfer f) (f_ping_leader f) (f_observed f) (f_output f)
    (f_clock f) (f_last_election_time f) (f_randomized_election_timeout f) (f_messages f) x
    (f_draws f).
Definition set_draws (x : nat) (f : fsm) : fsm :=
  Fsm (f_my_id f) (f_state f) (f_current_term f) (f_voted_for f) (f_commit_idx f) (f_log f)
    (f_config f) (f_abort_leadership_transfer f) (f_ping_leader f) (f_observed f) (f_output f)
    (f_clock f) (f_last_election_time f) (f_randomized_election_timeout f) (f_messages f)
    (f_sm_events f) x.

Definition ld_set_tracker (x : tracker) (l : leader) : leader :=
  MkLeader x (ld_log_limiter_semaphore l) (ld_stepdown l) (ld_timeout_now_sent l)
    (ld_last_read_id l) (ld_last_read_id_changed l) (ld_max_read_id_with_quorum l).
Definition ld_set_semaphore (x : Z) (l : leader) : leader :=
  MkLeader (ld_tracker l) x (ld_stepdown l) (ld_timeout_now_sent l)
    (ld_last_read_id l) (ld_last_read_id_changed l) (ld_max_read_id_with_quorum l).
Definition ld_set_stepdown (x : option Z) (l : leader) : leader :=
  MkLeader (ld_tracker l) (ld_log_limiter_semaphore l) x (ld_timeout_now_sent l)
    (ld_last_read_id l) (ld_last_read_id_changed l) (ld_max_read_id_with_quorum l).
Definition ld_set_timeout_now_sent (x : option server_id) (l : leader) : leader :=
  MkLeader (ld_tracker l) (ld_log_limiter_semaphore l) (ld_stepdown l) x
    (ld_last_read_id l) (ld_last_read_id_changed l) (ld_max_read_id_with_quorum l).
Definition ld_set_last_read_id (x : read_id) (l : leader) : leader :=
  MkLeader (ld_tracker l) (ld_log_limiter_semaphore l) (ld_stepdown l) (ld_timeout_now_sent l)
    x (ld_last_read_id_changed l) (ld_max_read_id_with_quorum l).
Definition ld_set_last_read_id_changed (x : bool) (l : leader) : leader :=
  MkLeader (ld_tracker l) (ld_log_limiter_semaphore l) (ld_stepdown l) (ld_timeout_now_sent l)
    (ld_last_read_id l) x (ld_max_read_id_with_quorum l).
Definition ld_set_max_read_id_with_quorum (x : read_id) (l : leader) : leader :=
  MkLeader (ld_tracker l) (ld_log_limiter_semaphore l) (ld_stepdown l) (ld_timeout_now_sent l)
    (ld_last_read_id l) (ld_last_read_id_changed l) x.

Definition out_set_state_changed (x : bool) (o : fsm_output) : fsm_output :=
  FsmOutput (o_term_and_vote o) (o_log_entries o) (o_messages o) (o_committed o) (o_snp o)
    (o_snps_to_drop o) (o_configuration o) (o_max_read_id_with_quorum o) x (o_abort_leadership_transfer o).
Definition out_set_max_read_id (x : option read_id) (o : fsm_output) : fsm_output :=
  FsmOutput (o_term_and_vote o) (o_log_entries o) (o_messages o) (o_committed o) (o_snp o)
    (o_snps_to_drop o) (o_configuration o) x (o_state_changed o) (o_abort_leadership_transfer o).
Definition out_set_snps_to_drop (x : list snapshot_id) (o : fsm_output) : fsm_output :=
  FsmOutput (o_term_and_vote o) (o_log_entries o) (o_messages o) (o_committed o) (o_snp o)
    x (o_configuration o) (o_max_read_id_with_quorum o) (o_state_changed o) (o_abort_leadership_transfer o).
Definition out_set_snp (x : option applied_snapshot) (o : fsm_output) : fsm_output :=
  FsmOutput (o_term_and_vote o) (o_log_entries o) (o_messages o) (o_committed o) x
    (o_snps_to_drop o) (o_configuration o) (o_max_read_id_with_quorum o) (o_state_changed o)
    (o_abort_leadership_transfer o).

(** * Observers *)

Definition is_leader (f : fsm) : bool := match f_state f with Leader _ => true | _ => false end.
Definition is_follower (f : fsm) : bool := match f_state f with Follower _ => true | _ => false end.
Definition is_candidate (f : fsm) : bool := match f_state f with Candidate _ => true | _ => false end.

Definition is_prevote_candidate (f : fsm) : bool :=
  match f_state f with Candidate c => c_is_prevote c | _ => false end.

Definition current_leader (f : fsm) : server_id :=
  match f_state f with
  | Leader _ => f_my_id f
  | Candidate _ => no_id
  | Follower l => l
  end.

Definition election_elapsed (f : fsm) : Z := f_clock f - f_last_election_time f.

Definition is_past_election_timeout (f : fsm) : bool :=
  election_elapsed f >=? f_randomized_election_timeout f.

(** [last_observed_state::is_equal]. *)
Definition observed_is_equal (o : last_observed_state) (f : fsm) : bool :=
  (ob_current_term o =? f_current_term f) && (ob_voted_for o =? f_voted_for f)%N &&
  (ob_commit_idx o =? f_commit_idx f) &&
  (ob_last_conf_idx o =? last_conf_idx (f_log f)) &&
  (ob_last_term o =? last_term (f_log f)) &&
  Bool.eqb (ob_abort_leadership_transfer o) (f_abort_leadership_transfer f).

(** [last_observed_state::advance]. *)
Definition observed_advance (f : fsm) : last_observed_state :=
  LastObservedState (f_current_term f) (f_voted_for f) (f_commit_idx f)
    (last_conf_idx (f_log f)) (last_term (f_log f)) (f_abort_leadership_transfer f).

Definition has_output (f : fsm) : bool :=
  let diff := last_idx (f_log f) -! l_stable_idx (f_log f) in
  (diff >? 0) || negb (bool_decide (f_messages f = [])) ||
  negb (observed_is_equal (f_observed f) f) ||
  bool_decide (is_Some (o_max_read_id_with_quorum (f_output f))) ||
  match f_state f with Leader l => ld_last_read_id_changed l | _ => false end ||
  bool_decide (is_Some (o_snp (f_output f))) ||
  negb (bool_decide (o_snps_to_drop (f_output f) = [])) ||
  o_state_changed (f_output f).

(** * Primitive steps *)

Abbreviation FSM := (M fsm raft_error).

(** [SCYLLA_ASSERT] on the state. *)
Definition assert_that (b : fsm -> bool) : FSM unit :=
  f ← gets (fun f => f); lift (check (b f)).

(** [_sm_events.signal()]. *)
Definition signal : FSM unit := modify (set_sm_events true).

Definition send_to (to : server_id) (m : rpc_message) : FSM unit :=
  modify (fun f => set_messages (f_messages f ++ [(to, m)]) f) ;; signal.

(** [std::get<leader>(_state)], and updates through that reference. *)
Definition leader_state : FSM leader :=
  f ← gets (fun f => f);
  match f_state f with Leader l => mret l | _ => throw bad_variant_access end.
Definition update_leader (g : leader -> leader) : FSM unit :=
  l ← leader_state; modify (set_state (Leader (g l))).

(** [std::get<candidate>(_state)], and updates through that reference. *)
Definition candidate_state : FSM candidate :=
  f ← gets (fun f => f);
  match f_state f with Candidate c => mret c | _ => throw bad_variant_access end.
Definition update_candidate (g : candidate -> candidate) : FSM unit :=
  c ← candidate_state; modify (set_state (Candidate (g c))).

(** Stores a progress that the code modifies through a reference into the
    leader's tracker. *)
Definition update_progress (id : server_id) (p : follower_progress) : FSM unit :=
  update_leader (fun l => ld_set_tracker (tracker_update (ld_tracker l) id p) l).

Definition check_is_leader : FSM unit :=
  f ← gets (fun f => f); if is_leader f then mret tt else throw (not_a_leader (current_leader f)).

Definition update_current_term (current_term : term_t) : FSM unit :=
  assert_that (fun f => f_current_term f <? current_term) ;;
  modify (set_current_term current_term) ;;
  modify (set_voted_for no_id).

Definition advance_commit_idx (leader_commit_idx : index_t) : FSM unit :=
  f ← gets (fun f => f);
  let new_commit_idx := leader_commit_idx `min` last_idx (f_log f) in
  when (new_commit_idx >? f_commit_idx f)
    (modify (set_commit_idx new_commit_idx) ;; signal).

(** Asks to search for a leader. *)
Definition ping_leader : FSM unit :=
  assert_that (fun f => (current_leader f =? no_id)%N) ;;
  modify (set_ping_leader true).

Definition become_follower (leader : server_id) : FSM unit :=
  f ← gets (fun f => f);
  if (leader =? f_my_id f)%N then throw internal_error
  else
    when (negb (is_follower f)) (modify (fun f => set_output (out_set_state_changed true (f_output f)) f)) ;;
    modify (set_state (Follower leader)) ;;
    when (negb (leader =? no_id)%N)
      (modify (set_ping_leader false) ;;
       modify (fun f => set_last_election_time (f_clock f) f)).

Section machine.
Context {env : raft_env}.

(** * Elections and leadership *)

Definition reset_election_timeout : FSM unit :=
  f ← gets (fun f => f);
  cfg ← lift (get_configuration (f_log f));
  let hi := ELECTION_TIMEOUT `max` Z.of_nat (size (current cfg)) in
  modify (set_randomized_election_timeout (ELECTION_TIMEOUT + dist (f_draws f) 1 hi)) ;;
  modify (set_draws (S (f_draws f))).

(** Replaces the tracker's configuration by the log's. *)
Definition tracker_set_configuration : FSM unit :=
  f ← gets (fun f => f);
  cfg ← lift (get_configuration (f_log f));
  update_leader (fun l => ld_set_tracker (set_configuration (ld_tracker l) cfg (last_idx (f_log f))) l).

(** [add_entry], for the three types of entries. *)
Definition add_entry (command : entry_data) : FSM log_entry :=
  check_is_leader ;;
  l ← leader_state;
  if bool_decide (is_Some (ld_stepdown l)) then throw (not_a_leader no_id)
  else
    command ← match command with
      | ConfigurationEntry c =>
        lift (configuration_check (current c)) ;;
        f ← gets (fun f => f);
        cfg ← lift (get_configuration (f_log f));
        if (last_conf_idx (f_log f) >? f_commit_idx f) || is_joint cfg
        then throw conf_change_in_progress
        else tmp ← lift (enter_joint cfg (current c)); mret (ConfigurationEntry tmp)
      | _ => mret command
      end;
    modify (fun f => set_log
      (emplace_back (f_log f) (LogEntry (f_current_term f) (next_idx (f_log f)) command)) f) ;;
    signal ;;
    match command with
    | ConfigurationEntry _ => tracker_set_configuration
    | _ => mret tt
    end ;;
    f ← gets (fun f => f);
    lift (log_at (f_log f) (last_idx (f_log f))).

(** [leader(max_log_size, fsm)]. *)
Definition make_leader (f : fsm) : leader :=
  MkLeader (Tracker ∅ ∅ ∅) (max_log_size (f_config f)) None None 0 false 0.

Definition become_leader : FSM unit :=
  assert_that (fun f => negb (is_leader f)) ;;
  modify (fun f => set_output (out_set_state_changed true (f_output f)) f) ;;
  modify (fun f => set_state (Leader (make_leader f)) f) ;;
  f ← gets (fun f => f);
  update_leader (fun l => ld_set_semaphore (ld_log_limiter_semaphore l - l_memory_usage (f_log f)) l) ;;
  modify (fun f => set_last_election_time (f_clock f) f) ;;
  modify (set_ping_leader false) ;;
  _ ← add_entry Dummy;
  tracker_set_configuration.

(** The guard of [become_candidate]: a server that is not a voter campaigns
    only when the last configuration is uncommitted and it was a voter of the
    previous one. *)
Definition may_campaign (voters : gmap N (list Byte.byte)) : FSM bool :=
  f ← gets (fun f => f);
  if bool_decide (is_Some (voters !! f_my_id f)) then mret true
  else if last_conf_idx (f_log f) <=? f_commit_idx f then mret false
  else
    prev_cfg ← lift (get_prev_configuration (f_log f));
    lift (check (bool_decide (is_Some prev_cfg))) ;;
    mret match prev_cfg with Some c => can_vote c (f_my_id f) | None => false end.

(** The loop of [become_candidate] for one voter. *)
Definition campaign_to (is_prevote is_leadership_transfer : bool) (term : term_t)
    (server : server_id) : FSM unit :=
  f ← gets (fun f => f);
  if (server =? f_my_id f)%N then
    update_candidate (fun c => MkCandidate (votes_register_vote (c_votes c) server true) (c_is_prevote c)) ;;
    when (negb is_prevote) (modify (set_voted_for (f_my_id f)))
  else
    send_to server (msg_vote_request (VoteRequest term (last_idx (f_log f)) (last_term (f_log f))
      is_prevote is_leadership_transfer)).

(** [become_candidate] up to the tally of its own vote; [None] when it gives up
    and becomes a follower. *)
Definition campaign (is_prevote is_leadership_transfer : bool) : FSM (option vote_result) :=
  f ← gets (fun f => f);
  when (negb (is_candidate f))
    (modify (fun f => set_output (out_set_state_changed true (f_output f)) f)) ;;
  cfg ← lift (get_configuration (f_log f));
  modify (set_state (Candidate (MkCandidate (make_votes cfg) is_prevote))) ;;
  reset_election_timeout ;;
  modify (fun f => set_last_election_time (f_clock f) f) ;;
  c ← candidate_state;
  let voters := v_voters (c_votes c) in
  may ← may_campaign voters;
  if negb may then become_follower no_id ;; mret None
  else
    let term := f_current_term f +! 1 in
    when (negb is_prevote) (update_current_term term) ;;
    for_each (map_to_list voters).*1 (campaign_to is_prevote is_leadership_transfer term) ;;
    c ← candidate_state;
    r ← lift (votes_tally_votes (c_votes c));
    mret (Some r).

(** [become_candidate(false, is_leadership_transfer)]. *)
Definition become_real_candidate (is_leadership_transfer : bool) : FSM unit :=
  r ← campaign false is_leadership_transfer;
  when (bool_decide (r = Some WON)) become_leader.

(** [become_candidate]: a won pre-vote starts the real campaign. *)
Definition become_candidate (is_prevote is_leadership_transfer : bool) : FSM unit :=
  if is_prevote then
    r ← campaign true is_leadership_transfer;
    when (bool_decide (r = Some WON)) (become_real_candidate false)
  else become_real_candidate is_leadership_transfer.

Definition request_vote (from : server_id) (request : vote_request) : FSM unit :=
  assert_that (fun f => vreq_is_prevote request || (f_current_term f =? vreq_current_term request)) ;;
  f ← gets (fun f => f);
  let can_vote :=
    (f_voted_for f =? from)%N ||
    ((f_voted_for f =? no_id)%N && (current_leader f =? no_id)%N) ||
    (vreq_is_prevote request && (vreq_current_term request >? f_current_term f)) in
  if can_vote && is_up_to_date (f_log f) (vreq_last_log_idx request) (vreq_last_log_term request) then
    when (negb (vreq_is_prevote request))
      (modify (fun f => set_last_election_time (f_clock f) f) ;;
       modify (set_voted_for from)) ;;
    send_to from (msg_vote_reply (VoteReply (vreq_current_term request) true (vreq_is_prevote request)))
  else
    send_to from (msg_vote_reply (VoteReply (f_current_term f) false (vreq_is_prevote request))).

Definition request_vote_reply (from : server_id) (reply : vote_reply) : FSM unit :=
  assert_that is_candidate ;;
  state ← candidate_state;
  if negb (Bool.eqb (c_is_prevote state) (vrep_is_prevote reply)) then mret tt
  else
    update_candidate (fun c =>
      MkCandidate (votes_register_vote (c_votes c) from (vrep_vote_granted reply)) (c_is_prevote c)) ;;
    state ← candidate_state;
    r ← lift (votes_tally_votes (c_votes state));
    match r with
    | UNKNOWN => mret tt
    | WON => if c_is_prevote state then become_candidate false false else become_leader
    | LOST => become_follower no_id
    end.

(** * Replication *)

(** The payload of an entry; a [server_id] is a 16-byte UUID and [bool] one
    byte. *)
Definition entry_data_size (d : entry_data) : Z :=
  match d with
  | Command c => Z.of_nat (length c)
  | ConfigurationEntry c =>
    foldr (fun m size => size +! (16 +! Z.of_nat (length (member_info m)) +! 1)) 0
      (map_to_list (current c)).*2
  | Dummy => 0
  end.

Definition entry_size (e : log_entry) : Z := entry_data_size (e_data e) +! Z.of_N sizeof_log_entry.

(** The inner loop of [replicate_to]: the entries of one request and the index
    after them. *)
Fixpoint collect_entries (fuel : nat) (l : log) (threshold : Z) (probe : bool)
    (next_idx : index_t) (size : Z) : outcome raft_error (list log_entry * index_t) :=
  if (next_idx <=? last_idx l) && (size <? threshold) then
    match fuel with
    | O => Abort out_of_fuel
    | S fuel =>
      entry ← log_at l next_idx;
      if probe then mret ([entry], next_idx +! 1)
      else
        '(es, n) ← collect_entries fuel l threshold probe (next_idx +! 1) (size +! entry_size entry);
        mret (entry :: es, n)
    end
  else mret ([], next_idx).

(** One [append_request] to a follower: the progress and the message. *)
Definition make_append_request (f : fsm) (p : follower_progress) (next_idx prev_idx : index_t)
    (prev_term : term_t) : outcome raft_error (follower_progress * append_request) :=
  let probe := bool_decide (fp_state p = PROBE) in
  '(p, entries) ←
    (if next_idx =? 0 then mret (p, [])
     else
       '(es, next_idx) ← collect_entries (S (length (l_log (f_log f)))) (f_log f)
         (append_request_threshold (f_config f)) probe next_idx 0;
       mret ((if bool_decide (fp_state p = PIPELINE)
              then fp_with_next_idx (fp_with_in_flight p (fp_in_flight p +! 1)) next_idx
              else p), es));
  mret ((if probe then fp_with_probe_sent p true else p),
    AppendRequest (f_current_term f) prev_idx prev_term (f_commit_idx f) entries).

(** The loop of [replicate_to], which reads the machine and changes only the
    progress and the outgoing messages: the new progress and the messages. *)
Fixpoint replicate_to_loop (fuel : nat) (f : fsm) (p : follower_progress) (allow_empty : bool) :
    outcome raft_error (follower_progress * list rpc_message) :=
  if can_send_to p then
    match fuel with
    | O => Abort out_of_fuel
    | S fuel =>
      let past_last := fp_next_idx p >? last_idx (f_log f) in
      if past_last && negb allow_empty then mret (p, [])
      else
        let next_idx := if past_last then 0 else fp_next_idx p in
        let prev_idx := fp_next_idx p -! 1 in
        prev_term ← term_for (f_log f) prev_idx;
        match prev_term with
        | None =>
          let snapshot := l_snapshot (f_log f) in
          mret (become_snapshot p (snp_idx snapshot),
            [msg_install_snapshot (InstallSnapshot (f_current_term f) snapshot)])
        | Some prev_term =>
          '(p, req) ← make_append_request f p next_idx prev_idx prev_term;
          '(p, ms) ← replicate_to_loop fuel f p false;
          mret (p, msg_append_request req :: ms)
        end
    end
  else mret (p, []).

(** At most [max_in_flight] requests are sent before the window is full. *)
Definition replicate_fuel : nat := 12.

Definition replicate_to (id : server_id) (allow_empty : bool) : FSM unit :=
  l ← leader_state;
  p ← lift (defined (tracker_find (ld_tracker l) id));
  f ← gets (fun f => f);
  '(p', ms) ← lift (replicate_to_loop replicate_fuel f p allow_empty);
  update_progress id p' ;;
  for_each ms (send_to (fp_id p)).

(** The ids of the tracker, for the loops that modify what they visit. *)
Definition tracker_ids (t : tracker) : list server_id := (map_to_list (t_progress t)).*1.

Definition replicate : FSM unit :=
  assert_that is_leader ;;
  l ← leader_state;
  for_each (tracker_ids (ld_tracker l)) (fun id =>
    l ← leader_state;
    p ← lift (defined (tracker_find (ld_tracker l) id));
    f ← gets (fun f => f);
    when (negb (fp_id p =? f_my_id f)%N) (replicate_to id false)).

(** * Reads *)

Definition handle_read_quorum_reply (from : server_id) (reply : read_quorum_reply) : FSM unit :=
  assert_that is_leader ;;
  state ← leader_state;
  match tracker_find (ld_tracker state) from with
  | None => mret tt
  | Some p =>
    let p := fp_with_commit_idx p (fp_commit_idx p `max` rqr_commit_idx reply) in
    let p := fp_with_max_acked_read p (fp_max_acked_read p `max` rqr_id reply) in
    update_progress from p ;;
    if rqr_id reply <=? ld_max_read_id_with_quorum state then mret tt
    else
      l ← leader_state;
      new_committed_read ← lift (committed fp_max_acked_read (ld_tracker l) (ld_max_read_id_with_quorum l));
      if new_committed_read <=? ld_max_read_id_with_quorum l then mret tt
      else
        update_leader (ld_set_max_read_id_with_quorum new_committed_read) ;;
        modify (fun f => set_output (out_set_max_read_id (Some new_committed_read) (f_output f)) f) ;;
        signal
  end.

Definition broadcast_read_quorum (id : read_id) : FSM unit :=
  l ← leader_state;
  for_each (tracker_ids (ld_tracker l)) (fun dst =>
    l ← leader_state;
    p ← lift (defined (tracker_find (ld_tracker l) dst));
    f ← gets (fun f => f);
    when (fp_can_vote p)
      (if (fp_id p =? f_my_id f)%N
       then handle_read_quorum_reply (f_my_id f) (ReadQuorumReply (f_current_term f) (f_commit_idx f) id)
       else send_to (fp_id p) (msg_read_quorum
         (ReadQuorum (f_current_term f) (fp_match_idx p `min` f_commit_idx f) id)))).

Definition next_read_id : FSM read_id :=
  assert_that is_leader ;;
  update_leader (fun l => ld_set_last_read_id (ld_last_read_id l +! 1) l) ;;
  update_leader (ld_set_last_read_id_changed true) ;;
  signal ;;
  l ← leader_state;
  mret (ld_last_read_id l).

Definition start_read_barrier (requester : server_id) : FSM (option (read_id * index_t)) :=
  check_is_leader ;;
  f ← gets (fun f => f);
  l ← leader_state;
  if negb (requester =? f_my_id f)%N && bool_decide (tracker_find (ld_tracker l) requester = None)
  then throw runtime_error
  else
    term_for_commit_idx ← lift (term_for (f_log f) (f_commit_idx f));
    term ← lift (match term_for_commit_idx with Some t => mret t | None => Abort assertion_failed end);
    if negb (term =? f_current_term f) then mret None
    else
      rid ← next_read_id;
      mret (Some (rid, f_commit_idx f)).

(** * Leadership transfer *)

(** The server leads without being a voter of its configuration. *)
Definition is_removed_leader (f : fsm) (l : leader) : bool :=
  match tracker_find (ld_tracker l) (f_my_id f) with
  | None => true
  | Some me => negb (fp_can_vote me)
  end.

Definition send_timeout_now (id : server_id) : FSM unit :=
  f ← gets (fun f => f);
  send_to id (msg_timeout_now (TimeoutNow (f_current_term f))) ;;
  update_leader (ld_set_timeout_now_sent (Some id)) ;;
  l ← leader_state;
  when (is_removed_leader f l) (become_follower no_id).

Definition transfer_leadership (timeout : Z) : FSM unit :=
  check_is_leader ;;
  f ← gets (fun f => f);
  l ← leader_state;
  cfg ← lift (get_configuration (f_log f));
  if (voter_count (current cfg) =? 1) && negb (is_removed_leader f l) then throw no_other_voting_member
  else
    update_leader (ld_set_stepdown (Some (f_clock f + timeout))) ;;
    update_leader (fun l => ld_set_semaphore
      (ld_log_limiter_semaphore l - max_log_size (f_config f)) l) ;;
    match List.find (fun p => negb (fp_id p =? f_my_id f)%N && fp_can_vote p &&
                              (fp_match_idx p =? last_idx (f_log f)))
            (map_to_list (t_progress (ld_tracker l))).*2 with
    | Some p => send_timeout_now (fp_id p)
    | None => mret tt
    end.

(** * Commit *)

(** [maybe_commit], given the computation of its recursive call. *)
Definition maybe_commit_body (again : FSM unit) : FSM unit :=
  f ← gets (fun f => f);
  l ← leader_state;
  new_commit_idx ← lift (committed fp_match_idx (ld_tracker l) (f_commit_idx f));
  if new_commit_idx <=? f_commit_idx f then mret tt
  else
    let committed_conf_change :=
      (f_commit_idx f <? last_conf_idx (f_log f)) && (new_commit_idx >=? last_conf_idx (f_log f)) in
    entry ← lift (log_at (f_log f) new_commit_idx);
    if negb (e_term entry =? f_current_term f) then mret tt
    else
      modify (set_commit_idx new_commit_idx) ;;
      signal ;;
      when committed_conf_change
        (cfg ← lift (get_configuration (f_log f));
         (if is_joint cfg then
            cfg ← lift (leave_joint cfg);
            modify (fun f => set_log (emplace_back (f_log f)
              (LogEntry (f_current_term f) (next_idx (f_log f)) (ConfigurationEntry cfg))) f) ;;
            tracker_set_configuration ;;
            again
          else
            l ← leader_state;
            when (is_removed_leader f l) (transfer_leadership 0)) ;;
         f ← gets (fun f => f);
         match f_state f with
         | Leader l =>
           when (negb (ld_last_read_id l =? ld_max_read_id_with_quorum l))
             (broadcast_read_quorum (ld_last_read_id l))
         | _ => mret tt
         end).

(** The configuration appended when a joint one is committed is not joint, so
    the recursive call does not recurse. *)
Definition maybe_commit : FSM unit :=
  maybe_commit_body (maybe_commit_body (lift (Abort out_of_fuel))).

Definition advance_stable_idx (idx : index_t) : FSM unit :=
  f ← gets (fun f => f);
  l' ← lift (stable_to (f_log f) idx);
  modify (set_log l') ;;
  match f_state f with
  | Leader l =>
    match tracker_find (ld_tracker l) (f_my_id f) with
    | Some p => update_progress (f_my_id f) (accepted p idx) ;; maybe_commit
    | None => mret tt
    end
  | _ => mret tt
  end.

(** * Time *)

(** What [tick_leader] does to a follower's progress before it replicates; the
    flag is false for the followers the loop skips. *)
Definition tick_progress (p : follower_progress) : follower_progress * bool :=
  match fp_state p with
  | PROBE => (fp_with_probe_sent p false, true)
  | PIPELINE =>
    ((if fp_in_flight p =? max_in_flight then fp_with_in_flight p (fp_in_flight p -! 1) else p), true)
  | SNAPSHOT => (p, false)
  end.

(** The loop of [tick_leader] over the tracker, with the activity it gathers. *)
Fixpoint tick_followers (is_alive : server_id -> bool) (ids : list server_id)
    (active : activity_tracker) : FSM activity_tracker :=
  match ids with
  | [] => mret active
  | id :: ids =>
    l ← leader_state;
    p ← lift (defined (tracker_find (ld_tracker l) id));
    f ← gets (fun f => f);
    if (fp_id p =? f_my_id f)%N then tick_followers is_alive ids active
    else
      let active :=
        if is_alive (fp_id p) then activity_tracker_add (ld_tracker l) active (fp_id p) else active in
      let '(p, proceed) := tick_progress p in
      update_progress id p ;;
      when (proceed && ((fp_match_idx p <? last_idx (f_log f)) || (fp_commit_idx p <? f_commit_idx f)))
        (replicate_to id true) ;;
      tick_followers is_alive ids active
  end.

(** The end of [tick_leader]: cancel or retry a stepdown. *)
Definition tick_stepdown : FSM unit :=
  f ← gets (fun f => f);
  state ← leader_state;
  match ld_stepdown state with
  | None => mret tt
  | Some deadline =>
    if is_removed_leader f state then mret tt
    else if deadline <=? f_clock f then
      update_leader (fun l => ld_set_semaphore
        (ld_log_limiter_semaphore l + max_log_size (f_config f)) l) ;;
      update_leader (ld_set_stepdown None) ;;
      update_leader (ld_set_timeout_now_sent None) ;;
      modify (set_abort_leadership_transfer true) ;;
      signal
    else
      match ld_timeout_now_sent state with
      | Some id => send_to id (msg_timeout_now (TimeoutNow (f_current_term f)))
      | None => mret tt
      end
  end.

Definition tick_leader (is_alive : server_id -> bool) : FSM unit :=
  f ← gets (fun f => f);
  if election_elapsed f >=? ELECTION_TIMEOUT then become_follower no_id
  else
    l ← leader_state;
    let active := activity_tracker_add (ld_tracker l) (ActivityTracker 0 0) (f_my_id f) in
    active ← tick_followers is_alive (tracker_ids (ld_tracker l)) active;
    state ← leader_state;
    when (negb (ld_last_read_id state =? ld_max_read_id_with_quorum state))
      (broadcast_read_quorum (ld_last_read_id state)) ;;
    state ← leader_state;
    when (activity_tracker_active (ld_tracker state) active)
      (modify (fun f => set_last_election_time (f_clock f) f)) ;;
    tick_stepdown.

(** The lambda of [tick]. *)
Definition has_stable_leader (is_alive : server_id -> bool) : FSM bool :=
  f ← gets (fun f => f);
  conf ← lift (get_configuration (f_log f));
  let leader := current_leader f in
  mret (negb (leader =? no_id)%N && can_vote conf leader && is_alive leader).

(** The end of [tick]: ask the voters who the leader is. *)
Definition search_leader (is_alive : server_id -> bool) : FSM unit :=
  f ← gets (fun f => f);
  when (is_follower f && (current_leader f =? no_id)%N && f_ping_leader f)
    (cfg ← lift (get_configuration (f_log f));
     when (negb (is_joint cfg) && bool_decide (is_Some (current cfg !! f_my_id f)))
       (for_each (map_to_list (current cfg)) (fun '(id, m) =>
          when (member_can_vote m && negb (id =? f_my_id f)%N && is_alive id)
            (send_to id (msg_append_reply
              (AppendReply (f_current_term f) (f_commit_idx f) (rejected (Rejected 0 0)))))))).

Definition tick (is_alive : server_id -> bool) : FSM unit :=
  modify (fun f => set_clock (clock_advance (f_clock f)) f) ;;
  f ← gets (fun f => f);
  (if is_leader f then tick_leader is_alive
   else
     stable ← has_stable_leader is_alive;
     if (stable : bool) then modify (fun f => set_last_election_time (f_clock f) f)
     else when (is_past_election_timeout f)
            (become_candidate (enable_prevoting (f_config f)) false)) ;;
  search_leader is_alive.

(** * Handlers of append and snapshot messages *)

Definition append_entries (from : server_id) (request : append_request) : FSM unit :=
  assert_that is_follower ;;
  f ← gets (fun f => f);
  '(matched, _) ← lift (match_term (f_log f) (areq_prev_log_idx request) (areq_prev_log_term request));
  if negb matched then
    send_to from (msg_append_reply (AppendReply (f_current_term f) (f_commit_idx f)
      (rejected (Rejected (areq_prev_log_idx request) (last_idx (f_log f))))))
  else
    last_new_idx ←
      match areq_entries request with
      | [] => mret (areq_prev_log_idx request)
      | _ :: _ =>
        '(last_new_idx, l) ← lift (maybe_append (f_log f) (areq_entries request));
        modify (set_log l) ;;
        mret last_new_idx
      end;
    advance_commit_idx (areq_leader_commit_idx request `min` last_new_idx) ;;
    f ← gets (fun f => f);
    send_to from (msg_append_reply (AppendReply (f_current_term f) (f_commit_idx f)
      (accepted_to last_new_idx))).

(** The end of [append_entries_reply]: continue with the follower, if the
    configuration still has it. *)
Definition replicate_again (from : server_id) : FSM unit :=
  l ← leader_state;
  match tracker_find (ld_tracker l) from with
  | Some _ => replicate_to from false
  | None => mret tt
  end.

(** An accepted reply, for the progress [p] the tracker has for [from]. *)
Definition append_accepted (from : server_id) (p : follower_progress) (last_new_idx : index_t) : FSM unit :=
  let p := become_pipeline (accepted p last_new_idx) in
  update_progress from p ;;
  l ← leader_state;
  f ← gets (fun f => f);
  when (bool_decide (is_Some (ld_stepdown l)) && bool_decide (ld_timeout_now_sent l = None) &&
        fp_can_vote p && (fp_match_idx p =? last_idx (f_log f)))
    (send_timeout_now (fp_id p)) ;;
  f ← gets (fun f => f);
  if negb (is_leader f) then mret tt
  else
    maybe_commit ;;
    f ← gets (fun f => f);
    if negb (is_leader f) then mret tt else replicate_again from.

(** A rejected reply. *)
Definition append_rejected (from : server_id) (p : follower_progress) (r : rejected_result) : FSM unit :=
  if (rej_non_matching_idx r =? 0) && (rej_last_idx r =? 0) then replicate_to from true
  else if is_stray_reject p r then mret tt
  else
    let p := become_probe (fp_with_next_idx p (rej_non_matching_idx r `min` (rej_last_idx r +! 1))) in
    update_progress from p ;;
    lift (check (fp_match_idx p <? fp_next_idx p)) ;;
    replicate_again from.

Definition append_entries_reply (from : server_id) (reply : append_reply) : FSM unit :=
  assert_that is_leader ;;
  l ← leader_state;
  match tracker_find (ld_tracker l) from with
  | None => mret tt
  | Some p =>
    let p :=
      if bool_decide (fp_state p = PIPELINE) && negb (fp_in_flight p =? 0)
      then fp_with_in_flight p (fp_in_flight p -! 1) else p in
    update_progress from p ;;
    if bool_decide (fp_state p = SNAPSHOT) then mret tt
    else
      let p := fp_with_commit_idx p (fp_commit_idx p `max` arep_commit_idx reply) in
      update_progress from p ;;
      match arep_result reply with
      | accepted_to last_new_idx => append_accepted from p last_new_idx
      | rejected r => append_rejected from p r
      end
  end.

Definition install_snapshot_reply (from : server_id) (reply : snapshot_reply) : FSM unit :=
  l ← leader_state;
  match tracker_find (ld_tracker l) from with
  | None => mret tt
  | Some p =>
    if negb (bool_decide (fp_state p = SNAPSHOT)) then mret tt
    else
      update_progress from (become_probe p) ;;
      when (srep_success reply) (replicate_to from false)
  end.

Definition apply_snapshot (snp : snapshot_descriptor) (max_trailing_entries max_trailing_bytes : Z)
    (local : bool) : FSM bool :=
  assert_that (fun f => (local && (snp_idx snp <=? ob_commit_idx (f_observed f))) ||
                        (negb local && is_follower f)) ;;
  f ← gets (fun f => f);
  let current_snp := l_snapshot (f_log f) in
  let drop_snapshot (x : snapshot_id) (f : fsm) :=
    set_output (out_set_snps_to_drop (o_snps_to_drop (f_output f) ++ [x]) (f_output f)) f in
  if (snp_idx snp <=? snp_idx current_snp) || (negb local && (snp_idx snp <=? f_commit_idx f)) then
    modify (drop_snapshot (snp_id snp)) ;;
    mret false
  else
    modify (drop_snapshot (snp_id current_snp)) ;;
    modify (fun f => set_commit_idx (f_commit_idx f `max` snp_idx snp) f) ;;
    '(units, new_first_index, l) ←
      lift (log_apply_snapshot (f_log f) snp max_trailing_entries max_trailing_bytes);
    modify (set_log l) ;;
    modify (fun f => set_output (out_set_snp (Some (AppliedSnapshot (l_snapshot l) local
      (snp_idx (l_snapshot l) +! 1 -! new_first_index))) (f_output f)) f) ;;
    when (is_leader f)
      (update_leader (fun l => ld_set_semaphore (ld_log_limiter_semaphore l + units) l)) ;;
    signal ;;
    mret true.

(** * Dispatch *)

(** [step(from, const leader&, msg)]. *)
Definition step_leader (from : server_id) (msg : rpc_message) : FSM unit :=
  match msg with
  | msg_append_reply m => append_entries_reply from m
  | msg_vote_request m => request_vote from m
  | msg_install_snapshot _ =>
    f ← gets (fun f => f); send_to from (msg_snapshot_reply (SnapshotReply (f_current_term f) false))
  | msg_snapshot_reply m => install_snapshot_reply from m
  | msg_read_quorum_reply m => handle_read_quorum_reply from m
  | _ => mret tt
  end.

(** [step(from, const candidate&, msg)]. *)
Definition step_candidate (from : server_id) (msg : rpc_message) : FSM unit :=
  match msg with
  | msg_vote_request m => request_vote from m
  | msg_vote_reply m => request_vote_reply from m
  | msg_install_snapshot _ =>
    f ← gets (fun f => f); send_to from (msg_snapshot_reply (SnapshotReply (f_current_term f) false))
  | _ => mret tt
  end.

(** [step(from, const follower&, msg)]. *)
Definition step_follower (from : server_id) (msg : rpc_message) : FSM unit :=
  match msg with
  | msg_append_request m => append_entries from m
  | msg_vote_request m => request_vote from m
  | msg_install_snapshot m =>
    f ← gets (fun f => f);
    success ← apply_snapshot (inst_snp m) 0 0 false;
    send_to from (msg_snapshot_reply (SnapshotReply (f_current_term f) success))
  | msg_timeout_now _ => become_candidate false true
  | msg_read_quorum m =>
    advance_commit_idx (rq_leader_commit_idx m) ;;
    f ← gets (fun f => f);
    send_to from (msg_read_quorum_reply (ReadQuorumReply (f_current_term f) (f_commit_idx f) (rq_id m)))
  | _ => mret tt
  end.

(** The [std::visit] at the end of [step]. *)
Definition step_state (from : server_id) (msg : rpc_message) : FSM unit :=
  f ← gets (fun f => f);
  match f_state f with
  | Leader _ => step_leader from msg
  | Candidate _ => step_candidate from msg
  | Follower _ => step_follower from msg
  end.

(** The messages only a leader sends. *)
Definition from_leader (msg : rpc_message) : bool :=
  match msg with
  | msg_append_request _ | msg_install_snapshot _ | msg_read_quorum _ => true
  | _ => false
  end.

(** The messages whose higher term is not adopted. *)
Definition ignore_term (msg : rpc_message) : bool :=
  match msg with
  | msg_vote_request m => vreq_is_prevote m
  | msg_vote_reply m => vrep_is_prevote m && vrep_vote_granted m
  | _ => false
  end.

(** [step] for a message of a term lower than the machine's. *)
Definition step_lower_term (from : server_id) (msg : rpc_message) : FSM unit :=
  f ← gets (fun f => f);
  match msg with
  | msg_append_request _ | msg_read_quorum _ =>
    send_to from (msg_append_reply (AppendReply (f_current_term f) (f_commit_idx f)
      (rejected (Rejected 0 (last_idx (f_log f))))))
  | msg_install_snapshot _ =>
    send_to from (msg_snapshot_reply (SnapshotReply (f_current_term f) false))
  | msg_vote_request m =>
    when (vreq_is_prevote m) (send_to from (msg_vote_reply (VoteReply (f_current_term f) false true)))
  | _ => mret tt
  end.

(** [step] for a message of the machine's term, before the dispatch. When the
    leader that the machine knows is not the sender, the code then calls
    [on_internal_error_noexcept], which only logs, unless the process is set to
    abort on internal errors. *)
Definition step_same_term (from : server_id) (msg : rpc_message) : FSM unit :=
  f ← gets (fun f => f);
  when (from_leader msg)
    ((if is_candidate f then become_follower from
      else when (current_leader f =? no_id)%N
        (match f_state f with
         | Follower _ => modify (set_state (Follower from))
         | _ => throw bad_variant_access
         end ;;
         modify (set_ping_leader false))) ;;
     modify (fun f => set_last_election_time (f_clock f) f)).

Definition step (from : server_id) (msg : rpc_message) : FSM unit :=
  f ← gets (fun f => f);
  if (from =? f_my_id f)%N then throw internal_error
  else if msg_current_term msg >? f_current_term f then
    match msg with
    | msg_read_quorum_reply _ => mret tt
    | _ =>
      when (negb (ignore_term msg))
        (become_follower (if from_leader msg then from else no_id) ;;
         update_current_term (msg_current_term msg)) ;;
      step_state from msg
    end
  else if msg_current_term msg <? f_current_term f then step_lower_term from msg
  else step_same_term from msg ;; step_state from msg.

(** * Output *)

(** The entries with indexes from [lo] to [hi]. *)
Definition log_entries_between (l : log) (lo hi : index_t) : outcome raft_error (list log_entry) :=
  mapM (log_at l) (seqZ lo (hi - lo + 1)).

(** The work [get_output] does before it collects the output. *)
Definition flush_leader (diff : Z) : FSM unit :=
  f ← gets (fun f => f);
  match f_state f with
  | Leader l =>
    when (ld_last_read_id_changed l)
      (broadcast_read_quorum (ld_last_read_id l) ;;
       update_leader (ld_set_last_read_id_changed false)) ;;
    when (negb (diff =? 0)) replicate
  | _ => mret tt
  end.

(** The configuration [get_output] reports, if it may have changed. *)
Definition output_configuration (f : fsm) : outcome raft_error (option (gmap N config_member)) :=
  let o := f_observed f in
  if negb (ob_last_conf_idx o =? last_conf_idx (f_log f)) ||
     (negb (ob_current_term o =? last_term (f_log f)) && negb (ob_last_term o =? last_term (f_log f)))
  then c ← get_configuration (f_log f); mret (Some (current c ∪ previous c))
  else mret None.

(** The entries to persist. *)
Definition output_log_entries (f : fsm) (diff : Z) : outcome raft_error (list log_entry) :=
  if diff >? 0
  then log_entries_between (f_log f) (l_stable_idx (f_log f) +! 1) (last_idx (f_log f))
  else mret [].

(** The entries to apply; those the snapshot covers are left out. *)
Definition output_committed (f : fsm) : outcome raft_error (list log_entry) :=
  let observed_ci := ob_commit_idx (f_observed f) `max` snp_idx (l_snapshot (f_log f)) in
  if observed_ci <? f_commit_idx f
  then log_entries_between (f_log f) (observed_ci +! 1) (f_commit_idx f)
  else mret [].

Definition output_term_and_vote (f : fsm) : option (term_t * server_id) :=
  if negb (ob_current_term (f_observed f) =? f_current_term f) ||
     negb (ob_voted_for (f_observed f) =? f_voted_for f)%N
  then Some (f_current_term f, f_voted_for f) else None.

Definition get_output : FSM fsm_output :=
  f ← gets (fun f => f);
  let diff := last_idx (f_log f) -! l_stable_idx (f_log f) in
  flush_leader diff ;;
  f ← gets (fun f => f);
  modify (set_output empty_output) ;;
  log_entries ← lift (output_log_entries f diff);
  committed ← lift (output_committed f);
  modify (set_messages []) ;;
  modify (set_abort_leadership_transfer false) ;;
  configuration ← lift (output_configuration f);
  modify (fun f => set_observed (observed_advance f) f) ;;
  match last log_entries with
  | Some e => advance_stable_idx (e_idx e)
  | None => mret tt
  end ;;
  let output := f_output f in
  mret (FsmOutput (output_term_and_vote f) log_entries (f_messages f) committed (o_snp output)
    (o_snps_to_drop output) configuration (o_max_read_id_with_quorum output)
    (o_state_changed output) (f_abort_leadership_transfer f)).

(** * Life cycle *)

(** The members as the constructor's initializers and its first statements
    leave them; [commit_idx] is the persisted commit index. *)
Definition initial_fsm (id : server_id) (current_term : term_t) (voted_for : server_id) (l : log)
    (commit_idx : index_t) (config : fsm_config) : fsm :=
  let snp := snp_idx (l_snapshot l) in
  Fsm id (Follower no_id) current_term voted_for (snp `max` commit_idx) l config false false
    (LastObservedState current_term voted_for snp (last_conf_idx l) (last_term l) false)
    empty_output clock_min clock_min (ELECTION_TIMEOUT + 1) [] false 0.

(** The statements of the constructor that follow. *)
Definition fsm_start : FSM unit :=
  f ← gets (fun f => f);
  cfg ← lift (get_configuration (f_log f));
  if bool_decide (size (current cfg) = 1%nat) && can_vote cfg (f_my_id f)
  then become_candidate (enable_prevoting (f_config f)) false
  else reset_election_timeout.

(** The constructor [fsm::fsm]. *)
Definition make_fsm (id : server_id) (current_term : term_t) (voted_for : server_id) (l : log)
    (commit_idx : index_t) (config : fsm_config) : outcome raft_error fsm :=
  if (id =? no_id)%N then Throw invalid_argument
  else
    match fsm_start (initial_fsm id current_term voted_for l commit_idx config) with
    | (Ret _, f) => Ret f
    | (Throw e, _) => Throw e
    | (Abort r, _) => Abort r
    end.

Definition stop : FSM unit :=
  f ← gets (fun f => f);
  when (is_leader f) (become_follower no_id).
End machine.
