(* ===== verification/RaftMonotone.v ===== *)
(** What no operation of the state machine undoes, from any state and for any
    input: the term, the vote cast in a term, the commit index and the snapshot
    only move forward. *)
From S2P Require Import Prelude RaftTypes RaftLog RaftTracker RaftFsm.

(** [f'] is a later state of [f]. *)
Record later (f f' : fsm) : Prop := {
  later_id : f_my_id f' = f_my_id f;
  later_config : f_config f' = f_config f;
  later_term : f_current_term f <= f_current_term f';
  later_vote : f_current_term f' = f_current_term f ->
    f_voted_for f = no_id \/ f_voted_for f' = f_voted_for f;
  later_commit : f_commit_idx f <= f_commit_idx f';
  later_snapshot : snp_idx (l_snapshot (f_log f)) <= snp_idx (l_snapshot (f_log f'));
  later_clock : f_clock f <= f_clock f';
}.

#[export] Instance later_preorder : PreOrder later.
Proof.
  split.
  - intros f. split; auto with lia.
  - intros f g h [] []. split; (congruence || lia).
Qed.

(** An update that leaves alone what [later] looks at. *)
Ltac later_frame := intros; split; cbn; auto with lia.

Section log_snapshots.
Context {env : raft_env}.

Lemma stable_to_snapshot l i l' : stable_to l i = Ret l' -> l_snapshot l' = l_snapshot l.
Proof. unfold stable_to. intros Hs. by outcome_inv. Qed.

Lemma truncate_uncommitted_snapshot l idx l' :
  truncate_uncommitted l idx = Ret l' -> l_snapshot l' = l_snapshot l.
Proof.
  unfold truncate_uncommitted. cbv zeta. intros Ht. outcome_inv;
    match goal with H : stable_to _ _ = Ret _ |- _ => by apply stable_to_snapshot in H end.
Qed.

Lemma emplace_back_snapshot l e : l_snapshot (emplace_back l e) = l_snapshot l.
Proof. by destruct (emplace_back_base l e). Qed.

Lemma maybe_append_entry_snapshot l e l' :
  maybe_append_entry l e = Ret l' -> l_snapshot l' = l_snapshot l.
Proof.
  unfold maybe_append_entry. intros Ha. outcome_inv; rewrite ?emplace_back_snapshot; try done.
  by eapply truncate_uncommitted_snapshot.
Qed.

Lemma maybe_append_snapshot l es i l' :
  maybe_append l es = Ret (i, l') -> l_snapshot l' = l_snapshot l.
Proof.
  unfold maybe_append. intros Ha. outcome_inv.
  assert (forall es l l', maybe_append_loop l es = Ret l' -> l_snapshot l' = l_snapshot l) as Hloop;
    [|by eapply Hloop].
  clear. intros es. induction es as [|e es IH]; simpl; intros l l' Hl; outcome_inv; [done|].
  erewrite IH by done. by eapply maybe_append_entry_snapshot.
Qed.

Lemma log_apply_snapshot_snapshot l snp me mb u i l' :
  log_apply_snapshot l snp me mb = Ret (u, i, l') ->
  l_snapshot l' = snp /\ snp_idx (l_snapshot l) < snp_idx snp.
Proof. unfold log_apply_snapshot. intros Ha. outcome_inv; split; (done || lia). Qed.
End log_snapshots.

(** * Every operation leads to a later state *)

Section operations.
Context {env : raft_env}.

Hint Extern 1 (keeps later (modify _)) => apply keeps_modify; solve [later_frame] : keeps.
Tactic Notation "unfold_keeps" reference(m) := unfold m; keeps_auto.

Lemma assert_that_later b : keeps later (assert_that b).
Proof. unfold_keeps assert_that. Qed.
Hint Resolve assert_that_later : keeps.
Lemma send_to_later to m : keeps later (send_to to m).
Proof. unfold send_to, signal. keeps_auto. Qed.
Hint Resolve send_to_later : keeps.
Lemma signal_later : keeps later signal.
Proof. unfold_keeps signal. Qed.
Lemma leader_state_later : keeps later leader_state.
Proof. unfold_keeps leader_state. Qed.
Lemma candidate_state_later : keeps later candidate_state.
Proof. unfold_keeps candidate_state. Qed.
Lemma check_is_leader_later : keeps later check_is_leader.
Proof. unfold_keeps check_is_leader. Qed.
Hint Resolve signal_later leader_state_later candidate_state_later check_is_leader_later : keeps.
Lemma update_leader_later g : keeps later (update_leader g).
Proof. unfold_keeps update_leader. Qed.
Lemma update_candidate_later g : keeps later (update_candidate g).
Proof. unfold_keeps update_candidate. Qed.
Hint Resolve update_leader_later update_candidate_later : keeps.
Lemma update_progress_later id p : keeps later (update_progress id p).
Proof. unfold_keeps update_progress. Qed.
Lemma ping_leader_later : keeps later ping_leader.
Proof. unfold_keeps ping_leader. Qed.
Lemma become_follower_later id : keeps later (become_follower id).
Proof. unfold_keeps become_follower. Qed.
Lemma reset_election_timeout_later : keeps later reset_election_timeout.
Proof. unfold_keeps reset_election_timeout. Qed.
Lemma tracker_set_configuration_later : keeps later tracker_set_configuration.
Proof. unfold_keeps tracker_set_configuration. Qed.
Hint Resolve update_progress_later ping_leader_later become_follower_later
  reset_election_timeout_later tracker_set_configuration_later : keeps.

Lemma append_entry_later e :
  keeps later (modify (fun f => set_log (emplace_back (f_log f) (e f)) f) : FSM unit).
Proof.
  apply keeps_modify. intros f. split; cbn; rewrite ?emplace_back_snapshot; auto with lia.
Qed.
Hint Resolve append_entry_later : keeps.

Lemma advance_commit_idx_later i : keeps later (advance_commit_idx i).
Proof.
  intros f. unfold advance_commit_idx. apply wp_bind, wp_gets. cbv zeta.
  apply wp_when; intros Hlt; [|reflexivity].
  apply wp_bind, wp_modify, wp_modify. split; cbn; auto; lia.
Qed.

Lemma update_current_term_wp t f :
  wp (update_current_term t) (fun _ f' => later f f' /\ f_current_term f < f_current_term f')
    (fun _ => later f) (fun _ => True) f.
Proof.
  unfold update_current_term, assert_that.
  repeat apply wp_bind. apply wp_gets, wp_lift; [|done..].
  intros ? Hlt%check_Ret. apply wp_bind, wp_modify, wp_modify.
  split; [split|]; cbn; auto; lia.
Qed.

Lemma update_current_term_later t : keeps later (update_current_term t).
Proof.
  intros f. eapply wp_mono; [apply update_current_term_wp|by intros ?? []|done|done].
Qed.
Hint Resolve advance_commit_idx_later update_current_term_later : keeps.

Lemma add_entry_later c : keeps later (add_entry c).
Proof. unfold_keeps add_entry. Qed.
Hint Resolve add_entry_later : keeps.

Lemma become_leader_later : keeps later become_leader.
Proof. unfold_keeps become_leader. Qed.
Lemma may_campaign_later vs : keeps later (may_campaign vs).
Proof. unfold_keeps may_campaign. Qed.
Hint Resolve become_leader_later may_campaign_later : keeps.

(** Executes a call that leads to a later state. *)
Ltac call_later :=
  apply wp_bind; eapply (wp_keeps later); [solve [keeps_auto]| |by intros; etransitivity|done];
  let a := fresh "a" in let g := fresh "g" in let H := fresh "Hg" in intros a g H;
  match goal with H0 : later ?f ?g0, H1 : later ?g0 g |- _ =>
    let Hn := fresh in assert (later f g) as Hn by (by etransitivity);
    clear H0 H1; rename Hn into Hlater
  end.

Lemma campaign_to_prevote_later t term id : keeps later (campaign_to true t term id).
Proof. unfold_keeps campaign_to. Qed.
Hint Resolve campaign_to_prevote_later : keeps.

(** The real votes of a campaign are cast in a term that is new. *)
Lemma campaign_to_later f0 t term ids f1 :
  later f0 f1 -> f_current_term f0 < f_current_term f1 ->
  wp (for_each ids (campaign_to false t term))
    (fun _ f => later f0 f /\ f_current_term f0 < f_current_term f)
    (fun _ f => later f0 f) (fun _ => True) f1.
Proof.
  intros H01 Hlt. apply wp_for_each; [|done]. clear f1 H01 Hlt.
  intros id f1 _ [H01 Hlt]. unfold campaign_to. apply wp_bind, wp_gets.
  destruct (id =? f_my_id f1)%N.
  - apply wp_bind. unfold update_candidate, candidate_state.
    apply wp_bind, wp_bind, wp_gets. destruct (f_state f1); try by apply wp_throw.
    apply wp_ret, wp_modify, wp_when; intros _; (try apply wp_modify);
      destruct H01; split; try split; cbn; auto; lia.
  - apply wp_bind, wp_modify, wp_modify. destruct H01; split; [split|]; cbn; auto; lia.
Qed.

Lemma campaign_later p t : keeps later (campaign p t).
Proof.
  destruct p; [unfold_keeps campaign|].
  intros f. unfold campaign. apply wp_bind, wp_gets. pose proof (reflexivity f : later f f) as Hlater.
  do 7 call_later. destruct a5; simpl negb; cbv iota; [|call_later; by apply wp_ret].
  cbn [when]. apply wp_bind. eapply wp_mono; [apply update_current_term_wp| |by intros; etransitivity|done].
  intros _ g6 [Hg6 Hlt]. apply wp_bind.
  assert (later f g6) as Hf by (by etransitivity).
  eapply wp_mono; [apply (campaign_to_later f)| |done|done].
  { done. }
  { destruct Hlater. lia. }
  intros _ g7 [Hg7 _]. clear Hlater. do 2 call_later. by apply wp_ret.
Qed.
Hint Resolve campaign_later : keeps.

Lemma become_candidate_later p t : keeps later (become_candidate p t).
Proof. unfold become_candidate, become_real_candidate. keeps_auto. Qed.
Hint Resolve become_candidate_later : keeps.

Lemma request_vote_later from r : keeps later (request_vote from r).
Proof.
  intros f. unfold request_vote. apply wp_bind. unfold assert_that. repeat apply wp_bind.
  apply wp_gets, wp_lift; [|done..]. intros _ Hterm%check_Ret.
  apply wp_bind, wp_gets. cbv zeta.
  match goal with |- context [if ?b then _ else _] => destruct b eqn:Hcan end;
    [|apply send_to_later].
  apply wp_bind, wp_when; intros Hreal; [|apply send_to_later].
  assert (f_voted_for f = no_id \/ from = f_voted_for f) as Hvote.
  { destruct (vreq_is_prevote r); [done|].
    destruct (N.eqb_spec (f_voted_for f) from), (N.eqb_spec (f_voted_for f) no_id);
      [by auto..|done]. }
  apply wp_bind, wp_modify, wp_modify.
  eapply (wp_keeps later); [apply send_to_later| | |done]; intros ? g Hg; (etransitivity; [|exact Hg]);
    split; cbn; auto with lia.
Qed.
Hint Resolve request_vote_later : keeps.

Lemma request_vote_reply_later from r : keeps later (request_vote_reply from r).
Proof. unfold_keeps request_vote_reply. Qed.
Hint Resolve request_vote_reply_later : keeps.

Lemma replicate_to_later id e : keeps later (replicate_to id e).
Proof. unfold_keeps replicate_to. Qed.
Hint Resolve replicate_to_later : keeps.
Lemma replicate_later : keeps later replicate.
Proof. unfold_keeps replicate. Qed.
Lemma handle_read_quorum_reply_later from r : keeps later (handle_read_quorum_reply from r).
Proof. unfold_keeps handle_read_quorum_reply. Qed.
Hint Resolve replicate_later handle_read_quorum_reply_later : keeps.
Lemma broadcast_read_quorum_later id : keeps later (broadcast_read_quorum id).
Proof. unfold_keeps broadcast_read_quorum. Qed.
Lemma next_read_id_later : keeps later next_read_id.
Proof. unfold_keeps next_read_id. Qed.
Hint Resolve broadcast_read_quorum_later next_read_id_later : keeps.
Lemma start_read_barrier_later id : keeps later (start_read_barrier id).
Proof. unfold_keeps start_read_barrier. Qed.
Lemma send_timeout_now_later id : keeps later (send_timeout_now id).
Proof. unfold_keeps send_timeout_now. Qed.
Hint Resolve start_read_barrier_later send_timeout_now_later : keeps.
Lemma transfer_leadership_later t : keeps later (transfer_leadership t).
Proof. unfold_keeps transfer_leadership. Qed.
Hint Resolve transfer_leadership_later : keeps.

Lemma maybe_commit_body_later again : keeps later again -> keeps later (maybe_commit_body again).
Proof.
  intros Hagain f. unfold maybe_commit_body. apply wp_bind, wp_gets. apply wp_bind.
  unfold leader_state at 1. apply wp_bind, wp_gets.
  destruct (f_state f); try (by apply wp_throw). apply wp_ret.
  apply wp_bind, wp_lift; [|done..]. intros new _.
  destruct (new <=? f_commit_idx f) eqn:Hnew; [by apply wp_ret|]. cbv zeta.
  apply wp_bind, wp_lift; [|done..]. intros e _.
  destruct (negb (e_term e =? f_current_term f)); [by apply wp_ret|].
  apply wp_bind, wp_modify.
  assert (later f (set_commit_idx new f)) as Hf by (split; cbn; auto; lia).
  call_later. apply wp_when; intros _; [|done].
  eapply (wp_keeps later); [solve [keeps_auto]| | |done]; intros; by etransitivity.
Qed.

Lemma maybe_commit_later : keeps later maybe_commit.
Proof. do 2 apply maybe_commit_body_later. keeps_auto. Qed.
Hint Resolve maybe_commit_later : keeps.

Lemma set_log_later f l :
  l_snapshot l = l_snapshot (f_log f) -> later f (set_log l f).
Proof. intros Hl. split; cbn; rewrite ?Hl; auto with lia. Qed.

Lemma advance_stable_idx_later i : keeps later (advance_stable_idx i).
Proof.
  intros f. unfold advance_stable_idx. apply wp_bind, wp_gets. apply wp_bind, wp_lift; [|done..].
  intros l' Hl%stable_to_snapshot. apply wp_bind, wp_modify.
  pose proof (set_log_later f l' Hl).
  eapply (wp_keeps later); [solve [keeps_auto]| | |done]; intros; by etransitivity.
Qed.
Hint Resolve advance_stable_idx_later : keeps.

Lemma tick_followers_later alive ids a : keeps later (tick_followers alive ids a).
Proof. revert a. induction ids as [|id ids IH]; intros a; cbn [tick_followers]; keeps_auto; auto. Qed.
Hint Resolve tick_followers_later : keeps.
Lemma tick_stepdown_later : keeps later tick_stepdown.
Proof. unfold_keeps tick_stepdown. Qed.
Hint Resolve tick_stepdown_later : keeps.
Lemma tick_leader_later alive : keeps later (tick_leader alive).
Proof. unfold_keeps tick_leader. Qed.
Lemma has_stable_leader_later alive : keeps later (has_stable_leader alive).
Proof. unfold_keeps has_stable_leader. Qed.
Lemma search_leader_later alive : keeps later (search_leader alive).
Proof. unfold_keeps search_leader. Qed.
Hint Resolve tick_leader_later has_stable_leader_later search_leader_later : keeps.
Lemma tick_later alive : keeps later (tick alive).
Proof. unfold tick, clock_advance. keeps_auto. Qed.

Lemma append_entries_later from r : keeps later (append_entries from r).
Proof.
  intros f. unfold append_entries, assert_that. repeat apply wp_bind.
  apply wp_gets, wp_lift; [|done..]. intros _ _.
  apply wp_bind, wp_gets. apply wp_bind, wp_lift; [|done..]. intros [m t] _.
  destruct (negb m); [apply send_to_later|].
  assert (forall i g, later f g -> wp (advance_commit_idx (areq_leader_commit_idx r `min` i) ;;
    f ← gets (fun f => f);
    send_to from (msg_append_reply (AppendReply (f_current_term f) (f_commit_idx f) (accepted_to i))))
    (fun _ => later f) (fun _ => later f) (fun _ => True) g) as Hend.
  { intros i g Hg. eapply (wp_keeps later); [solve [keeps_auto]| | |done]; intros; by etransitivity. }
  apply wp_bind. destruct (areq_entries r) as [|e es]; [by apply wp_ret, Hend|].
  apply wp_bind, wp_lift; [|done..]. intros [i l] Hl%maybe_append_snapshot.
  apply wp_bind, wp_modify, wp_ret, Hend, set_log_later, Hl.
Qed.
Hint Resolve append_entries_later : keeps.

Lemma replicate_again_later from : keeps later (replicate_again from).
Proof. unfold_keeps replicate_again. Qed.
Hint Resolve replicate_again_later : keeps.
Lemma append_entries_reply_later from r : keeps later (append_entries_reply from r).
Proof.
  unfold append_entries_reply, append_accepted, append_rejected. cbv zeta. keeps_auto.
Qed.
Lemma install_snapshot_reply_later from r : keeps later (install_snapshot_reply from r).
Proof. unfold_keeps install_snapshot_reply. Qed.
Hint Resolve append_entries_reply_later install_snapshot_reply_later : keeps.

Lemma apply_snapshot_later snp me mb local : keeps later (apply_snapshot snp me mb local).
Proof.
  intros f. unfold apply_snapshot, assert_that. repeat apply wp_bind.
  apply wp_gets, wp_lift; [|done..]. intros _ _. apply wp_bind, wp_gets. cbv zeta.
  case_match.
  { apply wp_bind, wp_modify, wp_ret. later_frame. }
  apply wp_bind, wp_modify, wp_bind, wp_modify. apply wp_bind, wp_lift; [|later_frame..].
  intros [[u i] l] [Hl Hlt]%log_apply_snapshot_snapshot. apply wp_bind, wp_modify.
  match goal with |- wp _ _ _ _ ?g => assert (later f g) as Hlater end.
  { split; cbn; rewrite ?Hl; auto; lia. }
  eapply (wp_keeps later); [solve [keeps_auto]| | |done]; intros; by etransitivity.
Qed.
Hint Resolve apply_snapshot_later : keeps.

Lemma step_state_later from msg : keeps later (step_state from msg).
Proof. unfold step_state, step_leader, step_candidate, step_follower. keeps_auto. Qed.
Lemma step_lower_term_later from msg : keeps later (step_lower_term from msg).
Proof. unfold_keeps step_lower_term. Qed.
Lemma step_same_term_later from msg : keeps later (step_same_term from msg).
Proof. unfold_keeps step_same_term. Qed.
Hint Resolve step_state_later step_lower_term_later step_same_term_later : keeps.
Lemma step_later from msg : keeps later (step from msg).
Proof. unfold_keeps step. Qed.

Lemma flush_leader_later d : keeps later (flush_leader d).
Proof. unfold_keeps flush_leader. Qed.
Hint Resolve flush_leader_later : keeps.
Lemma get_output_later : keeps later get_output.
Proof. unfold_keeps get_output. Qed.
Lemma stop_later : keeps later stop.
Proof. unfold_keeps stop. Qed.
End operations.
