(* ===== verification/RaftReplication.v ===== *)
(** What a leader sends to a follower: [replicate_to] of [src/raft/fsm.cc]. The
    loop ends, its requests carry consecutive pieces of the leader's log with the
    right position and term before them, and it stops only when flow control
    forbids to go on or nothing is left to send. *)
From S2P Require Import Prelude RaftTypes RaftLog RaftTracker RaftFsm.

(** [es] are the entries of the log from index [lo] on. *)
Definition segment (l : log) (lo : Z) (es : list log_entry) : Prop :=
  forall k e, es !! k = Some e -> entry_at l (lo + Z.of_nat k) = Some e.

(** The progress of a follower fits the log of the leader, whose last index is
    [last]. *)
Record progress_ok (last : Z) (p : follower_progress) : Prop := {
  po_match : 0 <= fp_match_idx p <= last;
  po_next : fp_match_idx p < fp_next_idx p <= last + 1;
  po_in_flight : 0 <= fp_in_flight p <= max_in_flight;
}.

(** A request carries the entries after a position whose term it states, with the
    leader's term and commit index. *)
Record append_request_ok (f : fsm) (r : append_request) : Prop := {
  ro_term : areq_current_term r = f_current_term f;
  ro_commit : areq_leader_commit_idx r = f_commit_idx f;
  ro_prev : term_known (f_log f) (areq_prev_log_idx r) (areq_prev_log_term r);
  ro_entries : segment (f_log f) (areq_prev_log_idx r + 1) (areq_entries r);
}.

(** The messages sent to a follower whose next index moves from [next] to
    [next']: requests that continue each other, possibly up to a snapshot. *)
Inductive sends (f : fsm) : Z -> list rpc_message -> Z -> Prop :=
| sends_nothing next : sends f next [] next
| sends_append next r ms next' :
    append_request_ok f r -> areq_prev_log_idx r = next - 1 ->
    sends f (next + Z.of_nat (length (areq_entries r))) ms next' ->
    sends f next (msg_append_request r :: ms) next'
| sends_snapshot next :
    next <= snp_idx (l_snapshot (f_log f)) ->
    sends f next [msg_install_snapshot (InstallSnapshot (f_current_term f) (l_snapshot (f_log f)))]
      (snp_idx (l_snapshot (f_log f)) + 1).

(** The part of a progress that sending does not change. *)
Definition same_follower (p p' : follower_progress) : Prop :=
  fp_id p' = fp_id p /\ fp_match_idx p' = fp_match_idx p /\ fp_commit_idx p' = fp_commit_idx p /\
  fp_max_acked_read p' = fp_max_acked_read p /\ fp_can_vote p' = fp_can_vote p.

Section replication.
Context {env : raft_env}.

Lemma segment_nil l lo : segment l lo [].
Proof. intros k e. by rewrite lookup_nil. Qed.

Lemma segment_cons l lo e es :
  entry_at l lo = Some e -> segment l (lo + 1) es -> segment l lo (e :: es).
Proof.
  intros He Hes [|k] e' Hk; simpl in Hk.
  - simplify_eq. by rewrite Z.add_0_r.
  - apply Hes in Hk. rewrite <- Hk. f_equal. lia.
Qed.

(** The entries of one request: at most one when probing, and otherwise all
    that are left or as many as the size threshold allows. *)
Lemma collect_entries_spec fuel l threshold probe next size :
  log_wf l -> l_first_idx l <= next <= log_last l + 1 ->
  log_last l + 1 - next <= Z.of_nat fuel ->
  exists es, collect_entries fuel l threshold probe next size =
      Ret (es, next + Z.of_nat (length es)) /\
    segment l next es /\ next + Z.of_nat (length es) <= log_last l + 1 /\
    (probe = true -> (length es <= 1)%nat) /\
    (size < threshold -> next <= log_last l -> es <> []).
Proof.
  intros Hwf. revert next size. induction fuel as [|fuel IH]; intros next size Hnext Hfuel; simpl;
    rewrite last_idx_eq by done.
  - assert (next = log_last l + 1) by lia. zbool. exists []. simpl. rewrite Z.add_0_r.
    split_and!; [done|apply segment_nil|lia|lia|lia].
  - destruct (Z.leb_spec next (log_last l)); simpl.
    2: { exists []. simpl. rewrite Z.add_0_r. split_and!; [done|apply segment_nil|lia|lia|lia]. }
    destruct (Z.ltb_spec size threshold).
    2: { exists []. simpl. rewrite Z.add_0_r. split_and!; [done|apply segment_nil|lia|lia|lia]. }
    destruct (log_at_spec l next Hwf) as (e & -> & He); [lia|]. simpl. pose proof Hwf as [].
    rewrite u64_add_small by lia. destruct probe.
    + exists [e]. simpl. split_and!; [done|apply segment_cons; [done|apply segment_nil]|lia|lia|done].
    + destruct (IH (next + 1) (size +! entry_size e)) as (es & -> & Hseg & Hb & _ & _); [lia|lia|].
      simpl. exists (e :: es). simpl. split_and!; [|by apply segment_cons|lia|done|done].
      do 2 f_equal. lia.
Qed.

(** One request [r] was sent, after which the follower's progress is [p']. *)
Record sent_one (f : fsm) (p p' : follower_progress) (r : append_request) : Prop := {
  so_request : append_request_ok f r;
  so_prev : areq_prev_log_idx r = fp_next_idx p - 1;
  so_ok : progress_ok (log_last (f_log f)) p';
  so_same : same_follower p p';
  so_state : fp_state p' = fp_state p;
  so_probe : fp_state p = PROBE -> fp_next_idx p' = fp_next_idx p /\ can_send_to p' = false;
  so_pipeline : fp_state p = PIPELINE ->
    fp_next_idx p' = fp_next_idx p + Z.of_nat (length (areq_entries r));
}.

(** A request with the entries a follower lacks. *)
Lemma make_append_request_spec f p t :
  log_wf (f_log f) -> progress_ok (log_last (f_log f)) p ->
  l_first_idx (f_log f) <= fp_next_idx p <= log_last (f_log f) ->
  term_known (f_log f) (fp_next_idx p - 1) t -> can_send_to p = true ->
  exists p' r, make_append_request f p (fp_next_idx p) (fp_next_idx p - 1) t = Ret (p', r) /\
    sent_one f p p' r /\
    (0 < append_request_threshold (f_config f) -> areq_entries r <> []) /\
    (fp_state p = PIPELINE -> fp_in_flight p' = fp_in_flight p + 1).
Proof.
  intros Hwf [] Hnext Ht Hsend. unfold make_append_request.
  destruct (collect_entries_spec (S (length (l_log (f_log f)))) (f_log f)
    (append_request_threshold (f_config f)) (bool_decide (fp_state p = PROBE)) (fp_next_idx p) 0)
    as (es & -> & Hseg & Hb & _ & Hne); [done|lia|unfold log_last; lia|].
  pose proof Hwf as []. rewrite (proj2 (Z.eqb_neq _ _)) by lia. cbn.
  assert (append_request_ok f (AppendRequest (f_current_term f) (fp_next_idx p - 1) t (f_commit_idx f) es)) as Hr.
  { split; [done..|]. simpl. by replace (fp_next_idx p - 1 + 1) with (fp_next_idx p) by lia. }
  unfold can_send_to, max_in_flight in *.
  destruct (fp_state p) eqn:Hs; bdec; cbn; [| |done]; do 2 eexists; (split; [reflexivity|]);
    (split; [split; [exact Hr|done|..]|split; [intros ?; apply Hne; lia|]]).
  all: rewrite ?Hs; try done.
  - intros _. split; [done|]. unfold can_send_to. simpl. by rewrite Hs.
  - split; simpl; try lia. rewrite u64_add_small by (unfold u64_modulus; lia). unfold max_in_flight. lia.
  - intros _. simpl. by rewrite u64_add_small by (unfold u64_modulus; lia).
Qed.

(** A request without entries, to a follower that has them all. *)
Lemma make_empty_request_spec f p t :
  progress_ok (log_last (f_log f)) p -> term_known (f_log f) (fp_next_idx p - 1) t ->
  exists p' r, make_append_request f p 0 (fp_next_idx p - 1) t = Ret (p', r) /\
    sent_one f p p' r /\ fp_in_flight p' = fp_in_flight p.
Proof.
  intros Hok Ht. unfold make_append_request. cbn. do 2 eexists. split; [reflexivity|].
  destruct (fp_state p) eqn:Hs; bdec; cbn; (split; [split|]); rewrite ?Hs; try done.
  all: try (split; [done|done|done|apply segment_nil]).
  - destruct Hok. by split.
  - intros _. split; [done|]. unfold can_send_to. simpl. by rewrite Hs.
  - intros _. simpl. by rewrite Z.add_0_r.
Qed.

(** What the loop of [replicate_to] does to a follower's progress [p], and the
    messages it sends. *)
Record replicated (f : fsm) (p p' : follower_progress) (ms : list rpc_message) : Prop := {
  rp_ok : progress_ok (log_last (f_log f)) p';
  rp_same : same_follower p p';
  rp_sends : exists next, sends f (fp_next_idx p) ms next /\
    (fp_state p' <> PROBE -> fp_next_idx p' = next);
  rp_probe : fp_state p' = PROBE ->
    fp_state p = PROBE /\ fp_next_idx p' = fp_next_idx p /\ (length ms <= 1)%nat;
  rp_blocked : can_send_to p = false -> p' = p /\ ms = [];
  rp_done : can_send_to p' = false \/ log_last (f_log f) < fp_next_idx p';
}.

Lemma replicated_nothing f p :
  progress_ok (log_last (f_log f)) p -> can_send_to p = false \/ log_last (f_log f) < fp_next_idx p ->
  replicated f p p [].
Proof.
  intros Hok Hdone. split; try done.
  - eexists. split; [constructor|done].
  - simpl. auto with lia.
Qed.

Lemma same_follower_trans p q r : same_follower p q -> same_follower q r -> same_follower p r.
Proof. unfold same_follower. naive_solver congruence. Qed.

Lemma replicated_cons f p p1 p' r ms :
  can_send_to p = true -> sent_one f p p1 r -> replicated f p1 p' ms ->
  replicated f p p' (msg_append_request r :: ms).
Proof.
  intros Hsend [Hr Hprev Hok1 Hsame1 Hst1 Hprobe1 Hpipe1] [Hok Hsame (next & Hs & Hnext) Hprobe Hblk Hdone].
  assert (fp_state p = PROBE -> p' = p1 /\ ms = []) as Hp.
  { intros [_ Hb]%Hprobe1. by apply Hblk. }
  split; [done|by eapply same_follower_trans| | |by rewrite Hsend|done].
  - destruct (decide (fp_state p = PROBE)) as [Hps|Hps].
    + destruct (Hp Hps) as [-> ->]. eexists. split; [by apply sends_append; [..|constructor]|].
      by rewrite Hst1.
    + exists next. split; [|done]. apply sends_append; [done|done|].
      rewrite Hpipe1 in Hs; [done|]. destruct (fp_state p) eqn:E; [done|done|].
      unfold can_send_to in Hsend. by rewrite E in Hsend.
  - intros H'. destruct (Hprobe H') as (H1 & H2 & H3). rewrite Hst1 in H1.
    destruct (Hp H1) as [-> ->]. destruct (Hprobe1 H1) as [-> _]. simpl. auto with lia.
Qed.

(** The fuel the loop needs, by the state of the follower. *)
Definition enough_fuel (p : follower_progress) (allow_empty : bool) (fuel : nat) : Prop :=
  can_send_to p = true -> (0 < fuel)%nat /\
  (fp_state p = PIPELINE -> 11 - fp_in_flight p + (if allow_empty then 1 else 0) <= Z.of_nat fuel).

Lemma replicate_to_loop_spec fuel f p allow_empty :
  log_wf (f_log f) -> progress_ok (log_last (f_log f)) p -> enough_fuel p allow_empty fuel ->
  exists p' ms, replicate_to_loop fuel f p allow_empty = Ret (p', ms) /\ replicated f p p' ms.
Proof.
  intros Hwf. revert p allow_empty. induction fuel as [|fuel IH]; intros p allow_empty Hok Hfuel;
    cbn [replicate_to_loop].
  all: destruct (can_send_to p) eqn:Hsend;
    [|exists p, []; split; [done|by apply replicated_nothing; [|left]]].
  { destruct (Hfuel Hsend). lia. }
  destruct (Hfuel Hsend) as [_ Hfuel']. clear Hfuel. pose proof Hwf as []. pose proof Hok as [Hm Hn Hif].
  rewrite last_idx_eq by done. rewrite u64_sub_small by lia.
  destruct (term_for_spec (f_log f) (fp_next_idx p - 1) Hwf ltac:(lia)) as [(t & -> & Ht & Hfirst)|[-> Hsnp]].
  2: { destruct (Z.gtb_spec (fp_next_idx p) (log_last (f_log f))) as [|_]; [lia|]. cbn.
       do 2 eexists. split; [done|].
       split; [split; simpl; rewrite ?u64_add_small by lia; lia|done| |done|by rewrite Hsend|by left].
       eexists. split; [apply sends_snapshot; lia|]. simpl. rewrite u64_add_small by lia. done. }
  assert (forall p1 r, sent_one f p p1 r -> enough_fuel p1 false fuel ->
    exists p' ms, (Ret (p1, r) ≫= (fun '(p, req) => '(p, ms) ← replicate_to_loop fuel f p false;
      mret (p, msg_append_request req :: ms)) = Ret (p', ms)) /\ replicated f p p' ms) as Hcont.
  { intros p1 r Hone Hf1. destruct (IH p1 false (so_ok _ _ _ _ Hone) Hf1) as (p' & ms & Hl & Hrep).
    exists p', (msg_append_request r :: ms). cbn. rewrite Hl. split; [done|]. by eapply replicated_cons. }
  assert (forall p1 r, sent_one f p p1 r -> (fp_state p = PIPELINE -> 11 - fp_in_flight p1 <= Z.of_nat fuel) ->
    enough_fuel p1 false fuel) as Hneed.
  { intros p1 r [] Hp Hs1. rewrite so_state0. unfold can_send_to, max_in_flight in *. rewrite so_state0 in *.
    destruct (fp_state p); [|specialize (Hp eq_refl)|done]; [|split; lia].
    destruct (so_probe0 eq_refl). congruence. }
  destruct (Z.gtb_spec (fp_next_idx p) (log_last (f_log f))) as [Hpast|Hpast]; cbn [andb].
  - destruct allow_empty; cbn [negb].
    + destruct (make_empty_request_spec f p t Hok Ht) as (p1 & r & Hmk & Hone & Hif1). cbn [mbind outcome_bind].
      rewrite Hmk. apply Hcont; [done|]. eapply Hneed; [done|]. intros Hp. specialize (Hfuel' Hp). lia.
    + exists p, []. split; [done|]. apply replicated_nothing; [done|right; lia].
  - destruct (make_append_request_spec f p t Hwf Hok) as (p1 & r & Hmk & Hone & _ & Hif1); [lia|done..|].
    cbn [mbind outcome_bind]. rewrite Hmk. apply Hcont; [done|]. eapply Hneed; [done|].
    intros Hp. specialize (Hfuel' Hp). rewrite Hif1 by done. destruct allow_empty; lia.
Qed.
End replication.
