(* ===== verification/RaftInvariant.v ===== *)
(** The invariant of the state machine, and that every operation keeps it and
    runs without failing an assertion, an access out of range or a loop that does
    not end. *)
From S2P Require Import Prelude RaftTypes RaftLog RaftTracker RaftFsm RaftMonotone RaftReplication.

(** * The invariant *)

(** Member sets stay far below the range of [size_t]. *)
Definition config_small (c : configuration) : Prop :=
  Z.of_nat (size (current c)) < 2 ^ 32 /\ Z.of_nat (size (previous c)) < 2 ^ 32.

Definition configs_small (l : log) : Prop :=
  config_small (snp_config (l_snapshot l)) /\
  forall e c, e ∈ l_log l -> entry_configuration e = Some c -> config_small c.

(** The configuration in force: the last one of the log or the snapshot's. *)
Definition active_configuration (l : log) : configuration :=
  effective_configuration l (log_last l).

(** A leader tracks the voters of the configuration in force, and the progress of
    each follower fits the log. *)
Record leader_wf (l : log) (ld : leader) : Prop := {
  lw_tracker : tracker_wf (ld_tracker ld);
  lw_current : t_current_voters (ld_tracker ld) = voter_ids (current (active_configuration l));
  lw_previous : t_previous_voters (ld_tracker ld) = voter_ids (previous (active_configuration l));
  lw_progress : forall id p, t_progress (ld_tracker ld) !! id = Some p -> progress_ok (log_last l) p;
}.

(** A candidate has counted the votes of a set of voters. *)
Definition votes_wf (v : votes) : Prop :=
  (exists g, election_counts (v_current v) g) /\
  (forall et, v_previous v = Some et -> exists g, election_counts et g).

Definition state_wf (id : server_id) (l : log) (st : fsm_state) : Prop :=
  match st with
  | Follower leader => leader <> id
  | Candidate c => votes_wf (c_votes c)
  | Leader ld => leader_wf l ld
  end.

(** The invariant in terms of the members it concerns. The index [c] is the one
    [conf_wf] needs: what is committed anywhere in the cluster, which this server
    may not know yet. *)
Record machine_wf `{raft_env} (id : server_id) (commit : index_t) (l : log)
    (observed_commit : index_t) : Prop := {
  mw_id : id <> no_id;
  mw_log : log_wf l;
  mw_conf : exists c, commit <= c /\ conf_wf c l;
  mw_small : configs_small l;
  mw_commit : snp_idx (l_snapshot l) <= commit <= log_last l;
  mw_observed : observed_commit <= commit;
}.

(** The invariant without the role, and in full. *)
Definition base_wf `{raft_env} (f : fsm) : Prop :=
  machine_wf (f_my_id f) (f_commit_idx f) (f_log f) (ob_commit_idx (f_observed f)).

Definition fsm_wf `{raft_env} (f : fsm) : Prop :=
  base_wf f /\ state_wf (f_my_id f) (f_log f) (f_state f).

(** What the operations on a leader's tracker leave alone. *)
Record same_machine (f f' : fsm) : Prop := {
  sm_id : f_my_id f' = f_my_id f;
  sm_term : f_current_term f' = f_current_term f;
  sm_vote : f_voted_for f' = f_voted_for f;
  sm_commit : f_commit_idx f' = f_commit_idx f;
  sm_log : f_log f' = f_log f;
  sm_config : f_config f' = f_config f;
  sm_observed : f_observed f' = f_observed f;
  sm_clock : f_clock f' = f_clock f;
}.

#[export] Instance same_machine_preorder : PreOrder same_machine.
Proof. split; [by intros f|]. intros f g h [] []. split; congruence. Qed.

(** Identifies the states that two hypotheses give for a machine. *)
Ltac same_state :=
  repeat match goal with
  | H1 : f_state ?f = _, H2 : f_state ?f = _ |- _ => rewrite H1 in H2; simplify_eq
  end.

(** The machine leads in both states, with the same followers and voters. *)
Record leading (f f' : fsm) : Prop := {
  lg_same : same_machine f f';
  lg_state : exists l l', f_state f = Leader l /\ f_state f' = Leader l' /\
    dom (t_progress (ld_tracker l')) = dom (t_progress (ld_tracker l)) /\
    t_current_voters (ld_tracker l') = t_current_voters (ld_tracker l) /\
    t_previous_voters (ld_tracker l') = t_previous_voters (ld_tracker l);
}.

Lemma leading_refl f l : f_state f = Leader l -> leading f f.
Proof. intros Hl. split; [reflexivity|]. exists l, l. done. Qed.

#[export] Instance leading_trans : Transitive leading.
Proof.
  intros f g h [Hfg (l & l' & ? & ? & ? & ? & ?)] [Hgh (l1 & l2 & ? & ? & ? & ? & ?)].
  split; [by etransitivity|]. exists l, l2. simplify_eq. split_and!; congruence.
Qed.

Section configurations.
Context {env : raft_env}.

Lemma conf_wf_mono c c' l : conf_wf c l -> c <= c' -> conf_wf c' l.
Proof.
  intros [] Hle. split; [done|done| |].
  - intros H0. destruct (cw_lost H0); [by left|right; lia].
  - intros cs i Hcs. eapply Forall_impl; [by eapply cw_committed|]. simpl. lia.
Qed.

Lemma active_configuration_eq l :
  log_wf l -> active_configuration l = default (snp_config (l_snapshot l)) (snd <$> last (conf_entries l)).
Proof.
  intros Hwf. unfold active_configuration, effective_configuration. do 2 f_equal.
  rewrite list_filter_all; [done|]. apply Forall_forall. intros [i c] Hi. simpl.
  assert (i ∈ conf_indexes l) as Hi'.
  { unfold conf_indexes. rewrite <- conf_entries_of_indexes. apply list_elem_of_fmap. by exists (i, c). }
  apply conf_indexes_bounds in Hi'; [lia|done].
Qed.

Lemma get_configuration_active l :
  log_wf l -> (exists c, conf_wf c l) -> get_configuration l = Ret (active_configuration l).
Proof. intros Hwf [c Hc]. by eapply get_configuration_correct. Qed.

Lemma active_configuration_small l : log_wf l -> configs_small l -> config_small (active_configuration l).
Proof.
  intros Hwf [Hs He]. rewrite active_configuration_eq by done.
  destruct (last (conf_entries l)) as [[i c]|] eqn:E; [|done]. simpl.
  apply last_Some_elem_of, elem_of_conf_entries_of in E. naive_solver.
Qed.

Lemma effective_configuration_small l i : configs_small l -> config_small (effective_configuration l i).
Proof.
  intros [Hs He]. unfold effective_configuration.
  destruct (last (filter _ (conf_entries l))) as [[j c]|] eqn:E; [|done]. simpl.
  apply last_Some_elem_of, list_elem_of_filter in E as [_ E]. apply elem_of_conf_entries_of in E. naive_solver.
Qed.

(** Appending an entry changes the configuration in force only if the entry
    holds one. *)
Lemma active_configuration_append l e :
  log_wf l -> e_idx e = log_last l + 1 -> log_last l + 2 < u64_modulus ->
  active_configuration (emplace_back l e) =
    match entry_configuration e with Some c => c | None => active_configuration l end.
Proof.
  intros Hwf He Hb. rewrite !active_configuration_eq by (done || by apply emplace_back_wf).
  unfold conf_entries. rewrite emplace_back_snapshot, emplace_back_log. unfold conf_entries_of.
  rewrite omap_app. cbn. rewrite decide_True by (destruct Hwf; lia).
  destruct (entry_configuration e) as [c|]; simpl; [by rewrite last_snoc|by rewrite app_nil_r].
Qed.

Lemma configs_small_append l e :
  configs_small l -> (forall c, entry_configuration e = Some c -> config_small c) ->
  configs_small (emplace_back l e).
Proof.
  intros [Hs Hl] He. unfold configs_small. rewrite emplace_back_snapshot, emplace_back_log.
  split; [done|]. intros e' c [?|Heq%list_elem_of_singleton]%elem_of_app; [by eapply Hl|].
  subst. apply He.
Qed.

(** The followers of a tracker whose configuration changes fit the log. *)
Lemma set_configuration_leader_wf l t c :
  log_wf l -> 0 < log_last l -> config_small c -> c = active_configuration l ->
  (forall id p, t_progress t !! id = Some p -> fp_id p = id) ->
  (forall id p, t_progress t !! id = Some p -> progress_ok (log_last l) p) ->
  forall ld, leader_wf l (ld_set_tracker (set_configuration t c (last_idx l)) ld).
Proof.
  intros Hwf Hpos [Hs1 Hs2] -> Hids Hok ld. rewrite last_idx_eq by done.
  destruct (set_configuration_spec t (active_configuration l) (log_last l)) as (Hp & Hc & Hv & Ht); [done| |].
  { pose proof (map_size_union_le (current (active_configuration l)) (previous (active_configuration l))).
    unfold u64_modulus. lia. }
  split; [done..|]. cbn. intros id p. rewrite Hp. intros (m & _ & ->)%fmap_Some.
  unfold member_progress. destruct (t_progress t !! id) as [p|] eqn:E; simpl.
  - apply Hok in E as []. by split.
  - split; simpl; unfold max_in_flight; lia.
Qed.
End configurations.

(** * Appending to the log *)

(** [l'] continues [l]. *)
Definition log_extends (l l' : log) : Prop :=
  same_base l l' /\ l_stable_idx l' = l_stable_idx l /\ exists es, l_log l' = l_log l ++ es.

#[export] Instance log_extends_preorder : PreOrder log_extends.
Proof.
  split.
  - intros l. split_and!; [done|done|exists []; by rewrite app_nil_r].
  - intros l1 l2 l3 ((?&?&?) & ? & es & He) ((?&?&?) & ? & es' & He').
    split; [|split; [congruence|]].
    + unfold same_base. split_and!; congruence.
    + exists (es ++ es'). by rewrite He', He, <- (assoc_L (++)).
Qed.

Lemma log_extends_last l l' : log_extends l l' -> log_last l <= log_last l'.
Proof.
  intros ((_ & Hf & _) & _ & es & He). unfold log_last. rewrite He, Hf, length_app. lia.
Qed.

Section appending.
Context {env : raft_env}.

Lemma emplace_back_extends l e : log_extends l (emplace_back l e).
Proof.
  split; [apply emplace_back_base|]. split; [apply emplace_back_stable|].
  exists [e]. apply emplace_back_log.
Qed.

(** When the last configuration is committed, so are all. *)
Lemma confs_committed c l i :
  log_wf l -> conf_wf c l -> last_conf_idx l <= i -> Forall (fun j => j <= i) (conf_indexes l).
Proof.
  intros Hwf [Hl _ _ _] Hi. destruct (snoc_cases (conf_indexes l)) as [->|(cs & j & Hcs)]; [constructor|].
  assert (j ∈ conf_indexes l) as Hj by (rewrite Hcs; set_solver).
  apply conf_indexes_bounds in Hj as [Hj _]; [|done].
  rewrite Hcs, last_snoc in Hl. simpl in Hl. unfold last_conf_idx in Hi. rewrite Hl in Hi.
  destruct Hwf. rewrite (proj2 (Z.eqb_neq _ _)) in Hi by lia.
  pose proof (conf_indexes_sorted l ltac:(by split)) as Hsort. rewrite Hcs in Hsort |- *.
  apply StronglySorted_snoc_lt in Hsort. apply Forall_app. split; [|by repeat constructor].
  eapply Forall_impl; [exact Hsort|]. simpl. lia.
Qed.

(** Appending an entry keeps the invariant; a configuration is appended only
    when the previous one is committed. *)
Lemma wf_append f e :
  base_wf f -> e_idx e = log_last (f_log f) + 1 -> log_last (f_log f) + 2 < u64_modulus ->
  (forall c, entry_configuration e = Some c ->
    config_small c /\ last_conf_idx (f_log f) <= f_commit_idx f) ->
  base_wf (set_log (emplace_back (f_log f) e) f).
Proof.
  intros [] He Hb Hconf. destruct mw_conf0 as (c & Hc & Hcw). unfold base_wf. split; cbn; try done.
  - by apply emplace_back_wf.
  - exists c. split; [done|]. apply emplace_back_conf; [done..|].
    intros [cfg Hcfg]. destruct (Hconf cfg Hcfg) as [_ Hlast].
    eapply Forall_impl; [by eapply confs_committed|]. simpl. lia.
  - apply configs_small_append; [done|]. intros cfg Hcfg. by apply Hconf.
  - rewrite emplace_back_snapshot, emplace_back_last. lia.
Qed.

Lemma progress_ok_mono n n' p : progress_ok n p -> n <= n' -> progress_ok n' p.
Proof. intros [] Hn. split; lia. Qed.

(** A leader that appends an entry other than a configuration. *)
Lemma leader_wf_append l e ld :
  log_wf l -> leader_wf l ld -> e_idx e = log_last l + 1 -> log_last l + 2 < u64_modulus ->
  entry_configuration e = None -> leader_wf (emplace_back l e) ld.
Proof.
  intros Hwf [] He Hb Hn. split; rewrite ?active_configuration_append, ?Hn, ?emplace_back_last by done;
    [done..|]. intros id p Hp. eapply progress_ok_mono; [by eapply lw_progress0|lia].
Qed.
End appending.

(** * Executing the primitive steps *)

Section primitives.
Context {env : raft_env}.
Implicit Types (f : fsm) (X : raft_error -> fsm -> Prop) (B : abort_reason -> Prop).

Lemma lift_ret_wp {A} (o : outcome raft_error A) a f (Q : A -> fsm -> Prop) X B :
  o = Ret a -> Q a f -> wp (lift o) Q X B f.
Proof. by intros ->. Qed.

Lemma assert_that_wp b f Q X B : b f = true -> Q tt f -> wp (assert_that b) Q X B f.
Proof. intros Hb HQ. apply wp_bind, wp_gets. by rewrite Hb. Qed.

Lemma leader_state_wp f l Q X B : f_state f = Leader l -> Q l f -> wp leader_state Q X B f.
Proof. intros Hl HQ. apply wp_bind, wp_gets. by rewrite Hl. Qed.

Lemma update_leader_wp f l g Q X B :
  f_state f = Leader l -> Q tt (set_state (Leader (g l)) f) -> wp (update_leader g) Q X B f.
Proof. intros Hl HQ. by apply wp_bind, (leader_state_wp _ l), wp_modify. Qed.

Lemma candidate_state_wp f c Q X B : f_state f = Candidate c -> Q c f -> wp candidate_state Q X B f.
Proof. intros Hc HQ. apply wp_bind, wp_gets. by rewrite Hc. Qed.

Lemma update_candidate_wp f c g Q X B :
  f_state f = Candidate c -> Q tt (set_state (Candidate (g c)) f) -> wp (update_candidate g) Q X B f.
Proof. intros Hc HQ. by apply wp_bind, (candidate_state_wp _ c), wp_modify. Qed.

(** Steps that touch neither the state nor what [same_machine] looks at. *)
Definition inert (f f' : fsm) : Prop := same_machine f f' /\ f_state f' = f_state f.

Lemma inert_wf f f' : inert f f' -> fsm_wf f -> fsm_wf f'.
Proof. unfold fsm_wf, base_wf. by intros [[-> _ _ -> -> _ -> _] ->]. Qed.

Lemma inert_leading f f' l : f_state f = Leader l -> inert f f' -> leading f f'.
Proof. intros Hl [Hs Hst]. split; [done|]. exists l, l. by rewrite Hst. Qed.

Lemma send_to_wp f to m Q X B :
  (forall f', inert f f' -> f_messages f' = f_messages f ++ [(to, m)] -> Q tt f') ->
  wp (send_to to m) Q X B f.
Proof. intros HQ. apply wp_bind, wp_modify, wp_modify, HQ; done. Qed.

Lemma modify_inert_wp f g Q X B :
  inert f (g f) -> (forall f', inert f f' -> f_messages f' = f_messages (g f) -> Q tt f') ->
  wp (modify g) Q X B f.
Proof. intros Hg HQ. by apply wp_modify, HQ. Qed.

Lemma signal_wp f Q X B : (forall f', inert f f' -> Q tt f') -> wp signal Q X B f.
Proof. intros HQ. apply wp_modify, HQ. done. Qed.

(** ** Changes of the state that keep the invariant *)

Lemma wf_leader f l : fsm_wf f -> f_state f = Leader l -> leader_wf (f_log f) l.
Proof. intros [_ Hst] Hl. by rewrite Hl in Hst. Qed.

Lemma wf_set_leader f l l' :
  fsm_wf f -> f_state f = Leader l -> leader_wf (f_log f) l' -> fsm_wf (set_state (Leader l') f).
Proof. intros [] Hl Hl'. by split. Qed.

Lemma wf_set_follower f id : fsm_wf f -> id <> f_my_id f -> fsm_wf (set_state (Follower id) f).
Proof. intros [] Hid. by split. Qed.

(** Updates of the leader that keep the tracker. *)
Lemma wf_leader_fields f l l' :
  fsm_wf f -> f_state f = Leader l -> ld_tracker l' = ld_tracker l ->
  fsm_wf (set_state (Leader l') f) /\ leading f (set_state (Leader l') f).
Proof.
  intros Hwf Hl Ht. destruct (wf_leader f l Hwf Hl). split.
  - eapply wf_set_leader; [done..|]. split; by rewrite Ht.
  - split; [done|]. exists l, l'. by rewrite Ht.
Qed.

(** An update of the progress of a follower. *)
Lemma wf_update_progress f l id p p' :
  fsm_wf f -> f_state f = Leader l -> t_progress (ld_tracker l) !! id = Some p ->
  fp_id p' = id -> progress_ok (log_last (f_log f)) p' ->
  let f' := set_state (Leader (ld_set_tracker (tracker_update (ld_tracker l) id p') l)) f in
  fsm_wf f' /\ leading f f'.
Proof.
  intros Hwf Hl Hp Hid Hok f'. destruct (wf_leader f l Hwf Hl) as [[] Hc Hv Hps].
  assert (dom (<[id := p']> (t_progress (ld_tracker l))) = dom (t_progress (ld_tracker l))) as Hdom.
  { apply dom_insert_lookup_L. by exists p. }
  split.
  - eapply wf_set_leader; [done..|]. split; cbn; [|done|done|].
    + split; cbn; rewrite ?Hdom; [|done..|].
      * intros i q [[<- <-]|[_ ?]]%lookup_insert_Some; eauto.
      * rewrite map_size_insert_Some by (by exists p). done.
    + intros i q [[<- <-]|[_ ?]]%lookup_insert_Some; eauto.
  - split; [done|]. exists l, (ld_set_tracker (tracker_update (ld_tracker l) id p') l).
    cbn. by rewrite Hdom.
Qed.

Lemma update_progress_wp f l id p p' Q X B :
  fsm_wf f -> f_state f = Leader l -> t_progress (ld_tracker l) !! id = Some p ->
  fp_id p' = id -> progress_ok (log_last (f_log f)) p' ->
  (forall f', fsm_wf f' -> leading f f' -> f_messages f' = f_messages f ->
    f_state f' = Leader (ld_set_tracker (tracker_update (ld_tracker l) id p') l) -> Q tt f') ->
  wp (update_progress id p') Q X B f.
Proof.
  intros Hwf Hl Hp Hid Hok HQ. apply (update_leader_wp _ l); [done|].
  destruct (wf_update_progress f l id p p') as [Hwf' Hlead]; [done..|]. by apply HQ.
Qed.

Lemma get_configuration_wp f :
  base_wf f -> get_configuration (f_log f) = Ret (active_configuration (f_log f)).
Proof. intros []. apply get_configuration_active; [done|]. naive_solver. Qed.

(** A leader takes over the configuration of its log. *)
Lemma tracker_set_configuration_wp f l Q X B :
  base_wf f -> f_state f = Leader l -> 0 < log_last (f_log f) ->
  (forall id p, t_progress (ld_tracker l) !! id = Some p ->
    fp_id p = id /\ progress_ok (log_last (f_log f)) p) ->
  (forall f', fsm_wf f' -> same_machine f f' -> f_messages f' = f_messages f ->
    f_state f' = Leader (ld_set_tracker (set_configuration (ld_tracker l)
      (active_configuration (f_log f)) (last_idx (f_log f))) l) -> Q tt f') ->
  wp tracker_set_configuration Q X B f.
Proof.
  intros Hwf Hl Hpos Hps HQ. apply wp_bind, wp_gets.
  apply wp_bind, (lift_ret_wp _ _ _ _ _ _ (get_configuration_wp f Hwf)).
  eapply update_leader_wp; [done|]. apply HQ; try done. split; [done|]. cbn.
  destruct Hwf. apply set_configuration_leader_wf; [done|done|by apply active_configuration_small|done|..];
    intros id p Hp; by destruct (Hps id p Hp).
Qed.

Lemma leading_lookup f f' l l' id :
  leading f f' -> f_state f = Leader l -> f_state f' = Leader l' ->
  is_Some (t_progress (ld_tracker l) !! id) -> exists p, t_progress (ld_tracker l') !! id = Some p.
Proof.
  intros [_ (? & ? & ? & ? & Hd & _)] Hl Hl' Hid. same_state.
  apply elem_of_dom in Hid. rewrite <- Hd in Hid. by apply elem_of_dom in Hid.
Qed.

Lemma become_follower_wp f id Q X B :
  fsm_wf f -> id <> f_my_id f ->
  (forall f', fsm_wf f' -> same_machine f f' -> f_state f' = Follower id ->
    f_messages f' = f_messages f -> Q tt f') ->
  wp (become_follower id) Q X B f.
Proof.
  intros Hwf Hid HQ. unfold become_follower. apply wp_bind, wp_gets.
  rewrite (proj2 (N.eqb_neq _ _) Hid). pose proof (wf_set_follower f id Hwf Hid) as Hwf'.
  apply wp_bind, wp_when; intros _; [apply wp_modify|];
    apply wp_bind, wp_modify, wp_when; intros _; try apply wp_bind, wp_modify, wp_modify; by apply HQ.
Qed.
End primitives.
