(* ===== verification/RaftSafety.v ===== *)
(** Every operation of the state machine keeps the invariant, and none of them
    fails an assertion, accesses the log or the tracker out of range, or runs
    forever. *)
From S2P Require Import Prelude RaftTypes RaftLog RaftTracker RaftFsm RaftMonotone RaftReplication.
From S2P Require Import RaftInvariant.

(** Executes [leader_state], for a machine known to lead. *)
Ltac wp_leader := apply wp_bind; eapply leader_state_wp; [eassumption|]; cbn beta.

(** After updates of a leader that keep its tracker. *)
Ltac leader_fields Hwf Hl Hwf' Hlead' :=
  match goal with |- wp _ _ _ _ (set_state (Leader ?l2) _) =>
    destruct (wf_leader_fields _ _ l2 Hwf Hl eq_refl) as [Hwf' Hlead'] end.

(** * Operations of a leader *)

Section leader_operations.
Context {env : raft_env}.
Implicit Types (f : fsm) (X : raft_error -> fsm -> Prop) (B : abort_reason -> Prop).

(** A well-formed machine that still leads as [f0] did. *)
Definition leads (f0 f : fsm) : Prop := fsm_wf f /\ leading f0 f.

Lemma leads_refl f l : fsm_wf f -> f_state f = Leader l -> leads f f.
Proof. intros Hwf Hl. split; [done|by eapply leading_refl]. Qed.

Lemma leads_state f0 f : leads f0 f -> exists l, f_state f = Leader l.
Proof. intros [_ [_ (l & l' & _ & Hl & _)]]. by exists l'. Qed.

Lemma leads_inert f0 f f' : leads f0 f -> inert f f' -> leads f0 f'.
Proof.
  intros Hf Hi. destruct (leads_state f0 f Hf) as [l Hl]. destruct Hf as [Hwf Hf].
  split; [by eapply inert_wf|]. etransitivity; [done|]. by eapply inert_leading.
Qed.

Lemma leads_trans f0 f f' : leads f0 f -> fsm_wf f' -> leading f f' -> leads f0 f'.
Proof. intros [_ Hf] Hwf Hl. split; [done|]. by etransitivity. Qed.

Lemma for_each_send_wp f to ms Q X B :
  (forall f', inert f f' -> f_messages f' = f_messages f ++ map (pair to) ms -> Q tt f') ->
  wp (for_each ms (send_to to)) Q X B f.
Proof.
  revert f. induction ms as [|m ms IH]; intros f HQ; simpl.
  - apply wp_ret, HQ; [done|by rewrite app_nil_r].
  - apply wp_bind, send_to_wp. intros f1 [H1 H1s] Hm1. apply IH. intros f2 [H2 H2s] Hm2. apply HQ.
    + split; [by etransitivity|congruence].
    + by rewrite Hm2, Hm1, <- (assoc_L (++)).
Qed.

Lemma replicate_to_wp f l id p allow_empty Q X B :
  fsm_wf f -> f_state f = Leader l -> t_progress (ld_tracker l) !! id = Some p ->
  (forall f' p' ms, leads f f' -> replicated f p p' ms ->
    f_messages f' = f_messages f ++ map (pair id) ms ->
    f_state f' = Leader (ld_set_tracker (tracker_update (ld_tracker l) id p') l) -> Q tt f') ->
  wp (replicate_to id allow_empty) Q X B f.
Proof.
  intros Hwf Hl Hp HQ. pose proof (wf_leader f l Hwf Hl) as [[] _ _ Hok].
  unfold replicate_to. wp_leader. apply wp_bind, (lift_ret_wp _ p).
  { unfold tracker_find. by rewrite Hp. }
  apply wp_bind, wp_gets. cbn beta.
  destruct (replicate_to_loop_spec replicate_fuel f p allow_empty) as (p' & ms & Hloop & Hrep).
  { by destruct Hwf as [[]]. } { by eapply Hok. }
  { intros _. destruct (Hok _ _ Hp). unfold replicate_fuel. split; [lia|]. intros _. case_match; lia. }
  apply wp_bind, (lift_ret_wp _ (p', ms) _ _ _ _ Hloop). apply wp_bind.
  destruct Hrep as [Hok' Hsame Hrest]. pose proof Hsame as [Hid _].
  rewrite (tw_ids _ _ Hp) in *.
  eapply update_progress_wp; [done..|]. intros f1 Hwf1 Hlead1 Hm1 Hst1.
  apply for_each_send_wp. intros f2 Hin2 Hm2.
  eapply HQ; [|by split|by rewrite Hm2, Hm1|by destruct Hin2 as [_ ->]].
  eapply leads_inert; [|done]. by eapply leads_trans; [eapply leads_refl|..].
Qed.

Lemma tracker_ids_lookup t id : id ∈ tracker_ids t -> is_Some (t_progress t !! id).
Proof.
  unfold tracker_ids. intros ([i p] & -> & Hi)%list_elem_of_fmap. exists p.
  by apply elem_of_map_to_list.
Qed.

(** A loop over the followers whose body keeps leading. *)
Lemma for_each_follower_wp f l (body : server_id -> FSM unit) Q X B :
  fsm_wf f -> f_state f = Leader l ->
  (forall id f1 l1 p, leads f f1 -> f_state f1 = Leader l1 ->
    t_progress (ld_tracker l1) !! id = Some p -> wp (body id) (fun _ => leads f) X B f1) ->
  (forall f', leads f f' -> Q tt f') ->
  wp (for_each (tracker_ids (ld_tracker l)) body) Q X B f.
Proof.
  intros Hwf Hl Hbody HQ.
  eapply wp_mono; [apply (wp_for_each _ _ (leads f)); [|by eapply leads_refl]|by intros []|done|done].
  intros id f1 Hid%tracker_ids_lookup Hf1. destruct (leads_state f f1 Hf1) as [l1 Hl1].
  destruct (leading_lookup f f1 l l1 id (proj2 Hf1) Hl Hl1 Hid) as [p Hp]. by eapply Hbody.
Qed.

Lemma replicate_wp f l Q X B :
  fsm_wf f -> f_state f = Leader l -> (forall f', leads f f' -> Q tt f') -> wp replicate Q X B f.
Proof.
  intros Hwf Hl HQ. unfold replicate. apply wp_bind, assert_that_wp; [unfold is_leader; by rewrite Hl|].
  wp_leader. eapply for_each_follower_wp; [done..| |done].
  intros id f1 l1 p Hf1 Hl1 Hp. wp_leader. apply wp_bind, (lift_ret_wp _ p).
  { unfold tracker_find. by rewrite Hp. }
  apply wp_bind, wp_gets, wp_when; intros _; [|done].
  eapply replicate_to_wp; [by destruct Hf1|done..|]. intros f2 p' ms [Hwf2 Hlead2] _ _ _.
  by eapply leads_trans.
Qed.

Lemma handle_read_quorum_reply_wp f l from reply Q X B :
  fsm_wf f -> f_state f = Leader l -> (forall f', leads f f' -> Q tt f') ->
  wp (handle_read_quorum_reply from reply) Q X B f.
Proof.
  intros Hwf Hl HQ. pose proof (wf_leader f l Hwf Hl) as [[] _ _ Hok].
  unfold handle_read_quorum_reply.
  apply wp_bind, assert_that_wp; [unfold is_leader; by rewrite Hl|]. wp_leader. unfold tracker_find.
  destruct (t_progress (ld_tracker l) !! from) as [p|] eqn:Hp;
    [|apply wp_ret, HQ; by eapply leads_refl].
  cbv zeta. apply wp_bind. eapply update_progress_wp; [done..|by apply tw_ids in Hp| |].
  { destruct (Hok _ _ Hp). by split. }
  intros f1 Hwf1 Hlead1 _ Hst1. assert (leads f f1) as Hf1 by done.
  destruct (rqr_id reply <=? ld_max_read_id_with_quorum l); [by apply wp_ret, HQ|].
  wp_leader. destruct (wf_leader f1 _ Hwf1 Hst1) as [Ht1 _ _ _].
  destruct (committed_spec fp_max_acked_read _ (ld_max_read_id_with_quorum l) Ht1) as (r & Hr & _).
  apply wp_bind, (lift_ret_wp _ r _ _ _ _ Hr).
  destruct (r <=? _); [by apply wp_ret, HQ|].
  apply wp_bind. eapply update_leader_wp; [done|].
  leader_fields Hwf1 Hst1 Hwf2 Hlead2.
  apply wp_bind, modify_inert_wp; [done|]. intros f3 Hf3 _. apply signal_wp. intros f4 Hf4. apply HQ.
  eapply leads_inert; [|done]. eapply leads_inert; [|done]. by eapply leads_trans.
Qed.

Lemma broadcast_read_quorum_wp f l id Q X B :
  fsm_wf f -> f_state f = Leader l -> (forall f', leads f f' -> Q tt f') ->
  wp (broadcast_read_quorum id) Q X B f.
Proof.
  intros Hwf Hl HQ. unfold broadcast_read_quorum. wp_leader.
  eapply for_each_follower_wp; [done..| |done].
  intros dst f1 l1 p Hf1 Hl1 Hp. wp_leader. apply wp_bind, (lift_ret_wp _ p).
  { unfold tracker_find. by rewrite Hp. }
  apply wp_bind, wp_gets, wp_when; intros _; [|done]. destruct (fp_id p =? f_my_id f1)%N.
  - eapply handle_read_quorum_reply_wp; [by destruct Hf1|done|]. intros f2 [Hwf2 Hlead2].
    by eapply leads_trans.
  - apply send_to_wp. intros f2 Hf2 _. by eapply leads_inert.
Qed.

Lemma next_read_id_wp f l Q X B :
  fsm_wf f -> f_state f = Leader l -> (forall f', leads f f' -> Q (ld_last_read_id l +! 1) f') ->
  wp next_read_id Q X B f.
Proof.
  intros Hwf Hl HQ. unfold next_read_id.
  apply wp_bind, assert_that_wp; [unfold is_leader; by rewrite Hl|].
  apply wp_bind. eapply update_leader_wp; [done|].
  apply wp_bind. eapply update_leader_wp; [done|]. cbn beta.
  leader_fields Hwf Hl Hwf1 Hlead1.
  apply wp_bind, signal_wp. intros f2 Hf2. apply wp_bind.
  eapply leader_state_wp; [by destruct Hf2 as [_ ->]|]. apply wp_ret, HQ.
  eapply leads_inert; [by split; [exact Hwf1|exact Hlead1]|]. done.
Qed.

(** ** Giving up leadership *)

(** The machine is the same up to its role: it still leads, or it follows no
    one. *)
Record may_step_down (f f' : fsm) : Prop := {
  ms_wf : fsm_wf f';
  ms_same : same_machine f f';
  ms_state : leading f f' \/ f_state f' = Follower no_id;
}.

Lemma leads_may_step_down f f' : leads f f' -> may_step_down f f'.
Proof. intros [Hwf Hl]. split; [done|by destruct Hl|by left]. Qed.

Lemma send_timeout_now_wp f l id Q X B :
  fsm_wf f -> f_state f = Leader l -> (forall f', may_step_down f f' -> Q tt f') ->
  wp (send_timeout_now id) Q X B f.
Proof.
  intros Hwf Hl HQ. unfold send_timeout_now. apply wp_bind, wp_gets, wp_bind, send_to_wp.
  intros f1 Hf1 _. pose proof (leads_inert f f f1 (leads_refl f l Hwf Hl) Hf1) as Hl1.
  assert (f_state f1 = Leader l) as Hst1 by (by destruct Hf1 as [_ ->]).
  apply wp_bind. eapply update_leader_wp; [done|].
  leader_fields (proj1 Hl1) Hst1 Hwf2 Hlead2.
  assert (leads f (set_state (Leader (ld_set_timeout_now_sent (Some id) l)) f1)) as Hf2
    by (by eapply leads_trans).
  apply wp_bind. eapply leader_state_wp; [done|]. apply wp_when; intros _; [|by apply HQ, leads_may_step_down].
  apply become_follower_wp; [done| |].
  - destruct Hf2 as [[[] _] _]. done.
  - intros f3 Hwf3 Hs3 Hst3 _. apply HQ. split; [done| |by right].
    destruct Hf2 as [_ [? _]]. by etransitivity.
Qed.

Lemma transfer_leadership_wp f l timeout Q X B :
  fsm_wf f -> f_state f = Leader l -> (forall f', may_step_down f f' -> Q tt f') ->
  (is_removed_leader f l = false -> X no_other_voting_member f) ->
  wp (transfer_leadership timeout) Q X B f.
Proof.
  intros Hwf Hl HQ HX. unfold transfer_leadership, check_is_leader. pose proof Hwf as [[] _].
  apply wp_bind, wp_bind, wp_gets. unfold is_leader. rewrite Hl. apply wp_ret, wp_bind, wp_gets. wp_leader.
  apply wp_bind, (lift_ret_wp _ (active_configuration (f_log f))).
  { apply get_configuration_active; [done|]. destruct mw_conf as (c & _ & ?). by exists c. }
  destruct (_ && _) eqn:Hone.
  { apply wp_throw, HX. apply andb_true_iff in Hone as [_ Hone]. by apply negb_true_iff in Hone. }
  apply wp_bind. eapply update_leader_wp; [done|].
  apply wp_bind. eapply update_leader_wp; [done|]. cbn beta.
  leader_fields Hwf Hl Hwf2 Hlead2.
  match goal with |- wp _ _ _ _ ?f2 => assert (leads f f2) as Hf2 by done end.
  destruct (List.find _ _) as [p|]; [|by apply wp_ret, HQ, leads_may_step_down].
  eapply send_timeout_now_wp; [exact Hwf2|done|]. intros f3 [Hwf3 Hs3 Hst3]. apply HQ. split; [done| |].
  - destruct Hlead2. by etransitivity.
  - destruct Hst3; [left|by right]. by etransitivity.
Qed.
End leader_operations.

(** * Committing *)

(** The machine moved on: its log was continued, its commit index did not
    decrease, and it still leads or follows no one. *)
Record advanced `{raft_env} (f f' : fsm) : Prop := {
  ad_wf : fsm_wf f';
  ad_id : f_my_id f' = f_my_id f;
  ad_term : f_current_term f' = f_current_term f;
  ad_vote : f_voted_for f' = f_voted_for f;
  ad_config : f_config f' = f_config f;
  ad_observed : f_observed f' = f_observed f;
  ad_clock : f_clock f' = f_clock f;
  ad_commit : f_commit_idx f <= f_commit_idx f';
  ad_log : log_extends (f_log f) (f_log f');
  ad_state : is_leader f' = true \/ f_state f' = Follower no_id;
}.

(** The voters that a tracker's follower set must convince to commit [n]. *)
Definition current_majority (t : tracker) (n : index_t) : Prop :=
  majority_of (t_current_voters t) (acked fp_match_idx t (t_current_voters t) n).

(** The outcome of [maybe_commit] for a leader: the commit index moved only to an
    entry of the current term that a majority of the current voters has. If the
    configuration is joint, a majority of both voter sets has everything up to
    [n], which is all of it unless the joint configuration itself is committed
    with [n] and left. Conversely an index that a quorum has is committed when all
    entries from it on are of the current term. *)
Record commit_result `{raft_env} (f : fsm) (l : leader) (f' : fsm) : Prop := {
  cr_advanced : advanced f f';
  cr_quorum : f_commit_idx f' = f_commit_idx f \/
    (exists e, entry_at (f_log f') (f_commit_idx f') = Some e /\ e_term e = f_current_term f) /\
    current_majority (ld_tracker l) (f_commit_idx f') /\
    exists n, f_commit_idx f < n <= f_commit_idx f' /\ has_quorum fp_match_idx (ld_tracker l) n /\
      (n = f_commit_idx f' \/
       is_joint (active_configuration (f_log f)) = true /\ last_conf_idx (f_log f) <= n);
  cr_complete : forall n, f_commit_idx f < n -> has_quorum fp_match_idx (ld_tracker l) n ->
    (forall i e, n <= i -> entry_at (f_log f) i = Some e -> e_term e = f_current_term f) ->
    n <= f_commit_idx f';
}.

Section commit.
Context {env : raft_env}.
Implicit Types (f : fsm) (X : raft_error -> fsm -> Prop) (B : abort_reason -> Prop).

Lemma same_machine_advanced f f' :
  fsm_wf f' -> same_machine f f' -> is_leader f' = true \/ f_state f' = Follower no_id -> advanced f f'.
Proof.
  intros Hwf [] Hst. split; try done.
  - lia.
  - rewrite sm_log. reflexivity.
Qed.

Lemma leading_is_leader f f' : leading f f' -> is_leader f' = true.
Proof. intros [_ (l & l' & _ & Hl & _)]. unfold is_leader. by rewrite Hl. Qed.

Lemma may_step_down_advanced f f' : may_step_down f f' -> advanced f f'.
Proof.
  intros [Hwf Hs Hst]. apply same_machine_advanced; [done..|].
  destruct Hst as [Hl|]; [left|by right]. by eapply leading_is_leader.
Qed.

Lemma advanced_trans f g h : advanced f g -> advanced g h -> advanced f h.
Proof.
  intros [] []. split; try congruence; [lia|by etransitivity].
Qed.

(** A quorum for an index means that the log reaches it. *)
Lemma has_quorum_in_log f l n :
  fsm_wf f -> f_state f = Leader l -> has_quorum fp_match_idx (ld_tracker l) n -> n <= log_last (f_log f).
Proof.
  intros Hwf Hl [Hm _]. destruct (wf_leader f l Hwf Hl) as [_ _ _ Hok]. unfold majority_of in Hm.
  destruct (set_choose_or_empty (acked fp_match_idx (ld_tracker l) (t_current_voters (ld_tracker l)) n))
    as [[id Hid]|He].
  - apply elem_of_filter in Hid as [Hid _].
    destruct (t_progress (ld_tracker l) !! id) as [p|] eqn:Hp; [|done].
    apply Z.leb_le in Hid. destruct (Hok id p Hp). lia.
  - apply size_empty_iff in He. lia.
Qed.

Lemma wf_set_commit f n :
  fsm_wf f -> f_commit_idx f <= n <= log_last (f_log f) -> fsm_wf (set_commit_idx n f).
Proof.
  intros [[] Hst] Hn. split; [|done]. unfold base_wf. cbn. split; try done; try lia.
  destruct mw_conf as (c & Hc & Hcw). exists (c `max` n). split; [lia|].
  eapply conf_wf_mono; [done|lia].
Qed.

(** The read barrier that [maybe_commit] sends again. *)
Definition rebroadcast : FSM unit :=
  f ← gets (fun f => f);
  match f_state f with
  | Leader l =>
    when (negb (ld_last_read_id l =? ld_max_read_id_with_quorum l))
      (broadcast_read_quorum (ld_last_read_id l))
  | _ => mret tt
  end.

Lemma rebroadcast_wp f Q X B :
  fsm_wf f -> (is_leader f = true \/ f_state f = Follower no_id) ->
  (forall f', advanced f f' -> f_log f' = f_log f -> f_commit_idx f' = f_commit_idx f -> Q tt f') ->
  wp rebroadcast Q X B f.
Proof.
  intros Hwf Hst HQ. apply wp_bind, wp_gets.
  assert (Q tt f) as HQf by (by apply HQ; [apply same_machine_advanced|..]).
  destruct (f_state f) as [| |l] eqn:Hl; [by apply wp_ret..|].
  apply wp_when; intros _; [|done]. eapply broadcast_read_quorum_wp; [done..|].
  intros f' Hf'. pose proof (leads_may_step_down _ _ Hf') as Hm. destruct Hf' as [_ [[] _]].
  apply HQ; [by apply may_step_down_advanced|done|done].
Qed.

(** The log and the tracker after leaving a joint configuration. *)
Record left_joint (f : fsm) (l : leader) (n : index_t) (f1 : fsm) (l1 : leader) : Prop := {
  lj_advanced : advanced f f1;
  lj_commit : f_commit_idx f1 = n;
  lj_state : f_state f1 = Leader l1;
  lj_joint : is_joint (active_configuration (f_log f1)) = false;
  lj_voters : t_current_voters (ld_tracker l1) = t_current_voters (ld_tracker l);
  lj_progress : forall id, id ∈ t_current_voters (ld_tracker l) ->
    fp_match_idx <$> t_progress (ld_tracker l1) !! id = fp_match_idx <$> t_progress (ld_tracker l) !! id;
}.

Lemma left_joint_majority f l n f1 l1 m :
  left_joint f l n f1 l1 -> current_majority (ld_tracker l1) m -> current_majority (ld_tracker l) m.
Proof.
  intros [_ _ _ _ Hv Hp]. unfold current_majority. rewrite Hv. intros Hm.
  eapply majority_of_mono; [exact Hm|]. intros id. unfold acked. rewrite !elem_of_filter.
  intros [Hid Hin]. split; [|done]. specialize (Hp id Hin).
  destruct (t_progress (ld_tracker l1) !! id), (t_progress (ld_tracker l) !! id); simplify_eq/=;
    [congruence|done..].
Qed.

(** Leaving a committed joint configuration. *)
Lemma leave_joint_wp f l n f1 Q X B :
  fsm_wf f -> f_state f = Leader l -> advanced f f1 -> f_state f1 = Leader l -> f_log f1 = f_log f ->
  f_commit_idx f1 = n -> last_conf_idx (f_log f) <= n -> log_last (f_log f) + 2 < u64_modulus ->
  let cfg := Configuration (current (active_configuration (f_log f))) ∅ in
  (forall f2 l2, left_joint f l n f2 l2 -> Q tt f2) ->
  wp tracker_set_configuration Q X B (set_log (emplace_back (f_log f1)
    (LogEntry (f_current_term f1) (next_idx (f_log f1)) (ConfigurationEntry cfg))) f1).
Proof.
  intros Hwf Hl Had Hl1 Hlog Hcom Hlast Hroom cfg HQ. pose proof (ad_wf _ _ Had) as Hwf1.
  pose proof (wf_leader f l Hwf Hl) as [Ht Hcv Hpv Hok]. pose proof Hwf1 as [[] _].
  set (e := LogEntry (f_current_term f1) (next_idx (f_log f1)) (ConfigurationEntry cfg)).
  assert (e_idx e = log_last (f_log f1) + 1) as He by (simpl; by rewrite next_idx_eq).
  assert (config_small cfg) as Hsmall.
  { split; simpl; [|by rewrite map_size_empty].
    rewrite <- Hlog. by apply active_configuration_small. }
  fold e. assert (base_wf (set_log (emplace_back (f_log f1) e) f1)) as Hbase.
  { apply wf_append; [by destruct Hwf1|done|by rewrite Hlog|]. intros c [= <-]. rewrite Hlog, Hcom. done. }
  eapply tracker_set_configuration_wp; [exact Hbase|exact Hl1| | |].
  { cbn [f_log set_log]. rewrite emplace_back_last. destruct mw_log. lia. }
  { intros id p Hp. split; [by apply (tw_ids _ Ht)|]. cbn [f_log set_log]. rewrite emplace_back_last, Hlog.
    eapply progress_ok_mono; [by eapply Hok|lia]. }
  cbn [f_log set_log]. intros f2 Hwf2 Hs2 _ Hst2.
  assert (active_configuration (emplace_back (f_log f1) e) = cfg) as Hact.
  { rewrite active_configuration_append; [done|done|done|by rewrite Hlog]. }
  rewrite Hact in Hst2. destruct Hs2. cbn in sm_id, sm_term, sm_vote, sm_commit, sm_config, sm_observed, sm_clock.
  cbn [f_log set_log] in sm_log.
  destruct (set_configuration_spec (ld_tracker l) cfg (last_idx (emplace_back (f_log f1) e)))
    as (Hp & Hc & _ & _); [by apply (tw_ids _ Ht)| |].
  { pose proof (map_size_union_le (current cfg) (previous cfg)). destruct Hsmall. unfold u64_modulus. lia. }
  eapply HQ. split; [|lia|exact Hst2| |by cbn [ld_tracker ld_set_tracker]; rewrite Hc, Hcv|].
  - eapply advanced_trans; [done|]. split; [done..|lia| |left; unfold is_leader; by rewrite Hst2].
    rewrite sm_log. apply emplace_back_extends.
  - rewrite sm_log, Hact. by apply is_joint_false.
  - intros id Hid. cbn [ld_tracker ld_set_tracker]. rewrite Hp. unfold cfg. cbn [current previous].
    rewrite (right_id_L ∅ (∪)).
    pose proof (tw_current _ Ht _ Hid) as [p Hpid]%elem_of_dom.
    rewrite Hcv in Hid. apply elem_of_voter_ids in Hid as (m & -> & _). simpl.
    unfold member_progress. by rewrite Hpid.
Qed.

Lemma commit_result_frame f l f1 f2 :
  commit_result f l f1 -> advanced f1 f2 -> f_log f2 = f_log f1 -> f_commit_idx f2 = f_commit_idx f1 ->
  commit_result f l f2.
Proof.
  intros [Had Hq Hall] H12 Hlog Hcom. split; [by eapply advanced_trans|..]; by rewrite ?Hlog, Hcom.
Qed.

Lemma entry_at_extends l l' i e :
  log_extends l l' -> entry_at l i = Some e -> entry_at l' i = Some e.
Proof.
  intros ((_ & Hf & _) & _ & es & Hl) He. unfold entry_at in *. rewrite Hl, Hf.
  apply at_z_Some in He as [? He]. apply at_z_Some. split; [done|]. by apply lookup_app_l_Some.
Qed.

(** Committing on after leaving a joint configuration committed with [n]. *)
Lemma commit_result_joint f l n f1 l1 f2 e :
  left_joint f l n f1 l1 -> commit_result f1 l1 f2 ->
  is_joint (active_configuration (f_log f)) = true -> last_conf_idx (f_log f) <= n ->
  entry_at (f_log f) n = Some e -> e_term e = f_current_term f ->
  has_quorum fp_match_idx (ld_tracker l) n -> f_commit_idx f < n ->
  (forall m, f_commit_idx f < m -> has_quorum fp_match_idx (ld_tracker l) m -> m <= n) ->
  commit_result f l f2.
Proof.
  intros Hleft [Had2 Hq _] Hj Hlast He Hterm Hquorum Hlt Hmax. pose proof Hleft as [Had1 Hcom1 _ _ _ _].
  pose proof (ad_commit _ _ Had2).
  split; [by eapply advanced_trans|right|intros m Hm Hmq _; specialize (Hmax m Hm Hmq); lia].
  assert (exists n0, f_commit_idx f < n0 <= f_commit_idx f2 /\ has_quorum fp_match_idx (ld_tracker l) n0 /\
    (n0 = f_commit_idx f2 \/ is_joint (active_configuration (f_log f)) = true /\ last_conf_idx (f_log f) <= n0)) as Hn.
  { exists n. split; [lia|]. split; [done|by right]. }
  destruct Hq as [Hsame|((e2 & He2 & Ht2) & Hm2 & _)].
  - rewrite Hsame, Hcom1 in *. split_and!; [|by destruct Hquorum|done].
    exists e. split; [|done].
    eapply entry_at_extends; [apply (ad_log _ _ Had2)|].
    eapply entry_at_extends; [apply (ad_log _ _ Had1)|done].
  - split_and!; [|by eapply left_joint_majority|done].
    exists e2. split; [done|]. by rewrite Ht2, (ad_term _ _ Had1).
Qed.

(** [maybe_commit], given its recursive call. The recursive call is made only
    after leaving a joint configuration. *)
Lemma maybe_commit_body_wp f l again Q X B :
  fsm_wf f -> f_state f = Leader l ->
  (is_joint (active_configuration (f_log f)) = true ->
    log_last (f_log f) + 2 < u64_modulus /\
    forall n f1 l1, left_joint f l n f1 l1 -> wp again (fun _ => commit_result f1 l1) X B f1) ->
  (forall f', commit_result f l f' -> Q tt f') ->
  wp (maybe_commit_body again) Q X B f.
Proof.
  intros Hwf Hl Hagain HQ. pose proof Hwf as [[] _].
  pose proof (wf_leader f l Hwf Hl) as [Ht Hcv Hpv Hok].
  unfold maybe_commit_body. apply wp_bind, wp_gets. wp_leader.
  destruct (committed_spec fp_match_idx (ld_tracker l) (f_commit_idx f) Ht) as (n & Hn & Hle & Hquorum & Hmax).
  apply wp_bind, (lift_ret_wp _ n _ _ _ _ Hn).
  assert ((forall m, f_commit_idx f < m -> has_quorum fp_match_idx (ld_tracker l) m ->
    (forall i e, m <= i -> entry_at (f_log f) i = Some e -> e_term e = f_current_term f) -> False) ->
    commit_result f l f) as Hsame.
  { intros Hno. split; [|by left|intros m Hm Hmq Hmt; by destruct (Hno m Hm Hmq Hmt)].
    apply same_machine_advanced; [done|reflexivity|left; unfold is_leader; by rewrite Hl]. }
  destruct (Z.leb_spec n (f_commit_idx f)) as [|Hlt].
  { apply wp_ret, HQ, Hsame. intros m Hm Hmq _. specialize (Hmax m Hm Hmq). lia. }
  cbv zeta.
  specialize (Hquorum Hlt). pose proof (has_quorum_in_log f l n Hwf Hl Hquorum) as Hin.
  destruct (log_at_spec (f_log f) n mw_log) as (e & Hat & He); [destruct mw_log; lia|].
  apply wp_bind, (lift_ret_wp _ e _ _ _ _ Hat).
  destruct (Z.eqb_spec (e_term e) (f_current_term f)) as [Hterm|Hterm]; cbn [negb].
  2: { apply wp_ret, HQ, Hsame. intros m Hm Hmq Hmt. specialize (Hmax m Hm Hmq). by eapply Hterm, Hmt. }
  apply wp_bind, wp_modify, wp_bind, signal_wp. intros f1 Hf1.
  assert (advanced f f1 /\ f_state f1 = Leader l /\ f_log f1 = f_log f /\ f_commit_idx f1 = n) as (Had1 & Hl1 & Hlog1 & Hcom1).
  { pose proof (inert_wf _ _ Hf1 (wf_set_commit f n Hwf ltac:(lia))) as Hwf1.
    destruct Hf1 as [[] Hst1]. cbn in *. split_and!; [|congruence..].
    split; try done; [lia|rewrite sm_log; reflexivity|left; unfold is_leader; by rewrite Hst1, Hl]. }
  assert (commit_result f l f1) as Hcr1.
  { split; [done| |].
    { right. rewrite Hlog1, Hcom1. split; [by exists e|].
      split; [by destruct Hquorum|]. exists n. split; [lia|]. split; [done|by left]. }
    intros m Hm Hmq _. rewrite Hcom1. by apply Hmax. }
  apply wp_when; [|intros _; by apply HQ]. intros Hconf.
  apply wp_bind, (lift_ret_wp _ _ _ _ _ _ (get_configuration_wp f ltac:(by destruct Hwf))).
  apply wp_bind. eapply (wp_mono _ (fun _ => commit_result f l)); [| |done|done].
  2: { intros _ f2 Hcr2. change (wp rebroadcast Q X B f2). destruct Hcr2 as [Had2 Hq2 Hall2].
       apply rebroadcast_wp; [by destruct Had2..|]. intros f3 Had3 Hlog3 Hcom3.
       apply HQ. eapply commit_result_frame; [by split|done..]. }
  destruct (is_joint (active_configuration (f_log f))) eqn:Hj.
  - destruct (Hagain eq_refl) as [Hroom Hag]. apply wp_bind.
    eapply lift_ret_wp; [unfold leave_joint; by rewrite Hj|].
    apply wp_bind, wp_modify, wp_bind.
    eapply (leave_joint_wp f l n f1); [done..|lia|done|].
    intros f2 l2 Hleft. eapply wp_mono; [by eapply Hag| |done|done].
    intros [] f3 Hcr3. eapply commit_result_joint; [exact Hleft|exact Hcr3|done|lia|done|done|done|lia|done].
  - apply wp_bind. eapply leader_state_wp; [done|]. apply wp_when; intros Hrem; [|done].
    assert (is_removed_leader f1 l = true) as Hrem1.
    { unfold is_removed_leader in *. by rewrite (ad_id _ _ Had1). }
    eapply transfer_leadership_wp; [by destruct Had1|done| |by rewrite Hrem1].
    intros f2 Hms. pose proof Hms as [_ [] _]. eapply commit_result_frame; [done| |done|done].
    by apply may_step_down_advanced.
Qed.

(** The recursion of [maybe_commit] ends after one step. *)
Lemma maybe_commit_wp f l Q X B :
  fsm_wf f -> f_state f = Leader l -> log_last (f_log f) + 2 < u64_modulus ->
  (forall f', commit_result f l f' -> Q tt f') -> wp maybe_commit Q X B f.
Proof.
  intros Hwf Hl Hroom HQ. eapply maybe_commit_body_wp; [done..| |done]. intros _. split; [done|].
  intros n f1 l1 []. eapply maybe_commit_body_wp; [by destruct lj_advanced0|done| |done].
  rewrite lj_joint0. done.
Qed.
End commit.

(** * Adding entries and becoming a leader *)

Section adding.
Context {env : raft_env}.
Implicit Types (f : fsm) (X : raft_error -> fsm -> Prop) (B : abort_reason -> Prop).

(** The entry [add_entry] appends for a command or a dummy. *)
Definition plain_entry (f : fsm) (d : entry_data) : log_entry :=
  LogEntry (f_current_term f) (log_last (f_log f) + 1) d.

Lemma plain_entry_eq f d : base_wf f ->
  LogEntry (f_current_term f) (next_idx (f_log f)) d = plain_entry f d.
Proof. intros []. unfold plain_entry. by rewrite next_idx_eq. Qed.

Lemma log_at_last l e :
  log_wf l -> e_idx e = log_last l + 1 -> log_last l + 2 < u64_modulus ->
  log_at (emplace_back l e) (last_idx (emplace_back l e)) = Ret e.
Proof.
  intros Hwf He Hb. pose proof (emplace_back_wf l e Hwf He Hb) as Hwf'.
  rewrite last_idx_eq by done. rewrite emplace_back_last.
  destruct (log_at_spec (emplace_back l e) (log_last l + 1) Hwf') as (e' & -> & He').
  { rewrite emplace_back_last. destruct (emplace_back_base l e) as (_ & -> & _). destruct Hwf. lia. }
  f_equal. unfold entry_at in He'. destruct (emplace_back_base l e) as (_ & Hf & _).
  rewrite Hf, emplace_back_log in He'. apply at_z_Some in He' as [_ He'].
  unfold log_last in He'. rewrite lookup_app_r in He' by lia.
  replace (Z.to_nat _ - length (l_log l))%nat with 0%nat in He' by lia. by simplify_eq/=.
Qed.

Lemma check_is_leader_wp f l Q X B : f_state f = Leader l -> Q tt f -> wp check_is_leader Q X B f.
Proof. intros Hl HQ. apply wp_bind, wp_gets. unfold is_leader. by rewrite Hl. Qed.

(** Commands and dummies are appended with the leader's term. *)
Lemma add_plain_entry_wp f l d Q X B :
  base_wf f -> f_state f = Leader l -> ld_stepdown l = None -> log_last (f_log f) + 2 < u64_modulus ->
  (forall c, d <> ConfigurationEntry c) ->
  (forall f', inert (set_log (emplace_back (f_log f) (plain_entry f d)) f) f' ->
    f_messages f' = f_messages f -> Q (plain_entry f d) f') ->
  wp (add_entry d) Q X B f.
Proof.
  intros Hwf Hl Hsd Hroom Hd HQ. pose proof Hwf as [].
  unfold add_entry. apply wp_bind. eapply check_is_leader_wp; [done|]. wp_leader.
  rewrite Hsd. bdec.
  assert (wp (modify (fun f => set_log (emplace_back (f_log f)
      (LogEntry (f_current_term f) (next_idx (f_log f)) d)) f) ;; signal ;; mret tt ;;
    f ← gets (fun f => f); lift (log_at (f_log f) (last_idx (f_log f)))) Q X B f) as Hmain.
  { apply wp_bind, wp_modify, wp_bind, wp_modify, wp_bind, wp_ret, wp_bind, wp_gets.
    rewrite plain_entry_eq by done. eapply lift_ret_wp; [by apply log_at_last|]. by apply HQ. }
  destruct d as [| |]; [exact Hmain|by destruct (Hd c)|exact Hmain].
Qed.

(** What [add_entry] does: an error and no change, or one more entry, of the
    leader's term, at the end of the log. *)
Record entry_added (f : fsm) (d : entry_data) (e : log_entry) (f' : fsm) : Prop := {
  ea_wf : fsm_wf f';
  ea_leader : is_leader f' = true;
  ea_idx : e_idx e = log_last (f_log f) + 1;
  ea_term : e_term e = f_current_term f;
  ea_data : match d with
    | ConfigurationEntry c => e_data e = ConfigurationEntry
        (Configuration (current c) (current (active_configuration (f_log f))))
    | _ => e_data e = d
    end;
  ea_log : f_log f' = emplace_back (f_log f) e;
  ea_commit : f_commit_idx f' = f_commit_idx f;
  ea_current_term : f_current_term f' = f_current_term f;
}.

Lemma add_configuration_wp f l c Q X B :
  fsm_wf f -> f_state f = Leader l -> ld_stepdown l = None -> log_last (f_log f) + 2 < u64_modulus ->
  Z.of_nat (size (current c)) < 2 ^ 32 ->
  (forall e f', entry_added f (ConfigurationEntry c) e f' -> Q e f') -> (forall e, X e f) ->
  wp (add_entry (ConfigurationEntry c)) Q X B f.
Proof.
  intros Hwf Hl Hsd Hroom Hc HQ HX. pose proof Hwf as [Hbase _]. pose proof Hbase as [].
  pose proof (wf_leader f l Hwf Hl) as [Ht Hcv Hpv Hok].
  unfold add_entry. apply wp_bind. eapply check_is_leader_wp; [done|]. wp_leader.
  rewrite Hsd. rewrite bool_decide_eq_false_2 by (by intros []).
  apply wp_bind, wp_bind.
  apply wp_lift; [|by auto|by unfold configuration_check; repeat case_match]. intros _ _.
  apply wp_bind, wp_gets. apply wp_bind, (lift_ret_wp _ _ _ _ _ _ (get_configuration_wp f Hbase)).
  destruct (Z.gtb_spec (last_conf_idx (f_log f)) (f_commit_idx f)) as [|Hlast]; [by apply wp_throw|].
  destruct (is_joint (active_configuration (f_log f))); [by apply wp_throw|]. cbn [orb].
  apply wp_bind. unfold enter_joint. case_bool_decide; [apply wp_throw, HX|].
  eapply lift_ret_wp; [done|]. apply wp_ret.
  set (c' := Configuration (current c) (current (active_configuration (f_log f)))).
  apply wp_bind, wp_modify, wp_bind, signal_wp. rewrite plain_entry_eq by done.
  set (e := plain_entry f (ConfigurationEntry c')).
  intros f1 [Hs1 Hst1]. cbn [f_state set_log] in Hst1. rewrite Hl in Hst1.
  assert (base_wf (set_log (emplace_back (f_log f) e) f)) as Hb1.
  { apply wf_append; [done..|]. intros ? [= <-]. split; [|lia].
    split; [done|]. by apply active_configuration_small. }
  assert (f_log f1 = emplace_back (f_log f) e) as Hlog1 by (by destruct Hs1).
  assert (base_wf f1) as Hbase1.
  { destruct Hs1. unfold base_wf in *. cbn in *. congruence. }
  apply wp_bind. eapply tracker_set_configuration_wp; [done|done| | |].
  { rewrite Hlog1, emplace_back_last. destruct mw_log. lia. }
  { intros id p Hp. split; [by apply (tw_ids _ Ht)|]. rewrite Hlog1, emplace_back_last.
    eapply progress_ok_mono; [by eapply Hok|lia]. }
  intros f2 Hwf2 Hs2 _ Hst2. apply wp_bind, wp_gets.
  assert (f_log f2 = emplace_back (f_log f) e) as Hlog2 by (destruct Hs2; congruence).
  rewrite Hlog2. eapply lift_ret_wp; [by apply log_at_last|]. apply HQ.
  destruct Hs1, Hs2. cbn in *.
  split; try done; [unfold is_leader; by rewrite Hst2|congruence..].
Qed.
End adding.

(** * Elections *)

Section elections.
Context {env : raft_env}.
Implicit Types (f : fsm) (X : raft_error -> fsm -> Prop) (B : abort_reason -> Prop).

(** A candidate becomes a leader and appends a dummy entry of its term. *)
Record became_leader (f f' : fsm) : Prop := {
  bl_wf : fsm_wf f';
  bl_leader : is_leader f' = true;
  bl_id : f_my_id f' = f_my_id f;
  bl_term : f_current_term f' = f_current_term f;
  bl_vote : f_voted_for f' = f_voted_for f;
  bl_commit : f_commit_idx f' = f_commit_idx f;
  bl_log : f_log f' = emplace_back (f_log f) (plain_entry f Dummy);
  bl_messages : f_messages f' = f_messages f;
}.

Lemma become_leader_wp f Q X B :
  base_wf f -> is_leader f = false -> log_last (f_log f) + 2 < u64_modulus ->
  (forall f', became_leader f f' -> Q tt f') -> wp become_leader Q X B f.
Proof.
  intros Hbase Hl Hroom HQ. unfold become_leader. apply wp_bind, assert_that_wp; [by rewrite Hl|].
  apply wp_bind, wp_modify, wp_bind, wp_modify, wp_bind, wp_gets, wp_bind.
  eapply update_leader_wp; [done|]. apply wp_bind, wp_modify, wp_bind, wp_modify, wp_bind.
  eapply add_plain_entry_wp; [exact Hbase|done|done|done|done|]. cbn [f_log set_state].
  intros f1 [Hs1 Hst1] Hm1. cbn in Hm1.
  match type of Hs1 with same_machine (set_log (emplace_back _ ?e) _) _ => set (e0 := e) in * end.
  assert (f_log f1 = emplace_back (f_log f) (plain_entry f Dummy)) as Hlog1 by (by destruct Hs1).
  assert (base_wf (set_log (emplace_back (f_log f) (plain_entry f Dummy)) f)) as Hb1 by (by apply wf_append).
  assert (base_wf f1) as Hbase1.
  { destruct Hs1. unfold base_wf. rewrite sm_id, sm_commit, sm_observed, Hlog1. exact Hb1. }
  eapply tracker_set_configuration_wp; [done|exact Hst1| |done|].
  { rewrite Hlog1, emplace_back_last. destruct Hbase as [_ [] _ _ _ _]. lia. }
  intros f2 Hwf2 Hs2 Hm2 Hst2. apply HQ. destruct Hs2. split; [done|unfold is_leader; by rewrite Hst2|..].
  all: try (by rewrite ?sm_id, ?sm_term, ?sm_vote, ?sm_commit; destruct Hs1).
  - by rewrite sm_log.
  - by rewrite Hm2.
Qed.

Lemma reset_election_timeout_wp f Q X B :
  base_wf f -> (forall f', inert f f' -> f_messages f' = f_messages f -> Q tt f') ->
  wp reset_election_timeout Q X B f.
Proof.
  intros Hb HQ. apply wp_bind, wp_gets.
  apply wp_bind, (lift_ret_wp _ _ _ _ _ _ (get_configuration_wp f Hb)).
  apply wp_bind, wp_modify, wp_modify, HQ; done.
Qed.

(** A server that is no voter looks at the previous configuration only when the
    log has one. *)
Lemma may_campaign_wp f vs Q X B :
  base_wf f -> (forall b, Q b f) -> wp (may_campaign vs) Q X B f.
Proof.
  intros Hb HQ. pose proof Hb as []. destruct mw_conf as (c & Hc & Hcw).
  unfold may_campaign. apply wp_bind, wp_gets.
  case_bool_decide; [by apply wp_ret|].
  destruct (Z.leb_spec (last_conf_idx (f_log f)) (f_commit_idx f)) as [|Hlt]; [by apply wp_ret|].
  assert (exists p, get_prev_configuration (f_log f) = Ret (Some p)) as [p Hp].
  { unfold get_prev_configuration, last_conf_idx in *. destruct Hcw as [Hl Hp _ _].
    destruct (Z.eqb_spec (l_prev_conf_idx (f_log f)) 0) as [H0|H0]; cbn [negb].
    - destruct (Z.eqb_spec (l_last_conf_idx (f_log f)) 0); [lia|]. zbool. eauto.
    - destruct Hp as [?|[cs Hcs]]; [done|].
      assert (l_prev_conf_idx (f_log f) ∈ conf_indexes (f_log f)) as Hin by (rewrite Hcs; set_solver).
      unfold conf_indexes in Hin. rewrite <- conf_entries_of_indexes in Hin.
      apply list_elem_of_fmap in Hin as ([i p] & -> & Hin). simpl.
      exists p. eapply get_configuration_entry_ok in Hin; [by rewrite Hin|done]. }
  apply wp_bind, (lift_ret_wp _ _ _ _ _ _ Hp). bdec.
  apply wp_bind. eapply lift_ret_wp; [done|]. apply wp_ret, HQ.
Qed.

Lemma make_votes_wf c : votes_wf (make_votes c).
Proof.
  split; simpl; [eexists; apply make_election_counts|].
  intros et Het. destruct (is_joint c); simplify_eq. eexists. apply make_election_counts.
Qed.

Lemma votes_register_wf v from g : votes_wf v -> votes_wf (votes_register_vote v from g).
Proof.
  intros [[g1 H1] H2]. split; simpl.
  - eexists. by apply election_register_counts.
  - intros et (et0 & [g2 Hg2]%H2 & ->)%fmap_Some. eexists. by apply election_register_counts.
Qed.

Lemma votes_tally_wf v : votes_wf v -> exists r, votes_tally_votes v = Ret r.
Proof.
  intros [[g1 H1] H2]. unfold votes_tally_votes.
  destruct (election_tally_spec _ _ H1) as (r1 & Hr1 & _).
  destruct (v_previous v) as [et|]; [|by exists r1].
  destruct (H2 et eq_refl) as [g2 Hg2]. destruct (election_tally_spec _ _ Hg2) as (r2 & -> & _). simpl.
  case_decide; eauto.
Qed.

(** The machine campaigns with the log of [f]. *)
Record campaigns (f f' : fsm) : Prop := {
  ca_wf : fsm_wf f';
  ca_state : exists c, f_state f' = Candidate c;
  ca_id : f_my_id f' = f_my_id f;
  ca_log : f_log f' = f_log f;
  ca_commit : f_commit_idx f' = f_commit_idx f;
  ca_observed : f_observed f' = f_observed f;
}.

Lemma campaigns_inert f g g' : campaigns f g -> inert g g' -> campaigns f g'.
Proof.
  intros [Hwf [c Hc]] Hi. pose proof (inert_wf _ _ Hi Hwf). destruct Hi as [[] Hst].
  split; [done|exists c; congruence|congruence..].
Qed.

Lemma campaigns_set f g c :
  campaigns f g -> votes_wf (c_votes c) -> campaigns f (set_state (Candidate c) g).
Proof. intros [[Hb _] _] Hc. by split; [split|eexists|..]. Qed.

Lemma campaigns_fields f g g' :
  campaigns f g -> f_my_id g' = f_my_id g -> f_log g' = f_log g -> f_commit_idx g' = f_commit_idx g ->
  f_observed g' = f_observed g -> f_state g' = f_state g -> campaigns f g'.
Proof.
  intros [[Hb Hst] [c Hc]] Hid Hlog Hcom Hob Hs. split; [|exists c; congruence|congruence..].
  unfold fsm_wf, base_wf. by rewrite Hid, Hlog, Hcom, Hob, Hs.
Qed.

Lemma campaign_to_wp f g p t term id X B :
  campaigns f g -> wp (campaign_to p t term id) (fun _ g' => campaigns f g' /\
    (p = true -> f_current_term g' = f_current_term g)) X B g.
Proof.
  intros Hc. unfold campaign_to. apply wp_bind, wp_gets.
  destruct (id =? f_my_id g)%N.
  - destruct (ca_state _ _ Hc) as [c Hst]. apply wp_bind. eapply update_candidate_wp; [done|].
    assert (campaigns f (set_state (Candidate (MkCandidate (votes_register_vote (c_votes c) id true) (c_is_prevote c))) g)) as Hc1.
    { apply campaigns_set; [done|]. apply votes_register_wf.
      destruct Hc as [[_ Hw]]. by rewrite Hst in Hw. }
    apply wp_when; intros Hp; [apply wp_modify|done]. split; [by eapply campaigns_fields|done].
  - apply send_to_wp. intros g' Hi _. split; [by eapply campaigns_inert|]. by destruct Hi as [[]].
Qed.

Lemma campaign_wp f p t Q X B :
  fsm_wf f -> 0 <= f_current_term f -> f_current_term f + 1 < u64_modulus ->
  (forall r f', fsm_wf f' -> f_my_id f' = f_my_id f -> f_log f' = f_log f ->
    f_commit_idx f' = f_commit_idx f ->
    (p = true -> f_current_term f' = f_current_term f) ->
    (is_Some r -> exists c, f_state f' = Candidate c) -> Q r f') ->
  wp (campaign p t) Q X B f.
Proof.
  intros Hwf H0 H1 HQ. pose proof Hwf as [Hbase _]. unfold campaign. apply wp_bind, wp_gets.
  apply wp_bind, (wp_mono _ (fun _ f1 => inert f f1) _ X _ B); [|  |done|done].
  { apply wp_when; intros _; [apply wp_modify|]; done. }
  intros [] f1 Hi1. apply wp_bind, (lift_ret_wp _ _ _ _ _ _ (get_configuration_wp f Hbase)).
  apply wp_bind, wp_modify.
  set (c0 := MkCandidate (make_votes (active_configuration (f_log f))) p).
  assert (campaigns f (set_state (Candidate c0) f1)) as Hc2.
  { pose proof (inert_wf _ _ Hi1 Hwf) as [Hb1 _]. destruct Hi1 as [[] _].
    split; [split; [exact Hb1|apply make_votes_wf]|by eexists|done..]. }
  assert (f_current_term (set_state (Candidate c0) f1) = f_current_term f) as Ht2 by (by destruct Hi1 as [[]]).
  apply wp_bind, reset_election_timeout_wp; [by destruct Hc2 as [[]]|].
  intros f3 Hi3 _. pose proof (campaigns_inert _ _ _ Hc2 Hi3) as Hc3.
  assert (f_current_term f3 = f_current_term f) as Ht3 by (destruct Hi3 as [[] _]; congruence).
  clear Hc2 Ht2 Hi3.
  apply wp_bind, wp_modify. set (f4 := set_last_election_time (f_clock f3) f3).
  assert (campaigns f f4) as Hc4 by (by eapply campaigns_fields).
  destruct (ca_state _ _ Hc4) as [c Hst4]. apply wp_bind. eapply candidate_state_wp; [done|].
  cbv zeta. apply wp_bind, may_campaign_wp; [by destruct Hc4 as [[]]|]. intros may.
  pose proof Hc4 as [Hwf4 _ Hid4 Hlog4 Hcom4 Hob4].
  destruct may; cbn [negb].
  2: { apply wp_bind, become_follower_wp; [done|by destruct Hwf4 as [[]]|].
       intros f5 Hwf5 [] _ _. apply wp_ret, HQ; [done|congruence..| |by intros []].
       intros _. by rewrite sm_term. }
  (* the term of a real campaign *)
  apply wp_bind, (wp_mono _ (fun _ f5 => campaigns f f5 /\ (p = true -> f_current_term f5 = f_current_term f)) _ X _ B); [| |done|done].
  { destruct p; cbn [negb when]; [done|]. unfold update_current_term.
    apply wp_bind, assert_that_wp.
    { rewrite u64_add_small by lia. cbn. rewrite Ht3. lia. }
    apply wp_bind, wp_modify, wp_modify. split; [by eapply campaigns_fields|done]. }
  intros [] f5 Hc5. apply wp_bind.
  eapply wp_mono; [apply (wp_for_each _ _ (fun f5 => campaigns f f5 /\ (p = true -> f_current_term f5 = f_current_term f)))| |done|done].
  { intros id g _ [Hg Hgt]. eapply wp_mono; [by apply campaign_to_wp| |done|done].
    intros [] g' [Hg' Hgt']. split; [done|]. intros Hp. rewrite Hgt' by done. by apply Hgt. }
  { done. }
  intros [] f6 [Hc6 Ht6]. destruct (ca_state _ _ Hc6) as [c6 Hst6].
  apply wp_bind. eapply candidate_state_wp; [done|]. pose proof Hc6 as [Hwf6 _ Hid6 Hlog6 Hcom6 _].
  destruct (votes_tally_wf (c_votes c6)) as [r Hr].
  { destruct Hwf6 as [_ Hw]. by rewrite Hst6 in Hw. }
  apply wp_bind, (lift_ret_wp _ _ _ _ _ _ Hr), wp_ret, HQ; eauto.
Qed.
End elections.

(** * Handlers

    [safe m f]: from [f], [m] returns or throws in a state that satisfies the
    invariant, and does not abort. *)

Definition safe `{raft_env} {A} (m : FSM A) (f : fsm) : Prop :=
  wp m (fun _ => fsm_wf) (fun _ => fsm_wf) (fun _ => False) f.

(** Terms and indexes are not about to wrap around. *)
Record room (f : fsm) : Prop := {
  rm_term : 0 <= f_current_term f;
  rm_next_term : f_current_term f + 1 < u64_modulus;
  rm_log : log_last (f_log f) + 2 < u64_modulus;
}.

Section handlers.
Context {env : raft_env}.
Implicit Types (f : fsm).

Lemma become_real_candidate_wp f t X B :
  fsm_wf f -> room f -> wp (become_real_candidate t) (fun _ => fsm_wf) X B f.
Proof.
  intros Hwf [Ht Hnt Hl]. apply wp_bind, campaign_wp; [done..|].
  intros r f1 Hwf1 _ Hlog1 _ _ Hr. apply wp_when; intros Hw; [|done].
  apply bool_decide_eq_true in Hw as ->. destruct Hr as [c Hc]; [done|].
  apply become_leader_wp; [by destruct Hwf1|unfold is_leader; by rewrite Hc|by rewrite Hlog1|].
  by intros f2 [].
Qed.

Lemma become_candidate_wp f p t X B :
  fsm_wf f -> room f -> wp (become_candidate p t) (fun _ => fsm_wf) X B f.
Proof.
  intros Hwf Hr. unfold become_candidate. destruct p; [|by apply become_real_candidate_wp].
  pose proof Hr as [Ht Hnt Hl]. apply wp_bind, campaign_wp; [done..|].
  intros r f1 Hwf1 _ Hlog1 _ Hterm1 _. apply wp_when; intros _; [|done].
  apply become_real_candidate_wp; [done|]. split; rewrite ?Hlog1, ?Hterm1; done.
Qed.

Lemma become_candidate_safe f p t : fsm_wf f -> room f -> safe (become_candidate p t) f.
Proof. apply become_candidate_wp. Qed.

Lemma inert_safe_send f g to m : fsm_wf g -> inert g f -> safe (send_to to m) f.
Proof.
  intros Hwf Hi. apply send_to_wp. intros f' Hi' _. eapply inert_wf; [done|]. by eapply inert_wf.
Qed.

Lemma send_to_safe f to m : fsm_wf f -> safe (send_to to m) f.
Proof. intros Hwf. by eapply inert_safe_send. Qed.

(** [request_vote] is called with a pre-vote or a request of the current term. *)
Lemma request_vote_safe f from r :
  fsm_wf f -> vreq_is_prevote r = true \/ f_current_term f = vreq_current_term r ->
  safe (request_vote from r) f.
Proof.
  intros Hwf Hpre. unfold request_vote. apply wp_bind, assert_that_wp.
  { destruct Hpre as [->| ->]; [done|]. by rewrite Z.eqb_refl, orb_true_r. }
  apply wp_bind, wp_gets. cbv zeta. case_match; [|by apply send_to_safe].
  apply wp_bind, wp_when; intros _; [|by apply send_to_safe].
  apply wp_bind, wp_modify, wp_modify. by apply send_to_safe.
Qed.

Lemma request_vote_reply_safe f from r c :
  fsm_wf f -> room f -> f_state f = Candidate c -> safe (request_vote_reply from r) f.
Proof.
  intros Hwf Hroom Hc. pose proof Hwf as [Hb Hst]. rewrite Hc in Hst.
  unfold request_vote_reply. apply wp_bind, assert_that_wp; [unfold is_candidate; by rewrite Hc|].
  apply wp_bind. eapply candidate_state_wp; [done|]. case_match; [by apply wp_ret|].
  apply wp_bind. eapply update_candidate_wp; [done|].
  set (c1 := MkCandidate _ _). assert (fsm_wf (set_state (Candidate c1) f)) as Hwf1.
  { split; [exact Hb|]. by apply votes_register_wf. }
  apply wp_bind. eapply candidate_state_wp; [done|].
  destruct (votes_tally_wf (c_votes c1)) as [res Hres]; [by apply votes_register_wf|].
  apply wp_bind, (lift_ret_wp _ _ _ _ _ _ Hres). destruct res; [done| |].
  - case_match; [apply become_candidate_safe; [done|by destruct Hroom]|].
    destruct Hroom. apply become_leader_wp; [exact Hb|done|done|]. by intros f2 [].
  - apply become_follower_wp; [done|by destruct Hb|]. by intros.
Qed.

Lemma wf_advance_commit f i :
  fsm_wf f -> wp (advance_commit_idx i) (fun _ f' => fsm_wf f' /\ f_log f' = f_log f /\
    f_state f' = f_state f /\ f_my_id f' = f_my_id f /\ f_current_term f' = f_current_term f /\
    f_messages f' = f_messages f /\ f_commit_idx f' = f_commit_idx f `max` (i `min` log_last (f_log f)))
    (fun _ _ => False) (fun _ => False) f.
Proof.
  intros Hwf. unfold advance_commit_idx. apply wp_bind, wp_gets. cbv zeta. pose proof Hwf as [[] _].
  rewrite last_idx_eq by done. apply wp_when; intros Hgt; [|by split_and!; [..|lia]].
  apply wp_bind, wp_modify, wp_modify. split_and!; try done; [|cbn; lia].
  apply (wf_set_commit f); [done|lia].
Qed.

(** A request a follower may receive: its entries are consecutive, and there is
    an index [c], the extent of what is committed in the cluster, below which
    the request agrees with the log, such that the log contains at most one
    configuration that is not committed, before and after. *)
Record valid_append (f : fsm) (r : append_request) : Prop := {
  va_prev : 0 <= areq_prev_log_idx r < u64_modulus;
  va_bound : areq_prev_log_idx r + Z.of_nat (length (areq_entries r)) + 1 < u64_modulus;
  va_consecutive : consecutive (areq_prev_log_idx r + 1) (areq_entries r);
  va_small : forall e c, e ∈ areq_entries r -> entry_configuration e = Some c -> config_small c;
  va_committed : exists c, f_commit_idx f <= c /\ conf_wf c (f_log f) /\
    (forall e e', e ∈ areq_entries r -> entry_at (f_log f) (e_idx e) = Some e' ->
      e_idx e <= c `max` snp_idx (l_snapshot (f_log f)) -> e_term e = e_term e') /\
    (forall cs i, conf_indexes_of (snp_idx (l_snapshot (f_log f)))
        (append_reference (l_first_idx (f_log f)) (l_log (f_log f)) (areq_entries r)) = cs ++ [i] ->
      Forall (fun j => j <= c) cs);
}.

(** The log after an accepted request. *)
Lemma append_log_spec f r :
  fsm_wf f -> valid_append f r -> areq_entries r <> [] -> areq_prev_log_idx r <= log_last (f_log f) ->
  exists l', maybe_append (f_log f) (areq_entries r) =
      Ret (areq_prev_log_idx r + Z.of_nat (length (areq_entries r)), l') /\
    l_log l' = append_reference (l_first_idx (f_log f)) (l_log (f_log f)) (areq_entries r) /\
    same_base (f_log f) l' /\
    areq_prev_log_idx r + Z.of_nat (length (areq_entries r)) <= log_last l' /\
    machine_wf (f_my_id f) (f_commit_idx f) l' (ob_commit_idx (f_observed f)) /\
    stable_kept (f_commit_idx f) (f_log f) l'.
Proof.
  intros [[] _] [Hp Hb Hcons Hsm (c & Hc & Hcw & Hnc & Hcom)] Hne Hlast. pose proof mw_log as [].
  destruct (maybe_append_spec c (f_log f) (areq_entries r) (areq_prev_log_idx r + 1))
    as (l' & Hl' & Hbase & Hwf' & Hc' & Hlog & _ & Hterms & Hkeep & Hkept); [done..|lia|lia|done|done|].
  exists l'. replace (_ + 1 + _ - 1) with (areq_prev_log_idx r + Z.of_nat (length (areq_entries r))) in Hl' by lia.
  pose proof Hbase as (Hs & Hf & _). pose proof Hwf' as [].
  assert (forall i, l_first_idx l' <= i -> is_Some (entry_at l' i) -> i <= log_last l') as Hin.
  { intros i _ Hi%entry_at_is_Some. lia. }
  split_and!; [done|done|done| | |by eapply stable_kept_mono].
  - destruct (snoc_cases (areq_entries r)) as [?|(es & e & Hes)]; [done|].
    rewrite Hes in Hcons, Hterms |- *. apply consecutive_app in Hcons as [_ [He _]].
    rewrite length_app. simpl.
    destruct (decide (l_first_idx (f_log f) <= e_idx e)) as [Hfe|Hfe]; [|lia].
    specialize (Hterms e ltac:(set_solver) Hfe).
    assert (is_Some (entry_at l' (e_idx e))) as Hi by (destruct (entry_at l' (e_idx e)); [eauto|done]).
    apply Hin in Hi; lia.
  - split; try done; [by exists c| |].
    + split; [by rewrite Hs; destruct mw_small|]. intros e cfg He Hcfg. rewrite Hlog in He.
      apply elem_of_append_reference in He as [He|He]; [by eapply mw_small|by eapply Hsm].
    + rewrite Hs. split; [lia|].
      destruct (decide (l_first_idx (f_log f) <= f_commit_idx f)) as [Hfc|]; [|lia].
      assert (is_Some (entry_at (f_log f) (f_commit_idx f))) as Hi by (apply entry_at_is_Some; lia).
      apply Hin; [lia|]. rewrite Hkeep; [done|lia|done].
Qed.

(** The position before a request's entries agrees with the log. *)
Definition log_matches (l : log) (idx : index_t) (term : term_t) : Prop :=
  idx = 0 \/ idx < snp_idx (l_snapshot l) \/ term_at l idx = Some term.

Lemma log_matches_last l idx term :
  log_wf l -> log_matches l idx term -> idx <= log_last l.
Proof.
  intros [] [->|[?|Ht]]; [lia|lia|]. unfold term_at in Ht. case_decide; [lia|].
  destruct (entry_at l idx) as [e|] eqn:He; [|done].
  assert (is_Some (entry_at l idx)) as ?%entry_at_is_Some by eauto. lia.
Qed.

(** A follower's reaction to a request that fits its log. *)
Record append_done (f : fsm) (from : server_id) (r : append_request) (f' : fsm) : Prop := {
  ap_log : l_log (f_log f') =
    append_reference (l_first_idx (f_log f)) (l_log (f_log f)) (areq_entries r);
  ap_base : same_base (f_log f) (f_log f');
  ap_commit : f_commit_idx f' = f_commit_idx f `max`
    (areq_leader_commit_idx r `min` (areq_prev_log_idx r + Z.of_nat (length (areq_entries r))));
  ap_reply : f_messages f' = f_messages f ++ [(from, msg_append_reply
    (AppendReply (f_current_term f) (f_commit_idx f')
      (accepted_to (areq_prev_log_idx r + Z.of_nat (length (areq_entries r))))))];
  ap_stable : stable_kept (f_commit_idx f) (f_log f) (f_log f');
}.

(** And to one that does not. *)
Record append_refused (f : fsm) (from : server_id) (r : append_request) (f' : fsm) : Prop := {
  ar_same : inert f f';
  ar_reply : f_messages f' = f_messages f ++ [(from, msg_append_reply
    (AppendReply (f_current_term f) (f_commit_idx f)
      (rejected (Rejected (areq_prev_log_idx r) (log_last (f_log f))))))];
}.

Lemma append_entries_wp f from r Q X B :
  fsm_wf f -> is_follower f = true -> valid_append f r ->
  (forall f', fsm_wf f' -> log_matches (f_log f) (areq_prev_log_idx r) (areq_prev_log_term r) ->
    append_done f from r f' -> Q tt f') ->
  (forall f', ~ log_matches (f_log f) (areq_prev_log_idx r) (areq_prev_log_term r) ->
    append_refused f from r f' -> Q tt f') ->
  wp (append_entries from r) Q X B f.
Proof.
  intros Hwf Hfol Hr HQ HQ'. pose proof Hwf as [[] _]. pose proof Hr as [Hp _ _ _ _].
  unfold append_entries. apply wp_bind, assert_that_wp; [done|]. apply wp_bind, wp_gets.
  destruct (match_term_spec (f_log f) (areq_prev_log_idx r) (areq_prev_log_term r) mw_log Hp)
    as (b & t & Hmt & Hb).
  apply wp_bind, (lift_ret_wp _ _ _ _ _ _ Hmt). destruct b; cbn [negb].
  2: { apply send_to_wp. intros f' Hi Hm. rewrite last_idx_eq in Hm by done. apply HQ'; [|by split].
       by intros ?%Hb. }
  assert (log_matches (f_log f) (areq_prev_log_idx r) (areq_prev_log_term r)) as Hmatch by (by apply Hb).
  pose proof (log_matches_last _ _ _ mw_log Hmatch) as Hlast.
  set (last_new := areq_prev_log_idx r + Z.of_nat (length (areq_entries r))).
  assert (forall f1, fsm_wf f1 -> inert (set_log (f_log f1) f) f1 -> f_messages f1 = f_messages f ->
    last_new <= log_last (f_log f1) -> same_base (f_log f) (f_log f1) -> stable_kept (f_commit_idx f) (f_log f) (f_log f1) ->
    l_log (f_log f1) = append_reference (l_first_idx (f_log f)) (l_log (f_log f)) (areq_entries r) ->
    wp (advance_commit_idx (areq_leader_commit_idx r `min` last_new) ;;
      f ← gets (fun f => f);
      send_to from (msg_append_reply (AppendReply (f_current_term f) (f_commit_idx f) (accepted_to last_new))))
      Q X B f1) as Hend.
  { intros f1 Hwf1 [Hs1 Hst1] Hm1 Hlast1 Hbase1 Hkept1 Hlog1. apply wp_bind.
    eapply wp_mono; [by apply wf_advance_commit| |done|done].
    intros [] f2 (Hwf2 & Hlog2 & _ & _ & Hterm2 & Hm2 & Hcom2). apply wp_bind, wp_gets, send_to_wp.
    intros f3 Hi3 Hm3. pose proof (inert_wf _ _ Hi3 Hwf2). destruct Hi3 as [[] _], Hs1. cbn in *.
    apply HQ; [done|done|]. unfold last_new in *. split; [congruence|by rewrite sm_log, Hlog2|lia|..].
    - by rewrite Hm3, Hm2, Hm1, Hterm2, sm_term0, sm_commit.
    - by rewrite sm_log, Hlog2. }
  assert (last_new = areq_prev_log_idx r + Z.of_nat (length (areq_entries r))) as Hdef by done.
  clearbody last_new. apply wp_bind. destruct (areq_entries r) as [|e es] eqn:Hes.
  - assert (areq_prev_log_idx r = last_new) as Hln by (simpl in Hdef; lia).
    apply wp_ret. rewrite Hln. apply Hend; try done; [lia|apply stable_kept_refl].
  - rewrite <- Hes in *.
    destruct (append_log_spec f r) as (l' & Hl' & Hlog' & Hbase' & Hlast' & Hwf' & Hkept'); [done|done|by rewrite Hes|done|].
    rewrite <- Hdef in *.
    apply wp_bind, (lift_ret_wp _ _ _ _ _ _ Hl'), wp_bind, wp_modify, wp_ret, Hend; try done.
    split; [exact Hwf'|]. destruct Hwf as [_ Hst]. unfold is_follower in Hfol. cbn.
    by destruct (f_state f).
Qed.

Lemma is_leader_state f : is_leader f = true -> exists l, f_state f = Leader l.
Proof. unfold is_leader. destruct (f_state f); [done|done|eauto]. Qed.

Lemma replicate_again_safe f from : fsm_wf f -> is_leader f = true -> safe (replicate_again from) f.
Proof.
  intros Hwf [l Hl]%is_leader_state. unfold replicate_again. wp_leader.
  unfold tracker_find. destruct (t_progress (ld_tracker l) !! from) as [p|] eqn:Hp; [|by apply wp_ret].
  eapply replicate_to_wp; [done..|]. by intros f' p' ms [Hwf' _] _ _ _.
Qed.

(** A reply to a request of this leader. *)
Definition valid_reply (f : fsm) (r : append_reply) : Prop :=
  match arep_result r with
  | accepted_to i => 0 <= i <= log_last (f_log f)
  | rejected rej => 0 <= rej_non_matching_idx rej <= log_last (f_log f) /\
      0 <= rej_last_idx rej < u64_modulus - 1
  end.

Lemma progress_ok_accepted n p i :
  progress_ok n p -> 0 <= i <= n -> n + 1 < u64_modulus -> progress_ok n (become_pipeline (accepted p i)).
Proof.
  intros [] Hi Hb. unfold become_pipeline. destruct (fp_state (accepted p i));
    split; simpl; rewrite ?u64_add_small by lia; unfold max_in_flight in *; lia.
Qed.

Lemma append_accepted_safe f l from p i :
  fsm_wf f -> room f -> f_state f = Leader l -> t_progress (ld_tracker l) !! from = Some p ->
  0 <= i <= log_last (f_log f) -> safe (append_accepted from p i) f.
Proof.
  intros Hwf Hroom Hl Hp Hi. pose proof (wf_leader f l Hwf Hl) as [Ht _ _ Hok].
  unfold append_accepted. cbv zeta. apply wp_bind.
  eapply update_progress_wp; [done|done|done| | |].
  { pose proof (tw_ids _ Ht _ _ Hp). unfold become_pipeline. by destruct (fp_state (accepted p i)). }
  { apply progress_ok_accepted; [by eapply Hok|done|]. destruct Hroom. lia. }
  intros f1 Hwf1 Hlead1 _ Hst1. wp_leader. apply wp_bind, wp_gets, wp_bind.
  apply (wp_mono _ (fun _ f2 => fsm_wf f2 /\ f_log f2 = f_log f) _ (fun _ => fsm_wf) _ (fun _ => False)); [| |done|done].
  { destruct Hlead1 as [[] _]. apply wp_when; intros _; [|done].
    eapply send_timeout_now_wp; [done..|]. intros f2 [Hwf2 [] _]. split; [done|congruence]. }
  intros [] f2 [Hwf2 Hlog2]. apply wp_bind, wp_gets. destruct (is_leader f2) eqn:Hlead2; [|by apply wp_ret].
  destruct (is_leader_state f2 Hlead2) as [l2 Hl2]. cbn [negb]. apply wp_bind.
  eapply maybe_commit_wp; [done|done|rewrite Hlog2; by destruct Hroom|].
  intros f3 [[] _]. apply wp_bind, wp_gets. destruct (is_leader f3) eqn:Hlead3; [|by apply wp_ret].
  by apply replicate_again_safe.
Qed.

Lemma append_rejected_safe f l from p r :
  fsm_wf f -> f_state f = Leader l -> t_progress (ld_tracker l) !! from = Some p ->
  0 <= rej_non_matching_idx r <= log_last (f_log f) -> 0 <= rej_last_idx r < u64_modulus - 1 ->
  safe (append_rejected from p r) f.
Proof.
  intros Hwf Hl Hp Hnm Hlast. pose proof (wf_leader f l Hwf Hl) as [Ht _ _ Hok].
  unfold append_rejected. destruct (_ && _).
  { eapply replicate_to_wp; [done..|]. by intros f' p' ms [Hwf' _] _ _ _. }
  destruct (is_stray_reject p r) eqn:Hstray; [by apply wp_ret|]. cbv zeta.
  destruct (Hok _ _ Hp) as [Hm Hn Hif].
  assert (fp_match_idx p < rej_non_matching_idx r `min` (rej_last_idx r +! 1)) as Hlt.
  { rewrite u64_add_small by lia. unfold is_stray_reject in Hstray.
    destruct (Z.leb_spec (rej_non_matching_idx r) (fp_match_idx p)); [done|].
    destruct (Z.ltb_spec (rej_last_idx r) (fp_match_idx p)); [done|]. lia. }
  apply wp_bind. eapply update_progress_wp; [done|done|done|exact (tw_ids _ Ht _ _ Hp)| |].
  { rewrite u64_add_small in * by lia. split; simpl; lia. }
  intros f1 Hwf1 Hlead1 _ Hst1. apply wp_bind. simpl. eapply lift_ret_wp.
  { unfold check. rewrite (proj2 (Z.ltb_lt _ _) Hlt). done. }
  apply replicate_again_safe; [done|]. by eapply leading_is_leader.
Qed.

Lemma append_entries_reply_safe f l from r :
  fsm_wf f -> room f -> f_state f = Leader l -> valid_reply f r -> safe (append_entries_reply from r) f.
Proof.
  intros Hwf Hroom Hl Hr. pose proof (wf_leader f l Hwf Hl) as [Ht _ _ Hok].
  unfold append_entries_reply. apply wp_bind, assert_that_wp; [unfold is_leader; by rewrite Hl|].
  wp_leader. unfold tracker_find. destruct (t_progress (ld_tracker l) !! from) as [p|] eqn:Hp; [|by apply wp_ret].
  cbv zeta. set (p1 := if _ && _ then _ else p).
  assert (fp_id p1 = from /\ progress_ok (log_last (f_log f)) p1) as [Hid1 Hok1].
  { pose proof (tw_ids _ Ht _ _ Hp). pose proof (Hok _ _ Hp) as Hokp. unfold p1.
    destruct (_ && _) eqn:Hdec; [|done]. split; [done|]. destruct Hokp. split; simpl; try done.
    apply andb_true_iff in Hdec as [_ H0%negb_true_iff%Z.eqb_neq].
    unfold max_in_flight in *. rewrite u64_sub_small by (unfold u64_modulus; lia). lia. }
  apply wp_bind. eapply update_progress_wp; [done..|]. intros f1 Hwf1 Hlead1 _ Hst1.
  case_bool_decide; [by apply wp_ret|].
  assert (t_progress (tracker_update (ld_tracker l) from p1) !! from = Some p1) as Hp1 by apply lookup_insert_eq.
  pose proof Hlead1 as [[] _].
  apply wp_bind. eapply update_progress_wp; [done|done|exact Hp1|done| |].
  { rewrite sm_log. destruct Hok1. by split. }
  intros f2 Hwf2 Hlead2 _ Hst2. pose proof Hlead2 as [[] _].
  assert (room f2) as Hroom2 by (destruct Hroom; split; congruence).
  unfold valid_reply in Hr. destruct (arep_result r) as [rej|i].
  - eapply append_rejected_safe; [done|exact Hst2|apply lookup_insert_eq|rewrite sm_log0, sm_log; by destruct Hr|by destruct Hr].
  - eapply append_accepted_safe; [done|done|exact Hst2|apply lookup_insert_eq|by rewrite sm_log0, sm_log].
Qed.

Lemma install_snapshot_reply_safe f l from r :
  fsm_wf f -> f_state f = Leader l -> safe (install_snapshot_reply from r) f.
Proof.
  intros Hwf Hl. pose proof (wf_leader f l Hwf Hl) as [Ht _ _ Hok]. unfold install_snapshot_reply.
  wp_leader. unfold tracker_find. destruct (t_progress (ld_tracker l) !! from) as [p|] eqn:Hp; [|by apply wp_ret].
  case_bool_decide; [|by apply wp_ret]. cbn [negb]. apply wp_bind.
  eapply update_progress_wp; [done|done|done|exact (tw_ids _ Ht _ _ Hp)| |].
  { destruct (Hok _ _ Hp). by split. }
  intros f1 Hwf1 Hlead1 _ Hst1. apply wp_when; intros _; [|done].
  eapply replicate_to_wp; [done|exact Hst1|apply lookup_insert_eq|]. by intros f' p' ms [Hwf' _] _ _ _.
Qed.
End handlers.

(** * Snapshots *)

Section snapshots.
Context {env : raft_env}.
Implicit Types (f : fsm).

Lemma snapshot_applied_last l snp me mb u l' :
  log_wf l -> log_wf l' -> snapshot_applied l snp me mb u l' ->
  snp_idx (l_snapshot l) < snp_idx snp -> snp_idx snp <= log_last l -> log_last l' = log_last l.
Proof.
  intros [] [] [] Hlt Hle. rewrite sa_snapshot in *. destruct (Z.le_gt_cases (log_last l') (log_last l)).
  - destruct (Z.le_gt_cases (log_last l) (snp_idx snp)); [lia|].
    assert (is_Some (entry_at l' (log_last l))) as ?%entry_at_is_Some; [|lia].
    rewrite sa_kept by lia. apply entry_at_is_Some. lia.
  - assert (is_Some (entry_at l (log_last l'))) as ?%entry_at_is_Some; [|lia].
    rewrite <- sa_kept by (unfold log_last in *; lia). apply entry_at_is_Some. unfold log_last in *. lia.
Qed.

Lemma snapshot_applied_commit l snp me mb u l' i :
  log_wf l -> log_wf l' -> snapshot_applied l snp me mb u l' ->
  snp_idx (l_snapshot l) < snp_idx snp -> i <= log_last l -> i `max` snp_idx snp <= log_last l'.
Proof.
  intros Hwf Hwf' Ha Hlt Hi. pose proof Hwf' as []. rewrite (sa_snapshot _ _ _ _ _ _ Ha) in *.
  destruct (Z.le_gt_cases (snp_idx snp) (log_last l)); [|lia].
  rewrite (snapshot_applied_last l snp me mb u l') by done. lia.
Qed.

(** A snapshot with the right configuration does not change the configuration in
    force at later indexes. *)
Lemma snapshot_applied_effective l snp me mb u l' i :
  log_wf l -> log_wf l' -> snapshot_applied l snp me mb u l' ->
  snp_idx (l_snapshot l) < snp_idx snp -> snp_idx snp <= i <= log_last l ->
  snp_config snp = effective_configuration l (snp_idx snp) ->
  effective_configuration l' i = effective_configuration l i.
Proof.
  intros Hwf Hwf' Ha Hlt Hi Hcfg. pose proof (sa_snapshot _ _ _ _ _ _ Ha) as Hs.
  apply (effective_configuration_agree l l' (snp_idx snp)); [done|done|lia|by rewrite Hs| | |].
  - rewrite (snapshot_applied_last l snp me mb u l') by (done || lia). lia.
  - rewrite <- Hcfg. rewrite <- Hs at 1. rewrite effective_configuration_snapshot by done. by rewrite Hs.
  - intros k e Hk He. rewrite <- (sa_kept _ _ _ _ _ _ Ha); [done|]. pose proof (sa_first _ _ _ _ _ _ Ha). lia.
Qed.

Lemma snapshot_applied_configuration l snp me mb u l' :
  log_wf l -> log_wf l' -> snapshot_applied l snp me mb u l' ->
  snp_idx (l_snapshot l) < snp_idx snp -> snp_idx snp <= log_last l ->
  snp_config snp = effective_configuration l (snp_idx snp) ->
  active_configuration l' = active_configuration l.
Proof.
  intros Hwf Hwf' Ha Hlt Hle Hcfg. unfold active_configuration.
  rewrite (snapshot_applied_last l snp me mb u l') by done. by eapply snapshot_applied_effective.
Qed.

(** A snapshot the machine may be given. A local one covers entries that were
    reported as committed and holds the configuration of its index; a remote
    one comes to a follower. *)
Record valid_snapshot (f : fsm) (snp : snapshot_descriptor) (me mb : Z) (local : bool) : Prop := {
  vs_bound : 0 <= snp_idx snp < u64_modulus - 1;
  vs_trailing : 0 <= me /\ 0 <= mb;
  vs_small : config_small (snp_config snp);
  vs_origin : if local
    then snp_idx snp <= ob_commit_idx (f_observed f) /\
      (snp_idx (l_snapshot (f_log f)) < snp_idx snp ->
        snp_config snp = effective_configuration (f_log f) (snp_idx snp))
    else is_follower f = true;
}.

Lemma wf_apply_snapshot f snp me mb local u l' :
  fsm_wf f -> valid_snapshot f snp me mb local ->
  snp_idx (l_snapshot (f_log f)) < snp_idx snp -> log_wf l' ->
  (exists c, f_commit_idx f <= c /\ conf_wf c l') ->
  snapshot_applied (f_log f) snp me mb u l' ->
  machine_wf (f_my_id f) (f_commit_idx f `max` snp_idx snp) l' (ob_commit_idx (f_observed f)) /\
  state_wf (f_my_id f) l' (f_state f).
Proof.
  intros [[] Hst] [Hb _ Hsm Ho] Hlt Hwf' (c & Hc & Hcw) Ha. pose proof (sa_snapshot _ _ _ _ _ _ Ha) as Hs.
  split.
  - split; try done; [| | |lia].
    + exists (c `max` snp_idx snp). split; [lia|]. eapply conf_wf_mono; [exact Hcw|lia].
    + split; [by rewrite Hs|]. intros e cfg [k He]%list_elem_of_lookup Hcfg.
      destruct mw_small as [_ Hsmall].
      assert (entry_at l' (l_first_idx l' + Z.of_nat k) = Some e) as Hek.
      { unfold entry_at. apply at_z_Some. split; [lia|]. by replace (Z.to_nat _) with k by lia. }
      rewrite (sa_kept _ _ _ _ _ _ Ha) in Hek by lia. unfold entry_at in Hek.
      apply at_z_Some in Hek as [_ Hek]. eapply Hsmall; [by eapply list_elem_of_lookup_2|done].
    + rewrite Hs. pose proof (snapshot_applied_commit _ _ _ _ _ _ (f_commit_idx f) mw_log Hwf' Ha Hlt). lia.
  - destruct (f_state f) as [| |ld] eqn:Hf; [done|done|]. destruct local.
    2: { unfold is_follower in Ho. by rewrite Hf in Ho. }
    destruct Ho as [Ho Hcfg]. destruct Hst as [Ht Hcv Hpv Hok].
    assert (snp_idx snp <= log_last (f_log f)) as Hle by lia.
    split; [done|..]; rewrite ?(snapshot_applied_configuration _ _ _ _ _ _ mw_log Hwf' Ha Hlt Hle (Hcfg Hlt));
      [done|done|].
    by rewrite (snapshot_applied_last _ _ _ _ _ _ mw_log Hwf' Ha Hlt Hle).
Qed.

(** The outcome of [apply_snapshot]. *)
Record snapshot_taken (f : fsm) (snp : snapshot_descriptor) (me mb : Z) (local : bool) (f' : fsm) : Prop := {
  st_wf : fsm_wf f';
  st_fresh : snp_idx (l_snapshot (f_log f)) < snp_idx snp /\
    (local = false -> f_commit_idx f < snp_idx snp);
  st_log : exists released, snapshot_applied (f_log f) snp me mb released (f_log f');
  st_commit : f_commit_idx f' = f_commit_idx f `max` snp_idx snp;
  st_term : f_current_term f' = f_current_term f;
  st_dropped : o_snps_to_drop (f_output f') = o_snps_to_drop (f_output f) ++ [snp_id (l_snapshot (f_log f))];
  st_output : o_snp (f_output f') =
    Some (AppliedSnapshot snp local (snp_idx snp + 1 - l_first_idx (f_log f')));
  st_observed : f_observed f' = f_observed f;
}.

Record snapshot_ignored (f : fsm) (snp : snapshot_descriptor) (local : bool) (f' : fsm) : Prop := {
  si_inert : inert f f';
  si_stale : snp_idx snp <= snp_idx (l_snapshot (f_log f)) \/
    local = false /\ snp_idx snp <= f_commit_idx f;
  si_dropped : o_snps_to_drop (f_output f') = o_snps_to_drop (f_output f) ++ [snp_id snp];
  si_output : o_snp (f_output f') = o_snp (f_output f);
}.

Lemma apply_snapshot_wp f snp me mb local Q X B :
  fsm_wf f -> valid_snapshot f snp me mb local ->
  (forall f', snapshot_taken f snp me mb local f' -> Q true f') ->
  (forall f', snapshot_ignored f snp local f' -> Q false f') ->
  wp (apply_snapshot snp me mb local) Q X B f.
Proof.
  intros Hwf Hv HQ HQ'. unfold apply_snapshot. pose proof Hv as [Hb [Hme Hmb] _ Ho].
  apply wp_bind, assert_that_wp. { destruct local; cbn; [|done]. destruct Ho. lia. }
  apply wp_bind, wp_gets. cbv zeta.
  destruct (_ || _) eqn:Hstale.
  { apply wp_bind, wp_modify, wp_ret, HQ'. split; [done| |done|done]. destruct local; lia. }
  assert (snp_idx (l_snapshot (f_log f)) < snp_idx snp) as Hlt by lia.
  pose proof Hwf as [[] _]. destruct mw_conf as (c & Hc & Hcw).
  destruct (log_apply_snapshot_correct c (f_log f) snp me mb) as (u & l' & Hl' & Hwf' & Hcw' & Ha); [done..|lia|done|done|].
  destruct (wf_apply_snapshot f snp me mb local u l') as [Hbase' Hst']; [done..|by exists c|done|].
  apply wp_bind, wp_modify, wp_bind, wp_modify, wp_bind, (lift_ret_wp _ _ _ _ _ _ Hl').
  apply wp_bind, wp_modify, wp_bind, wp_modify, wp_bind.
  set (f1 := set_output (out_set_snp _ _) _).
  assert (fsm_wf f1) as Hwf1 by (by split).
  apply (wp_mono _ (fun _ f2 => fsm_wf f2 /\ same_machine f1 f2 /\ f_output f2 = f_output f1) _ X _ B); [| |done|done].
  { apply wp_when; intros Hl; [|done]. destruct (is_leader_state f Hl) as [ld Hld].
    eapply update_leader_wp; [exact Hld|]. split_and!; [|done|done].
    by apply (wf_leader_fields f1 ld (ld_set_semaphore (ld_log_limiter_semaphore ld + u) ld) Hwf1 Hld). }
  intros [] f2 (Hwf2 & Hs2 & Ho2). apply wp_bind, wp_modify, wp_ret, HQ.
  pose proof (sa_snapshot _ _ _ _ _ _ Ha) as Hs. destruct Hs2. cbn in sm_log, sm_commit, sm_term, sm_observed.
  split; try done.
  - split; [done|]. intros ->. lia.
  - exists u. cbn [f_log set_sm_events]. by rewrite sm_log.
  - cbn [f_output set_sm_events]. by rewrite Ho2.
  - cbn [f_output f_log set_sm_events]. rewrite Ho2, sm_log. cbn. rewrite Hs. pose proof Hwf' as [].
    pose proof (sa_first _ _ _ _ _ _ Ha). rewrite Hs in wf_snp_last, wf_first_snp. unfold log_last in *.
    rewrite u64_add_small, u64_sub_small by lia. done.
Qed.

Lemma apply_snapshot_safe f snp me mb local :
  fsm_wf f -> valid_snapshot f snp me mb local -> safe (apply_snapshot snp me mb local) f.
Proof.
  intros Hwf Hv. apply apply_snapshot_wp; [done|done|by intros f' []|].
  intros f' [Hi _ _ _]. by eapply inert_wf.
Qed.
End snapshots.
