(* ===== verification/RaftApi.v ===== *)
(** The interface of the state machine: [tick], [step], [get_output], the
    constructor and the calls of the client, each safe for valid inputs. *)
From S2P Require Import Prelude RaftTypes RaftLog RaftTracker RaftFsm RaftMonotone RaftReplication.
From S2P Require Import RaftInvariant RaftSafety.

(** * Time *)

Section ticks.
Context {env : raft_env}.
Implicit Types (f : fsm) (X : raft_error -> fsm -> Prop) (B : abort_reason -> Prop).

Lemma tick_progress_ok n p :
  progress_ok n p -> progress_ok n (tick_progress p).1 /\ fp_id (tick_progress p).1 = fp_id p.
Proof.
  intros []. unfold tick_progress. destruct (fp_state p); simpl.
  - by split; [split|].
  - destruct (Z.eqb_spec (fp_in_flight p) max_in_flight) as [Heq|]; [|by split; [split|]].
    split; [|done]. split; simpl; try done. rewrite Heq. unfold max_in_flight.
    rewrite u64_sub_small by (unfold u64_modulus; lia). lia.
  - by split; [split|].
Qed.

Lemma tick_followers_wp f l alive ids a g X B :
  f_state f = Leader l -> (forall id, id ∈ ids -> is_Some (t_progress (ld_tracker l) !! id)) ->
  leads f g -> wp (tick_followers alive ids a) (fun _ => leads f) X B g.
Proof.
  intros Hl. revert a g. induction ids as [|id ids IH]; intros a g Hids Hg; cbn [tick_followers];
    [by apply wp_ret|].
  assert (forall a g, leads f g -> wp (tick_followers alive ids a) (fun _ => leads f) X B g) as IH'.
  { intros. apply IH; [|done]. intros id' Hid'. apply Hids. by right. }
  destruct (leads_state f g Hg) as [lg Hlg]. pose proof Hg as [Hwfg Hleadg].
  destruct (leading_lookup f g l lg id Hleadg Hl Hlg) as [p Hp]; [apply Hids; by left|].
  pose proof (wf_leader g lg Hwfg Hlg) as [Ht _ _ Hok].
  wp_leader. apply wp_bind, (lift_ret_wp _ p). { unfold tracker_find. by rewrite Hp. }
  apply wp_bind, wp_gets. destruct (fp_id p =? f_my_id g)%N; [by apply IH'|].
  destruct (tick_progress_ok _ p (Hok _ _ Hp)) as [Hok' Hid'].
  destruct (tick_progress p) as [p' proceed]. simpl in Hok', Hid'.
  apply wp_bind. eapply update_progress_wp; [done..|by rewrite Hid', (tw_ids _ Ht _ _ Hp)|done|].
  intros g1 Hwf1 Hlead1 _ Hst1. assert (leads f g1) as Hg1 by (by eapply leads_trans).
  apply wp_bind, (wp_mono _ (fun _ => leads f) _ X _ B); [|intros [] g2; apply IH'|done|done].
  apply wp_when; intros _; [|done].
  eapply replicate_to_wp; [done|exact Hst1|apply lookup_insert_eq|].
  intros g2 p2 ms [Hwf2 Hlead2] _ _ _. by eapply leads_trans.
Qed.

Lemma tick_stepdown_safe f l : fsm_wf f -> f_state f = Leader l -> safe tick_stepdown f.
Proof.
  intros Hwf Hl. unfold tick_stepdown. apply wp_bind, wp_gets. wp_leader.
  destruct (ld_stepdown l); [|by apply wp_ret].
  destruct (is_removed_leader f l); [by apply wp_ret|].
  destruct (_ <=? _).
  - do 3 (apply wp_bind; eapply update_leader_wp; [done|]). leader_fields Hwf Hl Hwf' Hlead'.
    apply wp_bind, wp_modify, wp_modify. exact Hwf'.
  - destruct (ld_timeout_now_sent l); [by apply send_to_safe|by apply wp_ret].
Qed.

Lemma tick_leader_safe f l alive : fsm_wf f -> f_state f = Leader l -> safe (tick_leader alive) f.
Proof.
  intros Hwf Hl. unfold tick_leader. apply wp_bind, wp_gets. destruct (_ >=? _).
  { apply become_follower_wp; [done|by destruct Hwf as [[]]|done]. }
  wp_leader. cbv zeta. apply wp_bind.
  eapply wp_mono; [apply (tick_followers_wp f l _ _ _ _ (fun _ => fsm_wf) (fun _ => False));
    [done|apply tracker_ids_lookup|by eapply leads_refl]| |done|done].
  cbn beta. intros a f1 Hf1. destruct (leads_state _ _ Hf1) as [l1 Hl1]. wp_leader.
  apply wp_bind, (wp_mono _ (fun _ => leads f) _ (fun _ => fsm_wf) _ (fun _ => False)); [| |done|done].
  { apply wp_when; intros _; [|done]. eapply broadcast_read_quorum_wp; [by destruct Hf1|done|].
    intros f2 [Hwf2 Hlead2]. by eapply leads_trans. }
  intros [] f2 Hf2. destruct (leads_state _ _ Hf2) as [l2 Hl2]. wp_leader. destruct Hf2 as [Hwf2 _].
  apply wp_bind, wp_when; intros _; [apply wp_modify|]; by eapply tick_stepdown_safe.
Qed.

Lemma search_leader_safe f alive : fsm_wf f -> safe (search_leader alive) f.
Proof.
  intros Hwf. unfold search_leader. apply wp_bind, wp_gets, wp_when; intros _; [|done].
  apply wp_bind, (lift_ret_wp _ _ _ _ _ _ (get_configuration_wp f ltac:(by destruct Hwf))).
  apply wp_when; intros _; [|done].
  apply wp_for_each; [|done]. intros [id m] f1 _ Hwf1. apply wp_when; intros _; [|done].
  by apply send_to_safe.
Qed.

Lemma tick_safe f alive : fsm_wf f -> room f -> safe (tick alive) f.
Proof.
  intros Hwf Hroom. unfold tick. apply wp_bind, wp_modify. set (f0 := set_clock _ f).
  assert (fsm_wf f0) as Hwf0 by exact Hwf. assert (room f0) as Hroom0 by (by destruct Hroom).
  apply wp_bind, wp_gets, wp_bind.
  apply (wp_mono _ (fun _ => fsm_wf) _ (fun _ => fsm_wf) _ (fun _ => False)); [|intros [] f1; apply search_leader_safe|done|done].
  destruct (is_leader f0) eqn:Hl.
  { destruct (is_leader_state f0 Hl) as [l Hl0]. by eapply tick_leader_safe. }
  unfold has_stable_leader. apply wp_bind, wp_bind, wp_gets.
  apply wp_bind, (lift_ret_wp _ _ _ _ _ _ (get_configuration_wp f0 ltac:(by destruct Hwf0))), wp_ret.
  destruct (_ && _); [by apply wp_modify|].
  apply wp_when; intros _; [by apply become_candidate_safe|done].
Qed.
End ticks.

(** * Messages *)

(** What a message that arrives may contain. *)
Definition valid_message `{raft_env} (f : fsm) (msg : rpc_message) : Prop :=
  0 <= msg_current_term msg < u64_modulus - 1 /\
  match msg with
  | msg_append_request r => valid_append f r
  | msg_append_reply r => valid_reply f r
  | msg_install_snapshot m =>
    0 <= snp_idx (inst_snp m) < u64_modulus - 1 /\ config_small (snp_config (inst_snp m))
  | _ => True
  end.

Section messages.
Context {env : raft_env}.
Implicit Types (f : fsm).

Lemma step_state_safe f from msg :
  fsm_wf f -> room f -> valid_message f msg ->
  (forall m, msg = msg_vote_request m -> vreq_is_prevote m = true \/ f_current_term f = vreq_current_term m) ->
  safe (step_state from msg) f.
Proof.
  intros Hwf Hroom [_ Hv] Hvote. unfold step_state. apply wp_bind, wp_gets.
  destruct (f_state f) as [x|c|l] eqn:Hst.
  - destruct msg; cbn [step_follower]; try (by apply wp_ret).
    + apply append_entries_wp; [done|unfold is_follower; by rewrite Hst|done|by intros|].
      intros f' _ [Hi _]. by eapply inert_wf.
    + apply request_vote_safe; [done|by apply Hvote].
    + apply wp_bind, wp_gets, wp_bind. destruct Hv as [Hb Hsm].
      eapply wp_mono; [apply apply_snapshot_safe; [done|]|intros ok f1 Hwf1; by apply send_to_safe|done|done].
      split; [done|lia|done|]. unfold is_follower. by rewrite Hst.
    + by apply become_candidate_safe.
    + apply wp_bind. eapply wp_mono; [by apply wf_advance_commit| |done|done].
      intros [] f1 (Hwf1 & _). apply wp_bind, wp_gets. by apply send_to_safe.
  - destruct msg; cbn [step_candidate]; try (by apply wp_ret).
    + apply request_vote_safe; [done|by apply Hvote].
    + by eapply request_vote_reply_safe.
    + apply wp_bind, wp_gets. by apply send_to_safe.
  - destruct msg; cbn [step_leader]; try (by apply wp_ret).
    + by eapply append_entries_reply_safe.
    + apply request_vote_safe; [done|by apply Hvote].
    + apply wp_bind, wp_gets. by apply send_to_safe.
    + by eapply install_snapshot_reply_safe.
    + eapply handle_read_quorum_reply_wp; [done..|]. by intros f' [].
Qed.

(** Taking over a higher term. *)
Lemma adopt_term_wp f from term Q X B :
  fsm_wf f -> from <> f_my_id f -> f_current_term f < term ->
  (forall f', fsm_wf f' -> f_current_term f' = term -> f_log f' = f_log f ->
    f_commit_idx f' = f_commit_idx f -> f_state f' = Follower from -> Q tt f') ->
  wp (become_follower from ;; update_current_term term) Q X B f.
Proof.
  intros Hwf Hfrom Hlt HQ. apply wp_bind, become_follower_wp; [done..|].
  intros f1 Hwf1 [] Hst1 _. unfold update_current_term.
  apply wp_bind, assert_that_wp; [rewrite sm_term; lia|]. apply wp_bind, wp_modify, wp_modify, HQ; done.
Qed.

(** Validity of a message depends only on the log and the commit index. *)
Lemma valid_message_same f f' msg :
  f_log f' = f_log f -> f_commit_idx f' = f_commit_idx f -> valid_message f msg -> valid_message f' msg.
Proof.
  intros Hlog Hcom [Ht Hv]. split; [done|]. destruct msg; [|by unfold valid_reply in *; rewrite Hlog|done..].
  destruct Hv. split; [done..|]. by rewrite Hlog, Hcom.
Qed.

(** Recognising the leader of the current term. *)
Lemma step_same_term_wp f from msg B :
  fsm_wf f -> from <> f_my_id f ->
  wp (step_same_term from msg) (fun _ f' => fsm_wf f' /\ same_machine f f') (fun _ => fsm_wf) B f.
Proof.
  intros Hwf Hself. unfold step_same_term. apply wp_bind, wp_gets, wp_when; intros _; [|done]. apply wp_bind.
  apply (wp_mono _ (fun _ f1 => fsm_wf f1 /\ same_machine f f1) _ (fun _ => fsm_wf) _ B);
    [|by intros [] f1 [Hwf1 []]; apply wp_modify|done|done].
  destruct (is_candidate f).
  { apply become_follower_wp; [done..|]. by intros. }
  apply wp_when; intros Hno; [|done].
  destruct (f_state f) as [x|c|l] eqn:Hst; [|by apply wp_bind, wp_throw..].
  apply wp_bind, wp_modify, wp_modify. split; [|done]. by apply (wf_set_follower f from).
Qed.

(** A message of a higher term. *)
Lemma step_higher_term_safe f from msg :
  fsm_wf f -> room f -> from <> f_my_id f -> valid_message f msg ->
  f_current_term f < msg_current_term msg ->
  safe (when (negb (ignore_term msg))
    (become_follower (if from_leader msg then from else no_id) ;;
     update_current_term (msg_current_term msg)) ;; step_state from msg) f.
Proof.
  intros Hwf Hroom Hself Hv Hgt. pose proof (proj1 Hv) as Hterm. apply wp_bind, wp_when; intros Hig.
  - apply adopt_term_wp; [done| |done|].
    { destruct (from_leader msg); [done|]. by destruct Hwf as [[]]. }
    intros f1 Hwf1 Hterm1 Hlog1 Hcom1 _. apply step_state_safe; [done| |by eapply valid_message_same|].
    + destruct Hroom. split; rewrite ?Hlog1; lia.
    + intros m ->. right. done.
  - apply step_state_safe; [done..|]. intros m ->. left. by apply negb_false_iff in Hig.
Qed.

Lemma step_safe f from msg :
  fsm_wf f -> room f -> valid_message f msg -> safe (step from msg) f.
Proof.
  intros Hwf Hroom Hv. unfold step. apply wp_bind, wp_gets.
  destruct (N.eqb_spec from (f_my_id f)) as [|Hself]; [by apply wp_throw|].
  destruct (Z.gtb_spec (msg_current_term msg) (f_current_term f)) as [Hgt|Hle].
  - pose proof (step_higher_term_safe f from msg Hwf Hroom Hself Hv Hgt) as Hmain.
    destruct msg; try exact Hmain. by apply wp_ret.
  - destruct (Z.ltb_spec (msg_current_term msg) (f_current_term f)) as [Hlt|Hge].
    + unfold step_lower_term. apply wp_bind, wp_gets. destruct msg; try (by apply wp_ret); try (by apply send_to_safe).
      apply wp_when; intros _; [by apply send_to_safe|done].
    + apply wp_bind. eapply wp_mono; [by apply (step_same_term_wp f from msg (fun _ => False))| |done|done].
      intros [] f1 (Hwf1 & []). apply step_state_safe; [done| |by eapply valid_message_same|].
      * destruct Hroom. split; rewrite ?sm_log, ?sm_term; done.
      * intros m ->. right. simpl in *. lia.
Qed.
End messages.

(** * Output *)

(** What stays pending while a leader sends: the messages, and the parts of the
    next output that sending does not touch. *)
Record pending (f f' : fsm) : Prop := {
  pd_messages : f_messages f `prefix_of` f_messages f';
  pd_abort : f_abort_leadership_transfer f' = f_abort_leadership_transfer f;
  pd_snp : o_snp (f_output f') = o_snp (f_output f);
  pd_drop : o_snps_to_drop (f_output f') = o_snps_to_drop (f_output f);
  pd_changed : o_state_changed (f_output f') = o_state_changed (f_output f);
}.

#[export] Instance pending_preorder : PreOrder pending.
Proof.
  split; [by intros f; split|]. intros f g h [] []. split; [|congruence..]. by etransitivity.
Qed.

Section output.
Context {env : raft_env}.
Implicit Types (f : fsm) (X : raft_error -> fsm -> Prop) (B : abort_reason -> Prop).

Hint Extern 1 (keeps pending (modify _)) => apply keeps_modify; solve [intros; by split] : keeps.

Lemma send_to_pending to m : keeps pending (send_to to m).
Proof.
  unfold send_to, signal. keeps_auto. apply keeps_modify. intros f. split; [|done..].
  cbn. by apply prefix_app_r.
Qed.
Lemma leader_state_pending : keeps pending leader_state.
Proof. unfold leader_state. keeps_auto. Qed.
Hint Resolve send_to_pending leader_state_pending : keeps.
Lemma update_leader_pending g : keeps pending (update_leader g).
Proof. unfold update_leader. keeps_auto. Qed.
Hint Resolve update_leader_pending : keeps.

Lemma flush_leader_pending d : keeps pending (flush_leader d).
Proof.
  assert (forall from r, keeps pending (handle_read_quorum_reply from r)) as Hh.
  { intros. unfold handle_read_quorum_reply, update_progress, assert_that, signal. keeps_auto. }
  assert (forall id e, keeps pending (replicate_to id e)) as Hr.
  { intros. unfold replicate_to, update_progress. keeps_auto. }
  unfold flush_leader, broadcast_read_quorum, replicate, assert_that. keeps_auto; auto.
Qed.

Lemma flush_leader_wp f d Q X B :
  fsm_wf f -> (forall f', fsm_wf f' -> same_machine f f' -> Q tt f') -> wp (flush_leader d) Q X B f.
Proof.
  intros Hwf HQ. unfold flush_leader. apply wp_bind, wp_gets.
  destruct (f_state f) as [| |l] eqn:Hl; [by apply wp_ret, HQ..|].
  apply wp_bind, (wp_mono _ (fun _ => leads f) _ X _ B); [| |done|done].
  - apply wp_when; intros _; [|by eapply leads_refl]. apply wp_bind.
    eapply broadcast_read_quorum_wp; [done..|]. intros f1 Hf1.
    destruct (leads_state _ _ Hf1) as [l1 Hl1]. eapply update_leader_wp; [done|].
    edestruct (wf_leader_fields f1 l1) as [Hwf2 Hlead2]; [by destruct Hf1|done| |by eapply leads_trans]. done.
  - intros [] f1 Hf1. destruct (leads_state _ _ Hf1) as [l1 Hl1].
    destruct Hf1 as [Hwf1 Hlead1]. apply wp_when; intros _; [|by apply HQ; [|destruct Hlead1]].
    eapply replicate_wp; [done..|]. intros f2 [Hwf2 Hlead2]. apply HQ; [done|].
    destruct Hlead1, Hlead2. by etransitivity.
Qed.

(** The entries between two indexes of the log. *)
Lemma log_entries_between_spec l lo hi :
  log_wf l -> l_first_idx l <= lo -> hi <= log_last l ->
  exists es, log_entries_between l lo hi = Ret es /\ segment l lo es /\
    length es = Z.to_nat (hi - lo + 1).
Proof.
  intros Hwf. unfold log_entries_between. remember (Z.to_nat (hi - lo + 1)) as n eqn:Hn.
  revert lo Hn. induction n as [|n IH]; intros lo Hn Hlo Hhi.
  - rewrite seqZ_nil by lia. exists []. split_and!; [done|apply segment_nil|done].
  - rewrite seqZ_cons by lia. cbn [mapM].
    destruct (log_at_spec l lo Hwf) as (e & -> & He); [lia|].
    destruct (IH (lo + 1)) as (es & Hes & Hseg & Hlen); [lia|lia|done|].
    replace (Z.pred (hi - lo + 1)) with (hi - (lo + 1) + 1) by lia. rewrite <- Z.add_1_r.
    exists (e :: es). cbn. rewrite Hes. cbn. split_and!; [done|by apply segment_cons|by rewrite Hlen].
Qed.

Definition with_stable (l : log) (i : index_t) : log :=
  Log (l_snapshot l) (l_log l) (l_max_command_size l) (l_first_idx l) i
    (l_last_conf_idx l) (l_prev_conf_idx l) (l_memory_usage l).

Lemma with_stable_id l i : i = l_stable_idx l -> with_stable l i = l.
Proof. intros ->. by destruct l. Qed.

Lemma wf_with_stable f i :
  fsm_wf f -> snp_idx (l_snapshot (f_log f)) <= i <= log_last (f_log f) ->
  fsm_wf (set_log (with_stable (f_log f) i) f).
Proof.
  intros [[Hid Hlog (c & Hc & Hcw) Hsm Hcom Hob] Hst] Hi. split.
  - split; [exact Hid| | |exact Hsm|exact Hcom|exact Hob].
    + destruct Hlog. by split.
    + exists c. split; [done|]. destruct Hcw. by split.
  - cbn. destruct (f_state f); [done|done|]. destruct Hst. by split.
Qed.

(** What [advance_stable_idx] does: the entries up to [i] are stable, and a
    leader may commit more. *)
Record stabilised (f : fsm) (i : index_t) (f' : fsm) : Prop := {
  sb_wf : fsm_wf f';
  sb_id : f_my_id f' = f_my_id f;
  sb_term : f_current_term f' = f_current_term f;
  sb_vote : f_voted_for f' = f_voted_for f;
  sb_observed : f_observed f' = f_observed f;
  sb_commit : f_commit_idx f <= f_commit_idx f';
  sb_log : log_extends (with_stable (f_log f) i) (f_log f');
}.

Lemma advance_stable_idx_wp f i Q X B :
  fsm_wf f -> log_last (f_log f) + 2 < u64_modulus ->
  snp_idx (l_snapshot (f_log f)) <= i <= log_last (f_log f) ->
  (forall f', stabilised f i f' -> Q tt f') -> wp (advance_stable_idx i) Q X B f.
Proof.
  intros Hwf Hroom Hi HQ. pose proof Hwf as [[] _]. unfold advance_stable_idx. apply wp_bind, wp_gets.
  apply wp_bind, (lift_ret_wp _ (with_stable (f_log f) i)).
  { unfold stable_to. rewrite last_idx_eq by done. by zbool. }
  pose proof (wf_with_stable f i Hwf Hi) as Hwf1. apply wp_bind, wp_modify.
  assert (stabilised f i (set_log (with_stable (f_log f) i) f)) as Hst1 by (split; try done; reflexivity).
  destruct (f_state f) as [| |l] eqn:Hl; [by apply wp_ret, HQ..|].
  unfold tracker_find. destruct (t_progress (ld_tracker l) !! f_my_id f) as [p|] eqn:Hp; [|by apply wp_ret, HQ].
  destruct (wf_leader _ l Hwf1 Hl) as [Ht _ _ Hok]. apply wp_bind.
  eapply update_progress_wp; [done|exact Hl|exact Hp|exact (tw_ids _ Ht _ _ Hp)| |].
  { pose proof (Hok _ _ Hp) as [? Hn ?]. cbn [f_log set_log with_stable log_last] in *.
    change (log_last (with_stable (f_log f) i)) with (log_last (f_log f)) in *.
    destruct mw_log. split; simpl; rewrite ?u64_add_small by lia; lia. }
  intros f2 Hwf2 [[] _] _ Hst2. cbn [f_log set_log] in sm_log.
  eapply maybe_commit_wp; [done|done| |].
  { by rewrite sm_log. }
  intros f3 [[] _]. apply HQ. cbn in sm_id, sm_term, sm_vote, sm_commit, sm_observed.
  split; [done|congruence..|lia|]. by rewrite sm_log in ad_log.
Qed.

Lemma output_log_entries_spec f :
  base_wf f -> exists es,
    output_log_entries f (log_last (f_log f) - l_stable_idx (f_log f)) = Ret es /\
    segment (f_log f) (l_stable_idx (f_log f) + 1) es /\
    Z.of_nat (length es) = log_last (f_log f) - l_stable_idx (f_log f).
Proof.
  intros []. pose proof mw_log as []. unfold output_log_entries.
  rewrite last_idx_eq, u64_add_small by (done || lia).
  destruct (log_entries_between_spec (f_log f) (l_stable_idx (f_log f) + 1) (log_last (f_log f)))
    as (es & Hes & Hseg & Hlen); [done|lia|lia|].
  exists es. split_and!; [|done|lia]. destruct (Z.gtb_spec (log_last (f_log f) - l_stable_idx (f_log f)) 0); [done|].
  destruct es; [done|]. simpl in Hlen. lia.
Qed.

(** The first index [get_output] has not reported as committed, less one. *)
Definition reported_commit (f : fsm) : index_t :=
  ob_commit_idx (f_observed f) `max` snp_idx (l_snapshot (f_log f)).

Lemma output_committed_spec f :
  base_wf f -> exists es, output_committed f = Ret es /\
    segment (f_log f) (reported_commit f + 1) es /\
    Z.of_nat (length es) = f_commit_idx f - reported_commit f.
Proof.
  intros []. pose proof mw_log as []. unfold output_committed. fold (reported_commit f). cbv zeta.
  assert (0 <= reported_commit f <= f_commit_idx f /\ l_first_idx (f_log f) <= reported_commit f + 1) as [? ?]
    by (unfold reported_commit; lia).
  rewrite u64_add_small by lia.
  destruct (log_entries_between_spec (f_log f) (reported_commit f + 1) (f_commit_idx f))
    as (es & Hes & Hseg & Hlen); [done|lia|lia|].
  exists es. split_and!; [|done|lia]. destruct (Z.ltb_spec (reported_commit f) (f_commit_idx f)); [done|].
  destruct es; [done|]. simpl in Hlen. lia.
Qed.

Lemma output_configuration_spec f : base_wf f -> exists c, output_configuration f = Ret c.
Proof.
  intros Hb. unfold output_configuration. cbv zeta. rewrite get_configuration_wp by done.
  destruct (_ || _); eauto.
Qed.

Lemma segment_last l lo es :
  log_wf l -> segment l lo es ->
  match last es with
  | Some e => e_idx e = lo + Z.of_nat (length es) - 1
  | None => es = []
  end.
Proof.
  intros Hwf Hseg. destruct (snoc_cases es) as [->|(es' & e & ->)]; [done|].
  rewrite last_snoc, length_app. simpl.
  rewrite (wf_idx _ Hwf (lo + Z.of_nat (length es')) e); [lia|].
  apply Hseg. by rewrite lookup_app_r, Nat.sub_diag by lia.
Qed.

(** What [get_output] returns in state [f], and the state it leaves: every entry
    that is not stable yet, every newly committed entry, the term and vote if
    they changed, and all pending messages. *)
Record output_of (f : fsm) (o : fsm_output) (f' : fsm) : Prop := {
  oo_wf : fsm_wf f';
  oo_log_entries : segment (f_log f) (l_stable_idx (f_log f) + 1) (o_log_entries o) /\
    Z.of_nat (length (o_log_entries o)) = log_last (f_log f) - l_stable_idx (f_log f);
  oo_committed : segment (f_log f) (reported_commit f + 1) (o_committed o) /\
    Z.of_nat (length (o_committed o)) = f_commit_idx f - reported_commit f;
  oo_term_and_vote : o_term_and_vote o = output_term_and_vote f;
  oo_messages : f_messages f `prefix_of` o_messages o;
  oo_snp : o_snp o = o_snp (f_output f) /\ o_snps_to_drop o = o_snps_to_drop (f_output f);
  oo_stable : l_stable_idx (f_log f') = log_last (f_log f);
  oo_observed : ob_current_term (f_observed f') = f_current_term f /\
    ob_voted_for (f_observed f') = f_voted_for f /\ ob_commit_idx (f_observed f') = f_commit_idx f;
  oo_commit : f_commit_idx f <= f_commit_idx f';
  oo_log : log_extends (with_stable (f_log f) (log_last (f_log f))) (f_log f');
}.

Lemma flush_leader_both f d X B :
  fsm_wf f -> wp (flush_leader d) (fun _ f1 => fsm_wf f1 /\ same_machine f f1 /\ pending f f1) X B f.
Proof.
  intros Hwf. pose proof (flush_leader_pending d f) as Hp.
  assert (wp (flush_leader d) (fun _ f1 => fsm_wf f1 /\ same_machine f f1)
    (fun _ _ => False) (fun _ => False) f) as Hs by (by apply flush_leader_wp).
  unfold wp in *. destruct (flush_leader d f) as [[]]; [|done..]. by destruct Hs.
Qed.

Lemma get_output_wp f Q X B :
  fsm_wf f -> log_last (f_log f) + 2 < u64_modulus ->
  (forall o f', output_of f o f' -> Q o f') -> wp get_output Q X B f.
Proof.
  intros Hwf Hroom HQ. unfold get_output. apply wp_bind, wp_gets. cbv zeta. apply wp_bind.
  pose proof Hwf as [[] _]. pose proof mw_log as []. rewrite last_idx_eq, u64_sub_small by (done || lia).
  eapply wp_mono; [by apply flush_leader_both| |done|done]. intros [] f1 (Hwf1 & [] & []).
  pose proof Hwf1 as [Hb1 Hst1].
  destruct (output_log_entries_spec f1 Hb1) as (les & Hles & Hlseg & Hllen).
  destruct (output_committed_spec f1 Hb1) as (ces & Hces & Hcseg & Hclen).
  destruct (output_configuration_spec f1 Hb1) as (cfg & Hcfg).
  rewrite sm_log in Hles, Hllen, Hlseg.
  apply wp_bind, wp_gets, wp_bind, wp_modify, wp_bind, (lift_ret_wp _ _ _ _ _ _ Hles).
  apply wp_bind, (lift_ret_wp _ _ _ _ _ _ Hces), wp_bind, wp_modify, wp_bind, wp_modify.
  apply wp_bind, (lift_ret_wp _ _ _ _ _ _ Hcfg), wp_bind, wp_modify.
  match goal with |- wp _ _ _ _ ?g => set (f2 := g) end.
  assert (fsm_wf f2) as Hwf2.
  { split; [|exact Hst1]. destruct Hb1. split; try done. }
  apply wp_bind, (wp_mono _ (fun _ f3 => stabilised f2 (log_last (f_log f)) f3) _ X _ B); [| |done|done].
  - pose proof (segment_last _ _ _ mw_log Hlseg) as Hlast. destruct (last les) as [e|].
    + replace (e_idx e) with (log_last (f_log f)) by lia.
      apply advance_stable_idx_wp; [done|cbn; rewrite sm_log; lia|cbn; rewrite sm_log; lia|done].
    + subst les. simpl in Hllen. apply wp_ret. split; try done.
      rewrite with_stable_id; [reflexivity|]. cbn. rewrite sm_log. lia.
  - intros [] f3 []. apply wp_ret, HQ.
    cbn [f_log f_observed f_commit_idx f2 set_observed set_abort_leadership_transfer set_messages set_output] in *.
    rewrite sm_log in *. rewrite sm_commit in *.
    assert (reported_commit f1 = reported_commit f) as Hrep by (unfold reported_commit; congruence).
    rewrite Hrep in *. unfold output_term_and_vote. rewrite sm_observed, sm_term, sm_vote.
    split; try done.
    + by destruct sb_log0 as (_ & -> & _).
    + rewrite sb_observed0. cbn. done.
Qed.
End output.

(** * Calls of the client *)

Section client.
Context {env : raft_env}.
Implicit Types (f : fsm).

(** [add_entry] appends the entry or leaves the machine as it is. *)
Lemma add_entry_wp f d :
  fsm_wf f -> log_last (f_log f) + 2 < u64_modulus ->
  (forall c, d = ConfigurationEntry c -> Z.of_nat (size (current c)) < 2 ^ 32) ->
  wp (add_entry d) (entry_added f d) (fun _ f' => f' = f) (fun _ => False) f.
Proof.
  intros Hwf Hroom Hd. destruct (is_leader f) eqn:Hlead.
  2: { unfold add_entry, check_is_leader. apply wp_bind, wp_bind, wp_gets. rewrite Hlead. by apply wp_throw. }
  destruct (is_leader_state f Hlead) as [l Hl]. destruct (ld_stepdown l) as [t|] eqn:Hsd.
  { unfold add_entry. apply wp_bind. eapply check_is_leader_wp; [done|]. wp_leader. rewrite Hsd. by apply wp_throw. }
  assert ((forall c, d <> ConfigurationEntry c) -> wp (add_entry d) (entry_added f d)
    (fun _ f' => f' = f) (fun _ => False) f) as Hplain.
  { intros Hn. pose proof Hwf as [Hb Hst]. pose proof Hb as [].
    eapply add_plain_entry_wp; [done..|]. intros f' [[] Hs'] _. cbn [f_log set_log] in sm_log. cbn in *.
    assert (entry_configuration (plain_entry f d) = None) as Hnc by (destruct d; naive_solver).
    split; [|unfold is_leader; by rewrite Hs', Hl|done|done|destruct d; naive_solver|done..].
    split; [|rewrite sm_log, Hs', Hl, sm_id; by apply leader_wf_append; [|rewrite Hl in Hst|..]].
    unfold base_wf. rewrite sm_id, sm_commit, sm_log, sm_observed.
    apply (wf_append f); [done..|]. by rewrite Hnc. }
  destruct d; [by apply Hplain| |by apply Hplain].
  eapply add_configuration_wp; [done..|by apply Hd|done|done].
Qed.

Lemma start_read_barrier_wp f id :
  fsm_wf f ->
  wp (start_read_barrier id)
    (fun r f' => fsm_wf f' /\ match r with
      | Some (rid, i) => exists l, f_state f = Leader l /\ rid = ld_last_read_id l +! 1 /\
          i = f_commit_idx f /\ term_known (f_log f) i (f_current_term f)
      | None => f' = f /\ exists t, term_known (f_log f) (f_commit_idx f) t /\ t <> f_current_term f
      end)
    (fun _ f' => f' = f) (fun _ => False) f.
Proof.
  intros Hwf. pose proof Hwf as [[] _]. unfold start_read_barrier, check_is_leader.
  apply wp_bind, wp_bind, wp_gets. destruct (is_leader f) eqn:Hlead; [|by apply wp_throw].
  destruct (is_leader_state f Hlead) as [l Hl]. apply wp_ret, wp_bind, wp_gets. wp_leader.
  destruct (_ && _); [by apply wp_throw|].
  destruct (term_for_spec (f_log f) (f_commit_idx f) mw_log) as [(t & Ht & Hk & _)|[_ ?]];
    [destruct mw_log; lia| |lia].
  apply wp_bind, (lift_ret_wp _ _ _ _ _ _ Ht). apply wp_bind. eapply lift_ret_wp; [done|].
  destruct (Z.eqb_spec t (f_current_term f)) as [->|Hne]; cbn [negb].
  - apply wp_bind. eapply next_read_id_wp; [done..|]. intros f' [Hwf' _]. apply wp_ret. split; [done|]. eauto.
  - apply wp_ret. split; [done|]. eauto.
Qed.

(** The members a machine is booted from. *)
Record boot_ok (id : server_id) (term : term_t) (l : log) (commit : index_t) : Prop := {
  bo_id : id <> no_id;
  bo_term : 0 <= term /\ term + 1 < u64_modulus;
  bo_log : log_wf l;
  bo_conf : exists c, conf_wf c l;
  bo_small : configs_small l;
  bo_commit : commit <= log_last l;
  bo_room : log_last l + 2 < u64_modulus;
}.

Lemma initial_fsm_wf id term vote l commit config :
  boot_ok id term l commit -> fsm_wf (initial_fsm id term vote l commit config).
Proof.
  intros [Hid Hterm Hlog [c Hc] Hsm Hcom _]. pose proof Hlog as []. split.
  - split; try done; cbn; [|lia|lia].
    exists (c `max` (snp_idx (l_snapshot l) `max` commit)). split; [lia|]. eapply conf_wf_mono; [done|lia].
  - cbn. done.
Qed.

Lemma make_fsm_ok id term vote l commit config :
  boot_ok id term l commit -> exists f, make_fsm id term vote l commit config = Ret f /\ fsm_wf f.
Proof.
  intros Hb. pose proof (initial_fsm_wf id term vote l commit config Hb) as Hwf.
  pose proof Hb as [Hid [Ht1 Ht2] _ _ _ _ Hroom]. unfold make_fsm.
  rewrite (proj2 (N.eqb_neq _ _) Hid).
  set (f := initial_fsm id term vote l commit config) in *.
  assert (wp fsm_start (fun _ => fsm_wf) (fun _ _ => False) (fun _ => False) f) as Hstart.
  { unfold fsm_start. apply wp_bind, wp_gets.
    apply wp_bind, (lift_ret_wp _ _ _ _ _ _ (get_configuration_wp f ltac:(by destruct Hwf))).
    destruct (_ && _); [by apply become_candidate_wp|].
    apply reset_election_timeout_wp; [by destruct Hwf|]. intros f' Hi _. by eapply inert_wf. }
  unfold wp in Hstart. destruct (fsm_start f) as [[]]; [by eexists|done..].
Qed.
End client.

(** * The machine as a whole *)

(** The calls of the interface. *)
Inductive call :=
| CallStep (from : server_id) (msg : rpc_message)
| CallTick (is_alive : server_id -> bool)
| CallGetOutput
| CallAddEntry (d : entry_data)
| CallTransferLeadership (timeout : Z)
| CallApplySnapshot (snp : snapshot_descriptor) (max_trailing_entries max_trailing_bytes : Z)
| CallStartReadBarrier (requester : server_id)
| CallPingLeader
| CallStop.

Section machine.
Context {env : raft_env}.
Implicit Types (f : fsm).

Definition run_call (c : call) : FSM unit :=
  match c with
  | CallStep from msg => step from msg
  | CallTick is_alive => tick is_alive
  | CallGetOutput => _ ← get_output; mret tt
  | CallAddEntry d => _ ← add_entry d; mret tt
  | CallTransferLeadership timeout => transfer_leadership timeout
  | CallApplySnapshot snp me mb => _ ← apply_snapshot snp me mb true; mret tt
  | CallStartReadBarrier requester => _ ← start_read_barrier requester; mret tt
  | CallPingLeader => ping_leader
  | CallStop => stop
  end.

(** What the environment promises about a call. *)
Definition valid_call f (c : call) : Prop :=
  match c with
  | CallStep _ msg => valid_message f msg
  | CallAddEntry d => forall cfg, d = ConfigurationEntry cfg -> Z.of_nat (size (current cfg)) < 2 ^ 32
  | CallApplySnapshot snp me mb => valid_snapshot f snp me mb true
  | CallPingLeader => current_leader f = no_id
  | _ => True
  end.

Lemma wp_discard {A} (m : FSM A) (Q : fsm -> Prop) X B f :
  wp m (fun _ => Q) X B f -> wp (_ ← m; mret tt) (fun _ => Q) X B f.
Proof. intros Hm. apply wp_bind. eapply wp_mono; [exact Hm|by intros|done|done]. Qed.

Lemma run_call_safe f c : fsm_wf f -> room f -> valid_call f c -> safe (run_call c) f.
Proof.
  intros Hwf Hroom Hv. pose proof Hroom as [_ _ Hlog]. destruct c; cbn [run_call valid_call] in *.
  - by apply step_safe.
  - by apply tick_safe.
  - apply wp_discard, get_output_wp; [done|done|]. by intros o f' [].
  - apply wp_discard. eapply wp_mono; [by apply add_entry_wp|by intros e f' []|by intros e f' ->|done].
  - destruct (is_leader f) eqn:Hlead.
    + destruct (is_leader_state f Hlead) as [l Hl].
      eapply transfer_leadership_wp; [done|done|by intros f' []|done].
    + unfold transfer_leadership, check_is_leader. apply wp_bind, wp_bind, wp_gets. rewrite Hlead. by apply wp_throw.
  - by apply wp_discard, apply_snapshot_safe.
  - apply wp_discard. eapply wp_mono; [by apply start_read_barrier_wp|by intros r f' []|by intros e f' ->|done].
  - unfold ping_leader. apply wp_bind, assert_that_wp; [by apply N.eqb_eq|]. by apply wp_modify.
  - unfold stop. apply wp_bind, wp_gets, wp_when; intros _; [|done].
    apply become_follower_wp; [done|by destruct Hwf as [[]]|by intros].
Qed.

Lemma run_call_later c : keeps later (run_call c).
Proof.
  destruct c; cbn [run_call].
  all: try (apply keeps_bind; [apply _| |intros; apply keeps_ret, _]).
  - apply step_later.
  - apply tick_later.
  - apply get_output_later.
  - apply add_entry_later.
  - apply transfer_leadership_later.
  - apply apply_snapshot_later.
  - apply start_read_barrier_later.
  - apply ping_leader_later.
  - apply stop_later.
Qed.

(** One call that does not abort the process, whatever its input. *)
Inductive api_step f f' : Prop :=
| api_call c o : run_call c f = (o, f') -> (forall r, o <> Abort r) -> api_step f f'.

Lemma api_steps_later f f' : rtc api_step f f' -> later f f'.
Proof.
  induction 1 as [|f g h [c o Hc Ho] _ IH]; [reflexivity|]. etransitivity; [|exact IH].
  destruct o as [a|e|r]; [|  |by destruct (Ho r)].
  - by eapply keeps_final; [apply run_call_later|].
  - by eapply keeps_final_throw; [apply run_call_later|].
Qed.

(** One call with a valid input, away from the wrap-around of terms and
    indexes. *)
Inductive valid_step f f' : Prop :=
| valid_call_step c o : room f -> valid_call f c -> run_call c f = (o, f') -> valid_step f f'.

(** The states of a machine that was booted from a well-formed log. *)
Inductive reachable : fsm -> Prop :=
| reachable_boot id term vote l commit config f :
    boot_ok id term l commit -> make_fsm id term vote l commit config = Ret f -> reachable f
| reachable_step f f' : reachable f -> valid_step f f' -> reachable f'.

Lemma safe_outcome {A} (m : FSM A) f o f' :
  safe m f -> m f = (o, f') -> fsm_wf f' /\ forall r, o <> Abort r.
Proof. unfold safe, wp. intros Hs Heq. rewrite Heq in Hs. by destruct o. Qed.

Lemma reachable_wf f : reachable f -> fsm_wf f.
Proof.
  induction 1 as [id term vote l commit config f Hb Hf|f f' _ IH [c o Hroom Hv Hc]].
  - destruct (make_fsm_ok id term vote l commit config Hb) as (f' & Hf' & Hwf). congruence.
  - by eapply safe_outcome; [apply run_call_safe|].
Qed.
End machine.
