(* ===== verification/RaftTheorems.v ===== *)
(** The properties of the state machine, and instances of them on a cluster of
    three servers. *)
From S2P Require Import Prelude RaftTypes RaftLog RaftTracker RaftFsm RaftMonotone RaftReplication.
From S2P Require Import RaftInvariant RaftSafety RaftApi.

(** A computation whose weakest precondition rules out errors returns. *)
Lemma wp_returns {S E A} (m : M S E A) (Q : A -> S -> Prop) s :
  wp m Q (fun _ _ => False) (fun _ => False) s -> exists a s', m s = (Ret a, s') /\ Q a s'.
Proof. unfold wp. destruct (m s) as [[a| |] s']; [|done..]. by exists a, s'. Qed.

Section theorems.
Context {env : raft_env}.
Implicit Types (f : fsm).

(** C4: Every state reached from a boot with a well-formed log, by any sequence
    of calls with valid inputs, satisfies the invariant, and no call with a
    valid input aborts: no assertion of the machine, its log and its trackers
    fails, nothing is accessed out of range, and every loop ends. *)
Theorem machine_safe f :
  reachable f ->
  fsm_wf f /\ forall c r, room f -> valid_call f c -> (run_call c f).1 <> Abort r.
Proof.
  intros Hf%reachable_wf. split; [done|]. intros c r Hroom Hv.
  destruct (run_call c f) as [o f'] eqn:Hc.
  by destruct (safe_outcome (run_call c) f o f' ltac:(by apply run_call_safe) Hc).
Qed.

(** C6: A server votes at most once in a term: from any state, whatever is
    called and with whatever input, once a vote is cast it does not change while
    the term stays the same. *)
Theorem vote_once f f' :
  rtc api_step f f' -> f_current_term f' = f_current_term f -> f_voted_for f <> no_id ->
  f_voted_for f' = f_voted_for f.
Proof. intros [_ _ _ Hvote _ _ _]%api_steps_later Hterm Hv. by destruct (Hvote Hterm). Qed.

(** The term, the commit index, the index of the snapshot and the clock never
    go back, from any state, whatever is called and with whatever input. *)
Theorem forward_only f f' :
  rtc api_step f f' ->
  f_current_term f <= f_current_term f' /\ f_commit_idx f <= f_commit_idx f' /\
  snp_idx (l_snapshot (f_log f)) <= snp_idx (l_snapshot (f_log f')) /\ f_clock f <= f_clock f'.
Proof. by intros []%api_steps_later. Qed.

(** C8: A follower's reaction to AppendEntries. If the position before the
    request's entries agrees with its log, the log becomes what Raft's rule
    prescribes, the commit index moves to the smaller of the leader's and the
    last entry of the request (and never back), and the follower acknowledges
    exactly the entries it checked. Otherwise it changes nothing and refuses,
    naming the position and the end of its log. *)
Theorem append_entries_correct f from r :
  fsm_wf f -> is_follower f = true -> valid_append f r ->
  exists f', append_entries from r f = (Ret tt, f') /\ fsm_wf f' /\
    (log_matches (f_log f) (areq_prev_log_idx r) (areq_prev_log_term r) /\ append_done f from r f' \/
     ~ log_matches (f_log f) (areq_prev_log_idx r) (areq_prev_log_term r) /\ append_refused f from r f').
Proof.
  intros Hwf Hfol Hv.
  destruct (wp_returns (append_entries from r) (fun _ f' => fsm_wf f' /\
    (log_matches (f_log f) (areq_prev_log_idx r) (areq_prev_log_term r) /\ append_done f from r f' \/
     ~ log_matches (f_log f) (areq_prev_log_idx r) (areq_prev_log_term r) /\ append_refused f from r f')) f)
    as ([] & f' & Hf' & HQ); [|by exists f'].
  apply append_entries_wp; [done..|by auto|]. intros f' Hn [Hi Hm].
  split; [by eapply inert_wf|]. right. by split.
Qed.

(** C7: Committing. [maybe_commit] on a leader returns (its recursion ends), and
    moves the commit index only to an entry of the current term that a majority
    of the current voters, and of the previous ones while the configuration is
    joint, has acknowledged; it moves it at least to every such index from which
    on all entries are of the current term. The log is only continued. *)
Theorem maybe_commit_correct f l :
  fsm_wf f -> f_state f = Leader l -> log_last (f_log f) + 2 < u64_modulus ->
  exists f', maybe_commit f = (Ret tt, f') /\ commit_result f l f'.
Proof.
  intros Hwf Hl Hroom. destruct (wp_returns maybe_commit (fun _ => commit_result f l) f)
    as ([] & f' & Hf'); [|by exists f']. by eapply maybe_commit_wp.
Qed.

(** Output. [get_output] returns exactly the entries that are not stable yet,
    exactly the entries committed since the last output that the snapshot does
    not cover, the term and the vote if one of them changed, and all pending
    messages; afterwards the whole log counts as stable and the commit index as
    reported. *)
Theorem get_output_correct f :
  fsm_wf f -> log_last (f_log f) + 2 < u64_modulus ->
  exists o f', get_output f = (Ret o, f') /\ output_of f o f'.
Proof. intros Hwf Hroom. apply (wp_returns get_output (output_of f)). by apply get_output_wp. Qed.

(** Replication. [replicate_to] returns (its loops end) and sends the follower
    requests that continue each other: each has the term of the position before
    its entries and a consecutive piece of the log, and the next index moves
    past what was sent unless the follower is probed. Only when the term before
    the next index is lost to the snapshot does it send the snapshot instead. It
    stops when flow control forbids to go on or everything is sent. *)
Theorem replicate_to_correct f l id p allow_empty :
  fsm_wf f -> f_state f = Leader l -> t_progress (ld_tracker l) !! id = Some p ->
  exists f' p' ms, replicate_to id allow_empty f = (Ret tt, f') /\ fsm_wf f' /\ replicated f p p' ms /\
    f_messages f' = f_messages f ++ map (pair id) ms /\
    f_state f' = Leader (ld_set_tracker (tracker_update (ld_tracker l) id p') l).
Proof.
  intros Hwf Hl Hp.
  destruct (wp_returns (replicate_to id allow_empty) (fun _ f' => exists p' ms, fsm_wf f' /\ replicated f p p' ms /\
    f_messages f' = f_messages f ++ map (pair id) ms /\
    f_state f' = Leader (ld_set_tracker (tracker_update (ld_tracker l) id p') l)) f)
    as ([] & f' & Hf' & p' & ms & HQ); [|by exists f', p', ms].
  eapply replicate_to_wp; [done..|]. intros f' p' ms [Hwf' _] Hr Hm Hs. by exists p', ms.
Qed.

(** Snapshots. A valid snapshot that is newer than the last one and, if it
    comes from the leader, than the commit index is taken: the log keeps what it
    must, the commit index is at least the snapshot's, the old snapshot is
    reported as dropped and the new one as taken. Any other changes nothing but
    the list of snapshots to drop. *)
Theorem snapshot_correct f snp me mb local :
  fsm_wf f -> valid_snapshot f snp me mb local ->
  exists ok f', apply_snapshot snp me mb local f = (Ret ok, f') /\
    if ok : bool then snapshot_taken f snp me mb local f' else snapshot_ignored f snp local f'.
Proof.
  intros Hwf Hv. apply (wp_returns (apply_snapshot snp me mb local) (fun ok f' =>
    if ok : bool then snapshot_taken f snp me mb local f' else snapshot_ignored f snp local f')).
  by apply apply_snapshot_wp.
Qed.

(** Adding an entry. [add_entry] either throws and leaves the machine
    unchanged, or appends one entry of the leader's term at the end of the log
    and returns it; for a configuration it appends the joint configuration of
    the new members and the current ones. A leader that is not stepping down
    accepts every command. *)
Theorem add_entry_correct f d :
  fsm_wf f -> log_last (f_log f) + 2 < u64_modulus ->
  (forall c, d = ConfigurationEntry c -> Z.of_nat (size (current c)) < 2 ^ 32) ->
  exists o f', add_entry d f = (o, f') /\
    match o with Ret e => entry_added f d e f' | Throw _ => f' = f | Abort _ => False end /\
    (forall l, f_state f = Leader l -> ld_stepdown l = None ->
      (forall c, d <> ConfigurationEntry c) -> exists e, o = Ret e).
Proof.
  intros Hwf Hroom Hd. pose proof (add_entry_wp f d Hwf Hroom Hd) as Hadd.
  assert (forall l, f_state f = Leader l -> ld_stepdown l = None -> (forall c, d <> ConfigurationEntry c) ->
    wp (add_entry d) (fun _ _ => True) (fun _ _ => False) (fun _ => False) f) as Hok.
  { intros l Hl Hsd Hn. eapply add_plain_entry_wp; [by destruct Hwf|done..]. }
  unfold wp in *. destruct (add_entry d f) as [o f'] eqn:Ho. exists o, f'.
  split; [done|]. split; [by destruct o|]. intros l Hl Hsd Hn. specialize (Hok l Hl Hsd Hn).
  destruct o; [eauto|done..].
Qed.

(** Starting a read barrier. A leader hands out a read id only when the term
    of its commit index is its own term, so that its commit index covers every
    entry committed before, and then reads are at that index; otherwise it asks
    to retry and changes nothing. It fails no assertion. *)
Theorem start_read_barrier_correct f id :
  fsm_wf f ->
  exists o f', start_read_barrier id f = (o, f') /\
    match o with
    | Ret (Some (rid, i)) => fsm_wf f' /\ i = f_commit_idx f /\
        term_known (f_log f) i (f_current_term f) /\
        exists l, f_state f = Leader l /\ rid = ld_last_read_id l +! 1
    | Ret None => f' = f /\ exists t, term_known (f_log f) (f_commit_idx f) t /\ t <> f_current_term f
    | Throw _ => f' = f
    | Abort _ => False
    end.
Proof.
  intros Hwf. pose proof (start_read_barrier_wp f id Hwf) as Hb. unfold wp in Hb.
  destruct (start_read_barrier id f) as [o f']. exists o, f'. split; [done|].
  destruct o as [[[rid i]|]| |]; [|by destruct Hb|done|done].
  destruct Hb as [Hwf' (l & Hl & -> & -> & Ht)]. eauto 10.
Qed.
End theorems.

(** * Examples: server 1 of a cluster of three *)

Module RaftExamples.
#[local] Existing Instance example_env.

Definition config : fsm_config := FsmConfig 1000 100000 false.
Definition first_snapshot : snapshot_descriptor :=
  SnapshotDescriptor 0 0 (example_configuration [1%N; 2%N; 3%N]) 7.
Definition first_log : log := Log first_snapshot [] 100 1 0 0 0 0.

Lemma first_boot_ok id : id <> no_id -> boot_ok id 0 first_log 0.
Proof.
  intros Hid. split; [done|by vm_compute| | | |by vm_compute|by vm_compute].
  - split; try (vm_compute; repeat split; congruence). apply wf_consecutive. by vm_compute.
  - exists 0. by apply LogExamples.conf_wf_empty.
  - split; [by vm_compute|]. intros e c []%not_elem_of_nil.
Qed.

(** A booted server. *)
Definition server (id : server_id) : fsm :=
  match make_fsm id 0 no_id first_log 0 config with
  | Ret f => f
  | _ => initial_fsm id 0 no_id first_log 0 config
  end.

Lemma server_reachable id : id <> no_id -> reachable (server id).
Proof.
  intros Hid. unfold server.
  destruct (make_fsm_ok id 0 no_id first_log 0 config (first_boot_ok id Hid)) as (f & Hf & _).
  rewrite Hf. eapply reachable_boot; [by apply first_boot_ok|exact Hf].
Qed.

Definition exec (f : fsm) (cs : list call) : fsm := fold_left (fun f c => (run_call c f).2) cs f.

Fixpoint valid_run (f : fsm) (cs : list call) : Prop :=
  match cs with
  | [] => True
  | c :: cs => room f /\ valid_call f c /\ valid_run (run_call c f).2 cs
  end.

Lemma exec_reachable f cs : reachable f -> valid_run f cs -> reachable (exec f cs).
Proof.
  revert f. induction cs as [|c cs IH]; intros f Hf Hrun; [done|].
  destruct Hrun as (Hroom & Hv & Hrun). apply IH; [|done]. eapply reachable_step; [done|].
  econstructor; [done|done|]. by apply surjective_pairing.
Qed.

Definition nobody (_ : server_id) : bool := false.

(** Server 1 times out, campaigns, gets the vote of server 2, and its dummy
    entry is persisted. *)
Definition campaign_calls : list call := List.repeat (CallTick nobody) 11.
Definition election_calls : list call :=
  campaign_calls ++ [CallStep 2 (msg_vote_reply (VoteReply 1 true false)); CallGetOutput].

Definition candidate1 : fsm := Eval vm_compute in exec (server 1) campaign_calls.
Definition leader1 : fsm := Eval vm_compute in exec (server 1) election_calls.

Ltac run_valid := vm_compute; repeat split; first [exact I | vm_compute; congruence].

Lemma leader1_reachable : reachable leader1.
Proof.
  assert (leader1 = exec (server 1) election_calls) as -> by (vm_compute; reflexivity).
  apply exec_reachable; [by apply server_reachable|]. run_valid.
Qed.

Lemma leader1_wf : fsm_wf leader1.
Proof. apply reachable_wf, leader1_reachable. Qed.

Lemma machine_safe_witness :
  fsm_wf leader1 /\ forall r, (run_call (CallTick nobody) leader1).1 <> Abort r.
Proof.
  destruct (machine_safe leader1 leader1_reachable) as [Hwf Hsafe]. split; [exact Hwf|].
  intros r. apply Hsafe; [split; vm_compute; congruence|exact I].
Defined.

Lemma candidate1_to_leader1 : rtc api_step candidate1 leader1.
Proof.
  eapply rtc_l; [eapply (api_call _ _ (CallStep 2 (msg_vote_reply (VoteReply 1 true false))));
    [vm_compute; reflexivity|done]|].
  eapply rtc_once, (api_call _ _ CallGetOutput); [vm_compute; reflexivity|done].
Qed.

Lemma vote_once_witness : f_voted_for candidate1 = 1%N /\ f_voted_for leader1 = f_voted_for candidate1.
Proof. split; [reflexivity|]. by apply (vote_once candidate1 leader1); [apply candidate1_to_leader1|..]. Defined.

Lemma forward_only_witness : f_current_term candidate1 <= f_current_term leader1.
Proof. by destruct (forward_only candidate1 leader1 candidate1_to_leader1). Defined.

(** The request server 1 sends to server 2. *)
Definition first_request : append_request := AppendRequest 1 0 0 0 [LogEntry 1 1 Dummy].

Lemma server2_wf : fsm_wf (server 2).
Proof. by apply reachable_wf, server_reachable. Qed.

Lemma first_request_valid : valid_append (server 2) first_request.
Proof.
  split; [vm_compute; intuition congruence|vm_compute; congruence|by vm_compute| |].
  - intros e c ->%list_elem_of_singleton. done.
  - exists 0. split_and!; [vm_compute; congruence|by apply LogExamples.conf_wf_empty| |].
    + intros e e' ->%list_elem_of_singleton. vm_compute. congruence.
    + vm_compute. intros [] ?; done.
Qed.

Lemma append_entries_correct_witness :
  exists f', append_entries 1 first_request (server 2) = (Ret tt, f') /\ fsm_wf f' /\
    l_log (f_log f') = [LogEntry 1 1 Dummy].
Proof.
  destruct (append_entries_correct (server 2) 1 first_request server2_wf) as (f' & Hf' & Hwf & H);
    [reflexivity|apply first_request_valid|].
  exists f'. split; [exact Hf'|]. split; [exact Hwf|]. vm_compute in Hf'. by simplify_eq.
Defined.

(** Server 1 after server 2 acknowledged the dummy entry. *)
Definition leader1_state : leader :=
  Eval vm_compute in match f_state leader1 with Leader l => l | _ => make_leader leader1 end.
Definition progress2 : follower_progress :=
  Eval vm_compute in default (make_follower_progress 2 1) (t_progress (ld_tracker leader1_state) !! 2%N).
Definition acked1 : fsm :=
  set_state (Leader (ld_set_tracker (tracker_update (ld_tracker leader1_state) 2 (accepted progress2 1)) leader1_state))
    leader1.

Lemma acked1_wf : fsm_wf acked1.
Proof.
  apply (wf_update_progress leader1 leader1_state 2 progress2); [apply leader1_wf|reflexivity..|].
  split; vm_compute; intuition congruence.
Qed.

Lemma maybe_commit_correct_witness :
  exists f', maybe_commit acked1 = (Ret tt, f') /\ f_commit_idx acked1 = 0 /\ f_commit_idx f' = 1.
Proof.
  destruct (maybe_commit_correct acked1 _ acked1_wf eq_refl) as (f' & Hf' & _); [vm_compute; congruence|].
  exists f'. split; [exact Hf'|]. split; [reflexivity|]. vm_compute in Hf'. by simplify_eq.
Defined.

Lemma get_output_correct_witness :
  exists o f', get_output leader1 = (Ret o, f') /\ fsm_wf f'.
Proof.
  destruct (get_output_correct leader1 leader1_wf) as (o & f' & Hf' & []); [vm_compute; congruence|].
  by exists o, f'.
Defined.

Lemma replicate_to_correct_witness :
  exists f' p' ms, replicate_to 2 true leader1 = (Ret tt, f') /\ replicated leader1 progress2 p' ms.
Proof.
  destruct (replicate_to_correct leader1 leader1_state 2 progress2 true leader1_wf eq_refl)
    as (f' & p' & ms & Hf' & _ & Hr & _); [reflexivity|]. by exists f', p', ms.
Defined.

Definition snapshot5 : snapshot_descriptor :=
  SnapshotDescriptor 5 1 (example_configuration [1%N; 2%N; 3%N]) 8.

Lemma snapshot_correct_witness :
  exists f', apply_snapshot snapshot5 0 0 false (server 2) = (Ret true, f') /\
    snapshot_taken (server 2) snapshot5 0 0 false f' /\ f_commit_idx f' = 5.
Proof.
  destruct (snapshot_correct (server 2) snapshot5 0 0 false server2_wf) as (ok & f' & Hf' & H).
  - by split; [vm_compute; intuition congruence|lia|by vm_compute|].
  - exists f'. assert (ok = true) as -> by (vm_compute in Hf'; by simplify_eq).
    split; [exact Hf'|]. split; [exact H|]. by rewrite (st_commit _ _ _ _ _ _ H).
Defined.

Lemma add_entry_correct_witness :
  exists f', add_entry (Command []) leader1 = (Ret (LogEntry 1 2 (Command [])), f') /\ fsm_wf f'.
Proof.
  destruct (add_entry_correct leader1 (Command []) leader1_wf) as (o & f' & Hf' & H & _);
    [vm_compute; congruence|done|].
  exists f'. assert (o = Ret (LogEntry 1 2 (Command []))) as -> by (vm_compute in Hf'; by simplify_eq).
  split; [exact Hf'|]. by destruct H.
Defined.

Lemma start_read_barrier_correct_witness :
  exists f', start_read_barrier 1 leader1 = (Ret None, f') /\ f' = leader1.
Proof.
  destruct (start_read_barrier_correct leader1 1 leader1_wf) as (o & f' & Hf' & H).
  exists f'. assert (o = Ret None) as -> by (vm_compute in Hf'; by simplify_eq).
  split; [exact Hf'|]. by destruct H.
Defined.
End RaftExamples.
