(* ===== verification/RaftElection.v ===== *)
(** Elections among several servers. A network of servers runs the state machine:
    messages may be lost, duplicated, delayed and reordered, and servers crash and
    restart with the term and the vote that were persisted when an output was
    taken. Two leaders of one term are the same server whenever the configurations
    that they campaigned with share a server in every pair of their quorums, as
    equal configurations do, and as the steps of a change through a joint
    configuration do.

    The first part shows which operations leave elections alone; the second
    follows the votes that a server gives ([honest]) and the votes that it counts
    ([elected]); the third is the network. *)
From S2P Require Import Prelude RaftTypes RaftLog RaftTracker RaftFsm RaftMonotone RaftApi.

(** * Operations that leave elections alone *)

(** A vote granted in a term. *)
Definition granted (t : term_t) : rpc_message := msg_vote_reply (VoteReply t true false).

Record undisturbed (f f' : fsm) : Prop := {
  un_id : f_my_id f' = f_my_id f;
  un_term : f_current_term f' = f_current_term f;
  un_vote : f_voted_for f' = f_voted_for f;
  un_observed : f_observed f' = f_observed f;
  un_draws : f_draws f' = f_draws f;
  un_state :
    match f_state f' with
    | Follower _ => True
    | Candidate c => f_state f = Candidate c
    | Leader _ => is_leader f = true
    end;
  un_messages c t : (c, granted t) ∈ f_messages f' -> (c, granted t) ∈ f_messages f;
}.

Lemma same_kind f : match f_state f with
  | Follower _ => True
  | Candidate c => f_state f = Candidate c
  | Leader _ => is_leader f = true
  end.
Proof. unfold is_leader. by destruct (f_state f). Qed.

#[export] Instance undisturbed_preorder : PreOrder undisturbed.
Proof.
  split.
  - intros f. split; try apply same_kind; auto.
  - intros f g h [??? ?? Hg ?] [??? ?? Hh ?]. split; try congruence; [|auto].
    destruct (f_state h); [done|by rewrite Hh in Hg|]. unfold is_leader in Hh.
    by destruct (f_state g).
Qed.

Ltac undisturbed_frame :=
  intros; split; cbn; try apply same_kind; auto.

Section quiet_operations.
Context {env : raft_env}.

Hint Extern 1 (keeps undisturbed (modify _)) => apply keeps_modify; solve [undisturbed_frame] : keeps.
Tactic Notation "unfold_keeps" reference(m) := unfold m; keeps_auto.

Lemma assert_that_quiet b : keeps undisturbed (assert_that b).
Proof. unfold_keeps assert_that. Qed.
Lemma signal_quiet : keeps undisturbed signal.
Proof. unfold_keeps signal. Qed.
Hint Resolve assert_that_quiet signal_quiet : keeps.
Lemma send_to_quiet to m : (forall t, m <> granted t) -> keeps undisturbed (send_to to m).
Proof.
  intros Hm. unfold send_to. apply keeps_bind; [apply _| |intros; keeps_auto]. apply keeps_modify.
  intros f. split; cbn; try apply same_kind; auto.
  intros c t [Hin|[= _ Hg]%list_elem_of_singleton]%elem_of_app; [done|]. by destruct (Hm t).
Qed.
Hint Extern 1 (keeps undisturbed (send_to _ _)) => apply send_to_quiet; done : keeps.

Lemma leader_state_quiet : keeps undisturbed leader_state.
Proof. unfold_keeps leader_state. Qed.
Lemma candidate_state_quiet : keeps undisturbed candidate_state.
Proof. unfold_keeps candidate_state. Qed.
Lemma check_is_leader_quiet : keeps undisturbed check_is_leader.
Proof. unfold_keeps check_is_leader. Qed.
Lemma update_leader_quiet g : keeps undisturbed (update_leader g).
Proof.
  intros f. unfold update_leader, leader_state. apply wp_bind, wp_bind, wp_gets.
  destruct (f_state f) eqn:Hf; try (by apply wp_throw). apply wp_ret, wp_modify.
  split; cbn; auto. unfold is_leader. by rewrite Hf.
Qed.
Lemma become_follower_quiet id : keeps undisturbed (become_follower id).
Proof. unfold_keeps become_follower. Qed.
Hint Resolve leader_state_quiet candidate_state_quiet check_is_leader_quiet update_leader_quiet
  become_follower_quiet : keeps.
Lemma update_progress_quiet id p : keeps undisturbed (update_progress id p).
Proof. unfold_keeps update_progress. Qed.
Lemma ping_leader_quiet : keeps undisturbed ping_leader.
Proof. unfold_keeps ping_leader. Qed.
Lemma tracker_set_configuration_quiet : keeps undisturbed tracker_set_configuration.
Proof. unfold_keeps tracker_set_configuration. Qed.
Lemma advance_commit_idx_quiet i : keeps undisturbed (advance_commit_idx i).
Proof. unfold_keeps advance_commit_idx. Qed.
Hint Resolve update_progress_quiet ping_leader_quiet tracker_set_configuration_quiet advance_commit_idx_quiet : keeps.
Lemma add_entry_quiet d : keeps undisturbed (add_entry d).
Proof. unfold_keeps add_entry. Qed.
Lemma may_campaign_quiet vs : keeps undisturbed (may_campaign vs).
Proof. unfold_keeps may_campaign. Qed.
Hint Resolve add_entry_quiet may_campaign_quiet : keeps.

(** Replication sends no votes. *)
Lemma replicate_to_loop_requests fuel f : forall p allow p' ms,
  replicate_to_loop fuel f p allow = Ret (p', ms) -> Forall (fun m => forall t, m <> granted t) ms.
Proof.
  induction fuel as [|fuel IH]; intros p allow p' ms Hl; cbn [replicate_to_loop] in Hl; cbv zeta in Hl;
    outcome_inv; repeat constructor; try done; eauto.
Qed.

Lemma replicate_to_quiet id e : keeps undisturbed (replicate_to id e).
Proof.
  unfold replicate_to. do 3 (apply keeps_bind; [apply _|solve [keeps_auto]|intros ?]).
  intros f. apply wp_bind, wp_lift; [|done..]. intros [p ms] Hms%replicate_to_loop_requests. revert f.
  apply keeps_bind; [apply _|solve [keeps_auto]|intros _].
  induction Hms as [|m ms Hm _ IH]; [apply keeps_ret, _|].
  apply keeps_bind; [apply _|by apply send_to_quiet|by intros _].
Qed.
Hint Resolve replicate_to_quiet : keeps.
Lemma replicate_quiet : keeps undisturbed replicate.
Proof. unfold_keeps replicate. Qed.
Lemma handle_read_quorum_reply_quiet from r : keeps undisturbed (handle_read_quorum_reply from r).
Proof. unfold_keeps handle_read_quorum_reply. Qed.
Hint Resolve replicate_quiet handle_read_quorum_reply_quiet : keeps.
Lemma broadcast_read_quorum_quiet id : keeps undisturbed (broadcast_read_quorum id).
Proof. unfold_keeps broadcast_read_quorum. Qed.
Hint Resolve broadcast_read_quorum_quiet : keeps.
Lemma next_read_id_quiet : keeps undisturbed next_read_id.
Proof. unfold_keeps next_read_id. Qed.
Hint Resolve next_read_id_quiet : keeps.
Lemma start_read_barrier_quiet id : keeps undisturbed (start_read_barrier id).
Proof. unfold_keeps start_read_barrier. Qed.
Lemma send_timeout_now_quiet id : keeps undisturbed (send_timeout_now id).
Proof. unfold_keeps send_timeout_now. Qed.
Hint Resolve start_read_barrier_quiet send_timeout_now_quiet : keeps.
Lemma transfer_leadership_quiet t : keeps undisturbed (transfer_leadership t).
Proof. unfold_keeps transfer_leadership. Qed.
Hint Resolve transfer_leadership_quiet : keeps.
Lemma maybe_commit_body_quiet again :
  keeps undisturbed again -> keeps undisturbed (maybe_commit_body again).
Proof. intros Hagain. unfold_keeps maybe_commit_body. Qed.
Lemma maybe_commit_quiet : keeps undisturbed maybe_commit.
Proof. do 2 apply maybe_commit_body_quiet. keeps_auto. Qed.
Hint Resolve maybe_commit_quiet : keeps.
Lemma advance_stable_idx_quiet i : keeps undisturbed (advance_stable_idx i).
Proof. unfold_keeps advance_stable_idx. Qed.
Hint Resolve advance_stable_idx_quiet : keeps.
Lemma tick_followers_quiet alive ids a : keeps undisturbed (tick_followers alive ids a).
Proof. revert a. induction ids as [|id ids IH]; intros a; cbn [tick_followers]; keeps_auto; auto. Qed.
Lemma tick_stepdown_quiet : keeps undisturbed tick_stepdown.
Proof. unfold_keeps tick_stepdown. Qed.
Hint Resolve tick_followers_quiet tick_stepdown_quiet : keeps.
Lemma tick_leader_quiet alive : keeps undisturbed (tick_leader alive).
Proof. unfold_keeps tick_leader. Qed.
Lemma has_stable_leader_quiet alive : keeps undisturbed (has_stable_leader alive).
Proof. unfold_keeps has_stable_leader. Qed.
Lemma search_leader_quiet alive : keeps undisturbed (search_leader alive).
Proof. unfold_keeps search_leader. Qed.
Lemma append_entries_quiet from r : keeps undisturbed (append_entries from r).
Proof. unfold_keeps append_entries. Qed.
Lemma replicate_again_quiet from : keeps undisturbed (replicate_again from).
Proof. unfold_keeps replicate_again. Qed.
Hint Resolve replicate_again_quiet : keeps.
Lemma append_entries_reply_quiet from r : keeps undisturbed (append_entries_reply from r).
Proof. unfold append_entries_reply, append_accepted, append_rejected. cbv zeta. keeps_auto. Qed.
Lemma install_snapshot_reply_quiet from r : keeps undisturbed (install_snapshot_reply from r).
Proof. unfold_keeps install_snapshot_reply. Qed.
Lemma apply_snapshot_quiet snp me mb local : keeps undisturbed (apply_snapshot snp me mb local).
Proof. unfold apply_snapshot. cbv zeta. keeps_auto. Qed.
Lemma step_lower_term_quiet from msg : keeps undisturbed (step_lower_term from msg).
Proof. unfold_keeps step_lower_term. Qed.
Lemma step_same_term_quiet from msg : keeps undisturbed (step_same_term from msg).
Proof. unfold_keeps step_same_term. Qed.
Lemma flush_leader_quiet d : keeps undisturbed (flush_leader d).
Proof. unfold_keeps flush_leader. Qed.
Lemma stop_quiet : keeps undisturbed stop.
Proof. unfold_keeps stop. Qed.

End quiet_operations.

#[export] Hint Resolve assert_that_quiet signal_quiet leader_state_quiet candidate_state_quiet
  check_is_leader_quiet update_leader_quiet become_follower_quiet update_progress_quiet
  ping_leader_quiet tracker_set_configuration_quiet
  advance_commit_idx_quiet add_entry_quiet may_campaign_quiet replicate_to_quiet replicate_quiet
  handle_read_quorum_reply_quiet broadcast_read_quorum_quiet next_read_id_quiet
  start_read_barrier_quiet send_timeout_now_quiet transfer_leadership_quiet maybe_commit_quiet
  advance_stable_idx_quiet tick_followers_quiet tick_stepdown_quiet tick_leader_quiet
  has_stable_leader_quiet search_leader_quiet append_entries_quiet replicate_again_quiet
  append_entries_reply_quiet install_snapshot_reply_quiet apply_snapshot_quiet
  step_lower_term_quiet step_same_term_quiet flush_leader_quiet stop_quiet : keeps.
#[export] Hint Extern 1 (keeps undisturbed (modify _)) => apply keeps_modify; solve [undisturbed_frame] : keeps.
#[export] Hint Extern 1 (keeps undisturbed (send_to _ _)) => apply send_to_quiet; done : keeps.

(** Past an assertion, it holds. *)
Lemma assert_that_cases b Q X (B : abort_reason -> Prop) f :
  (b f = true -> Q tt f) -> (forall r, B r) -> wp (assert_that b) Q X B f.
Proof.
  intros HQ HB. unfold assert_that. apply wp_bind, wp_gets. unfold check, wp, lift. destruct (b f); auto.
Qed.

Lemma wp_and {A} (m : FSM A) (Q Q' : A -> fsm -> Prop) (X X' : raft_error -> fsm -> Prop) (B : abort_reason -> Prop) f :
  wp m Q X B f -> wp m Q' X' B f -> wp m (fun a f => Q a f /\ Q' a f) (fun e f => X e f /\ X' e f) B f.
Proof. unfold wp. destruct (m f) as [[] ?]; auto. Qed.

(** ** Operations that leave the log alone *)

(** They may draw new election timeouts. *)
Definition onward (f f' : fsm) : Prop := f_log f' = f_log f /\ (f_draws f <= f_draws f')%nat.

#[export] Instance onward_preorder : PreOrder onward.
Proof. split; [done|]. unfold onward. intros f g h [??] [??]. split; [congruence|lia]. Qed.

Section onward.
Context {env : raft_env}.

Hint Extern 1 (keeps onward (modify _)) => apply keeps_modify; intros ?; split; [done|cbn; lia] : keeps.

Lemma become_follower_onward id : keeps onward (become_follower id).
Proof. unfold become_follower. keeps_auto. Qed.
Hint Resolve become_follower_onward : keeps.
Lemma reset_election_timeout_onward : keeps onward reset_election_timeout.
Proof.
  intros f. unfold reset_election_timeout. apply wp_bind, wp_gets. apply wp_bind, wp_lift; [|done..].
  intros cfg _. apply wp_bind, wp_modify, wp_modify. split; [done|cbn; lia].
Qed.
Hint Resolve reset_election_timeout_onward : keeps.
Lemma campaign_onward p t : keeps onward (campaign p t).
Proof.
  unfold campaign, candidate_state, may_campaign, update_current_term, assert_that,
    campaign_to, update_candidate, candidate_state, send_to, signal. keeps_auto.
Qed.
Lemma adopt_term_onward id t : keeps onward (become_follower id ;; update_current_term t).
Proof. unfold update_current_term, assert_that. keeps_auto. Qed.
Lemma step_same_term_onward from msg : keeps onward (step_same_term from msg).
Proof. unfold step_same_term. keeps_auto. Qed.
End onward.

(** * Votes given and votes counted *)

(** The votes of the servers in [g] win an election in configuration [c]. *)
Definition wins (c : configuration) (g : gset N) : Prop :=
  majority_of (voter_ids (current c)) (voter_ids (current c) ∩ g) /\
  (is_joint c = true -> majority_of (voter_ids (previous c)) (voter_ids (previous c) ∩ g)).

Lemma tally_wins c vs : votes_tally_votes (votes_register_all c vs) = Ret WON ->
  wins c (list_to_set (filter (fun v => v.2 = true) vs).*1).
Proof.
  intros Hw. destruct (election_outcome_spec c vs) as (r & Hr & Hiff & _).
  rewrite Hr in Hw. apply Ret_inj in Hw. apply Hiff in Hw as [Hc Hp].
  assert (forall s, voters_voting s vs true ⊆
    voter_ids s ∩ list_to_set (filter (fun v => v.2 = true) vs).*1) as Hsub.
  { intros s id. unfold voters_voting, first_vote. rewrite elem_of_filter, elem_of_intersection.
    intros [Hf Hin]. split; [done|]. apply elem_of_list_to_set.
    destruct (filter (fun v : server_id * bool => v.1 = id) vs) as [|v l] eqn:Hl; [done|].
    assert (v ∈ filter (fun v : server_id * bool => v.1 = id) vs) as Hv by (rewrite Hl; left).
    apply list_elem_of_filter in Hv as [Hid Hv]. simpl in Hf. injection Hf as Hf.
    apply list_elem_of_fmap. exists v. split; [done|]. by apply list_elem_of_filter. }
  split; [|intros Hj]; eapply majority_of_mono; [done|apply Hsub|by apply Hp|apply Hsub].
Qed.

Section votes.
Context {env : raft_env}.

(** [G c t]: the server has told [c] that it votes for it in term [t].
    [V s t]: the server has been told that [s] votes for it in term [t].
    [C d t c]: the campaign for term [t] that followed the [d]-th draw of an
    election timeout was with configuration [c]. *)
Context (G V : server_id -> term_t -> Prop) (C : nat -> term_t -> configuration -> Prop).
Implicit Types (f : fsm).

Definition given f (c : server_id) (t : term_t) : Prop := G c t \/ (c, granted t) ∈ f_messages f.

(** The server remembers the votes it gave, one per term. *)
Record honest f : Prop := {
  ho_known c t : given f c t ->
    c <> no_id /\ (t < f_current_term f \/ t = f_current_term f /\ c = f_voted_for f);
  ho_once c c' t : given f c t -> given f c' t -> c = c';
}.

(** A vote the server may count: its own, or one it was told about. *)
Definition counts f (s : server_id) : Prop :=
  s = f_my_id f /\ f_voted_for f = f_my_id f \/ V s (f_current_term f).

(** A candidate has only counted such votes, and a leader has won with them. *)
Definition elected f : Prop :=
  exists c g, C (f_draws f) (f_current_term f) c /\ wins c g /\ forall s, s ∈ g -> counts f s.
Definition counted f : Prop :=
  match f_state f with
  | Follower _ => True
  | Candidate c => c_is_prevote c = false ->
      exists cfg vs, C (f_draws f) (f_current_term f) cfg /\ c_votes c = votes_register_all cfg vs /\
        forall s, (s, true) ∈ vs -> counts f s
  | Leader _ => elected f
  end.

Record sound f : Prop := {
  so_id : f_my_id f <> no_id;
  so_honest : honest f;
  so_counted : counted f;
}.

Lemma counts_same f f' s : f_my_id f' = f_my_id f -> f_current_term f' = f_current_term f ->
  f_voted_for f' = f_voted_for f -> counts f s -> counts f' s.
Proof. unfold counts. by intros -> -> ->. Qed.

Lemma elected_same f f' : f_my_id f' = f_my_id f -> f_current_term f' = f_current_term f ->
  f_voted_for f' = f_voted_for f -> f_draws f' = f_draws f -> elected f -> elected f'.
Proof.
  intros ? Ht ? Hd (c & g & ? & ? & ?). exists c, g. rewrite Ht, Hd. eauto using counts_same.
Qed.

Lemma honest_same f f' : f_messages f' = f_messages f -> f_current_term f' = f_current_term f ->
  f_voted_for f' = f_voted_for f -> honest f -> honest f'.
Proof.
  intros Hm Ht Hv [Hk Ho]. unfold given in *. rewrite <- Hm in Hk, Ho. rewrite <- Ht, <- Hv in Hk. by split.
Qed.

Lemma undisturbed_honest f f' : undisturbed f f' -> honest f -> honest f'.
Proof.
  intros [? Ht Hv ? ? ? Hm] [Hk Ho].
  assert (forall c t, given f' c t -> given f c t) as Hg by (intros c t [?|?]; [by left|right; auto]).
  split; [|by eauto]. intros c t Hc%Hg. rewrite Ht, Hv. auto.
Qed.

Lemma undisturbed_sound f f' : undisturbed f f' -> sound f -> sound f'.
Proof.
  intros Hu [Hid Hh Hc]. split.
  - by rewrite (un_id _ _ Hu).
  - by apply undisturbed_honest with f.
  - destruct Hu as [Hi Ht Hv _ Hd Hs _]. unfold counted, elected in *. rewrite Ht, Hd.
    destruct (f_state f'); [done| |].
    + rewrite Hs in Hc. intros Hp. destruct (Hc Hp) as (cfg & vs & ? & ? & ?).
      exists cfg, vs. split_and!; [done..|]. eauto using counts_same.
    + unfold is_leader in Hs. destruct (f_state f); try done. destruct Hc as (cfg & g & ? & ? & ?).
      exists cfg, g. split_and!; [done..|]. eauto using counts_same.
Qed.

(** The computation keeps the machine sound. *)
Definition stays {A} (m : FSM A) f : Prop := wp m (fun _ => sound) (fun _ => sound) (fun _ => True) f.

Lemma quiet_stays {A} (m : FSM A) f : keeps undisturbed m -> sound f -> stays m f.
Proof. intros Hm Hf. eapply wp_keeps; [exact Hm| | |done]; eauto using undisturbed_sound. Qed.

Lemma stays_bind {A A'} (m : FSM A) (k : A -> FSM A') f :
  stays m f -> (forall a f', sound f' -> stays (k a) f') -> stays (m ≫= k) f.
Proof. intros Hm Hk. apply wp_bind. eapply wp_mono; [exact Hm|..]; eauto. Qed.

Lemma stays_ret {A} (a : A) f : sound f -> stays (mret a) f.
Proof. intros. by apply wp_ret. Qed.

(** ** Terms *)

Lemma new_term_honest f t : f_current_term f < t -> honest f ->
  honest (set_voted_for no_id (set_current_term t f)) /\
  forall c t', given (set_voted_for no_id (set_current_term t f)) c t' -> t' < t.
Proof.
  intros Ht [Hk Ho]. assert (forall c t', given f c t' -> t' < t) as Hlt.
  { intros c t' Hc%Hk. lia. }
  split; [|exact Hlt]. split; [|exact Ho]. intros c t' Hc. split; [by eapply Hk|]. left. by eapply Hlt.
Qed.

Lemma update_current_term_sound f t l : f_state f = Follower l -> sound f ->
  stays (update_current_term t) f.
Proof.
  intros Hs [Hid Hh _]. unfold stays, update_current_term.
  apply wp_bind, assert_that_cases; [|done]. intros Hlt%Z.ltb_lt. apply wp_bind, wp_modify, wp_modify.
  split; cbn; [done|by apply new_term_honest|]. unfold counted. cbn. by rewrite Hs.
Qed.

(** ** Becoming a leader *)

Lemma leader_state_sound f l o : f_my_id f <> no_id -> honest f -> elected f ->
  sound (set_state (Leader l) (set_output o f)).
Proof.
  intros Hid Hh He. split; [done|by apply (honest_same f)|].
  unfold counted. cbn [f_state set_state]. by apply (elected_same f).
Qed.

(** What [become_leader] does after the change of state. *)
Lemma lead_quiet : keeps undisturbed (f ← gets (fun f => f);
  update_leader (fun l => ld_set_semaphore (ld_log_limiter_semaphore l - l_memory_usage (f_log f)) l) ;;
  modify (fun f => set_last_election_time (f_clock f) f) ;;
  modify (set_ping_leader false) ;;
  _ ← add_entry Dummy;
  tracker_set_configuration).
Proof. keeps_auto. Qed.

Lemma become_leader_sound f : f_my_id f <> no_id -> honest f -> elected f -> stays become_leader f.
Proof.
  intros Hid Hh He. unfold stays, become_leader.
  apply wp_bind, assert_that_cases; [|done]. intros _. apply wp_bind, wp_modify, wp_bind, wp_modify.
  eapply wp_keeps; [apply lead_quiet| | |done]; intros a f' Hf';
    (eapply undisturbed_sound; [exact Hf'|by apply leader_state_sound]).
Qed.

(** ** Giving a vote *)

(** The vote is free, or already that of the candidate. *)
Lemma give_vote_honest f from o : from <> no_id -> honest f ->
  f_voted_for f = from \/ f_voted_for f = no_id ->
  honest (set_voted_for from (set_last_election_time o f)) /\
  honest (set_messages (f_messages f ++ [(from, granted (f_current_term f))])
    (set_voted_for from (set_last_election_time o f))).
Proof.
  intros Hfrom [Hk Ho] Hv.
  assert (forall c t, given f c t -> t = f_current_term f -> c = from) as Hnow.
  { intros c t Hc Ht. destruct (Hk c t Hc) as [? [?|[_ ->]]]; [lia|]. by destruct Hv. }
  assert (forall c t, given f c t ->
    c <> no_id /\ (t < f_current_term f \/ t = f_current_term f /\ c = from)) as Hk'.
  { intros c t Hc. pose proof (Hk c t Hc) as [? [?|[? _]]]; eauto. }
  split; [by split|].
  assert (forall c t, given (set_messages (f_messages f ++ [(from, granted (f_current_term f))])
    (set_voted_for from (set_last_election_time o f))) c t ->
    given f c t \/ c = from /\ t = f_current_term f) as Hsplit.
  { unfold given. cbn [f_messages set_messages]. intros c t [?|Hin]; [auto|].
    apply elem_of_app in Hin as [?|Hin]; [auto|]. apply list_elem_of_singleton in Hin.
    by injection Hin as -> ->; auto. }
  split; cbn [f_current_term f_voted_for set_messages set_voted_for set_last_election_time].
  - intros c t [?|[-> ->]]%Hsplit; auto.
  - intros c c' t [Hc|[-> ->]]%Hsplit [Hc'|[-> Ht]]%Hsplit; eauto.
    symmetry. eauto.
Qed.

Lemma counted_more f f' : f_state f' = f_state f -> f_draws f' = f_draws f ->
  f_current_term f' = f_current_term f -> (forall s, counts f s -> counts f' s) -> counted f -> counted f'.
Proof.
  intros Hs Hd Ht Hc. unfold counted, elected. rewrite Hs, Hd, Ht. destruct (f_state f); [done| |].
  - intros Hf Hp. destruct (Hf Hp) as (cfg & vs & ? & ? & ?). exists cfg, vs. eauto.
  - intros (cfg & g & ? & ? & ?). exists cfg, g. eauto.
Qed.

Lemma give_vote_sound f from o b : from <> no_id -> from <> f_my_id f -> sound f ->
  f_voted_for f = from \/ f_voted_for f = no_id ->
  sound (set_sm_events b (set_messages (f_messages f ++ [(from, granted (f_current_term f))])
    (set_voted_for from (set_last_election_time o f)))).
Proof.
  intros Hfrom Hme [Hid Hh Hc] Hv. split; [done| |].
  - eapply honest_same; [..|by apply (give_vote_honest f from o)]; done.
  - apply (counted_more f); [done..| |done]. intros s [[-> Hs]|?]; [|by right].
    exfalso. destruct Hv; congruence.
Qed.

Lemma request_vote_sound f from r : from <> no_id -> from <> f_my_id f -> sound f ->
  stays (request_vote from r) f.
Proof.
  intros Hfrom Hme Hf. unfold stays, request_vote. apply wp_bind, assert_that_cases; [|done].
  intros Hterm. apply wp_bind, wp_gets. cbv zeta.
  match goal with |- context [if ?b then _ else _] => destruct b eqn:Hcan end;
    [|by apply quiet_stays; [apply send_to_quiet|]].
  destruct (vreq_is_prevote r) eqn:Hpre; cbn [negb when].
  { apply wp_bind, wp_ret. apply quiet_stays; [by apply send_to_quiet|done]. }
  simpl in Hterm. apply Z.eqb_eq in Hterm. rewrite orb_false_r in Hcan.
  assert (f_voted_for f = from \/ f_voted_for f = no_id) as Hvote.
  { destruct (N.eqb_spec (f_voted_for f) from), (N.eqb_spec (f_voted_for f) no_id); [by auto..|done]. }
  apply wp_bind, wp_bind, wp_modify, wp_modify. unfold send_to, signal. apply wp_bind, wp_modify, wp_modify.
  rewrite <- Hterm. by apply (give_vote_sound f from (f_clock f) true).
Qed.

(** ** Campaigns *)

(** A machine in an election, unless it gave up; [K] tells about its votes. *)
Record campaigning (K : fsm -> candidate -> Prop) f : Prop := {
  ca_id : f_my_id f <> no_id;
  ca_honest : honest f;
  ca_state :
    match f_state f with
    | Follower _ => True
    | Candidate c => K f c
    | Leader _ => False
    end;
}.

Definition stable (K : fsm -> candidate -> Prop) : Prop :=
  forall f f' c, undisturbed f f' -> K f c -> K f' c.

Lemma undisturbed_campaigning K f f' :
  stable K -> undisturbed f f' -> campaigning K f -> campaigning K f'.
Proof.
  intros HK Hu [Hid Hh Hs]. split; [by rewrite (un_id _ _ Hu)|by apply undisturbed_honest with f|].
  pose proof Hu as [_ _ _ _ _ Hs' _]. destruct (f_state f') eqn:Hf'; [done| |].
  - rewrite Hs' in Hs. by apply (HK f).
  - unfold is_leader in Hs'. by destruct (f_state f).
Qed.

Lemma quiet_campaigning {A} K (m : FSM A) Q X f :
  keeps undisturbed m -> stable K -> campaigning K f ->
  (forall a f', campaigning K f' -> Q a f') -> (forall e f', campaigning K f' -> X e f') ->
  wp m Q X (fun _ => True) f.
Proof. intros Hm HK Hf HQ HX. eapply wp_keeps; [exact Hm| | |done]; eauto using undisturbed_campaigning. Qed.

(** In a pre-vote, before the new term of an election, and in that term. *)
Definition prevoting (f : fsm) (c : candidate) : Prop := c_is_prevote c = true.
Definition starting (cfg : configuration) (f : fsm) (c : candidate) : Prop :=
  c = MkCandidate (make_votes cfg) false /\ forall t, C (f_draws f) t cfg.
Definition unvoted f : Prop := forall c t, given f c t -> t < f_current_term f.
Definition running (cfg : configuration) (f : fsm) (c : candidate) : Prop :=
  c_is_prevote c = false /\ C (f_draws f) (f_current_term f) cfg /\ unvoted f /\
  exists vs, c_votes c = votes_register_all cfg vs /\ forall s, (s, true) ∈ vs -> counts f s.

Lemma prevoting_stable : stable prevoting.
Proof. by intros f f' c _. Qed.
Lemma starting_stable cfg : stable (starting cfg).
Proof. intros f f' c Hu [-> Hc]. split; [done|]. by rewrite (un_draws _ _ Hu). Qed.
Lemma running_stable cfg : stable (running cfg).
Proof.
  intros f f' c [Hi Ht Hv _ Hdr _ Hm] (Hp & HC & Hu & vs & Hvs & Hc). split; [done|].
  split; [by rewrite Hdr, Ht|]. split.
  - intros d t [Hd|Hd]; rewrite Ht; eapply Hu; [left|right; apply Hm]; exact Hd.
  - exists vs. eauto using counts_same.
Qed.

Lemma prevoting_sound f : campaigning prevoting f -> sound f.
Proof.
  intros [Hid Hh Hs]. split; [done..|]. unfold counted. destruct (f_state f); [done| |done].
  unfold prevoting in Hs. congruence.
Qed.
Lemma starting_sound cfg f : campaigning (starting cfg) f -> sound f.
Proof.
  intros [Hid Hh Hs]. split; [done..|]. unfold counted. destruct (f_state f); [done| |done].
  intros _. destruct Hs as [-> ?]. exists cfg, []. split_and!; [done..|]. intros s Hin. inversion Hin.
Qed.
Lemma running_sound cfg f : campaigning (running cfg) f -> sound f.
Proof.
  intros [Hid Hh Hs]. split; [done..|]. unfold counted. destruct (f_state f); [done| |done].
  intros _. destruct Hs as (_ & ? & _ & vs & ? & ?). by exists cfg, vs.
Qed.

(** One voter of a pre-vote, and of an election. *)
Lemma campaign_to_prevoting f tr term id : campaigning prevoting f ->
  wp (campaign_to true tr term id) (fun _ => campaigning prevoting) (fun _ => campaigning prevoting) (fun _ => True) f.
Proof.
  intros Hf. unfold campaign_to. apply wp_bind, wp_gets. destruct (id =? f_my_id f)%N.
  - apply wp_bind. unfold update_candidate, candidate_state. apply wp_bind, wp_bind, wp_gets.
    destruct (f_state f) as [|c|] eqn:Hs; try (by apply wp_throw). apply wp_ret, wp_modify. cbn [negb when].
    apply wp_ret. destruct Hf as [Hid Hh Hc]. rewrite Hs in Hc. split; [done|by apply (honest_same f)|exact Hc].
  - eapply quiet_campaigning; [by apply send_to_quiet|apply prevoting_stable|done|done|done].
Qed.

Lemma own_vote_running cfg f c : f_state f = Candidate c -> campaigning (running cfg) f ->
  campaigning (running cfg) (set_voted_for (f_my_id f) (set_state (Candidate
    (MkCandidate (votes_register_vote (c_votes c) (f_my_id f) true) (c_is_prevote c))) f)).
Proof.
  intros Hs [Hid [Hk Ho] Hc]. rewrite Hs in Hc. destruct Hc as (Hp & HC & Hu & vs & Hvs & Hcount).
  split; [done| |cbn [f_state set_voted_for set_state]].
  - split; [|exact Ho]. intros d t Hd. split; [by eapply Hk|]. left. by eapply Hu.
  - split; [done|]. split; [exact HC|]. split; [exact Hu|]. exists (vs ++ [(f_my_id f, true)]). split.
    { rewrite Hvs. unfold votes_register_all. by rewrite fold_left_app. }
    intros s [Hin|Hin]%elem_of_app.
    + destruct (Hcount s Hin) as [[-> _]|?]; [by left|by right].
    + apply list_elem_of_singleton in Hin. injection Hin as ->. by left.
Qed.

Lemma campaign_to_running cfg f tr term id : campaigning (running cfg) f ->
  wp (campaign_to false tr term id) (fun _ => campaigning (running cfg)) (fun _ => campaigning (running cfg))
    (fun _ => True) f.
Proof.
  intros Hf. unfold campaign_to. apply wp_bind, wp_gets. destruct (N.eqb_spec id (f_my_id f)) as [-> |].
  - apply wp_bind. unfold update_candidate, candidate_state. apply wp_bind, wp_bind, wp_gets.
    destruct (f_state f) as [|c|] eqn:Hs; try (by apply wp_throw). apply wp_ret, wp_modify. cbn [negb when].
    apply wp_modify. by apply own_vote_running.
  - eapply quiet_campaigning; [by apply send_to_quiet|apply running_stable|done|done|done].
Qed.

(** The new term of an election. *)
Lemma update_current_term_running cfg f t Q X :
  campaigning (starting cfg) f ->
  (forall f', campaigning (running cfg) f' -> Q tt f') ->
  wp (update_current_term t) Q X (fun _ => True) f.
Proof.
  intros [Hid Hh Hs] HQ. unfold update_current_term.
  apply wp_bind, assert_that_cases; [|done]. intros Hlt%Z.ltb_lt. apply wp_bind, wp_modify, wp_modify, HQ.
  destruct (new_term_honest f t Hlt Hh) as [Hh' Hu]. split; [done|done|].
  cbn [f_state set_voted_for set_current_term]. destruct (f_state f) as [|c|]; [done| |done].
  destruct Hs as [-> HC]. split; [done|]. split; [apply HC|]. split; [exact Hu|].
  exists []. split; [done|]. intros s Hin. inversion Hin.
Qed.

(** A campaign from here on is with the configuration of the log. *)
Definition config_ok f : Prop :=
  forall cfg d t, get_configuration (f_log f) = Ret cfg -> (f_draws f < d)%nat -> C d t cfg.

Lemma config_ok_onward f f' : onward f f' -> config_ok f -> config_ok f'.
Proof. intros [Hl Hd] Hok cfg d t. rewrite Hl. intros. apply Hok; [done|lia]. Qed.

(** A campaign that is over: won only with enough votes. *)
Definition campaign_won (r : option vote_result) f : Prop := r = Some WON -> elected f.

Lemma tally_elected f c : counted f -> f_state f = Candidate c -> c_is_prevote c = false ->
  votes_tally_votes (c_votes c) = Ret WON -> elected f.
Proof.
  unfold counted. intros Hc Hs Hp. rewrite Hs in Hc. destruct (Hc Hp) as (cfg & vs & HC & -> & Hcount).
  intros Hw%tally_wins. exists cfg, (list_to_set (filter (fun v => v.2 = true) vs).*1).
  split_and!; [done..|]. intros s Hin. apply Hcount. apply elem_of_list_to_set in Hin.
  apply list_elem_of_fmap in Hin as ([s' b] & -> & Hin). by apply list_elem_of_filter in Hin as [? ?]; simpl in *; subst.
Qed.

(** A campaign up to its new term, for either kind. Drawing the election timeout
    reads the configuration that the campaign has just read, and so succeeds. *)
Lemma campaign_start f p tr K (Q : option vote_result -> fsm -> Prop) :
  sound f -> (forall cfg, stable (K cfg)) ->
  (forall cfg f', get_configuration (f_log f) = Ret cfg -> (f_draws f < f_draws f')%nat ->
    K cfg f' (MkCandidate (make_votes cfg) p)) ->
  (forall cfg f', campaigning (K cfg) f' -> sound f') ->
  (forall f', sound f' -> Q None f') ->
  (forall cfg term ids f', campaigning (K cfg) f' ->
    wp (when (negb p) (update_current_term term) ;; for_each ids (campaign_to p tr term) ;;
        c ← candidate_state; r ← lift (votes_tally_votes (c_votes c)); mret (Some r))
      Q (fun _ => sound) (fun _ => True) f') ->
  wp (campaign p tr) Q (fun _ => sound) (fun _ => True) f.
Proof.
  intros Hf HK Hinit Hsound HNone Hrest. unfold campaign. apply wp_bind, wp_gets.
  apply wp_bind. apply wp_mono with (fun _ g => undisturbed f g /\ f_log g = f_log f) (fun _ _ => False) (fun _ => True);
    [|intros _ g [Hg Hlog]|done..].
  { apply wp_when; intros _; [apply wp_modify|]; (split; [undisturbed_frame|done]). }
  pose proof (undisturbed_sound _ _ Hg Hf) as [Hid Hh Hcnt].
  apply wp_bind, wp_lift; [|done..]. intros cfg Hcfg. apply wp_bind, wp_modify.
  unfold reset_election_timeout. apply wp_bind, wp_bind, wp_gets. apply wp_bind. cbn [f_log set_state].
  rewrite Hlog, Hcfg. apply wp_ret, wp_bind, wp_modify, wp_modify.
  match goal with |- wp _ _ _ _ ?h => assert (campaigning (K cfg) h) as Hg2; [|revert Hg2; generalize h] end.
  { split; [done|by apply (honest_same g)|]. apply Hinit; [done|]. cbn. rewrite (un_draws _ _ Hg). lia. }
  intros g2 Hg2. assert (forall e f', campaigning (K cfg) f' -> (fun _ : raft_error => sound) e f') as Hthrow by eauto.
  apply wp_bind. eapply quiet_campaigning; [keeps_auto|done|exact Hg2| |done]. intros _ g3 Hg3.
  apply wp_bind. eapply quiet_campaigning; [keeps_auto|done|exact Hg3| |done]. intros c g4 Hg4.
  apply wp_bind. eapply quiet_campaigning; [keeps_auto|done|exact Hg4| |done]. intros may g5 Hg5.
  destruct may; cbn [negb]; [by eapply Hrest|].
  apply wp_bind. eapply quiet_campaigning; [keeps_auto|done|exact Hg5| |done]. intros _ g6 Hg6.
  apply wp_ret, HNone. eauto.
Qed.

Lemma campaign_prevote_sound f tr : sound f -> stays (campaign true tr) f.
Proof.
  intros Hf. apply (campaign_start f true tr (fun _ => prevoting)); [done|..].
  - intros _. apply prevoting_stable.
  - done.
  - intros _ f'. apply prevoting_sound.
  - done.
  - intros _ term ids f1 Hf1. cbn [negb when]. apply wp_bind, wp_ret, wp_bind.
    apply wp_mono with (fun _ => campaigning prevoting) (fun _ => campaigning prevoting) (fun _ => True); [| |by eauto using prevoting_sound|done].
    { apply wp_for_each; [|done]. eauto using campaign_to_prevoting. }
    intros _ f2 Hf2. eapply quiet_campaigning; [keeps_auto|apply prevoting_stable|exact Hf2|by eauto using prevoting_sound..].
Qed.

Lemma campaign_sound f tr : sound f -> config_ok f ->
  wp (campaign false tr) (fun r f' => sound f' /\ campaign_won r f') (fun _ => sound) (fun _ => True) f.
Proof.
  intros Hf Hok. apply (campaign_start f false tr starting); [done|..].
  - apply starting_stable.
  - intros cfg f' Hcfg Hd. split; [done|]. intros t. by apply Hok.
  - apply starting_sound.
  - by intros f' Hf'.
  - intros cfg term ids f1 Hf1. cbn [negb when]. apply wp_bind.
    eapply update_current_term_running; [exact Hf1|]. intros f2 Hf2. apply wp_bind.
    apply wp_mono with (fun _ => campaigning (running cfg)) (fun _ => campaigning (running cfg)) (fun _ => True);
      [| |by eauto using running_sound|done].
    { apply wp_for_each; [|done]. eauto using campaign_to_running. }
    intros _ f3 Hf3. pose proof (running_sound cfg f3 Hf3). apply wp_bind. unfold candidate_state. apply wp_bind, wp_gets.
    destruct (f_state f3) as [|c|] eqn:Hs; try (by apply wp_throw). apply wp_ret, wp_bind, wp_lift; [|done..].
    intros r Hr. apply wp_ret. split; [done|]. intros [= ->]. destruct Hf3 as [_ _ Hc]. rewrite Hs in Hc.
    destruct Hc as [Hp _]. by eapply tally_elected; [apply so_counted| | |].
Qed.

Lemma become_real_candidate_sound f tr : sound f -> config_ok f -> stays (become_real_candidate tr) f.
Proof.
  intros Hf Hok. unfold stays, become_real_candidate. apply wp_bind.
  eapply wp_mono; [by apply campaign_sound| |done|done]. intros r f' [[Hid Hh Hc] Hwon].
  apply wp_when; intros Hr; [|done]. apply bool_decide_eq_true in Hr. by apply become_leader_sound, Hwon.
Qed.

Lemma become_candidate_sound f p tr : sound f -> config_ok f -> stays (become_candidate p tr) f.
Proof.
  intros Hf Hok. unfold become_candidate. destruct p; [|by apply become_real_candidate_sound].
  apply wp_bind. eapply wp_mono; [apply (wp_and _ (fun _ => sound) (fun _ => onward f) (fun _ => sound) (fun _ => onward f));
    [by apply campaign_prevote_sound|apply campaign_onward]| |by intros e f' []|done].
  intros r f' [Hf' Hlog]. apply wp_when; intros _; [|done].
  apply become_real_candidate_sound; [done|by eapply config_ok_onward].
Qed.

(** ** Counting a vote *)

Lemma count_vote_sound f c from g : sound f -> f_state f = Candidate c ->
  (g = true -> c_is_prevote c = false -> V from (f_current_term f)) ->
  sound (set_state (Candidate (MkCandidate (votes_register_vote (c_votes c) from g) (c_is_prevote c))) f).
Proof.
  intros [Hid Hh Hc] Hs HV. split; [done|by apply (honest_same f)|].
  unfold counted in *. rewrite Hs in Hc. cbn [f_state set_state c_is_prevote c_votes]. intros Hp.
  destruct (Hc Hp) as (cfg & vs & HC & Hvs & Hcount). exists cfg, (vs ++ [(from, g)]). split; [done|]. split.
  { rewrite Hvs. unfold votes_register_all. by rewrite fold_left_app. }
  intros s [Hin|Hin]%elem_of_app; [exact (Hcount s Hin)|].
  apply list_elem_of_singleton in Hin. injection Hin as -> <-. right. by apply HV.
Qed.

Lemma tally_sound f c : sound f -> config_ok f -> f_state f = Candidate c ->
  stays (r ← lift (votes_tally_votes (c_votes c));
    match r with
    | UNKNOWN => mret tt
    | WON => if c_is_prevote c then become_candidate false false else become_leader
    | LOST => become_follower no_id
    end) f.
Proof.
  intros Hf Hok Hs. apply wp_bind, wp_lift; [|done..]. intros v Hv. destruct v.
  - by apply wp_ret.
  - destruct (c_is_prevote c) eqn:Hp; [by apply become_candidate_sound|].
    destruct Hf. apply become_leader_sound; [done..|]. by eapply tally_elected.
  - by apply quiet_stays; [keeps_auto|].
Qed.

Lemma request_vote_reply_sound f from r : sound f -> config_ok f ->
  (vrep_vote_granted r = true -> vrep_is_prevote r = false -> V from (f_current_term f)) ->
  stays (request_vote_reply from r) f.
Proof.
  intros Hf Hok HV. unfold stays, request_vote_reply. apply wp_bind, assert_that_cases; [|done]. intros _.
  apply wp_bind. unfold candidate_state at 1. apply wp_bind, wp_gets.
  destruct (f_state f) as [|c|] eqn:Hs; try (by apply wp_throw). apply wp_ret.
  destruct (Bool.eqb (c_is_prevote c) (vrep_is_prevote r)) eqn:Hp; cbn [negb]; [|by apply wp_ret].
  apply eqb_prop in Hp. apply wp_bind. unfold update_candidate, candidate_state. apply wp_bind, wp_bind, wp_gets.
  rewrite Hs. apply wp_ret, wp_modify, wp_bind, wp_bind, wp_gets. cbn [f_state set_state]. apply wp_ret.
  apply tally_sound; [|done|done]. apply count_vote_sound; [done|done|]. rewrite Hp. auto.
Qed.

(** ** Every call *)

Lemma step_state_sound f from msg : from <> no_id -> from <> f_my_id f -> sound f -> config_ok f ->
  (forall r, msg = msg_vote_reply r -> is_candidate f = true -> vrep_vote_granted r = true ->
    vrep_is_prevote r = false -> V from (f_current_term f)) ->
  stays (step_state from msg) f.
Proof.
  intros Hfrom Hme Hf Hok HV. unfold stays, step_state. apply wp_bind, wp_gets.
  unfold is_candidate in HV. destruct (f_state f) eqn:Hs; [unfold step_follower|unfold step_candidate|unfold step_leader];
    destruct msg; try (by apply quiet_stays; [keeps_auto|]); try (by apply request_vote_sound).
  - by apply become_candidate_sound.
  - apply request_vote_reply_sound; [done..|]. intros. by eapply HV.
Qed.

Lemma adopt_term_sound f id t : sound f ->
  wp (become_follower id ;; update_current_term t)
    (fun _ f' => sound f' /\ f_my_id f' = f_my_id f /\ is_candidate f' = false /\ onward f f')
    (fun _ => sound) (fun _ => True) f.
Proof.
  intros Hf.
  assert (wp (become_follower id) (fun _ f' => undisturbed f f' /\ exists l, f_state f' = Follower l)
    (fun _ => undisturbed f) (fun _ => True) f) as Hb.
  { eapply wp_mono; [apply (wp_and _ (fun _ => undisturbed f) (fun _ f' => exists l, f_state f' = Follower l)
      (fun _ => undisturbed f) (fun _ _ => True)); [apply become_follower_quiet|]|done|by intros e f' []|done].
    unfold become_follower. apply wp_bind, wp_gets. case_match; [by apply wp_throw|].
    apply wp_bind, wp_when; intros _; [apply wp_modify|]; (apply wp_bind, wp_modify, wp_when; intros _;
      [apply wp_bind, wp_modify, wp_modify|]; by eexists). }
  eapply wp_mono; [apply (wp_and _ (fun _ f' => sound f' /\ f_my_id f' = f_my_id f /\ is_candidate f' = false)
    (fun _ => onward f) (fun _ => sound) (fun _ => onward f)); [|apply adopt_term_onward]| |by intros e f' []|done].
  2: by intros _ f' [(? & ? & ?) ?].
  apply wp_bind. eapply wp_mono; [exact Hb| |by intros e f' ?; apply undisturbed_sound with f|done].
  intros _ g [Hu [l Hl]]. pose proof (undisturbed_sound _ _ Hu Hf) as Hg.
  eapply wp_mono; [apply (wp_and _ (fun _ => sound) (fun _ f' => f_my_id f' = f_my_id g /\ f_state f' = f_state g)
    (fun _ => sound) (fun _ _ => True)); [by eapply update_current_term_sound|]| |by intros e f' []|done].
  { unfold update_current_term. apply wp_bind, assert_that_cases; [|done]. intros _. by apply wp_bind, wp_modify, wp_modify. }
  intros _ f' (? & Hid & Hst). split_and!; [done|by rewrite Hid, (un_id _ _ Hu)|]. unfold is_candidate. by rewrite Hst, Hl.
Qed.

Lemma step_sound f from msg : from <> no_id -> sound f -> config_ok f ->
  (forall r, msg = msg_vote_reply r -> vrep_vote_granted r = true -> vrep_is_prevote r = false ->
    V from (vrep_current_term r)) ->
  stays (step from msg) f.
Proof.
  intros Hfrom Hf Hok HV. unfold stays, step. apply wp_bind, wp_gets.
  destruct (N.eqb_spec from (f_my_id f)) as [|Hme]; [by apply wp_throw|].
  destruct (msg_current_term msg >? f_current_term f) eqn:Hgt.
  - assert (stays (when (negb (ignore_term msg))
      (become_follower (if from_leader msg then from else no_id) ;; update_current_term (msg_current_term msg)) ;;
      step_state from msg) f) as Hgo; [|destruct msg; try exact Hgo; by apply wp_ret].
    apply wp_bind, wp_when; intros Hig.
    + eapply wp_mono; [by apply adopt_term_sound| |done|done]. intros _ g (Hg & Hid & Hc & Hl).
      apply step_state_sound; [done|by rewrite Hid|done|by eapply config_ok_onward|congruence].
    + apply step_state_sound; [done..|]. intros r -> _ Hg Hp. exfalso. simpl in Hig.
      by rewrite Hg, Hp in Hig.
  - destruct (msg_current_term msg <? f_current_term f) eqn:Hlt; [by apply quiet_stays; [keeps_auto|]|].
    apply wp_bind. eapply wp_mono; [apply (wp_and _ (fun _ => undisturbed f) (fun _ => onward f)
      (fun _ => undisturbed f) (fun _ => onward f)); [apply step_same_term_quiet|apply step_same_term_onward]| | |done].
    + intros _ g [Hu Hl]. apply step_state_sound; [done| | | |].
      * by rewrite (un_id _ _ Hu).
      * by apply undisturbed_sound with f.
      * by eapply config_ok_onward.
      * intros r -> _ Hg Hp. rewrite (un_term _ _ Hu). replace (f_current_term f) with (vrep_current_term r); [by apply HV|].
        simpl in *. lia.
    + intros e g [Hu _]. by apply undisturbed_sound with f.
Qed.

Lemma tick_sound f alive : sound f -> config_ok f -> stays (tick alive) f.
Proof.
  intros Hf Hok. unfold stays, tick. apply wp_bind, wp_modify. set (f1 := set_clock _ f).
  assert (sound f1) as Hf1 by (apply undisturbed_sound with f; [undisturbed_frame|done]).
  assert (config_ok f1) as Hok1 by done. clearbody f1. clear f Hf Hok.
  apply wp_bind, wp_gets. apply wp_bind.
  apply wp_mono with (fun _ => sound) (fun _ => sound) (fun _ => True); [| |done|done].
  - destruct (is_leader f1); [by apply quiet_stays; [keeps_auto|]|].
    apply wp_bind. unfold has_stable_leader. apply wp_bind, wp_gets. apply wp_bind, wp_lift; [|done..].
    intros cfg _. apply wp_ret. case_match; [by apply quiet_stays; [keeps_auto|]|].
    apply wp_when; intros _; [|done]. by apply become_candidate_sound.
  - intros _ f2 Hf2. by apply quiet_stays; [keeps_auto|].
Qed.

(** What the server may be told: a vote that was given to it. *)
Definition call_ok (c : call) : Prop :=
  match c with
  | CallStep from msg => from <> no_id /\
      forall t, msg = granted t -> V from t
  | CallGetOutput => False
  | _ => True
  end.

Lemma run_call_sound f c : call_ok c -> sound f -> config_ok f -> stays (run_call c) f.
Proof.
  intros Hc Hf Hok. destruct c; cbn [run_call]; try done;
    try (by apply quiet_stays; [keeps_auto|]).
  - destruct Hc as [Hfrom HV]. apply step_sound; [done..|]. intros [t g p] -> Hg Hp. simpl in *. subst.
    by apply HV.
  - by apply tick_sound.
Qed.

(** A follower draws an election timeout. *)
Lemma follower_draw_sound f l : f_state f = Follower l -> sound f -> stays reset_election_timeout f.
Proof.
  intros Hs [Hid Hh Hc]. unfold stays, reset_election_timeout. apply wp_bind, wp_gets.
  apply wp_bind, wp_lift; [|done..]. intros cfg _. apply wp_bind, wp_modify, wp_modify.
  split; [done|by apply (honest_same f)|]. unfold counted. cbn. by rewrite Hs.
Qed.

Lemma make_fsm_sound id term vote l commit config f :
  (forall c t, G c t -> c <> no_id /\ (t < term \/ t = term /\ c = vote)) ->
  (forall c c' t, G c t -> G c' t -> c = c') ->
  config_ok (initial_fsm id term vote l commit config) ->
  make_fsm id term vote l commit config = Ret f -> sound f.
Proof.
  intros Hk Ho HC. unfold make_fsm. destruct (N.eqb_spec id no_id) as [|Hid]; [done|].
  set (f0 := initial_fsm id term vote l commit config) in *.
  assert (forall c t, given f0 c t -> G c t) as Hgiven.
  { intros c t [?|Hin]; [done|]. inversion Hin. }
  assert (sound f0) as Hf0.
  { split; [done| |done]. split; [intros c t Hc%Hgiven; by apply Hk|].
    intros c c' t Hc%Hgiven Hc'%Hgiven. by eapply Ho. }
  assert (f_state f0 = Follower no_id) as Hst by done. clearbody f0.
  assert (stays fsm_start f0) as Hs.
  { unfold stays, fsm_start. apply wp_bind, wp_gets. apply wp_bind, wp_lift; [|done..]. intros cfg _.
    case_match; [by apply become_candidate_sound|by eapply follower_draw_sound]. }
  unfold stays, wp in Hs. destruct (fsm_start f0) as [[] f1]; try done. by intros [= <-].
Qed.

End votes.

(** ** What was observed *)

Definition same_observed (f f' : fsm) : Prop := f_observed f' = f_observed f.

#[export] Instance same_observed_preorder : PreOrder same_observed.
Proof. split; [done|]. unfold same_observed. intros f g h. congruence. Qed.

Lemma quiet_observed {A} (m : FSM A) : keeps undisturbed m -> keeps same_observed m.
Proof. intros Hm f. eapply wp_mono; [apply Hm|by intros a f' []|by intros e f' []|done]. Qed.

Section observed.
Context {env : raft_env}.

Hint Extern 1 (keeps same_observed (modify _)) => apply keeps_modify; done : keeps.
Hint Extern 3 (keeps same_observed _) => apply quiet_observed; solve [auto 2 with keeps] : keeps.

Lemma send_to_observed to m : keeps same_observed (send_to to m).
Proof. unfold send_to, signal. keeps_auto. Qed.
Hint Resolve send_to_observed : keeps.
Lemma update_current_term_observed t : keeps same_observed (update_current_term t).
Proof. unfold update_current_term. keeps_auto. Qed.
Lemma become_leader_observed : keeps same_observed become_leader.
Proof. unfold become_leader. keeps_auto. Qed.
Hint Resolve update_current_term_observed become_leader_observed : keeps.
Lemma campaign_observed p t : keeps same_observed (campaign p t).
Proof. unfold campaign, reset_election_timeout, campaign_to, update_candidate. keeps_auto. Qed.
Hint Resolve campaign_observed : keeps.
Lemma become_candidate_observed p t : keeps same_observed (become_candidate p t).
Proof. unfold become_candidate, become_real_candidate. keeps_auto. Qed.
Lemma request_vote_observed from r : keeps same_observed (request_vote from r).
Proof. unfold request_vote. keeps_auto. Qed.
Hint Resolve become_candidate_observed request_vote_observed : keeps.
Lemma request_vote_reply_observed from r : keeps same_observed (request_vote_reply from r).
Proof. unfold request_vote_reply, update_candidate. keeps_auto. Qed.
Hint Resolve request_vote_reply_observed : keeps.
Lemma step_observed from msg : keeps same_observed (step from msg).
Proof. unfold step, step_state, step_follower, step_candidate, step_leader. keeps_auto. Qed.
Lemma tick_observed alive : keeps same_observed (tick alive).
Proof. unfold tick. keeps_auto. Qed.
Hint Resolve step_observed tick_observed : keeps.
Lemma run_call_observed c : c <> CallGetOutput -> keeps same_observed (run_call c).
Proof. intros Hc. destruct c; try done; unfold run_call; keeps_auto. Qed.
Lemma fsm_start_observed : keeps same_observed fsm_start.
Proof. unfold fsm_start, reset_election_timeout. keeps_auto. Qed.

End observed.

(** ** Taking the output *)

(** [get_output] hands over the pending messages and reports the term and the
    vote, and leaves elections alone otherwise. *)
Record taken (f : fsm) (o : fsm_output) (f' f1 : fsm) : Prop := {
  ta_before : undisturbed f f1;
  ta_messages : o_messages o = f_messages f1;
  ta_report : o_term_and_vote o = output_term_and_vote f1;
  ta_term : ob_current_term (f_observed f') = f_current_term f1;
  ta_vote : ob_voted_for (f_observed f') = f_voted_for f1;
  ta_after : undisturbed (set_messages [] (set_observed (f_observed f') f1)) f';
}.

Lemma get_output_taken `{env : raft_env} f o f' :
  get_output f = (Ret o, f') -> exists f1, taken f o f' f1.
Proof.
  intros Ho. assert (wp get_output (fun o f' => exists f1, taken f o f' f1) (fun _ _ => True) (fun _ => True) f) as Hw;
    [|unfold wp in Hw; by rewrite Ho in Hw]. clear o f' Ho.
  unfold get_output. apply wp_bind, wp_gets. cbv zeta. apply wp_bind.
  eapply (wp_keeps undisturbed); [keeps_auto| |done|done]. intros _ f1 Hf1. apply wp_bind, wp_gets.
  apply wp_bind, wp_modify. apply wp_bind, wp_lift; [|done..]. intros es _. apply wp_bind, wp_lift; [|done..].
  intros cs _. apply wp_bind, wp_modify, wp_bind, wp_modify. apply wp_bind, wp_lift; [|done..]. intros cfg _.
  apply wp_bind, wp_modify. match goal with |- wp _ _ _ _ ?g => set (f2 := g) end.
  assert (undisturbed (set_messages [] (set_observed (f_observed f2) f1)) f2) as H2 by (split; try done; exact (same_kind f1)).
  assert (ob_current_term (f_observed f2) = f_current_term f1 /\ ob_voted_for (f_observed f2) = f_voted_for f1) as [Ht Hv] by done.
  clearbody f2. apply wp_bind. eapply (wp_keeps undisturbed); [keeps_auto| |done|done]. intros _ f3 H3.
  apply wp_ret. exists f1. pose proof (un_observed _ _ H3) as H3o. split; cbn; rewrite ?H3o; try done. by etransitivity.
Qed.

Lemma taken_sound (G V : server_id -> term_t -> Prop) C f o f' f1 : taken f o f' f1 -> sound G V C f ->
  sound (fun c t => G c t \/ (c, granted t) ∈ o_messages o) V C f'.
Proof.
  intros [Hu Hm _ _ _ Hu'] Hf%(undisturbed_sound _ _ _ _ _ Hu). apply (undisturbed_sound _ _ _ _ _ Hu').
  clear Hu'. destruct Hf as [Hid [Hk Ho] Hc].
  assert (forall c t, given (fun c t => G c t \/ (c, granted t) ∈ o_messages o)
    (set_messages [] (set_observed (f_observed f') f1)) c t -> given G f1 c t) as Hg.
  { unfold given. rewrite Hm. intros c t [[?|?]|Hin]; [by left|by right|inversion Hin]. }
  split; [done| |exact Hc]. split; [intros c t Hct%Hg; by apply Hk|].
  intros c c' t Hct%Hg Hct'%Hg. by eapply Ho.
Qed.

(** A candidate that is past its pre-vote, or a leader. *)
Definition in_election (f : fsm) : bool :=
  match f_state f with
  | Follower _ => false
  | Candidate c => negb (c_is_prevote c)
  | Leader _ => true
  end.

Lemma sound_mono (G G' V V' : server_id -> term_t -> Prop) C C' f :
  (forall c t, G c t <-> G' c t) -> (forall s t, V s t -> V' s t) ->
  (forall cfg, in_election f = true -> C (f_draws f) (f_current_term f) cfg -> C' (f_draws f) (f_current_term f) cfg) ->
  sound G V C f -> sound G' V' C' f.
Proof.
  intros HG HV HC [Hid [Hk Ho] Hc].
  assert (forall c t, given G' f c t -> given G f c t) as Hg.
  { intros c t [?|?]; [left; by apply HG|by right]. }
  split; [done|split; intros; eauto|].
  assert (forall s, counts V f s -> counts V' f s) as Hcount by (intros s [?|?]; [by left|right; auto]).
  unfold counted, elected, in_election in *. destruct (f_state f); [done| |].
  - intros Hp. destruct (Hc Hp) as (cfg & vs & ? & ? & ?). exists cfg, vs.
    split; [apply HC; [by rewrite Hp|done]|eauto].
  - destruct Hc as (cfg & g & ? & ? & ?). exists cfg, g. split; [by apply HC|eauto].
Qed.

Lemma fsm_start_later `{env : raft_env} : keeps later fsm_start.
Proof.
  unfold fsm_start. apply keeps_bind; [apply _|apply keeps_gets, _|intros f].
  apply keeps_bind; [apply _|apply keeps_lift, _|intros cfg].
  case_match; [apply become_candidate_later|apply reset_election_timeout_later].
Qed.

(** * The network *)

(** The servers that run, what each has persisted of its term and vote, every
    message ever sent, with its sender and its destination, and the configuration
    that each server campaigned with for each term. Only the proofs read the last. *)
Record network := Network {
  nodes : gmap N fsm;
  disk : gmap N (term_t * server_id);
  sent : list (server_id * server_id * rpc_message);
  campaigns : gmap (N * Z) configuration;
}.

(** What a call that takes the machine of server [i] from [f] to [f'] adds to
    [campaigns]. Every campaign draws a new election timeout and nothing else does,
    once the machine is constructed; the configuration is that of the log. *)
Definition campaigned (i : server_id) (f f' : fsm) (cs : gmap (N * Z) configuration) :=
  if in_election f' && (f_draws f <? f_draws f')%nat then
    match get_configuration (f_log f) with
    | Ret c => <[(i, f_current_term f') := c]> cs
    | _ => cs
    end
  else cs.

Section network.
Context {env : raft_env}.

(** A server persists the term and the vote of an output before it sends the
    messages of the output. *)
Definition persist (tv : option (term_t * server_id)) (i : server_id) (d : gmap N (term_t * server_id)) :=
  match tv with Some tv => <[i := tv]> d | None => d end.

Inductive net_step (n : network) : network -> Prop :=
| net_call i c f o f' :
    nodes n !! i = Some f ->
    match c with
    | CallStep from msg => (from, i, msg) ∈ sent n
    | CallGetOutput => False
    | _ => True
    end ->
    run_call c f = (o, f') -> (forall r, o <> Abort r) ->
    net_step n (Network (<[i := f']> (nodes n)) (disk n) (sent n) (campaigned i f f' (campaigns n)))
| net_output i f o f' :
    nodes n !! i = Some f -> get_output f = (Ret o, f') ->
    net_step n (Network (<[i := f']> (nodes n)) (persist (o_term_and_vote o) i (disk n))
      (sent n ++ map (fun m => (i, m.1, m.2)) (o_messages o)) (campaigns n))
| net_crash i :
    net_step n (Network (delete i (nodes n)) (disk n) (sent n) (campaigns n))
| net_restart i term vote l commit config f :
    nodes n !! i = None -> disk n !! i = Some (term, vote) ->
    make_fsm i term vote l commit config = Ret f ->
    net_step n (Network (<[i := f]> (nodes n)) (disk n) (sent n)
      (campaigned i (initial_fsm i term vote l commit config) f (campaigns n))).

(** ** The invariant *)

(** The vote of [i] for [c] in term [t] is known outside of [i]. *)
Definition told (n : network) (i c : server_id) (t : term_t) : Prop := (i, c, granted t) ∈ sent n.

(** [c] is the configuration that [i] campaigned with for term [t]. *)
Definition ran (n : network) (i : server_id) (_ : nat) (t : term_t) (c : configuration) : Prop :=
  campaigns n !! (i, t) = Some c.

Record net_wf (n : network) : Prop := {
  nw_sender i c m : (i, c, m) ∈ sent n -> i <> no_id;
  nw_node i f : nodes n !! i = Some f -> f_my_id f = i /\
    sound (told n i) (fun s t => told n s i t) (ran n i) f /\
    disk n !! i = Some (ob_current_term (f_observed f), ob_voted_for (f_observed f)) /\
    ob_current_term (f_observed f) <= f_current_term f /\
    (ob_current_term (f_observed f) = f_current_term f ->
      ob_voted_for (f_observed f) = no_id \/ f_voted_for f = ob_voted_for (f_observed f));
  nw_told i c t : told n i c t -> c <> no_id /\ exists term vote, disk n !! i = Some (term, vote) /\
    (t < term \/ t = term /\ c = vote);
  nw_once i c c' t : told n i c t -> told n i c' t -> c = c';
}.

(** The persisted term and vote are older than those of the machine. *)
Definition persisted (term : term_t) (vote : server_id) (f : fsm) : Prop :=
  term <= f_current_term f /\
  (term = f_current_term f -> vote = no_id \/ f_voted_for f = vote).

Lemma persisted_later term vote f f' : persisted term vote f -> later f f' -> persisted term vote f'.
Proof.
  intros [Ht Hv] [_ _ Ht' Hv' _ _ _]. split; [lia|]. intros ->.
  assert (f_current_term f' = f_current_term f) as Heq by lia. rewrite Heq in Hv.
  destruct (Hv eq_refl) as [?|?]; [auto|]. destruct (Hv' Heq); [left; congruence|right; congruence].
Qed.

Lemma run_call_final c f o f' (R : fsm -> fsm -> Prop) :
  keeps R (run_call c) -> run_call c f = (o, f') -> (forall r, o <> Abort r) -> R f f'.
Proof.
  intros Hk Hc Ho. specialize (Hk f). unfold wp in Hk. rewrite Hc in Hk. destruct o; [done|done|].
  by destruct (Ho r).
Qed.

(** The configurations of the campaigns of [i] once a call began with [f]: those
    recorded so far, and that of the log. *)
Definition may_run (n : network) (i : server_id) (f : fsm) (d : nat) (t : term_t) (c : configuration) : Prop :=
  d = f_draws f /\ ran n i d t c \/ (f_draws f < d)%nat /\ get_configuration (f_log f) = Ret c.

Lemma campaigned_ran n i f f' c : in_election f' = true ->
  may_run n i f (f_draws f') (f_current_term f') c ->
  campaigned i f f' (campaigns n) !! (i, f_current_term f') = Some c.
Proof.
  unfold campaigned. intros -> [[Hd Hr]|[Hd Hc]]; simpl.
  - rewrite (proj2 (Nat.ltb_ge _ _)); [exact Hr|lia].
  - rewrite (proj2 (Nat.ltb_lt _ _) Hd), Hc. apply lookup_insert_eq.
Qed.

Lemma campaigned_other i j f f' cs t : j <> i -> campaigned i f f' cs !! (j, t) = cs !! (j, t).
Proof.
  intros Hj. unfold campaigned. destruct (_ && _); [|done]. destruct (get_configuration _); try done.
  apply lookup_insert_ne. congruence.
Qed.

(** A server that ends up sound for these keeps the network well formed. *)
Lemma net_update_wf n i f f' : net_wf n -> f_my_id f' = i ->
  sound (told n i) (fun s t => told n s i t) (may_run n i f) f' ->
  disk n !! i = Some (ob_current_term (f_observed f'), ob_voted_for (f_observed f')) ->
  persisted (ob_current_term (f_observed f')) (ob_voted_for (f_observed f')) f' ->
  net_wf (Network (<[i := f']> (nodes n)) (disk n) (sent n) (campaigned i f f' (campaigns n))).
Proof.
  intros [Hs Hn Ht Ho] Hid Hf Hd Hp. split; [exact Hs| |exact Ht|exact Ho].
  intros j g. cbn [nodes]. rewrite lookup_insert_Some. intros [[<- <-]|[Hne Hj]].
  - split_and!; [done| |done|apply Hp..]. eapply sound_mono; [| | |exact Hf]; [done|done|].
    intros cfg. apply campaigned_ran.
  - destruct (Hn j g Hj) as (? & Hg & ?). split_and!; [done| |naive_solver..].
    eapply sound_mono; [| | |exact Hg]; [done|done|]. intros cfg _. unfold ran. cbn [campaigns].
    by rewrite campaigned_other.
Qed.

Lemma net_call_wf n i c f o f' : net_wf n -> nodes n !! i = Some f ->
  match c with
  | CallStep from msg => (from, i, msg) ∈ sent n
  | CallGetOutput => False
  | _ => True
  end ->
  run_call c f = (o, f') -> (forall r, o <> Abort r) ->
  net_wf (Network (<[i := f']> (nodes n)) (disk n) (sent n) (campaigned i f f' (campaigns n))).
Proof.
  intros Hwf Hi Hc Hrun Hab. destruct (nw_node _ Hwf i f Hi) as (Hid & Hf & Hd & Hp).
  pose proof (run_call_final _ _ _ _ later (run_call_later c) Hrun Hab) as Hl.
  assert (same_observed f f') as Hobs.
  { eapply run_call_final; [apply run_call_observed|done|done]. by intros ->. }
  unfold same_observed in Hobs.
  assert (stays (told n i) (fun s t => told n s i t) (may_run n i f) (run_call c) f) as Hst.
  { apply run_call_sound.
    - destruct c; try done. split; [by eapply nw_sender|]. by intros t ->.
    - eapply sound_mono; [| | |exact Hf]; [done|done|]. intros cfg _ Hr. by left.
    - intros cfg d t Hcfg Hlt. by right. }
  apply net_update_wf; rewrite ?Hobs; [done|by rewrite (later_id _ _ Hl)| |done|by eapply persisted_later].
  unfold stays, wp in Hst. rewrite Hrun in Hst. destruct o; [done|done|]. by destruct (Hab r).
Qed.

Lemma net_restart_wf n i term vote l commit config f : net_wf n ->
  nodes n !! i = None -> disk n !! i = Some (term, vote) ->
  make_fsm i term vote l commit config = Ret f ->
  net_wf (Network (<[i := f]> (nodes n)) (disk n) (sent n)
    (campaigned i (initial_fsm i term vote l commit config) f (campaigns n))).
Proof.
  intros Hwf Hi Hd Hf.
  assert (later (initial_fsm i term vote l commit config) f /\
    same_observed (initial_fsm i term vote l commit config) f) as [Hlat Hobs].
  { unfold make_fsm in Hf. destruct (i =? no_id)%N; [done|].
    destruct (fsm_start (initial_fsm i term vote l commit config)) as [[[]| |] f1] eqn:Hst; try done.
    injection Hf as ->.
    by split; [eapply keeps_final; [apply fsm_start_later|]|eapply keeps_final; [apply fsm_start_observed|]]. }
  unfold same_observed in Hobs. apply net_update_wf; rewrite ?Hobs; [done|by rewrite (later_id _ _ Hlat)| |done|].
  - eapply make_fsm_sound; [| | |exact Hf].
    + intros c t Hct%(nw_told _ Hwf). destruct Hct as (? & term' & vote' & Hd' & ?). split; [done|].
      rewrite Hd in Hd'. by injection Hd' as <- <-.
    + intros c c' t. by apply nw_once.
    + intros cfg d t Hcfg Hlt. by right.
  - eapply persisted_later; [|exact Hlat]. split; [done|]. by right.
Qed.

(** After an output, what is persisted is what the machine knew. *)
Lemma taken_persists n i f o f' f1 : taken f o f' f1 ->
  disk n !! i = Some (ob_current_term (f_observed f), ob_voted_for (f_observed f)) ->
  persist (o_term_and_vote o) i (disk n) !! i = Some (f_current_term f1, f_voted_for f1).
Proof.
  intros [Hu _ -> _ _ _] Hd. unfold output_term_and_vote. rewrite (un_observed _ _ Hu).
  destruct (Z.eqb_spec (ob_current_term (f_observed f)) (f_current_term f1)) as [Ht|];
    [destruct (N.eqb_spec (ob_voted_for (f_observed f)) (f_voted_for f1)) as [Hv|]|]; simpl;
    [by rewrite <- Ht, <- Hv|by rewrite lookup_insert_eq..].
Qed.

Lemma net_output_wf n i f o f' : net_wf n -> nodes n !! i = Some f -> get_output f = (Ret o, f') ->
  net_wf (Network (<[i := f']> (nodes n)) (persist (o_term_and_vote o) i (disk n))
    (sent n ++ map (fun m => (i, m.1, m.2)) (o_messages o)) (campaigns n)).
Proof.
  intros [Hs Hn Ht Ho] Hi Hout. set (n' := Network _ _ _ _).
  destruct (Hn i f Hi) as (Hid & Hf & Hd & Hp). destruct (get_output_taken f o f' Hout) as [f1 Htk].
  pose proof (taken_persists n i f o f' f1 Htk Hd) as Hd1.
  pose proof (taken_sound _ _ _ _ _ _ _ Htk Hf) as Hf'. pose proof Htk as [Hu Hm _ Hobt Hobv Hu'].
  pose proof (undisturbed_sound _ _ _ _ _ Hu Hf) as [Hid1 [Hk1 Ho1] _].
  assert (forall j c t, told n' j c t <-> told n j c t \/ j = i /\ (c, granted t) ∈ o_messages o) as Htold.
  { intros j c t. unfold told. cbn [sent n']. rewrite elem_of_app, list_elem_of_fmap. split.
    - intros [?|([a b] & [= -> -> ->] & ?)]; auto.
    - intros [?|[-> ?]]; [auto|]. right. by exists (c, granted t). }
  assert (forall c t, told n' i c t -> given (told n i) f1 c t) as Hgiven.
  { intros c t [?|[_ ?]]%Htold; [by left|]. right. by rewrite <- Hm. }
  assert (forall j, j <> i -> disk n' !! j = disk n !! j) as Hother.
  { intros j Hj. cbn [disk n']. unfold persist. destruct (o_term_and_vote o); [|done]. by rewrite lookup_insert_ne. }
  split.
  - intros j c m. cbn [sent n']. rewrite elem_of_app, list_elem_of_fmap.
    intros [?|([a b] & [= -> _ _] & _)]; [by eapply Hs|]. by rewrite <- Hid; destruct Hf.
  - intros j g. cbn [nodes n']. rewrite lookup_insert_Some. intros [[<- <-]|[Hne Hj]].
    + rewrite Hobt, Hobv. pose proof Hu' as [Hid' Ht' Hv' _ _ _ _]. cbn in Hid', Ht', Hv'.
      split_and!; [by rewrite Hid', (un_id _ _ Hu)| |done|lia|auto].
      eapply sound_mono; [| | |exact Hf']; [|intros; by apply Htold; left|done].
      intros c t. rewrite Htold. naive_solver.
    + destruct (Hn j g Hj) as (? & Hg & ? & ?). rewrite Hother by done. split_and!; [done| |naive_solver..].
      eapply sound_mono; [| | |exact Hg]; [..|done]; intros; rewrite Htold; naive_solver.
  - intros j c t Hct. destruct (decide (j = i)) as [-> |Hj].
    + apply Hgiven, Hk1 in Hct as [? ?]. split; [done|]. by exists (f_current_term f1), (f_voted_for f1).
    + rewrite Hother by done. apply Ht. apply Htold in Hct. naive_solver.
  - intros j c c' t Hc Hc'. destruct (decide (j = i)) as [-> |Hj]; [by eapply Ho1; apply Hgiven|].
    apply Htold in Hc, Hc'. eapply Ho; naive_solver.
Qed.

Lemma net_step_wf n n' : net_wf n -> net_step n n' -> net_wf n'.
Proof.
  intros Hwf Hst. destruct Hst.
  - by eapply net_call_wf.
  - by eapply net_output_wf.
  - destruct Hwf as [Hs Hn Ht Ho]. split; [exact Hs| |exact Ht|exact Ho].
    intros j g. cbn [nodes]. rewrite lookup_delete_Some. intros [_ Hj]. exact (Hn j g Hj).
  - by eapply net_restart_wf.
Qed.

(** A network at its start: nothing runs and nothing was sent. *)
Lemma net_init_wf d : net_wf (Network ∅ d [] ∅).
Proof. split; unfold told; cbn; intros *; try (intros Hin; inversion Hin); done. Qed.

Lemma net_reachable_wf d n : rtc net_step (Network ∅ d [] ∅) n -> net_wf n.
Proof.
  intros Hr. pose proof (net_init_wf d) as Hwf. revert Hwf.
  induction Hr as [|m m' n Hst _ IH]; intros Hwf; [done|]. by eapply IH, net_step_wf.
Qed.

End network.

(** * One leader per term *)

(** Any two quorums of the configurations have a server in common. *)
Definition compatible (c c' : configuration) : Prop :=
  forall g g', wins c g -> wins c' g' -> exists s, s ∈ g /\ s ∈ g'.

Lemma majorities_meet v g g' : majority_of v (v ∩ g) -> majority_of v (v ∩ g') -> exists s, s ∈ g /\ s ∈ g'.
Proof.
  intros Hg Hg'. destruct (majority_intersect v (v ∩ g) (v ∩ g')) as (s & ? & ?); [set_solver..|done|done|].
  exists s. set_solver.
Qed.

Lemma compatible_refl c : compatible c c.
Proof. intros g g' [Hg _] [Hg' _]. by eapply majorities_meet. Qed.
Lemma compatible_sym c c' : compatible c c' -> compatible c' c.
Proof. intros H g g' Hg Hg'. destruct (H g' g Hg' Hg) as (s & ? & ?). by exists s. Qed.

Lemma compatible_enter c new c' : enter_joint c new = Ret c' -> compatible c c'.
Proof.
  unfold enter_joint. case_bool_decide; [done|]. intros [= <-] g g' [Hg _] [_ Hg'].
  cbn in Hg'. destruct (decide (current c = ∅)) as [He|Hne].
  - unfold majority_of in Hg. rewrite He in Hg. change (voter_ids ∅) with (∅ : gset N) in Hg.
    rewrite intersection_empty_l_L, size_empty in Hg. lia.
  - eapply majorities_meet; [exact Hg|]. apply Hg'. unfold is_joint. cbn. by rewrite bool_decide_eq_false_2.
Qed.

Lemma compatible_leave c c' : leave_joint c = Ret c' -> compatible c c'.
Proof.
  unfold leave_joint. destruct (is_joint c); [|done]. intros [= <-] g g' [Hg _] [Hg' _].
  by eapply majorities_meet.
Qed.

(** Configurations that are the same, or one step of a change apart. *)
Definition neighbours (c c' : configuration) : Prop :=
  c = c' \/ (exists new, enter_joint c new = Ret c') \/ leave_joint c = Ret c'.

Lemma neighbours_compatible c c' : neighbours c c' -> compatible c c'.
Proof. intros [-> |[[new ?]|?]]; eauto using compatible_refl, compatible_enter, compatible_leave. Qed.

Lemma one_leader `{env : raft_env} n i j fi fj : net_wf n ->
  nodes n !! i = Some fi -> nodes n !! j = Some fj ->
  is_leader fi = true -> is_leader fj = true -> f_current_term fi = f_current_term fj ->
  exists c c', campaigns n !! (i, f_current_term fi) = Some c /\ campaigns n !! (j, f_current_term fi) = Some c' /\
    (compatible c c' -> i = j).
Proof.
  intros Hwf Hi Hj Hli Hlj Ht.
  destruct (nw_node _ Hwf i fi Hi) as (Hidi & [_ Hoi Hci] & _).
  destruct (nw_node _ Hwf j fj Hj) as (Hidj & [_ Hoj Hcj] & _).
  unfold counted, is_leader in *. destruct (f_state fi); try done. destruct (f_state fj); try done.
  destruct Hci as (c & g & Hc & Hw & Hg), Hcj as (c' & g' & Hc' & Hw' & Hg').
  exists c, c'. split_and!; [exact Hc|rewrite Ht; exact Hc'|]. intros Hcc.
  destruct (Hcc g g' Hw Hw') as (s & Hs & Hs').
  destruct (Hg s Hs) as [[Heq' Hvi]|Hvi], (Hg' s Hs') as [[Heq Hvj]|Hvj]; cbv beta in *.
  - congruence.
  - rewrite <- Ht, Heq', Hidi in Hvj. destruct (ho_known _ _ Hoi j (f_current_term fi)) as [_ [?|[_ ?]]]; [by left|lia|congruence].
  - subst s. rewrite Ht, Hidj in Hvi.
    destruct (ho_known _ _ Hoj i (f_current_term fj)) as [_ [?|[_ ?]]]; [by left|lia|congruence].
  - rewrite <- Ht in Hvj. by eapply (nw_once _ Hwf s).
Qed.

(** Changing the configuration of a cluster through a joint configuration is
    safe: any quorum of a configuration shares a server with any quorum of the
    joint configuration entered from it, and any quorum of a joint configuration
    with any quorum of the configuration it is left for. *)
Theorem joint_change_safe c new joint final :
  enter_joint c new = Ret joint -> leave_joint joint = Ret final ->
  current final = new /\ is_joint final = false /\ compatible c joint /\ compatible joint joint /\ compatible joint final.
Proof.
  intros He Hl. split_and!; eauto using compatible_enter, compatible_leave, compatible_refl.
  - revert He Hl. unfold enter_joint, leave_joint. case_bool_decide; [done|]. intros [= <-].
    destruct (is_joint _); [|done]. by intros [= <-].
  - revert Hl. unfold leave_joint. destruct (is_joint joint); [|done]. by intros [= <-].
Qed.

(** C1: Election safety. Whatever messages are lost, duplicated, delayed or
    reordered, whichever servers crash and restart with the term and the vote that
    they persisted, and whatever their logs say about the configuration, two
    leaders of one term are the same server whenever the configurations they
    campaigned with, those of their logs at that moment, are the same, are one step
    of a change apart (one is the joint configuration entered from the other, or is
    what the other, a joint one, is left for), or have a server in common in any
    two of their quorums. Nothing is asked of the configurations of other servers
    or of other terms, so runs that change the configuration from one to another
    that has no server in common with it are covered. *)
Theorem election_safety `{env : raft_env} d n i j fi fj :
  rtc net_step (Network ∅ d [] ∅) n ->
  nodes n !! i = Some fi -> nodes n !! j = Some fj ->
  is_leader fi = true -> is_leader fj = true -> f_current_term fi = f_current_term fj ->
  exists c c', campaigns n !! (i, f_current_term fi) = Some c /\ campaigns n !! (j, f_current_term fi) = Some c' /\
    (neighbours c c' \/ neighbours c' c \/ compatible c c' -> i = j).
Proof.
  intros Hr%net_reachable_wf ?????. destruct (one_leader n i j fi fj) as (c & c' & ? & ? & Hij); [done..|].
  exists c, c'. split_and!; [done..|]. intros Hcc. apply Hij.
  destruct Hcc as [?|[?|?]]; eauto using neighbours_compatible, compatible_sym.
Qed.

(** * An election that completes *)
Module ElectionExamples.
#[local] Existing Instance example_env.

Lemma joint_change_safe_witness :
  exists joint final,
    enter_joint (example_configuration [1%N; 2%N; 3%N]) (current (example_configuration [3%N; 4%N])) = Ret joint /\
    leave_joint joint = Ret final /\ compatible (example_configuration [1%N; 2%N; 3%N]) joint /\
    compatible joint final.
Proof.
  eexists _, _. split; [reflexivity|]. split; [reflexivity|].
  by destruct (joint_change_safe (example_configuration [1%N; 2%N; 3%N]) (current (example_configuration [3%N; 4%N]))
    _ _ eq_refl eq_refl) as (_ & _ & ? & _ & ?).
Defined.

Definition voters : configuration := example_configuration [1%N; 2%N; 3%N].
Definition new_voters : configuration := example_configuration [3%N; 4%N; 5%N].
Definition joint_voters : configuration :=
  match enter_joint voters (current new_voters) with Ret c => c | _ => voters end.
Definition settings : fsm_config := FsmConfig 1000 100000 false.
Definition empty_log (c : configuration) : log := Log (SnapshotDescriptor 0 0 c 7) [] 100 1 0 0 0 0.
Definition nobody (_ : server_id) : bool := false.

(** What happens next: a clock ticks, the k-th message arrives, an output is taken,
    a server crashes, a server starts with a configuration. *)
Inductive action :=
| Ticks (i : server_id) (times : nat)
| Delivers (k : nat)
| Outputs (i : server_id)
| Crashes (i : server_id)
| Starts (i : server_id) (c : configuration).

Definition calls (i : server_id) (c : call) (n : network) : option network :=
  f ← nodes n !! i;
  match run_call c f with
  | (Ret _, f') => Some (Network (<[i := f']> (nodes n)) (disk n) (sent n) (campaigned i f f' (campaigns n)))
  | _ => None
  end.

Definition happens (n : network) (a : action) : option network :=
  match a with
  | Ticks i times => Nat.iter times (fun n => n ≫= calls i (CallTick nobody)) (Some n)
  | Delivers k => m ← sent n !! k; calls m.1.2 (CallStep m.1.1 m.2) n
  | Outputs i =>
    f ← nodes n !! i;
    match get_output f with
    | (Ret o, f') => Some (Network (<[i := f']> (nodes n)) (persist (o_term_and_vote o) i (disk n))
        (sent n ++ map (fun m => (i, m.1, m.2)) (o_messages o)) (campaigns n))
    | _ => None
    end
  | Crashes i => Some (Network (delete i (nodes n)) (disk n) (sent n) (campaigns n))
  | Starts i c =>
    match nodes n !! i, disk n !! i with
    | None, Some (term, vote) =>
      match make_fsm i term vote (empty_log c) 0 settings with
      | Ret f => Some (Network (<[i := f]> (nodes n)) (disk n) (sent n)
          (campaigned i (initial_fsm i term vote (empty_log c) 0 settings) f (campaigns n)))
      | _ => None
      end
    | _, _ => None
    end
  end.

Lemma calls_step i c n n' : match c with
    | CallStep from msg => (from, i, msg) ∈ sent n
    | CallGetOutput => False
    | _ => True
    end -> calls i c n = Some n' -> net_step n n'.
Proof.
  intros Hc. unfold calls. destruct (nodes n !! i) as [f|] eqn:Hf; [|done]. cbn.
  destruct (run_call c f) as [[] f'] eqn:Hr; try done. intros [= <-]. by eapply net_call.
Qed.

Lemma happens_steps n a n' : happens n a = Some n' -> rtc net_step n n'.
Proof.
  destruct a as [i times|k|i|i|i c]; cbn.
  - revert n'. induction times as [|times IH]; intros n'; cbn; [by intros [= <-]|].
    intros (m & Hm & Hc)%bind_Some. etrans; [by apply IH|]. by eapply rtc_once, calls_step, Hc.
  - intros ([[from to] msg] & Hk & Hc)%bind_Some. eapply rtc_once, calls_step, Hc. by eapply list_elem_of_lookup_2.
  - intros (f & Hf & Ho)%bind_Some. destruct (get_output f) as [[] f'] eqn:Hg; try done. injection Ho as <-.
    by eapply rtc_once, net_output.
  - intros [= <-]. apply rtc_once, net_crash.
  - destruct (nodes n !! i) eqn:Hn; [done|]. destruct (disk n !! i) as [[term vote]|] eqn:Hd; [|done].
    destruct (make_fsm _ _ _ _ _ _) as [f| |] eqn:Hm; try done. intros [= <-].
    by eapply rtc_once, net_restart.
Qed.

Definition run (n : network) (l : list action) : option network :=
  foldl (fun n a => n ≫= fun n => happens n a) (Some n) l.

Lemma run_steps l n n' : run n l = Some n' -> rtc net_step n n'.
Proof.
  unfold run. revert n'. induction l as [|a l IH] using rev_ind; intros n'; [by intros [= <-]|].
  rewrite foldl_app. cbn. intros (m & Hm & Ha)%bind_Some. etrans; [by apply IH|by eapply happens_steps].
Qed.

(** The cluster changes from servers 1, 2 and 3 to servers 3, 4 and 5. Server 2
    grants its vote to server 1, restarts with the joint configuration, and wins
    the next term with the votes of servers 3 and 4; server 4 restarts with the
    new configuration and wins the term after with the vote of server 5. *)
Definition start_network : network :=
  Network ∅ (list_to_map (map (fun i => (i, (0, no_id))) [1%N; 2%N; 3%N; 4%N; 5%N])) [] ∅.
Definition elections : list action :=
  [Starts 1 voters; Starts 2 voters; Ticks 1 11; Outputs 1; Delivers 0; Outputs 2; Crashes 2;
   Starts 2 joint_voters; Delivers 2; Outputs 1;
   Starts 3 joint_voters; Starts 4 joint_voters; Ticks 2 11; Outputs 2; Delivers 7; Outputs 3; Delivers 5; Outputs 4;
   Crashes 4; Delivers 9; Delivers 10;
   Starts 4 new_voters; Starts 5 new_voters; Ticks 4 11; Outputs 4; Delivers 11; Outputs 5; Delivers 13].

Definition elected_network : network :=
  Eval vm_compute in match run start_network elections with Some n => n | None => start_network end.

Lemma elected_network_run : run start_network elections = Some elected_network.
Proof. vm_compute. reflexivity. Qed.

(** The first and the last configuration could elect a leader each. *)
Lemma voters_disjoint : ~ compatible voters new_voters.
Proof.
  intros Hc. destruct (Hc {[1%N; 2%N]} {[4%N; 5%N]}) as (s & ? & ?); [..|set_solver];
    (split; [vm_compute; lia|done]).
Qed.

Lemma election_safety_witness :
  exists n f1 f2 f4, rtc net_step start_network n /\
    nodes n !! 1%N = Some f1 /\ is_leader f1 = true /\ campaigns n !! (1%N, f_current_term f1) = Some voters /\
    nodes n !! 2%N = Some f2 /\ is_leader f2 = true /\ campaigns n !! (2%N, f_current_term f2) = Some joint_voters /\
    nodes n !! 4%N = Some f4 /\ is_leader f4 = true /\ campaigns n !! (4%N, f_current_term f4) = Some new_voters /\
    ~ compatible voters new_voters /\
    forall j fj, nodes n !! j = Some fj -> is_leader fj = true -> f_current_term f2 = f_current_term fj ->
      exists c, campaigns n !! (j, f_current_term f2) = Some c /\ (neighbours joint_voters c -> 2%N = j).
Proof.
  pose proof (run_steps _ _ _ elected_network_run) as Hr.
  exists elected_network. eexists _, _, _. split; [exact Hr|]. do 9 (split; [vm_compute; reflexivity|]).
  split; [exact voters_disjoint|]. intros j fj Hj Hl Ht.
  destruct (election_safety (disk start_network) elected_network 2%N j _ fj Hr eq_refl Hj eq_refl Hl Ht)
    as (c & c' & Hc & Hc' & Hij).
  exists c'. split; [exact Hc'|]. intros Hn. apply Hij. left.
  assert (Some c = Some joint_voters) as [= ->]; [|exact Hn]. rewrite <- Hc. vm_compute. reflexivity.
Defined.
End ElectionExamples.
