(* ===== verification/RaftStorage.v ===== *)
(** Raft's persistent state. The contract of [class persistence]
    ([src/raft/raft.hh]) is the class [persistence]: its operations, and the laws
    that relate them to the abstract [contents] a server relies on. The tables
    of [src/service/raft/raft_sys_table_storage.cc] implement it.

    An operation of the implementation is the list of CQL statements it executes
    one after the other on the three tables of [src/db/system_keyspace.cc]
    ([raft], [raft_snapshots], [raft_snapshot_config]), all restricted to one
    group. A statement is atomic: INSERT overwrites the given columns, DELETE
    removes a range of rows, an unlogged batch on one partition is applied as a
    whole. Encoding of the data of a log entry is generated by the build and is a
    parameter with its round trip as law. *)
From S2P Require Import Prelude RaftTypes RaftLog.

(** * The contract *)

Record contents := Contents {
  c_term : term_t;
  c_vote : server_id;
  c_commit : index_t;
  c_snapshot : snapshot_descriptor;
  c_log : list log_entry;
}.

(** What an operation leaves of the contents. *)
Definition with_term_and_vote (t : term_t) (v : server_id) (c : contents) : contents :=
  Contents t v (c_commit c) (c_snapshot c) (c_log c).
Definition with_commit (i : index_t) (c : contents) : contents :=
  Contents (c_term c) (c_vote c) i (c_snapshot c) (c_log c).
Definition with_log (es : list log_entry) (c : contents) : contents :=
  Contents (c_term c) (c_vote c) (c_commit c) (c_snapshot c) es.
Definition with_snapshot_descriptor (s : snapshot_descriptor) (c : contents) : contents :=
  Contents (c_term c) (c_vote c) (c_commit c) s (c_log c).

(** Entries below [i], and entries above [i]. *)
Definition entries_below (i : index_t) (es : list log_entry) : list log_entry :=
  filter (fun e => e_idx e < i) es.
Definition entries_above (i : index_t) (es : list log_entry) : list log_entry :=
  filter (fun e => i < e_idx e) es.

(** Terms and indexes are stored in signed 64-bit columns. *)
Definition fits (i : Z) : Prop := 0 <= i < 2 ^ 63.

(** A snapshot without the [server_info] of its members. *)
Definition strip_members (s : config_member_set) : config_member_set :=
  (fun m => ConfigMember [] (member_can_vote m)) <$> s.
Definition strip_configuration (c : configuration) : configuration :=
  Configuration (strip_members (current c)) (strip_members (previous c)).
Definition strip_snapshot (s : snapshot_descriptor) : snapshot_descriptor :=
  SnapshotDescriptor (snp_idx s) (snp_term s) (strip_configuration (snp_config s)) (snp_id s).

(** The operations that write. *)
Inductive operation :=
| op_term_and_vote (term : term_t) (vote : server_id)
| op_commit_idx (idx : index_t)
| op_snapshot_descriptor (snap : snapshot_descriptor) (preserve_log_entries : Z)
| op_log_entries (entries : list log_entry)
| op_truncate_log (idx : index_t).

(** What the caller has to respect. *)
Definition op_valid (c : contents) (o : operation) : Prop :=
  match o with
  | op_term_and_vote t _ => fits t
  | op_commit_idx i => fits i
  | op_snapshot_descriptor s k => fits (snp_idx s) /\ fits (snp_term s) /\ 0 <= k <= snp_idx s
  | op_log_entries es => exists i, consecutive i es /\ 0 <= i /\ i + Z.of_nat (length es) <= 2 ^ 63 /\
      Forall (fun e => fits (e_term e)) es /\ Forall (fun e => e_idx e < i) (c_log c)
  | op_truncate_log i => fits i
  end.

(** The effect an operation promises. *)
Definition op_promises (o : operation) (c : contents) : contents :=
  match o with
  | op_term_and_vote t v => with_term_and_vote t v c
  | op_commit_idx i => with_commit i c
  | op_snapshot_descriptor s k =>
    with_log (entries_above (snp_idx s - k) (c_log c)) (with_snapshot_descriptor s c)
  | op_log_entries es => with_log (c_log c ++ es) c
  | op_truncate_log i => with_log (entries_below i (c_log c)) c
  end.

(** What the writes of an operation that was interrupted may have left: the entries
    of a log reach it in order, and what is a single write is done or not. Nothing
    is promised about a snapshot descriptor. *)
Definition op_partial (o : operation) (c c' : contents) : Prop :=
  match o with
  | op_log_entries es => exists n, c' = with_log (c_log c ++ take n es) c
  | op_snapshot_descriptor _ _ => False
  | _ => c' = c \/ c' = op_promises o c
  end.
Definition stores_snapshot (o : operation) : bool :=
  match o with op_snapshot_descriptor _ _ => true | _ => false end.

(** The interface [class persistence]. [holds d c] says that the device [d] has
    the contents [c], that is everything that was stored, as it was given; the laws
    say what each operation does to them and that what is loaded is what is held.
    [perform_upto k o d] is what [d] has when [o] fails or the process ends after
    [k] writes of it. The law of [load_snapshot_descriptor] asks for less than
    [raft.hh], which makes no exception: the [server_info] of the members may be
    lost. *)
Class persistence (D : Type) := Persistence {
  load_term_and_vote : D -> term_t * server_id;
  load_commit_idx : D -> index_t;
  load_snapshot_descriptor : D -> outcome raft_error snapshot_descriptor;
  load_log : D -> outcome raft_error (list log_entry);
  store_term_and_vote : term_t -> server_id -> D -> D;
  store_commit_idx : index_t -> D -> D;
  store_snapshot_descriptor : snapshot_descriptor -> Z -> D -> D;
  store_log_entries : list log_entry -> D -> D;
  truncate_log : index_t -> D -> D;
  perform_upto : nat -> operation -> D -> D;
  holds : D -> contents -> Prop;
  load_term_and_vote_ok d c : holds d c -> load_term_and_vote d = (c_term c, c_vote c);
  load_commit_idx_ok d c : holds d c -> load_commit_idx d = c_commit c;
  load_snapshot_descriptor_ok d c : holds d c ->
    exists s, load_snapshot_descriptor d = Ret s /\ strip_snapshot s = strip_snapshot (c_snapshot c);
  load_log_ok d c : holds d c -> load_log d = Ret (c_log c);
  store_term_and_vote_ok d c t v : holds d c -> fits t ->
    holds (store_term_and_vote t v d) (with_term_and_vote t v c);
  store_commit_idx_ok d c i : holds d c -> fits i -> holds (store_commit_idx i d) (with_commit i c);
  store_snapshot_descriptor_ok d c s k : holds d c -> fits (snp_idx s) -> fits (snp_term s) -> 0 <= k <= snp_idx s ->
    holds (store_snapshot_descriptor s k d)
      (with_log (entries_above (snp_idx s - k) (c_log c)) (with_snapshot_descriptor s c));
  store_log_entries_ok d c i es : holds d c -> consecutive i es -> 0 <= i -> i + Z.of_nat (length es) <= 2 ^ 63 ->
    Forall (fun e => fits (e_term e)) es -> Forall (fun e => e_idx e < i) (c_log c) ->
    holds (store_log_entries es d) (with_log (c_log c ++ es) c);
  truncate_log_ok d c i : holds d c -> fits i -> holds (truncate_log i d) (with_log (entries_below i (c_log c)) c);
  perform_upto_ok d c o k : holds d c -> op_valid c o -> stores_snapshot o = false ->
    exists c', op_partial o c c' /\ holds (perform_upto k o d) c';
}.

Lemma strip_snapshot_idemp s : strip_snapshot (strip_snapshot s) = strip_snapshot s.
Proof.
  assert (forall m, strip_members (strip_members m) = strip_members m) as Hm.
  { intros m. unfold strip_members. rewrite <- map_fmap_compose. by apply map_fmap_ext. }
  unfold strip_snapshot, strip_configuration. cbn. by rewrite !Hm.
Qed.

(** * The tables *)

(** [ser::serialize], [ser::deserialize] and [ser::get_sizeof] on
    [raft::log_entry::data]. *)
Class entry_codec := {
  blob : Type;
  serialize : entry_data -> blob;
  deserialize : blob -> option entry_data;
  size_bytes : blob -> Z;
}.
Class entry_codec_ok `{entry_codec} : Prop := deserialize_serialize d : deserialize (serialize d) = Some d.

(** [int64_t(x)] of a [uint64_t] and the way back. *)
Definition to_i64 (x : Z) : Z := if x <? 2 ^ 63 then x else x - u64_modulus.
Definition of_i64 (x : Z) : Z := x mod u64_modulus.

Section tables.
Context {codec : entry_codec}.

(** A clustering row of [system.raft]. *)
Record raft_row := RaftRow {
  row_term : Z;
  row_data : blob;
}.

(** The rows of a group in the three tables. *)
Record tables := Tables {
  t_vote_term : option Z;
  t_vote : option server_id;
  t_snapshot_id : option snapshot_id;
  t_commit_idx : option Z;
  t_rows : gmap Z raft_row;
  t_snapshots : option (snapshot_id * Z * Z);
  t_snapshot_config : gmap (string * N) bool;
}.

Definition empty_tables : tables := Tables None None None None ∅ None ∅.

Inductive statement :=
| insert_term_and_vote (term : Z) (vote : server_id)
| insert_commit_idx (idx : Z)
| insert_snapshot (id : snapshot_id) (idx term : Z)
| delete_snapshot_config
| insert_snapshot_config (disposition : string) (srv : server_id) (can_vote : bool)
| insert_log_entries (rows : list (Z * raft_row))
| delete_log_from (idx : Z)
| insert_snapshot_id_delete_log_to (id : snapshot_id) (idx : Z).

Definition execute (st : statement) (t : tables) : tables :=
  match st with
  | insert_term_and_vote term vote =>
    Tables (Some term) (Some vote) (t_snapshot_id t) (t_commit_idx t) (t_rows t) (t_snapshots t) (t_snapshot_config t)
  | insert_commit_idx idx =>
    Tables (t_vote_term t) (t_vote t) (t_snapshot_id t) (Some idx) (t_rows t) (t_snapshots t) (t_snapshot_config t)
  | insert_snapshot id idx term =>
    Tables (t_vote_term t) (t_vote t) (t_snapshot_id t) (t_commit_idx t) (t_rows t) (Some (id, idx, term)) (t_snapshot_config t)
  | delete_snapshot_config =>
    Tables (t_vote_term t) (t_vote t) (t_snapshot_id t) (t_commit_idx t) (t_rows t) (t_snapshots t) ∅
  | insert_snapshot_config disposition srv can_vote =>
    Tables (t_vote_term t) (t_vote t) (t_snapshot_id t) (t_commit_idx t) (t_rows t) (t_snapshots t)
      (<[(disposition, srv) := can_vote]> (t_snapshot_config t))
  | insert_log_entries rows =>
    Tables (t_vote_term t) (t_vote t) (t_snapshot_id t) (t_commit_idx t)
      (foldl (fun m r => <[r.1 := r.2]> m) (t_rows t) rows) (t_snapshots t) (t_snapshot_config t)
  | delete_log_from idx =>
    Tables (t_vote_term t) (t_vote t) (t_snapshot_id t) (t_commit_idx t)
      (filter (fun r => r.1 < idx) (t_rows t)) (t_snapshots t) (t_snapshot_config t)
  | insert_snapshot_id_delete_log_to id idx =>
    Tables (t_vote_term t) (t_vote t) (Some id) (t_commit_idx t)
      (filter (fun r => idx < r.1) (t_rows t)) (t_snapshots t) (t_snapshot_config t)
  end.

Definition execute_all (sts : list statement) (t : tables) : tables :=
  foldl (fun t st => execute st t) t sts.

(** * The operations of [raft_sys_table_storage] *)

Definition table_store_term_and_vote (term : term_t) (vote : server_id) : list statement :=
  [insert_term_and_vote (to_i64 term) vote].

(** The SELECT returns one row as soon as the partition exists; a column that
    was never written is null. *)
Definition table_load_term_and_vote (t : tables) : term_t * server_id :=
  (of_i64 (default 0 (t_vote_term t)), default no_id (t_vote t)).

Definition table_store_commit_idx (idx : index_t) : list statement :=
  [insert_commit_idx (to_i64 idx)].

Definition table_load_commit_idx (t : tables) : index_t :=
  of_i64 (default 0 (t_commit_idx t)).

(** The rows of the log in clustering order. *)
Definition row_le (r r' : Z * raft_row) : Prop := r.1 <= r'.1.
#[global] Instance row_le_dec : RelDecision row_le.
Proof. intros r r'. unfold row_le. apply _. Defined.
Definition sorted_rows (t : tables) : list (Z * raft_row) := merge_sort row_le (map_to_list (t_rows t)).

Definition row_entry (r : Z * raft_row) : outcome raft_error log_entry :=
  match deserialize (row_data r.2) with
  | Some data => Ret (LogEntry (of_i64 (row_term r.2)) (of_i64 r.1) data)
  | None => Throw runtime_error
  end.

(** A partition without log rows yields at most a row of static columns, whose
    data is null: the loop stops there with an empty log. *)
Definition table_load_log (t : tables) : outcome raft_error (list log_entry) :=
  mapM row_entry (sorted_rows t).

(** The insertion of a member that [unordered_set::insert] does. *)
Definition insert_member (id : server_id) (m : config_member) (s : config_member_set) : config_member_set :=
  match s !! id with Some _ => s | None => <[id := m]> s end.

Definition load_config_row (key : string * N) (can_vote : bool) (cfg : configuration) : configuration :=
  let m := ConfigMember [] can_vote in
  if bool_decide (key.1 = "CURRENT"%string)
  then Configuration (insert_member key.2 m (current cfg)) (previous cfg)
  else Configuration (current cfg) (insert_member key.2 m (previous cfg)).

Definition load_config (rows : gmap (string * N) bool) : configuration :=
  map_fold load_config_row (Configuration ∅ ∅) rows.

(** [snapshot_descriptor()]. *)
Definition default_snapshot : snapshot_descriptor := SnapshotDescriptor 0 0 (Configuration ∅ ∅) 0.

(** [snp_rs->one()] throws when there is no row. *)
Definition table_load_snapshot_descriptor (t : tables) : outcome raft_error snapshot_descriptor :=
  match t_snapshot_id t with
  | None => Ret default_snapshot
  | Some id =>
    match t_snapshots t with
    | None => Throw runtime_error
    | Some (_, idx, term) =>
      Ret (SnapshotDescriptor (of_i64 idx) (of_i64 term) (load_config (t_snapshot_config t)) id)
    end
  end.

Definition update_snapshot_and_truncate_log_tail (snap : snapshot_descriptor) (preserve_log_entries : Z) : statement :=
  insert_snapshot_id_delete_log_to (snp_id snap) (to_i64 (snp_idx snap -! preserve_log_entries)).

Definition store_members (disposition : string) (s : config_member_set) : list statement :=
  map (fun m => insert_snapshot_config disposition m.1 (member_can_vote m.2)) (map_to_list s).

Definition table_store_snapshot_descriptor (snap : snapshot_descriptor) (preserve_log_entries : Z) : list statement :=
  [insert_snapshot (snp_id snap) (to_i64 (snp_idx snap)) (to_i64 (snp_term snap)); delete_snapshot_config] ++
  store_members "CURRENT" (current (snp_config snap)) ++
  store_members "PREVIOUS" (previous (snp_config snap)) ++
  [update_snapshot_and_truncate_log_tail snap preserve_log_entries].

(** The loop that fills a batch: [size] is the size of the data in it so far. *)
Fixpoint fill_batch (max_mutation_size size : Z) (es : list log_entry) : list (Z * raft_row) :=
  match es with
  | [] => []
  | e :: es =>
    let data := serialize (e_data e) in
    if negb (size =? 0) && (size +! size_bytes data >? max_mutation_size) then []
    else (to_i64 (e_idx e), RaftRow (to_i64 (e_term e)) data) ::
      fill_batch max_mutation_size (size +! size_bytes data) es
  end.

(** Returns the batch and the position to continue at, 0 when all is stored. *)
Definition do_store_log_entries_one_batch (max_mutation_size : Z) (es : list log_entry) (start_idx : nat) :
    statement * nat :=
  let rows := fill_batch max_mutation_size 0 (drop start_idx es) in
  let idx := (start_idx + length rows)%nat in
  (insert_log_entries rows, if bool_decide (idx = length es) then 0%nat else idx).

(** The [do ... while (idx != 0)]. *)
Fixpoint store_batches (fuel : nat) (max_mutation_size : Z) (es : list log_entry) (idx : nat) :
    outcome raft_error (list statement) :=
  match fuel with
  | O => Abort out_of_fuel
  | S fuel =>
    let '(batch, idx) := do_store_log_entries_one_batch max_mutation_size es idx in
    match idx with
    | O => mret [batch]
    | S _ => sts ← store_batches fuel max_mutation_size es idx; mret (batch :: sts)
    end
  end.

Definition do_store_log_entries (max_mutation_size : Z) (es : list log_entry) : outcome raft_error (list statement) :=
  match es with
  | [] => mret []
  | _ => store_batches (length es) max_mutation_size es 0
  end.

Definition table_truncate_log (idx : index_t) : list statement := [delete_log_from (to_i64 idx)].

(** [bootstrap]; [id] is the new random snapshot id. *)
Definition bootstrap (initial_configuration : configuration) (nontrivial_snapshot : bool) (id : snapshot_id) :
    list statement :=
  table_store_snapshot_descriptor
    (SnapshotDescriptor (if nontrivial_snapshot then 1 else 0) 0 initial_configuration id) 0.

(** The storage with [_pending_op_fut]: whether the last operation failed. *)
Record storage := Storage {
  st_tables : tables;
  st_failed : bool;
}.

(** An operation waits for the one before it and is not started if that failed;
    [fails_at] is the statement whose execution fails, if any. *)
Definition execute_with_linearization_point (op : list statement) (fails_at : option nat) (s : storage) :
    outcome raft_error unit * storage :=
  if st_failed s then (Throw runtime_error, s)
  else match fails_at with
    | Some k =>
      if bool_decide (k < length op)%nat
      then (Throw runtime_error, Storage (execute_all (take k op) (st_tables s)) true)
      else (Ret tt, Storage (execute_all op (st_tables s)) false)
    | None => (Ret tt, Storage (execute_all op (st_tables s)) false)
    end.
End tables.

(** * Signed columns *)

Lemma to_i64_fits x : fits x -> to_i64 x = x.
Proof. unfold fits, to_i64. intros []. by zbool. Qed.

Lemma of_to_i64 x : is_u64 x -> of_i64 (to_i64 x) = x.
Proof.
  unfold is_u64, of_i64, to_i64. intros Hx. destruct (x <? 2 ^ 63); [by apply Z.mod_small|].
  replace (x - u64_modulus) with (x + (-1) * u64_modulus) by lia.
  rewrite Z.mod_add by done. by apply Z.mod_small.
Qed.

Lemma fits_u64 x : fits x -> is_u64 x.
Proof. unfold fits, is_u64, u64_modulus. lia. Qed.

Lemma of_to_fits x : fits x -> of_i64 (to_i64 x) = x.
Proof. intros. by apply of_to_i64, fits_u64. Qed.

(** Inserting the elements of a list with distinct keys. *)
Lemma foldl_insert {K A} `{Countable K} (l : list (K * A)) (m : gmap K A) : NoDup l.*1 ->
  foldl (fun m r => <[r.1 := r.2]> m) m l = list_to_map l ∪ m.
Proof.
  revert m. induction l as [|[k x] l IH]; intros m; simpl; [by rewrite (left_id_L ∅ (∪))|].
  intros [Hk Hl]%NoDup_cons. rewrite IH by done.
  rewrite <- insert_union_r, insert_union_l; [done|]. by apply not_elem_of_list_to_map_1.
Qed.

(** * Storing log entries *)

Section log_rows.
Context {codec : entry_codec}.

Definition entry_row (e : log_entry) : Z * raft_row :=
  (to_i64 (e_idx e), RaftRow (to_i64 (e_term e)) (serialize (e_data e))).

Lemma fill_batch_spec m size es :
  exists n, (n <= length es)%nat /\ fill_batch m size es = map entry_row (take n es) /\
    (size = 0 -> es <> [] -> n <> 0%nat).
Proof.
  revert size. induction es as [|e es IH]; intros size; simpl; [by exists 0%nat|].
  destruct (negb (size =? 0) && _) eqn:Hfull.
  - exists 0%nat. split; [lia|]. split; [done|]. intros ->. by rewrite Z.eqb_refl in Hfull.
  - destruct (IH (size +! size_bytes (serialize (e_data e)))) as (n & Hn & -> & _).
    exists (S n). split; [lia|]. by split.
Qed.

(** The loop over the batches ends, every batch has an entry, and together the
    batches are all the entries. *)
Lemma store_batches_spec fuel m es idx : (idx < length es)%nat -> (length es - idx <= fuel)%nat ->
  exists batches, store_batches fuel m es idx = Ret (map insert_log_entries batches) /\
    concat batches = map entry_row (drop idx es) /\
    Forall (fun b => b <> [] /\ exists k, b = fill_batch m 0 (drop k es)) batches.
Proof.
  revert idx. induction fuel as [|fuel IH]; intros idx Hidx Hfuel; [lia|].
  cbn [store_batches]. unfold do_store_log_entries_one_batch.
  destruct (fill_batch_spec m 0 (drop idx es)) as (n & Hn & Hfill & Hpos). rewrite Hfill.
  assert (n <> 0%nat) as Hn0 by (apply Hpos; [done|]; intros Hd%(f_equal length); rewrite length_drop in Hd; simpl in Hd; lia).
  rewrite length_drop in Hn. rewrite length_map, length_take_le by (rewrite length_drop; lia).
  assert (map entry_row (take n (drop idx es)) <> []) as Hne.
  { intros Heq%(f_equal length). rewrite length_map, length_take_le in Heq by (rewrite length_drop; lia). done. }
  assert (exists k, map entry_row (take n (drop idx es)) = fill_batch m 0 (drop k es)) as Hex by (by exists idx).
  case_bool_decide as Hall.
  - exists [map entry_row (take n (drop idx es))]. split; [done|]. split; [|by constructor].
    simpl. rewrite (right_id_L [] (++)), take_ge; [done|rewrite length_drop; lia].
  - destruct (idx + n)%nat as [|k] eqn:Hk; [lia|].
    destruct (IH (S k)) as (batches & -> & Hc & Hb); [lia..|].
    exists (map entry_row (take n (drop idx es)) :: batches). split; [done|]. split; [|by constructor].
    simpl. rewrite Hc, <- Hk, <- drop_drop, <- map_app. by rewrite take_drop.
Qed.

Lemma do_store_log_entries_spec m es :
  exists batches, do_store_log_entries m es = Ret (map insert_log_entries batches) /\
    concat batches = map entry_row es /\
    Forall (fun b => b <> [] /\ exists k, b = fill_batch m 0 (drop k es)) batches.
Proof.
  destruct es as [|e es]; [by exists []|].
  destruct (store_batches_spec (length (e :: es)) m (e :: es) 0) as (b & Hb); [simpl; lia..|by exists b].
Qed.

(** The bytes of data in a batch. *)
Definition batch_size (rows : list (Z * raft_row)) : Z := foldr (fun r s => size_bytes (row_data r.2) + s) 0 rows.

Definition moderate (e : log_entry) : Prop := 0 < size_bytes (serialize (e_data e)) <= 2 ^ 62.

Lemma fill_batch_rest m size es : m <= 2 ^ 62 -> 0 < size <= 2 ^ 62 -> Forall moderate es ->
  fill_batch m size es = [] \/ size + batch_size (fill_batch m size es) <= m.
Proof.
  intros Hm. revert size. induction es as [|e es IH]; intros size Hs; simpl; [by left|].
  intros [He Hes]%Forall_cons. unfold moderate in He.
  rewrite u64_add_small by (unfold u64_modulus; lia). zbool. cbn [negb andb].
  destruct (Z.gtb_spec (size + size_bytes (serialize (e_data e))) m); [by left|].
  right. simpl. destruct (IH (size + size_bytes (serialize (e_data e)))) as [-> | ?]; [lia|done|simpl; lia|lia].
Qed.

Lemma fill_batch_size m es : m <= 2 ^ 62 -> Forall moderate es ->
  (length (fill_batch m 0 es) <= 1)%nat \/ batch_size (fill_batch m 0 es) <= m.
Proof.
  intros Hm. destruct es as [|e es]; simpl; [by left; lia|]. intros [He Hes]%Forall_cons. unfold moderate in He.
  rewrite u64_add_small, Z.add_0_l by (unfold u64_modulus; lia).
  destruct (fill_batch_rest m (size_bytes (serialize (e_data e))) es Hm) as [-> | ?]; [lia|done|simpl; lia|].
  right. simpl. lia.
Qed.

(** C32: Storing entries ends, whatever their sizes: the loop over the batches
    terminates, every batch holds at least one entry, and together the batches
    are exactly the entries in order. A batch of more than one entry keeps below
    the size limit of a mutation. *)
Theorem store_log_entries_batches m es :
  m <= 2 ^ 62 -> Forall moderate es ->
  exists batches, do_store_log_entries m es = Ret (map insert_log_entries batches) /\
    concat batches = map entry_row es /\
    Forall (fun b => length b = 1%nat \/ (1 < length b)%nat /\ batch_size b <= m) batches.
Proof.
  intros Hm Hes. destruct (do_store_log_entries_spec m es) as (bs & Hbs & Hc & Hall).
  exists bs. split_and!; [done|done|]. eapply Forall_impl; [exact Hall|]. simpl.
  intros b (Hne & k & Hb). destruct (fill_batch_size m (drop k es) Hm) as [Hlen|Hsize].
  - by apply Forall_drop.
  - rewrite <- Hb in Hlen. left. destruct b as [|x [|]]; simpl in *; [done|done|lia].
  - rewrite <- Hb in Hsize. destruct b as [|x [|]]; [done|by left|right]. simpl in *. lia.
Qed.

Lemma execute_batches batches t :
  execute_all (map insert_log_entries batches) t =
  Tables (t_vote_term t) (t_vote t) (t_snapshot_id t) (t_commit_idx t)
    (foldl (fun m r => <[r.1 := r.2]> m) (t_rows t) (concat batches)) (t_snapshots t) (t_snapshot_config t).
Proof.
  revert t. induction batches as [|b bs IH]; intros t; [by destruct t|].
  cbn [map execute_all foldl]. unfold execute_all in IH. rewrite IH. cbn. by rewrite foldl_app.
Qed.

(** ** The rows as a log *)

Definition indexed (es : list log_entry) : Prop :=
  StronglySorted (fun e e' => e_idx e < e_idx e') es /\ Forall (fun e => fits (e_idx e) /\ fits (e_term e)) es.

Definition rows_of (es : list log_entry) : gmap Z raft_row := list_to_map (map entry_row es).

Lemma indexed_cons e es : indexed (e :: es) <->
  Forall (fun e' => e_idx e < e_idx e') es /\ fits (e_idx e) /\ fits (e_term e) /\ indexed es.
Proof. unfold indexed. rewrite StronglySorted_cons, Forall_cons. naive_solver. Qed.

Lemma indexed_keys es : indexed es -> NoDup (map entry_row es).*1.
Proof.
  induction es as [|e es IH]; [intros; constructor|]. intros (Hlt & Hf & _ & Hes)%indexed_cons. simpl.
  apply NoDup_cons. split; [|by apply IH]. rewrite list_elem_of_fmap. intros (r & Heq & Hr).
  apply list_elem_of_fmap in Hr as (e' & -> & He'). simpl in Heq. rewrite Forall_forall in Hlt.
  destruct Hes as [_ Hfs]. rewrite Forall_forall in Hfs.
  rewrite !to_i64_fits in Heq by (done || by apply Hfs). specialize (Hlt _ He'). lia.
Qed.

Lemma indexed_filter (P : log_entry -> Prop) `{forall e, Decision (P e)} es : indexed es -> indexed (filter P es).
Proof.
  induction es as [|e es IH]; [done|]. intros (Hlt & Hi & Ht & Hes)%indexed_cons.
  rewrite filter_cons. case_decide; [|by apply IH]. apply indexed_cons. split_and!; [|done|done|by apply IH].
  rewrite Forall_forall in Hlt |- *. intros e' [_ He']%list_elem_of_filter. by apply Hlt.
Qed.

Lemma lookup_rows es k r : indexed es ->
  rows_of es !! k = Some r <-> exists e, e ∈ es /\ entry_row e = (k, r).
Proof.
  intros Hes. unfold rows_of. rewrite <- elem_of_list_to_map by (by apply indexed_keys).
  rewrite list_elem_of_fmap. naive_solver.
Qed.

Lemma filter_rows (P : Z -> Prop) `{forall i, Decision (P i)} es : indexed es ->
  filter (fun r => P r.1) (rows_of es) = rows_of (filter (fun e => P (e_idx e)) es).
Proof.
  intros Hes. apply map_eq. intros k. apply option_eq. intros r.
  rewrite map_lookup_filter_Some, !lookup_rows by (done || by apply indexed_filter). simpl.
  destruct Hes as [_ Hf]. rewrite Forall_forall in Hf.
  assert (forall e, e ∈ es -> entry_row e = (k, r) -> e_idx e = k) as Hk.
  { intros e He [= <- _]. symmetry. by apply to_i64_fits, Hf. }
  split.
  - intros [(e & He & Hrow) HP]. exists e. split; [|done]. apply list_elem_of_filter. by rewrite (Hk e).
  - intros (e & [HP He]%list_elem_of_filter & Hrow). rewrite (Hk e He Hrow) in HP. eauto.
Qed.

Lemma append_rows es es' : indexed (es ++ es') ->
  foldl (fun m r => <[r.1 := r.2]> m) (rows_of es) (map entry_row es') = rows_of (es ++ es').
Proof.
  intros Hes%indexed_keys. unfold rows_of. rewrite map_app, fmap_app in Hes.
  apply NoDup_app in Hes as (H1 & Hdis & H2). rewrite foldl_insert by done.
  rewrite map_app, list_to_map_app. apply map_union_comm, map_disjoint_list_to_map_r.
  apply Forall_forall. intros [k x] Hin. simpl. apply not_elem_of_list_to_map_1. intros Hk.
  apply (Hdis k); [|done]. by apply (list_elem_of_fmap_2 fst _ (k, x)).
Qed.

#[global] Instance row_le_total : Total row_le.
Proof. intros r r'. unfold row_le. lia. Qed.
#[global] Instance row_le_trans : Transitive row_le.
Proof. intros r r' r''. unfold row_le. lia. Qed.

Lemma sorted_entry_rows es : indexed es -> StronglySorted row_le (map entry_row es).
Proof.
  induction es as [|e es IH]; [constructor|]. intros (Hlt & Hf & _ & Hes)%indexed_cons. simpl.
  constructor; [by apply IH|]. apply Forall_forall. intros r (e' & -> & He')%list_elem_of_fmap.
  unfold row_le. simpl. destruct Hes as [_ Hfs]. rewrite Forall_forall in Hfs, Hlt.
  rewrite !to_i64_fits by (done || by apply Hfs). specialize (Hlt _ He'). lia.
Qed.

Lemma sorted_rows_of t es : indexed es -> t_rows t = rows_of es -> sorted_rows t = map entry_row es.
Proof.
  intros Hes Hr. unfold sorted_rows. rewrite Hr.
  assert (merge_sort row_le (map_to_list (rows_of es)) ≡ₚ map entry_row es) as Hperm.
  { rewrite merge_sort_Permutation. by apply map_to_list_to_map, indexed_keys. }
  apply (StronglySorted_unique_strong row_le);
    [|apply StronglySorted_merge_sort; apply _|by apply sorted_entry_rows|exact Hperm].
  intros [k x] [k' x'] Hx Hx' H1 H2. unfold row_le in *. simpl in *. assert (k = k') as -> by lia. f_equal.
  rewrite Hperm in Hx. apply elem_of_list_to_map in Hx, Hx'; [|by apply indexed_keys..]. congruence.
Qed.

Lemma load_rows `{!entry_codec_ok} es : indexed es -> mapM row_entry (map entry_row es) = Ret es.
Proof.
  induction es as [|e es IH]; [done|]. intros (_ & Hi & Ht & Hes)%indexed_cons. simpl.
  assert (row_entry (entry_row e) = Ret e) as ->.
  { unfold row_entry. simpl. rewrite deserialize_serialize, !of_to_fits by done. by destruct e. }
  simpl. by rewrite IH.
Qed.
End log_rows.

(** * Storing a snapshot descriptor *)

Section snapshots.
Context {codec : entry_codec}.

Definition member_row (disposition : string) (m : N * config_member) : string * N * bool :=
  (disposition, m.1, member_can_vote m.2).

Lemma execute_members disposition s t :
  execute_all (store_members disposition s) t =
  Tables (t_vote_term t) (t_vote t) (t_snapshot_id t) (t_commit_idx t) (t_rows t) (t_snapshots t)
    (list_to_map (map (member_row disposition) (map_to_list s)) ∪ t_snapshot_config t).
Proof.
  assert (NoDup (map (member_row disposition) (map_to_list s)).*1) as Hnd.
  { pose proof (NoDup_fst_map_to_list s) as Hnd. revert Hnd. generalize (map_to_list s). clear.
    induction l as [|m l IH]; [intros; constructor|]. simpl. intros [Hm Hl]%NoDup_cons. apply NoDup_cons.
    split; [|by apply IH]. contradict Hm. apply list_elem_of_fmap in Hm as (r & Heq & Hr).
    apply list_elem_of_fmap in Hr as (m' & -> & Hm'). injection Heq as Heq. rewrite Heq.
    by apply list_elem_of_fmap_2. }
  rewrite <- foldl_insert by done. unfold store_members. clear Hnd. revert t.
  generalize (map_to_list s). induction l as [|m l IH]; intros t; [by destruct t|].
  cbn [map execute_all foldl]. unfold execute_all in IH. by rewrite IH.
Qed.

(** The rows of a configuration. *)
Definition config_rows (c : configuration) : gmap (string * N) bool :=
  list_to_map (map (member_row "PREVIOUS") (map_to_list (previous c))) ∪
  (list_to_map (map (member_row "CURRENT") (map_to_list (current c))) ∪ ∅).

Lemma lookup_member_rows disposition s d id :
  (list_to_map (map (member_row disposition) (map_to_list s)) : gmap (string * N) bool) !! (d, id) =
  if bool_decide (d = disposition) then member_can_vote <$> s !! id else None.
Proof.
  apply option_eq. intros v.
  assert (forall m, (map (member_row disposition) (map_to_list s)).*1 = map (pair disposition) (map_to_list s).*1 /\
    (m ∈ map_to_list s <-> s !! m.1 = Some m.2)) as Hk.
  { intros [k x]. rewrite elem_of_map_to_list. split; [|done]. generalize (map_to_list s).
    induction l as [|[] l IH]; [done|]. simpl. by f_equal. }
  rewrite <- elem_of_list_to_map.
  2: { rewrite (proj1 (Hk (0%N, ConfigMember [] true))). apply NoDup_fmap_2; [intros ?? [=]; done|apply NoDup_fst_map_to_list]. }
  rewrite list_elem_of_fmap. case_bool_decide as Hd.
  - subst d. rewrite fmap_Some. split.
    + intros ([k x] & [= -> ->] & Hin). apply elem_of_map_to_list in Hin. eauto.
    + intros (x & Hx & ->). exists (id, x). split; [done|]. by apply elem_of_map_to_list.
  - split; [|done]. intros ([k x] & [=] & _). done.
Qed.

Lemma lookup_config_rows c d id : config_rows c !! (d, id) =
  if bool_decide (d = "CURRENT"%string) then member_can_vote <$> current c !! id
  else if bool_decide (d = "PREVIOUS"%string) then member_can_vote <$> previous c !! id else None.
Proof.
  unfold config_rows. rewrite !lookup_union, !lookup_member_rows, lookup_empty, (right_id_L None _).
  repeat case_bool_decide; subst; try done; by rewrite ?(left_id_L None _), ?(right_id_L None _).
Qed.

(** Reading the rows back. *)
Lemma load_config_lookup rows :
  (forall k v, rows !! k = Some v -> k.1 = "CURRENT"%string \/ k.1 = "PREVIOUS"%string) ->
  forall id, current (load_config rows) !! id = ConfigMember [] <$> rows !! ("CURRENT"%string, id) /\
    previous (load_config rows) !! id = ConfigMember [] <$> rows !! ("PREVIOUS"%string, id).
Proof.
  unfold load_config. apply (map_fold_weak_ind (fun cfg rows =>
    (forall k v, rows !! k = Some v -> k.1 = "CURRENT"%string \/ k.1 = "PREVIOUS"%string) ->
    forall id, current cfg !! id = ConfigMember [] <$> rows !! ("CURRENT"%string, id) /\
      previous cfg !! id = ConfigMember [] <$> rows !! ("PREVIOUS"%string, id))); [done|].
  intros [d k] v rows' cfg Hnone IH Hkeys id.
  assert (d = "CURRENT"%string \/ d = "PREVIOUS"%string) as Hd.
  { by apply (Hkeys (d, k) v), lookup_insert_eq. }
  assert (forall id, current cfg !! id = ConfigMember [] <$> rows' !! ("CURRENT"%string, id) /\
      previous cfg !! id = ConfigMember [] <$> rows' !! ("PREVIOUS"%string, id)) as IH'.
  { apply IH. intros k' v' Hk'. apply (Hkeys k' v'). rewrite lookup_insert_ne; [done|]. congruence. }
  clear IH Hkeys. destruct (IH' k) as [Hc Hp], (IH' id) as [Hc' Hp']. unfold load_config_row, insert_member. simpl.
  destruct Hd as [-> | ->]; [rewrite bool_decide_true by done|rewrite bool_decide_false by done]; simpl;
    rewrite ?Hc, ?Hp, Hnone; simpl; (split; [|try done]);
    destruct (decide (k = id)) as [->|Hne]; rewrite ?lookup_insert_eq; try done;
    rewrite ?lookup_insert_ne by congruence; done.
Qed.

Lemma load_config_rows c : load_config (config_rows c) = strip_configuration c.
Proof.
  assert (forall k v, config_rows c !! k = Some v -> k.1 = "CURRENT"%string \/ k.1 = "PREVIOUS"%string) as Hk.
  { intros [d id] v. rewrite lookup_config_rows. repeat case_bool_decide; auto. done. }
  pose proof (load_config_lookup _ Hk) as Hl. destruct (load_config (config_rows c)) as [cur prev].
  unfold strip_configuration, strip_members. f_equal; apply map_eq; intros id; destruct (Hl id) as [Hc Hp]; simpl in *;
    rewrite ?Hc, ?Hp, lookup_config_rows, lookup_fmap;
    [rewrite bool_decide_true by done|rewrite bool_decide_false by done; rewrite bool_decide_true by done].
  - by destruct (current c !! id).
  - by destruct (previous c !! id).
Qed.

Lemma execute_store_snapshot snap k t :
  execute_all (table_store_snapshot_descriptor snap k) t =
  Tables (t_vote_term t) (t_vote t) (Some (snp_id snap)) (t_commit_idx t)
    (filter (fun r => to_i64 (snp_idx snap -! k) < r.1) (t_rows t))
    (Some (snp_id snap, to_i64 (snp_idx snap), to_i64 (snp_term snap))) (config_rows (snp_config snap)).
Proof.
  unfold table_store_snapshot_descriptor, execute_all. rewrite !foldl_app.
  fold (execute_all (store_members "CURRENT" (current (snp_config snap)))).
  pose proof (execute_members "CURRENT" (current (snp_config snap))) as He1.
  pose proof (execute_members "PREVIOUS" (previous (snp_config snap))) as He2.
  unfold execute_all in He1, He2 |- *. rewrite He1, He2. reflexivity.
Qed.

Lemma load_stored_snapshot snap k t : is_u64 (snp_idx snap) -> is_u64 (snp_term snap) ->
  table_load_snapshot_descriptor (execute_all (table_store_snapshot_descriptor snap k) t) = Ret (strip_snapshot snap).
Proof.
  intros Hi Ht. rewrite execute_store_snapshot. unfold table_load_snapshot_descriptor. cbn.
  by rewrite load_config_rows, !of_to_i64.
Qed.
End snapshots.

(** * The tables implement the contract *)

Section implementation.
Context {codec : entry_codec} {codec_ok : entry_codec_ok} (max_mutation_size : Z).

Record tables_hold (t : tables) (c : contents) : Prop := {
  th_term_and_vote : table_load_term_and_vote t = (c_term c, c_vote c);
  th_commit : table_load_commit_idx t = c_commit c;
  th_snapshot : table_load_snapshot_descriptor t = Ret (strip_snapshot (c_snapshot c));
  th_rows : t_rows t = rows_of (c_log c);
  th_indexed : indexed (c_log c);
}.

Definition table_store_log_entries (es : list log_entry) (t : tables) : tables :=
  match do_store_log_entries max_mutation_size es with
  | Ret sts => execute_all sts t
  | _ => t
  end.

Lemma hold_load_log t c : tables_hold t c -> table_load_log t = Ret (c_log c).
Proof.
  intros [_ _ _ Hr Hi]. unfold table_load_log. rewrite (sorted_rows_of t (c_log c)) by done. by apply load_rows.
Qed.

Lemma hold_store_term_and_vote t c term vote : tables_hold t c -> fits term ->
  tables_hold (execute_all (table_store_term_and_vote term vote) t) (with_term_and_vote term vote c).
Proof.
  intros [Htv Hc Hs Hr Hi] Hf. split; try done. unfold table_load_term_and_vote. cbn. by rewrite of_to_fits.
Qed.

Lemma hold_store_commit_idx t c i : tables_hold t c -> fits i ->
  tables_hold (execute_all (table_store_commit_idx i) t) (with_commit i c).
Proof.
  intros [Htv Hc Hs Hr Hi] Hf. split; try done. unfold table_load_commit_idx. cbn. by rewrite of_to_fits.
Qed.

Lemma hold_truncate_log t c i : tables_hold t c -> fits i ->
  tables_hold (execute_all (table_truncate_log i) t) (with_log (entries_below i (c_log c)) c).
Proof.
  intros [Htv Hc Hs Hr Hi] Hf. split; try done; cbn.
  - rewrite Hr, to_i64_fits by done. exact (filter_rows (fun k => k < i) _ Hi).
  - by apply indexed_filter.
Qed.

Lemma hold_store_snapshot t c s k : tables_hold t c -> fits (snp_idx s) -> fits (snp_term s) -> 0 <= k <= snp_idx s ->
  tables_hold (execute_all (table_store_snapshot_descriptor s k) t)
    (with_log (entries_above (snp_idx s - k) (c_log c)) (with_snapshot_descriptor s c)).
Proof.
  intros [Htv Hc Hs Hr Hi] Hfi Hft Hk. pose proof (fits_u64 _ Hfi). pose proof (fits_u64 _ Hft).
  split; [| |by apply load_stored_snapshot| |by apply indexed_filter]; rewrite execute_store_snapshot; [done..|].
  unfold fits in *. cbn. rewrite Hr, u64_sub_small by (unfold u64_modulus; lia).
  rewrite to_i64_fits by (unfold fits; lia). exact (filter_rows (fun i => snp_idx s - k < i) _ Hi).
Qed.

Lemma consecutive_indexed i es : consecutive i es -> 0 <= i -> i + Z.of_nat (length es) <= 2 ^ 63 ->
  Forall (fun e => fits (e_term e)) es -> indexed es /\ Forall (fun e => i <= e_idx e) es.
Proof.
  revert i. induction es as [|e es IH]; intros i; simpl; [intros; split; [by split; constructor|constructor]|].
  intros [He Hc] Hi Hlen [Hft Hf]%Forall_cons. destruct (IH (i + 1)) as [Hes Hlt]; [done|lia|lia|done|].
  split; [|constructor; [lia|]; eapply Forall_impl; [exact Hlt|]; simpl; lia].
  apply indexed_cons. split_and!; [|unfold fits; lia|done|done].
  eapply Forall_impl; [exact Hlt|]. simpl. lia.
Qed.

Lemma consecutive_take i n es : consecutive i es -> consecutive i (take n es).
Proof. rewrite !consecutive_lookup. intros Hes k e [Hk _]%lookup_take_Some. by apply Hes. Qed.

Lemma indexed_app es es' i : indexed es -> indexed es' -> Forall (fun e => e_idx e < i) es ->
  Forall (fun e => i <= e_idx e) es' -> indexed (es ++ es').
Proof.
  intros Hes Hes' Hlt Hge. induction es as [|e es IH]; [done|]. simpl.
  apply indexed_cons in Hes as (He & Hi & Ht & Hes). apply Forall_cons in Hlt as [Hei Hlt].
  apply indexed_cons. split_and!; [|done|done|by apply IH]. apply Forall_app. split; [done|].
  eapply Forall_impl; [exact Hge|]. simpl. lia.
Qed.

Lemma hold_store_log_entries t c i es : tables_hold t c -> consecutive i es -> 0 <= i ->
  i + Z.of_nat (length es) <= 2 ^ 63 -> Forall (fun e => fits (e_term e)) es ->
  Forall (fun e => e_idx e < i) (c_log c) ->
  tables_hold (table_store_log_entries es t) (with_log (c_log c ++ es) c).
Proof.
  intros [Htv Hc Hs Hr Hi] Hcons Hi0 Hlen Hf Hlt. unfold table_store_log_entries.
  destruct (do_store_log_entries_spec max_mutation_size es) as (bs & -> & Hbs & _).
  destruct (consecutive_indexed i es Hcons Hi0 Hlen Hf) as [Hes Hge].
  assert (indexed (c_log c ++ es)) as Happ by (by eapply indexed_app).
  rewrite execute_batches, Hbs, Hr, append_rows by done. by split.
Qed.

(** The statements of an operation, and what is left when only some were executed. *)
Definition op_statements (o : operation) : list statement :=
  match o with
  | op_term_and_vote t v => table_store_term_and_vote t v
  | op_commit_idx i => table_store_commit_idx i
  | op_snapshot_descriptor s k => table_store_snapshot_descriptor s k
  | op_log_entries es => match do_store_log_entries max_mutation_size es with Ret sts => sts | _ => [] end
  | op_truncate_log i => table_truncate_log i
  end.

Lemma hold_log_prefix t c i es n : tables_hold t c -> consecutive i es -> 0 <= i ->
  i + Z.of_nat (length es) <= 2 ^ 63 -> Forall (fun e => fits (e_term e)) es ->
  Forall (fun e => e_idx e < i) (c_log c) ->
  exists m, tables_hold (execute_all (take n (op_statements (op_log_entries es))) t) (with_log (c_log c ++ take m es) c).
Proof.
  intros [Htv Hc Hs Hr Hi] Hcons Hi0 Hlen Hf Hlt. cbn [op_statements].
  destruct (do_store_log_entries_spec max_mutation_size es) as (bs & -> & Hbs & _).
  assert (exists m, concat (take n bs) = map entry_row (take m es)) as [m Hm].
  { exists (length (concat (take n bs))). rewrite <- (take_drop n bs), concat_app in Hbs.
    apply (f_equal (take (length (concat (take n bs))))) in Hbs. by rewrite take_app_length, <- fmap_take in Hbs. }
  exists m. assert (consecutive i (take m es)) as Hcm by (by apply consecutive_take).
  destruct (consecutive_indexed i (take m es)) as [Hes Hge]; [done|done|rewrite length_take; lia|by apply Forall_take|].
  assert (indexed (c_log c ++ take m es)) as Happ by (by eapply indexed_app).
  rewrite <- fmap_take, execute_batches, Hm, Hr, append_rows by done. by split.
Qed.

Lemma hold_perform_upto t c o k : tables_hold t c -> op_valid c o -> stores_snapshot o = false ->
  exists c', op_partial o c c' /\ tables_hold (execute_all (take k (op_statements o)) t) c'.
Proof.
  intros Ht Hv Hs. assert (forall st, (forall t', execute_all (take k [st]) t' = t') \/ take k [st] = [st]) as Hone.
  { intros st. destruct k; [by left|right; by rewrite firstn_cons, take_nil]. }
  destruct o as [term vote|i|s p|es|i]; cbn [op_valid op_partial op_statements] in *;
    unfold table_store_term_and_vote, table_store_commit_idx, table_truncate_log; [| |done| |].
  - destruct (Hone (insert_term_and_vote (to_i64 term) vote)) as [-> | ->]; [by exists c; auto|eexists; split; [by right|by apply hold_store_term_and_vote]].
  - destruct (Hone (insert_commit_idx (to_i64 i))) as [-> | ->]; [by exists c; auto|eexists; split; [by right|by apply hold_store_commit_idx]].
  - destruct Hv as (i & ? & ? & ? & ? & ?). destruct (hold_log_prefix t c i es k) as [m Hm]; [done..|]. eexists. split; [by exists m|exact Hm].
  - destruct (Hone (delete_log_from (to_i64 i))) as [-> | ->]; [by exists c; auto|eexists; split; [by right|by apply hold_truncate_log]].
Qed.

Lemma hold_load_snapshot t c : tables_hold t c ->
  exists s, table_load_snapshot_descriptor t = Ret s /\ strip_snapshot s = strip_snapshot (c_snapshot c).
Proof. intros []. eexists. split; [done|]. apply strip_snapshot_idemp. Qed.

#[export] Instance table_persistence : persistence tables := {|
  load_term_and_vote := table_load_term_and_vote;
  load_commit_idx := table_load_commit_idx;
  load_snapshot_descriptor := table_load_snapshot_descriptor;
  load_log := table_load_log;
  store_term_and_vote term vote := execute_all (table_store_term_and_vote term vote);
  store_commit_idx i := execute_all (table_store_commit_idx i);
  store_snapshot_descriptor s k := execute_all (table_store_snapshot_descriptor s k);
  store_log_entries := table_store_log_entries;
  truncate_log i := execute_all (table_truncate_log i);
  perform_upto k o := execute_all (take k (op_statements o));
  holds := tables_hold;
  load_term_and_vote_ok t c := th_term_and_vote t c;
  load_commit_idx_ok t c := th_commit t c;
  load_snapshot_descriptor_ok := hold_load_snapshot;
  load_log_ok := hold_load_log;
  store_term_and_vote_ok := hold_store_term_and_vote;
  store_commit_idx_ok := hold_store_commit_idx;
  store_snapshot_descriptor_ok := hold_store_snapshot;
  store_log_entries_ok := hold_store_log_entries;
  truncate_log_ok := hold_truncate_log;
  perform_upto_ok := hold_perform_upto;
|}.
End implementation.

(** * Sequences of operations *)

(** The effect of an operation on a device. *)
Definition perform {D} `{persistence D} (o : operation) (d : D) : D :=
  match o with
  | op_term_and_vote t v => store_term_and_vote t v d
  | op_commit_idx i => store_commit_idx i d
  | op_snapshot_descriptor s k => store_snapshot_descriptor s k d
  | op_log_entries es => store_log_entries es d
  | op_truncate_log i => truncate_log i d
  end.

Lemma perform_ok {D} `{persistence D} o (d : D) c : holds d c -> op_valid c o ->
  holds (perform o d) (op_promises o c).
Proof.
  intros Hd. destruct o; simpl.
  - by apply store_term_and_vote_ok.
  - by apply store_commit_idx_ok.
  - intros (? & ? & ?). by apply store_snapshot_descriptor_ok.
  - intros (i & ? & ? & ? & ? & ?). by eapply store_log_entries_ok.
  - by apply truncate_log_ok.
Qed.

Fixpoint all_valid (c : contents) (os : list operation) : Prop :=
  match os with [] => True | o :: os => op_valid c o /\ all_valid (op_promises o c) os end.

Definition initial_contents : contents := Contents 0 no_id 0 default_snapshot [].

Lemma perform_all_ok {D} `{persistence D} os (d : D) c : holds d c -> all_valid c os ->
  holds (foldl (fun d o => perform o d) d os) (foldl (fun c o => op_promises o c) c os).
Proof.
  revert d c. induction os as [|o os IH]; intros d c Hd; [done|]. simpl. intros [Ho Hos].
  apply IH; [by apply perform_ok|done].
Qed.

Section refinement.
Context {codec : entry_codec} {codec_ok : entry_codec_ok} (max_mutation_size : Z).
#[local] Existing Instance table_persistence.

Lemma empty_tables_hold : tables_hold empty_tables initial_contents.
Proof. split; try done. split; constructor. Qed.

(** C31: The tables implement the contract of persistence, but for the [server_info] of
    members. After any sequence of operations that respect the contract, whatever the
    size limit of a batch, what is loaded from the tables is what the contract
    promises: the last term and vote, the last commit index, and the log with the
    entries that were stored and neither truncated nor dropped with a snapshot, in
    order. Of the last snapshot descriptor the index, the term, the id, and the ids
    of the members with their right to vote are loaded; the [server_info] that was
    given with a member is not, the loaded member has none. *)
Theorem storage_refines os :
  all_valid initial_contents os ->
  let t := foldl (fun t o => @perform _ (table_persistence max_mutation_size) o t) empty_tables os in
  let c := foldl (fun c o => op_promises o c) initial_contents os in
  table_load_term_and_vote t = (c_term c, c_vote c) /\ table_load_commit_idx t = c_commit c /\
  table_load_snapshot_descriptor t = Ret (strip_snapshot (c_snapshot c)) /\ table_load_log t = Ret (c_log c).
Proof.
  intros Hv. pose proof (@perform_all_ok _ (table_persistence max_mutation_size) os _ _ empty_tables_hold Hv) as Hh.
  cbn zeta. split_and!; [apply Hh..|]. by apply hold_load_log.
Qed.
End refinement.

(** * Failures *)

Section failures.
Context {codec : entry_codec}.

(** Operations issued one after the other, each with the statement at which it
    fails, if it does. *)
Definition issue (s : storage) (ops : list (list statement * option nat)) : storage :=
  foldl (fun s op => (execute_with_linearization_point op.1 op.2 s).2) s ops.

Lemma issue_failed s ops : st_failed s = true -> issue s ops = s.
Proof.
  intros Hf. induction ops as [|[op k] ops IH]; [done|].
  assert ((execute_with_linearization_point op k s).2 = s) as Hs.
  { unfold execute_with_linearization_point. by rewrite Hf. }
  unfold issue in *. cbn [foldl fst snd]. by rewrite Hs.
Qed.

Lemma execute_all_app sts sts' t : execute_all (sts ++ sts') t = execute_all sts' (execute_all sts t).
Proof. apply foldl_app. Qed.

(** Operations take effect in the order they are issued and none takes effect
    after one that failed: what has reached the tables is always the result of a
    prefix of all the statements issued, and all of them if no operation failed. *)
Theorem storage_prefix s ops :
  st_failed s = false ->
  exists k, st_tables (issue s ops) = execute_all (take k (concat ops.*1)) (st_tables s) /\
    (st_failed (issue s ops) = false -> st_tables (issue s ops) = execute_all (concat ops.*1) (st_tables s)).
Proof.
  revert s. induction ops as [|[op fails] ops IH]; intros s Hs; [by exists 0%nat|].
  assert (forall s', (execute_with_linearization_point op fails s).2 = s' -> s' = Storage (execute_all op (st_tables s)) false \/
    st_failed s' = true /\ exists k, (k < length op)%nat /\ st_tables s' = execute_all (take k op) (st_tables s)) as Hcase.
  { intros s' <-. unfold execute_with_linearization_point. rewrite Hs. destruct fails as [k|]; [|by left].
    case_bool_decide; [right|by left]. split; [done|]. by exists k. }
  unfold issue. cbn [foldl fst snd fmap list_fmap concat]. fold (issue (execute_with_linearization_point op fails s).2 ops).
  destruct (Hcase _ eq_refl) as [-> |(Hf & k & Hk & Ht)].
  - destruct (IH (Storage (execute_all op (st_tables s)) false) eq_refl) as (k & Hk & Hall). cbn [st_tables] in *.
    exists (length op + k)%nat. rewrite take_app_add, !execute_all_app. by split.
  - rewrite issue_failed by done. exists k. split; [|by rewrite Hf].
    by rewrite take_app_le by lia.
Qed.
End failures.

(** * Examples *)

Module StorageExamples.
(** A codec that keeps the data as it is. *)
#[local] Instance plain_codec : entry_codec :=
  {| blob := entry_data; serialize d := d; deserialize d := Some d; size_bytes _ := 8 |}.
#[local] Instance plain_codec_ok : entry_codec_ok.
Proof. done. Qed.

Definition entry (term idx : Z) : log_entry := LogEntry term idx Dummy.
Definition old_snapshot : snapshot_descriptor := SnapshotDescriptor 5 1 (example_configuration [1%N; 2%N]) 7.
Definition new_snapshot : snapshot_descriptor := SnapshotDescriptor 9 2 (example_configuration [1%N; 2%N; 3%N]) 8.

Definition history : list operation :=
  [op_term_and_vote 3 2; op_snapshot_descriptor old_snapshot 0; op_log_entries [entry 1 6; entry 2 7; entry 2 8];
   op_truncate_log 8; op_log_entries [entry 3 8]; op_commit_idx 7; op_snapshot_descriptor
     (SnapshotDescriptor 7 2 (Configuration {[ 1%N := ConfigMember [Byte.x0a] true ]} ∅) 9) 1].

Lemma storage_refines_witness :
  all_valid initial_contents history /\
  table_load_log (foldl (fun t o => @perform _ (table_persistence 20) o t) empty_tables history) =
    Ret [entry 2 7; entry 3 8] /\
  table_load_snapshot_descriptor (foldl (fun t o => @perform _ (table_persistence 20) o t) empty_tables history) =
    Ret (SnapshotDescriptor 7 2 (Configuration {[ 1%N := ConfigMember [] true ]} ∅) 9).
Proof.
  assert (all_valid initial_contents history) as Hv.
  { unfold history. cbn [all_valid op_valid]. unfold fits. split_and!; lazymatch goal with |- exists _, _ => idtac | _ => try (vm_compute; congruence) end;
      [exists 6|exists 8|done];
      (split_and!; [vm_compute; done|lia|simpl; lia|repeat constructor; simpl; lia|]);
      match goal with |- Forall _ ?l => let l' := eval vm_compute in l in change l with l' end;
      repeat constructor; vm_compute; congruence. }
  split; [exact Hv|]. destruct (storage_refines 20 history Hv) as (_ & _ & Hs & Hl). split; [exact Hl|]. rewrite Hs. vm_compute. done.
Defined.

Lemma store_log_entries_batches_witness :
  exists batches, do_store_log_entries 20 [entry 1 6; entry 2 7; entry 2 8] = Ret (map insert_log_entries batches) /\
    length batches = 2%nat.
Proof.
  destruct (store_log_entries_batches 20 [entry 1 6; entry 2 7; entry 2 8]) as (bs & Hbs & _).
  - vm_compute. congruence.
  - repeat constructor; vm_compute; congruence.
  - exists bs. split; [exact Hbs|].
    pose proof (f_equal (fun o => match o with Ret l => length l | _ => 0%nat end) Hbs) as Hl.
    cbv beta iota in Hl. rewrite length_map in Hl. rewrite <- Hl. reflexivity.
Defined.

Lemma storage_prefix_witness :
  exists k, st_tables (issue (Storage empty_tables false)
      [(table_store_commit_idx 5, None); (table_truncate_log 3, Some 0%nat); (table_store_commit_idx 9, None)]) =
    execute_all (take k [insert_commit_idx 5; delete_log_from 3; insert_commit_idx 9]) empty_tables.
Proof.
  destruct (storage_prefix (Storage empty_tables false)
    [(table_store_commit_idx 5, None); (table_truncate_log 3, Some 0%nat); (table_store_commit_idx 9, None)] eq_refl)
    as (k & Hk & _). exists k. exact Hk.
Defined.

(** C33: Storing a snapshot descriptor is not atomic. If the process stops after the
    first two statements of [store_snapshot_descriptor], the descriptor that is
    loaded at the next start is neither the old nor the new one: it has the index
    and the term of the new snapshot, the id of the old one, and no members at
    all. *)
Theorem snapshot_store_not_atomic :
  let t := execute_all (table_store_snapshot_descriptor old_snapshot 0) empty_tables in
  table_load_snapshot_descriptor t = Ret (strip_snapshot old_snapshot) /\
  table_load_snapshot_descriptor (execute_all (table_store_snapshot_descriptor new_snapshot 0) t) =
    Ret (strip_snapshot new_snapshot) /\
  table_load_snapshot_descriptor (execute_all (take 2 (table_store_snapshot_descriptor new_snapshot 0)) t) =
    Ret (SnapshotDescriptor (snp_idx new_snapshot) (snp_term new_snapshot) (Configuration ∅ ∅) (snp_id old_snapshot)).
Proof. vm_compute. done. Qed.
End StorageExamples.
