(* ===== verification/RaftWaiters.v ===== *)
(** Clients that wait on a Raft server ([src/raft/server.cc]): for an entry to be
    committed or applied, for an index to be applied, for a read barrier, for a
    configuration change, for a leader, for the end of a step down.

    A promise is a number; resolving it is an entry of the list [w_resolved], so
    that what clients are told and in which order can be stated. The maps
    [_awaited_commits] and [_awaited_applies] (one waiter per index) and the
    multimap [_awaited_indexes] are lists in the order of their keys. Counters of
    statistics are kept out. *)
From S2P Require Import Prelude RaftTypes RaftLog RaftTracker RaftFsm RaftInvariant.
From S2P Require Import RaftTheorems.

(** * Data *)

Abbreviation promise := N (only parsing).

(** The exceptions of the server; those of the state machine are passed on. *)
Inductive server_error :=
| fsm_error (e : raft_error)
| commit_status_unknown
| dropped_entry
| stopped_error
| request_aborted
| command_is_too_big
| not_a_member
| logic_error
| timeout_error
| config_error
| state_machine_error
| storage_error
| stop_apply_fiber
| snapshot_application_aborted
| server_internal_error.

(** What a client is told. *)
Inductive wait_result :=
| wait_done
| wait_failed (e : server_error)
| wait_read_index (i : index_t)
| wait_not_a_leader (leader : server_id)
| wait_snapshot_reply (r : snapshot_reply).

Record op_status := OpStatus {
  os_term : term_t;
  os_done : promise;
}.

Record active_read := ActiveRead {
  ar_id : read_id;
  ar_idx : index_t;
  ar_promise : promise;
}.

Record waiters := Waiters {
  w_awaited_commits : list (index_t * op_status);
  w_awaited_applies : list (index_t * op_status);
  w_awaited_indexes : list (index_t * promise);
  w_reads : list active_read;
  w_stepdown_promise : option promise;
  w_leader_promise : option promise;
  w_non_joint_conf_commit_promise : option promise;
  w_state_change_promise : option promise;
  w_tick_promise : option promise;
  w_next_promise : promise;
  w_resolved : list (promise * wait_result);
}.

Definition no_waiters : waiters := Waiters [] [] [] [] None None None None None 0 [].

Inductive wait_type := wait_committed | wait_applied.

Record entry_id := EntryId {
  eid_term : term_t;
  eid_idx : index_t;
}.

(** ** Updates *)

Definition w_set_commits (l : list (index_t * op_status)) (w : waiters) : waiters :=
  Waiters l (w_awaited_applies w) (w_awaited_indexes w) (w_reads w) (w_stepdown_promise w) (w_leader_promise w)
    (w_non_joint_conf_commit_promise w) (w_state_change_promise w) (w_tick_promise w) (w_next_promise w) (w_resolved w).
Definition w_set_applies (l : list (index_t * op_status)) (w : waiters) : waiters :=
  Waiters (w_awaited_commits w) l (w_awaited_indexes w) (w_reads w) (w_stepdown_promise w) (w_leader_promise w)
    (w_non_joint_conf_commit_promise w) (w_state_change_promise w) (w_tick_promise w) (w_next_promise w) (w_resolved w).
Definition w_set_indexes (l : list (index_t * promise)) (w : waiters) : waiters :=
  Waiters (w_awaited_commits w) (w_awaited_applies w) l (w_reads w) (w_stepdown_promise w) (w_leader_promise w)
    (w_non_joint_conf_commit_promise w) (w_state_change_promise w) (w_tick_promise w) (w_next_promise w) (w_resolved w).
Definition w_set_reads (l : list active_read) (w : waiters) : waiters :=
  Waiters (w_awaited_commits w) (w_awaited_applies w) (w_awaited_indexes w) l (w_stepdown_promise w) (w_leader_promise w)
    (w_non_joint_conf_commit_promise w) (w_state_change_promise w) (w_tick_promise w) (w_next_promise w) (w_resolved w).
Definition w_set_stepdown (p : option promise) (w : waiters) : waiters :=
  Waiters (w_awaited_commits w) (w_awaited_applies w) (w_awaited_indexes w) (w_reads w) p (w_leader_promise w)
    (w_non_joint_conf_commit_promise w) (w_state_change_promise w) (w_tick_promise w) (w_next_promise w) (w_resolved w).
Definition w_set_leader (p : option promise) (w : waiters) : waiters :=
  Waiters (w_awaited_commits w) (w_awaited_applies w) (w_awaited_indexes w) (w_reads w) (w_stepdown_promise w) p
    (w_non_joint_conf_commit_promise w) (w_state_change_promise w) (w_tick_promise w) (w_next_promise w) (w_resolved w).
Definition w_set_non_joint (p : option promise) (w : waiters) : waiters :=
  Waiters (w_awaited_commits w) (w_awaited_applies w) (w_awaited_indexes w) (w_reads w) (w_stepdown_promise w)
    (w_leader_promise w) p (w_state_change_promise w) (w_tick_promise w) (w_next_promise w) (w_resolved w).
Definition w_set_state_change (p : option promise) (w : waiters) : waiters :=
  Waiters (w_awaited_commits w) (w_awaited_applies w) (w_awaited_indexes w) (w_reads w) (w_stepdown_promise w)
    (w_leader_promise w) (w_non_joint_conf_commit_promise w) p (w_tick_promise w) (w_next_promise w) (w_resolved w).
Definition w_set_tick (p : option promise) (w : waiters) : waiters :=
  Waiters (w_awaited_commits w) (w_awaited_applies w) (w_awaited_indexes w) (w_reads w) (w_stepdown_promise w)
    (w_leader_promise w) (w_non_joint_conf_commit_promise w) (w_state_change_promise w) p (w_next_promise w)
    (w_resolved w).
Definition w_resolve (rs : list (promise * wait_result)) (w : waiters) : waiters :=
  Waiters (w_awaited_commits w) (w_awaited_applies w) (w_awaited_indexes w) (w_reads w) (w_stepdown_promise w)
    (w_leader_promise w) (w_non_joint_conf_commit_promise w) (w_state_change_promise w) (w_tick_promise w) (w_next_promise w)
    (w_resolved w ++ rs).
Definition w_fresh (w : waiters) : waiters :=
  Waiters (w_awaited_commits w) (w_awaited_applies w) (w_awaited_indexes w) (w_reads w) (w_stepdown_promise w)
    (w_leader_promise w) (w_non_joint_conf_commit_promise w) (w_state_change_promise w) (w_tick_promise w) (w_next_promise w + 1)%N
    (w_resolved w).

Abbreviation WAIT A := (M waiters server_error A) (only parsing).

(** Code of the state machine called by the server. *)
Definition of_fsm {A} (o : outcome raft_error A) : outcome server_error A :=
  match o with Ret a => Ret a | Throw e => Throw (fsm_error e) | Abort r => Abort r end.

Definition new_promise : WAIT promise :=
  p ← gets w_next_promise; modify w_fresh ;; mret p.

(** [_awaited_commits] or [_awaited_applies]. *)
Definition container (type : wait_type) (w : waiters) : list (index_t * op_status) :=
  match type with wait_committed => w_awaited_commits w | wait_applied => w_awaited_applies w end.
Definition set_container (type : wait_type) (l : list (index_t * op_status)) (w : waiters) : waiters :=
  match type with wait_committed => w_set_commits l w | wait_applied => w_set_applies l w end.

(** [std::map]: look up, insert, erase. *)
Fixpoint map_find {A} (i : Z) (l : list (Z * A)) : option A :=
  match l with
  | [] => None
  | (j, a) :: l => if j =? i then Some a else map_find i l
  end.
Fixpoint map_emplace {A} (i : Z) (a : A) (l : list (Z * A)) : list (Z * A) :=
  match l with
  | [] => [(i, a)]
  | (j, b) :: l' => if i <? j then (i, a) :: l else (j, b) :: map_emplace i a l'
  end.
Fixpoint map_erase {A} (i : Z) (l : list (Z * A)) : list (Z * A) :=
  match l with
  | [] => []
  | (j, b) :: l' => if j =? i then l' else (j, b) :: map_erase i l'
  end.

(** * Notification *)

(** The first loop of [notify_waiters]: the waiters up to [commit_idx]. Returns the
    resolved promises and the waiters that are left. *)
Fixpoint notify_committed (entries : list log_entry) (first_idx commit_idx : index_t) (ws : list (index_t * op_status)) :
    outcome server_error (list (promise * wait_result) * list (index_t * op_status)) :=
  match ws with
  | [] => mret ([], [])
  | (entry_idx, status) :: rest =>
    if entry_idx >? commit_idx then mret ([], ws)
    else
      check (entry_idx >=? first_idx) ;;
      e ← defined (at_z entries (entry_idx -! first_idx));
      let r := if os_term status =? e_term e then wait_done else wait_failed dropped_entry in
      '(rs, kept) ← notify_committed entries first_idx commit_idx rest;
      mret ((os_done status, r) :: rs, kept)
  end.

(** The second loop: the waiters at the front that are of an earlier term. *)
Fixpoint notify_dropped (last_committed_term : term_t) (ws : list (index_t * op_status)) :
    list (promise * wait_result) * list (index_t * op_status) :=
  match ws with
  | [] => ([], [])
  | (_, status) :: rest =>
    if os_term status <? last_committed_term
    then let '(rs, kept) := notify_dropped last_committed_term rest in
      ((os_done status, wait_failed dropped_entry) :: rs, kept)
    else ([], ws)
  end.

Definition notify_waiters (type : wait_type) (entries : list log_entry) : WAIT unit :=
  back ← lift (defined (last entries));
  front ← lift (defined (head entries));
  ws ← gets (container type);
  '(rs, kept) ← lift (notify_committed entries (e_idx front) (e_idx back) ws);
  let '(rs', kept') := notify_dropped (e_term back) kept in
  modify (fun w => set_container type kept' (w_resolve (rs ++ rs') w)).

(** The loop of [drop_waiters] on one of the maps. *)
Fixpoint drop_loop (idx : option index_t) (ws : list (index_t * op_status)) :
    list (promise * wait_result) * list (index_t * op_status) :=
  match ws with
  | [] => ([], [])
  | (i, status) :: rest =>
    if match idx with Some idx => i >? idx | None => false end then ([], ws)
    else let '(rs, kept) := drop_loop idx rest in
      ((os_done status, wait_failed commit_status_unknown) :: rs, kept)
  end.

Definition drop_container (type : wait_type) (idx : option index_t) : WAIT unit :=
  ws ← gets (container type);
  let '(rs, kept) := drop_loop idx ws in
  modify (fun w => set_container type kept (w_resolve rs w)).

Definition drop_waiters (idx : option index_t) : WAIT unit :=
  drop_container wait_committed idx ;; drop_container wait_applied idx.

Fixpoint signal_loop (applied_idx : index_t) (l : list (index_t * promise)) :
    list (promise * wait_result) * list (index_t * promise) :=
  match l with
  | [] => ([], [])
  | (i, p) :: rest =>
    if i >? applied_idx then ([], l)
    else let '(rs, kept) := signal_loop applied_idx rest in ((p, wait_done) :: rs, kept)
  end.

Definition signal_applied (applied_idx : index_t) : WAIT unit :=
  l ← gets w_awaited_indexes;
  let '(rs, kept) := signal_loop applied_idx l in
  modify (fun w => w_set_indexes kept (w_resolve rs w)).

(** * Waiting *)

Definition check_not_aborted (aborted : bool) : WAIT unit :=
  if aborted then throw stopped_error else mret tt.

Definition is_wait_committed (t : wait_type) : bool :=
  match t with wait_committed => true | wait_applied => false end.

(** The entry is committed (and applied, if that is waited for) already. *)
Definition wait_over (l : log) (eid : entry_id) (type : wait_type) : WAIT unit :=
  let snap_idx := snp_idx (l_snapshot l) in
  term ← lift (of_fsm (term_for l (eid_idx eid)));
  match term with
  | None =>
    snap_term ← lift (of_fsm (term_for l snap_idx));
    match snap_term with
    | None => lift (check false)
    | Some snap_term =>
      lift (check (snap_idx >=? eid_idx eid)) ;;
      if is_wait_committed type && (snap_term =? eid_term eid) then mret tt
      else throw commit_status_unknown
    end
  | Some term =>
    if negb (term =? eid_term eid) then throw dropped_entry
    else if negb (is_wait_committed type) && (snap_idx >=? eid_idx eid) then throw commit_status_unknown
    else mret tt
  end.

(** A waiter for the index exists: one of the two gives up. *)
Definition displace_waiter (f : fsm) (eid : entry_id) (type : wait_type) (old : op_status) : WAIT unit :=
  lift (check (negb (os_term old =? eid_term eid))) ;;
  t ← lift (of_fsm (term_for (f_log f) (f_commit_idx f)));
  term_of_commit_idx ← lift (defined t);
  if os_term old >? eid_term eid then
    if term_of_commit_idx >? eid_term eid then throw dropped_entry else throw commit_status_unknown
  else
    modify (fun w => set_container type (map_erase (eid_idx eid) (container type w)) w) ;;
    modify (w_resolve [(os_done old, wait_failed
      (if term_of_commit_idx >? os_term old then dropped_entry else commit_status_unknown))]).

(** [wait_for_entry] up to the point where it waits: [None] if there is nothing to
    wait for, otherwise the promise. [aborted] is whether the server was stopped,
    [abort_requested] whether the caller's abort source fired. *)
Definition wait_for_entry (f : fsm) (applied_idx : index_t) (aborted abort_requested : bool)
    (eid : entry_id) (type : wait_type) : WAIT (option promise) :=
  if (eid_idx eid <=? f_commit_idx f) && (is_wait_committed type || (eid_idx eid <=? applied_idx)) then
    wait_over (f_log f) eid type ;; mret None
  else
    check_not_aborted aborted ;;
    if abort_requested then throw request_aborted
    else
      ws ← gets (container type);
      match map_find (eid_idx eid) ws with
      | Some old => displace_waiter f eid type old
      | None => mret tt
      end ;;
      p ← new_promise;
      modify (fun w => set_container type
        (map_emplace (eid_idx eid) (OpStatus (eid_term eid) p) (container type w)) w) ;;
      mret (Some p).

(** The abort source of a waiter fires. *)
Definition abort_waiter (type : wait_type) (idx : index_t) : WAIT unit :=
  ws ← gets (container type);
  match map_find idx ws with
  | Some status =>
    modify (fun w => set_container type (map_erase idx (container type w))
      (w_resolve [(os_done status, wait_failed request_aborted)] w))
  | None => mret tt
  end.

Definition wait_for_apply (applied_idx : index_t) (aborted abort_requested : bool) (idx : index_t) :
    WAIT (option promise) :=
  if abort_requested then throw request_aborted
  else
    check_not_aborted aborted ;;
    if idx >? applied_idx then
      p ← new_promise;
      modify (fun w => w_set_indexes (map_emplace idx p (w_awaited_indexes w)) w) ;;
      mret (Some p)
    else mret None.

(** [wait_for_leader] when no leader is known, [wait_for_state_change] and
    [wait_for_next_tick] share one promise among their callers. *)
Definition share (get : waiters -> option promise) (set : option promise -> waiters -> waiters) : WAIT promise :=
  p ← gets get;
  match p with
  | Some p => mret p
  | None => p ← new_promise; modify (set (Some p)) ;; mret p
  end.

Definition wait_for_leader (f : fsm) : WAIT (option promise) :=
  if negb (current_leader f =? no_id)%N then mret None
  else p ← share w_leader_promise w_set_leader; mret (Some p).

Definition wait_for_state_change : WAIT promise := share w_state_change_promise w_set_state_change.

Definition wait_for_next_tick (aborted : bool) : WAIT promise :=
  check_not_aborted aborted ;; share w_tick_promise w_set_tick.

(** * Reads *)

(** The end of [execute_read_barrier]: the read waits for its quorum. *)
Definition push_read (id : read_id) (idx : index_t) : WAIT promise :=
  p ← new_promise;
  modify (fun w => w_set_reads (w_reads w ++ [ActiveRead id idx p]) w) ;;
  mret p.

(** Reads whose id a quorum has confirmed. *)
Fixpoint serve_reads (max_read_id : read_id) (rs : list active_read) :
    list (promise * wait_result) * list active_read :=
  match rs with
  | [] => ([], [])
  | r :: rest =>
    if ar_id r <=? max_read_id
    then let '(done, kept) := serve_reads max_read_id rest in
      ((ar_promise r, wait_read_index (ar_idx r)) :: done, kept)
    else ([], rs)
  end.

Definition complete_reads (max_read_id_with_quorum : option read_id) : WAIT unit :=
  match max_read_id_with_quorum with
  | None => mret tt
  | Some id =>
    rs ← gets w_reads;
    let '(done, kept) := serve_reads id rs in
    modify (fun w => w_set_reads kept (w_resolve done w))
  end.

Definition fail_reads (leader : server_id) : WAIT unit :=
  modify (fun w => w_set_reads [] (w_resolve
    (map (fun r => (ar_promise r, wait_not_a_leader leader)) (w_reads w)) w)).

(** * Single promises *)

(** [std::exchange(_p, std::nullopt)->set_value()] and the like. *)
Definition settle (get : waiters -> option promise) (reset : option promise -> waiters -> waiters)
    (r : wait_result) : WAIT unit :=
  p ← gets get;
  match p with
  | Some p => modify (fun w => reset None (w_resolve [(p, r)] w))
  | None => mret tt
  end.

(** The scan of the committed entries for a configuration that is not joint. *)
Definition commits_non_joint (entries : list log_entry) : bool :=
  existsb (fun e => match entry_configuration e with Some c => negb (is_joint c) | None => false end) entries.

(** * Shutdown *)

(** The waiters part of [abort]. *)
Definition abort_waiters : WAIT unit :=
  modify (fun w =>
    let stopped := wait_failed stopped_error in
    let rs :=
      map (fun x => (os_done x.2, stopped)) (w_awaited_commits w) ++
      map (fun x => (os_done x.2, stopped)) (w_awaited_applies w) in
    w_set_applies [] (w_set_commits [] (w_resolve rs w))) ;;
  settle w_non_joint_conf_commit_promise w_set_non_joint (wait_failed stopped_error) ;;
  fail_reads no_id ;;
  modify (fun w => w_set_indexes []
    (w_resolve (map (fun x => (x.2, wait_failed stopped_error)) (w_awaited_indexes w)) w)).

(** What is left to do when the other modules have stopped. *)
Definition abort_promises : WAIT unit :=
  modify (fun w =>
    let fail (p : option promise) := match p with Some p => [(p, wait_failed stopped_error)] | None => [] end in
    w_resolve (fail (w_leader_promise w) ++ fail (w_tick_promise w) ++ fail (w_state_change_promise w)) w).

(** * Ordered maps *)

Section ordered_maps.
Context {A : Type}.
Implicit Types (l : list (Z * A)).

Definition ordered l : Prop := StronglySorted (fun x y => x.1 < y.1) l.
Definition all_above (i : Z) l : Prop := Forall (fun x => i < x.1) l.

Lemma ordered_cons x l : ordered (x :: l) <-> all_above x.1 l /\ ordered l.
Proof. unfold ordered, all_above. rewrite StronglySorted_cons. tauto. Qed.

Lemma all_above_mono i j l : i <= j -> all_above j l -> all_above i l.
Proof. intros Hij Hl. eapply Forall_impl; [exact Hl|]. simpl. lia. Qed.

Lemma map_find_Some i a l : map_find i l = Some a -> (i, a) ∈ l.
Proof.
  induction l as [|[j b] l IH]; simpl; [done|]. destruct (Z.eqb_spec j i) as [->|].
  - intros [= ->]. left.
  - intros. right. auto.
Qed.

Lemma map_find_None i l : map_find i l = None -> forall a, (i, a) ∉ l.
Proof.
  induction l as [|[j b] l IH]; simpl; [intros _ a []%elem_of_nil|]. destruct (Z.eqb_spec j i); [done|].
  intros Hn a [[= -> ->]|Hin]%elem_of_cons; [done|]. by eapply IH.
Qed.

Lemma elem_of_map_emplace i a l x : x ∈ map_emplace i a l <-> x = (i, a) \/ x ∈ l.
Proof.
  induction l as [|[j b] l IH]; simpl; [by rewrite elem_of_cons|].
  destruct (i <? j); rewrite !elem_of_cons; rewrite ?IH, ?elem_of_cons; naive_solver.
Qed.

Lemma all_above_emplace i j a l : i < j -> all_above i l -> all_above i (map_emplace j a l).
Proof.
  unfold all_above. rewrite !Forall_forall. intros Hij Hl x [-> |Hx]%elem_of_map_emplace; [done|auto].
Qed.

Lemma map_emplace_ordered i a l : ordered l -> map_find i l = None -> ordered (map_emplace i a l).
Proof.
  induction l as [|[j b] l IH]; simpl; [intros; repeat constructor|].
  rewrite ordered_cons. intros [Hj Hl]. destruct (Z.eqb_spec j i); [done|]. intros Hi.
  destruct (Z.ltb_spec i j); apply ordered_cons; simpl in *.
  - split; [|by apply ordered_cons]. constructor; [done|]. eapply all_above_mono; [|done]. lia.
  - split; [apply all_above_emplace; [lia|done]|auto].
Qed.

Lemma map_erase_sublist i l : map_erase i l `sublist_of` l.
Proof.
  induction l as [|[j b] l IH]; simpl; [done|]. destruct (j =? i); [by apply sublist_cons|by apply sublist_skip].
Qed.

Lemma all_above_sublist i l l' : l' `sublist_of` l -> all_above i l -> all_above i l'.
Proof.
  unfold all_above. rewrite !Forall_forall. intros Hs Hl x Hx. apply Hl.
  apply (elem_of_submseteq l' l x Hx). by apply sublist_submseteq.
Qed.

Lemma ordered_sublist l l' : l' `sublist_of` l -> ordered l -> ordered l'.
Proof.
  induction 1 as [|x l1 l2 Hs IH|x l1 l2 Hs IH]; [done| |]; rewrite !ordered_cons.
  - intros [Hx Hl]. split; [by eapply all_above_sublist|auto].
  - intros [_ Hl]. auto.
Qed.

Lemma map_erase_find i l : ordered l -> map_find i (map_erase i l) = None.
Proof.
  induction l as [|[j b] l IH]; simpl; [done|]. rewrite ordered_cons. intros [Hj Hl].
  destruct (Z.eqb_spec j i) as [->|Hne]; simpl.
  - destruct (map_find i l) eqn:Hf; [|done]. apply map_find_Some in Hf.
    unfold all_above in Hj. rewrite Forall_forall in Hj. specialize (Hj _ Hf). simpl in Hj. lia.
  - destruct (Z.eqb_spec j i); [done|auto].
Qed.
End ordered_maps.

(** * What waiters are told *)

(** The answer to a waiter when a batch is committed. *)
Definition verdict (entries : list log_entry) (x : index_t * op_status) : promise * wait_result :=
  (os_done x.2, if existsb (fun e => (e_idx e =? x.1) && (e_term e =? os_term x.2)) entries
    then wait_done else wait_failed dropped_entry).

(** What is true of the waiters [ws] when a batch ending in [back] was announced:
    those in [answered] got their verdict, those in [kept] still wait. *)
Record announced (entries : list log_entry) (back : log_entry) (ws answered kept : list (index_t * op_status)) : Prop := {
  an_split : ws = answered ++ kept;
  an_answered : Forall (fun x => x.1 <= e_idx back \/ os_term x.2 < e_term back) answered;
  an_kept : all_above (e_idx back) kept;
  an_front : forall x, head kept = Some x -> e_term back <= os_term x.2;
}.

Lemma batch_lookup first entries i : consecutive first entries -> 0 <= first ->
  first + Z.of_nat (length entries) < u64_modulus -> first <= i < first + Z.of_nat (length entries) ->
  exists e, at_z entries (i -! first) = Some e /\ forall e', e' ∈ entries -> e_idx e' = i -> e' = e.
Proof.
  intros Hc Hf Hb Hi. rewrite u64_sub_small by lia.
  destruct (lookup_lt_is_Some_2 entries (Z.to_nat (i - first))) as [e He]; [lia|]. exists e.
  split; [apply at_z_Some; split; [lia|done]|].
  intros e' [k Hk]%list_elem_of_lookup Hi'. rewrite consecutive_lookup in Hc. pose proof (Hc k e' Hk).
  replace (Z.to_nat (i - first)) with k in He by lia. congruence.
Qed.

Lemma existsb_false_above entries i x : (forall e, e ∈ entries -> e_idx e <= i) -> i < x.1 ->
  existsb (fun e => (e_idx e =? x.1) && (e_term e =? os_term x.2)) entries = false.
Proof.
  intros He Hx. destruct (existsb _ _) eqn:Hex; [|done]. apply existsb_exists in Hex as (e & Hin & Hb).
  apply list_elem_of_In in Hin. specialize (He e Hin). lia.
Qed.

Section notification.
Context (entries : list log_entry) (first : index_t) (back : log_entry).
Hypothesis Hcons : consecutive first entries.
Hypothesis Hfirst : 0 <= first.
Hypothesis Hbound : first + Z.of_nat (length entries) < u64_modulus.
Hypothesis Hback : last entries = Some back.

Lemma batch_last : e_idx back = first + Z.of_nat (length entries) - 1.
Proof using Hcons Hback.
  apply last_Some in Hback as [es Hes]. rewrite Hes in Hcons |- *. apply consecutive_app in Hcons as [_ [Hi _]].
  rewrite length_app. simpl. lia.
Qed.

Lemma batch_below e : e ∈ entries -> e_idx e <= e_idx back.
Proof using Hcons Hback.
  rewrite batch_last. intros [k Hk]%list_elem_of_lookup. pose proof (lookup_lt_Some _ _ _ Hk).
  rewrite (proj1 (consecutive_lookup _ _) Hcons k e Hk). lia.
Qed.

Lemma notify_committed_spec ws : ordered ws -> all_above (first - 1) ws ->
  exists answered kept, notify_committed entries first (e_idx back) ws = Ret (map (verdict entries) answered, kept) /\
    ws = answered ++ kept /\ Forall (fun x => x.1 <= e_idx back) answered /\ all_above (e_idx back) kept.
Proof using Hcons Hfirst Hbound Hback.
  induction ws as [|[i st] ws IH]; intros Ho Hab; [by exists [], []; split_and!; try constructor|].
  apply ordered_cons in Ho as [Hi Ho]. apply Forall_cons in Hab as [Hfi Hab]. simpl in *.
  destruct (Z.gtb_spec i (e_idx back)).
  - exists [], ((i, st) :: ws). split_and!; [done..|]. constructor; [done|]. eapply all_above_mono; [|exact Hi]. lia.
  - zbool. simpl. destruct (batch_lookup first entries i) as (e & He & Huniq); [done..|rewrite batch_last in *; lia|].
    rewrite He. simpl. destruct (IH Ho Hab) as (answered & kept & -> & -> & Ha & Hk).
    exists ((i, st) :: answered), kept. split_and!; [|done|by constructor|done].
    simpl. unfold verdict at 2. simpl. do 4 f_equal. pose proof He as [_ Hin%list_elem_of_lookup_2]%at_z_Some.
    assert (e_idx e = i) as Hei.
    { apply at_z_Some in He as [? He]. rewrite (proj1 (consecutive_lookup _ _) Hcons _ _ He).
      rewrite u64_sub_small; [lia|]. rewrite batch_last in *. lia. }
    destruct (existsb _ entries) eqn:Hex.
    + apply existsb_exists in Hex as (e' & Hin'%list_elem_of_In & Hb).
      rewrite (Huniq e') in Hb by (done || lia). by zbool.
    + destruct (Z.eqb_spec (os_term st) (e_term e)) as [Heq|]; [|done].
      assert (existsb (fun e => (e_idx e =? i) && (e_term e =? os_term st)) entries = true) as Ht; [|congruence].
      apply existsb_exists. exists e. split; [by apply list_elem_of_In|]. lia.
Qed.

Lemma notify_dropped_spec ws : all_above (e_idx back) ws ->
  exists answered kept, notify_dropped (e_term back) ws = (map (verdict entries) answered, kept) /\
    ws = answered ++ kept /\ Forall (fun x => os_term x.2 < e_term back) answered /\
    forall x, head kept = Some x -> e_term back <= os_term x.2.
Proof using Hcons Hback.
  induction ws as [|[i st] ws IH]; intros Hab; [by exists [], []; split_and!; try constructor|].
  apply Forall_cons in Hab as [Hi Hab]. simpl in *. destruct (Z.ltb_spec (os_term st) (e_term back)).
  - destruct (IH Hab) as (answered & kept & -> & -> & Ha & Hk).
    exists ((i, st) :: answered), kept. split_and!; [|done|by constructor|done].
    simpl. unfold verdict at 2. by rewrite (existsb_false_above entries (e_idx back) (i, st) batch_below Hi).
  - exists [], ((i, st) :: ws). split_and!; [done..|]. intros x [= <-]. done.
Qed.

Lemma notify_waiters_spec type w : ordered (container type w) -> all_above (first - 1) (container type w) ->
  exists answered kept, notify_waiters type entries w =
      (Ret tt, set_container type kept (w_resolve (map (verdict entries) answered) w)) /\
    announced entries back (container type w) answered kept.
Proof using Hcons Hfirst Hbound Hback.
  intros Ho Hab. destruct (notify_committed_spec _ Ho Hab) as (a1 & k1 & Hn1 & Hs1 & Ha1 & Hk1).
  destruct (notify_dropped_spec k1 Hk1) as (a2 & k2 & Hn2 & Hs2 & Ha2 & Hk2).
  exists (a1 ++ a2), k2. split.
  - unfold notify_waiters, mbind, M_bind, lift, gets. rewrite Hback. cbn [defined].
    destruct entries as [|e0 es]; [done|]. pose proof Hcons as [He0 _]. cbn [head defined]. rewrite He0.
    rewrite Hn1. cbv iota beta. rewrite Hn2. cbv iota beta. by rewrite <- map_app.
  - split; [by rewrite Hs1, Hs2, (assoc_L (++))| | |done].
    + apply Forall_app. split; [eapply Forall_impl; [exact Ha1|]|eapply Forall_impl; [exact Ha2|]]; simpl; auto.
    + rewrite Hs2 in Hk1. by apply Forall_app in Hk1 as [_ ?].
Qed.
End notification.

(** Waiters are in order and wait for what is not applied yet. *)
Record waiting_ok (applied_idx : index_t) (w : waiters) : Prop := {
  wk_ordered type : ordered (container type w);
  wk_above type : all_above applied_idx (container type w);
}.

Lemma container_set_same type l w : container type (set_container type l w) = l.
Proof. by destruct type. Qed.
Lemma container_set_other type type' l w : type <> type' -> container type (set_container type' l w) = container type w.
Proof. by destruct type, type'. Qed.
Lemma container_resolve type rs w : container type (w_resolve rs w) = container type w.
Proof. by destruct type. Qed.
Lemma set_container_resolved type l w : w_resolved (set_container type l w) = w_resolved w.
Proof. by destruct type. Qed.

#[global] Instance wait_type_eq : EqDecision wait_type.
Proof. solve_decision. Defined.

Lemma waiting_ok_set applied_idx type l w : waiting_ok applied_idx w -> ordered l -> all_above applied_idx l ->
  waiting_ok applied_idx (set_container type l w).
Proof.
  intros [Ho Ha] Hl Hal. split; intros type'; (destruct (decide (type' = type)) as [->|Hne];
    [by rewrite container_set_same|by rewrite container_set_other]).
Qed.

Lemma waiting_ok_resolve applied_idx rs w : waiting_ok applied_idx w -> waiting_ok applied_idx (w_resolve rs w).
Proof. intros [Ho Ha]. split; intros type; rewrite container_resolve; auto. Qed.

(** What a displaced waiter is told when the term at the commit index is [t]. *)
Definition displaced_answer (t : term_t) (old : option op_status) : list (promise * wait_result) :=
  match old with
  | Some old => [(os_done old, wait_failed (if t >? os_term old then dropped_entry else commit_status_unknown))]
  | None => []
  end.

(** How [wait_for_entry] ends. *)
Inductive wait_outcome (f : fsm) (applied_idx : index_t) (eid : entry_id) (type : wait_type) (w : waiters) :
    outcome server_error (option promise) -> waiters -> Prop :=
| wait_known :
    eid_idx eid <= f_commit_idx f -> (type = wait_applied -> snp_idx (l_snapshot (f_log f)) < eid_idx eid <= applied_idx) ->
    term_known (f_log f) (eid_idx eid) (eid_term eid) \/
      eid_idx eid < snp_idx (l_snapshot (f_log f)) /\
      term_known (f_log f) (snp_idx (l_snapshot (f_log f))) (eid_term eid) ->
    wait_outcome f applied_idx eid type w (Ret None) w
| wait_replaced t :
    eid_idx eid <= f_commit_idx f -> term_known (f_log f) (eid_idx eid) t -> t <> eid_term eid ->
    wait_outcome f applied_idx eid type w (Throw dropped_entry) w
| wait_lost :
    eid_idx eid <= snp_idx (l_snapshot (f_log f)) ->
    wait_outcome f applied_idx eid type w (Throw commit_status_unknown) w
| wait_refused e :
    e = stopped_error \/ e = request_aborted -> wait_outcome f applied_idx eid type w (Throw e) w
| wait_yields old t :
    map_find (eid_idx eid) (container type w) = Some old -> eid_term eid < os_term old ->
    term_known (f_log f) (f_commit_idx f) t ->
    wait_outcome f applied_idx eid type w
      (Throw (if t >? eid_term eid then dropped_entry else commit_status_unknown)) w
| wait_registered w' t :
    applied_idx < eid_idx eid -> (type = wait_committed -> f_commit_idx f < eid_idx eid) ->
    term_known (f_log f) (f_commit_idx f) t ->
    w_resolved w' = w_resolved w ++ displaced_answer t (map_find (eid_idx eid) (container type w)) ->
    (forall x, x ∈ container type w' <-> x = (eid_idx eid, OpStatus (eid_term eid) (w_next_promise w)) \/
      x ∈ container type w /\ x.1 <> eid_idx eid) ->
    (forall type', type' <> type -> container type' w' = container type' w) ->
    wait_outcome f applied_idx eid type w (Ret (Some (w_next_promise w))) w'.

Section waiting.
Context {env : raft_env}.
Implicit Types (f : fsm) (w : waiters).

Lemma commit_term_known f : fsm_wf f ->
  exists t, term_for (f_log f) (f_commit_idx f) = Ret (Some t) /\ term_known (f_log f) (f_commit_idx f) t.
Proof.
  intros [[_ Hl _ _ Hc _] _]. destruct (term_for_spec (f_log f) (f_commit_idx f) Hl) as [(t & Ht & Hk & _)|[_ ?]];
    [destruct Hl; lia|eauto|lia].
Qed.

Lemma wait_over_spec f applied_idx eid type w : fsm_wf f -> 0 <= eid_idx eid <= f_commit_idx f ->
  (type = wait_applied -> eid_idx eid <= applied_idx) ->
  exists o, (wait_over (f_log f) eid type ;; mret None) w = (o, w) /\ wait_outcome f applied_idx eid type w o w.
Proof.
  intros Hwf Hi Happ. pose proof Hwf as [[_ Hl _ _ Hc _] _]. pose proof Hl as [].
  unfold wait_over, mbind, M_bind, lift. cbv zeta.
  destruct (term_for_spec (f_log f) (eid_idx eid) Hl) as [(t & -> & Hk & _)|[-> Hlt]]; [lia| |]; cbn [of_fsm].
  - destruct (Z.eqb_spec t (eid_term eid)) as [->|Hne]; cbn [negb].
    2: { eexists. split; [reflexivity|]. eapply wait_replaced; [lia|done|done]. }
    destruct (negb (is_wait_committed type) && _) eqn:Hsn; (eexists; split; [reflexivity|]).
    + apply wait_lost. destruct type; simpl in Hsn; [done|]. lia.
    + apply wait_known; [lia| |by left]. intros ->. simpl in Hsn. specialize (Happ eq_refl). lia.
  - destruct (term_for_spec (f_log f) (snp_idx (l_snapshot (f_log f))) Hl) as [(t & -> & Hk & _)|[_ ?]]; [lia| |lia].
    cbn [of_fsm]. zbool. cbn [check].
    destruct (is_wait_committed type && (t =? eid_term eid)) eqn:Hc'; (eexists; split; [reflexivity|]).
    + apply wait_known; [lia|intros ->; done|]. right. split; [done|].
      by apply andb_true_iff in Hc' as [_ <-%Z.eqb_eq].
    + apply wait_lost. lia.
Qed.

Lemma elem_of_map_erase {A} i (l : list (Z * A)) x : ordered l -> x ∈ map_erase i l <-> x ∈ l /\ x.1 <> i.
Proof.
  induction l as [|[j b] l IH]; simpl; [intros _; rewrite elem_of_nil; tauto|].
  rewrite ordered_cons. intros [Hj Hl]. unfold all_above in Hj. rewrite Forall_forall in Hj. simpl in Hj.
  destruct (Z.eqb_spec j i) as [->|Hne]; rewrite !elem_of_cons; [|rewrite IH by done; naive_solver].
  split; [intros Hx; specialize (Hj x Hx); split; [auto|lia]|]. intros [[-> |?] ?]; done.
Qed.

Lemma register_spec type i st w applied_idx : waiting_ok applied_idx w -> applied_idx < i ->
  map_find i (container type w) = None ->
  waiting_ok applied_idx (set_container type (map_emplace i st (container type w)) w) /\
  forall x, x ∈ container type (set_container type (map_emplace i st (container type w)) w) <->
    x = (i, st) \/ x ∈ container type w.
Proof.
  intros Hok Hi Hn. split; [|intros x; rewrite container_set_same; apply elem_of_map_emplace].
  apply waiting_ok_set; [done|apply map_emplace_ordered; [apply Hok|done]|apply all_above_emplace; [done|apply Hok]].
Qed.

Lemma map_find_elem {A} i (a : A) l : ordered l -> (i, a) ∈ l -> map_find i l = Some a.
Proof.
  induction l as [|[j b] l IH]; simpl; [intros _ []%elem_of_nil|]. rewrite ordered_cons. intros [Hj Hl].
  intros [[= -> ->]|Hin]%elem_of_cons; [by rewrite Z.eqb_refl|].
  unfold all_above in Hj. rewrite Forall_forall in Hj. specialize (Hj _ Hin). simpl in Hj. zbool. auto.
Qed.

(** The end of [wait_for_entry], once an older waiter is out of the way. *)
Lemma register_outcome f applied_idx eid type w w1 t :
  waiting_ok applied_idx w1 -> applied_idx < eid_idx eid -> (type = wait_committed -> f_commit_idx f < eid_idx eid) ->
  term_known (f_log f) (f_commit_idx f) t -> w_next_promise w1 = w_next_promise w ->
  w_resolved w1 = w_resolved w ++ displaced_answer t (map_find (eid_idx eid) (container type w)) ->
  map_find (eid_idx eid) (container type w1) = None ->
  (forall x, x ∈ container type w1 <-> x ∈ container type w /\ x.1 <> eid_idx eid) ->
  (forall type', type' <> type -> container type' w1 = container type' w) ->
  let w' := set_container type (map_emplace (eid_idx eid) (OpStatus (eid_term eid) (w_next_promise w1))
    (container type (w_fresh w1))) (w_fresh w1) in
  wait_outcome f applied_idx eid type w (Ret (Some (w_next_promise w1))) w' /\ waiting_ok applied_idx w'.
Proof.
  intros Hok Ha Hc Hk Hp Hr Hn Hel Hother.
  assert (forall type, container type (w_fresh w1) = container type w1) as Hfr by by intros [].
  destruct (register_spec type (eid_idx eid) (OpStatus (eid_term eid) (w_next_promise w1)) (w_fresh w1) applied_idx)
    as [Hok2 Hel2]; [by destruct Hok; split; intros type'; rewrite Hfr|done|by rewrite Hfr|].
  split; [|exact Hok2]. rewrite Hp in Hel2 |- *. apply (wait_registered _ _ _ _ _ _ t); try done.
  - by rewrite set_container_resolved.
  - intros x. by rewrite Hel2, Hfr, Hel.
  - intros type' Hne. by rewrite container_set_other, Hfr, Hother.
Qed.

(** The assertion fails exactly for an entry that somebody waits for already. *)
Lemma wait_for_entry_cases f applied_idx aborted abort_requested eid type w :
  fsm_wf f -> waiting_ok applied_idx w -> applied_idx <= f_commit_idx f -> 0 <= eid_idx eid ->
  exists o w', wait_for_entry f applied_idx aborted abort_requested eid type w = (o, w') /\
    (wait_outcome f applied_idx eid type w o w' /\ waiting_ok applied_idx w' \/
     o = Abort assertion_failed /\ exists p, (eid_idx eid, OpStatus (eid_term eid) p) ∈ container type w).
Proof.
  intros Hwf Hok Happ Hi. unfold wait_for_entry. destruct ((_ <=? _) && _) eqn:Hover.
  { apply andb_true_iff in Hover as [Hover%Z.leb_le Hor].
    destruct (wait_over_spec f applied_idx eid type w) as (o & Ho & Hout); [done|lia|intros ->; simpl in Hor; lia|].
    exists o, w. auto. }
  unfold check_not_aborted. destruct aborted; [exists (Throw stopped_error), w; split; [done|]; left; split; [apply wait_refused; auto|done]|].
  destruct abort_requested; [exists (Throw request_aborted), w; split; [done|]; left; split; [apply wait_refused; auto|done]|].
  assert (applied_idx < eid_idx eid /\ (type = wait_committed -> f_commit_idx f < eid_idx eid)) as [Ha Hc].
  { destruct type; cbn [is_wait_committed orb] in Hover; apply andb_false_iff in Hover;
      (split; [|intros [=]]); destruct Hover; try done; lia. }
  destruct (commit_term_known f Hwf) as (t & Ht & Hk).
  unfold mbind, M_bind, mret, M_ret, gets. destruct (map_find _ _) as [old|] eqn:Hf.
  - unfold displace_waiter, mbind, M_bind, lift.
    destruct (Z.eqb_spec (os_term old) (eid_term eid)) as [Heq|Hne].
    { eexists _, _. split; [reflexivity|]. right. split; [done|]. exists (os_done old). rewrite <- Heq. destruct old. by apply map_find_Some. }
    cbn [negb check]. rewrite Ht. cbn [of_fsm defined]. destruct (Z.gtb_spec (os_term old) (eid_term eid)).
    { exists (Throw (if t >? eid_term eid then dropped_entry else commit_status_unknown)), w.
      split; [by destruct (t >? eid_term eid)|]. left. split; [|done]. by eapply wait_yields. }
    eexists _, _. split; [reflexivity|]. left. apply (register_outcome _ _ _ _ _ _ t); try done.
    + apply waiting_ok_resolve, waiting_ok_set; [done|eapply ordered_sublist; [apply map_erase_sublist|apply Hok]|].
      eapply all_above_sublist; [apply map_erase_sublist|apply Hok].
    + by destruct type.
    + unfold w_resolve. cbn [w_resolved]. by rewrite set_container_resolved, Hf.
    + rewrite container_resolve, container_set_same. apply map_erase_find, Hok.
    + intros x. by rewrite container_resolve, container_set_same, elem_of_map_erase by apply Hok.
    + intros type' Hne'. by rewrite container_resolve, container_set_other.
  - eexists _, _. split; [reflexivity|]. left. apply (register_outcome _ _ _ _ _ _ t); try done; [by rewrite Hf, app_nil_r|].
    pose proof (map_find_None _ _ Hf) as Hn. intros [k st]. simpl. naive_solver.
Qed.

Lemma wait_for_entry_spec f applied_idx aborted abort_requested eid type w :
  fsm_wf f -> waiting_ok applied_idx w -> applied_idx <= f_commit_idx f -> 0 <= eid_idx eid ->
  (forall p, (eid_idx eid, OpStatus (eid_term eid) p) ∉ container type w) ->
  exists o w', wait_for_entry f applied_idx aborted abort_requested eid type w = (o, w') /\
    wait_outcome f applied_idx eid type w o w' /\ waiting_ok applied_idx w'.
Proof.
  intros Hwf Hok Happ Hi Hnew.
  destruct (wait_for_entry_cases f applied_idx aborted abort_requested eid type w) as (o & w' & Ho & [?|(_ & p & Hp)]); [done..|by eauto|].
  by destruct (Hnew p).
Qed.
End waiting.

(** * The claims *)

(** When a batch of committed entries is announced, no assertion fails and the
    waiters are split: everyone who waits for an index of the batch, and everyone
    in front who waits for an entry of an earlier term, is answered, in the order of
    their indexes; the answer is success exactly if the batch holds the entry of
    that index with that term, and otherwise that the entry was dropped. Everyone
    else keeps waiting for something above the batch, and their order is kept. *)
Theorem notify_waiters_correct entries first back type applied_idx w :
  consecutive first entries -> last entries = Some back -> 0 <= first ->
  first + Z.of_nat (length entries) < u64_modulus ->
  waiting_ok applied_idx w -> first - 1 <= applied_idx ->
  exists answered kept w', notify_waiters type entries w = (Ret tt, w') /\
    announced entries back (container type w) answered kept /\
    container type w' = kept /\ ordered kept /\
    w_resolved w' = w_resolved w ++ map (verdict entries) answered /\
    forall type', type' <> type -> container type' w' = container type' w.
Proof.
  intros Hc Hb Hf Hm Hok Hap.
  destruct (notify_waiters_spec entries first back Hc Hf Hm Hb type w) as (answered & kept & Hn & Han).
  { apply Hok. }
  { eapply all_above_mono; [|apply Hok]. lia. }
  eexists answered, kept, _. split; [exact Hn|]. split; [exact Han|]. split_and!.
  - by rewrite container_set_same.
  - eapply ordered_sublist; [|apply (wk_ordered _ _ Hok type)]. rewrite (an_split _ _ _ _ _ Han).
    by apply sublist_inserts_l.
  - by rewrite set_container_resolved.
  - intros type' Hne. by rewrite container_set_other, container_resolve.
Qed.

(** [wait_for_entry] on a well-formed server fails no assertion. It returns at
    once only if the entry is known to be committed, and known to have been applied
    here if that is what is waited for; it says that the entry was dropped only if
    another entry is committed at its index or a later term is committed at the
    commit index, and that its fate is unknown only if a snapshot covers it or a
    waiter of a later term waits for the same index. Otherwise the caller is
    registered: no other waiter of that index is left, a waiter of an earlier term
    has been answered, and everyone who waits still waits for something that is
    not applied. *)
Theorem wait_for_entry_correct {env : raft_env} f applied_idx aborted abort_requested eid type w :
  fsm_wf f -> waiting_ok applied_idx w -> applied_idx <= f_commit_idx f -> 0 <= eid_idx eid ->
  (forall p, (eid_idx eid, OpStatus (eid_term eid) p) ∉ container type w) ->
  exists o w', wait_for_entry f applied_idx aborted abort_requested eid type w = (o, w') /\
    wait_outcome f applied_idx eid type w o w' /\ waiting_ok applied_idx w'.
Proof. apply wait_for_entry_spec. Qed.

Module WaiterExamples.

(** Three entries are committed: the waiter of the first had the right entry, the
    waiter of the second an older one; one of an older term behind the batch is
    told as well. *)
Definition batch : list log_entry := [LogEntry 3 5 Dummy; LogEntry 3 6 Dummy; LogEntry 3 7 Dummy].
Definition crowd : waiters :=
  w_set_commits [(5, OpStatus 3 0%N); (6, OpStatus 2 1%N); (8, OpStatus 2 2%N); (9, OpStatus 3 3%N)] no_waiters.

Lemma crowd_ok : waiting_ok 4 crowd.
Proof.
  split; intros []; simpl; repeat constructor; simpl; lia.
Qed.

Lemma notify_waiters_correct_witness :
  waiting_ok 4 crowd /\ exists w', notify_waiters wait_committed batch crowd = (Ret tt, w') /\
    w_resolved w' = [(0%N, wait_done); (1%N, wait_failed dropped_entry); (2%N, wait_failed dropped_entry)] /\
    container wait_committed w' = [(9, OpStatus 3 3%N)].
Proof.
  split; [exact crowd_ok|].
  destruct (notify_waiters_correct batch 5 (LogEntry 3 7 Dummy) wait_committed 4 crowd)
    as (answered & kept & w' & Hn & _); [by repeat split|done|lia|by vm_compute|exact crowd_ok|lia|].
  exists w'. split; [exact Hn|]. vm_compute in Hn. injection Hn as <-. by split.
Defined.

(** A client of the leader waits for the entry that is not committed yet, and takes
    the place of a client of an earlier term. *)
#[local] Existing Instance example_env.
Definition one_waits : waiters := w_set_commits [(1, OpStatus 0 0%N)] (w_fresh no_waiters).

Lemma one_waits_ok : waiting_ok 0 one_waits.
Proof. split; intros []; simpl; repeat constructor; simpl; lia. Qed.

Lemma wait_for_entry_correct_witness :
  exists w', wait_for_entry RaftExamples.leader1 0 false false (EntryId 1 1) wait_committed one_waits = (Ret (Some 1%N), w') /\
    waiting_ok 0 w' /\ w_awaited_commits w' = [(1, OpStatus 1 1%N)] /\
    w_resolved w' = [(0%N, wait_failed commit_status_unknown)].
Proof.
  destruct (wait_for_entry_correct RaftExamples.leader1 0 false false (EntryId 1 1) wait_committed one_waits)
    as (o & w' & Hw & _ & Hok); [exact RaftExamples.leader1_wf|exact one_waits_ok|vm_compute; congruence|vm_compute; congruence| |].
  { intros p [[=]|[]%elem_of_nil]%elem_of_cons. }
  exists w'. vm_compute in Hw. injection Hw as <- <-. by split.
Defined.

End WaiterExamples.
