(* ===== verification/RaftServer.v ===== *)
(** A Raft server ([src/raft/server.cc]): the state machine, the persistent
    state, the clients that wait and the two fibers around them.

    The io fiber takes the output of the state machine and persists, sends and
    queues it; the applier fiber takes the queue to the user's state machine. A
    fiber is a state that says where it stands, and a function that runs it to
    the next point where it waits. Between two such steps any call and any step
    of the other fiber may run; a full queue, which only makes the io fiber wait
    longer, is a step that comes later. Error injection, statistics and log messages
    are left out; the sending of a message is an entry of [k_sent], a call of the
    user's state machine one of [s_machine]. A storage operation that fails may have
    been done in part. *)
From S2P Require Import Prelude RaftTypes RaftLog RaftTracker RaftFsm RaftInvariant RaftStorage RaftWaiters.

(** * Data *)

(** [server::configuration]. *)
Record server_config := ServerConfig {
  sc_snapshot_threshold : Z;
  sc_snapshot_threshold_log_size : Z;
  sc_snapshot_trailing : Z;
  sc_snapshot_trailing_size : Z;
  sc_append_request_threshold : Z;
  sc_max_log_size : Z;
  sc_enable_prevoting : bool;
  sc_enable_forwarding : bool;
  sc_max_command_size : Z;
}.

(** The checks of the constructor. *)
Definition check_config (c : server_config) : outcome server_error unit :=
  if sc_snapshot_threshold_log_size c >? sc_max_log_size c then Throw config_error
  else if sc_snapshot_trailing_size c >? sc_snapshot_threshold_log_size c then Throw config_error
  else if sc_max_command_size c >? sc_max_log_size c -! sc_snapshot_trailing_size c then Throw config_error
  else Ret tt.

(** [applier_fiber_message]. *)
Inductive applier_message :=
| apply_batch (entries : list log_entry)
| apply_descriptor (snp : snapshot_descriptor)
| removed_from_config
| trigger_snapshot_msg.

(** The calls of the user's state machine. *)
Inductive machine_call :=
| machine_apply (commands : list bytes)
| machine_load_snapshot (id : snapshot_id)
| machine_take_snapshot
| machine_drop_snapshot (id : snapshot_id).

(** How a call of the user's state machine ends: a snapshot that was taken has an
    id; [abort_requested] tells an [abort_requested_exception] from the others. *)
Inductive machine_result :=
| machine_returns (id : snapshot_id)
| machine_throws (abort_requested : bool).

(** Where [process_fsm_output] stands: what it does next. *)
Inductive io_phase :=
| store_vote
| store_snapshot
| push_snapshot
| truncate
| store_entries
| send_messages
| push_committed
| finish_reads
| finish (was_leader : bool).

(** [requested] is whether a request was pending when the fiber woke up. *)
Inductive io_state :=
| io_idle
| io_busy (phase : io_phase) (batch : fsm_output) (requested : bool)
| io_requests
| io_stopped.

Inductive applier_state :=
| applier_idle
| applying (batch : list log_entry)
| taking_snapshot (snp : snapshot_descriptor)
| loading_snapshot (snp : snapshot_descriptor)
| triggered_snapshot (snp : snapshot_descriptor)
| applier_stopped.

(** The answers to forwarded requests. *)
Inductive add_entry_reply :=
| reply_entry (eid : entry_id)
| reply_transient_error (leader : server_id)
| reply_commit_status_unknown
| reply_not_a_member.

Inductive read_barrier_reply :=
| read_not_ready
| read_index (idx : index_t)
| read_not_a_leader (leader : server_id).

Definition is_uncertainty (e : server_error) : bool :=
  match e with commit_status_unknown | stopped_error => true | _ => false end.

(** The connections to other servers. *)
Record links := Links {
  k_rpc_config : gmap N bytes;
  k_snapshot_transfers : gmap N N;
  k_aborted_snapshot_transfers : gset N;
  k_next_snapshot_transfer_id : N;
  k_snapshot_application_done : gmap N promise;
  k_append_request_status : gmap N N;
  k_sent : list (server_id * rpc_message);
}.

Definition no_links : links := Links ∅ ∅ ∅ 0 ∅ ∅ [].

Definition k_set_rpc_config (x : gmap N bytes) (s : links) : links :=
  Links x (k_snapshot_transfers s) (k_aborted_snapshot_transfers s) (k_next_snapshot_transfer_id s)
    (k_snapshot_application_done s) (k_append_request_status s) (k_sent s).
Definition k_set_snapshot_transfers (x : gmap N N) (s : links) : links :=
  Links (k_rpc_config s) x (k_aborted_snapshot_transfers s) (k_next_snapshot_transfer_id s)
    (k_snapshot_application_done s) (k_append_request_status s) (k_sent s).
Definition k_set_aborted_snapshot_transfers (x : gset N) (s : links) : links :=
  Links (k_rpc_config s) (k_snapshot_transfers s) x (k_next_snapshot_transfer_id s)
    (k_snapshot_application_done s) (k_append_request_status s) (k_sent s).
Definition k_set_next_snapshot_transfer_id (x : N) (s : links) : links :=
  Links (k_rpc_config s) (k_snapshot_transfers s) (k_aborted_snapshot_transfers s) x
    (k_snapshot_application_done s) (k_append_request_status s) (k_sent s).
Definition k_set_snapshot_application_done (x : gmap N promise) (s : links) : links :=
  Links (k_rpc_config s) (k_snapshot_transfers s) (k_aborted_snapshot_transfers s)
    (k_next_snapshot_transfer_id s) x (k_append_request_status s) (k_sent s).
Definition k_set_append_request_status (x : gmap N N) (s : links) : links :=
  Links (k_rpc_config s) (k_snapshot_transfers s) (k_aborted_snapshot_transfers s)
    (k_next_snapshot_transfer_id s) (k_snapshot_application_done s) x (k_sent s).
Definition k_set_sent (x : list (server_id * rpc_message)) (s : links) : links :=
  Links (k_rpc_config s) (k_snapshot_transfers s) (k_aborted_snapshot_transfers s)
    (k_next_snapshot_transfer_id s) (k_snapshot_application_done s) (k_append_request_status s) x.

Section server.
Context {env : raft_env} {D : Type} {pers : persistence D}.

Record server := Server {
  s_id : server_id;
  s_config : server_config;
  s_fsm : fsm;
  s_disk : D;
  s_last_stable : index_t;
  s_applied_idx : index_t;
  s_snapshot_desc_idx : index_t;
  s_apply_entries : list applier_message;
  s_io : io_state;
  s_applier : applier_state;
  s_waiters : waiters;
  s_links : links;
  s_request_snapshot : bool;
  s_aborted : bool;
  s_is_alive : bool;
  s_machine : list machine_call;
}.

Definition s_set_fsm (x : fsm) (s : server) : server :=
  Server (s_id s) (s_config s) x (s_disk s) (s_last_stable s) (s_applied_idx s) (s_snapshot_desc_idx s)
    (s_apply_entries s) (s_io s) (s_applier s) (s_waiters s) (s_links s) (s_request_snapshot s)
    (s_aborted s) (s_is_alive s) (s_machine s).
Definition s_set_disk (x : D) (s : server) : server :=
  Server (s_id s) (s_config s) (s_fsm s) x (s_last_stable s) (s_applied_idx s) (s_snapshot_desc_idx s)
    (s_apply_entries s) (s_io s) (s_applier s) (s_waiters s) (s_links s) (s_request_snapshot s)
    (s_aborted s) (s_is_alive s) (s_machine s).
Definition s_set_last_stable (x : index_t) (s : server) : server :=
  Server (s_id s) (s_config s) (s_fsm s) (s_disk s) x (s_applied_idx s) (s_snapshot_desc_idx s)
    (s_apply_entries s) (s_io s) (s_applier s) (s_waiters s) (s_links s) (s_request_snapshot s)
    (s_aborted s) (s_is_alive s) (s_machine s).
Definition s_set_applied_idx (x : index_t) (s : server) : server :=
  Server (s_id s) (s_config s) (s_fsm s) (s_disk s) (s_last_stable s) x (s_snapshot_desc_idx s)
    (s_apply_entries s) (s_io s) (s_applier s) (s_waiters s) (s_links s) (s_request_snapshot s)
    (s_aborted s) (s_is_alive s) (s_machine s).
Definition s_set_snapshot_desc_idx (x : index_t) (s : server) : server :=
  Server (s_id s) (s_config s) (s_fsm s) (s_disk s) (s_last_stable s) (s_applied_idx s) x
    (s_apply_entries s) (s_io s) (s_applier s) (s_waiters s) (s_links s) (s_request_snapshot s)
    (s_aborted s) (s_is_alive s) (s_machine s).
Definition s_set_apply_entries (x : list applier_message) (s : server) : server :=
  Server (s_id s) (s_config s) (s_fsm s) (s_disk s) (s_last_stable s) (s_applied_idx s)
    (s_snapshot_desc_idx s) x (s_io s) (s_applier s) (s_waiters s) (s_links s) (s_request_snapshot s)
    (s_aborted s) (s_is_alive s) (s_machine s).
Definition s_set_io (x : io_state) (s : server) : server :=
  Server (s_id s) (s_config s) (s_fsm s) (s_disk s) (s_last_stable s) (s_applied_idx s)
    (s_snapshot_desc_idx s) (s_apply_entries s) x (s_applier s) (s_waiters s) (s_links s)
    (s_request_snapshot s) (s_aborted s) (s_is_alive s) (s_machine s).
Definition s_set_applier (x : applier_state) (s : server) : server :=
  Server (s_id s) (s_config s) (s_fsm s) (s_disk s) (s_last_stable s) (s_applied_idx s)
    (s_snapshot_desc_idx s) (s_apply_entries s) (s_io s) x (s_waiters s) (s_links s)
    (s_request_snapshot s) (s_aborted s) (s_is_alive s) (s_machine s).
Definition s_set_waiters (x : waiters) (s : server) : server :=
  Server (s_id s) (s_config s) (s_fsm s) (s_disk s) (s_last_stable s) (s_applied_idx s)
    (s_snapshot_desc_idx s) (s_apply_entries s) (s_io s) (s_applier s) x (s_links s)
    (s_request_snapshot s) (s_aborted s) (s_is_alive s) (s_machine s).
Definition s_set_links (x : links) (s : server) : server :=
  Server (s_id s) (s_config s) (s_fsm s) (s_disk s) (s_last_stable s) (s_applied_idx s)
    (s_snapshot_desc_idx s) (s_apply_entries s) (s_io s) (s_applier s) (s_waiters s) x
    (s_request_snapshot s) (s_aborted s) (s_is_alive s) (s_machine s).
Definition s_set_request_snapshot (x : bool) (s : server) : server :=
  Server (s_id s) (s_config s) (s_fsm s) (s_disk s) (s_last_stable s) (s_applied_idx s)
    (s_snapshot_desc_idx s) (s_apply_entries s) (s_io s) (s_applier s) (s_waiters s) (s_links s) x
    (s_aborted s) (s_is_alive s) (s_machine s).
Definition s_set_aborted (x : bool) (s : server) : server :=
  Server (s_id s) (s_config s) (s_fsm s) (s_disk s) (s_last_stable s) (s_applied_idx s)
    (s_snapshot_desc_idx s) (s_apply_entries s) (s_io s) (s_applier s) (s_waiters s) (s_links s)
    (s_request_snapshot s) x (s_is_alive s) (s_machine s).
Definition s_set_is_alive (x : bool) (s : server) : server :=
  Server (s_id s) (s_config s) (s_fsm s) (s_disk s) (s_last_stable s) (s_applied_idx s)
    (s_snapshot_desc_idx s) (s_apply_entries s) (s_io s) (s_applier s) (s_waiters s) (s_links s)
    (s_request_snapshot s) (s_aborted s) x (s_machine s).
Definition s_set_machine (x : list machine_call) (s : server) : server :=
  Server (s_id s) (s_config s) (s_fsm s) (s_disk s) (s_last_stable s) (s_applied_idx s)
    (s_snapshot_desc_idx s) (s_apply_entries s) (s_io s) (s_applier s) (s_waiters s) (s_links s)
    (s_request_snapshot s) (s_aborted s) (s_is_alive s) x.

Abbreviation SRV := (M server server_error).

(** Runs code of the state machine, or on the waiters, inside the server. *)
Definition on_fsm {A} (m : FSM A) : SRV A := fun s =>
  let '(o, f) := m (s_fsm s) in (of_fsm o, s_set_fsm f s).
Definition on_waiters {A} (m : M waiters server_error A) : SRV A := fun s =>
  let '(o, w) := m (s_waiters s) in (o, s_set_waiters w s).
Definition on_links (g : links -> links) : SRV unit := modify (fun s => s_set_links (g (s_links s)) s).
(** A storage operation; [fails] is the number of its writes that were done when it
    failed, if it fails. *)
Definition persist_op (fails : option nat) (o : operation) : SRV unit :=
  match fails with
  | None => modify (fun s => s_set_disk (perform o (s_disk s)) s)
  | Some k => modify (fun s => s_set_disk (perform_upto k o (s_disk s)) s) ;; throw storage_error
  end.
(** [push_eventually]; the queue is aborted together with the server. *)
Definition push (m : applier_message) : SRV unit :=
  s ← gets (fun s => s);
  if s_aborted s then throw stop_apply_fiber
  else modify (s_set_apply_entries (s_apply_entries s ++ [m])).
Definition call_machine (c : machine_call) : SRV unit :=
  modify (fun s => s_set_machine (s_machine s ++ [c]) s).

(** A [try] block whose [catch] clauses give a value for some exceptions. *)
Definition catching {A} (m : SRV A) (handler : server_error -> option A) : SRV A := fun s =>
  match m s with
  | (Throw e, s) => match handler e with Some a => (Ret a, s) | None => (Throw e, s) end
  | r => r
  end.

(** * The end of a fiber *)

Definition handle_background_error : SRV unit := modify (s_set_is_alive false).

(** The [catch] clauses around the loop of a fiber: a fiber that was told to stop
    ends quietly. *)
Definition fiber (stopped : server -> server) (body : SRV unit) : SRV unit := fun s =>
  match body s with
  | (Throw stop_apply_fiber, s) => (Ret tt, stopped s)
  | (Throw _, s) => handle_background_error (stopped s)
  | r => r
  end.

(** * Start *)

(** [rpc_config.current.merge(rpc_config.previous)] as addresses. *)
Definition rpc_addresses (c : configuration) : gmap N bytes :=
  if bool_decide (current c = ∅) then ∅ else member_info <$> (current c ∪ previous c).

Definition start (id : server_id) (config : server_config) (d : D) : outcome server_error server :=
  let '(term, vote) := load_term_and_vote d in
  snapshot ← of_fsm (load_snapshot_descriptor d);
  log_entries ← of_fsm (load_log d);
  log ← of_fsm (make_log snapshot log_entries (sc_max_command_size config));
  let commit_idx := load_commit_idx d in
  rpc_config ← of_fsm (get_configuration log);
  let stable_idx := l_stable_idx log in
  if commit_idx >? stable_idx then Throw server_internal_error
  else
    f ← of_fsm (make_fsm id term vote log commit_idx
      (FsmConfig (sc_append_request_threshold config) (sc_max_log_size config) (sc_enable_prevoting config)));
    let loaded := negb (snp_id snapshot =? no_id)%N in
    let applied_idx := if loaded then snp_idx snapshot else 0 in
    mret (Server id config f d stable_idx applied_idx applied_idx [] io_idle applier_idle no_waiters
      (k_set_rpc_config (rpc_addresses rpc_config) no_links) false false true
      (if loaded then [machine_load_snapshot (snp_id snapshot)] else [])).

(** * Messages *)

(** [send_snapshot] up to the point where it waits for the transfer. *)
Definition send_snapshot (dst : server_id) (m : install_snapshot) : SRV unit :=
  k ← gets s_links;
  lift (check (bool_decide (k_snapshot_transfers k !! dst = None))) ;;
  on_links (fun k => k_set_next_snapshot_transfer_id (k_next_snapshot_transfer_id k + 1)%N
    (k_set_snapshot_transfers (<[dst := k_next_snapshot_transfer_id k]> (k_snapshot_transfers k))
    (k_set_sent (k_sent k ++ [(dst, msg_install_snapshot m)]) k))).

(** The reply to a snapshot goes to the handler of [apply_snapshot] that waits for the
    promise, which returns it to [dst]. *)
Definition send_message (dst : server_id) (m : rpc_message) : SRV unit :=
  match m with
  | msg_append_request _ =>
    on_links (fun k => k_set_append_request_status
      (<[dst := (default 0 (k_append_request_status k !! dst) + 1)%N]> (k_append_request_status k))
      (k_set_sent (k_sent k ++ [(dst, m)]) k))
  | msg_install_snapshot i => send_snapshot dst i
  | msg_snapshot_reply r =>
    k ← gets s_links;
    match k_snapshot_application_done k !! dst with
    | None => lift (check false)
    | Some p =>
      on_waiters (modify (w_resolve [(p, wait_snapshot_reply r)])) ;;
      on_links (fun k => k_set_snapshot_application_done (delete dst (k_snapshot_application_done k))
        (k_set_sent (k_sent k ++ [(dst, m)]) k))
    end
  | _ => on_links (fun k => k_set_sent (k_sent k ++ [(dst, m)]) k)
  end.

(** The append request was sent, or sending it failed. *)
Definition append_request_sent (dst : server_id) : SRV unit :=
  k ← gets s_links;
  match k_append_request_status k !! dst with
  | Some count =>
    on_links (k_set_append_request_status
      (if (count - 1 =? 0)%N then delete dst (k_append_request_status k)
       else <[dst := (count - 1)%N]> (k_append_request_status k)))
  | None => mret tt
  end.

(** The transfer [id] to [dst] ended; [reply] is what the other side answered,
    [None] if the transfer failed. *)
Definition snapshot_sent (id : N) (dst : server_id) (reply : option snapshot_reply) : SRV unit :=
  k ← gets s_links;
  if bool_decide (id ∈ k_aborted_snapshot_transfers k) then
    on_links (k_set_aborted_snapshot_transfers (k_aborted_snapshot_transfers k ∖ {[id]}))
  else
    on_links (k_set_snapshot_transfers (delete dst (k_snapshot_transfers k))) ;;
    f ← gets s_fsm;
    on_fsm (step dst (msg_snapshot_reply (default (SnapshotReply (f_current_term f) false) reply))).

Definition abort_snapshot_transfer (id : server_id) : SRV unit :=
  on_links (fun k => match k_snapshot_transfers k !! id with
    | None => k
    | Some tid => k_set_snapshot_transfers (delete id (k_snapshot_transfers k))
        (k_set_aborted_snapshot_transfers (k_aborted_snapshot_transfers k ∪ {[tid]}) k)
    end).

Definition abort_snapshot_transfers : SRV unit :=
  on_links (fun k => k_set_snapshot_transfers ∅ (k_set_aborted_snapshot_transfers
    (k_aborted_snapshot_transfers k ∪ map_img (k_snapshot_transfers k)) k)).

(** * Addresses *)

Definition diff_address_sets (prev : gmap N bytes) (current : gmap N config_member) : gmap N bytes * gmap N bytes :=
  (filter (fun a => prev !! a.1 = None) (member_info <$> current), filter (fun a => current !! a.1 = None) prev).

Definition add_to_rpc_config (joining : gmap N bytes) : SRV unit :=
  on_links (fun k => k_set_rpc_config (k_rpc_config k ∪ joining) k).
Definition remove_from_rpc_config (id : server_id) : SRV unit :=
  on_links (fun k => k_set_rpc_config (delete id (k_rpc_config k)) k).

(** * The io fiber *)

Definition next_phase (phase : io_phase) (b : fsm_output) (requested : bool) : SRV unit :=
  modify (s_set_io (io_busy phase b requested)).

(** The messages of the batch between the changes of the address mapping. *)
Definition process_messages (b : fsm_output) : SRV unit :=
  k ← gets s_links;
  let '(joining, leaving) :=
    match o_configuration b with
    | Some c => diff_address_sets (k_rpc_config k) c
    | None => (∅, ∅)
    end in
  add_to_rpc_config joining ;;
  for_each (o_messages b) (fun m => send_message m.1 m.2) ;;
  for_each (map_to_list leaving) (fun a => abort_snapshot_transfer a.1 ;; remove_from_rpc_config a.1).

(** One step of [process_fsm_output], up to the end of the next wait. [fails] is where
    the storage operation that it waits for fails, if it fails. *)
Definition process_fsm_output (fails : option nat) (phase : io_phase) (b : fsm_output) (requested : bool) : SRV unit :=
  match phase with
  | store_vote =>
    match o_term_and_vote b with
    | Some (term, vote) => persist_op fails (op_term_and_vote term vote)
    | None => mret tt
    end ;;
    next_phase store_snapshot b requested
  | store_snapshot =>
    match o_snp b with
    | Some (AppliedSnapshot snp _ preserve_log_entries) =>
      persist_op fails (op_snapshot_descriptor snp preserve_log_entries) ;;
      modify (s_set_snapshot_desc_idx (snp_idx snp))
    | None => mret tt
    end ;;
    next_phase push_snapshot b requested
  | push_snapshot =>
    match o_snp b with
    | Some (AppliedSnapshot snp is_local _) => when (negb is_local) (push (apply_descriptor snp))
    | None => mret tt
    end ;;
    next_phase truncate b requested
  | truncate =>
    for_each (o_snps_to_drop b) (fun id => call_machine (machine_drop_snapshot id)) ;;
    s ← gets (fun s => s);
    match o_log_entries b with
    | e :: _ => when (s_last_stable s >=? e_idx e) (persist_op fails (op_truncate_log (e_idx e)))
    | [] => mret tt
    end ;;
    next_phase store_entries b requested
  | store_entries =>
    match last (o_log_entries b) with
    | Some e => persist_op fails (op_log_entries (o_log_entries b)) ;; modify (s_set_last_stable (e_idx e))
    | None => mret tt
    end ;;
    next_phase send_messages b requested
  | send_messages =>
    process_messages b ;;
    match last (o_committed b) with
    | Some e =>
      when (commits_non_joint (o_committed b))
        (on_waiters (settle w_non_joint_conf_commit_promise w_set_non_joint wait_done)) ;;
      persist_op fails (op_commit_idx (e_idx e))
    | None => mret tt
    end ;;
    next_phase push_committed b requested
  | push_committed =>
    match o_committed b with
    | [] => mret tt
    | es => push (apply_batch es)
    end ;;
    next_phase finish_reads b requested
  | finish_reads =>
    on_waiters (complete_reads (o_max_read_id_with_quorum b)) ;;
    s ← gets (fun s => s);
    when (negb (is_leader (s_fsm s)))
      (on_waiters (settle w_stepdown_promise w_set_stepdown wait_done) ;;
       when (bool_decide (k_rpc_config (s_links s) !! s_id s = None)) (push removed_from_config)) ;;
    next_phase (finish (is_leader (s_fsm s))) b requested
  | finish was_leader =>
    f ← gets s_fsm;
    (if negb was_leader then
       abort_snapshot_transfers ;;
       on_waiters (fail_reads (current_leader f))
     else when (o_abort_leadership_transfer b)
       (on_waiters (settle w_stepdown_promise w_set_stepdown (wait_failed timeout_error)))) ;;
    when (negb (current_leader f =? no_id)%N) (on_waiters (settle w_leader_promise w_set_leader wait_done)) ;;
    when (o_state_changed b) (on_waiters (settle w_state_change_promise w_set_state_change wait_done)) ;;
    modify (s_set_io (if requested then io_requests else io_idle))
  end.

(** One step of the loop of [io_fiber]. When there is nothing to do for a server
    that was aborted, the wait for events throws. *)
Definition io_loop (fails : option nat) : SRV unit :=
  s ← gets (fun s => s);
  match s_io s with
  | io_idle =>
    if has_output (s_fsm s) then
      b ← on_fsm get_output;
      next_phase store_vote b (s_request_snapshot s)
    else if s_request_snapshot s then modify (s_set_io io_requests)
    else when (s_aborted s) (modify (s_set_io io_stopped))
  | io_busy phase b requested => process_fsm_output fails phase b requested
  | io_requests =>
    when (s_request_snapshot s) (push trigger_snapshot_msg) ;;
    modify (s_set_request_snapshot false) ;;
    modify (s_set_io io_idle)
  | io_stopped => mret tt
  end.

(** The fiber ends with a failed storage operation, which may have been done in part. *)
Definition io_step (fails : option nat) : SRV unit := fiber (s_set_io io_stopped) (io_loop fails).

(** * The applier fiber *)

Definition batch_commands (batch : list log_entry) : list bytes :=
  omap (fun e => match e_data e with Command c => Some c | _ => None end) batch.

(** The end of a round of [applier_fiber]. *)
Definition applier_done : SRV unit :=
  s ← gets (fun s => s);
  on_waiters (signal_applied (s_applied_idx s)) ;;
  modify (s_set_applier applier_idle).

(** The descriptor of a snapshot at [_applied_idx]; its id is known when the
    state machine has taken it. *)
Definition describe_snapshot (term : term_t) : SRV snapshot_descriptor :=
  s ← gets (fun s => s);
  cfg ← lift (of_fsm (last_conf_for (f_log (s_fsm s)) (s_applied_idx s)));
  call_machine machine_take_snapshot ;;
  mret (SnapshotDescriptor (s_applied_idx s) term cfg no_id).

Definition with_id (snp : snapshot_descriptor) (id : snapshot_id) : snapshot_descriptor :=
  SnapshotDescriptor (snp_idx snp) (snp_term snp) (snp_config snp) id.

Definition start_batch (batch : list log_entry) : SRV unit :=
  match last batch with
  | None => applier_done
  | Some back =>
    on_waiters (notify_waiters wait_committed batch) ;;
    s ← gets (fun s => s);
    lift (check (e_idx back =? s_applied_idx s +! Z.of_nat (length batch))) ;;
    match batch_commands batch with
    | [] => mret tt
    | commands => call_machine (machine_apply commands)
    end ;;
    modify (s_set_applier (applying batch))
  end.

(** Whether enough was applied since the last snapshot. *)
Definition snapshot_due (s : server) : bool :=
  let last_snap_idx := snp_idx (l_snapshot (f_log (s_fsm s))) in
  (s_applied_idx s >? last_snap_idx) &&
  ((s_applied_idx s -! last_snap_idx >=? sc_snapshot_threshold (s_config s)) ||
   (l_memory_usage (f_log (s_fsm s)) >=? sc_snapshot_threshold_log_size (s_config s))).

Definition finish_batch (batch : list log_entry) : SRV unit :=
  back ← lift (defined (last batch));
  modify (s_set_applied_idx (e_idx back)) ;;
  on_waiters (notify_waiters wait_applied batch) ;;
  s ← gets (fun s => s);
  if snapshot_due s then
    snp ← describe_snapshot (e_term back);
    modify (s_set_applier (taking_snapshot snp))
  else applier_done.

Definition start_trigger : SRV unit :=
  s ← gets (fun s => s);
  applied_term ← lift (of_fsm (term_for (f_log (s_fsm s)) (s_applied_idx s)));
  match applied_term with
  | None => lift (check false)
  | Some term =>
    snp ← describe_snapshot term;
    modify (s_set_applier (triggered_snapshot snp))
  end.

(** One step of the loop of [applier_fiber]; [id] is the id of the snapshot that was
    taken, where one was. *)
Definition applier_loop (id : snapshot_id) : SRV unit :=
  s ← gets (fun s => s);
  match s_applier s with
  | applier_idle =>
    if s_aborted s then throw stop_apply_fiber
    else match s_apply_entries s with
    | [] => mret tt
    | m :: rest =>
      modify (s_set_apply_entries rest) ;;
      match m with
      | apply_batch batch => start_batch batch
      | apply_descriptor snp =>
        lift (check (snp_idx snp >=? s_applied_idx s)) ;;
        call_machine (machine_load_snapshot (snp_id snp)) ;;
        modify (s_set_applier (loading_snapshot snp))
      | removed_from_config => on_waiters (drop_waiters None) ;; applier_done
      | trigger_snapshot_msg => start_trigger
      end
    end
  | applying batch => finish_batch batch
  | taking_snapshot snp =>
    on_fsm (apply_snapshot (with_id snp id) (sc_snapshot_trailing (s_config s))
      (sc_snapshot_trailing_size (s_config s)) true) ;;
    applier_done
  | loading_snapshot snp =>
    on_waiters (drop_waiters (Some (snp_idx snp))) ;;
    modify (s_set_applied_idx (snp_idx snp)) ;;
    applier_done
  | triggered_snapshot snp =>
    on_fsm (apply_snapshot (with_id snp id) 0 0 true) ;;
    applier_done
  | applier_stopped => mret tt
  end.

(** What the state machine's function that the fiber waits for throws. *)
Definition machine_failure (a : applier_state) (abort_requested : bool) : option server_error :=
  match a with
  | applying batch =>
    match batch_commands batch with
    | [] => None
    | _ => Some (if abort_requested then stop_apply_fiber else state_machine_error)
    end
  | taking_snapshot _ | loading_snapshot _ | triggered_snapshot _ => Some state_machine_error
  | applier_idle | applier_stopped => None
  end.

Definition applier_step (r : machine_result) : SRV unit :=
  fiber (s_set_applier applier_stopped) (
    s ← gets (fun s => s);
    match r with
    | machine_returns id => applier_loop id
    | machine_throws abort_requested =>
      match machine_failure (s_applier s) abort_requested with
      | Some e => throw e
      | None => applier_loop no_id
      end
    end).

(** * Calls of clients and of other servers *)

Definition ensure_not_aborted : SRV unit :=
  s ← gets (fun s => s); on_waiters (check_not_aborted (s_aborted s)).

(** [append_entries], [request_vote] and the other handlers of messages that need
    no answer. *)
Definition receive (from : server_id) (msg : rpc_message) : SRV unit := on_fsm (step from msg).

(** [apply_snapshot]: the reply, or the promise of it. *)
Definition receive_snapshot (from : server_id) (m : install_snapshot) : SRV (snapshot_reply + promise) :=
  s ← gets (fun s => s);
  match k_snapshot_application_done (s_links s) !! from with
  | Some _ => mret (inl (SnapshotReply (f_current_term (s_fsm s)) false))
  | None =>
    on_fsm (step from (msg_install_snapshot m)) ;;
    p ← on_waiters new_promise;
    on_links (fun k => k_set_snapshot_application_done (<[from := p]> (k_snapshot_application_done k)) k) ;;
    mret (inr p)
  end.

Definition server_tick (is_alive : server_id -> bool) : SRV unit :=
  on_fsm (tick is_alive) ;;
  s ← gets (fun s => s);
  when (negb (s_aborted s)) (on_waiters (settle w_tick_promise w_set_tick wait_done)).

Definition server_wait_for_leader : SRV (option promise) :=
  s ← gets (fun s => s);
  when (current_leader (s_fsm s) =? no_id)%N (on_fsm ping_leader) ;;
  on_waiters (wait_for_leader (s_fsm s)).

Definition server_wait_for_entry (eid : entry_id) (type : wait_type) (abort_requested : bool) : SRV (option promise) :=
  s ← gets (fun s => s);
  on_waiters (wait_for_entry (s_fsm s) (s_applied_idx s) (s_aborted s) abort_requested eid type).

Definition server_wait_for_apply (idx : index_t) (abort_requested : bool) : SRV (option promise) :=
  s ← gets (fun s => s);
  on_waiters (wait_for_apply (s_applied_idx s) (s_aborted s) abort_requested idx).

(** [add_entry_on_leader] once the memory permit is held. *)
Definition add_entry_on_leader (cmd : bytes) : SRV entry_id :=
  e ← on_fsm (add_entry (Command cmd));
  mret (EntryId (e_term e) (e_idx e)).

(** Only members of the configuration may forward entries. *)
Definition accepts (from : server_id) : SRV bool :=
  s ← gets (fun s => s);
  if (from =? s_id s)%N then mret true
  else
    cfg ← lift (of_fsm (get_configuration (f_log (s_fsm s))));
    mret (configuration_contains cfg from).

Definition execute_add_entry (from : server_id) (cmd : bytes) : SRV add_entry_reply :=
  ok ← accepts from;
  if negb ok then mret reply_not_a_member
  else catching (eid ← add_entry_on_leader cmd; mret (reply_entry eid)) (fun e =>
    match e with fsm_error (not_a_leader leader) => Some (reply_transient_error leader) | _ => None end).

(** [add_entry] without forwarding, up to the point where it waits. *)
Definition add_entry_locally (cmd : bytes) (type : wait_type) (abort_requested : bool) : SRV (option promise) :=
  s ← gets (fun s => s);
  if Z.of_nat (length cmd) >? sc_max_command_size (s_config s) then throw command_is_too_big
  else if negb (current_leader (s_fsm s) =? s_id s)%N then throw (fsm_error (not_a_leader (current_leader (s_fsm s))))
  else
    eid ← add_entry_on_leader cmd;
    server_wait_for_entry eid type abort_requested.

(** The members after [execute_modify_config] has added and removed some. *)
Definition add_member (cfg : config_member_set) (m : server_id * config_member) : config_member_set :=
  match cfg !! m.1 with
  | None => <[m.1 := m.2]> cfg
  | Some old => if Bool.eqb (member_can_vote old) (member_can_vote m.2) then cfg else <[m.1 := m.2]> cfg
  end.
Definition modify_members (cfg : config_member_set) (add : list (server_id * config_member)) (del : list server_id) :
    config_member_set :=
  foldl (fun cfg id => delete id cfg) (foldl add_member cfg add) del.

(** The [try] block of [set_configuration]: the promise is given up if the wait for
    the joint configuration fails. *)
Definition wait_for_joint (eid : entry_id) (abort_requested : bool) : SRV (option promise) := fun s =>
  match server_wait_for_entry eid wait_committed abort_requested s with
  | (Throw e, s) => (Throw e, s_set_waiters (w_set_non_joint None (s_waiters s)) s)
  | r => r
  end.

(** [set_configuration] up to the point where it waits: [None] if nothing changes,
    otherwise the promise of the configuration that is not joint and what
    [wait_for_entry] says about the joint one. *)
Definition set_configuration (c_new : config_member_set) (abort_requested : bool) :
    SRV (option (promise * option promise)) :=
  ensure_not_aborted ;;
  s ← gets (fun s => s);
  cfg ← lift (of_fsm (get_configuration (f_log (s_fsm s))));
  let d := diff cfg c_new in
  if bool_decide (joining d = ∅) && bool_decide (leaving d = ∅) then mret None
  else if bool_decide (w_non_joint_conf_commit_promise (s_waiters s) <> None) then
    throw (fsm_error conf_change_in_progress)
  else
    e ← on_fsm (add_entry (ConfigurationEntry (Configuration c_new ∅)));
    p ← on_waiters new_promise;
    on_waiters (modify (w_set_non_joint (Some p))) ;;
    r ← wait_for_joint (EntryId (e_term e) (e_idx e)) abort_requested;
    mret (Some (p, r)).

(** The callback of the abort source of [set_configuration]. *)
Definition abort_configuration_change : SRV unit :=
  s ← gets (fun s => s);
  lift (check (bool_decide (w_non_joint_conf_commit_promise (s_waiters s) <> None))) ;;
  on_waiters (settle w_non_joint_conf_commit_promise w_set_non_joint (wait_failed request_aborted)).

(** The [catch] clause of [execute_modify_config]: the reply, or [None] if the
    exception is thrown on. *)
Definition modify_config_failed (e : server_error) : option add_entry_reply :=
  if is_uncertainty e then Some reply_commit_status_unknown
  else match e with
  | fsm_error (not_a_leader leader) => Some (reply_transient_error leader)
  | dropped_entry => Some (reply_transient_error no_id)
  | fsm_error conf_change_in_progress => Some (reply_transient_error no_id)
  | _ => None
  end.

(** [execute_modify_config]: the reply, or what [set_configuration] waits for. *)
Definition execute_modify_config (from : server_id) (add : list (server_id * config_member)) (del : list server_id)
    (abort_requested : bool) : SRV (add_entry_reply + promise * option promise) :=
  ok ← accepts from;
  if negb ok then mret (inl reply_not_a_member)
  else
    s ← gets (fun s => s);
    cfg ← lift (of_fsm (get_configuration (f_log (s_fsm s))));
    catching (
      r ← set_configuration (modify_members (current cfg) add del) abort_requested;
      mret match r with Some w => inr w | None => inl (reply_entry (EntryId 0 0)) end)
      (fun e => inl <$> modify_config_failed e).

(** [execute_read_barrier]: the reply, or the promise of it. *)
Definition execute_read_barrier (from : server_id) (abort_requested : bool) : SRV (read_barrier_reply + promise) :=
  ensure_not_aborted ;;
  r ← catching (r ← on_fsm (start_read_barrier from);
      mret match r with Some rid => inr rid | None => inl read_not_ready end)
    (fun e => match e with fsm_error (not_a_leader leader) => Some (inl (read_not_a_leader leader)) | _ => None end);
  match r with
  | inl reply => mret (inl reply)
  | inr (id, idx) =>
    if abort_requested then throw request_aborted
    else p ← on_waiters (push_read id idx); mret (inr p)
  end.

Definition stepdown (timeout : Z) : SRV promise :=
  s ← gets (fun s => s);
  if bool_decide (w_stepdown_promise (s_waiters s) <> None) then throw logic_error
  else
    on_fsm (transfer_leadership timeout) ;;
    p ← on_waiters new_promise;
    on_waiters (modify (w_set_stepdown (Some p))) ;;
    mret p.

(** [trigger_snapshot]: the index to wait for, if a snapshot is needed. *)
Definition trigger_snapshot : SRV (option index_t) :=
  ensure_not_aborted ;;
  s ← gets (fun s => s);
  if s_applied_idx s <=? s_snapshot_desc_idx s then mret None
  else modify (s_set_request_snapshot true) ;; mret (Some (s_applied_idx s)).

(** ** Shutdown *)

(** [abort] up to the point where it waits for the fibers. *)
Definition begin_abort : SRV unit :=
  modify (s_set_is_alive false) ;;
  modify (s_set_aborted true) ;;
  on_fsm stop ;;
  modify (s_set_apply_entries []).

(** [abort] after the fibers have ended, up to the point where it waits for the
    modules. *)
Definition release_waiters : SRV unit :=
  s ← gets (fun s => s);
  match s_io s, s_applier s with
  | io_stopped, applier_stopped =>
    on_waiters (modify (w_resolve (map (fun x => (x.2, wait_failed snapshot_application_aborted))
      (map_to_list (k_snapshot_application_done (s_links s)))))) ;;
    on_waiters abort_waiters
  | _, _ => mret tt
  end.

(** [abort] after that. *)
Definition end_abort : SRV unit := on_waiters abort_promises ;; abort_snapshot_transfers.
End server.

(** * Requests that follow the leader *)

(** [do_on_leader_with_retries]: what an iteration did. *)
Inductive retry_event :=
| waited_for_leader
| waited_for_tick
| acted_on (leader : server_id).

(** One iteration: [known] is the leader that is known after a wait for one,
    [action] gives [None] if the loop ends and otherwise the leader to try next. The
    result is what was done, with [leader] and [prev_leader] for the next iteration. *)
Definition do_on_leader (aborted abort_requested : bool) (known : server_id)
    (action : server_id -> outcome server_error (option server_id)) (leader prev_leader : server_id) :
    outcome server_error (retry_event * option (server_id * server_id)) :=
  if abort_requested then Throw request_aborted
  else if aborted then Throw stopped_error
  else if (leader =? no_id)%N then Ret (waited_for_leader, Some (known, prev_leader))
  else if negb (prev_leader =? no_id)%N && (leader =? prev_leader)%N then Ret (waited_for_tick, Some (no_id, no_id))
  else
    match action leader with
    | Ret r => Ret (acted_on leader, (fun l => (l, leader)) <$> r)
    | Throw e => Throw e
    | Abort r => Abort r
    end.

(** What [add_entry] makes of a reply: an entry to wait for, or the next leader to
    try. *)
Definition add_entry_action (reply : add_entry_reply) : outcome server_error (entry_id + server_id) :=
  match reply with
  | reply_entry eid => Ret (inl eid)
  | reply_commit_status_unknown => Throw server_internal_error
  | reply_not_a_member => Throw not_a_member
  | reply_transient_error leader => Ret (inr leader)
  end.

(** What [modify_config] makes of a reply: [None] if the change is done. *)
Definition modify_config_action (reply : add_entry_reply) : outcome server_error (option server_id) :=
  match reply with
  | reply_entry _ => Ret None
  | reply_transient_error leader => Ret (Some leader)
  | reply_not_a_member => Throw not_a_member
  | reply_commit_status_unknown => Throw commit_status_unknown
  end.

(** What [read_barrier] makes of a reply of [leader], [None] if the transport
    failed: an index to wait for, or the next leader to try, after a wait for the
    next index to be applied if the leader was not ready. *)
Definition read_barrier_action (applied_idx : index_t) (leader : server_id) (reply : option read_barrier_reply) :
    index_t + server_id * option index_t :=
  match reply with
  | None => inr (no_id, None)
  | Some read_not_ready => inr (leader, Some (applied_idx +! 1))
  | Some (read_not_a_leader l) => inr (l, None)
  | Some (read_index i) => inl i
  end.
