(* ===== verification/RaftGrowth.v ===== *)
(** What calls do to the log, for the sake of what is persisted. Between two
    outputs a log only grows at its end, is cut behind what was committed, or
    takes a snapshot that the next output announces; entries that count as stable
    never change. *)
From S2P Require Import Prelude RaftTypes RaftLog RaftTracker RaftFsm RaftMonotone RaftReplication.
From S2P Require Import RaftInvariant RaftSafety RaftApi RaftElection.

(** * Calls that only append *)

Record grows (f f' : fsm) : Prop := {
  gr_term : f_current_term f <= f_current_term f';
  gr_first : l_first_idx (f_log f') = l_first_idx (f_log f);
  gr_stable : l_stable_idx (f_log f') = l_stable_idx (f_log f);
  gr_snapshot : l_snapshot (f_log f') = l_snapshot (f_log f);
  gr_prefix : l_log (f_log f) `prefix_of` l_log (f_log f');
  gr_terms e : e ∈ l_log (f_log f') ->
    e ∈ l_log (f_log f) \/ f_current_term f <= e_term e <= f_current_term f';
  gr_pending : o_snp (f_output f') = o_snp (f_output f);
}.

#[export] Instance grows_preorder : PreOrder grows.
Proof.
  split; [intros f; split; auto; lia|]. intros f g h [] []. split; try congruence; [lia|by etrans|].
  intros e [?|?]%gr_terms1; [|right; lia]. destruct (gr_terms0 e); [done|by left|right; lia].
Qed.

Ltac grows_frame := intros; split; cbn; auto; lia.

Section grows.
Context {env : raft_env}.

Hint Extern 1 (keeps grows (modify _)) => apply keeps_modify; solve [grows_frame] : keeps.
Tactic Notation "unfold_keeps" reference(m) := unfold m; keeps_auto.

Lemma update_current_term_grows t : keeps grows (update_current_term t).
Proof.
  intros f. unfold update_current_term. apply wp_bind, assert_that_cases; [|done].
  intros Ht. apply wp_bind, wp_modify, wp_modify. split; cbn; auto. lia.
Qed.
Lemma append_new_grows d : keeps grows (modify (fun f => set_log
  (emplace_back (f_log f) (LogEntry (f_current_term f) (next_idx (f_log f)) d)) f) : FSM unit).
Proof.
  apply keeps_modify. intros f. unfold emplace_back. case_match; split; cbn; try lia; try done; try by apply prefix_app_r.
  all: intros e [?|[= ->]%list_elem_of_singleton]%elem_of_app; [by left|]; right; simpl; lia.
Qed.
Lemma assert_that_grows b : keeps grows (assert_that b).
Proof. unfold_keeps assert_that. Qed.
Lemma signal_grows : keeps grows signal.
Proof. unfold_keeps signal. Qed.
Hint Resolve update_current_term_grows append_new_grows assert_that_grows signal_grows : keeps.
Lemma send_to_grows to m : keeps grows (send_to to m).
Proof. unfold_keeps send_to. Qed.
Lemma leader_state_grows : keeps grows leader_state.
Proof. unfold_keeps leader_state. Qed.
Lemma candidate_state_grows : keeps grows candidate_state.
Proof. unfold_keeps candidate_state. Qed.
Lemma check_is_leader_grows : keeps grows check_is_leader.
Proof. unfold_keeps check_is_leader. Qed.
Hint Resolve send_to_grows leader_state_grows candidate_state_grows check_is_leader_grows : keeps.
Lemma update_leader_grows g : keeps grows (update_leader g).
Proof. unfold_keeps update_leader. Qed.
Lemma update_candidate_grows g : keeps grows (update_candidate g).
Proof. unfold_keeps update_candidate. Qed.
Lemma become_follower_grows id : keeps grows (become_follower id).
Proof. unfold_keeps become_follower. Qed.
Hint Resolve update_leader_grows update_candidate_grows become_follower_grows : keeps.
Lemma update_progress_grows id p : keeps grows (update_progress id p).
Proof. unfold_keeps update_progress. Qed.
Lemma ping_leader_grows : keeps grows ping_leader.
Proof. unfold_keeps ping_leader. Qed.
Lemma reset_election_timeout_grows : keeps grows reset_election_timeout.
Proof. unfold_keeps reset_election_timeout. Qed.
Lemma tracker_set_configuration_grows : keeps grows tracker_set_configuration.
Proof. unfold_keeps tracker_set_configuration. Qed.
Lemma advance_commit_idx_grows i : keeps grows (advance_commit_idx i).
Proof. unfold_keeps advance_commit_idx. Qed.
Hint Resolve update_progress_grows ping_leader_grows reset_election_timeout_grows
  tracker_set_configuration_grows advance_commit_idx_grows : keeps.
Lemma add_entry_grows d : keeps grows (add_entry d).
Proof. unfold_keeps add_entry. Qed.
Lemma may_campaign_grows vs : keeps grows (may_campaign vs).
Proof. unfold_keeps may_campaign. Qed.
Hint Resolve add_entry_grows may_campaign_grows : keeps.
Lemma replicate_to_grows id e : keeps grows (replicate_to id e).
Proof. unfold_keeps replicate_to. Qed.
Hint Resolve replicate_to_grows : keeps.
Lemma replicate_grows : keeps grows replicate.
Proof. unfold_keeps replicate. Qed.
Lemma handle_read_quorum_reply_grows from r : keeps grows (handle_read_quorum_reply from r).
Proof. unfold_keeps handle_read_quorum_reply. Qed.
Lemma broadcast_read_quorum_grows id : keeps grows (broadcast_read_quorum id).
Proof. unfold broadcast_read_quorum. pose proof handle_read_quorum_reply_grows. keeps_auto. Qed.
Hint Resolve replicate_grows handle_read_quorum_reply_grows broadcast_read_quorum_grows : keeps.
Lemma next_read_id_grows : keeps grows next_read_id.
Proof. unfold_keeps next_read_id. Qed.
Lemma start_read_barrier_grows id : keeps grows (start_read_barrier id).
Proof. pose proof next_read_id_grows. unfold_keeps start_read_barrier. Qed.
Lemma send_timeout_now_grows id : keeps grows (send_timeout_now id).
Proof. unfold_keeps send_timeout_now. Qed.
Hint Resolve next_read_id_grows start_read_barrier_grows send_timeout_now_grows : keeps.
Lemma transfer_leadership_grows t : keeps grows (transfer_leadership t).
Proof. unfold_keeps transfer_leadership. Qed.
Hint Resolve transfer_leadership_grows : keeps.
Lemma maybe_commit_body_grows again : keeps grows again -> keeps grows (maybe_commit_body again).
Proof. intros Hagain. unfold_keeps maybe_commit_body. Qed.
Lemma maybe_commit_grows : keeps grows maybe_commit.
Proof. do 2 apply maybe_commit_body_grows. keeps_auto. Qed.
Hint Resolve maybe_commit_grows : keeps.
Lemma become_leader_grows : keeps grows become_leader.
Proof. unfold_keeps become_leader. Qed.
Hint Resolve become_leader_grows : keeps.
Lemma campaign_grows p t : keeps grows (campaign p t).
Proof. unfold campaign, campaign_to. keeps_auto. Qed.
Hint Resolve campaign_grows : keeps.
Lemma become_candidate_grows p t : keeps grows (become_candidate p t).
Proof. unfold become_candidate, become_real_candidate. keeps_auto. Qed.
Lemma request_vote_grows from r : keeps grows (request_vote from r).
Proof. unfold_keeps request_vote. Qed.
Hint Resolve become_candidate_grows request_vote_grows : keeps.
Lemma request_vote_reply_grows from r : keeps grows (request_vote_reply from r).
Proof. unfold_keeps request_vote_reply. Qed.
Hint Resolve request_vote_reply_grows : keeps.
Lemma tick_followers_grows alive ids a : keeps grows (tick_followers alive ids a).
Proof. revert a. induction ids as [|id ids IH]; intros a; cbn [tick_followers]; keeps_auto; auto. Qed.
Lemma tick_stepdown_grows : keeps grows tick_stepdown.
Proof. unfold_keeps tick_stepdown. Qed.
Hint Resolve tick_followers_grows tick_stepdown_grows : keeps.
Lemma tick_leader_grows alive : keeps grows (tick_leader alive).
Proof. unfold_keeps tick_leader. Qed.
Lemma has_stable_leader_grows alive : keeps grows (has_stable_leader alive).
Proof. unfold_keeps has_stable_leader. Qed.
Lemma search_leader_grows alive : keeps grows (search_leader alive).
Proof. unfold_keeps search_leader. Qed.
Hint Resolve tick_leader_grows has_stable_leader_grows search_leader_grows : keeps.
Lemma tick_grows alive : keeps grows (tick alive).
Proof. unfold_keeps tick. Qed.
Lemma replicate_again_grows from : keeps grows (replicate_again from).
Proof. unfold_keeps replicate_again. Qed.
Hint Resolve tick_grows replicate_again_grows : keeps.
Lemma append_entries_reply_grows from r : keeps grows (append_entries_reply from r).
Proof. unfold append_entries_reply, append_accepted, append_rejected. cbv zeta. keeps_auto. Qed.
Lemma install_snapshot_reply_grows from r : keeps grows (install_snapshot_reply from r).
Proof. unfold_keeps install_snapshot_reply. Qed.
Hint Resolve append_entries_reply_grows install_snapshot_reply_grows : keeps.
Lemma step_lower_term_grows from msg : keeps grows (step_lower_term from msg).
Proof. unfold_keeps step_lower_term. Qed.
Lemma step_same_term_grows from msg : keeps grows (step_same_term from msg).
Proof. unfold_keeps step_same_term. Qed.
Hint Resolve step_lower_term_grows step_same_term_grows : keeps.
Lemma flush_leader_grows d : keeps grows (flush_leader d).
Proof. unfold_keeps flush_leader. Qed.
Lemma stop_grows : keeps grows stop.
Proof. unfold_keeps stop. Qed.
Hint Resolve flush_leader_grows stop_grows : keeps.

(** The messages other than those that change entries before the end. *)
Lemma step_grows from msg :
  (forall m, msg <> msg_append_request m) -> (forall m, msg <> msg_install_snapshot m) -> keeps grows (step from msg).
Proof.
  intros Ha Hi. unfold step, step_state, step_leader, step_candidate, step_follower.
  destruct msg; try (by destruct (Ha m)); try (by destruct (Hi m)); keeps_auto.
Qed.

Lemma run_call_grows c :
  match c with
  | CallStep _ (msg_append_request _) | CallStep _ (msg_install_snapshot _) | CallGetOutput
  | CallApplySnapshot _ _ _ => False
  | _ => True
  end -> keeps grows (run_call c).
Proof.
  destruct c as [from msg| | | | | | | |]; try done; intros Hc; unfold run_call; [|keeps_auto..].
  apply step_grows; intros m ->; done.
Qed.
End grows.

(** * Calls in general *)

(** Everything reported as committed is stable. *)
Definition reported_stable (f : fsm) : Prop := ob_commit_idx (f_observed f) <= l_stable_idx (f_log f).

(** Terms that a signed 64-bit column can hold. *)
Definition storable (t : term_t) : Prop := 0 <= t < 2 ^ 63.
(** A snapshot without an id is the one of an empty state machine. *)
Definition storable_snapshot (snp : snapshot_descriptor) : Prop :=
  storable (snp_term snp) /\ (snp_id snp = no_id -> snp_idx snp = 0).
Definition terms_storable (f : fsm) : Prop :=
  Forall (fun e => storable (e_term e)) (l_log (f_log f)) /\ storable_snapshot (l_snapshot (f_log f)).

(** The snapshot is the one that was there, or a newer one that the next output
    announces: a local one covers reported entries only, a remote one covers
    more than was reported and leaves nothing in front of it. *)
Definition announced_snapshot (f f' : fsm) : Prop :=
  let l' := f_log f' in let s := snp_idx (l_snapshot l') in
  l_snapshot l' = l_snapshot (f_log f) /\ l_first_idx l' = l_first_idx (f_log f) /\
    o_snp (f_output f') = o_snp (f_output f) \/
  exists local : bool, o_snp (f_output f') = Some (AppliedSnapshot (l_snapshot l') local (s + 1 - l_first_idx l')) /\
    snp_idx (l_snapshot (f_log f)) < s /\ l_first_idx (f_log f) <= l_first_idx l' <= s + 1 /\
    (if local then s <= ob_commit_idx (f_observed f')
     else ob_commit_idx (f_observed f') < s /\ l_first_idx l' = s + 1).

Record moves (f f' : fsm) : Prop := {
  mv_observed : f_observed f' = f_observed f;
  mv_entries i e : i <= l_stable_idx (f_log f') -> entry_at (f_log f') i = Some e ->
    i <= l_stable_idx (f_log f) /\ entry_at (f_log f) i = Some e;
  mv_reported : reported_stable f';
  mv_snapshot : announced_snapshot f f';
  mv_terms : terms_storable f -> 0 <= f_current_term f -> f_current_term f' < 2 ^ 63 -> terms_storable f';
  mv_term : f_current_term f <= f_current_term f';
  mv_commit : f_commit_idx f <= f_commit_idx f';
  mv_stable : f_commit_idx f `min` l_stable_idx (f_log f) <= l_stable_idx (f_log f');
  mv_conf i : snp_idx (l_snapshot (f_log f')) < i <= ob_commit_idx (f_observed f) ->
    effective_configuration (f_log f') i = effective_configuration (f_log f) i;
}.

Lemma moves_trans f g h : moves f g -> moves g h -> moves f h.
Proof.
  intros [Ho1 He1 Hr1 Hs1 Ht1 Hc1 Hm1 Hb1 Hf1] [Ho2 He2 Hr2 Hs2 Ht2 Hc2 Hm2 Hb2 Hf2]. split; [congruence| |done| | |lia..|].
  - intros i e Hi He. destruct (He2 i e Hi He). by apply He1.
  - unfold announced_snapshot in *. rewrite Ho2 in *.
    destruct Hs2 as [(H1 & H2 & H3)|(local & H1 & H2 & H3 & H4)].
    + rewrite H1, H2, H3. exact Hs1.
    + right. exists local. destruct Hs1 as [(<- & <- & _)|(? & _ & ? & ? & _)]; split_and!; done || lia.
  - intros. apply Ht2; [apply Ht1; [done|done|lia]|lia|done].
  - intros i Hi. rewrite Hf2 by (rewrite Ho1; done). apply Hf1.
    destruct Hs2 as [(<- & _)|(local & _ & ? & _)]; [done|]. lia.
Qed.

Section moves.
Context {env : raft_env}.
Implicit Types (f : fsm).

(** What was reported keeps its configuration as long as the snapshot stays. *)
Lemma same_configuration f f' i : fsm_wf f -> log_wf (f_log f') -> l_snapshot (f_log f') = l_snapshot (f_log f) ->
  snp_idx (l_snapshot (f_log f')) < i <= log_last (f_log f') ->
  (forall k e, k <= i -> entry_at (f_log f') k = Some e -> entry_at (f_log f) k = Some e) ->
  effective_configuration (f_log f') i = effective_configuration (f_log f) i.
Proof.
  intros [[_ Hl _ _ _ _] _] Hl' Hs Hi He.
  apply (effective_configuration_agree _ _ (snp_idx (l_snapshot (f_log f)))); [done|done|lia|by rewrite Hs|rewrite <- Hs; lia| |].
  - rewrite effective_configuration_snapshot by done. by rewrite <- Hs, effective_configuration_snapshot.
  - intros k e Hk. apply He. lia.
Qed.

Lemma grows_moves f f' : fsm_wf f -> log_wf (f_log f') -> grows f f' -> f_observed f' = f_observed f ->
  f_commit_idx f <= f_commit_idx f' -> reported_stable f -> moves f f'.
Proof.
  intros Hwf Hl' [] Ho Hc Hr. pose proof Hwf as [[_ Hl _ _ _ _] _]. pose proof Hl as []. split; [done| | | | |done|done|lia|].
  - rewrite gr_stable0. intros i e Hi He. split; [done|].
    by rewrite (entry_at_prefix (f_log f) (f_log f') i) in He by (done || lia).
  - unfold reported_stable in *. rewrite Ho, gr_stable0. done.
  - left. split_and!; done.
  - intros [He Hs] H0 Hb. split; [|by rewrite gr_snapshot0]. rewrite Forall_forall in He |- *.
    intros e [?|?]%gr_terms0; [by apply He|]. unfold storable. lia.
  - unfold reported_stable in Hr. intros i Hi. apply prefix_length in gr_prefix0 as Hlen. unfold log_last in wf_stable |- *.
    apply same_configuration; [done|done|done|unfold log_last; rewrite gr_first0; lia|].
    intros k e Hk He. by rewrite (entry_at_prefix (f_log f) (f_log f') k) in He by (done || unfold log_last; lia).
Qed.

Definition same_pending (f f' : fsm) : Prop := o_snp (f_output f') = o_snp (f_output f).
#[local] Instance same_pending_preorder : PreOrder same_pending.
Proof. split; [done|]. unfold same_pending. intros f g h. congruence. Qed.
Hint Extern 1 (keeps same_pending (modify _)) => apply keeps_modify; done : keeps.
Lemma append_entries_pending from r : keeps same_pending (append_entries from r).
Proof. unfold append_entries, assert_that, advance_commit_idx, send_to, signal. keeps_auto. Qed.

(** ** AppendEntries *)

Lemma append_entries_moves f from r X :
  fsm_wf f -> is_follower f = true -> valid_append f r -> Forall (fun e => storable (e_term e)) (areq_entries r) ->
  reported_stable f -> wp (append_entries from r) (fun _ => moves f) X (fun _ => False) f.
Proof.
  intros Hwf Hfol Hv Hst Hr. pose proof Hwf as [[_ Hl _ _ Hc Ho] _].
  assert (wp (append_entries from r) (fun _ f' => fsm_wf f' /\ (append_done f from r f' \/ append_refused f from r f'))
    (fun _ _ => False) (fun _ => False) f) as Hw.
  { apply append_entries_wp; [done..|by auto|]. intros f' _ Hre. split; [|by right]. destruct Hre. by eapply inert_wf. }
  pose proof (append_entries_pending from r f) as Hp. pose proof (quiet_observed _ (append_entries_quiet from r) f) as Hob.
  pose proof (append_entries_later from r f) as Hlat.
  unfold wp in *. destruct (append_entries from r f) as [[a|e|rr] f']; [|done..].
  destruct Hw as [Hwf' [[Hlog (Hs & Hf & _) Hcom _ (Hk1 & Hk2 & Hk3)]|[[[] _] _]]].
  - unfold same_pending, same_observed, reported_stable in *. split; [done| | | | |by destruct Hlat|by destruct Hlat|lia|].
    + intros i e Hi He. split; [lia|]. by rewrite <- Hk3.
    + unfold reported_stable. rewrite Hob. lia.
    + left. split_and!; done.
    + intros [Hes Hss] _ _. split; [|by rewrite Hs]. rewrite Hlog. rewrite Forall_forall in Hes, Hst |- *.
      intros e [?|?]%elem_of_append_reference; auto.
    + intros i Hi. pose proof Hwf' as [[_ [] _ _ _ _] _]. apply same_configuration; [done|by destruct Hwf' as [[]]|done|lia|].
      intros k e Hk He. rewrite <- Hk3; [done|lia].
  - apply grows_moves; [done|by rewrite sm_log| |done|lia|done]. split; rewrite ?sm_log; try done; [lia|by left].
Qed.

(** ** Snapshots *)

Lemma apply_snapshot_moves f snp me mb local X :
  fsm_wf f -> valid_snapshot f snp me mb local -> (local = false -> me = 0) -> storable_snapshot snp ->
  reported_stable f -> wp (apply_snapshot snp me mb local) (fun _ => moves f) X (fun _ => False) f.
Proof.
  intros Hwf Hv Hme Hst Hr. pose proof Hwf as [[_ Hl _ _ Hc Ho] _]. pose proof Hl as []. pose proof Hv as [_ [Hme0 _] _ Hor].
  apply apply_snapshot_wp; [done|done|intros f' []|intros f' []].
  - destruct st_fresh as [Hlt Hrem], st_log as [u []]. pose proof st_wf as [[_ [] _ _ _ _] _].
    unfold reported_stable in *. split; [done| | | | |lia|lia|lia|].
    + rewrite sa_stable. intros i e Hi He.
      assert (l_first_idx (f_log f') <= i <= log_last (f_log f')) as Hin by (apply entry_at_is_Some; eauto).
      rewrite sa_kept in He by lia. split; [|done]. destruct local; [destruct Hor; lia|].
      specialize (Hme eq_refl). lia.
    + unfold reported_stable. rewrite st_observed, sa_stable. lia.
    + right. exists local. rewrite sa_snapshot, st_observed. split_and!; [done|done| |lia|].
      { destruct (decide (l_first_idx (f_log f') <= log_last (f_log f'))) as [Hin|Hemp]; [|rewrite sa_snapshot in *; lia].
        destruct (proj2 (entry_at_is_Some (f_log f') (l_first_idx (f_log f')))) as [e He]; [lia|].
        rewrite sa_kept in He by lia. destruct (proj1 (entry_at_is_Some (f_log f) (l_first_idx (f_log f')))); [eauto|done]. }
      destruct local; [by destruct Hor|]. specialize (Hme eq_refl). specialize (Hrem eq_refl). lia.
    + intros [Hes Hss] _ _. split; [|by rewrite sa_snapshot]. rewrite Forall_forall in Hes |- *.
      intros e [k He]%list_elem_of_lookup. apply Hes.
      assert (entry_at (f_log f') (l_first_idx (f_log f') + Z.of_nat k) = Some e) as Hek.
      { unfold entry_at. apply at_z_Some. split; [lia|]. by replace (Z.to_nat _) with k by lia. }
      rewrite sa_kept in Hek by lia. unfold entry_at in Hek. apply at_z_Some in Hek as [_ Hek].
      by eapply list_elem_of_lookup_2.
    + intros i Hi. rewrite sa_snapshot in Hi. destruct local; [|specialize (Hrem eq_refl); lia]. destruct Hor as [_ Hcfg].
      eapply (snapshot_applied_effective _ snp me mb); [done|by destruct st_wf as [[]]|by split|done|lia|by apply Hcfg].
  - destruct si_inert as [[] _]. apply grows_moves; [done|by rewrite sm_log| |done|lia|done].
    split; rewrite ?sm_log; try done; [lia|by left].
Qed.

(** ** Messages *)

(** A state that [step] may reach before it looks at the contents of a message. *)
Record prepared (f f1 : fsm) : Prop := {
  pr_wf : fsm_wf f1;
  pr_grows : grows f f1;
  pr_observed : f_observed f1 = f_observed f;
  pr_log : f_log f1 = f_log f;
  pr_commit : f_commit_idx f1 = f_commit_idx f;
}.

Hint Extern 1 (keeps grows (modify _)) => apply keeps_modify; solve [grows_frame] : keeps.
Hint Resolve become_follower_grows update_current_term_grows : keeps.

Lemma adopt_term_prepared f from term X B :
  fsm_wf f -> from <> f_my_id f -> f_current_term f < term ->
  wp (become_follower from ;; update_current_term term) (fun _ => prepared f) X B f.
Proof.
  intros Hwf Hfrom Hlt.
  assert (keeps same_observed (become_follower from ;; update_current_term term)) as Ho.
  { unfold become_follower, update_current_term, assert_that.
    assert (forall g, (forall f, f_observed (g f) = f_observed f) -> keeps same_observed (modify g : FSM unit)) as Hmod.
    { intros g Hg. by apply keeps_modify. }
    keeps_auto; by apply Hmod. }
  assert (keeps grows (become_follower from ;; update_current_term term)) as Hg by keeps_auto.
  assert (wp (become_follower from ;; update_current_term term) (fun _ f1 => fsm_wf f1 /\
    f_log f1 = f_log f /\ f_commit_idx f1 = f_commit_idx f) (fun _ _ => False) (fun _ => False) f) as Hw.
  { by apply adopt_term_wp. }
  specialize (Ho f). specialize (Hg f). revert Ho Hg Hw. generalize (become_follower from ;; update_current_term term).
  intros m Ho Hg Hw. unfold wp in *. destruct (m f) as [[] f1]; [|done..].
  destruct Hw as (? & ? & ?). by split.
Qed.

Definition same_log (f f' : fsm) : Prop := f_log f' = f_log f.
#[local] Instance same_log_preorder : PreOrder same_log.
Proof. split; [done|]. unfold same_log. intros f g h. congruence. Qed.
Hint Extern 1 (keeps same_log (modify _)) => apply keeps_modify; done : keeps.
Lemma step_same_term_log from msg : keeps same_log (step_same_term from msg).
Proof. unfold step_same_term, become_follower, assert_that. keeps_auto. Qed.
Lemma step_lower_term_log from msg : keeps same_log (step_lower_term from msg).
Proof. unfold step_lower_term, send_to, signal. keeps_auto. Qed.

Lemma step_same_term_prepared f from msg :
  fsm_wf f -> from <> f_my_id f ->
  wp (step_same_term from msg) (fun _ => prepared f) (fun _ f' => f_log f' = f_log f /\ grows f f' /\ f_observed f' = f_observed f /\ f_commit_idx f <= f_commit_idx f')
    (fun _ => False) f.
Proof.
  intros Hwf Hself. pose proof (step_same_term_wp f from msg (fun _ => False) Hwf Hself) as Hw.
  pose proof (step_same_term_grows from msg f) as Hg.
  pose proof (quiet_observed _ (step_same_term_quiet from msg) f) as Ho.
  pose proof (step_same_term_later from msg f) as Hla. pose proof (step_same_term_log from msg f) as Hlog.
  unfold wp in *. destruct (step_same_term from msg f) as [[] f1]; [|by destruct Hla|done].
  destruct Hw as [? []]. by split.
Qed.

Lemma step_lower_term_observed from msg : keeps same_observed (step_lower_term from msg).
Proof. apply quiet_observed, step_lower_term_quiet. Qed.

(** The messages of a leader: what they do after the term was looked at decides. *)
Lemma step_leader_message f from msg :
  fsm_wf f -> reported_stable f -> 0 <= msg_current_term msg -> ignore_term msg = false ->
  (forall m, msg <> msg_read_quorum_reply m) ->
  (forall f1, prepared f f1 -> wp (step_state from msg) (fun _ => moves f1) (fun _ => moves f1) (fun _ => False) f1) ->
  wp (step from msg) (fun _ => moves f) (fun _ => moves f) (fun _ => False) f.
Proof.
  intros Hwf Hr Hm0 Hig Hrq Hstate. unfold step. apply wp_bind, wp_gets.
  assert (forall f1, f_log f1 = f_log f -> grows f f1 -> f_observed f1 = f_observed f -> f_commit_idx f <= f_commit_idx f1 -> moves f f1) as Hgm
    by (intros f1 Hlog ???; apply grows_moves; try done; rewrite Hlog; by destruct Hwf as [[]]).
  assert (forall f1, prepared f f1 -> wp (step_state from msg) (fun _ => moves f) (fun _ => moves f) (fun _ => False) f1) as Hst.
  { intros f1 Hp. eapply wp_mono; [by apply Hstate|intros ? f2 ?|intros ? f2 ?|done];
      (apply (moves_trans f f1 f2); [destruct Hp; apply Hgm; (done || lia)|done]). }
  destruct (N.eqb_spec from (f_my_id f)) as [|Hself]; [apply wp_throw; apply Hgm; (done || lia)|].
  destruct (Z.gtb_spec (msg_current_term msg) (f_current_term f)) as [Hgt|Hle].
  - assert (wp (when (negb (ignore_term msg)) (become_follower (if from_leader msg then from else no_id) ;;
      update_current_term (msg_current_term msg)) ;; step_state from msg)
      (fun _ => moves f) (fun _ => moves f) (fun _ => False) f) as Hmain.
    { rewrite Hig. cbn [negb when]. apply wp_bind. eapply wp_mono; [apply adopt_term_prepared; [done| |done]| | |].
      + destruct (from_leader msg); [done|]. by destruct Hwf as [[]].
      + intros [] f1. apply Hst.
      + intros e f1 Hf1. exact Hf1.
      + intros rr Hrr. exact Hrr. }
    destruct msg; try exact Hmain. by destruct (Hrq m).
  - destruct (Z.ltb_spec (msg_current_term msg) (f_current_term f)) as [Hlt|Hge].
    + pose proof (step_lower_term_grows from msg f) as Hg. pose proof (step_lower_term_observed from msg f) as Ho.
      pose proof (step_lower_term_later from msg f) as Hla. pose proof (step_lower_term_log from msg f) as Hlog.
      assert (forall r, (step_lower_term from msg f).1 <> Abort r) as Hna.
      { intros r. unfold step_lower_term, send_to, signal. destruct msg; try done. by destruct (vreq_is_prevote m). }
      unfold wp in *. destruct (step_lower_term from msg f) as [[] f1]; [destruct Hla; by apply Hgm..|by destruct (Hna r)].
    + apply wp_bind. eapply wp_mono; [by apply step_same_term_prepared|intros [] f1; apply Hst| |done].
      intros e f1 (? & ? & ? & ?). by apply Hgm.
Qed.

Lemma valid_message_prepared f f1 msg : prepared f f1 -> valid_message f msg -> valid_message f1 msg.
Proof. intros []. by apply valid_message_same. Qed.

Lemma prepared_reported f f1 : prepared f f1 -> reported_stable f -> reported_stable f1.
Proof. intros []. unfold reported_stable. by rewrite pr_observed0, pr_log0. Qed.

Lemma moves_refl f : fsm_wf f -> reported_stable f -> moves f f.
Proof. intros Hwf Hr. apply grows_moves; try (done || lia). by destruct Hwf as [[]]. Qed.

(** A message that only sends an answer. *)
Lemma answer_moves f from m X : fsm_wf f -> reported_stable f ->
  wp (send_to from m) (fun _ => moves f) X (fun _ => False) f.
Proof.
  intros Hwf Hr. unfold send_to, signal. apply wp_bind, wp_modify, wp_modify.
  apply grows_moves; [done|by destruct Hwf as [[]]| |done|simpl; lia|done].
  grows_frame.
Qed.

Lemma step_append_moves f from r :
  fsm_wf f -> reported_stable f -> valid_message f (msg_append_request r) ->
  Forall (fun e => storable (e_term e)) (areq_entries r) ->
  wp (step from (msg_append_request r)) (fun _ => moves f) (fun _ => moves f) (fun _ => False) f.
Proof.
  intros Hwf Hr Hv Hst. apply step_leader_message; [done|done|by destruct Hv as [[] _]|done|done|].
  intros f1 Hp. pose proof (valid_message_prepared _ _ _ Hp Hv) as [_ Hv1].
  pose proof (prepared_reported _ _ Hp Hr) as Hr1. pose proof (pr_wf _ _ Hp) as Hwf1.
  unfold step_state. apply wp_bind, wp_gets. destruct (f_state f1) eqn:Hs; cbn [step_follower step_candidate step_leader]; [|by apply wp_ret, moves_refl..].
  apply append_entries_moves; try done. unfold is_follower. by rewrite Hs.
Qed.

Lemma step_install_moves f from m :
  fsm_wf f -> reported_stable f -> valid_message f (msg_install_snapshot m) -> storable_snapshot (inst_snp m) ->
  wp (step from (msg_install_snapshot m)) (fun _ => moves f) (fun _ => moves f) (fun _ => False) f.
Proof.
  intros Hwf Hr Hv Hst. apply step_leader_message; [done|done|by destruct Hv as [[] _]|done|done|].
  intros f1 Hp. pose proof (valid_message_prepared _ _ _ Hp Hv) as [_ [Hb Hsm]].
  pose proof (prepared_reported _ _ Hp Hr) as Hr1. pose proof (pr_wf _ _ Hp) as Hwf1.
  unfold step_state. apply wp_bind, wp_gets. destruct (f_state f1) eqn:Hs; cbn [step_follower step_candidate step_leader].
  2-3: apply wp_bind, wp_gets; by apply answer_moves.
  apply wp_bind, wp_gets, wp_bind.
  assert (valid_snapshot f1 (inst_snp m) 0 0 false) as Hvs.
  { split; [done|lia|done|]. unfold is_follower. by rewrite Hs. }
  eapply wp_mono; [apply wp_and; [by apply (apply_snapshot_moves f1 _ _ _ _ (fun _ => moves f1))|by apply apply_snapshot_safe]| | |done].
  - intros ok f2 [Hm Hwf2]. eapply wp_mono; [apply (answer_moves f2 from _ (fun _ => moves f2)); [done|by destruct Hm]| | |done];
      intros ? f3 Hm3; by apply (moves_trans f1 f2 f3).
  - by intros e f2 [? _].
Qed.

(** What a call may bring into the log, besides being valid. *)
Definition storable_call (c : call) : Prop :=
  match c with
  | CallStep _ (msg_append_request r) => Forall (fun e => storable (e_term e)) (areq_entries r)
  | CallStep _ (msg_install_snapshot m) => storable_snapshot (inst_snp m)
  | CallApplySnapshot snp _ _ => storable_snapshot snp
  | _ => True
  end.

(** Every call but [get_output] moves the machine on. *)
Lemma run_call_moves c f o f' :
  fsm_wf f -> room f -> valid_call f c -> storable_call c -> c <> CallGetOutput -> reported_stable f ->
  run_call c f = (o, f') -> moves f f'.
Proof.
  intros Hwf Hroom Hv Hst Hc Hr Hrun.
  assert (forall B, wp (run_call c) (fun _ => moves f) (fun _ => moves f) B f -> (forall r, ~ B r) -> moves f f') as Hend.
  { intros B Hw HB. unfold wp in Hw. rewrite Hrun in Hw. destruct o; [done|done|]. by destruct (HB r). }
  assert (match c with
    | CallStep _ (msg_append_request _) | CallStep _ (msg_install_snapshot _) | CallGetOutput
    | CallApplySnapshot _ _ _ => False
    | _ => True
    end -> moves f f') as Hgrow.
  { intros Hk. pose proof (run_call_grows c Hk f) as Hg. pose proof (run_call_observed c Hc f) as Ho.
    pose proof (run_call_safe f c Hwf Hroom Hv) as Hs. pose proof (run_call_later c f) as Hla.
    unfold safe, wp in *. rewrite Hrun in *.
    destruct o; [destruct Hla, Hs as [[]]; by apply grows_moves..|done]. }
  destruct c as [from msg| | | | |snp me mb| | |]; try (by apply Hgrow); try done.
  - destruct msg; try (by apply Hgrow).
    + eapply Hend; [by apply step_append_moves|by intros ? []].
    + eapply Hend; [by apply step_install_moves|by intros ? []].
  - apply (Hend (fun _ => False)); [|by intros ? []]. unfold run_call. apply wp_bind.
    eapply wp_mono; [by apply (apply_snapshot_moves f snp me mb true (fun _ => moves f))|by intros|done|done].
Qed.
End moves.

(** * The output *)

Record grown (f f' : fsm) : Prop := {
  gn_term : f_current_term f <= f_current_term f';
  gn_first : l_first_idx (f_log f') = l_first_idx (f_log f);
  gn_snapshot : l_snapshot (f_log f') = l_snapshot (f_log f);
  gn_prefix : l_log (f_log f) `prefix_of` l_log (f_log f');
  gn_terms e : e ∈ l_log (f_log f') ->
    e ∈ l_log (f_log f) \/ f_current_term f <= e_term e <= f_current_term f';
}.

#[export] Instance grown_preorder : PreOrder grown.
Proof.
  split; [intros f; split; auto; lia|]. intros f g h [] []. split; try congruence; [lia|by etrans|].
  intros e [?|?]%gn_terms1; [|right; lia]. destruct (gn_terms0 e); [done|by left|right; lia].
Qed.

Lemma grows_grown {A} (m : FSM A) : keeps grows m -> keeps grown m.
Proof. intros Hm f. eapply wp_mono; [apply Hm|by intros a f' []|by intros e f' []|done]. Qed.
Lemma grows_pending {A} (m : FSM A) : keeps grows m -> keeps same_pending m.
Proof. intros Hm f. eapply wp_mono; [apply Hm|by intros a f' []|by intros e f' []|done]. Qed.

Section output_growth.
Context {env : raft_env}.
#[local] Existing Instance same_pending_preorder.

Hint Extern 1 (keeps grown (modify _)) => apply keeps_modify; intros; split; cbn; auto; lia : keeps.
Hint Extern 1 (keeps same_pending (modify _)) => apply keeps_modify; done : keeps.

Hint Resolve maybe_commit_grows update_progress_grows flush_leader_grows grows_grown grows_pending : keeps.

Lemma advance_stable_idx_grown i : keeps grown (advance_stable_idx i).
Proof.
  intros f. unfold advance_stable_idx. apply wp_bind, wp_gets, wp_bind, wp_lift; [|done|done].
  intros l Hl. unfold stable_to, check in Hl. destruct (i <=? last_idx (f_log f)); [|done]. injection Hl as <-.
  apply wp_bind, wp_modify. match goal with |- wp _ _ _ _ ?g => set (f1 := g) end.
  assert (grown f f1) as Hf1 by (subst f1; split; cbn; auto; lia).
  eapply (wp_keeps grown); [|intros a f2 ?|intros a f2 ?|done]; [|by etrans..].
  keeps_auto.
Qed.
Lemma advance_stable_idx_pending i : keeps same_pending (advance_stable_idx i).
Proof. unfold advance_stable_idx. keeps_auto. Qed.
Hint Resolve advance_stable_idx_grown advance_stable_idx_pending : keeps.

Lemma get_output_grown : keeps grown get_output.
Proof. unfold get_output. keeps_auto. Qed.

(** An output, with what it leaves of the pending snapshot and of the terms. *)
Record output_taken (f : fsm) (o : fsm_output) (f' : fsm) : Prop := {
  ot_output : output_of f o f';
  ot_pending : o_snp (f_output f') = None;
  ot_grown : grown f f';
}.

Lemma get_output_leaves f Q X B :
  fsm_wf f -> log_last (f_log f) + 2 < u64_modulus ->
  (forall o f', output_taken f o f' -> Q o f') -> wp get_output Q X B f.
Proof.
  intros Hwf Hroom HQ. pose proof (get_output_grown f) as Hg.
  assert (wp get_output (fun _ f' => o_snp (f_output f') = None) (fun _ _ => True) (fun _ => True) f) as Hp.
  { unfold get_output. apply wp_bind, wp_gets, wp_bind. eapply (wp_keeps grows); [keeps_auto| |done..].
    intros _ f1 _. apply wp_bind, wp_gets, wp_bind, wp_modify.
    match goal with |- wp _ _ _ _ ?g => set (f2 := g) end.
    eapply (wp_keeps same_pending); [keeps_auto| |done..]. by intros ? f3 ->. }
  assert (wp get_output (output_of f) (fun _ _ => False) (fun _ => False) f) as Ho by (by apply get_output_wp; auto).
  unfold wp in *. destruct (get_output f) as [[o| |] f']; [|done..]. apply HQ. by split.
Qed.
End output_growth.
