(* ===== verification/RaftDurability.v ===== *)
(** What is on disk. The persistent contents follow the state machine: between two
    outputs they lag behind by what the next output reports, and the storage
    operations of an output, done one after the other, bring them up to date. After
    each of them the contents are such that a server can be started from them. *)
From S2P Require Import Prelude RaftTypes RaftLog RaftTracker RaftFsm RaftMonotone RaftReplication.
From S2P Require Import RaftInvariant RaftSafety RaftApi RaftElection RaftStorage RaftWaiters RaftServer RaftGrowth.

(** * Consecutive entries *)

Lemma Forall_filter {A} (P Q : A -> Prop) `{forall x, Decision (Q x)} es : Forall P es -> Forall P (filter Q es).
Proof. rewrite !Forall_forall. intros Hes x [_ Hx]%list_elem_of_filter. by apply Hes. Qed.

Lemma consecutive_drop i n es : consecutive i es -> consecutive (i + Z.of_nat n) (drop n es).
Proof.
  rewrite !consecutive_lookup. intros Hes k e Hk. rewrite lookup_drop in Hk. rewrite (Hes _ _ Hk). lia.
Qed.


Lemma consecutive_elem i es e : consecutive i es -> e ∈ es -> i <= e_idx e < i + Z.of_nat (length es).
Proof.
  rewrite consecutive_lookup. intros Hes [k Hk]%list_elem_of_lookup. rewrite (Hes _ _ Hk).
  pose proof (lookup_lt_Some _ _ _ Hk). lia.
Qed.

Lemma entries_above_consecutive i j es : consecutive i es -> i <= j + 1 ->
  entries_above j es = drop (Z.to_nat (j + 1 - i)) es /\ consecutive (j + 1) (entries_above j es).
Proof.
  intros Hes Hi. assert (entries_above j es = drop (Z.to_nat (j + 1 - i)) es) as Heq.
  { revert i Hes Hi. unfold entries_above. induction es as [|e es IH]; intros i Hes Hi; [by rewrite drop_nil|].
    pose proof Hes as [He Hes']. destruct (decide (i = j + 1)) as [->|Hne].
    - replace (Z.to_nat (j + 1 - (j + 1))) with 0%nat by lia. apply list_filter_all, Forall_forall.
      intros e' He'. pose proof (consecutive_elem _ _ _ Hes He'). lia.
    - rewrite filter_cons_False by lia. replace (Z.to_nat (j + 1 - i)) with (S (Z.to_nat (j + 1 - (i + 1)))) by lia.
      apply IH; [done|lia]. }
  split; [done|]. rewrite Heq. apply (consecutive_drop _ (Z.to_nat (j + 1 - i))) in Hes.
  replace (i + Z.of_nat (Z.to_nat (j + 1 - i))) with (j + 1) in Hes by lia. done.
Qed.

Lemma entries_below_consecutive i j es : consecutive i es ->
  entries_below j es = take (Z.to_nat (j - i)) es.
Proof.
  revert i. unfold entries_below. induction es as [|e es IH]; intros i Hes; [by rewrite take_nil|].
  pose proof Hes as [He Hes']. destruct (decide (i < j)) as [Hlt|Hge].
  - rewrite filter_cons_True by lia. replace (Z.to_nat (j - i)) with (S (Z.to_nat (j - (i + 1)))) by lia.
    simpl. f_equal. by apply IH.
  - replace (Z.to_nat (j - i)) with 0%nat by lia. apply list_filter_none, Forall_forall.
    intros e' He'. pose proof (consecutive_elem _ _ _ Hes He'). lia.
Qed.

Lemma entry_at_elem l i e : entry_at l i = Some e -> e ∈ l_log l.
Proof. unfold entry_at. intros [_ Hk]%at_z_Some. by eapply list_elem_of_lookup_2. Qed.

Lemma segment_elem l lo es e : segment l lo es -> e ∈ es -> e ∈ l_log l.
Proof. intros Hs [k Hk]%list_elem_of_lookup. by eapply entry_at_elem, Hs. Qed.

Lemma segment_consecutive `{raft_env} l lo es : log_wf l -> segment l lo es -> consecutive lo es.
Proof. intros [] Hs. apply consecutive_lookup. intros k e Hk. by apply wf_idx, Hs. Qed.

(** * Contents a server can be started from *)

Definition storable_entry (e : log_entry) : Prop :=
  storable (e_term e) /\ forall cfg, entry_configuration e = Some cfg -> config_small cfg.

(** Log and snapshot fit, as far as an index [i] where the log starts is concerned. *)
Record boots_from (c : contents) (i : index_t) : Prop := {
  bf_log : consecutive i (c_log c);
  bf_first : 0 < i <= snp_idx (c_snapshot c) + 1;
  bf_last : snp_idx (c_snapshot c) <= i + Z.of_nat (length (c_log c)) - 1;
  bf_empty : c_log c = [] -> i = snp_idx (c_snapshot c) + 1;
  bf_commit : c_commit c <= i + Z.of_nat (length (c_log c)) - 1;
  bf_room : i + Z.of_nat (length (c_log c)) < 2 ^ 63;
}.

Record bootable (c : contents) : Prop := {
  bt_term : storable (c_term c);
  bt_snapshot : 0 <= snp_idx (c_snapshot c) /\ storable_snapshot (c_snapshot c) /\
    config_small (snp_config (c_snapshot c));
  bt_log : exists i, boots_from c i;
  bt_entries : Forall storable_entry (c_log c);
}.

Definition same_snapshot (s s' : snapshot_descriptor) : Prop :=
  snp_idx s = snp_idx s' /\ snp_term s = snp_term s' /\ snp_id s = snp_id s'.

(** The contents [c] hold the log [l] up to [stable]: they start with it, have its
    snapshot and all of its entries up to [stable], and no more is marked as
    committed. There may be entries behind [stable] that the log does not have. *)
Record matched (c : contents) (l : log) (stable : index_t) : Prop := {
  ma_snapshot : same_snapshot (c_snapshot c) (l_snapshot l);
  ma_config : config_small (snp_config (c_snapshot c));
  ma_log : consecutive (l_first_idx l) (c_log c);
  ma_entries : Forall storable_entry (c_log c);
  ma_stable i e : i <= stable -> entry_at l i = Some e -> e ∈ c_log c;
  ma_commit : c_commit c <= stable;
}.

Section matched.
Context {env : raft_env}.
Implicit Types (c : contents) (l : log).

Lemma consecutive_reaches i es e : consecutive i es -> e ∈ es -> e_idx e <= i + Z.of_nat (length es) - 1.
Proof. intros Hc He. pose proof (consecutive_elem _ _ _ Hc He). lia. Qed.

Lemma matched_reaches c l stable : log_wf l -> stable <= log_last l -> matched c l stable ->
  stable <= l_first_idx l + Z.of_nat (length (c_log c)) - 1.
Proof.
  intros [] Hs []. destruct (decide (l_first_idx l <= stable)) as [Hin|]; [|lia].
  destruct (proj2 (entry_at_is_Some l stable)) as [e He]; [lia|].
  pose proof (consecutive_reaches _ _ e ma_log0 (ma_stable0 _ _ (Z.le_refl _) He)) as Hr.
  rewrite (wf_idx _ _ He) in Hr. done.
Qed.

Lemma matched_bootable c l stable : log_wf l -> snp_idx (l_snapshot l) <= stable <= log_last l ->
  matched c l stable -> storable (c_term c) -> storable_snapshot (l_snapshot l) ->
  snp_idx (l_snapshot l) < 2 ^ 63 - 1 -> Forall (fun e => e_idx e < 2 ^ 63 - 1) (c_log c) ->
  bootable c.
Proof.
  intros Hl Hs Hm Ht Hsn Hb Hbound. pose proof (matched_reaches _ _ _ Hl (proj2 Hs) Hm).
  pose proof Hl as []. pose proof Hm as [(H1 & H2 & H3) ? ? ? ? ?].
  split; [done| | |done].
  - unfold storable_snapshot in *. rewrite H1, H2, H3. split_and!; [lia|naive_solver..].
  - exists (l_first_idx l). split; rewrite ?H1; [done|lia|lia| |lia|].
    + intros Hn. rewrite Hn in *. simpl in *. lia.
    + destruct (last (c_log c)) as [e|] eqn:He; [|apply last_None in He; rewrite He; simpl; lia].
      apply last_Some in He as [es He]. rewrite He in ma_log0, Hbound |- *.
      apply consecutive_app in ma_log0 as [_ [Hi _]]. apply Forall_app in Hbound as [_ [Hlast _]%Forall_cons].
      rewrite length_app. simpl in *. lia.
Qed.

Lemma matched_log c l l' stable : l_first_idx l' = l_first_idx l -> l_snapshot l' = l_snapshot l ->
  (forall i e, i <= stable -> entry_at l' i = Some e -> entry_at l i = Some e) ->
  matched c l stable -> matched c l' stable.
Proof. intros Hf Hs He []. split; rewrite ?Hf, ?Hs; naive_solver. Qed.
End matched.

(** * Following the state machine *)

(** The snapshot that the next output announces is the one of the log. *)
Definition pending_snapshot (f : fsm) : Prop :=
  let l := f_log f in let s := snp_idx (l_snapshot l) in let reported := ob_commit_idx (f_observed f) in
  match o_snp (f_output f) with
  | None => s <= reported
  | Some a => exists local : bool, a = AppliedSnapshot (l_snapshot l) local (s + 1 - l_first_idx l) /\
      if local then s <= reported else reported < s /\ l_first_idx l = s + 1
  end.

Record fsm_ready `{raft_env} (f : fsm) : Prop := {
  fr_wf : fsm_wf f;
  fr_reported : reported_stable f;
  fr_terms : terms_storable f;
  fr_pending : pending_snapshot f;
}.

(** Away from the end of the 63-bit range of the columns. *)
Record in_range (f : fsm) : Prop := {
  ir_term : 0 <= f_current_term f < 2 ^ 63 - 1;
  ir_last : log_last (f_log f) + 2 < 2 ^ 63;
}.

(** Contents that are up to date with the last output: [last_stable] is the last
    index that was stored. *)
Record in_sync (c : contents) (last_stable : index_t) (f : fsm) : Prop := {
  is_boot : bootable c;
  is_term : c_term c = ob_current_term (f_observed f) /\ c_vote c = ob_voted_for (f_observed f);
  is_commit : c_commit c <= f_commit_idx f /\ c_commit c <= l_stable_idx (f_log f);
  is_last : Forall (fun e => e_idx e <= last_stable) (c_log c) /\ last_stable < 2 ^ 63 - 1;
  is_log : match o_snp (f_output f) with
    | None => matched c (f_log f) (l_stable_idx (f_log f))
    | Some _ => snp_idx (c_snapshot c) < snp_idx (l_snapshot (f_log f)) /\
        (exists i, boots_from c i /\ i <= l_first_idx (f_log f)) /\
        forall i e, i <= l_stable_idx (f_log f) -> entry_at (f_log f) i = Some e -> e ∈ c_log c
    end;
}.

Section following.
Context {env : raft_env}.
Implicit Types (f : fsm) (c : contents).

Lemma room_in_range f : in_range f -> room f.
Proof. intros []. split; unfold u64_modulus; lia. Qed.

Lemma matched_boots c f : fsm_wf f -> bootable c ->
  matched c (f_log f) (l_stable_idx (f_log f)) -> boots_from c (l_first_idx (f_log f)).
Proof.
  intros [[_ Hl _ _ _ _] _] [_ _ [i Hi] _] Hm. pose proof Hl as [].
  pose proof (matched_reaches _ _ _ Hl (proj2 wf_stable) Hm). pose proof Hm as [(H1 & H2 & H3) ? ? ? ? ?].
  destruct (c_log c) as [|e es] eqn:He.
  - destruct Hi. specialize (bf_empty0 He). rewrite He in *. simpl in *.
    replace (l_first_idx (f_log f)) with i by lia. by split; rewrite ?He.
  - replace (l_first_idx (f_log f)) with i; [done|]. destruct Hi. rewrite He in *.
    destruct bf_log0, ma_log0. lia.
Qed.

Lemma moves_ready f f' : fsm_ready f -> fsm_wf f' -> moves f f' -> in_range f -> in_range f' -> fsm_ready f'.
Proof.
  intros [Hwf Hr Ht Hp] Hwf' [] [] []. split; [done|done|apply mv_terms; (done || lia)|].
  unfold pending_snapshot, announced_snapshot in *. rewrite mv_observed in *.
  destruct mv_snapshot as [(-> & -> & ->)|(local & -> & _ & _ & Hl)]; [done|]. by exists local.
Qed.

Lemma moves_in_sync c last_stable f f' :
  fsm_ready f -> moves f f' -> in_sync c last_stable f -> in_sync c last_stable f'.
Proof.
  intros [Hwf Hr _ _] [] [Hb Ht Hc Hla Hlog]. split; [done|by rewrite mv_observed|lia|done|].
  destruct mv_snapshot as [(Hs & Hf & Ho)|(local & Ho & Hs & [Hf1 _] & _)]; rewrite Ho.
  - destruct (o_snp (f_output f)).
    + destruct Hlog as (H1 & (i & H2 & H3) & H4). rewrite Hs, Hf. split_and!; [done|by exists i|].
      intros j e Hj He. destruct (mv_entries j e Hj He). by apply (H4 j e).
    + destruct Hlog. split; rewrite ?Hs, ?Hf; try done.
      * intros i e Hi He. destruct (mv_entries i e Hi He). by apply (ma_stable0 i e).
      * lia.
  - assert ((exists i, boots_from c i /\ i <= l_first_idx (f_log f)) /\
      (forall i e, i <= l_stable_idx (f_log f) -> entry_at (f_log f) i = Some e -> e ∈ c_log c) /\
      snp_idx (c_snapshot c) <= snp_idx (l_snapshot (f_log f))) as ((i & Hi & Hif) & Hst & Hsn).
    { destruct (o_snp (f_output f)); [destruct Hlog as (? & ? & ?); split_and!; [done|done|lia]|].
      split_and!; [|apply Hlog|destruct Hlog as [(-> & _) _ _ _ _ _]; lia].
      exists (l_first_idx (f_log f)). split; [by apply matched_boots|lia]. }
    split_and!; [lia|exists i; split; [done|lia]|].
    intros j e Hj He. destruct (mv_entries j e Hj He). by apply (Hst j e).
Qed.
End following.

(** * The storage operations of an output *)

Definition vote_op (b : fsm_output) : list operation :=
  match o_term_and_vote b with Some (t, v) => [op_term_and_vote t v] | None => [] end.
Definition snapshot_op (b : fsm_output) : list operation :=
  match o_snp b with Some (AppliedSnapshot snp _ k) => [op_snapshot_descriptor snp k] | None => [] end.
Definition truncate_op (last_stable : index_t) (b : fsm_output) : list operation :=
  match o_log_entries b with
  | e :: _ => if last_stable >=? e_idx e then [op_truncate_log (e_idx e)] else []
  | [] => []
  end.
Definition entries_op (b : fsm_output) : list operation :=
  match last (o_log_entries b) with Some _ => [op_log_entries (o_log_entries b)] | None => [] end.
Definition commit_op (b : fsm_output) : list operation :=
  match last (o_committed b) with Some e => [op_commit_idx (e_idx e)] | None => [] end.

(** What is left to do in a phase, and the last index stored when it is done. *)
Definition remaining (phase : io_phase) (last_stable : index_t) (b : fsm_output) : list operation :=
  match phase with
  | store_vote => vote_op b ++ snapshot_op b ++ truncate_op last_stable b ++ entries_op b ++ commit_op b
  | store_snapshot => snapshot_op b ++ truncate_op last_stable b ++ entries_op b ++ commit_op b
  | push_snapshot | truncate => truncate_op last_stable b ++ entries_op b ++ commit_op b
  | store_entries => entries_op b ++ commit_op b
  | send_messages => commit_op b
  | push_committed | finish_reads | finish _ => []
  end.

Definition stored_up_to (last_stable : index_t) (b : fsm_output) : index_t :=
  match last (o_log_entries b) with Some e => e_idx e | None => last_stable end.

Definition final_stable (phase : io_phase) (last_stable : index_t) (b : fsm_output) : index_t :=
  match phase with
  | store_vote | store_snapshot | push_snapshot | truncate | store_entries => stored_up_to last_stable b
  | _ => last_stable
  end.

Definition eventually (c : contents) (ops : list operation) : contents :=
  foldl (fun c o => op_promises o c) c ops.

(** The operations respect the contract, and whichever was the last one done, or
    done in part, the server can be started again. *)
Fixpoint safe_ops (c : contents) (ops : list operation) : Prop :=
  bootable c /\ match ops with
    | [] => True
    | o :: ops => op_valid c o /\ (forall c', op_partial o c c' -> bootable c') /\ safe_ops (op_promises o c) ops
    end.

Lemma safe_ops_here c ops : safe_ops c ops -> bootable c.
Proof. by destruct ops; intros []. Qed.

Lemma safe_ops_app c ops ops' : safe_ops c ops -> safe_ops (eventually c ops) ops' -> safe_ops c (ops ++ ops').
Proof.
  revert c. induction ops as [|o ops IH]; intros c; simpl; [tauto|]. intros (? & ? & ? & ?) ?. split_and!; auto.
Qed.

Lemma eventually_app c ops ops' : eventually c (ops ++ ops') = eventually (eventually c ops) ops'.
Proof. apply foldl_app. Qed.

Lemma safe_ops_nil c : bootable c -> safe_ops c [].
Proof. done. Qed.

Lemma safe_ops_one c o : bootable c -> op_valid c o -> (forall es, o <> op_log_entries es) -> bootable (op_promises o c) ->
  safe_ops c [o].
Proof.
  intros Hc Hv Hes Ho. split_and!; [done|done| |done]. intros c'. destruct o; simpl; try (by intros [-> | ->]); [done|].
  by destruct (Hes entries).
Qed.

Section output_ops.
Context {env : raft_env} (f : fsm) (o : fsm_output) (f' : fsm) (last_stable : index_t).
Hypothesis Hready : fsm_ready f.
Hypothesis Hrange : in_range f.
Hypothesis Htaken : output_taken f o f'.
Implicit Types (c : contents).
#[local] Abbreviation l := (f_log f).
#[local] Abbreviation stable := (l_stable_idx (f_log f)).

(** The contents hold the log up to [upto]. *)
Record caught_up (upto last : index_t) (c : contents) : Prop := {
  cu_matched : matched c l upto;
  cu_term : c_term c = f_current_term f /\ c_vote c = f_voted_for f;
  cu_commit : c_commit c <= f_commit_idx f;
  cu_last : Forall (fun e => e_idx e <= last) (c_log c) /\ last < 2 ^ 63 - 1;
}.

Lemma log_facts : log_wf l /\ snp_idx (l_snapshot l) <= stable <= log_last l /\ log_last l < 2 ^ 63 - 2 /\
  0 <= f_current_term f < 2 ^ 63 - 1.
Proof using Hready Hrange.
  destruct Hready as [[[_ Hl _ _ _ _] _] _ _ _], Hrange. pose proof Hl as []. split_and!; try done; lia.
Qed.

Lemma caught_up_bootable upto last c : stable <= upto <= log_last l -> caught_up upto last c -> bootable c.
Proof using Hready Hrange.
  intros Hu [Hm [Ht _] _ [Hla Hb]]. destruct log_facts as (Hl & ? & ? & ?).
  apply (matched_bootable c l upto); [done|lia|done| | |lia|].
  - rewrite Ht. unfold storable. lia.
  - by destruct Hready as [_ _ [_ ?] _].
  - eapply Forall_impl; [exact Hla|]. simpl. intros. lia.
Qed.

Lemma bootable_term c t v : storable t -> bootable c -> bootable (with_term_and_vote t v c).
Proof using. intros Ht []. split; [done|done|destruct bt_log0 as [i []]; exists i; by split|done]. Qed.

Lemma vote_step c : in_sync c last_stable f ->
  safe_ops c (vote_op o) /\ eventually c (vote_op o) = with_term_and_vote (f_current_term f) (f_voted_for f) c.
Proof using Hready Hrange Htaken.
  intros [Hb [Ht Hv] Hc Hla Hlog]. destruct log_facts as (_ & _ & _ & Hterm). unfold vote_op.
  rewrite (oo_term_and_vote _ _ _ (ot_output _ _ _ Htaken)). unfold output_term_and_vote.
  destruct (_ || _) eqn:Hchg; simpl.
  - split; [|done]. assert (fits (f_current_term f)) by (unfold fits; lia).
    apply (safe_ops_one c (op_term_and_vote _ _)); [done|done|done|by apply bootable_term].
  - split; [done|]. apply orb_false_iff in Hchg as [H1%negb_false_iff%Z.eqb_eq H2%negb_false_iff%N.eqb_eq].
    destruct c. unfold with_term_and_vote. simpl in *. congruence.
Qed.

Lemma snapshot_step c : in_sync c last_stable f ->
  let c1 := with_term_and_vote (f_current_term f) (f_voted_for f) c in
  safe_ops c1 (snapshot_op o) /\ caught_up stable last_stable (eventually c1 (snapshot_op o)).
Proof using Hready Hrange Htaken.
  intros [Hb Ht Hc Hla Hlog]. destruct log_facts as (Hl & Hst & Hlast & Hterm). pose proof Hl as [].
  set (c1 := with_term_and_vote _ _ c).
  assert (bootable c1) as Hb1 by (apply bootable_term; [unfold storable; lia|done]).
  destruct Hready as [_ Hrep [Hterms Hsnp] Hpend]. unfold pending_snapshot, reported_stable in *. unfold snapshot_op.
  rewrite (proj1 (oo_snp _ _ _ (ot_output _ _ _ Htaken))). destruct (o_snp (f_output f)) as [a|].
  - destruct Hpend as (local & -> & Hlocal), Hlog as (Hlt & (i & Hi & Hif) & Hcov). simpl.
    replace (snp_idx (l_snapshot l) - (snp_idx (l_snapshot l) + 1 - l_first_idx l)) with (l_first_idx l - 1) by lia.
    destruct (entries_above_consecutive i (l_first_idx l - 1) (c_log c)) as [_ Hcons]; [by destruct Hi|lia|].
    set (c2 := with_log _ _).
    assert (caught_up stable last_stable c2) as Hc2.
    { split; [|done|simpl; lia|].
      - split; [done| | | | |simpl; lia].
        + by destruct Hready as [[[_ _ _ [Hsm _] _ _] _] _ _ _].
        + by rewrite Z.sub_add in Hcons.
        + simpl. apply Forall_filter. by destruct Hb.
        + intros j e Hj He. simpl. unfold entries_above. apply list_elem_of_filter. split; [|by apply (Hcov j e)].
          rewrite (wf_idx _ _ He). assert (l_first_idx l <= j <= log_last l); [|lia]. apply entry_at_is_Some; eauto.
      - destruct Hla. split; [|done]. simpl. by apply Forall_filter. }
    split; [|done]. split_and!; [done|..|by intros c' []|by apply (caught_up_bootable stable last_stable); [lia|]|done];
      destruct Hsnp; unfold fits, storable in *; lia.
  - simpl. split; [done|]. destruct Hlog. split; [by split|done|simpl; lia|done].
Qed.

Lemma output_entries : segment l (stable + 1) (o_log_entries o) /\
  Z.of_nat (length (o_log_entries o)) = log_last l - stable /\ consecutive (stable + 1) (o_log_entries o) /\
  Forall storable_entry (o_log_entries o).
Proof using Hready Hrange Htaken.
  destruct log_facts as (Hl & _). destruct (oo_log_entries _ _ _ (ot_output _ _ _ Htaken)) as [Hseg Hlen].
  split_and!; [done|done|by apply (segment_consecutive l)|].
  destruct Hready as [[[_ _ _ [_ Hsm] _ _] _] _ [Hterms _] _]. rewrite Forall_forall in Hterms |- *. intros e He.
  apply (segment_elem _ _ _ _ Hseg) in He. split; [by apply Hterms|]. intros cfg. by apply Hsm.
Qed.

(** The first and the last of the new entries. *)
Lemma output_front e es : o_log_entries o = e :: es -> e_idx e = stable + 1.
Proof using Hready Hrange Htaken. intros He. destruct output_entries as (_ & _ & Hc & _). rewrite He in Hc. by destruct Hc. Qed.

Lemma output_back e : last (o_log_entries o) = Some e -> e_idx e = log_last l.
Proof using Hready Hrange Htaken.
  intros [es He]%last_Some. destruct output_entries as (_ & Hlen & Hc & _). rewrite He in Hlen, Hc.
  apply consecutive_app in Hc as [_ [Hi _]]. rewrite length_app in Hlen. simpl in *. lia.
Qed.

Lemma truncate_step c : caught_up stable last_stable c ->
  safe_ops c (truncate_op last_stable o) /\ caught_up stable last_stable (eventually c (truncate_op last_stable o)) /\
  (o_log_entries o <> [] -> Forall (fun e => e_idx e < stable + 1) (c_log (eventually c (truncate_op last_stable o)))).
Proof using Hready Hrange Htaken.
  intros Hc. destruct log_facts as (Hl & Hst & Hlast & _). pose proof Hl as [].
  assert (bootable c) as Hb by (apply (caught_up_bootable stable last_stable); [lia|done]).
  unfold truncate_op. destruct (o_log_entries o) as [|e es] eqn:He; [by split_and!|].
  rewrite (output_front e es He). destruct Hc as [Hm Ht Hcom [Hla Hlb]].
  destruct (Z.geb_spec last_stable (stable + 1)).
  2: { simpl. split_and!; [done|done|by split|]. intros _. eapply Forall_impl; [exact Hla|]. simpl. intros. lia. }
  assert (caught_up stable last_stable (with_log (entries_below (stable + 1) (c_log c)) c)) as Hc'.
  { split; [|done|done|split; [by apply Forall_filter|done]]. destruct Hm. split; simpl; try done.
    - rewrite (entries_below_consecutive (l_first_idx l)) by done. by apply consecutive_take.
    - by apply Forall_filter.
    - intros i e' Hi He'. apply list_elem_of_filter. split; [|by apply (ma_stable0 i)].
      rewrite (wf_idx _ _ He'). lia. }
  simpl. split_and!; [done|unfold fits; lia| |by apply (caught_up_bootable stable last_stable); [lia|]|done|done|].
  { intros c' [-> | ->]; [done|]. by apply (caught_up_bootable stable last_stable); [lia|]. }
  intros _. apply Forall_forall. intros e' [He' _]%list_elem_of_filter. done.
Qed.

Lemma entries_step c : caught_up stable last_stable c ->
  (o_log_entries o <> [] -> Forall (fun e => e_idx e < stable + 1) (c_log c)) ->
  safe_ops c (entries_op o) /\ caught_up (log_last l) (stored_up_to last_stable o) (eventually c (entries_op o)).
Proof using Hready Hrange Htaken.
  intros Hc Hlt. destruct log_facts as (Hl & Hst & Hlast & _). pose proof Hl as [].
  assert (bootable c) as Hb by (apply (caught_up_bootable stable last_stable); [lia|done]).
  destruct output_entries as (Hseg & Hlen & Hcons & Hsto). destruct Hc as [Hm Ht Hcom [Hla Hlb]].
  unfold entries_op, stored_up_to. destruct (last (o_log_entries o)) as [e|] eqn:He.
  2: { apply last_None in He. rewrite He in Hlen. simpl in *. split; [done|]. split; [|done..].
    by replace (log_last l) with stable by lia. }
  assert (o_log_entries o <> []) as Hne by (intros Hn; by rewrite Hn in He). specialize (Hlt Hne).
  rewrite (output_back e He). simpl. pose proof (matched_reaches _ _ _ Hl (proj2 Hst) Hm) as Hreach. destruct Hm.
  assert (l_first_idx l + Z.of_nat (length (c_log c)) = stable + 1) as Hend.
  { destruct (last (c_log c)) as [e'|] eqn:He'; [|apply last_None in He'; rewrite He' in *; simpl in *; lia].
    apply last_Some in He' as [es' He']. rewrite He' in ma_log0, Hlt, Hreach |- *.
    apply consecutive_app in ma_log0 as [_ [Hi _]]. apply Forall_app in Hlt as [_ [Hlt _]%Forall_cons].
    rewrite length_app in *. simpl in *. lia. }
  assert (caught_up (log_last l) (log_last l) (with_log (c_log c ++ o_log_entries o) c)) as Hc'.
  { split; [|done|done|].
    - split; simpl; try done; [apply consecutive_app; split; [done|by rewrite Hend]|by apply Forall_app| |lia].
      intros i e' Hi He'. apply elem_of_app. destruct (decide (i <= stable)); [left; by apply (ma_stable0 i)|right].
      destruct (lookup_lt_is_Some_2 (o_log_entries o) (Z.to_nat (i - (stable + 1)))) as [e'' Hk]; [lia|].
      pose proof (Hseg _ _ Hk) as Hk'. replace (stable + 1 + Z.of_nat (Z.to_nat (i - (stable + 1)))) with i in Hk' by lia.
      rewrite Hk' in He'. simplify_eq. by eapply list_elem_of_lookup_2.
    - split; [|lia]. simpl. apply Forall_app. split; [eapply Forall_impl; [exact Hlt|]; simpl; intros; lia|].
      apply Forall_forall. intros e' He'. pose proof (consecutive_elem _ _ _ Hcons He'). lia. }
  assert (forall n, bootable (with_log (c_log c ++ take n (o_log_entries o)) c)) as Hpart.
  { intros n. apply (caught_up_bootable stable (log_last l)); [lia|]. destruct Hc' as [[? ? Hlog' Hes' _ ?] ? ? [Hla' ?]]. simpl in *.
    split; [|done|done|].
    - split; simpl; try done; [|by apply Forall_app; split; [|apply Forall_take]|].
      + apply consecutive_app in Hlog' as [? ?]. apply consecutive_app. split; [done|by apply consecutive_take].
      + intros i e' Hi He'. apply elem_of_app. left. by apply (ma_stable0 i).
    - split; [|done]. simpl. apply Forall_app in Hla' as [? ?]. apply Forall_app. split; [done|by apply Forall_take]. }
  split; [|done]. split_and!; [done| |intros c' [n ->]; apply Hpart|apply (caught_up_bootable (log_last l) (log_last l)); [lia|done]|done].
  exists (stable + 1). split_and!; [done|lia|lia| |done].
  eapply Forall_impl; [exact Hsto|]. by intros e' [? _].
Qed.

Lemma committed_back e : last (o_committed o) = Some e -> e_idx e = f_commit_idx f.
Proof using Hready Hrange Htaken.
  intros [es He]%last_Some. destruct log_facts as (Hl & _).
  destruct (oo_committed _ _ _ (ot_output _ _ _ Htaken)) as [Hseg Hlen].
  apply (segment_consecutive l _ _ Hl) in Hseg. rewrite He in Hseg, Hlen.
  apply consecutive_app in Hseg as [_ [Hi _]]. rewrite length_app in Hlen. simpl in *. lia.
Qed.

(** When an output was taken, the operations it asks for can be done one after the
    other, and then the contents are up to date. *)
Lemma output_in_sync c : in_sync c last_stable f -> in_range f' ->
  safe_ops c (remaining store_vote last_stable o) /\
  in_sync (eventually c (remaining store_vote last_stable o)) (stored_up_to last_stable o) f'.
Proof using Hready Hrange Htaken.
  intros Hsync Hrange'. destruct log_facts as (Hl & Hst & Hlast & Hterm). pose proof Hl as [].
  destruct (vote_step c Hsync) as [S1 E1], (snapshot_step c Hsync) as [S2 C2].
  set (c2 := eventually _ (snapshot_op o)) in *. destruct (truncate_step c2 C2) as (S3 & C3 & L3).
  set (c3 := eventually _ (truncate_op _ _)) in *. destruct (entries_step c3 C3 L3) as [S4 C4].
  set (c4 := eventually _ (entries_op o)) in *.
  assert (bootable c4) as Hb4 by (apply (caught_up_bootable (log_last l) (stored_up_to last_stable o)); [lia|done]).
  pose proof Hready as [[[_ _ _ _ Hcm Hob] _] Hrep _ _]. unfold reported_stable in Hrep.
  destruct Htaken as [[] Hnone []]. destruct oo_observed as (Ho1 & Ho2 & Ho3).
  assert (safe_ops c4 (commit_op o) /\ bootable (eventually c4 (commit_op o)) /\
    exists i, eventually c4 (commit_op o) = with_commit i c4 /\ i <= f_commit_idx f) as (S5 & B5 & i & E5 & Hi).
  { unfold commit_op. destruct (last (o_committed o)) as [e|] eqn:He; simpl.
    - rewrite (committed_back e He). pose proof C4 as [Hm [Ht _] _ [Hla Hb]].
      assert (bootable (with_commit (f_commit_idx f) c4)) as Hb5.
      { apply (matched_bootable _ l (log_last l)); [done|lia| | |by destruct Hready as [_ _ [_ ?] _]|lia|].
        - destruct Hm. split; simpl; try done. lia.
        - simpl. rewrite Ht. unfold storable. lia.
        - eapply Forall_impl; [exact Hla|]. simpl. intros. lia. }
      split_and!; [done|unfold fits; lia|by intros c' [-> | ->]|done|done|done|]. by exists (f_commit_idx f).
    - split_and!; [done..|]. exists (c_commit c4). split; [by destruct c4|]. destruct C4. lia. }
  unfold remaining. rewrite !eventually_app, E1. fold c2 c3 c4. split.
  - apply safe_ops_app; [done|]. rewrite E1. apply safe_ops_app; [done|]. fold c2.
    apply safe_ops_app; [done|]. fold c3. by apply safe_ops_app.
  - destruct C4 as [Hm Ht Hcom Hla]. split; [done|rewrite E5; simpl; by rewrite Ho1, Ho2|rewrite E5; simpl; lia|by rewrite E5|].
    rewrite Hnone, oo_stable, E5. apply (matched_log _ l); [done|done| |].
    + intros j e Hj He. by rewrite (entry_at_prefix l (f_log f')) in He by (done || lia).
    + destruct Hm. split; simpl; try done. lia.
Qed.

Lemma output_ready : in_range f' -> fsm_ready f'.
Proof using Hready Hrange Htaken.
  intros [Ht' Hl']. destruct log_facts as (Hl & Hst & Hlast & Hterm).
  pose proof Hready as [[[_ _ _ _ Hcm Hob] _] Hrep [Hes Hsn] _].
  destruct Htaken as [[] Hnone []]. destruct oo_observed as (Ho1 & Ho2 & Ho3). split; [done| | |].
  - unfold reported_stable. lia.
  - split; [|by rewrite gn_snapshot]. rewrite Forall_forall in Hes |- *.
    intros e [?|?]%gn_terms; [by apply Hes|unfold storable; lia].
  - unfold pending_snapshot. rewrite Hnone, gn_snapshot. lia.
Qed.
End output_ops.

(** * Starting *)

Section starting.
Context {env : raft_env} {D : Type} {pers : persistence D}.

(** The log that is loaded from contents a server can be started from. *)
Lemma load_boot c m : bootable c -> exists l, make_log (c_snapshot c) (c_log c) m = Ret l /\ log_wf l /\
  l_snapshot l = c_snapshot c /\ l_log l = c_log c /\ l_stable_idx l = log_last l /\
  (exists k, log_last l <= k /\ conf_wf k l) /\ configs_small l /\ c_commit c <= log_last l /\
  log_last l + 1 < 2 ^ 63 /\ matched c l (log_last l).
Proof.
  intros [Ht (Hs0 & Hss & Hsm) [i []] Hes].
  destruct (make_log_correct (c_snapshot c) (c_log c) i m) as (l & Hl & Hwf & Hsn & Hlog & Hfi & Hst & Hlc & Hpc);
    [done..|unfold u64_modulus; lia|]. exists l.
  assert (log_last l = i + Z.of_nat (length (c_log c)) - 1) as Hlast by (unfold log_last; by rewrite Hfi, Hlog).
  pose proof Hwf as []. split_and!; try done; try lia.
  - exists (log_last l). split; [done|]. split; [done| | |].
    + destruct Hpc as [[? _]|]; [by left|by right].
    + intros Hp. left. destruct Hpc as [[_ ?]|[cs Hcs]]; [done|]. rewrite Hp in Hcs.
      pose proof (conf_indexes_bounds l 0 Hwf) as Hb. rewrite Hcs in Hb. rewrite Hsn in Hb.
      destruct Hb; [set_solver|lia].
    + intros cs j Hcs. apply Forall_forall. intros k Hk. destruct (conf_indexes_bounds l k Hwf); [|done].
      rewrite Hcs. set_solver.
  - split; [by rewrite Hsn|]. intros e cfg He Hcfg. rewrite Hlog in He. rewrite Forall_forall in Hes.
    by apply (Hes e He).
  - split; rewrite ?Hsn, ?Hfi; try done; [|lia].
    intros j e _ He. rewrite <- Hlog. by eapply entry_at_elem.
Qed.

Lemma fsm_start_grows : keeps grows fsm_start.
Proof.
  pose proof become_candidate_grows. pose proof reset_election_timeout_grows. unfold fsm_start. keeps_auto.
Qed.

(** The state machine that boots from [c], with the loaded log [l]. *)
Record booted (id : server_id) (c : contents) (l : log) (f : fsm) : Prop := {
  bo_wf : fsm_wf f;
  bo_my_id : f_my_id f = id;
  bo_observed : ob_current_term (f_observed f) = c_term c /\ ob_voted_for (f_observed f) = c_vote c /\
    ob_commit_idx (f_observed f) = snp_idx (c_snapshot c);
  bo_snapshot : l_snapshot (f_log f) = c_snapshot c;
  bo_entries : c_log c `prefix_of` l_log (f_log f);
  bo_stable : l_stable_idx (f_log f) = log_last l;
  bo_commit_idx : c_commit c <= f_commit_idx f;
  bo_sync : in_range f -> fsm_ready f /\ in_sync c (log_last l) f;
}.

Lemma make_fsm_boots id c m config : id <> no_id -> bootable c ->
  exists l f, make_log (c_snapshot c) (c_log c) m = Ret l /\ c_commit c <= l_stable_idx l /\ l_stable_idx l = log_last l /\
    (exists cfg, get_configuration l = Ret cfg) /\
    make_fsm id (c_term c) (c_vote c) l (c_commit c) config = Ret f /\ booted id c l f.
Proof.
  intros Hid Hb. destruct (load_boot c m Hb)
    as (l & Hl & Hwf & Hsn & Hlog & Hst & (k & Hk & Hconf) & Hsm & Hcom & Hroom & Hm).
  assert (boot_ok id (c_term c) l (c_commit c)) as Hboot.
  { destruct Hb as [[]]. split; try done; [unfold u64_modulus; lia|eauto|unfold u64_modulus; lia]. }
  pose proof (initial_fsm_wf id (c_term c) (c_vote c) l (c_commit c) config Hboot) as Hwf0.
  destruct (make_fsm_ok id (c_term c) (c_vote c) l (c_commit c) config Hboot) as (f & Hf & Hwff).
  exists l, f. split_and!; [done|lia|done|exists (effective_configuration l (log_last l)); by eapply get_configuration_correct|done|].
  unfold make_fsm in Hf. rewrite (proj2 (N.eqb_neq _ _) Hid) in Hf. set (f0 := initial_fsm _ _ _ _ _ _) in *.
  assert (grows f0 f /\ f_observed f = f_observed f0 /\ later f0 f) as (Hg & Hob & Hla).
  { pose proof (fsm_start_grows f0) as Hg. pose proof (fsm_start_observed f0) as Ho. pose proof (fsm_start_later f0) as Hla.
    unfold wp in *. destruct (fsm_start f0) as [[] f1]; simplify_eq. done. }
  pose proof Hg as []. pose proof Hla as []. pose proof Hwf as []. cbn in *.
  assert (reported_stable f0) as Hr0 by (unfold reported_stable; cbn; rewrite ?Hst; lia).
  split; [done|done|by rewrite Hob; cbn; rewrite Hsn|by rewrite gr_snapshot|by rewrite <- Hlog|by rewrite gr_stable|lia|].
  intros [Ht' Hl']. assert (moves f0 f) as Hmv by (apply grows_moves; [done|by destruct Hwff as [[]]|done|done|cbn; lia|done]).
  assert (in_range f0) as Hr.
  { destruct Hb as [[]]. split; cbn; [lia|]. apply prefix_length in gr_prefix. unfold log_last in *. rewrite gr_first in Hl'. lia. }
  assert (fsm_ready f0) as Hready.
  { split; [done|done| |unfold pending_snapshot; cbn; lia]. destruct Hb as [_ (_ & Hss & _) _ Hes].
    split; cbn; [|by rewrite Hsn]. rewrite Hlog. eapply Forall_impl; [exact Hes|]. by intros e []. }
  split; [by eapply moves_ready|]. apply (moves_in_sync _ _ f0); [done|done|].
  split; cbn; [done|done|lia| |by rewrite Hst].
  split; [|lia]. apply Forall_forall. intros e He. destruct Hm.
  pose proof (consecutive_elem _ _ _ ma_log0 He). unfold log_last. rewrite Hlog. lia.
Qed.

(** The snapshot that is loaded is the one that is held, up to what storage may lose. *)
Lemma recovered_snapshot s s' : strip_snapshot s = strip_snapshot s' -> same_snapshot s s' /\
  (config_small (snp_config s') -> config_small (snp_config s)).
Proof.
  destruct s as [i t [cur prev] id], s' as [i' t' [cur' prev'] id']. unfold strip_snapshot, strip_configuration, strip_members.
  cbn. intros [= -> -> Hc Hp ->]. split; [done|]. apply (f_equal size) in Hc, Hp. rewrite !map_size_fmap in Hc, Hp.
  unfold config_small. cbn. by rewrite Hc, Hp.
Qed.

Lemma bootable_recovered c s : strip_snapshot s = strip_snapshot (c_snapshot c) -> bootable c ->
  bootable (with_snapshot_descriptor s c).
Proof.
  intros [(Hi & Ht & Hn) Hsm]%recovered_snapshot [? (? & ? & ?) [i []] ?]. unfold storable_snapshot in *.
  split; cbn; [done|unfold storable_snapshot; rewrite Hi, Ht, Hn; auto|exists i; split; cbn; rewrite ?Hi; done|done].
Qed.

Lemma in_sync_recovered c s last_stable f : strip_snapshot s = strip_snapshot (c_snapshot c) -> bootable c ->
  in_sync (with_snapshot_descriptor s c) last_stable f -> in_sync c last_stable f.
Proof.
  intros [(Hi & Ht & Hn) _]%recovered_snapshot Hb [? ? ? ? Hlog]. split; [done..|]. cbn in *. destruct (o_snp (f_output f)).
  - destruct Hlog as (? & (i & [] & ?) & ?). cbn in *. split_and!; [lia| |done]. exists i. split; [split|]; cbn; rewrite <- ?Hi; done.
  - destruct Hlog as [(? & ? & ?) ? ? ? ? ?]. unfold same_snapshot in *. cbn in *. destruct Hb as [_ (_ & _ & ?) _ _].
    split; cbn; try done. unfold same_snapshot. split_and!; congruence.
Qed.

Lemma make_fsm_booted id c s m config : id <> no_id -> bootable c -> strip_snapshot s = strip_snapshot (c_snapshot c) ->
  exists l f, make_log s (c_log c) m = Ret l /\ c_commit c <= l_stable_idx l /\ l_stable_idx l = log_last l /\
    (exists cfg, get_configuration l = Ret cfg) /\
    make_fsm id (c_term c) (c_vote c) l (c_commit c) config = Ret f /\ booted id (with_snapshot_descriptor s c) l f /\
    (in_range f -> in_sync c (log_last l) f).
Proof.
  intros Hid Hb Hs. destruct (make_fsm_boots id (with_snapshot_descriptor s c) m config Hid (bootable_recovered c s Hs Hb))
    as (l & f & ? & ? & ? & ? & ? & Hbo). exists l, f. split_and!; try done.
  intros Hr. apply (in_sync_recovered c s); [done|done|]. by apply Hbo.
Qed.
End starting.
