(* ===== verification/RaftServerTheory.v ===== *)
(** The invariant of a server ([RaftServer]): what is on disk, what the applier is
    about to do and what clients wait for fit the state machine, whatever the
    order in which the fibers and the calls of others run. *)
From S2P Require Import Prelude RaftTypes RaftLog RaftTracker RaftFsm RaftMonotone RaftReplication.
From S2P Require Import RaftInvariant RaftSafety RaftApi RaftTheorems RaftElection.
From S2P Require Import RaftStorage RaftWaiters RaftServer RaftGrowth RaftDurability.

(** * The queue of the applier *)

(** The messages [ms] take an applier that has applied everything up to [i] to [j]:
    batches continue where the applier stands, snapshots are ahead of it. *)
Fixpoint leads (i : index_t) (ms : list applier_message) (j : index_t) : Prop :=
  match ms with
  | [] => i = j
  | apply_batch es :: ms => es <> [] /\ consecutive (i + 1) es /\ Forall (fun e => storable (e_term e)) es /\
      leads (i + Z.of_nat (length es)) ms j
  | apply_descriptor snp :: ms => i <= snp_idx snp /\ leads (snp_idx snp) ms j
  | removed_from_config :: ms | trigger_snapshot_msg :: ms => leads i ms j
  end.

Lemma leads_app i ms ms' j : leads i (ms ++ ms') j <-> exists k, leads i ms k /\ leads k ms' j.
Proof.
  revert i. induction ms as [|m ms IH]; intros i; simpl; [naive_solver|].
  destruct m; rewrite ?IH; naive_solver.
Qed.

Lemma leads_le i ms j : leads i ms j -> i <= j.
Proof.
  revert i. induction ms as [|m ms IH]; intros i; simpl; [lia|].
  destruct m; [intros (_ & _ & _ & ?%IH)|intros (? & ?%IH)|intros ?%IH..]; lia.
Qed.

(** What [process_fsm_output] has still to push. *)
Definition snapshot_push (b : fsm_output) : list applier_message :=
  match o_snp b with Some (AppliedSnapshot snp false _) => [apply_descriptor snp] | _ => [] end.
Definition batch_push (b : fsm_output) : list applier_message :=
  match o_committed b with [] => [] | es => [apply_batch es] end.
Definition to_push (io : io_state) : list applier_message :=
  match io with
  | io_busy (store_vote | store_snapshot | push_snapshot) b _ => snapshot_push b ++ batch_push b
  | io_busy (truncate | store_entries | send_messages | push_committed) b _ => batch_push b
  | _ => []
  end.

(** The entries reported as committed continue what was reported before. *)
Lemma output_leads `{raft_env} f o f' : fsm_ready f -> output_taken f o f' ->
  leads (ob_commit_idx (f_observed f)) (snapshot_push o ++ batch_push o) (ob_commit_idx (f_observed f')).
Proof.
  intros [[[_ Hl _ _ Hc Hob] _] _ [Hterms _] Hp] [[] _ _]. destruct oo_observed as (_ & _ & ->), oo_snp as [Hsnp _].
  destruct oo_committed as [Hseg Hlen]. pose proof (segment_consecutive _ _ _ Hl Hseg) as Hcons.
  assert (leads (reported_commit f) (batch_push o) (f_commit_idx f)) as Hbatch.
  { unfold batch_push. destruct (o_committed o) as [|e es] eqn:He; [simpl in *; lia|].
    split_and!; [done|done| |simpl in *; lia]. rewrite Forall_forall in Hterms |- *. intros e' He'.
    by apply Hterms, (segment_elem _ _ _ _ Hseg). }
  apply leads_app. exists (reported_commit f). split; [|done].
  unfold snapshot_push. rewrite Hsnp. unfold pending_snapshot, reported_commit in *.
  destruct (o_snp (f_output f)) as [a|]; simpl; [|lia]. destruct Hp as ([] & -> & Hlocal); simpl; lia.
Qed.

(** * Code that always returns *)

Definition returns {S E A} (m : M S E A) : Prop := forall s, exists a s', m s = (Ret a, s').

Section returns.
Context {S E : Type}.

Lemma returns_ret {A} (a : A) : returns (mret a : M S E A).
Proof. intros s. by exists a, s. Qed.
Lemma returns_gets {A} (g : S -> A) : returns (gets g : M S E A).
Proof. intros s. by exists (g s), s. Qed.
Lemma returns_modify (g : S -> S) : returns (modify g : M S E unit).
Proof. intros s. by exists tt, (g s). Qed.
Lemma returns_bind {A B} (m : M S E A) (k : A -> M S E B) : returns m -> (forall a, returns (k a)) -> returns (m ≫= k).
Proof.
  intros Hm Hk s. destruct (Hm s) as (a & s' & Hs). destruct (Hk a s') as (b & s'' & Hs').
  exists b, s''. unfold mbind, M_bind. by rewrite Hs.
Qed.
Lemma returns_when b (m : M S E unit) : returns m -> returns (when b m).
Proof. by destruct b; [|intros _; apply returns_ret]. Qed.
Lemma returns_for_each {Y} (l : list Y) (body : Y -> M S E unit) : (forall y, returns (body y)) -> returns (for_each l body).
Proof. intros Hb. induction l as [|y l IH]; [apply returns_ret|]. apply returns_bind; [apply Hb|]. by intros []. Qed.

Lemma returns_for_each_in {Y} (l : list Y) (body : Y -> M S E unit) : (forall y, y ∈ l -> returns (body y)) -> returns (for_each l body).
Proof.
  induction l as [|y l IH]; intros Hb; [apply returns_ret|]. apply returns_bind; [apply Hb; set_solver|]. intros [].
  apply IH. intros z Hz. apply Hb. set_solver.
Qed.

(** The call rule for code that returns and keeps a relation. *)
Lemma wp_returning {A} (R : S -> S -> Prop) (m : M S E A) (Q : A -> S -> Prop) X B s : keeps R m -> returns m ->
  (forall a s', R s s' -> Q a s') -> wp m Q X B s.
Proof. intros Hk Hr HQ. destruct (Hr s) as (a & s' & Hs). unfold wp. rewrite Hs. by eapply HQ, keeps_final. Qed.
End returns.

Create HintDb returns discriminated.
#[export] Hint Resolve returns_ret returns_gets returns_modify : returns.
Ltac returns_step :=
  match goal with
  | |- returns (mbind _ _) => apply returns_bind; [|intros ?]
  | |- returns (when _ _) => apply returns_when
  | |- returns (for_each _ _) => apply returns_for_each; intros ?
  | |- returns (match ?x with _ => _ end) => destruct x
  | |- returns _ => solve [auto with returns]
  end.
Ltac returns_auto := repeat returns_step.

(** * The invariant *)

Section server_theory.
Context {env : raft_env} {D : Type} {pers : persistence D}.
Implicit Types (s : server (D := D)) (c : contents).

(** Where the applier stands when it is done with what it does. *)
Definition position s : index_t :=
  match s_applier s with
  | applying batch => match last batch with Some e => e_idx e | None => s_applied_idx s end
  | loading_snapshot snp => snp_idx snp
  | _ => s_applied_idx s
  end.

(** The index up to which clients have been told about commits. *)
Definition told s : index_t :=
  match s_applier s with
  | applying batch => match last batch with Some e => e_idx e | None => s_applied_idx s end
  | _ => s_applied_idx s
  end.

Definition applier_state_ok (applied : index_t) (a : applier_state) : Prop :=
  match a with
  | applying batch => batch <> [] /\ consecutive (applied + 1) batch /\ Forall (fun e => storable (e_term e)) batch
  | taking_snapshot snp | triggered_snapshot snp =>
    snp_idx snp = applied /\ storable (snp_term snp) /\ config_small (snp_config snp)
  | loading_snapshot snp => applied <= snp_idx snp
  | applier_idle | applier_stopped => True
  end.

(** The snapshot that is being taken has the configuration in force at its index, as
    long as the log reaches that far back. *)
Definition described (l : log) (a : applier_state) : Prop :=
  match a with
  | taking_snapshot snp | triggered_snapshot snp =>
    snp_idx (l_snapshot l) < snp_idx snp -> snp_config snp = effective_configuration l (snp_idx snp)
  | _ => True
  end.

Record applier_ok s : Prop := {
  ap_state : applier_state_ok (s_applied_idx s) (s_applier s);
  ap_applied : 0 <= s_applied_idx s;
  ap_reported : position s <= ob_commit_idx (f_observed (s_fsm s));
  ap_queue : s_aborted s = false -> s_applier s <> applier_stopped -> exists j, leads (position s) (s_apply_entries s ++ to_push (s_io s)) j /\
    j <= ob_commit_idx (f_observed (s_fsm s)) /\
    (s_io s <> io_stopped -> j = ob_commit_idx (f_observed (s_fsm s)));
  ap_config : described (f_log (s_fsm s)) (s_applier s);
}.

Record waiters_ok s : Prop := {
  wo_waiting : waiting_ok (s_applied_idx s) (s_waiters s);
  wo_commits : all_above (told s) (w_awaited_commits (s_waiters s));
}.

(** The order of the phases. *)
Definition rank (phase : io_phase) : nat :=
  match phase with
  | store_vote => 0
  | store_snapshot => 1
  | push_snapshot => 2
  | truncate => 3
  | store_entries => 4
  | send_messages => 5
  | push_committed => 6
  | finish_reads => 7
  | finish _ => 8
  end.

(** What the output in work has already brought to disk. *)
Record persisted (phase : io_phase) (b : fsm_output) (c : contents) : Prop := {
  pe_vote : (0 < rank phase)%nat -> match o_term_and_vote b with
    | Some (t, v) => c_term c = t /\ c_vote c = v
    | None => True
    end;
  pe_snapshot : (1 < rank phase)%nat -> match o_snp b with
    | Some (AppliedSnapshot snp _ _) => c_snapshot c = snp
    | None => True
    end;
  pe_entries : (4 < rank phase)%nat -> o_log_entries b `suffix_of` c_log c;
}.

Definition disk_ok s c : Prop :=
  match s_io s with
  | io_busy phase b _ =>
    safe_ops c (remaining phase (s_last_stable s) b) /\
    in_sync (eventually c (remaining phase (s_last_stable s) b)) (final_stable phase (s_last_stable s) b) (s_fsm s) /\
    persisted phase b c
  | io_stopped => bootable c
  | io_idle | io_requests => in_sync c (s_last_stable s) (s_fsm s)
  end.

(** The fiber has stopped in the middle of storing a snapshot descriptor: no more is
    known of the disk than which writes were done. *)
Definition torn s : Prop :=
  s_io s = io_stopped /\ exists d c snp preserve k, holds d c /\ bootable c /\
    op_valid c (op_snapshot_descriptor snp preserve) /\
    s_disk s = perform_upto k (op_snapshot_descriptor snp preserve) d.

Record server_ok s : Prop := {
  so_id : s_id s <> no_id;
  so_config : 0 <= sc_snapshot_trailing (s_config s) /\ 0 <= sc_snapshot_trailing_size (s_config s);
  so_fsm : fsm_ready (s_fsm s);
  so_applier : applier_ok s;
  so_waiters : waiters_ok s;
  so_disk : (exists c, holds (s_disk s) c /\ disk_ok s c) \/ torn s;
}.

(** The part of it that a client may rely on even when numbers run out of range. *)
Record machine_ok s : Prop := {
  mo_wf : fsm_wf (s_fsm s);
  mo_applied : s_applied_idx s <= told s;
  mo_told : told s <= f_commit_idx (s_fsm s);
  mo_waiters : waiters_ok s;
}.

Definition stays_ok s : Prop := machine_ok s /\ (in_range (s_fsm s) -> server_ok s).

(** ** What does not touch it *)

Definition core s :=
  (s_id s, s_config s, s_fsm s, s_disk s, s_last_stable s, s_applied_idx s, s_apply_entries s, s_io s, s_applier s,
   s_aborted s).

Record same s s' : Prop := {
  sm_core : core s' = core s;
  sm_waiting type : container type (s_waiters s') = container type (s_waiters s);
}.

#[global] Instance same_preorder : PreOrder same.
Proof. split; [by split|]. intros s s' s'' [] []. split; [congruence|]. intros type. by rewrite sm_waiting1. Qed.

Lemma waiters_ok_same s s' : same s s' -> waiters_ok s -> waiters_ok s'.
Proof.
  intros [[= _ _ _ _ _ Ha _ _ Hap _] Hw] [[Ho Hab] Hc]. split; [split; intros type; rewrite Hw|]; [done|by rewrite Ha|].
  unfold told. rewrite Ha, Hap. specialize (Hw wait_committed). simpl in Hw. by rewrite Hw.
Qed.

Lemma server_ok_same s s' : same s s' -> server_ok s -> server_ok s'.
Proof.
  intros Hs []. pose proof (waiters_ok_same _ _ Hs so_waiters0) as Hw. destruct Hs as [Hc _].
  destruct s, s'. unfold core in Hc. simpl in *. simplify_eq.
  split; [done|done|done| |done|done]. by destruct so_applier0.
Qed.

Lemma stays_ok_same s s' : same s s' -> stays_ok s -> stays_ok s'.
Proof.
  intros Hs [[] Hok]. pose proof Hs as [[= _ _ Hf _ _ Ha _ _ Hap _] _]. split.
  - split; [by rewrite Hf|unfold told in *; by rewrite Ha, Hap|unfold told in *; by rewrite Ha, Hap, Hf|by eapply waiters_ok_same].
  - intros Hr. rewrite Hf in Hr. eapply server_ok_same; [exact Hs|auto].
Qed.

Lemma machine_of s : server_ok s -> machine_ok s.
Proof.
  intros [_ _ [Hwf _ _ _] [Hst _ Hr _ _] Hw _]. pose proof Hwf as [[_ _ _ _ _ Hob] _].
  assert (s_applied_idx s <= told s <= position s) as [? ?].
  { unfold position, told, applier_state_ok in *. destruct (s_applier s); try lia.
    destruct Hst as (Hne & Hc & _). destruct (last batch) as [e|] eqn:He; [|lia].
    apply last_Some in He as [es ->]. apply consecutive_app in Hc as [_ [Hi _]]. lia. }
  split; [done|lia|lia|done].
Qed.

Lemma ok_stays s : server_ok s -> stays_ok s.
Proof. intros Hs. split; [by apply machine_of|done]. Qed.

(** Where the applier stands is reported. *)
Lemma described_kept s f' : applier_ok s -> snp_idx (l_snapshot (f_log (s_fsm s))) <= snp_idx (l_snapshot (f_log f')) ->
  (forall i, snp_idx (l_snapshot (f_log f')) < i <= ob_commit_idx (f_observed (s_fsm s)) ->
    effective_configuration (f_log f') i = effective_configuration (f_log (s_fsm s)) i) ->
  described (f_log f') (s_applier s).
Proof.
  intros [Hst _ Hpos _ Hd] Hle Hc. unfold described, applier_state_ok, position in *. destruct (s_applier s); try done;
    (intros Hi; rewrite Hc by (destruct Hst; lia); apply Hd; lia).
Qed.

(** A call of the state machine. *)
Lemma stays_moved s f' : server_ok s -> in_range (s_fsm s) -> fsm_wf f' -> moves (s_fsm s) f' ->
  stays_ok (s_set_fsm f' s).
Proof.
  intros Hs Hr Hwf' Hm. pose proof (machine_of s Hs) as []. pose proof Hm as []. split.
  - split; unfold told in *; simpl; [done|lia|lia|by destruct mo_waiters0].
  - simpl. intros Hr'. destruct Hs as [? ? Hready Happ Hw Hdisk].
    split; simpl; [done|done|by eapply moves_ready| |by destruct Hw|].
    + assert (described (f_log f') (s_applier s)) as Hdesc.
      { apply described_kept; [done| |done]. destruct mv_snapshot as [(-> & _)|(local & _ & ? & _)]; lia. }
      destruct Happ. split; simpl; [done|done|by rewrite mv_observed|by rewrite mv_observed|done].
    + destruct Hdisk as [(c & Hc & Hd)|?]; [left|by right]. exists c. split; [done|]. unfold disk_ok in *. simpl. destruct (s_io s); try done.
      * by eapply moves_in_sync.
      * destruct Hd as (H1 & H2 & H3). split_and!; [done|by eapply moves_in_sync|done].
      * by eapply moves_in_sync.
Qed.

(** ** Operations that do not touch it *)

Definition same_waiting (w w' : waiters) : Prop := forall type, container type w' = container type w.
#[local] Instance same_waiting_preorder : PreOrder same_waiting.
Proof. split; [done|]. intros w w' w'' H1 H2 type. by rewrite H2. Qed.

Lemma on_waiters_same {A} (m : M waiters server_error A) : keeps same_waiting m -> keeps same (on_waiters m).
Proof.
  intros Hm s. specialize (Hm (s_waiters s)). unfold wp, on_waiters in *.
  destruct (m (s_waiters s)) as [[] w]; [by split..|done].
Qed.

Hint Extern 1 (keeps same_waiting (modify _)) => apply keeps_modify; intros ? []; reflexivity : keeps.
Hint Extern 1 (keeps same (modify _)) => apply keeps_modify; intros; by split : keeps.
Hint Resolve on_waiters_same : keeps.

Lemma settle_same get reset r : (forall p w, same_waiting w (reset p w)) -> keeps same_waiting (settle get reset r).
Proof.
  intros Hr. unfold settle. apply keeps_bind; [apply _|apply keeps_gets, _|]. intros [p|]; [|apply keeps_ret, _].
  apply keeps_modify. intros w type. by rewrite Hr, container_resolve.
Qed.
Hint Extern 1 (keeps same_waiting (settle _ _ _)) => apply settle_same; intros ? ? []; reflexivity : keeps.

Tactic Notation "unfold_keeps" reference(m) := unfold m; keeps_auto.

Lemma new_promise_same : keeps same_waiting new_promise.
Proof. unfold_keeps new_promise. Qed.
Hint Resolve new_promise_same : keeps.
Lemma complete_reads_same i : keeps same_waiting (complete_reads i).
Proof. unfold complete_reads. destruct i; keeps_auto. Qed.
Lemma fail_reads_same l : keeps same_waiting (fail_reads l).
Proof. unfold_keeps fail_reads. Qed.
Lemma push_read_same id idx : keeps same_waiting (push_read id idx).
Proof. unfold_keeps push_read. Qed.
Lemma signal_applied_same i : keeps same_waiting (signal_applied i).
Proof. unfold_keeps signal_applied. Qed.
Lemma check_not_aborted_same b : keeps same_waiting (check_not_aborted b).
Proof. unfold_keeps check_not_aborted. Qed.
Hint Resolve complete_reads_same fail_reads_same push_read_same signal_applied_same check_not_aborted_same : keeps.
Lemma wait_for_apply_same a b r i : keeps same_waiting (wait_for_apply a b r i).
Proof. unfold_keeps wait_for_apply. Qed.
Lemma wait_for_state_change_same : keeps same_waiting wait_for_state_change.
Proof. unfold wait_for_state_change, share. keeps_auto. Qed.
Lemma wait_for_next_tick_same b : keeps same_waiting (wait_for_next_tick b).
Proof. unfold wait_for_next_tick, share. keeps_auto. Qed.
Lemma wait_for_leader_same f : keeps same_waiting (wait_for_leader f).
Proof. unfold wait_for_leader, share. keeps_auto. Qed.
Lemma abort_promises_same : keeps same_waiting abort_promises.
Proof. unfold_keeps abort_promises. Qed.
Hint Resolve wait_for_apply_same wait_for_state_change_same wait_for_next_tick_same wait_for_leader_same
  abort_promises_same : keeps.

Lemma on_links_same g : keeps same (on_links g).
Proof. unfold_keeps on_links. Qed.
Lemma call_machine_same m : keeps same (call_machine m).
Proof. unfold_keeps call_machine. Qed.
Lemma handle_background_error_same : keeps same handle_background_error.
Proof. unfold_keeps handle_background_error. Qed.
Hint Resolve on_links_same call_machine_same handle_background_error_same : keeps.
Lemma send_message_same dst m : keeps same (send_message dst m).
Proof. unfold send_message, send_snapshot. destruct m; keeps_auto. Qed.
Lemma append_request_sent_same dst : keeps same (append_request_sent dst).
Proof. unfold_keeps append_request_sent. Qed.
Lemma abort_snapshot_transfer_same id : keeps same (abort_snapshot_transfer id).
Proof. unfold_keeps abort_snapshot_transfer. Qed.
Lemma abort_snapshot_transfers_same : keeps same abort_snapshot_transfers.
Proof. unfold_keeps abort_snapshot_transfers. Qed.
Hint Resolve send_message_same append_request_sent_same abort_snapshot_transfer_same abort_snapshot_transfers_same : keeps.
Lemma process_messages_same b : keeps same (process_messages b).
Proof. unfold process_messages, add_to_rpc_config, remove_from_rpc_config. keeps_auto. Qed.
Lemma ensure_not_aborted_same : keeps same ensure_not_aborted.
Proof. unfold_keeps ensure_not_aborted. Qed.
Hint Resolve process_messages_same ensure_not_aborted_same : keeps.

(** ** The io fiber *)

(** [s] with the fields that the io fiber changes. *)
Definition io_update (io : io_state) (d : D) (last_stable : index_t) (q : list applier_message) s : server :=
  s_set_io io (s_set_apply_entries q (s_set_last_stable last_stable (s_set_disk d s))).

Lemma io_update_ok s io d last_stable q : server_ok s -> io <> io_stopped -> s_io s <> io_stopped ->
  (s_aborted s = false -> forall i j, leads i (s_apply_entries s ++ to_push (s_io s)) j -> leads i (q ++ to_push io) j) ->
  (forall c, holds (s_disk s) c -> disk_ok s c ->
    exists c', holds d c' /\ disk_ok (io_update io d last_stable q s) c') ->
  server_ok (io_update io d last_stable q s).
Proof.
  intros [] Hio Hio' Hq Hd. split; [done|done|done| |by destruct so_waiters0|].
  - destruct so_applier0. split; [done|done|done| |done]. cbn. intros Ha Hst. specialize (ap_queue0 Ha Hst) as (j & Hj & Hle & Heq).
    exists j. split_and!; [by apply Hq|done|]. intros _. by apply Heq.
  - destruct so_disk0 as [(c & Hc & Hok)|[? _]]; [left|done]. by destruct (Hd c Hc Hok) as (c' & ? & ?); exists c'.
Qed.

Lemma io_stopped_ok s : server_ok s -> server_ok (s_set_io io_stopped s).
Proof.
  intros []. split; [done|done|done| |by destruct so_waiters0|].
  - destruct so_applier0. split; [done|done|done| |done]. cbn. intros Ha Hst. specialize (ap_queue0 Ha Hst) as (j & Hj & Hle & _).
    apply leads_app in Hj as (k & Hk & Hkj%leads_le). exists k. rewrite app_nil_r. split_and!; [done|lia|done].
  - destruct so_disk0 as [(c & Hc & Hok)|[_ Ht]]; [left|by right]. exists c. split; [done|]. unfold disk_ok in *. cbn.
    destruct (s_io s); [by destruct Hok| |by destruct Hok|done].
    destruct Hok as (Hsafe & _). by eapply safe_ops_here.
Qed.

(** A storage operation fails after some of its writes. *)
Definition halts s : Prop := server_ok (s_set_io io_stopped s).

Lemma persist_op_halts s k o ops phase b req : server_ok s -> s_io s = io_busy phase b req ->
  remaining phase (s_last_stable s) b = o :: ops -> halts (s_set_disk (perform_upto k o (s_disk s)) s).
Proof.
  intros Hs Hio Hrem. pose proof (io_stopped_ok s Hs) as []. split; [done|done|done|by destruct so_applier0|by destruct so_waiters0|].
  destruct Hs as [_ _ _ _ _ [(c & Hc & Hok)|[? _]]]; [|by rewrite Hio in *]. unfold disk_ok in Hok. rewrite Hio, Hrem in Hok.
  destruct Hok as ((Hb & Hv & Hpart & _) & _ & _). destruct (stores_snapshot o) eqn:Ho.
  - destruct o as [| |snp preserve| |]; try done. right. split; [done|]. by exists (s_disk s), c, snp, preserve, k.
  - left. destruct (perform_upto_ok _ _ o k Hc Hv Ho) as (c' & Hp & Hc'). exists c'. split; [done|]. by apply Hpart.
Qed.

Lemma stays_io_stopped s : stays_ok s -> stays_ok (s_set_io io_stopped s).
Proof. intros [[] Hok]. split; [split; try done; by destruct mo_waiters0|]. intros Hr. by apply io_stopped_ok, Hok. Qed.

(** The operation at the head of what is left is done. *)
Lemma phase_done s phase phase' b req d last_stable q : server_ok s -> s_io s = io_busy phase b req ->
  (forall i j, leads i (s_apply_entries s ++ to_push (s_io s)) j -> leads i (q ++ to_push (io_busy phase' b req)) j) ->
  (forall c, holds (s_disk s) c -> safe_ops c (remaining phase (s_last_stable s) b) -> persisted phase b c ->
    exists c', holds d c' /\ safe_ops c' (remaining phase' last_stable b) /\ persisted phase' b c' /\
      eventually c' (remaining phase' last_stable b) = eventually c (remaining phase (s_last_stable s) b)) ->
  final_stable phase' last_stable b = final_stable phase (s_last_stable s) b ->
  server_ok (io_update (io_busy phase' b req) d last_stable q s).
Proof.
  intros Hs Hio Hq Hd Hf. apply io_update_ok; [done|done|by rewrite Hio|done|].
  intros c Hc. unfold disk_ok. rewrite Hio. intros (H1 & H2 & H3).
  destruct (Hd c Hc H1 H3) as (c' & Hc' & Hs' & Hp' & He'). exists c'. split; [done|]. cbn.
  by rewrite Hf, He'.
Qed.

Lemma perform_head d c o ops : holds d c -> safe_ops c (o :: ops) ->
  holds (perform o d) (op_promises o c) /\ safe_ops (op_promises o c) ops.
Proof. intros Hd (_ & Hv & _ & Hs). split; [by apply perform_ok|done]. Qed.

(** The step to [phase'] with the disk [d], the last stable index [ls] and the queue [q]. *)
Ltac to_phase d ls q s :=
  match goal with
  | Hio : s_io s = io_busy ?phase ?b ?req |- server_ok (s_set_io (io_busy ?phase' ?b ?req) _) =>
    apply (server_ok_same (io_update (io_busy phase' b req) d ls q s)); [by split|];
    apply (phase_done s phase phase' b req); [done|done|rewrite Hio; simpl| |]
  end.

Lemma store_vote_ok fails s b req : server_ok s -> s_io s = io_busy store_vote b req ->
  wp (process_fsm_output fails store_vote b req) (fun _ => server_ok) (fun _ => halts) (fun _ => False) s.
Proof.
  intros Hs Hio. cbn [process_fsm_output]. unfold next_phase, persist_op.
  destruct (o_term_and_vote b) as [[t v]|] eqn:Hb; [destruct fails as [k|]|]; wp_auto.
  - eapply persist_op_halts; [done|done|]. unfold remaining, vote_op. by rewrite Hb.
  - to_phase (perform (op_term_and_vote t v) (s_disk s)) (s_last_stable s) (s_apply_entries s) s; [done| |done].
    intros c Hc Hsafe _. unfold remaining, vote_op in *. rewrite Hb in *.
    destruct (perform_head _ _ _ _ Hc Hsafe) as [Hc' Hsafe']. eexists. split_and!; [exact Hc'|exact Hsafe'| |done].
    split; simpl; [by rewrite Hb|lia..].
  - to_phase (s_disk s) (s_last_stable s) (s_apply_entries s) s; [done| |done].
    intros c Hc Hsafe _. exists c. unfold remaining, vote_op in *. rewrite Hb in *. split_and!; [done|done| |done].
    split; simpl; [by rewrite Hb|lia..].
Qed.

Lemma store_snapshot_ok fails s b req : server_ok s -> s_io s = io_busy store_snapshot b req ->
  wp (process_fsm_output fails store_snapshot b req) (fun _ => server_ok) (fun _ => halts) (fun _ => False) s.
Proof.
  intros Hs Hio. cbn [process_fsm_output]. unfold next_phase, persist_op.
  destruct (o_snp b) as [[snp local k]|] eqn:Hb; [destruct fails as [n|]|]; wp_auto.
  - eapply persist_op_halts; [done|done|]. unfold remaining, snapshot_op. by rewrite Hb.
  - to_phase (perform (op_snapshot_descriptor snp k) (s_disk s)) (s_last_stable s) (s_apply_entries s) s; [done| |done].
    intros c Hc Hsafe []. unfold remaining, snapshot_op in *. rewrite Hb in *.
    destruct (perform_head _ _ _ _ Hc Hsafe) as [Hc' Hsafe']. eexists. split_and!; [exact Hc'|exact Hsafe'| |done].
    split; simpl; [intros _; apply pe_vote0; simpl; lia|by rewrite Hb|lia].
  - to_phase (s_disk s) (s_last_stable s) (s_apply_entries s) s; [done| |done].
    intros c Hc Hsafe []. exists c. unfold remaining, snapshot_op in *. rewrite Hb in *. split_and!; [done|done| |done].
    split; simpl; [intros _; apply pe_vote0; simpl; lia|by rewrite Hb|lia].
Qed.

(** A phase that only pushes. *)
Lemma later_phase phase phase' b c : (1 < rank phase)%nat -> (rank phase < rank phase')%nat ->
  ((4 < rank phase)%nat \/ (rank phase' <= 4)%nat) -> persisted phase b c -> persisted phase' b c.
Proof. intros H1 H2 H3 []. split; intros Hr; [apply pe_vote0|apply pe_snapshot0|apply pe_entries0]; lia. Qed.

Lemma push_snapshot_ok fails s b req : server_ok s -> s_io s = io_busy push_snapshot b req ->
  wp (process_fsm_output fails push_snapshot b req) (fun _ => server_ok) (fun _ => halts) (fun _ => False) s.
Proof.
  intros Hs Hio. cbn [process_fsm_output]. unfold next_phase, push.
  assert (forall d c, holds d c -> safe_ops c (remaining push_snapshot (s_last_stable s) b) -> persisted push_snapshot b c ->
    exists c', holds d c' /\ safe_ops c' (remaining truncate (s_last_stable s) b) /\ persisted truncate b c' /\
      eventually c' (remaining truncate (s_last_stable s) b) = eventually c (remaining push_snapshot (s_last_stable s) b)) as Hd.
  { intros d c Hc Hsafe Hp. exists c. split_and!; [done|done| |done]. eapply later_phase; [..|done]; simpl; lia. }
  destruct (o_snp b) as [[snp [] k]|] eqn:Hb; cbn [negb when]; wp_auto.
  - to_phase (s_disk s) (s_last_stable s) (s_apply_entries s) s; [|by apply Hd|done]. unfold snapshot_push. by rewrite Hb.
  - destruct (s_aborted s); wp_auto; [by apply io_stopped_ok|].
    to_phase (s_disk s) (s_last_stable s) (s_apply_entries s ++ [apply_descriptor snp]) s; [|by apply Hd|done].
    intros i j. unfold snapshot_push. by rewrite Hb, <- (assoc_L (++)).
  - to_phase (s_disk s) (s_last_stable s) (s_apply_entries s) s; [|by apply Hd|done]. unfold snapshot_push. by rewrite Hb.
Qed.

Lemma on_waiters_returns {A} (m : M waiters server_error A) : returns m -> returns (on_waiters (D := D) m).
Proof.
  intros Hm s. destruct (Hm (s_waiters s)) as (a & w & Hw). exists a, (s_set_waiters w s).
  unfold on_waiters. by rewrite Hw.
Qed.
Hint Resolve on_waiters_returns : returns.
Lemma settle_returns get reset r : returns (settle get reset r).
Proof. unfold settle. returns_auto. Qed.
Lemma complete_reads_returns i : returns (complete_reads i).
Proof. unfold complete_reads. returns_auto. Qed.
Lemma fail_reads_returns l : returns (fail_reads l).
Proof. unfold fail_reads. returns_auto. Qed.
Lemma signal_applied_returns i : returns (signal_applied i).
Proof. unfold signal_applied. returns_auto. Qed.
Lemma call_machine_returns m : returns (call_machine (D := D) m).
Proof. unfold call_machine. returns_auto. Qed.
Lemma abort_snapshot_transfers_returns : returns (abort_snapshot_transfers (D := D)).
Proof. unfold abort_snapshot_transfers, on_links. returns_auto. Qed.
Hint Resolve settle_returns complete_reads_returns fail_reads_returns signal_applied_returns call_machine_returns
  abort_snapshot_transfers_returns : returns.

Lemma same_busy s s1 io : same s s1 -> server_ok s -> s_io s = io -> server_ok s1 /\ s_io s1 = io.
Proof. intros Hs Hok <-. split; [by eapply server_ok_same|]. by destruct Hs as [[=] _]. Qed.

(** Runs code that always returns and does not touch the invariant. *)
Ltac run_same s :=
  let s1 := fresh "s" in let H := fresh in
  eapply (wp_returning same); [keeps_auto|returns_auto|intros _ s1 H];
  match goal with
  | Hok : server_ok s, Hb : s_io s = _ |- _ =>
    let Hp := fresh in
    pose proof (same_busy s s1 _ H Hok Hb) as Hp; clear dependent s; rename s1 into s; destruct Hp as [Hs Hio]
  end.

Lemma truncate_ok fails s b req : server_ok s -> s_io s = io_busy truncate b req ->
  wp (process_fsm_output fails truncate b req) (fun _ => server_ok) (fun _ => halts) (fun _ => False) s.
Proof.
  intros Hs Hio. cbn [process_fsm_output]. apply wp_bind. run_same s.
  unfold next_phase, persist_op. wp_auto.
  destruct (o_log_entries b) as [|e es] eqn:Hb; [|apply wp_when; intros H; [destruct fails as [k|]|]]; wp_auto.
  - to_phase (s_disk s) (s_last_stable s) (s_apply_entries s) s; [done| |done].
    intros c Hc Hsafe Hp. exists c. unfold remaining, truncate_op in Hsafe |- *. rewrite Hb in *.
    split_and!; [done|done| |done]. eapply later_phase; [..|done]; simpl; lia.
  - eapply persist_op_halts; [done|done|]. unfold remaining, truncate_op. by rewrite Hb, H.
  - to_phase (perform (op_truncate_log (e_idx e)) (s_disk s)) (s_last_stable s) (s_apply_entries s) s; [done| |done].
    intros c Hc Hsafe Hp. unfold remaining, truncate_op in Hsafe |- *. rewrite Hb, H in *.
    destruct (perform_head _ _ _ _ Hc Hsafe) as [Hc' Hsafe']. eexists. split_and!; [exact Hc'|exact Hsafe'| |done].
    destruct Hp. split; simpl in *; [intros _; apply pe_vote0; lia|intros _; apply pe_snapshot0; lia|lia].
  - to_phase (s_disk s) (s_last_stable s) (s_apply_entries s) s; [done| |done].
    intros c Hc Hsafe Hp. exists c. unfold remaining, truncate_op in Hsafe |- *. rewrite Hb, H in *.
    split_and!; [done|done| |done]. eapply later_phase; [..|done]; simpl; lia.
Qed.

Lemma store_entries_ok fails s b req : server_ok s -> s_io s = io_busy store_entries b req ->
  wp (process_fsm_output fails store_entries b req) (fun _ => server_ok) (fun _ => halts) (fun _ => False) s.
Proof.
  intros Hs Hio. cbn [process_fsm_output]. unfold next_phase, persist_op.
  destruct (last (o_log_entries b)) as [e|] eqn:Hb; [destruct fails as [k|]|]; wp_auto.
  - eapply persist_op_halts; [done|done|]. unfold remaining, entries_op. by rewrite Hb.
  - to_phase (perform (op_log_entries (o_log_entries b)) (s_disk s)) (e_idx e) (s_apply_entries s) s; [done| |].
    + intros c Hc Hsafe Hp. unfold remaining, entries_op in *. rewrite Hb in *.
      destruct (perform_head _ _ _ _ Hc Hsafe) as [Hc' Hsafe']. eexists. split_and!; [exact Hc'|exact Hsafe'| |done].
      destruct Hp. split; simpl in *; [intros _; apply pe_vote0; lia|intros _; apply pe_snapshot0; lia|].
      intros _. by exists (c_log c).
    + simpl. unfold stored_up_to. by rewrite Hb.
  - to_phase (s_disk s) (s_last_stable s) (s_apply_entries s) s; [done| |].
    + intros c Hc Hsafe Hp. exists c. unfold remaining, entries_op in *. rewrite Hb in *. split_and!; [done|done| |done].
      destruct Hp. split; simpl in *; [intros _; apply pe_vote0; lia|intros _; apply pe_snapshot0; lia|].
      intros _. apply last_None in Hb. rewrite Hb. apply suffix_nil.
    + simpl. unfold stored_up_to. by rewrite Hb.
Qed.

(** The messages of an output are sent without a failed assertion, unless one of them
    is about a snapshot: a transfer is started or its end is reported. *)
Definition about_snapshot (m : server_id * rpc_message) : Prop :=
  match m.2 with msg_install_snapshot _ | msg_snapshot_reply _ => True | _ => False end.
#[global] Instance about_snapshot_dec m : Decision (about_snapshot m).
Proof. unfold about_snapshot. destruct (m.2); apply _. Defined.

Lemma process_messages_wp b s :
  wp (process_messages b) (fun _ => same s) (fun _ => same s) (fun _ => Exists about_snapshot (o_messages b)) s.
Proof.
  destruct (decide (Exists about_snapshot (o_messages b))) as [Hex|Hno]; [by eapply (wp_keeps same); [keeps_auto|..]|].
  apply (wp_returning same); [keeps_auto| |done].
  unfold process_messages, add_to_rpc_config, remove_from_rpc_config, abort_snapshot_transfer, on_links.
  apply returns_bind; [auto with returns|intros k]. destruct (match o_configuration b with Some _ => _ | None => _ end) as [joining leaving].
  apply returns_bind; [auto with returns|intros []]. apply returns_bind; [|intros []; returns_auto].
  apply returns_for_each_in. intros [dst m] Hm. assert (~ about_snapshot (dst, m)) as Hsnp by (intros ?; apply Hno, Exists_exists; eauto).
  unfold about_snapshot in Hsnp. cbn in Hsnp |- *. destruct m; try tauto; unfold on_links; apply returns_modify.
Qed.

Lemma send_messages_ok fails s b req : server_ok s -> s_io s = io_busy send_messages b req ->
  wp (process_fsm_output fails send_messages b req) (fun _ => server_ok) (fun _ => halts)
    (fun _ => Exists about_snapshot (o_messages b)) s.
Proof.
  intros Hs Hio. cbn [process_fsm_output]. apply wp_bind.
  eapply wp_mono; [apply process_messages_wp|intros [] s1 Hsame|intros e s1 Hsame; apply io_stopped_ok; by apply (server_ok_same s)|done].
  destruct (same_busy s s1 _ Hsame Hs Hio) as [Hs1 Hio1]. clear dependent s. rename s1 into s.
  unfold next_phase, persist_op. destruct (last (o_committed b)) as [e|] eqn:Hb; [apply wp_bind, wp_bind; run_same s; destruct fails as [k|]|]; wp_auto.
  - eapply persist_op_halts; [done|done|]. unfold remaining, commit_op. by rewrite Hb.
  - to_phase (perform (op_commit_idx (e_idx e)) (s_disk s)) (s_last_stable s) (s_apply_entries s) s; [done| |done].
    intros c Hc Hsafe Hp. unfold remaining, commit_op in *. rewrite Hb in *.
    destruct (perform_head _ _ _ _ Hc Hsafe) as [Hc' Hsafe']. eexists. split_and!; [exact Hc'|exact Hsafe'| |done].
    destruct Hp. split; simpl in *; intros _; [apply pe_vote0|apply pe_snapshot0|apply pe_entries0]; lia.
  - to_phase (s_disk s) (s_last_stable s) (s_apply_entries s) s; [done| |done].
    intros c Hc Hsafe Hp. exists c. unfold remaining, commit_op in *. rewrite Hb in *. split_and!; [done|done| |done].
    eapply later_phase; [..|done]; simpl; lia.
Qed.

Lemma push_committed_ok fails s b req : server_ok s -> s_io s = io_busy push_committed b req ->
  wp (process_fsm_output fails push_committed b req) (fun _ => server_ok) (fun _ => halts) (fun _ => False) s.
Proof.
  intros Hs Hio. cbn [process_fsm_output]. unfold next_phase, push.
  assert (forall d c, holds d c -> safe_ops c (remaining push_committed (s_last_stable s) b) -> persisted push_committed b c ->
    exists c', holds d c' /\ safe_ops c' (remaining finish_reads (s_last_stable s) b) /\ persisted finish_reads b c' /\
      eventually c' (remaining finish_reads (s_last_stable s) b) = eventually c (remaining push_committed (s_last_stable s) b)) as Hd.
  { intros d c Hc Hsafe Hp. exists c. split_and!; [done|done| |done]. eapply later_phase; [..|done]; simpl; lia. }
  destruct (o_committed b) as [|e es] eqn:Hb; wp_auto.
  - to_phase (s_disk s) (s_last_stable s) (s_apply_entries s) s; [|by apply Hd|done]. unfold batch_push. by rewrite Hb.
  - destruct (s_aborted s); wp_auto; [by apply io_stopped_ok|].
    to_phase (s_disk s) (s_last_stable s) (s_apply_entries s ++ [apply_batch (e :: es)]) s; [|by apply Hd|done].
    intros i j. unfold batch_push. by rewrite Hb, app_nil_r.
Qed.

Lemma finish_reads_ok fails s b req : server_ok s -> s_io s = io_busy finish_reads b req ->
  wp (process_fsm_output fails finish_reads b req) (fun _ => server_ok) (fun _ => halts) (fun _ => False) s.
Proof.
  intros Hs Hio. cbn [process_fsm_output]. apply wp_bind. run_same s. apply wp_bind, wp_gets.
  unfold next_phase, push. set (lead := is_leader (s_fsm s)).
  assert (forall q, (forall i j, leads i (s_apply_entries s) j -> leads i q j) -> server_ok (io_update
    (io_busy (finish lead) b req) (s_disk s) (s_last_stable s) q s)) as Hend.
  { intros q Hq. apply (phase_done s finish_reads); [done|done| | |done].
    - rewrite Hio. simpl. intros i j. rewrite !app_nil_r. apply Hq.
    - intros c Hc Hsafe Hp. exists c. split_and!; [done|done| |done]. eapply later_phase; [..|done]; simpl; lia. }
  apply wp_bind, wp_when; intros Hl.
  - apply wp_bind.
    eapply (wp_returning same); [keeps_auto|returns_auto|intros _ s1 Hsame].
    pose proof Hsame as [[=] Hw]. apply wp_when; intros _; wp_auto.
    + destruct (s_aborted s1) eqn:?; wp_auto; [by eapply io_stopped_ok, server_ok_same|].
      eapply server_ok_same; [|apply (Hend (s_apply_entries s ++ [removed_from_config]))].
      * split; [unfold core; cbn; congruence|done].
      * intros i j Hij. apply leads_app. by exists j.
    + eapply server_ok_same; [|apply (Hend (s_apply_entries s)); auto]. split; [unfold core; cbn; congruence|done].
  - wp_auto. eapply server_ok_same; [|apply (Hend (s_apply_entries s)); auto]. by split.
Qed.

Lemma finish_ok fails s was_leader b req : server_ok s -> s_io s = io_busy (finish was_leader) b req ->
  wp (process_fsm_output fails (finish was_leader) b req) (fun _ => server_ok) (fun _ => halts) (fun _ => False) s.
Proof.
  intros Hs Hio. cbn [process_fsm_output]. apply wp_bind, wp_gets. generalize (s_fsm s) as f. intros f.
  do 3 (apply wp_bind; run_same s). wp_auto.
  set (io := if req then io_requests else io_idle).
  eapply (server_ok_same (io_update io (s_disk s) (s_last_stable s) (s_apply_entries s) s)); [by split|].
  apply io_update_ok; [done|by destruct req|by rewrite Hio|rewrite Hio; by destruct req|].
  intros c Hc. unfold disk_ok. rewrite Hio. cbn. intros (_ & Hsync & _). exists c. split; [done|]. by destruct req.
Qed.

Lemma process_fsm_output_ok fails s phase b req : server_ok s -> s_io s = io_busy phase b req ->
  wp (process_fsm_output fails phase b req) (fun _ => server_ok) (fun _ => halts) (fun _ => phase = send_messages /\ Exists about_snapshot (o_messages b)) s.
Proof.
  intros Hs Hio. assert (forall P : Prop, wp (process_fsm_output fails phase b req) (fun _ => server_ok) (fun _ => halts)
    (fun _ => P) s -> (P -> phase = send_messages /\ Exists about_snapshot (o_messages b)) ->
    wp (process_fsm_output fails phase b req) (fun _ => server_ok) (fun _ => halts) (fun _ => phase = send_messages /\ Exists about_snapshot (o_messages b)) s) as Hw.
  { intros P Hw HP. eapply wp_mono; [exact Hw|done|done|auto]. }
  destruct phase.
  - by eapply Hw; [apply store_vote_ok|].
  - by eapply Hw; [apply store_snapshot_ok|].
  - by eapply Hw; [apply push_snapshot_ok|].
  - by eapply Hw; [apply truncate_ok|].
  - by eapply Hw; [apply store_entries_ok|].
  - by eapply Hw; [apply send_messages_ok|].
  - by eapply Hw; [apply push_committed_ok|].
  - by eapply Hw; [apply finish_reads_ok|].
  - by eapply Hw; [apply finish_ok|].
Qed.

Lemma on_fsm_wp {A} (m : FSM A) (Q : A -> server -> Prop) X B s :
  wp m (fun a f' => Q a (s_set_fsm f' s)) (fun e f' => X (fsm_error e) (s_set_fsm f' s)) B (s_fsm s) ->
  wp (on_fsm m) Q X B s.
Proof. unfold wp, on_fsm. by destruct (m (s_fsm s)) as [[] f']. Qed.

(** The fiber takes an output. *)
Lemma output_stays s f' o req : server_ok s -> in_range (s_fsm s) -> s_io s = io_idle -> output_taken (s_fsm s) o f' ->
  stays_ok (s_set_io (io_busy store_vote o req) (s_set_fsm f' s)).
Proof.
  intros Hs Hr Hio Ht. pose proof (machine_of s Hs) as []. destruct Hs as [? ? Hready Happ Hw [(c & Hc & Hd)|[? _]]]; [|by rewrite Hio in *].
  assert (described (f_log f') (s_applier s)) as Hdesc.
  { destruct Ht as [[? _ _ _ _ _ _ _ _ _] _ []], Hready as [Hwf Hrep _ _]. unfold reported_stable in Hrep.
    pose proof Hwf as [[_ [] _ _ _ _] _]. apply prefix_length in gn_prefix as Hlen.
    apply described_kept; [done|by rewrite gn_snapshot|]. intros i Hi. unfold log_last in *.
    apply same_configuration; [done|by destruct oo_wf as [[]]|done|unfold log_last; rewrite gn_first; lia|].
    intros k e Hk He. by rewrite (entry_at_prefix (f_log (s_fsm s)) (f_log f') k) in He by (done || unfold log_last; lia). }
  destruct Happ.
  pose proof (output_leads _ _ _ Hready Ht) as Hlead. pose proof Ht as [[] _ _].
  pose proof Hready as [[[_ _ _ _ _ Hob] _] _ _ _]. destruct oo_observed as (Ho1 & Ho2 & Ho3). split.
  - split; unfold told in *; cbn; [done|lia|lia|by destruct Hw].
  - cbn. intros Hr'. split; cbn; [done|done|by eapply output_ready| |by destruct Hw|].
    + split; cbn; [done|done|unfold position in *; cbn; lia| |done]. intros Ha Hst.
      specialize (ap_queue0 Ha Hst) as (j & Hj & Hle & Heq). rewrite Hio in *. rewrite Heq in Hj by done. simpl in Hj.
      rewrite app_nil_r in Hj. eexists. split_and!; [apply leads_app; eauto|done|done].
    + left. unfold disk_ok in *. rewrite Hio in Hd. exists c. split; [done|]. cbn.
      destruct (output_in_sync (s_fsm s) o f' (s_last_stable s)) with c as [Hsafe Hsync]; [done..|].
      split_and!; [done|done|]. by split; cbn; try lia.
Qed.

(** A fiber that stops stays harmless. *)
Lemma fiber_wp stopped (body : M server server_error unit) B s :
  wp body (fun _ => stays_ok) (fun _ s' => stays_ok (stopped s')) B s -> wp (fiber stopped body) (fun _ => stays_ok) (fun _ _ => False) B s.
Proof.
  intros Hw. unfold wp, fiber in *. destruct (body s) as [[[]|e|r] s']; [done| |done].
  assert (stays_ok (s_set_is_alive false (stopped s'))) by (eapply stays_ok_same; [|apply Hw]; by split).
  by destruct e.
Qed.

Lemma io_loop_ok fails s : server_ok s -> in_range (s_fsm s) ->
  wp (io_loop fails) (fun _ => stays_ok) (fun _ s' => stays_ok (s_set_io io_stopped s')) (fun _ => exists b req, s_io s = io_busy send_messages b req /\ Exists about_snapshot (o_messages b)) s.
Proof.
  intros Hs Hr. unfold io_loop. apply wp_bind, wp_gets. destruct (s_io s) as [|phase b req| |] eqn:Hio.
  - destruct (has_output (s_fsm s)).
    + apply wp_bind, on_fsm_wp, get_output_leaves; [by destruct Hs as [_ _ []]|by apply rm_log, room_in_range|].
      intros o f' Ht. unfold next_phase. apply wp_modify. by apply output_stays.
    + destruct (s_request_snapshot s); [|apply wp_when; intros _; [|by apply ok_stays]]; apply wp_modify.
      * apply ok_stays, (server_ok_same (io_update io_requests (s_disk s) (s_last_stable s) (s_apply_entries s) s)); [by split|].
        apply io_update_ok; [done|done|by rewrite Hio|by rewrite Hio|]. intros c Hc Hd. exists c. split; [done|].
        unfold disk_ok in *. by rewrite Hio in Hd.
      * by apply stays_io_stopped, ok_stays.
  - eapply wp_mono; [by apply process_fsm_output_ok|intros; by apply ok_stays..|]. intros r [-> ?]. by eexists _, _.
  - assert (forall q, (forall i j, leads i (s_apply_entries s) j -> leads i q j) ->
      server_ok (io_update io_idle (s_disk s) (s_last_stable s) q s)) as Hend.
    { intros q Hq. apply io_update_ok; [done|done|by rewrite Hio| |].
      - rewrite Hio. simpl. intros _ i j. rewrite !app_nil_r. apply Hq.
      - intros c Hc Hd. exists c. split; [done|]. unfold disk_ok in *. by rewrite Hio in Hd. }
    unfold push. apply wp_bind, wp_when; intros _; wp_auto.
    + destruct (s_aborted s) eqn:Ha; wp_auto; [by apply stays_io_stopped, ok_stays|].
      apply ok_stays. eapply server_ok_same; [|apply (Hend (s_apply_entries s ++ [trigger_snapshot_msg]))]; [by split|].
      intros i j Hij. apply leads_app. by exists j.
    + apply ok_stays. eapply server_ok_same; [|apply (Hend (s_apply_entries s)); auto]. by split.
  - by apply wp_ret, ok_stays.
Qed.

Lemma io_step_ok s fails : server_ok s -> in_range (s_fsm s) ->
  wp (io_step fails) (fun _ => stays_ok) (fun _ _ => False) (fun _ => exists b req, s_io s = io_busy send_messages b req /\ Exists about_snapshot (o_messages b)) s.
Proof.
  intros Hs Hr. unfold io_step. by apply fiber_wp, io_loop_ok.
Qed.

(** ** The applier fiber *)

Lemma on_waiters_wp {A} (m : M waiters server_error A) (Q : A -> server -> Prop) X B s :
  wp m (fun a w => Q a (s_set_waiters w s)) (fun e w => X e (s_set_waiters w s)) B (s_waiters s) ->
  wp (on_waiters m) Q X B s.
Proof. unfold wp, on_waiters. by destruct (m (s_waiters s)) as [[] w]. Qed.

(** [s] with the fields that the applier changes. *)
Definition applier_update (a : applier_state) (applied : index_t) (q : list applier_message) (w : waiters) s : server :=
  s_set_waiters w (s_set_applier a (s_set_applied_idx applied (s_set_apply_entries q s))).

Lemma applier_update_ok s a applied q w : server_ok s -> applier_state_ok applied a -> 0 <= applied ->
  waiters_ok (applier_update a applied q w s) ->
  position (applier_update a applied q w s) <= ob_commit_idx (f_observed (s_fsm s)) ->
  described (f_log (s_fsm s)) a ->
  (s_aborted s = false -> a <> applier_stopped ->
    s_applier s <> applier_stopped /\
    forall j, leads (position s) (s_apply_entries s ++ to_push (s_io s)) j ->
      leads (position (applier_update a applied q w s)) (q ++ to_push (s_io s)) j) ->
  server_ok (applier_update a applied q w s).
Proof.
  intros [] Ha H0 Hw Hp Hdesc Hq. destruct so_applier0. split; [done..| |done|done].
  split; [done|done|done| |done]. cbn. intros Hab Hst. destruct (Hq Hab Hst) as [Hst' Hl].
  specialize (ap_queue0 Hab Hst') as (j & Hj & Hle & Heq). exists j. split_and!; [by apply Hl|done|done].
Qed.

Lemma applied_position s : applier_state_ok (s_applied_idx s) (s_applier s) ->
  s_applied_idx s <= told s <= position s.
Proof.
  unfold position, told, applier_state_ok. destruct (s_applier s); try lia. intros (Hne & Hc & _).
  destruct (last batch) as [e|] eqn:He; [|lia].
  apply last_Some in He as [es ->]. apply consecutive_app in Hc as [_ [Hi _]]. lia.
Qed.

(** The applier is done with something that did not move it, or stops. *)
Lemma settled_ok s a : server_ok s -> a = applier_stopped \/ a = applier_idle /\ position s = s_applied_idx s /\
    s_applier s <> applier_stopped ->
  server_ok (s_set_applier a s).
Proof.
  intros Hs Ha. eapply server_ok_same; [|apply (applier_update_ok s a (s_applied_idx s) (s_apply_entries s) (s_waiters s))].
  - by split.
  - done.
  - destruct Ha as [-> |[-> _]]; done.
  - by destruct Hs as [_ _ _ []].
  - destruct Hs as [_ _ _ [Hst _ _ _ _] [Hw Hc] _]. apply applied_position in Hst. split; [done|].
    unfold told in *. cbn. destruct Ha as [-> |[-> _]]; (eapply all_above_mono; [|exact Hc]; lia).
  - destruct Hs as [_ _ _ [Hst _ Hr _ _] _ _]. apply applied_position in Hst. unfold position in *. cbn.
    destruct Ha as [-> |[-> _]]; lia.
  - by destruct Ha as [-> |[-> _]].
  - intros _ Hne. destruct Ha as [-> |(-> & Hp & Hst)]; [done|]. split; [done|]. unfold position at 2. cbn. by rewrite Hp.
Qed.

Lemma settled_stays s a : stays_ok s -> a = applier_stopped \/ a = applier_idle /\ position s = s_applied_idx s /\
    s_applier s <> applier_stopped ->
  stays_ok (s_set_applier a s).
Proof.
  intros [[] Hok] Ha. split; [|intros Hr; apply settled_ok; [by apply Hok|done]].
  assert (told (s_set_applier a s) = s_applied_idx s) as Htold by (unfold told; cbn; by destruct Ha as [-> |[-> _]]).
  split; [done|by rewrite Htold|rewrite Htold; cbn; lia|]. destruct mo_waiters0. split; [done|].
  rewrite Htold. eapply all_above_mono; [|exact wo_commits0]. lia.
Qed.

Lemma applier_done_wp s (Q : server -> Prop) X B : (forall s1 s2, same s1 s2 -> Q s1 -> Q s2) ->
  Q (s_set_applier applier_idle s) -> wp applier_done (fun _ => Q) X B s.
Proof.
  intros HQ Hs. unfold applier_done. apply wp_bind, wp_gets, wp_bind.
  eapply (wp_returning same); [keeps_auto|returns_auto|intros _ s1 Hsame]. apply wp_modify.
  eapply HQ; [|exact Hs]. destruct Hsame as [[=] Hw]. split; [unfold core; cbn; congruence|done].
Qed.

Lemma notify_announced type batch first back w : consecutive first batch -> last batch = Some back -> 0 <= first ->
  first + Z.of_nat (length batch) < u64_modulus -> (forall t, ordered (container t w)) ->
  all_above (first - 1) (container type w) ->
  exists w', notify_waiters type batch w = (Ret tt, w') /\ (forall t, ordered (container t w')) /\
    all_above (e_idx back) (container type w') /\ forall t, t <> type -> container t w' = container t w.
Proof.
  intros Hc Hb Hf Hm Ho Hab.
  destruct (notify_waiters_spec batch first back Hc Hf Hm Hb type w) as (answered & kept & Hn & []); [done|done|].
  eexists. split; [exact Hn|]. split_and!.
  - intros t. destruct (decide (t = type)) as [->|Hne]; [|by rewrite container_set_other, container_resolve].
    rewrite container_set_same. eapply ordered_sublist; [|apply (Ho type)]. rewrite an_split. by apply sublist_inserts_l.
  - by rewrite container_set_same.
  - intros t Hne. by rewrite container_set_other, container_resolve.
Qed.

Lemma batch_back applied batch back : consecutive (applied + 1) batch -> last batch = Some back ->
  e_idx back = applied + Z.of_nat (length batch).
Proof.
  intros Hc [es ->]%last_Some. apply consecutive_app in Hc as [_ [Hi _]]. rewrite length_app. simpl. lia.
Qed.

(** What is reported is in the log. *)
Lemma reported_last s : server_ok s -> ob_commit_idx (f_observed (s_fsm s)) <= log_last (f_log (s_fsm s)) /\
  log_last (f_log (s_fsm s)) + 1 < u64_modulus.
Proof. intros [_ _ [[[_ [] _ _ Hc Hob] _] _ _ _] _ _ _]. split; [lia|done]. Qed.

Lemma start_batch_ok s batch rest X : server_ok s -> s_aborted s = false -> s_applier s = applier_idle ->
  s_apply_entries s = apply_batch batch :: rest ->
  wp (start_batch batch) (fun _ => server_ok) X (fun _ => False) (s_set_apply_entries rest s).
Proof.
  intros Hs Hab Hidle Hq. pose proof (reported_last s Hs) as [Hrep Hbound].
  pose proof Hs as [_ _ _ [_ H0 Hpos Hqueue _] [[Ho Hall] Hcom] _].
  assert (position s = s_applied_idx s) as Hp by (unfold position; by rewrite Hidle).
  destruct Hqueue as (j & Hj & Hle & _); [done|by rewrite Hidle|]. rewrite Hq, Hp in Hj. simpl in Hj.
  destruct Hj as (Hne & Hcons & Hst & Hj). pose proof (leads_le _ _ _ Hj).
  unfold start_batch. destruct (last batch) as [back|] eqn:Hb; [|by apply last_None in Hb].
  pose proof (batch_back _ _ _ Hcons Hb) as Hback.
  destruct (notify_announced wait_committed batch (s_applied_idx s + 1) back (s_waiters s))
    as (w' & Hn & Ho' & Hab' & Hother); [done|done|lia|lia|done|eapply all_above_mono; [|apply Hall]; lia|].
  apply wp_bind, on_waiters_wp. unfold wp at 1. cbn. rewrite Hn. apply wp_bind, wp_gets, wp_bind, wp_lift.
  2-3: intros ?; cbn; rewrite u64_add_small by lia; by rewrite Hback, Z.eqb_refl.
  intros _ _. apply wp_bind. eapply (wp_returning same); [destruct (batch_commands batch); keeps_auto|returns_auto|].
  intros _ s1 Hsame. apply wp_modify.
  eapply server_ok_same; [|apply (applier_update_ok s (applying batch) (s_applied_idx s) rest w')].
  - destruct Hsame as [[=] Hw]. split; [unfold core; cbn in *; congruence|done].
  - done.
  - done.
  - done.
  - split; [split; cbn; [done|]|unfold told; cbn; by rewrite Hb].
    intros []; [|by rewrite Hother]. eapply all_above_mono; [|exact Hab']. lia.
  - unfold position. cbn. rewrite Hb. lia.
  - done.
  - intros _ _. split; [by rewrite Hidle|]. intros j'. rewrite Hq, Hp. simpl. intros (_ & _ & _ & Hj').
    unfold position. cbn. by rewrite Hb, Hback.
Qed.

(** The log has not forgotten its previous configuration, as it does when it is
    truncated to the one before. *)
Definition conf_remembered (l : log) : Prop := l_prev_conf_idx l = 0 -> (length (conf_indexes l) <= 1)%nat.

(** What a descriptor of a snapshot at [applied] says. *)
Record describes (l : log) (applied : index_t) (term : term_t) (snp : snapshot_descriptor) : Prop := {
  ds_idx : snp_idx snp = applied;
  ds_term : snp_term snp = term;
  ds_small : config_small (snp_config snp);
  ds_config : snp_config snp = effective_configuration l applied;
}.

Lemma describe_snapshot_wp s term Q X : fsm_wf (s_fsm s) -> conf_remembered (f_log (s_fsm s)) ->
  snp_idx (l_snapshot (f_log (s_fsm s))) <= s_applied_idx s <= log_last (f_log (s_fsm s)) ->
  (forall snp s1, same s s1 -> describes (f_log (s_fsm s)) (s_applied_idx s) term snp -> Q snp s1) ->
  wp (describe_snapshot term) Q X (fun _ => False) s.
Proof.
  intros [[_ Hl (c & _ & Hc) Hsm _ _] _] Hrem Hi HQ. unfold describe_snapshot. apply wp_bind, wp_gets, wp_bind.
  assert (last_conf_for (f_log (s_fsm s)) (s_applied_idx s) = Ret (effective_configuration (f_log (s_fsm s)) (s_applied_idx s))) as Hcfg.
  { destruct (last_conf_for_cases c (f_log (s_fsm s)) (s_applied_idx s)) as [->|(Hp & Hlen & _)]; [done..|]. specialize (Hrem Hp). lia. }
  rewrite Hcfg. apply wp_lift; [|done..]. intros cfg' [= <-]. apply wp_bind.
  eapply (wp_returning same); [keeps_auto|returns_auto|intros _ s1 Hsame]. apply wp_ret, HQ; [done|].
  split; cbn; try done. by apply effective_configuration_small.
Qed.

Lemma finish_batch_ok s batch X : server_ok s -> s_applier s = applying batch -> conf_remembered (f_log (s_fsm s)) ->
  wp (finish_batch batch) (fun _ => server_ok) X (fun _ => False) s.
Proof.
  intros Hs Happ Hrem. pose proof (reported_last s Hs) as [Hrep Hbound].
  pose proof Hs as [_ _ [Hwf _ _ _] [Hst H0 Hpos Hqueue Hdesc] [[Ho Hall] Hcom] _].
  unfold applier_state_ok, position, told in *. rewrite Happ in Hst, Hpos, Hqueue, Hcom. destruct Hst as (Hne & Hcons & Hterms).
  unfold finish_batch. destruct (last batch) as [back|] eqn:Hb; [|by apply last_None in Hb].
  pose proof (batch_back _ _ _ Hcons Hb) as Hback. assert (0 < Z.of_nat (length batch)) by (destruct batch; simpl; [done|lia]).
  apply wp_bind, wp_lift; [|done..]. intros ? [= <-]. apply wp_bind, wp_modify.
  destruct (notify_announced wait_applied batch (s_applied_idx s + 1) back (s_waiters s))
    as (w' & Hn & Ho' & Hab' & Hother); [done|done|lia|lia|done|eapply all_above_mono; [|apply Hall]; lia|].
  apply wp_bind, on_waiters_wp. unfold wp at 1. cbn. rewrite Hn. apply wp_bind, wp_gets.
  set (s1 := s_set_waiters w' _).
  assert (forall a, a = applier_idle \/ (exists snp, a = taking_snapshot snp /\ snp_idx snp = e_idx back /\
    storable (snp_term snp) /\ config_small (snp_config snp) /\
    snp_config snp = effective_configuration (f_log (s_fsm s)) (snp_idx snp)) ->
    server_ok (applier_update a (e_idx back) (s_apply_entries s) w' s)) as Hend.
  { intros a Ha. apply applier_update_ok; [done| |lia| | | |].
    - by destruct Ha as [-> |(snp & -> & ? & ? & ? & _)].
    - split; [split; cbn; [done|]|].
      + intros []; [|done]. rewrite (Hother wait_committed) by done. done.
      + unfold told. cbn. specialize (Hother wait_committed). cbn in Hother. rewrite Hother by done.
        by destruct Ha as [-> |(snp & -> & ?)].
    - unfold position. cbn. by destruct Ha as [-> |(snp & -> & ?)].
    - destruct Ha as [-> |(snp & -> & ? & ? & ? & ?)]; [done|by intros _].
    - intros _ _. split; [by rewrite Happ|]. unfold position. cbn. rewrite Happ, Hb.
      by destruct Ha as [-> |(snp & -> & ?)]. }
  destruct (snapshot_due s1) eqn:Hdue.
  - apply wp_bind, describe_snapshot_wp; [done|done| |].
    + unfold snapshot_due in Hdue. cbn in *. split; lia.
    + intros snp s2 Hsame [Hi Ht Hsm Hcfg]. apply wp_modify. eapply server_ok_same; [|apply (Hend (taking_snapshot snp))].
      * destruct Hsame as [[=] Hw]. split; [unfold core; cbn in *; congruence|done].
      * right. exists snp. split_and!; [done|by rewrite Hi| |done|by rewrite Hi]. rewrite Ht. rewrite Forall_forall in Hterms.
        apply Hterms, last_Some_elem_of, Hb.
  - apply applier_done_wp; [apply server_ok_same|]. eapply server_ok_same; [|apply (Hend applier_idle); by left]. by split.
Qed.

Lemma drop_loop_spec idx ws : ordered ws -> exists rs kept, drop_loop idx ws = (rs, kept) /\ kept `sublist_of` ws /\
  match idx with Some i => all_above i kept | None => kept = [] end.
Proof.
  induction ws as [|[i st] ws IH]; intros Ho; simpl; [exists [], []; destruct idx; by split_and!; try constructor|].
  apply ordered_cons in Ho as [Hi Ho]. destruct idx as [k|].
  - destruct (Z.gtb_spec i k).
    + exists [], ((i, st) :: ws). split_and!; [done|done|]. constructor; [done|]. eapply all_above_mono; [|exact Hi]. simpl. lia.
    + destruct (IH Ho) as (rs & kept & -> & Hs & Hk). eexists _, _. split_and!; [done|by constructor|done].
  - destruct (IH Ho) as (rs & kept & -> & Hs & Hk). eexists _, _. split_and!; [done|by constructor|done].
Qed.

Lemma drop_waiters_spec idx w : (forall t, ordered (container t w)) ->
  exists w', drop_waiters idx w = (Ret tt, w') /\ forall t, container t w' `sublist_of` container t w /\
    match idx with Some i => all_above i (container t w') | None => container t w' = [] end.
Proof.
  intros Ho. destruct (drop_loop_spec idx (w_awaited_commits w) (Ho wait_committed)) as (rs & kept & Hd & Hs & Hk).
  destruct (drop_loop_spec idx (w_awaited_applies w) (Ho wait_applied)) as (rs' & kept' & Hd' & Hs' & Hk').
  eexists. split.
  - unfold drop_waiters, drop_container, mbind, M_bind, gets. cbn. rewrite Hd. cbn. rewrite Hd'. reflexivity.
  - intros []; cbn; (split; [done|]); by destruct idx.
Qed.

Lemma drop_ok s a applied q idx w' : server_ok s -> drop_waiters idx (s_waiters s) = (Ret tt, w') ->
  s_applied_idx s <= applied -> (applied = s_applied_idx s \/ idx = Some applied) -> 0 <= applied ->
  (forall batch, a <> applying batch) -> waiters_ok (applier_update a applied q w' s).
Proof.
  intros Hs Hd Hle Hor H0 Ha. destruct Hs as [_ _ _ [Hst _ _ _ _] [[Ho Hall] Hcom] _]. apply applied_position in Hst.
  destruct (drop_waiters_spec idx (s_waiters s) Ho) as (w'' & Hd' & Hw). rewrite Hd in Hd'. simplify_eq.
  assert (forall t, ordered (container t w'') /\ all_above applied (container t w'')) as Hok.
  { intros t. destruct (Hw t) as [Hs Hk]. split; [by eapply ordered_sublist|].
    destruct Hor as [-> | ->]; [|done]. eapply all_above_sublist; [exact Hs|done]. }
  split; [split; intros t; apply Hok|]. unfold told. cbn.
  destruct a; try apply (Hok wait_committed). by destruct (Ha batch).
Qed.

Lemma load_snapshot_ok s snp X : server_ok s -> s_applier s = loading_snapshot snp ->
  wp (on_waiters (drop_waiters (Some (snp_idx snp))) ;; modify (s_set_applied_idx (snp_idx snp)) ;; applier_done)
    (fun _ => server_ok) X (fun _ => False) s.
Proof.
  intros Hs Happ. pose proof Hs as [_ _ _ [Hst H0 Hpos _ _] [[Ho _] _] _].
  unfold applier_state_ok, position in *. rewrite Happ in *.
  destruct (drop_waiters_spec (Some (snp_idx snp)) (s_waiters s) Ho) as (w' & Hd & _).
  apply wp_bind, on_waiters_wp. unfold wp at 1. rewrite Hd. apply wp_bind, wp_modify, applier_done_wp; [apply server_ok_same|].
  eapply server_ok_same; [|apply (applier_update_ok s applier_idle (snp_idx snp) (s_apply_entries s) w')].
  - by split.
  - done.
  - done.
  - lia.
  - eapply drop_ok; [done|exact Hd|done|by right|lia|done].
  - done.
  - done.
  - intros _ _. split; [by rewrite Happ|]. unfold position. cbn. by rewrite Happ.
Qed.

(** A snapshot that the machine took is applied to the log. *)
Lemma apply_local_ok s snp me mb id X : server_ok s -> in_range (s_fsm s) ->
  s_applier s = taking_snapshot snp \/ s_applier s = triggered_snapshot snp -> 0 <= me -> 0 <= mb -> id <> no_id ->
  wp (on_fsm (apply_snapshot (with_id snp id) me mb true) ;; applier_done) (fun _ => stays_ok) X (fun _ => False) s.
Proof.
  intros Hs Hr Happ Hme Hmb Hid. pose proof (reported_last s Hs) as [Hrep Hbound].
  pose proof Hs as [_ _ [Hwf Hst _ _] [Hap H0 Hpos _ Hdesc] _ _].
  assert (applier_state_ok (s_applied_idx s) (taking_snapshot snp) /\ position s = s_applied_idx s /\
    told s = s_applied_idx s /\ s_applier s <> applier_stopped) as ((Hi & Ht & Hsm) & Hp & Htold & Hns).
  { unfold position, told in *. by destruct Happ as [Happ|Happ]; rewrite Happ in *. }
  assert (valid_snapshot (s_fsm s) (with_id snp id) me mb true) as Hv.
  { split; cbn; [lia|done|done|]. split; [lia|]. by destruct Happ as [Happ|Happ]; rewrite Happ in Hdesc. }
  apply wp_bind, on_fsm_wp. eapply wp_mono; [apply wp_and;
    [by apply (apply_snapshot_moves (s_fsm s) _ _ _ _ (fun _ _ => False))|by apply apply_snapshot_safe]| |by intros e f' []|done].
  intros a f' [Hm Hwf']. pose proof (stays_moved s f' Hs Hr Hwf' Hm) as Hstay.
  apply applier_done_wp; [apply stays_ok_same|]. apply settled_stays; [done|].
  right. split_and!; [done|unfold position in *; cbn; by rewrite Hp|done].
Qed.

(** A message that does not move the applier is taken from the queue. *)
Lemma pop_ok s m rest : server_ok s -> s_applier s = applier_idle -> s_apply_entries s = m :: rest ->
  m = removed_from_config \/ m = trigger_snapshot_msg -> server_ok (s_set_apply_entries rest s).
Proof.
  intros Hs Hidle Hq Hm. pose proof Hs as [_ _ _ [Hst H0 Hpos _ _] Hw _].
  eapply server_ok_same; [|apply (applier_update_ok s applier_idle (s_applied_idx s) rest (s_waiters s))].
  - split; [unfold core; cbn; by rewrite Hidle|done].
  - done.
  - done.
  - done.
  - destruct Hw as [? Hcom]. split; [done|]. unfold told in *. cbn. by rewrite Hidle in Hcom.
  - unfold position in *. cbn. by rewrite Hidle in Hpos.
  - done.
  - intros _ _. split; [by rewrite Hidle|]. intros j. unfold position. cbn. rewrite Hidle, Hq. by destruct Hm as [-> | ->].
Qed.

(** The state machine has taken a snapshot that the applier does not know yet, and a
    snapshot is requested. *)
Definition trigger_overtaken s : Prop :=
  s_applier s = applier_idle /\ (exists rest, s_apply_entries s = trigger_snapshot_msg :: rest) /\
  s_applied_idx s < snp_idx (l_snapshot (f_log (s_fsm s))).

Lemma start_trigger_ok s X : server_ok s -> s_applier s = applier_idle -> conf_remembered (f_log (s_fsm s)) ->
  wp start_trigger (fun _ => server_ok) X (fun _ => s_applied_idx s < snp_idx (l_snapshot (f_log (s_fsm s)))) s.
Proof.
  intros Hs Hidle Hrem. pose proof (reported_last s Hs) as [Hrep Hbound].
  pose proof Hs as [_ _ [Hwf Hst [Hes Hsn] _] [_ H0 Hpos _ _] [Hwait Hcom] _]. pose proof Hwf as [[_ Hl _ _ _ _] _].
  unfold position, told in *. rewrite Hidle in *. unfold start_trigger. apply wp_bind, wp_gets, wp_bind.
  destruct (term_for_spec (f_log (s_fsm s)) (s_applied_idx s) Hl) as [(t & -> & Hk & _)|[-> Hlt]]; [lia| |].
  2: { apply wp_lift; [|done|done]. intros ? [= <-]. by apply wp_lift; [intros ? [=]|intros ? [=]|]. }
  assert (storable t) as Hterm.
  { destruct Hk as [He|[_ ->]]; [|by destruct Hsn].
    destruct (entry_at (f_log (s_fsm s)) (s_applied_idx s)) as [e|] eqn:He'; [|done]. injection He as <-.
    rewrite Forall_forall in Hes. by eapply Hes, entry_at_elem. }
  apply wp_lift; [|done..]. intros ? [= <-]. apply wp_bind.
  destruct (decide (s_applied_idx s < snp_idx (l_snapshot (f_log (s_fsm s))))) as [Hlt|Hge].
  - unfold describe_snapshot. apply wp_bind, wp_gets, wp_bind, wp_lift; [|intros ?|done];
      unfold last_conf_for; rewrite last_idx_eq by done; zbool; done.
  - eapply wp_mono; [apply (describe_snapshot_wp s t _ X); [done|done|lia|]| |done|done].
    + intros snp s1 Hsame Hd. exact (conj Hsame Hd).
    + intros snp s1 (Hsame & [Hi Ht Hsm Hcfg]). apply wp_modify.
      eapply server_ok_same; [|apply (applier_update_ok s (triggered_snapshot snp) (s_applied_idx s) (s_apply_entries s) (s_waiters s))].
      * destruct Hsame as [[=] Hw]. split; [unfold core; cbn in *; congruence|done].
      * done.
      * split_and!; [done|by rewrite Ht|done].
      * done.
      * by split.
      * done.
      * intros _. by rewrite Hi.
      * intros _ _. split; [by rewrite Hidle|]. unfold position. cbn. by rewrite Hidle.
Qed.

(** What is asked of a step of the applier: a snapshot that was taken has an id, and a
    step that may describe a snapshot finds a log that has not forgotten its previous
    configuration. *)
Definition sound_step s (r : machine_result) : Prop :=
  match s_applier s, r with
  | (taking_snapshot _ | triggered_snapshot _), machine_returns id => id <> no_id
  | applying _, _ => conf_remembered (f_log (s_fsm s))
  | applier_idle, _ =>
    match s_apply_entries s with trigger_snapshot_msg :: _ => conf_remembered (f_log (s_fsm s)) | _ => True end
  | _, _ => True
  end.

Lemma applier_loop_ok s id : server_ok s -> in_range (s_fsm s) -> sound_step s (machine_returns id) ->
  wp (applier_loop id) (fun _ => stays_ok) (fun _ => stays_ok) (fun _ => trigger_overtaken s) s.
Proof.
  intros Hs Hr Hres. unfold applier_loop, sound_step in *. apply wp_bind, wp_gets.
  pose proof Hs as [_ Hconf _ [Hst H0 Hpos Hqueue Hdesc] [[Ho Hall] Hcom] _].
  destruct (s_applier s) as [|batch|snp|snp|snp|] eqn:Hap.
  - destruct (s_aborted s) eqn:Hab; [by apply wp_throw, ok_stays|].
    destruct (s_apply_entries s) as [|m rest] eqn:Hq; [by apply wp_ret, ok_stays|]. apply wp_bind, wp_modify. destruct m.
    + eapply wp_mono; [by apply (start_batch_ok s entries rest (fun _ _ => False))|intros; by apply ok_stays|done|done].
    + destruct Hqueue as (j & Hj & Hle & _); [done|done|]. unfold position in Hj, Hpos. rewrite Hap in Hj, Hpos.
      destruct Hj as [Hi Hj]. pose proof (leads_le _ _ _ Hj). apply wp_bind, wp_lift; [|intros ?; by zbool..].
      intros _ _. unfold call_machine. wp_auto. apply ok_stays.
      eapply server_ok_same; [|apply (applier_update_ok s (loading_snapshot snp) (s_applied_idx s) rest (s_waiters s))].
      * by split.
      * done.
      * done.
      * done.
      * split; [done|]. unfold told in *. cbn. by rewrite Hap in Hcom.
      * unfold position. cbn. lia.
      * done.
      * intros _ _. split; [by rewrite Hap|]. intros j'. unfold position. cbn. rewrite Hap, Hq. by intros [_ ?].
    + pose proof (pop_ok s _ rest Hs Hap Hq (or_introl eq_refl)) as Hs1.
      destruct (drop_waiters_spec None (s_waiters s) Ho) as (w' & Hd & _).
      apply wp_bind, on_waiters_wp. unfold wp at 1. cbn. rewrite Hd. apply applier_done_wp; [apply stays_ok_same|]. apply ok_stays.
      eapply server_ok_same; [|apply (applier_update_ok _ applier_idle (s_applied_idx s) rest w' Hs1)].
      * by split.
      * done.
      * done.
      * eapply drop_ok; [done|exact Hd|done|by left|done|done].
      * unfold position in *. cbn. by rewrite Hap in Hpos.
      * done.
      * intros _ _. cbn. split; [by rewrite Hap|]. intros j. unfold position. cbn. by rewrite Hap.
    + pose proof (pop_ok s _ rest Hs Hap Hq (or_intror eq_refl)) as Hs1.
      eapply wp_mono; [by apply (start_trigger_ok _ (fun _ _ => False) Hs1)|intros; by apply ok_stays|done|].
      cbn. intros r Hlt. split_and!; [done|by exists rest|done].
  - eapply wp_mono; [by apply (finish_batch_ok s batch (fun _ _ => False))|intros; by apply ok_stays|done|done].
  - destruct Hconf. eapply wp_mono; [apply (apply_local_ok s snp _ _ id (fun _ _ => False)); auto|done|done|done].
  - eapply wp_mono; [by apply (load_snapshot_ok s snp (fun _ _ => False))|intros; by apply ok_stays|done|done].
  - eapply wp_mono; [apply (apply_local_ok s snp _ _ id (fun _ _ => False)); auto; lia|done|done|done].
  - by apply wp_ret, ok_stays.
Qed.

Lemma applier_step_ok s r : server_ok s -> in_range (s_fsm s) -> sound_step s r ->
  wp (applier_step r) (fun _ => stays_ok) (fun _ _ => False) (fun _ => trigger_overtaken s) s.
Proof.
  intros Hs Hr Hres. unfold applier_step. apply fiber_wp.
  eapply (wp_mono _ (fun _ => stays_ok) _ (fun _ => stays_ok) _ (fun _ => trigger_overtaken s)); [|done|by intros e s' Hs'; apply settled_stays; [|left]|done].
  apply wp_bind, wp_gets. destruct r as [id|abort_requested]; [by apply applier_loop_ok|].
  destruct (machine_failure (s_applier s) abort_requested) eqn:Hf; [by apply wp_throw, ok_stays|].
  apply applier_loop_ok; [done|done|]. unfold sound_step, machine_failure in *. by destruct (s_applier s).
Qed.
End server_theory.

#[export] Hint Resolve on_waiters_same new_promise_same complete_reads_same fail_reads_same push_read_same
  signal_applied_same check_not_aborted_same wait_for_apply_same wait_for_state_change_same wait_for_next_tick_same
  wait_for_leader_same abort_promises_same on_links_same call_machine_same append_request_sent_same
  abort_snapshot_transfers_same ensure_not_aborted_same : keeps.
#[export] Hint Resolve on_waiters_returns settle_returns complete_reads_returns fail_reads_returns
  signal_applied_returns call_machine_returns abort_snapshot_transfers_returns : returns.
