(* ===== verification/RaftServerRuns.v ===== *)
(** The runs of a server: a server that was started from what is on disk and on which
    the steps of the fibers, messages of other servers, ticks and calls of clients
    happen in any order. The invariant of [RaftServerTheory] holds in all of them. *)
From S2P Require Import Prelude RaftTypes RaftLog RaftTracker RaftFsm RaftMonotone RaftReplication.
From S2P Require Import RaftInvariant RaftSafety RaftApi RaftTheorems RaftElection.
From S2P Require Import RaftStorage RaftWaiters RaftServer RaftGrowth RaftDurability RaftServerTheory.

(** * Code that does not fail an assertion *)

Definition settles {S E A} (m : M S E A) : Prop := forall s r, (m s).1 <> Abort r.

Section settles.
Context {S E : Type}.

Lemma returns_settles {A} (m : M S E A) : returns m -> settles m.
Proof. intros Hm s r. destruct (Hm s) as (a & s' & ->). done. Qed.
Lemma settles_throw {A} (e : E) : settles (throw e : M S E A).
Proof. done. Qed.
Lemma settles_bind {A B} (m : M S E A) (k : A -> M S E B) : settles m -> (forall a, settles (k a)) -> settles (m ≫= k).
Proof.
  intros Hm Hk s r. unfold mbind, M_bind. specialize (Hm s). destruct (m s) as [[a|e|r'] s']; [apply Hk|done|].
  by destruct (Hm r').
Qed.

(** The call rule for code that may throw. *)
Lemma wp_settles {A} (R : S -> S -> Prop) (m : M S E A) (Q : A -> S -> Prop) X B s : keeps R m -> settles m ->
  (forall a s', R s s' -> Q a s') -> (forall e s', R s s' -> X e s') -> wp m Q X B s.
Proof.
  intros Hk Hm HQ HX. specialize (Hk s). specialize (Hm s). unfold wp in *.
  destruct (m s) as [[a|e|r] s']; [by apply HQ|by apply HX|by destruct (Hm r)].
Qed.
End settles.

Create HintDb settles discriminated.
#[export] Hint Resolve settles_throw : settles.
#[export] Hint Extern 2 (settles _) => apply returns_settles; solve [returns_auto] : settles.
Ltac settles_step :=
  match goal with
  | |- settles (mbind _ _) => apply settles_bind; [|intros ?]
  | |- settles (match ?x with _ => _ end) => destruct x
  | |- settles _ => solve [auto with settles]
  end.
Ltac settles_auto := repeat settles_step.

(** * What happens to a server *)

Inductive event :=
| ev_io (fails : option nat)
| ev_applier (r : machine_result)
| ev_receive (from : server_id) (msg : rpc_message)
| ev_receive_snapshot (from : server_id) (m : install_snapshot)
| ev_append_request_sent (dst : server_id)
| ev_snapshot_sent (id : N) (dst : server_id) (reply : option snapshot_reply)
| ev_tick (is_alive : server_id -> bool)
| ev_wait_for_leader
| ev_wait_for_state_change
| ev_wait_for_next_tick
| ev_wait_for_entry (eid : entry_id) (type : wait_type) (abort_requested : bool)
| ev_wait_for_apply (idx : index_t) (abort_requested : bool)
| ev_abort_waiter (type : wait_type) (idx : index_t)
| ev_add_entry (cmd : bytes) (type : wait_type) (abort_requested : bool)
| ev_execute_add_entry (from : server_id) (cmd : bytes)
| ev_set_configuration (c_new : config_member_set) (abort_requested : bool)
| ev_modify_config (from : server_id) (add : list (server_id * config_member)) (del : list server_id)
    (abort_requested : bool)
| ev_abort_configuration_change
| ev_read_barrier (from : server_id) (abort_requested : bool)
| ev_stepdown (timeout : Z)
| ev_trigger_snapshot
| ev_begin_abort
| ev_release_waiters
| ev_end_abort.

Section runs.
Context {env : raft_env} {D : Type} {pers : persistence D}.
Implicit Types (s : server (D := D)) (c : contents).
#[local] Existing Instance same_waiting_preorder.

(** The subscription to the abort source of a configuration change is kept with its
    promise: without one the callback does not run. *)
Definition run_event (e : event) : M server server_error unit :=
  match e with
  | ev_io fails => io_step fails
  | ev_applier r => applier_step r
  | ev_receive from msg => receive from msg
  | ev_receive_snapshot from m => _ ← receive_snapshot from m; mret tt
  | ev_append_request_sent dst => append_request_sent dst
  | ev_snapshot_sent id dst reply => snapshot_sent id dst reply
  | ev_tick is_alive => server_tick is_alive
  | ev_wait_for_leader => _ ← server_wait_for_leader; mret tt
  | ev_wait_for_state_change => _ ← on_waiters wait_for_state_change; mret tt
  | ev_wait_for_next_tick => _ ← (s ← gets (fun s => s); on_waiters (wait_for_next_tick (s_aborted s))); mret tt
  | ev_wait_for_entry eid type ab => _ ← server_wait_for_entry eid type ab; mret tt
  | ev_wait_for_apply idx ab => _ ← server_wait_for_apply idx ab; mret tt
  | ev_abort_waiter type idx => on_waiters (abort_waiter type idx)
  | ev_add_entry cmd type ab => _ ← add_entry_locally cmd type ab; mret tt
  | ev_execute_add_entry from cmd => _ ← execute_add_entry from cmd; mret tt
  | ev_set_configuration c_new ab => _ ← set_configuration c_new ab; mret tt
  | ev_modify_config from add del ab => _ ← execute_modify_config from add del ab; mret tt
  | ev_abort_configuration_change =>
    s ← gets (fun s => s);
    when (bool_decide (w_non_joint_conf_commit_promise (s_waiters s) <> None)) abort_configuration_change
  | ev_read_barrier from ab => _ ← execute_read_barrier from ab; mret tt
  | ev_stepdown timeout => _ ← stepdown timeout; mret tt
  | ev_trigger_snapshot => _ ← trigger_snapshot; mret tt
  | ev_begin_abort => begin_abort
  | ev_release_waiters => release_waiters
  | ev_end_abort => end_abort
  end.

(** Somebody waits for this very entry already. *)
Definition awaited s (eid : entry_id) (type : wait_type) : Prop :=
  exists p, (eid_idx eid, OpStatus (eid_term eid) p) ∈ container type (s_waiters s).

(** The id of the entry that is added next. *)
Definition next_entry s : entry_id := EntryId (f_current_term (s_fsm s)) (log_last (f_log (s_fsm s)) + 1).

Definition small_members (c_new : config_member_set) : Prop := Z.of_nat (size c_new) < 2 ^ 32.

(** What is assumed about an event: other servers follow the protocol as far as a
    single message shows it, and a step of the applier is as [sound_step] says. *)
Definition valid_event s (e : event) : Prop :=
  match e with
  | ev_applier r => sound_step s r
  | ev_receive from msg => valid_call (s_fsm s) (CallStep from msg) /\ storable_call (CallStep from msg)
  | ev_receive_snapshot from m =>
    valid_call (s_fsm s) (CallStep from (msg_install_snapshot m)) /\ storable_call (CallStep from (msg_install_snapshot m))
  | ev_snapshot_sent _ _ reply =>
    match reply with Some r => 0 <= srep_current_term r < u64_modulus - 1 | None => True end
  | ev_wait_for_entry eid _ _ => 0 <= eid_idx eid
  | ev_set_configuration c_new _ => small_members c_new
  | ev_modify_config _ add del _ =>
    forall cfg, get_configuration (f_log (s_fsm s)) = Ret cfg -> small_members (modify_members (current cfg) add del)
  | _ => True
  end.

(** ** Calls of the state machine *)

(** A result may be looked at that [run_call] drops. *)
Lemma wp_undiscard {A} (m : FSM A) (Q : fsm -> Prop) X B f :
  wp (_ ← m; mret tt) (fun _ => Q) X B f -> wp m (fun _ => Q) X B f.
Proof. unfold wp, mbind, M_bind. by destruct (m f) as [[] f']. Qed.

Lemma call_stays s k : server_ok s -> in_range (s_fsm s) -> valid_call (s_fsm s) k -> storable_call k ->
  k <> CallGetOutput -> wp (on_fsm (run_call k)) (fun _ => stays_ok) (fun _ => stays_ok) (fun _ => False) s.
Proof.
  intros Hs Hr Hv Hst Hc. pose proof Hs as [_ _ [Hwf Hrep _ _] _ _ _].
  pose proof (run_call_safe (s_fsm s) k Hwf (room_in_range _ Hr) Hv) as Hsafe.
  pose proof (fun o f' => run_call_moves k (s_fsm s) o f' Hwf (room_in_range _ Hr) Hv Hst Hc Hrep) as Hm.
  apply on_fsm_wp. unfold safe, wp in *. destruct (run_call k (s_fsm s)) as [[] f']; [apply stays_moved; eauto..|done].
Qed.

(** The same for calls with a result that [run_call] drops. *)
Lemma result_stays s {A} (m : FSM A) k : run_call k = (_ ← m; mret tt) -> server_ok s -> in_range (s_fsm s) ->
  valid_call (s_fsm s) k -> storable_call k -> k <> CallGetOutput ->
  wp (on_fsm m) (fun _ => stays_ok) (fun _ => stays_ok) (fun _ => False) s.
Proof.
  intros Heq Hs Hr Hv Hst Hc. pose proof (call_stays s k Hs Hr Hv Hst Hc) as Hw. rewrite Heq in Hw.
  unfold wp, on_fsm, mbind, M_bind in *. by destruct (m (s_fsm s)) as [[] f'].
Qed.

(** The server with the state machine of [s] and the same invariant. *)
Lemma same_server s s' : same s s' -> s_fsm s' = s_fsm s /\ forall type, container type (s_waiters s') = container type (s_waiters s).
Proof. by intros [[= _ _ -> _ _ _ _ _ _ _] ?]. Qed.

Lemma wp_same {A} (m : M server server_error A) B s : keeps same m -> settles m -> stays_ok s ->
  wp m (fun _ => stays_ok) (fun _ => stays_ok) B s.
Proof. intros Hk Hm Hs. eapply wp_settles; [exact Hk|exact Hm|intros; by eapply stays_ok_same..]. Qed.

Lemma wp_stays_bind {A A'} (m : M server server_error A) (k : A -> M server server_error A') B s :
  wp m (fun _ => stays_ok) (fun _ => stays_ok) B s ->
  (forall a s', stays_ok s' -> wp (k a) (fun _ => stays_ok) (fun _ => stays_ok) B s') ->
  wp (m ≫= k) (fun _ => stays_ok) (fun _ => stays_ok) B s.
Proof. intros Hm Hk. apply wp_bind. eapply wp_mono; [exact Hm|by intros; apply Hk|done|done]. Qed.

Lemma stays_drop {A} (m : M server server_error A) B s :
  wp m (fun _ => stays_ok) (fun _ => stays_ok) B s -> wp (_ ← m; mret tt) (fun _ => stays_ok) (fun _ => stays_ok) B s.
Proof. intros Hm. apply wp_stays_bind; [done|]. intros. by apply wp_ret. Qed.

Lemma wp_catching {A} (m : M server server_error A) h (P : server -> Prop) B s :
  wp m (fun _ => P) (fun _ => P) B s -> wp (catching m h) (fun _ => P) (fun _ => P) B s.
Proof. unfold wp, catching. destruct (m s) as [[|e|] s']; [done| |done]. by destruct (h e). Qed.

(** ** Waits *)

Lemma on_waiters_settles {A} (m : M waiters server_error A) : settles m -> settles (on_waiters (D := D) m).
Proof. intros Hm s r. specialize (Hm (s_waiters s) r). unfold on_waiters. by destruct (m (s_waiters s)) as [[] w]. Qed.
Hint Extern 1 (settles (on_waiters _)) => apply on_waiters_settles; solve [settles_auto] : settles.

Lemma check_not_aborted_settles b : settles (check_not_aborted b).
Proof. unfold check_not_aborted. settles_auto. Qed.
Lemma new_promise_returns : returns new_promise.
Proof. unfold new_promise. returns_auto. Qed.
Hint Resolve check_not_aborted_settles : settles.
Hint Resolve new_promise_returns : returns.
Lemma ensure_not_aborted_settles : settles (ensure_not_aborted (D := D)).
Proof. unfold ensure_not_aborted. settles_auto. Qed.
Hint Resolve ensure_not_aborted_settles : settles.

(** The waiters with a new one, or with some gone. *)
Lemma stays_waiters s w : stays_ok s -> waiters_ok (s_set_waiters w s) -> stays_ok (s_set_waiters w s).
Proof.
  intros [[] Hok] Hw. split; [by split|]. intros Hr. destruct (Hok Hr) as [? ? ? [] _ ?]. by split.
Qed.

Lemma waiters_shrink s w : waiters_ok s -> (forall t, container t w `sublist_of` container t (s_waiters s)) ->
  waiters_ok (s_set_waiters w s).
Proof.
  intros [[Ho Ha] Hc] Hsub. split; [split; intros t|]; cbn.
  - by eapply ordered_sublist; [apply Hsub|].
  - by eapply all_above_sublist; [apply Hsub|].
  - eapply all_above_sublist; [apply (Hsub wait_committed)|done].
Qed.

Lemma wait_for_entry_stays s eid type ab : stays_ok s -> 0 <= eid_idx eid ->
  wp (server_wait_for_entry eid type ab) (fun _ => stays_ok) (fun _ => stays_ok) (fun _ => awaited s eid type) s.
Proof.
  intros Hs Hi. pose proof Hs as [[Hwf Happ Htold [Hw Hc]] _]. unfold server_wait_for_entry. apply wp_bind, wp_gets, on_waiters_wp.
  destruct (wait_for_entry_cases (s_fsm s) (s_applied_idx s) (s_aborted s) ab eid type (s_waiters s))
    as (o & w' & Ho & [[Hout Hw']|[-> ?]]); [done|done|lia|done| |by unfold wp; rewrite Ho].
  unfold wp. rewrite Ho. assert (stays_ok (s_set_waiters w' s)) as Hend.
  { apply stays_waiters; [done|]. split; [done|]. destruct Hout as [| | | | |w' t Ha Hcm Hk Hres Hel Hother]; try done.
    cbn. unfold told in *. cbn. unfold all_above in *. rewrite Forall_forall in Hc |- *. destruct type.
    - intros x [-> |[? _]]%Hel; [simpl; specialize (Hcm eq_refl); lia|by apply Hc].
    - specialize (Hother wait_committed ltac:(done)). cbn in Hother. by rewrite Hother. }
  by destruct Hout.
Qed.

(** ** Entries *)

Lemma next_entry_idx s : fsm_wf (s_fsm s) -> 0 <= eid_idx (next_entry s).
Proof. intros [[_ [] _ _ _ _] _]. simpl. lia. Qed.

Lemma add_entry_stays s d : server_ok s -> in_range (s_fsm s) -> valid_call (s_fsm s) (CallAddEntry d) ->
  wp (on_fsm (add_entry d)) (fun e s' => stays_ok s' /\ s_waiters s' = s_waiters s /\
    EntryId (e_term e) (e_idx e) = next_entry s) (fun _ => stays_ok) (fun _ => False) s.
Proof.
  intros Hs Hr Hd. pose proof (result_stays s (add_entry d) (CallAddEntry d) eq_refl Hs Hr Hd I ltac:(done)) as Hw.
  assert (wp (add_entry d) (entry_added (s_fsm s) d) (fun _ f' => f' = s_fsm s) (fun _ => False) (s_fsm s)) as Ha.
  { apply add_entry_wp; [by destruct Hs as [_ _ []]|by apply rm_log, room_in_range|exact Hd]. }
  unfold wp, on_fsm in *. destruct (add_entry d (s_fsm s)) as [[e|e|r] f']; [|done..].
  destruct Ha. split_and!; [done|done|]. unfold next_entry. congruence.
Qed.

Lemma add_entry_on_leader_stays s cmd : server_ok s -> in_range (s_fsm s) ->
  wp (add_entry_on_leader cmd) (fun eid s' => stays_ok s' /\ s_waiters s' = s_waiters s /\ eid = next_entry s)
    (fun _ => stays_ok) (fun _ => False) s.
Proof.
  intros Hs Hr. unfold add_entry_on_leader. apply wp_bind.
  eapply wp_mono; [by apply (add_entry_stays s)| |done|done]. intros e s' (? & ? & ?). by apply wp_ret.
Qed.

Lemma add_entry_locally_stays s cmd type ab : server_ok s -> in_range (s_fsm s) ->
  wp (add_entry_locally cmd type ab) (fun _ => stays_ok) (fun _ => stays_ok) (fun _ => awaited s (next_entry s) type) s.
Proof.
  intros Hs Hr. unfold add_entry_locally. apply wp_bind, wp_gets. pose proof (ok_stays s Hs) as Hst.
  destruct (_ >? _); [by apply wp_throw|]. destruct (negb _); [by apply wp_throw|]. apply wp_bind.
  eapply wp_mono; [by apply add_entry_on_leader_stays| |done|done]. intros eid s' (Hs' & Hw & ->).
  eapply wp_mono; [apply wait_for_entry_stays; [done|apply next_entry_idx; by destruct Hs as [_ _ []]]|done|done|].
  unfold awaited. by rewrite Hw.
Qed.

(** Who asks is looked up in the configuration. *)
Lemma accepts_wp s from (Q : bool -> server -> Prop) X B : fsm_wf (s_fsm s) -> (forall b, Q b s) -> wp (accepts from) Q X B s.
Proof.
  intros Hwf HQ. unfold accepts. apply wp_bind, wp_gets. destruct (_ =? _)%N; [by apply wp_ret|].
  rewrite get_configuration_wp by by destruct Hwf. by apply wp_bind, wp_ret, wp_ret.
Qed.

Lemma execute_add_entry_stays s from cmd : server_ok s -> in_range (s_fsm s) ->
  wp (execute_add_entry from cmd) (fun _ => stays_ok) (fun _ => stays_ok) (fun _ => False) s.
Proof.
  intros Hs Hr. unfold execute_add_entry. apply wp_bind, accepts_wp; [by destruct Hs as [_ _ []]|]. intros ok.
  destruct (negb ok); [by apply wp_ret, ok_stays|]. apply wp_catching, wp_bind.
  eapply wp_mono; [by apply add_entry_on_leader_stays| |done|done]. intros eid s' (? & _). by apply wp_ret.
Qed.

(** ** Configurations *)

Lemma wait_for_joint_stays s eid ab : stays_ok s -> 0 <= eid_idx eid ->
  wp (wait_for_joint eid ab) (fun _ => stays_ok) (fun _ => stays_ok) (fun _ => awaited s eid wait_committed) s.
Proof.
  intros Hs Hi. pose proof (wait_for_entry_stays s eid wait_committed ab Hs Hi) as Hw.
  unfold wp, wait_for_joint in *. destruct (server_wait_for_entry _ _ _ _) as [[|e|] s']; [done| |done].
  eapply stays_ok_same; [|exact Hw]. split; [done|]. by intros [].
Qed.

Lemma set_configuration_stays s c_new ab : server_ok s -> in_range (s_fsm s) -> small_members c_new ->
  wp (set_configuration c_new ab) (fun _ => stays_ok) (fun _ => stays_ok)
    (fun _ => awaited s (next_entry s) wait_committed) s.
Proof.
  intros Hs Hr Hsmall. unfold set_configuration. pose proof (ok_stays s Hs) as Hst.
  apply wp_bind. unfold ensure_not_aborted, check_not_aborted. apply wp_bind, wp_gets, on_waiters_wp.
  destruct (s_aborted s); [by apply wp_throw; destruct s|]. apply wp_ret.
  replace (s_set_waiters (s_waiters s) s) with s by by destruct s.
  apply wp_bind, wp_gets. rewrite get_configuration_wp by by destruct Hs as [_ _ [[]]]. apply wp_bind, wp_ret. cbv zeta.
  destruct (_ && _); [by apply wp_ret|]. destruct (bool_decide _); [by apply wp_throw|]. apply wp_bind.
  eapply wp_mono; [apply (add_entry_stays s); [done|done|]| |done|done].
  { simpl. by intros ? [= <-]. }
  intros e s1 (Hs1 & Hw1 & Heid). rewrite Heid.
  apply wp_bind, (wp_returning same); [auto with keeps|apply on_waiters_returns; auto with returns|]. intros p s2 Hs2.
  apply wp_bind, (wp_returning same).
  { apply on_waiters_same, keeps_modify. by intros w []. }
  { apply on_waiters_returns; auto with returns. }
  intros [] s3 Hs3. apply wp_stays_bind; [|intros; by apply wp_ret].
  assert (same s1 s3) as Hs13 by (by etrans).
  eapply wp_mono; [apply wait_for_joint_stays; [by eapply stays_ok_same|apply next_entry_idx; by destruct Hs as [_ _ []]]|done|done|].
  unfold awaited. destruct Hs13 as [_ Hw]. by rewrite Hw, Hw1.
Qed.

Lemma execute_modify_config_stays s from add del ab : server_ok s -> in_range (s_fsm s) ->
  valid_event s (ev_modify_config from add del ab) ->
  wp (execute_modify_config from add del ab) (fun _ => stays_ok) (fun _ => stays_ok)
    (fun _ => awaited s (next_entry s) wait_committed) s.
Proof.
  intros Hs Hr Hsmall. unfold execute_modify_config. apply wp_bind, accepts_wp; [by destruct Hs as [_ _ []]|]. intros ok.
  destruct (negb ok); [by apply wp_ret, ok_stays|]. apply wp_bind, wp_gets.
  assert (get_configuration (f_log (s_fsm s)) = Ret (active_configuration (f_log (s_fsm s)))) as Hcfg.
  { apply get_configuration_wp. by destruct Hs as [_ _ [[]]]. }
  rewrite Hcfg. apply wp_bind, wp_ret, wp_catching, wp_stays_bind; [|intros; by apply wp_ret].
  apply set_configuration_stays; auto.
Qed.
(** ** The other calls *)

Lemma receive_snapshot_stays s from m : server_ok s -> in_range (s_fsm s) -> valid_event s (ev_receive_snapshot from m) ->
  wp (receive_snapshot from m) (fun _ => stays_ok) (fun _ => stays_ok) (fun _ => False) s.
Proof.
  intros Hs Hr [Hv Hst]. unfold receive_snapshot. apply wp_bind, wp_gets.
  destruct (_ !! from); [by apply wp_ret, ok_stays|].
  apply wp_stays_bind; [by apply (call_stays s (CallStep from (msg_install_snapshot m)))|]. intros [] s1 Hs1.
  apply wp_same; [keeps_auto|settles_auto|done]. unfold on_links. auto with settles returns.
Qed.

Lemma snapshot_sent_stays s id dst reply : server_ok s -> in_range (s_fsm s) -> valid_event s (ev_snapshot_sent id dst reply) ->
  wp (snapshot_sent id dst reply) (fun _ => stays_ok) (fun _ => stays_ok) (fun _ => False) s.
Proof.
  intros Hs Hr Hv. unfold snapshot_sent. apply wp_bind, wp_gets. destruct (bool_decide _).
  { apply wp_same; [auto with keeps|unfold on_links; auto with settles returns|by apply ok_stays]. }
  unfold on_links. apply wp_bind, wp_modify, wp_bind, wp_gets.
  match goal with |- wp _ _ _ _ ?s' => assert (server_ok s') as Hs' by (apply (server_ok_same s); [by split|done]) end.
  apply (call_stays _ (CallStep dst _)); [done|done| |done|done].
  simpl in *. split; [|done]. destruct reply as [r|]; simpl; [done|]. destruct Hs as [_ _ [[[]]]], Hr. unfold u64_modulus. lia.
Qed.

Lemma tick_stays s is_alive : server_ok s -> in_range (s_fsm s) ->
  wp (server_tick is_alive) (fun _ => stays_ok) (fun _ => stays_ok) (fun _ => False) s.
Proof.
  intros Hs Hr. unfold server_tick. apply wp_stays_bind; [by apply (call_stays s (CallTick is_alive))|]. intros [] s1 Hs1.
  apply wp_bind, wp_gets, wp_when; intros _; [|done].
  apply wp_same; [|auto with settles returns|done]. apply on_waiters_same, settle_same. by intros p w [].
Qed.

Lemma wait_for_leader_stays s : server_ok s -> in_range (s_fsm s) ->
  wp server_wait_for_leader (fun _ => stays_ok) (fun _ => stays_ok) (fun _ => False) s.
Proof.
  intros Hs Hr. unfold server_wait_for_leader. apply wp_bind, wp_gets, wp_stays_bind.
  - apply wp_when; [intros Hl%N.eqb_eq|intros _; by apply ok_stays]. by apply (call_stays s CallPingLeader).
  - intros [] s1 Hs1. apply wp_same; [auto with keeps| |done]. unfold wait_for_leader, share. settles_auto.
Qed.

Lemma read_barrier_stays s from ab : server_ok s -> in_range (s_fsm s) ->
  wp (execute_read_barrier from ab) (fun _ => stays_ok) (fun _ => stays_ok) (fun _ => False) s.
Proof.
  intros Hs Hr. unfold execute_read_barrier. apply wp_bind.
  apply (wp_settles same); [auto with keeps|auto with settles| |intros; eapply stays_ok_same, ok_stays; done].
  intros [] s1 Hsame. apply (server_ok_same _ _ Hsame) in Hs as Hs1. apply same_server in Hsame as [Hf _].
  apply wp_stays_bind.
  { apply wp_catching, wp_stays_bind; [|intros; by apply wp_ret].
    apply (result_stays s1 _ (CallStartReadBarrier from)); [done|done|by rewrite Hf|done|done|done]. }
  intros r s2 Hs2. apply wp_same; [|unfold push_read; settles_auto|done].
  destruct r as [r|[id idx]]; keeps_auto.
Qed.

Lemma stepdown_stays s timeout : server_ok s -> in_range (s_fsm s) ->
  wp (stepdown timeout) (fun _ => stays_ok) (fun _ => stays_ok) (fun _ => False) s.
Proof.
  intros Hs Hr. unfold stepdown. apply wp_bind, wp_gets. destruct (bool_decide _); [by apply wp_throw, ok_stays|].
  apply wp_stays_bind; [by apply (call_stays s (CallTransferLeadership timeout))|]. intros [] s1 Hs1.
  apply wp_same; [keeps_auto|settles_auto|done].
Qed.

Lemma trigger_snapshot_stays s : stays_ok s -> wp trigger_snapshot (fun _ => stays_ok) (fun _ => stays_ok) (fun _ => False) s.
Proof.
  intros Hs. apply wp_same; [|unfold trigger_snapshot; settles_auto|done]. unfold trigger_snapshot. keeps_auto.
  apply keeps_modify. by split.
Qed.

Lemma abort_waiter_stays s type idx : stays_ok s ->
  wp (on_waiters (abort_waiter type idx)) (fun _ => stays_ok) (fun _ => stays_ok) (fun _ => False) s.
Proof.
  intros Hs. apply on_waiters_wp. unfold abort_waiter. apply wp_bind, wp_gets. destruct (map_find _ _); [|by apply wp_ret; destruct s].
  apply wp_modify, stays_waiters, waiters_shrink; [done|by destruct Hs as [[]]|]. intros t.
  destruct (decide (t = type)) as [-> |Hne].
  - rewrite container_set_same. apply map_erase_sublist.
  - by rewrite container_set_other, container_resolve.
Qed.

Lemma begin_abort_stays s : server_ok s -> in_range (s_fsm s) ->
  wp begin_abort (fun _ => stays_ok) (fun _ => stays_ok) (fun _ => False) s.
Proof.
  intros Hs Hr. unfold begin_abort. do 2 apply wp_bind, wp_modify. apply wp_bind.
  assert (server_ok (s_set_aborted true (s_set_is_alive false s))) as Hs1 by (destruct Hs as [? ? ? [] []]; by split).
  pose proof (call_stays _ CallStop Hs1 Hr I I ltac:(done)) as Hw. unfold wp, on_fsm in Hw |- *. cbn [run_call] in Hw.
  destruct (stop _) as [[[]|e|r] f']; [|done..]. destruct Hw as [[? ? ? Hwo] Hok].
  split; [split; [done|done|done|by destruct Hwo]|].
  intros Hr2. destruct (Hok Hr2) as [? ? ? [] Hwo' ?]. split; [done|done|done|by split|by destruct Hwo'|done].
Qed.

Lemma release_waiters_stays s : stays_ok s -> wp release_waiters (fun _ => stays_ok) (fun _ => stays_ok) (fun _ => False) s.
Proof.
  intros Hs. unfold release_waiters. apply wp_bind, wp_gets. destruct (s_io s); try by apply wp_ret.
  destruct (s_applier s); try by apply wp_ret. apply wp_stays_bind.
  { apply wp_same; [|auto with settles returns|done]. apply on_waiters_same, keeps_modify. by intros w []. }
  intros [] s1 Hs1. unfold abort_waiters. apply on_waiters_wp, wp_bind, wp_modify.
  match goal with |- wp _ _ _ _ ?w => set (w1 := w) end.
  assert (stays_ok (s_set_waiters w1 s1)) as Hs2.
  { apply stays_waiters, waiters_shrink; [done|by destruct Hs1 as [[]]|]. intros []; apply sublist_nil_l. }
  eapply (wp_returning same_waiting); [|returns_auto|].
  - keeps_auto. apply settle_same. by intros p w [].
  - intros [] w2 Hw2. eapply stays_ok_same; [|exact Hs2]. by split.
Qed.

(** ** Every event *)

(** Where an assertion is not known to hold: when a message about a snapshot is sent,
    when a snapshot is triggered while one of another server waits to be loaded, and
    when an entry is waited for that somebody waits for already. *)
Definition may_fail s (e : event) : Prop :=
  match e with
  | ev_io _ => exists b req, s_io s = io_busy send_messages b req /\ Exists about_snapshot (o_messages b)
  | ev_applier _ => trigger_overtaken s
  | ev_wait_for_entry eid type _ => awaited s eid type
  | ev_add_entry _ type _ => awaited s (next_entry s) type
  | ev_set_configuration _ _ | ev_modify_config _ _ _ _ => awaited s (next_entry s) wait_committed
  | _ => False
  end.

Lemma event_stays s e : server_ok s -> in_range (s_fsm s) -> valid_event s e ->
  wp (run_event e) (fun _ => stays_ok) (fun _ => stays_ok) (fun _ => may_fail s e) s.
Proof.
  intros Hs Hr Hv. pose proof (ok_stays s Hs) as Hst.
  destruct e; cbn [run_event may_fail]; try apply stays_drop.
  - eapply wp_mono; [by apply io_step_ok|done..].
  - eapply wp_mono; [by apply applier_step_ok|done..].
  - destruct Hv. by apply (call_stays s (CallStep from msg)).
  - by apply receive_snapshot_stays.
  - apply wp_same; [auto with keeps| |done]. unfold append_request_sent, on_links. settles_auto.
  - by apply snapshot_sent_stays.
  - by apply tick_stays.
  - by apply wait_for_leader_stays.
  - apply wp_same; [auto with keeps| |done]. unfold wait_for_state_change, share. settles_auto.
  - apply wp_bind, wp_gets, wp_same; [auto with keeps| |done]. unfold wait_for_next_tick, share. settles_auto.
  - by apply wait_for_entry_stays.
  - unfold server_wait_for_apply. apply wp_bind, wp_gets, wp_same; [auto with keeps| |done].
    unfold wait_for_apply. settles_auto.
  - by apply abort_waiter_stays.
  - by apply add_entry_locally_stays.
  - by apply execute_add_entry_stays.
  - by apply set_configuration_stays.
  - by apply execute_modify_config_stays.
  - apply wp_bind, wp_gets, wp_when; [intros Hsub|done]. unfold abort_configuration_change.
    apply wp_bind, wp_gets, wp_bind. rewrite Hsub. apply wp_ret.
    apply wp_same; [|auto with settles returns|done]. apply on_waiters_same, settle_same. by intros p w [].
  - by apply read_barrier_stays.
  - by apply stepdown_stays.
  - by apply trigger_snapshot_stays.
  - by apply begin_abort_stays.
  - by apply release_waiters_stays.
  - unfold end_abort. apply wp_same; [keeps_auto|unfold abort_promises; settles_auto|done].
Qed.
(** ** Starting *)

(** What [start] makes of the contents [c]: all of them, but for the [server_info] of
    the members of the snapshot. *)
Record restored c s : Prop := {
  rs_term_and_vote : ob_current_term (f_observed (s_fsm s)) = c_term c /\ ob_voted_for (f_observed (s_fsm s)) = c_vote c;
  rs_snapshot : strip_snapshot (l_snapshot (f_log (s_fsm s))) = strip_snapshot (c_snapshot c);
  rs_entries : c_log c `prefix_of` l_log (f_log (s_fsm s));
  rs_commit : c_commit c <= f_commit_idx (s_fsm s);
  rs_applied : s_applied_idx s = snp_idx (c_snapshot c);
}.

Lemma start_ok id config (d : D) c : id <> no_id ->
  0 <= sc_snapshot_trailing config /\ 0 <= sc_snapshot_trailing_size config -> holds d c -> bootable c ->
  exists s, start id config d = Ret s /\ s_id s = id /\ s_config s = config /\ s_disk s = d /\ restored c s /\ stays_ok s.
Proof.
  intros Hid Hconf Hd Hb. unfold start.
  destruct (load_snapshot_descriptor_ok _ _ Hd) as (snp & Hsnp & Hstrip).
  rewrite (load_term_and_vote_ok _ _ Hd), (load_commit_idx_ok _ _ Hd), Hsnp, (load_log_ok _ _ Hd).
  destruct (make_fsm_booted id c snp (sc_max_command_size config) (FsmConfig (sc_append_request_threshold config)
    (sc_max_log_size config) (sc_enable_prevoting config)) Hid Hb Hstrip) as (l & f & Hl & Hcom & Hst & (cfg & Hcfg) & Hf & Hbo & Hsync).
  cbn. rewrite Hl. cbn. rewrite Hcfg. cbn. zbool. rewrite Hf. cbn. eexists. split; [reflexivity|]. destruct Hbo.
  destruct bo_observed as (Ht & Hv & Hc). cbn in Hc, bo_snapshot, bo_entries, bo_commit_idx.
  pose proof Hb as [_ (H0 & [_ Hnone] & _) _ _]. destruct (recovered_snapshot _ _ Hstrip) as [(Hsi & _ & Hsid) _].
  set (applied := if negb (snp_id snp =? no_id)%N then snp_idx snp else 0).
  assert (applied = snp_idx (c_snapshot c)) as Happ.
  { unfold applied. destruct (N.eqb_spec (snp_id snp) no_id) as [Heq|]; [|done]. simpl. rewrite Hnone; congruence. }
  split_and!; [done|done|done|split; [done|cbn; by rewrite bo_snapshot|done..]|]. split.
  - split; cbn; [done|lia| |by split; [split; intros []|]; constructor]. pose proof bo_wf as [[] _]. cbn. lia.
  - cbn. intros Hr. destruct (bo_sync Hr) as [Hready _]. split; cbn; [done|done|done| | |].
    + split; cbn; [done|lia|lia| |done]. intros _ _. exists applied. split_and!; [done|lia|intros; lia].
    + by split; [split; intros []|]; constructor.
    + left. exists c. split; [done|]. unfold disk_ok. cbn. rewrite Hst. by apply Hsync.
Qed.

(** The states of a server that was started and to which valid events happened, as
    long as numbers stay in range and no assertion fails. *)
Inductive runs (id : server_id) (config : server_config) : server -> Prop :=
| runs_start d c s : holds d c -> bootable c -> start id config d = Ret s -> runs id config s
| runs_event s e o s' : runs id config s -> in_range (s_fsm s) -> valid_event s e ->
    run_event e s = (o, s') -> (forall r, o <> Abort r) -> runs id config s'.

Section run.
Context (id : server_id) (config : server_config).
Hypothesis Hid : id <> no_id.
Hypothesis Hconf : 0 <= sc_snapshot_trailing config /\ 0 <= sc_snapshot_trailing_size config.

Lemma runs_stay s : runs id config s -> stays_ok s.
Proof using Hid Hconf.
  induction 1 as [d c s Hd Hb Hs|s e o s' _ [_ IH] Hr Hv He Ho].
  - destruct (start_ok id config d c) as (s' & Hs' & _ & _ & _ & _ & ?); [done..|]. congruence.
  - pose proof (event_stays s e (IH Hr) Hr Hv) as Hw. unfold wp in Hw. rewrite He in Hw.
    destruct o as [[]|e'|r]; [done|done|by destruct (Ho r)].
Qed.

Lemma runs_ok s : runs id config s -> in_range (s_fsm s) -> server_ok s.
Proof using Hid Hconf. by intros [_ ?]%runs_stay. Qed.
End run.

(** What is on disk, also in the middle of an operation, is something to start from. *)
Lemma disk_bootable s : server_ok s -> torn s \/ exists c, holds (s_disk s) c /\ disk_ok s c /\ bootable c.
Proof.
  intros [_ _ _ _ _ [(c & Hc & Hd)|?]]; [right|by left]. exists c. split_and!; [done|done|].
  unfold disk_ok in Hd. destruct (s_io s); [by destruct Hd|by destruct Hd as [?%safe_ops_here _]|by destruct Hd|done].
Qed.

(** The disk of [s], or what it has after some writes of the operation that is due. *)
Definition crash_disk s (d : D) : Prop :=
  d = s_disk s \/
  exists phase b req o ops k, s_io s = io_busy phase b req /\ remaining phase (s_last_stable s) b = o :: ops /\
    stores_snapshot o = false /\ d = perform_upto k o (s_disk s).

Lemma crash_bootable s d : server_ok s -> crash_disk s d -> torn s \/ exists c, holds d c /\ bootable c /\
  (s_io s = io_idle \/ s_io s = io_requests -> in_sync c (s_last_stable s) (s_fsm s)).
Proof.
  intros Hs [-> |(phase & b & req & o & ops & k & Hio & Hrem & Ho & ->)];
    (destruct (disk_bootable s Hs) as [?|(c & Hc & Hd & Hb)]; [by left|right]); unfold disk_ok in Hd.
  - exists c. split_and!; [done|done|]. by intros [Hio|Hio]; rewrite Hio in Hd.
  - rewrite Hio, Hrem in Hd. destruct Hd as ((_ & Hv & Hpart & _) & _).
    destruct (perform_upto_ok _ _ o k Hc Hv Ho) as (c' & Hp & Hc'). exists c'. split_and!; [done|by apply Hpart|].
    by intros [Hi|Hi]; rewrite Hi in Hio.
Qed.

(** ** Messages that leave *)

Definition sent s : list (server_id * rpc_message) := k_sent (s_links s).
Definition same_sent s s' : Prop := sent s' = sent s.
#[local] Instance same_sent_preorder : PreOrder same_sent.
Proof. split; [done|]. unfold same_sent. intros s s' s''. congruence. Qed.

Lemma on_fsm_sent {A} (m : FSM A) : keeps same_sent (on_fsm m).
Proof. intros s. unfold wp, on_fsm. by destruct (m (s_fsm s)) as [[] f']. Qed.
Lemma on_waiters_sent {A} (m : M waiters server_error A) : keeps same_sent (on_waiters m).
Proof. intros s. unfold wp, on_waiters. by destruct (m (s_waiters s)) as [[] w']. Qed.
Lemma catching_sent {A} (m : M server server_error A) h : keeps same_sent m -> keeps same_sent (catching m h).
Proof. intros Hm s. apply wp_catching with (P := same_sent s). apply Hm. Qed.
Lemma fiber_sent stopped (body : M server server_error unit) : (forall s, sent (stopped s) = sent s) ->
  keeps same_sent body -> keeps same_sent (fiber stopped body).
Proof.
  intros Hst Hb s. specialize (Hb s). unfold wp, fiber, same_sent in *. destruct (body s) as [[[]|e|r] s']; [done| |done].
  pose proof (Hst s') as Hs'. by destruct e; simpl; rewrite <- Hb, <- Hs'.
Qed.
Hint Extern 1 (keeps same_sent (modify _)) => apply keeps_modify; done : keeps.
Hint Resolve on_fsm_sent on_waiters_sent catching_sent : keeps.

Lemma push_sent m : keeps same_sent (push m).
Proof. unfold push. keeps_auto. Qed.
Lemma call_machine_sent m : keeps same_sent (call_machine m).
Proof. unfold call_machine. keeps_auto. Qed.
Lemma persist_op_sent fails o : keeps same_sent (persist_op fails o).
Proof. unfold persist_op. keeps_auto. Qed.
Lemma next_phase_sent phase b req : keeps same_sent (next_phase phase b req).
Proof. unfold next_phase. keeps_auto. Qed.
Lemma abort_snapshot_transfer_sent id : keeps same_sent (abort_snapshot_transfer id).
Proof. apply keeps_modify. intros s. unfold same_sent, sent. cbn. by destruct (_ !! id). Qed.
Lemma abort_snapshot_transfers_sent : keeps same_sent abort_snapshot_transfers.
Proof. by apply keeps_modify. Qed.
Lemma ensure_not_aborted_sent : keeps same_sent ensure_not_aborted.
Proof. unfold ensure_not_aborted. keeps_auto. Qed.
Hint Resolve push_sent call_machine_sent persist_op_sent next_phase_sent abort_snapshot_transfer_sent
  abort_snapshot_transfers_sent ensure_not_aborted_sent : keeps.

Lemma applier_loop_sent id : keeps same_sent (applier_loop id).
Proof.
  unfold applier_loop, start_batch, finish_batch, start_trigger, describe_snapshot, applier_done. keeps_auto.
Qed.

Lemma process_fsm_output_sent fails phase b req : phase <> send_messages ->
  keeps same_sent (process_fsm_output fails phase b req).
Proof. intros Hp. destruct phase; try done; unfold process_fsm_output; keeps_auto. Qed.
Lemma wait_for_entry_sent eid type ab : keeps same_sent (server_wait_for_entry eid type ab).
Proof. unfold server_wait_for_entry. keeps_auto. Qed.
Lemma wait_for_joint_sent eid ab : keeps same_sent (wait_for_joint eid ab).
Proof.
  intros s. pose proof (wait_for_entry_sent eid wait_committed ab s) as Hw. unfold wp, wait_for_joint in *. by destruct (server_wait_for_entry _ _ _ s) as [[] s'].
Qed.
Hint Resolve wait_for_entry_sent wait_for_joint_sent applier_loop_sent : keeps.

(** Only the io fiber sends. *)
Lemma other_event_sent e : (forall fails, e <> ev_io fails) -> keeps same_sent (run_event e).
Proof.
  intros He. destruct e; try (by destruct (He fails)); cbn [run_event].
  1: { unfold applier_step. apply fiber_sent; [done|]. keeps_auto. }
  all: unfold receive, receive_snapshot, append_request_sent, snapshot_sent, server_tick, server_wait_for_leader,
    server_wait_for_apply, add_entry_locally, execute_add_entry, add_entry_on_leader,
    execute_modify_config, set_configuration, abort_configuration_change, execute_read_barrier, stepdown,
    trigger_snapshot, begin_abort, release_waiters, end_abort, accepts, on_links; keeps_auto;
    apply catching_sent; keeps_auto.
Qed.

(** [s'] has sent some of [ms] besides what [s] has. *)
Definition sends (ms : list (server_id * rpc_message)) s s' : Prop :=
  exists ms', ms' `sublist_of` ms /\ sent s' = sent s ++ ms'.

Lemma sends_nothing ms s s' : same_sent s s' -> sends ms s s'.
Proof. intros Hs. exists []. split; [apply sublist_nil_l|by rewrite app_nil_r]. Qed.
Lemma sends_then ms s s' s'' : sends ms s s' -> same_sent s' s'' -> sends ms s s''.
Proof. intros (ms' & Hsub & Hs') Hs''. exists ms'. split; [done|]. by rewrite Hs''. Qed.

Lemma send_message_sends m s : wp (send_message m.1 m.2) (fun _ => sends [m] s) (fun _ => sends [m] s) (fun _ => True) s.
Proof.
  destruct m as [dst m]. cbn [fst snd].
  assert (forall s', sent s' = sent s ++ [(dst, m)] -> sends [(dst, m)] s s') as Hone by (by exists [(dst, m)]).
  destruct m; cbn [send_message]; unfold send_snapshot, on_links; try (apply wp_modify; by apply Hone).
  - apply wp_bind, wp_gets, wp_bind, wp_lift; [|intros ?|done]; [|by destruct (bool_decide _)].
    intros [] _. apply wp_modify. by apply Hone.
  - apply wp_bind, wp_gets. destruct (_ !! dst); [|by apply wp_lift; [intros ? [=]|intros ? [=]|]].
    apply wp_bind. eapply (wp_keeps same_sent); [keeps_auto|intros _ s1 Hs1|intros; by apply sends_nothing|done].
    apply wp_modify, Hone. unfold same_sent, sent in *. cbn. by rewrite Hs1.
Qed.

Lemma for_each_sends ms s : wp (for_each ms (fun m => send_message m.1 m.2)) (fun _ => sends ms s) (fun _ => sends ms s)
  (fun _ => True) s.
Proof.
  revert s. induction ms as [|m ms IH]; intros s; cbn [for_each]; [by apply wp_ret, sends_nothing|]. apply wp_bind.
  eapply wp_mono; [apply send_message_sends| |intros e s' (ms' & Hsub & Hs')|done].
  - intros [] s1 (m1 & Hsub1 & Hs1). eapply wp_mono; [apply IH| | |done]; intros ? s2 (m2 & Hsub2 & Hs2);
      (exists (m1 ++ m2); split; [by apply (sublist_app m1 [m] m2 ms)|by rewrite Hs2, Hs1, app_assoc]).
  - exists ms'. split; [|done]. etrans; [exact Hsub|]. apply sublist_skip, sublist_nil_l.
Qed.

Lemma send_phase_sends s b req fails : s_io s = io_busy send_messages b req ->
  wp (io_step fails) (fun _ => sends (o_messages b) s) (fun _ => sends (o_messages b) s) (fun _ => True) s.
Proof.
  intros Hio.
  assert (wp (process_fsm_output fails send_messages b req) (fun _ => sends (o_messages b) s) (fun _ => sends (o_messages b) s)
    (fun _ => True) s) as Hw.
  { cbn [process_fsm_output]. unfold process_messages, add_to_rpc_config, remove_from_rpc_config, on_links.
    apply wp_bind, wp_bind, wp_gets. destruct (match o_configuration b with Some _ => _ | None => _ end) as [joining leaving].
    apply wp_bind, wp_modify, wp_bind. match goal with |- wp _ _ _ _ ?s' => set (s1 := s') end.
    eapply wp_mono; [apply for_each_sends| |done|done]. intros [] s2 Hs2. change (sends (o_messages b) s s2) in Hs2.
    eapply (wp_keeps same_sent); [keeps_auto| |intros; by eapply sends_then|done]. intros [] s3 Hs3.
    eapply (wp_keeps same_sent); [keeps_auto| | |done]; intros; eapply sends_then; [done|by etrans|done|by etrans]. }
  unfold wp, io_step, fiber, io_loop, mbind, M_bind, gets in *. rewrite Hio.
  destruct (process_fsm_output _ _ _ _ s) as [[[]|e|r] s']; [done| |done].
  destruct e; eapply sends_then; done.
Qed.

Lemma other_phase_sent s fails : (forall b req, s_io s <> io_busy send_messages b req) ->
  wp (io_step fails) (fun _ => same_sent s) (fun _ => same_sent s) (fun _ => True) s.
Proof.
  intros Hio. assert (wp (io_loop fails) (fun _ => same_sent s) (fun _ => same_sent s) (fun _ => True) s) as Hw.
  { unfold io_loop. apply wp_bind, wp_gets. destruct (s_io s) as [|phase b req| |];
      [| |(eapply (wp_keeps same_sent); [keeps_auto|done..])..].
    - eapply (wp_keeps same_sent); [keeps_auto|done..].
    - eapply (wp_keeps same_sent); [apply process_fsm_output_sent|done..]. intros ->. by destruct (Hio b req). }
  unfold wp, io_step, fiber in *. destruct (io_loop fails s) as [[[]|e|r] s']; try done. by destruct e.
Qed.

(** ** The claims *)

Lemma start_again id config s d : id <> no_id ->
  0 <= sc_snapshot_trailing config /\ 0 <= sc_snapshot_trailing_size config -> server_ok s -> crash_disk s d ->
  torn s \/ exists c r, holds d c /\ start id config d = Ret r /\ restored c r /\ fsm_wf (s_fsm r) /\ runs id config r /\
    (s_io s = io_idle \/ s_io s = io_requests -> in_sync c (s_last_stable s) (s_fsm s)).
Proof.
  intros Hid Hconf Hs Hd. destruct (crash_bootable s d Hs Hd) as [?|(c & Hc & Hb & Hsync)]; [by left|right].
  destruct (start_ok id config d c Hid Hconf Hc Hb) as (r & Hr & _ & _ & _ & Hre & [[] _]).
  exists c, r. split_and!; try done. by eapply runs_start.
Qed.

(** The output is on disk. *)
Record durable (b : fsm_output) (c : contents) : Prop := {
  du_term_and_vote : match o_term_and_vote b with Some (t, v) => c_term c = t /\ c_vote c = v | None => True end;
  du_snapshot : match o_snp b with Some (AppliedSnapshot snp _ _) => c_snapshot c = snp | None => True end;
  du_entries : o_log_entries b `suffix_of` c_log c;
}.


(** C3: A server can be started again from what is on disk at any moment: between two
    outputs, between any two storage operations of one, in the middle of an operation
    after any number of its writes, after an operation has failed with some of its
    writes done, and while the server stops. The new server has the term, the vote,
    the snapshot and the log that are on disk, and everything said here about runs
    holds for it too. If the io fiber is not in the middle of an output, nothing is
    lost: term and vote are those that the old server last reported, and every entry
    that the old server counts as stable is in the log of the new one. The exception is
    the store of a snapshot descriptor: nothing is said about its middle, and if it
    fails the fiber has stopped and the disk has some of its writes ([torn]). *)
Theorem restart_correct id config s d : id <> no_id ->
  0 <= sc_snapshot_trailing config /\ 0 <= sc_snapshot_trailing_size config ->
  runs id config s -> in_range (s_fsm s) -> crash_disk s d ->
  torn s \/
  exists c r, holds d c /\ start id config d = Ret r /\ restored c r /\
    fsm_wf (s_fsm r) /\ runs id config r /\
    (s_io s = io_idle \/ s_io s = io_requests ->
      ob_current_term (f_observed (s_fsm r)) = ob_current_term (f_observed (s_fsm s)) /\
      ob_voted_for (f_observed (s_fsm r)) = ob_voted_for (f_observed (s_fsm s)) /\
      forall i e, i <= l_stable_idx (f_log (s_fsm s)) -> entry_at (f_log (s_fsm s)) i = Some e ->
        e ∈ l_log (f_log (s_fsm r))).
Proof.
  intros Hid Hconf Hruns Hr Hd. pose proof (runs_ok id config Hid Hconf s Hruns Hr) as Hs.
  destruct (start_again id config s d Hid Hconf Hs Hd) as [?|(c & r & Hc & Hst & Hre & Hwf & Hrun & Hsync)]; [by left|right].
  exists c, r. split_and!; try done. intros Hio. destruct (Hsync Hio) as [_ [Ht Hv] _ _ Hlog].
  destruct Hre as [[Ht' Hv'] _ Hes _ _]. split_and!; [congruence|congruence|]. intros i e Hi He.
  eapply elem_of_prefix; [|exact Hes]. destruct (o_snp (f_output (s_fsm s))).
  - destruct Hlog as (_ & _ & Hall). by eapply Hall.
  - destruct Hlog. by eapply ma_stable.
Qed.

End runs.

(** * Examples *)

Module ServerExamples.
#[local] Existing Instance example_env.
#[local] Existing Instance StorageExamples.plain_codec.
#[local] Existing Instance StorageExamples.plain_codec_ok.
#[local] Instance system_tables : persistence tables := table_persistence 1000.

Definition config : server_config := ServerConfig 100 10000 10 1000 1000 100000 false true 1000.

(** Server 1 of three has the first entry on disk, and knows that it is committed. *)
Definition preparation : list operation :=
  [op_snapshot_descriptor RaftExamples.first_snapshot 0; op_term_and_vote 1 2;
   op_log_entries [LogEntry 1 1 Dummy]; op_commit_idx 1].
Definition disk : tables := foldl (fun d o => perform o d) empty_tables preparation.
Definition on_disk : contents := foldl (fun c o => op_promises o c) initial_contents preparation.

Lemma disk_holds : holds disk on_disk.
Proof.
  apply (@perform_all_ok _ system_tables preparation _ _ empty_tables_hold). unfold preparation.
  cbn [all_valid op_valid]. unfold fits. split_and!; lazymatch goal with |- exists _, _ => idtac | _ => vm_compute; try done end.
  exists 1. split_and!; [by vm_compute|lia|simpl; lia|repeat constructor; simpl; lia|by vm_compute].
Qed.

Lemma on_disk_bootable : bootable on_disk.
Proof.
  split; [by vm_compute|vm_compute; repeat split; congruence| |].
  - exists 1. split; vm_compute; repeat split; congruence.
  - change (Forall storable_entry [LogEntry 1 1 Dummy]). by apply Forall_singleton.
Qed.

(** A run. *)
Definition exec (s : server) (es : list event) : server := fold_left (fun s e => (run_event e s).2) es s.
Definition returned {A} (o : outcome server_error A) : bool := match o with Ret _ => true | _ => false end.
(** Events whose validity is easy to decide. *)
Definition plain_message (f : fsm) (msg : rpc_message) : bool :=
  (0 <=? msg_current_term msg) && (msg_current_term msg <? u64_modulus - 1) &&
  match msg with
  | msg_vote_reply _ => true
  | msg_append_reply r =>
    match arep_result r with
    | accepted_to i => (0 <=? i) && (i <=? log_last (f_log f))
    | rejected rej => (0 <=? rej_non_matching_idx rej) && (rej_non_matching_idx rej <=? log_last (f_log f)) &&
        (rej_last_idx rej =? 0)
    end
  | _ => false
  end.
Definition rememberedb (l : log) : bool := negb (l_prev_conf_idx l =? 0) || (length (conf_indexes l) <=? 1)%nat.
Definition plain (s : server (D := tables)) (e : event) : bool :=
  match e with
  | ev_io _ | ev_tick _ | ev_trigger_snapshot | ev_execute_add_entry _ _ => true
  | ev_receive _ msg => plain_message (s_fsm s) msg
  | ev_applier _ => match s_applier s with taking_snapshot _ | triggered_snapshot _ => false | _ => rememberedb (f_log (s_fsm s)) end
  | _ => false
  end.
Definition in_rangeb (f : fsm) : bool := (0 <=? f_current_term f) && (f_current_term f <? 2 ^ 63 - 1) && (log_last (f_log f) <? 2 ^ 63 - 2).
Fixpoint plain_run (s : server) (es : list event) : bool :=
  match es with
  | [] => true
  | e :: es => in_rangeb (s_fsm s) && plain s e && returned (run_event e s).1 && plain_run (run_event e s).2 es
  end.

Lemma plain_valid s e : plain s e = true -> valid_event s e.
Proof.
  destruct e; try done.
  - cbn [plain valid_event]. intros Hp. assert (rememberedb (f_log (s_fsm s)) = true -> conf_remembered (f_log (s_fsm s))) as Hc.
    { unfold rememberedb, conf_remembered. intros Hb H0. rewrite H0 in Hb. by apply Nat.leb_le in Hb. }
    unfold sound_step. destruct (s_applier s); try done; try (by apply Hc). destruct (s_apply_entries s) as [|[] ?]; try done. by apply Hc.
  - cbn [plain valid_event]. unfold plain_message, valid_call, valid_message, storable_call.
    intros [[?%Z.leb_le ?%Z.ltb_lt]%andb_true_iff Hm]%andb_true_iff.
    destruct msg; try done; (split; [split; [done|]|done]); try done. unfold valid_reply.
    destruct (arep_result _) as [rej|i]; rewrite ?andb_true_iff, ?Z.leb_le, ?Z.eqb_eq in Hm; unfold u64_modulus; lia.
Qed.

Lemma in_rangeb_range f : in_rangeb f = true -> in_range f.
Proof. intros [[?%Z.leb_le ?%Z.ltb_lt]%andb_true_iff ?%Z.ltb_lt]%andb_true_iff. split; lia. Qed.

Lemma step_runs id s e : runs id config s -> in_rangeb (s_fsm s) = true -> valid_event s e ->
  returned (run_event e s).1 = true -> runs id config (run_event e s).2.
Proof.
  intros Hs Hr Hv Ho. eapply (runs_event id config s e (run_event e s).1); [done|by apply in_rangeb_range|done|apply surjective_pairing|].
  intros r Heq. by rewrite Heq in Ho.
Qed.

Lemma exec_runs id s es : runs id config s -> plain_run s es = true -> runs id config (exec s es).
Proof.
  revert s. induction es as [|e es IH]; intros s Hs; [done|]. cbn [plain_run].
  intros [[[Hr Hp]%andb_true_iff Ho]%andb_true_iff Hes]%andb_true_iff. apply IH; [|done]. by apply step_runs; [..|apply plain_valid|].
Qed.

(** The server that [start] gives. *)
Definition first_fsm : fsm := initial_fsm 1 1 2 RaftExamples.first_log 0 (FsmConfig 1000 100000 false).
Definition server1 : server := match start 1 config disk with
  | Ret s => s
  | _ => Server 1 config first_fsm disk 0 0 0 [] io_idle applier_idle no_waiters no_links false false true []
  end.

Definition io_round : list event := repeat (ev_io None) 10.
Definition apply_round : list event := repeat (ev_applier (machine_returns no_id)) 2.
(** The snapshot that another server sends. *)
Definition remote_snapshot : install_snapshot :=
  InstallSnapshot 1 (SnapshotDescriptor 5 1 (example_configuration [1%N; 2%N; 3%N]) 8).
(** The first entry is applied and a client asks for a snapshot, which the io fiber
    passes on to the applier; before the applier looks, a snapshot arrives. *)
Definition overtaking : list event := io_round ++ apply_round ++ [ev_trigger_snapshot; ev_io None; ev_io None].

Lemma server1_runs : runs 1 config server1.
Proof.
  destruct (start_ok 1 config disk on_disk) as (s & Hs & _); [done|by vm_compute|apply disk_holds|apply on_disk_bootable|].
  unfold server1. rewrite Hs. by eapply runs_start; [apply disk_holds|apply on_disk_bootable|].
Qed.

Definition requested : server := Eval vm_compute in exec server1 overtaking.
Definition overtaken : server := Eval vm_compute in (run_event (ev_receive_snapshot 2 remote_snapshot) requested).2.
Lemma requested_runs : runs 1 config requested.
Proof.
  assert (requested = exec server1 overtaking) as -> by (vm_compute; reflexivity).
  apply exec_runs; [apply server1_runs|vm_compute; reflexivity].
Qed.
Lemma overtaken_runs : runs 1 config overtaken.
Proof.
  assert (overtaken = (run_event (ev_receive_snapshot 2 remote_snapshot) requested).2) as -> by (vm_compute; reflexivity).
  apply step_runs; [apply requested_runs|vm_compute; reflexivity|vm_compute; repeat split; congruence|vm_compute; reflexivity].
Qed.

(** Server 1 hears nothing, campaigns, and is about to send its requests. *)
Definition campaign_events : list event :=
  io_round ++ apply_round ++ repeat (ev_tick RaftExamples.nobody) 12 ++ repeat (ev_io None) 6.
Definition campaigning : server := Eval vm_compute in exec server1 campaign_events.
Lemma campaigning_runs : runs 1 config campaigning.
Proof.
  assert (campaigning = exec server1 campaign_events) as -> by (vm_compute; reflexivity).
  apply exec_runs; [apply server1_runs|vm_compute; reflexivity].
Qed.


(** The campaign when its term and vote are about to be stored. *)
Definition voting_events : list event := io_round ++ apply_round ++ repeat (ev_tick RaftExamples.nobody) 12 ++ [ev_io None].
Definition voting : server := Eval vm_compute in exec server1 voting_events.
Lemma voting_runs : runs 1 config voting.
Proof.
  assert (voting = exec server1 voting_events) as -> by (vm_compute; reflexivity).
  apply exec_runs; [apply server1_runs|vm_compute; reflexivity].
Qed.

(** Between two outputs, and while the term and the vote are stored. *)
Lemma restart_correct_witness :
  (exists c r, holds (s_disk requested) c /\ start 1 config (s_disk requested) = Ret r /\ fsm_wf (s_fsm r) /\
    LogEntry 1 1 Dummy ∈ l_log (f_log (s_fsm r))) /\
  forall k, exists c r, holds (perform_upto k (op_term_and_vote 2 1%N) (s_disk voting)) c /\
    start 1 config (perform_upto k (op_term_and_vote 2 1%N) (s_disk voting)) = Ret r /\ restored c r /\ fsm_wf (s_fsm r).
Proof.
  split.
  - destruct (restart_correct 1 config requested (s_disk requested)) as [[Hio _]|(c & r & Hc & Hst & _ & Hwf & _ & Hidle)].
    + done.
    + by vm_compute.
    + apply requested_runs.
    + apply in_rangeb_range; vm_compute; reflexivity.
    + by left.
    + done.
    + destruct Hidle as (_ & _ & Hes); [left; vm_compute; reflexivity|]. exists c, r. split; [exact Hc|]. split; [exact Hst|]. split; [exact Hwf|].
      by apply (Hes 1); vm_compute.
  - intros k. destruct (restart_correct 1 config voting (perform_upto k (op_term_and_vote 2 1%N) (s_disk voting)))
      as [[Hio _]|(c & r & Hc & Hst & Hre & Hwf & _)].
    + done.
    + by vm_compute.
    + apply voting_runs.
    + apply in_rangeb_range; vm_compute; reflexivity.
    + right. do 6 eexists. split; [vm_compute; reflexivity|]. split; [vm_compute; reflexivity|]. split; [reflexivity|reflexivity].
    + done.
    + by exists c, r.
Defined.


(** C29: A request for a snapshot can fail an assertion. The server has applied entry
    1, a client has asked for a snapshot and the request is in the applier's queue;
    then the leader's snapshot of index 5 arrives and the state machine takes it,
    dropping the log. Nothing else happens, the server is not being stopped and all
    of it respects the protocol. When the applier handles the request, the term of
    the applied index is not known any more, and the assertion that it is fails. *)
Theorem trigger_snapshot_overtaken :
  exists s, runs 1 config s /\ in_range (s_fsm s) /\ s_aborted s = false /\ s_apply_entries s = [trigger_snapshot_msg] /\
    s_applied_idx s = 1 /\ snp_idx (l_snapshot (f_log (s_fsm s))) = 5 /\
    forall id, (run_event (ev_applier (machine_returns id)) s).1 = Abort assertion_failed.
Proof. exists overtaken. split; [apply overtaken_runs|]. split; [apply in_rangeb_range; vm_compute; reflexivity|]. by vm_compute. Qed.

(** ** A transfer that outlives the leadership *)

(** Server 1 starts with a snapshot of index 5. *)
Definition from_snapshot : list operation := [op_snapshot_descriptor RaftExamples.snapshot5 0; op_term_and_vote 1 2].
Definition disk5 : tables := foldl (fun d o => perform o d) empty_tables from_snapshot.
Definition server5 : server := match start 1 config disk5 with Ret s => s | _ => server1 end.

Lemma server5_runs : runs 1 config server5.
Proof.
  assert (holds disk5 (foldl (fun c o => op_promises o c) initial_contents from_snapshot)) as Hd.
  { apply (@perform_all_ok _ system_tables from_snapshot _ _ empty_tables_hold). vm_compute. repeat split; congruence. }
  match type of Hd with holds _ ?c => set (c5 := c) in * end.
  assert (bootable c5) as Hb.
  { split; [by vm_compute|vm_compute; repeat split; congruence| |by constructor].
    exists 6. split; vm_compute; repeat split; congruence. }
  destruct (start_ok 1 config disk5 c5) as (s & Hs & _); [done|by vm_compute|done|done|].
  unfold server5. rewrite Hs. by eapply runs_start.
Qed.

(** What the other servers answer: 2 votes for server 1 and acknowledges entries, 3
    has an empty log and refuses what does not start at its beginning. *)
Definition grants (t : term_t) : event := ev_receive 2 (msg_vote_reply (VoteReply t true false)).
Definition acknowledges (t : term_t) (i : index_t) : event :=
  ev_receive 2 (msg_append_reply (AppendReply t i (accepted_to i))).
Definition refuses (t : term_t) (i : index_t) : event :=
  ev_receive 3 (msg_append_reply (AppendReply t 0 (rejected (Rejected i 0)))).
Definition silence : list event := repeat (ev_tick RaftExamples.nobody) 12.
Definition client : event := ev_execute_add_entry 1 [].

(** Server 1 leads term 2. It applies entry 6 and has ten more committed entries in
    the applier's queue, which is full then. *)
Definition leading : list event :=
  silence ++ io_round ++ [grants 2] ++ io_round ++ [acknowledges 2 6] ++ io_round ++ apply_round ++
  concat (map (fun i => [client] ++ io_round ++ [acknowledges 2 i] ++ io_round) (seqZ 7 10)).
(** It starts to send its snapshot to server 3. A client has asked for a snapshot, and
    the io fiber waits for room in the queue. Meanwhile entry 17 is acknowledged, and
    then nothing is heard of anybody: the leader steps down and campaigns in term 3. *)
Definition losing : list event :=
  [ev_trigger_snapshot; client; refuses 2 5] ++ io_round ++ [acknowledges 2 17] ++ silence.
(** The applier makes room, and the io fiber sends the requests for votes. While it
    stores the commit index, server 2 votes. *)
Definition regaining : list event :=
  [ev_applier (machine_returns no_id)] ++ repeat (ev_io None) 8 ++ [grants 3] ++ apply_round ++ repeat (ev_io None) 3.
(** Server 3 refuses the new leader's first entry and is due for the snapshot. *)
Definition sending_again : list event := io_round ++ [refuses 3 17] ++ repeat (ev_io None) 6.

Definition lost : server := Eval vm_compute in exec server5 (leading ++ losing).
Definition regained : server := Eval vm_compute in exec lost (regaining ++ sending_again).

Lemma lost_runs : runs 1 config lost.
Proof.
  assert (lost = exec server5 (leading ++ losing)) as -> by (vm_compute; reflexivity).
  apply exec_runs; [apply server5_runs|vm_compute; reflexivity].
Qed.

Lemma regained_runs : runs 1 config regained.
Proof.
  assert (regained = exec lost (regaining ++ sending_again)) as -> by (vm_compute; reflexivity).
  apply exec_runs; [apply lost_runs|vm_compute; reflexivity].
Qed.

(** C30: A transfer of a snapshot can outlive the leadership that it was started for,
    and fail an assertion. The io fiber aborts the transfers when it finds at the end
    of an output that the server does not lead. A leader that steps down while the
    fiber waits for room in the applier's queue, and wins the next election with the
    messages of the very next output, is a leader whenever the fiber looks. The old
    transfer to server 3 still runs when the new leader sends its snapshot to 3, and
    the assertion that no transfer to 3 is running fails. *)
Theorem snapshot_transfer_outlives_leadership :
  exists s b req, runs 1 config lost /\ is_leader (s_fsm lost) = false /\ k_snapshot_transfers (s_links lost) !! 3%N = Some 0%N /\
    s = exec lost (regaining ++ sending_again) /\ runs 1 config s /\ in_range (s_fsm s) /\ s_aborted s = false /\
    is_leader (s_fsm s) = true /\ f_current_term (s_fsm s) = 3 /\ k_snapshot_transfers (s_links s) !! 3%N = Some 0%N /\
    s_io s = io_busy send_messages b req /\ (run_event (ev_io None) s).1 = Abort assertion_failed.
Proof.
  exists regained. do 2 eexists. split; [apply lost_runs|]. split; [vm_compute; reflexivity|]. split; [vm_compute; reflexivity|].
  split; [vm_compute; reflexivity|]. split; [apply regained_runs|]. split; [apply in_rangeb_range; vm_compute; reflexivity|].
  repeat (split; [vm_compute; reflexivity|]). vm_compute. reflexivity.
Qed.
End ServerExamples.
