(* ===== verification/Interval.v ===== *)
(** Intervals of an ordered type ([src/interval.hh]): wrapping intervals, whose
    end may lie before their start, and plain intervals.

    [T] and its comparator are arguments, as they are template parameters in the
    source; [std::strong_ordering] is [comparison]. The comparator is only
    required to be a total order up to the equality it induces, the requirement
    the source states. A call that asserts ends in an [outcome]; a recursive call
    has fuel, which two calls never exhaust. The moving overloads are the copying
    ones; formatting and hashing are left out.
    The theorems are in [IntervalTheory]. *)
From S2P Require Import Prelude.

(** * Definitions *)

(** ** Bounds *)

Definition require_ordering_and_on_equal_return
    (input match_to_return_true : comparison) (return_if_equal : bool) : bool :=
  if bool_decide (input = match_to_return_true) then true
  else if bool_decide (input = Eq) then return_if_equal
  else false.

Record interval_bound (T : Type) := IntervalBound {
  b_value : T;
  b_inclusive : bool;
}.
Arguments IntervalBound {T}.
Arguments b_value {T}.
Arguments b_inclusive {T}.

(** ** Wrapping intervals *)

Record wrapping_interval (T : Type) := RawInterval {
  wi_start : option (interval_bound T);
  wi_end : option (interval_bound T);
  wi_singular : bool;
}.
Arguments RawInterval {T}.
Arguments wi_start {T}.
Arguments wi_end {T}.
Arguments wi_singular {T}.

(** The constructor from two bounds, which drops the end of a singular interval. *)
Definition mk_interval {T} (start end_ : option (interval_bound T)) (singular : bool) : wrapping_interval T :=
  RawInterval start (if singular then None else end_) singular.

(** The constructor from a value. *)
Definition make_singular {T} (value : T) : wrapping_interval T :=
  RawInterval (Some (IntervalBound value true)) None true.

Definition make {T} (start end_ : interval_bound T) : wrapping_interval T :=
  mk_interval (Some start) (Some end_) false.
Definition make_open_ended_both_sides {T} : wrapping_interval T := mk_interval None None false.
Definition make_starting_with {T} (b : interval_bound T) : wrapping_interval T :=
  mk_interval (Some b) None false.
Definition make_ending_with {T} (b : interval_bound T) : wrapping_interval T :=
  mk_interval None (Some b) false.

Definition is_singular {T} (r : wrapping_interval T) : bool := wi_singular r.
Definition is_full {T} (r : wrapping_interval T) : bool :=
  negb (bool_decide (is_Some (wi_start r))) && negb (bool_decide (is_Some (wi_end r))).
Definition start {T} (r : wrapping_interval T) : option (interval_bound T) := wi_start r.
Definition end_ {T} (r : wrapping_interval T) : option (interval_bound T) :=
  if wi_singular r then wi_start r else wi_end r.

Definition reverse_interval {T} (r : wrapping_interval T) : wrapping_interval T :=
  if wi_singular r then r else RawInterval (wi_end r) (wi_start r) (wi_singular r).

Definition unwrap {T} (r : wrapping_interval T) : wrapping_interval T * wrapping_interval T :=
  (mk_interval None (end_ r) false, mk_interval (start r) None false).

Definition transform_bound {T U} (f : T -> U) (b : option (interval_bound T)) : option (interval_bound U) :=
  (fun b => IntervalBound (f (b_value b)) (b_inclusive b)) <$> b.

Definition transform {T U} (f : T -> U) (r : wrapping_interval T) : wrapping_interval U :=
  mk_interval (transform_bound f (wi_start r)) (transform_bound f (wi_end r)) (wi_singular r).

(** Short-circuit disjunction of two fallible conditions. *)
Definition or_else {E} (a b : outcome E bool) : outcome E bool :=
  x ← a; if x : bool then mret true else b.

Section operations.
Context {T : Type} (cmp : T -> T -> comparison).


Definition bound_equal (b other : interval_bound T) : bool :=
  Bool.eqb (b_inclusive b) (b_inclusive other) && bool_decide (cmp (b_value b) (b_value other) = Eq).

(** [greater_than_or_equal(end, start)]. *)
Definition end_ge_start (end_ start : option (interval_bound T)) : bool :=
  match end_, start with
  | Some e, Some s => require_ordering_and_on_equal_return (cmp (b_value e) (b_value s)) Gt
      (b_inclusive e && b_inclusive s)
  | _, _ => true
  end.

(** [less_than(end, start)]. *)
Definition end_lt_start (end_ start : option (interval_bound T)) : bool := negb (end_ge_start end_ start).

(** [less_than_or_equal(start, start)]. *)
Definition start_le_start (first second : option (interval_bound T)) : bool :=
  match first, second with
  | None, _ => true
  | Some _, None => false
  | Some a, Some b => require_ordering_and_on_equal_return (cmp (b_value a) (b_value b)) Lt
      (b_inclusive a || negb (b_inclusive b))
  end.

(** [less_than(start, start)]. *)
Definition start_lt_start (first second : option (interval_bound T)) : bool :=
  match second, first with
  | None, _ => false
  | Some _, None => true
  | Some b, Some a => require_ordering_and_on_equal_return (cmp (b_value a) (b_value b)) Lt
      (b_inclusive a && negb (b_inclusive b))
  end.

(** [greater_than_or_equal(end, end)]. *)
Definition end_ge_end (first second : option (interval_bound T)) : bool :=
  match first, second with
  | None, _ => true
  | Some _, None => false
  | Some a, Some b => require_ordering_and_on_equal_return (cmp (b_value a) (b_value b)) Gt
      (b_inclusive a || negb (b_inclusive b))
  end.

Definition is_wrap_around (r : wrapping_interval T) : bool :=
  match wi_end r, wi_start r with
  | Some _, Some _ =>
    match end_ r, start r with
    | Some e, Some s =>
      match cmp (b_value e) (b_value s) with
      | Lt => true
      | Eq => negb (b_inclusive s) || negb (b_inclusive e)
      | Gt => false
      end
    | _, _ => false
    end
  | _, _ => false
  end.

Definition before (r : wrapping_interval T) (point : T) : outcome Empty_set bool :=
  check (negb (is_wrap_around r)) ;;
  mret match start r with
    | None => false
    | Some s =>
      match cmp point (b_value s) with
      | Lt => true
      | Eq => negb (b_inclusive s)
      | Gt => false
      end
    end.

Definition other_is_before (r o : wrapping_interval T) : outcome Empty_set bool :=
  check (negb (is_wrap_around r)) ;;
  check (negb (is_wrap_around o)) ;;
  mret match start r, end_ o with
    | Some s, Some e =>
      match cmp (b_value e) (b_value s) with
      | Lt => true
      | Gt => false
      | Eq =>
        let ei := b_inclusive e in
        let si := b_inclusive s in
        if negb ei && negb si then true
        else if negb (Bool.eqb ei si) then true
        else false
      end
    | _, _ => false
    end.

Definition after (r : wrapping_interval T) (point : T) : outcome Empty_set bool :=
  check (negb (is_wrap_around r)) ;;
  mret match end_ r with
    | None => false
    | Some e =>
      match cmp (b_value e) point with
      | Lt => true
      | Eq => negb (b_inclusive e)
      | Gt => false
      end
    end.

Fixpoint overlaps_rec (fuel : nat) (r other : wrapping_interval T) : outcome Empty_set bool :=
  match fuel with
  | O => Abort out_of_fuel
  | S fuel =>
    let this_wraps := is_wrap_around r in
    let other_wraps := is_wrap_around other in
    if this_wraps && other_wraps then mret true
    else if this_wraps then
      or_else (overlaps_rec fuel other (unwrap r).1) (overlaps_rec fuel other (unwrap r).2)
    else if other_wraps then
      or_else (overlaps_rec fuel r (unwrap other).1) (overlaps_rec fuel r (unwrap other).2)
    else
      check (negb this_wraps) ;;
      check (negb other_wraps) ;;
      mret match start r, start other with
        | None, None => true
        | _, _ => end_ge_start (end_ r) (start other) && end_ge_start (end_ other) (start r)
        end
  end.
Definition overlaps : wrapping_interval T -> wrapping_interval T -> outcome Empty_set bool := overlaps_rec 2.

Fixpoint contains_rec (fuel : nat) (r : wrapping_interval T) (point : T) : outcome Empty_set bool :=
  match fuel with
  | O => Abort out_of_fuel
  | S fuel =>
    if is_wrap_around r then
      or_else (contains_rec fuel (unwrap r).1 point) (contains_rec fuel (unwrap r).2 point)
    else
      b ← before r point;
      if negb b then a ← after r point; mret (negb a) else mret false
  end.
Definition contains : wrapping_interval T -> T -> outcome Empty_set bool := contains_rec 2.

(** [contains(const wrapping_interval&)]. *)
Definition contains_interval (r other : wrapping_interval T) : outcome Empty_set bool :=
  let this_wraps := is_wrap_around r in
  let other_wraps := is_wrap_around other in
  let starts s os := require_ordering_and_on_equal_return (cmp (b_value s) (b_value os)) Lt
    (b_inclusive s || negb (b_inclusive os)) in
  let ends e oe := require_ordering_and_on_equal_return (cmp (b_value e) (b_value oe)) Gt
    (b_inclusive e || negb (b_inclusive oe)) in
  if this_wraps && other_wraps then
    s ← defined (start r);
    os ← defined (start other);
    e ← defined (end_ r);
    oe ← defined (end_ other);
    mret (starts s os && ends e oe)
  else if negb this_wraps && negb other_wraps then
    mret (start_le_start (start r) (start other) && end_ge_end (end_ r) (end_ other))
  else if other_wraps then
    mret (negb (bool_decide (is_Some (start r))) && negb (bool_decide (is_Some (end_ r))))
  else
    or_else
      match start other with
      | None => mret false
      | Some os => s ← defined (start r); mret (starts s os)
      end
      match end_ other with
      | None => mret false
      | Some oe => e ← defined (end_ r); mret (ends e oe)
      end.

(** The loop of [subtract] over the pieces of the two intervals. *)
Fixpoint subtract_loop (fuel : nat) (left right result : list (wrapping_interval T)) : outcome Empty_set (list (wrapping_interval T)) :=
  match left, right with
  | r1 :: left', r2 :: right' =>
    match fuel with
    | O => Abort out_of_fuel
    | S fuel =>
      if end_lt_start (end_ r2) (start r1) then subtract_loop fuel left right' result
      else if end_lt_start (end_ r1) (start r2) then subtract_loop fuel left' right (result ++ [r1])
      else
        left2 ← (if negb (end_ge_end (end_ r2) (end_ r1)) then
          e ← defined (end_ r2);
          mret (mk_interval (Some (IntervalBound (b_value e) (negb (b_inclusive e)))) (end_ r1) false :: left')
        else mret left');
        left3 ← (if negb (start_le_start (start r2) (start r1)) then
          s ← defined (start r2);
          mret (mk_interval (start r1) (Some (IntervalBound (b_value s) (negb (b_inclusive s)))) false :: left2)
        else mret left2);
        subtract_loop fuel left3 right result
    end
  | _, _ => mret (result ++ left)
  end.

Definition pieces (r : wrapping_interval T) : list (wrapping_interval T) :=
  if is_wrap_around r then [(unwrap r).1; (unwrap r).2] else [r].

Definition subtract_fuel : nat := 98.

Definition subtract (r other : wrapping_interval T) : outcome Empty_set (list (wrapping_interval T)) :=
  subtract_loop subtract_fuel (pieces r) (pieces other) [].

Definition split (r : wrapping_interval T) (split_point : T) : outcome Empty_set (wrapping_interval T * wrapping_interval T) :=
  c ← contains r split_point;
  check (c : bool) ;;
  mret (mk_interval (start r) (Some (IntervalBound split_point true)) false,
        mk_interval (Some (IntervalBound split_point false)) (end_ r) false).

Definition split_after (r : wrapping_interval T) (split_point : T) : outcome Empty_set (option (wrapping_interval T)) :=
  c ← contains r split_point;
  mret (if (c : bool) && match end_ r with
      | None => true
      | Some e => negb (bool_decide (cmp split_point (b_value e) = Eq))
      end then
      Some (mk_interval (Some (IntervalBound split_point false)) (end_ r) false)
    else if match end_ r with
      | None => false
      | Some e => negb (bool_decide (cmp split_point (b_value e) = Lt))
      end then None
    else Some r).

Definition equal (r other : wrapping_interval T) : bool :=
  Bool.eqb (bool_decide (is_Some (wi_start r))) (bool_decide (is_Some (wi_start other))) &&
  Bool.eqb (bool_decide (is_Some (wi_end r))) (bool_decide (is_Some (wi_end other))) &&
  match wi_start r, wi_start other with Some a, Some b => bound_equal a b | _, _ => true end &&
  match wi_end r, wi_end other with Some a, Some b => bound_equal a b | _, _ => true end &&
  Bool.eqb (wi_singular r) (wi_singular other).

(** ** Plain intervals

    Class [interval] holds a [wrapping_interval] that must not wrap; the
    functions it does not forward are the following. *)

Definition interval_overlaps (r other : wrapping_interval T) : bool :=
  match start r, start other with
  | None, None => true
  | _, _ => end_ge_start (end_ r) (start other) && end_ge_start (end_ other) (start r)
  end.

Definition interval_contains (r : wrapping_interval T) (point : T) : outcome Empty_set bool :=
  b ← before r point;
  if negb b then a ← after r point; mret (negb a) else mret false.

Definition interval_contains_interval (r other : wrapping_interval T) : bool :=
  start_le_start (start r) (start other) && end_ge_end (end_ r) (end_ other).

Definition interval_split (r : wrapping_interval T) (split_point : T) : outcome Empty_set (wrapping_interval T * wrapping_interval T) :=
  c ← interval_contains r split_point;
  check (c : bool) ;;
  mret (mk_interval (start r) (Some (IntervalBound split_point true)) false,
        mk_interval (Some (IntervalBound split_point false)) (end_ r) false).

Definition interval_split_after (r : wrapping_interval T) (split_point : T) : option (wrapping_interval T) :=
  if match end_ r with
    | None => false
    | Some e => negb (bool_decide (cmp split_point (b_value e) = Lt))
    end then None
  else if match start r with
    | None => false
    | Some s => bool_decide (cmp split_point (b_value s) = Lt)
    end then Some r
  else Some (mk_interval (Some (IntervalBound split_point false)) (end_ r) false).

(** [std::minmax] and [std::min] with the comparisons of [intersection]. *)
Definition minmax_start (a b : wrapping_interval T) : wrapping_interval T * wrapping_interval T :=
  if start_lt_start (start b) (start a) then (b, a) else (a, b).
Definition min_end (a b : option (interval_bound T)) : option (interval_bound T) :=
  if negb (end_ge_end b a) then b else a.

Definition intersection (r other : wrapping_interval T) : option (wrapping_interval T) :=
  let p := minmax_start r other in
  if end_ge_start (end_ p.1) (start p.2) then
    Some (mk_interval (start p.2) (min_end (end_ p.1) (end_ p.2)) false)
  else None.

Definition trim_front (r : wrapping_interval T) (start : option (interval_bound T)) : option (wrapping_interval T) :=
  intersection r (mk_interval start None false).

(** The loop of [deoverlap] over the intervals sorted by their start. *)
Fixpoint deoverlap_loop (current : wrapping_interval T) (rest acc : list (wrapping_interval T)) : list (wrapping_interval T) :=
  match rest with
  | [] => acc ++ [current]
  | r :: rest =>
    if end_ge_start (end_ r) (start current) && end_ge_end (end_ current) (end_ r) then
      deoverlap_loop current rest acc
    else if end_ge_start (end_ current) (start r) then
      deoverlap_loop (mk_interval (start current) (end_ r) false) rest acc
    else deoverlap_loop r rest (acc ++ [current])
  end.

(** [sort] is [std::sort] with [start_lt_start]; it leaves the order of intervals
    with equivalent starts open. *)
Definition deoverlap (sort : list (wrapping_interval T) -> list (wrapping_interval T)) (intervals : list (wrapping_interval T)) : list (wrapping_interval T) :=
  if (length intervals <=? 1)%nat then intervals
  else match sort intervals with
    | [] => []
    | current :: rest => deoverlap_loop current rest []
    end.

(** [std::lower_bound] and [std::upper_bound] on a sequence partitioned by the
    comparison: the position of the first element not less than, or greater
    than, the value. *)
Fixpoint std_lower_bound (xs : list T) (value : T) : nat :=
  match xs with
  | x :: xs => if bool_decide (cmp x value = Lt) then S (std_lower_bound xs value) else 0
  | [] => 0
  end.
Fixpoint std_upper_bound (xs : list T) (value : T) : nat :=
  match xs with
  | x :: xs => if bool_decide (cmp value x = Lt) then 0 else S (std_upper_bound xs value)
  | [] => 0
  end.

Definition lower_bound (r : wrapping_interval T) (xs : list T) : nat :=
  match start r with
  | Some s => if b_inclusive s then std_lower_bound xs (b_value s) else std_upper_bound xs (b_value s)
  | None => 0
  end.
Definition upper_bound (r : wrapping_interval T) (xs : list T) : outcome Empty_set nat :=
  match end_ r with
  | Some e =>
    mret (if b_inclusive e then std_upper_bound xs (b_value e) else std_lower_bound xs (b_value e))
  | None =>
    if is_singular r then s ← defined (start r); mret (std_upper_bound xs (b_value s))
    else mret (length xs)
  end.
(** The elements from one position up to another; the range is only valid when
    the first does not exceed the second. *)
Definition slice_of (r : wrapping_interval T) (xs : list T) : outcome Empty_set (list T) :=
  u ← upper_bound r xs;
  defined (if (lower_bound r xs <=? u)%nat
    then Some (take (u - lower_bound r xs) (drop (lower_bound r xs) xs)) else None).

End operations.
