(* ===== verification/IntervalTheory.v ===== *)
(** The theorems about intervals ([src/interval.hh], modelled in [Interval]): the
    tests of points and intervals, intersection, subtraction, splitting, removal
    of overlaps and slices, each against the set of points an interval covers.

    The comparator is only required to be a total order up to the equality it
    induces, the requirement the source states. An interval is two cuts of the
    ordered line ([lo] and [hi]) and a comparison of bounds a comparison of cuts;
    finitely many cuts are ranked by integers, which leaves linear arithmetic
    ([rank_lia], by the ranking of [Ordering]). *)
From Stdlib Require Import QArith Lqa.
From S2P Require Import Prelude Ordering Interval.
Open Scope Z_scope.

(** * Cuts *)

Section cuts.
Context {T : Type} (cmp : T -> T -> comparison).

(** A place between the elements of [T]: next to an element, or at one of the
    two ends. *)
Inductive cut :=
  | Bottom
  | Below (v : T)
  | Above (v : T)
  | Top.

Definition cut_compare (a b : cut) : comparison :=
  match a, b with
  | Bottom, Bottom | Top, Top => Eq
  | Bottom, _ | _, Top => Lt
  | _, Bottom | Top, _ => Gt
  | Below u, Below v | Above u, Above v => cmp u v
  | Below u, Above v => match cmp u v with Gt => Gt | _ => Lt end
  | Above u, Below v => match cmp u v with Lt => Lt | _ => Gt end
  end.

#[export] Instance cut_total `{!TotalOrder cmp} : TotalOrder cut_compare.
Proof.
  split.
  - intros [|v|v|]; simpl; try done; by apply cmp_refl.
  - intros [|u|u|] [|v|v|]; simpl; try done; rewrite (cmp_sym cmp u v); by destruct (cmp u v).
  - intros [|u|u|] [|v|v|] [|w|w|]; simpl; try done; intros H1 H2.
    all: destruct (rank_exists cmp [u; v; w]) as [rk Hrk].
    all: revert H1 H2; rewrite !Hrk by set_solver; clear Hrk.
    all: zcompare; try congruence; lia.
Qed.

Definition start_cut (b : option (interval_bound T)) : cut :=
  match b with
  | None => Bottom
  | Some b => if b_inclusive b then Below (b_value b) else Above (b_value b)
  end.
Definition end_cut (b : option (interval_bound T)) : cut :=
  match b with
  | None => Top
  | Some b => if b_inclusive b then Above (b_value b) else Below (b_value b)
  end.

End cuts.
Arguments Bottom {T}.
Arguments Below {T}.
Arguments Above {T}.
Arguments Top {T}.

(** * Meaning *)

(** The points of an interval: those between its bounds or, if it wraps around,
    those that are not between its end and its start. *)
Section meaning.
Context {T : Type} (cmp : T -> T -> comparison).

Definition after_start (r : wrapping_interval T) (x : T) : Prop :=
  match start r with
  | None => True
  | Some s => cmp (b_value s) x = Lt \/ b_inclusive s = true /\ cmp (b_value s) x = Eq
  end.
Definition before_end (r : wrapping_interval T) (x : T) : Prop :=
  match end_ r with
  | None => True
  | Some e => cmp x (b_value e) = Lt \/ b_inclusive e = true /\ cmp x (b_value e) = Eq
  end.
Definition covers (r : wrapping_interval T) (x : T) : Prop :=
  if is_wrap_around cmp r then after_start r x \/ before_end r x else after_start r x /\ before_end r x.

(** What the constructors establish: a singular interval is one inclusive point. *)
Definition interval_wf (r : wrapping_interval T) : Prop :=
  wi_singular r = true -> wi_end r = None /\ exists v, wi_start r = Some (IntervalBound v true).

(** An object of class [interval]. *)
Definition plain (r : wrapping_interval T) : Prop := interval_wf r /\ is_wrap_around cmp r = false.

(** Ordered and not overlapping. *)
Definition disjoint_ordered : list (wrapping_interval T) -> Prop :=
  StronglySorted (fun p q => end_lt_start cmp (end_ p) (start q) = true).

#[export] Instance after_start_dec r x : Decision (after_start r x).
Proof. unfold after_start. destruct (start r); apply _. Defined.
#[export] Instance before_end_dec r x : Decision (before_end r x).
Proof. unfold before_end. destruct (end_ r); apply _. Defined.
#[export] Instance covers_dec r x : Decision (covers r x).
Proof. unfold covers. destruct (is_wrap_around cmp r); apply _. Defined.

End meaning.

(** An order without gaps and ends. *)
Class DenseOrder {T} (cmp : T -> T -> comparison) : Prop := {
  dense_inhabited : inhabited T;
  dense_between x y : cmp x y = Lt -> exists z, cmp x z = Lt /\ cmp z y = Lt;
  dense_above x : exists y, cmp x y = Lt;
  dense_below x : exists y, cmp y x = Lt;
}.

(** * Intervals as pairs of cuts *)

Section theory.
Context {T : Type} (cmp : T -> T -> comparison) `{!TotalOrder cmp}.

Local Notation "a ≺ b" := (cut_compare cmp a b = Lt) (at level 70).
Local Notation "a ≼ b" := (cut_compare cmp a b <> Gt) (at level 70).
Implicit Types (r o : wrapping_interval T) (x : T).

Definition lo r : cut := start_cut (start r).
Definition hi r : cut := end_cut (end_ r).

(** Decides a goal about the given cuts. *)
Ltac rank_lia ps := rank_with (cut_compare cmp) ps.

Lemma below_above x : Below x ≺ Above x.
Proof. simpl. by rewrite cmp_refl. Qed.
Lemma lo_top r : lo r ≺ Top.
Proof. unfold lo, start_cut. by destruct (start r) as [[v []]|]. Qed.
Lemma bottom_hi r : Bottom ≺ hi r.
Proof. unfold hi, end_cut. by destruct (end_ r) as [[v []]|]. Qed.
Lemma not_le a b : ~ a ≼ b <-> b ≺ a.
Proof. rank_lia [a; b]. Qed.
Lemma not_lt a b : ~ a ≺ b <-> b ≼ a.
Proof. rank_lia [a; b]. Qed.

(** The comparisons of bounds are comparisons of cuts. *)
Ltac bound_cases u v :=
  unfold require_ordering_and_on_equal_return; simpl;
  rewrite ?(cmp_sym cmp u v); destruct (cmp u v); repeat case_bool_decide; naive_solver.

Lemma end_ge_start_cut e s : end_ge_start cmp e s = bool_decide (start_cut s ≺ end_cut e).
Proof. destruct e as [[u []]|], s as [[v []]|]; try done; bound_cases u v. Qed.
Lemma end_lt_start_cut e s : end_lt_start cmp e s = bool_decide (end_cut e ≼ start_cut s).
Proof.
  unfold end_lt_start. rewrite end_ge_start_cut, <- bool_decide_not. apply bool_decide_ext, not_lt.
Qed.
Lemma start_le_start_cut a b : start_le_start cmp a b = bool_decide (start_cut a ≼ start_cut b).
Proof. destruct a as [[u []]|], b as [[v []]|]; try done; bound_cases u v. Qed.
Lemma start_lt_start_cut a b : start_lt_start cmp a b = bool_decide (start_cut a ≺ start_cut b).
Proof. destruct a as [[u []]|], b as [[v []]|]; try done; bound_cases u v. Qed.
Lemma end_ge_end_cut a b : end_ge_end cmp a b = bool_decide (end_cut b ≼ end_cut a).
Proof. destruct a as [[u []]|], b as [[v []]|]; try done; bound_cases u v. Qed.

Lemma is_wrap_cut r : interval_wf r -> is_wrap_around cmp r = bool_decide (hi r ≼ lo r).
Proof.
  unfold interval_wf, is_wrap_around, hi, lo, start, end_.
  destruct r as [s e sg]. simpl. intros Hwf. destruct sg.
  - destruct (Hwf eq_refl) as [-> [v ->]]. simpl. by rewrite cmp_refl.
  - destruct e as [[u []]|], s as [[v []]|]; try done; bound_cases u v.
Qed.

Lemma after_start_cut r x : after_start cmp r x <-> lo r ≼ Below x.
Proof.
  unfold after_start, lo. destruct (start r) as [[v []]|]; simpl; [..|done];
    destruct (cmp v x); naive_solver.
Qed.
Lemma before_end_cut r x : before_end cmp r x <-> Above x ≼ hi r.
Proof.
  unfold before_end, hi. destruct (end_ r) as [[v []]|]; simpl; [..|done];
    destruct (cmp x v); naive_solver.
Qed.

Lemma covers_plain r x : is_wrap_around cmp r = false -> covers cmp r x <-> lo r ≼ Below x /\ Above x ≼ hi r.
Proof. intros Hw. unfold covers. by rewrite Hw, after_start_cut, before_end_cut. Qed.
Lemma covers_wrap r x : is_wrap_around cmp r = true -> covers cmp r x <-> lo r ≼ Below x \/ Above x ≼ hi r.
Proof. intros Hw. unfold covers. by rewrite Hw, after_start_cut, before_end_cut. Qed.

Lemma mk_interval_wf (s e : option (interval_bound T)) : interval_wf (mk_interval s e false).
Proof. done. Qed.
Lemma lo_mk s e : lo (mk_interval s e false) = start_cut s.
Proof. done. Qed.
Lemma hi_mk s e : hi (mk_interval s e false) = end_cut e.
Proof. done. Qed.

Local Arguments cut_compare : simpl never.
Local Arguments unwrap : simpl never.

Lemma plain_cut r : plain cmp r <-> interval_wf r /\ lo r ≺ hi r.
Proof.
  unfold plain. split; intros [Hwf Hw]; (split; [done|]); revert Hw; rewrite is_wrap_cut by done;
    [rewrite bool_decide_eq_false, not_le|rewrite <- not_le, bool_decide_eq_false]; done.
Qed.
Lemma plain_mk s e : start_cut s ≺ end_cut e -> plain cmp (mk_interval s e false).
Proof. intros. by apply plain_cut. Qed.
Lemma covers_plain_cut r x : plain cmp r -> covers cmp r x <-> lo r ≼ Below x /\ Above x ≼ hi r.
Proof. intros [_ Hw]. by apply covers_plain. Qed.

Lemma unwrap_plain r :
  plain cmp (unwrap r).1 /\ lo (unwrap r).1 = Bottom /\ hi (unwrap r).1 = hi r /\
  plain cmp (unwrap r).2 /\ lo (unwrap r).2 = lo r /\ hi (unwrap r).2 = Top.
Proof.
  split_and!; try done. apply plain_mk, bottom_hi.
Qed.

(** ** Points *)

Lemma before_spec r x : is_wrap_around cmp r = false -> before cmp r x = Ret (bool_decide (Below x ≺ lo r)).
Proof.
  intros Hw. unfold before, lo. rewrite Hw. simpl. destruct (start r) as [[v []]|]; simpl; [..|done];
    unfold cut_compare; destruct (cmp x v); done.
Qed.
Lemma after_spec r x : is_wrap_around cmp r = false -> after cmp r x = Ret (bool_decide (hi r ≺ Above x)).
Proof.
  intros Hw. unfold after, hi. rewrite Hw. simpl. destruct (end_ r) as [[v []]|]; simpl; [..|done];
    unfold cut_compare; destruct (cmp v x); done.
Qed.

Lemma inside_spec r x : is_wrap_around cmp r = false ->
  interval_contains cmp r x = Ret (bool_decide (lo r ≼ Below x /\ Above x ≼ hi r)).
Proof.
  intros Hw. unfold interval_contains. rewrite before_spec by done. simpl.
  case_bool_decide as Hb; simpl.
  - rewrite bool_decide_eq_false_2; [done|]. intros [Hlo _]. by apply not_le in Hlo.
  - rewrite after_spec by done. simpl. apply not_lt in Hb. f_equal.
    rewrite <- bool_decide_not. apply bool_decide_ext. rewrite not_lt. naive_solver.
Qed.

Lemma contains_spec r x : exists b, contains cmp r x = Ret b /\ (b = true <-> covers cmp r x).
Proof.
  assert (forall fuel o, is_wrap_around cmp o = false ->
    contains_rec cmp (S fuel) o x = interval_contains cmp o x) as Hone.
  { intros fuel o Ho. simpl. by rewrite Ho. }
  unfold contains. destruct (is_wrap_around cmp r) eqn:Hw.
  - change (contains_rec cmp 2 r x) with (if is_wrap_around cmp r
      then or_else (contains_rec cmp 1 (unwrap r).1 x) (contains_rec cmp 1 (unwrap r).2 x)
      else interval_contains cmp r x).
    rewrite Hw.
    pose proof (unwrap_plain r) as ([_ H1] & Hlo1 & Hhi1 & [_ H2] & Hlo2 & Hhi2).
    rewrite !Hone, !inside_spec by done. rewrite Hlo1, Hhi1, Hlo2, Hhi2. simpl.
    case_bool_decide as Hc; simpl; eexists; (split; [done|]); rewrite covers_wrap by done; [naive_solver|].
    rewrite bool_decide_eq_true. simpl. split; [naive_solver|]. intros [?|?]; [done|].
    exfalso. apply Hc. done.
  - rewrite Hone, inside_spec by done. eexists; split; [done|].
    by rewrite bool_decide_eq_true, covers_plain.
Qed.

(** ** Bounds of two intervals *)

Lemma ge_start_cut r o : end_ge_start cmp (end_ r) (start o) = bool_decide (lo o ≺ hi r).
Proof. apply end_ge_start_cut. Qed.
Lemma lt_start_cut r o : end_lt_start cmp (end_ r) (start o) = bool_decide (hi r ≼ lo o).
Proof. apply end_lt_start_cut. Qed.
Lemma start_le_cut r o : start_le_start cmp (start r) (start o) = bool_decide (lo r ≼ lo o).
Proof. apply start_le_start_cut. Qed.
Lemma start_lt_cut r o : start_lt_start cmp (start r) (start o) = bool_decide (lo r ≺ lo o).
Proof. apply start_lt_start_cut. Qed.
Lemma ge_end_cut r o : end_ge_end cmp (end_ r) (end_ o) = bool_decide (hi o ≼ hi r).
Proof. apply end_ge_end_cut. Qed.

Lemma interval_overlaps_cut r o :
  interval_overlaps cmp r o = bool_decide (lo o ≺ hi r) && bool_decide (lo r ≺ hi o).
Proof.
  unfold interval_overlaps. rewrite !ge_start_cut.
  destruct (start r) eqn:Hr; [done|]. destruct (start o) eqn:Ho; [done|]. symmetry.
  pose proof (bottom_hi r). pose proof (bottom_hi o).
  apply andb_true_iff; split; apply bool_decide_eq_true.
  - unfold lo. by rewrite Ho.
  - unfold lo. by rewrite Hr.
Qed.

(** The pieces of an interval. *)
Lemma pieces_plain r : interval_wf r -> Forall (plain cmp) (pieces cmp r).
Proof.
  intros Hwf. unfold pieces. pose proof (unwrap_plain r) as (? & _ & _ & ? & _).
  destruct (is_wrap_around cmp r) eqn:Hw; rewrite ?Forall_cons, Forall_nil; done.
Qed.
Lemma covers_pieces r x : covers cmp r x <-> Exists (fun p => covers cmp p x) (pieces cmp r).
Proof.
  unfold pieces. pose proof (unwrap_plain r) as (H1 & Hlo1 & Hhi1 & H2 & Hlo2 & Hhi2).
  destruct (is_wrap_around cmp r) eqn:Hw.
  - rewrite !Exists_cons, Exists_nil, covers_wrap, !covers_plain_cut by done.
    rewrite Hlo1, Hhi1, Hlo2, Hhi2. naive_solver.
  - rewrite Exists_cons, Exists_nil. tauto.
Qed.

Lemma common_overlaps r o x : plain cmp r -> plain cmp o -> covers cmp r x -> covers cmp o x ->
  interval_overlaps cmp r o = true.
Proof.
  intros Hr Ho. rewrite interval_overlaps_cut, !covers_plain_cut, andb_true_iff, !bool_decide_eq_true by done.
  intros [] []. pose proof (below_above x).
  split; rank_lia [lo r; hi r; lo o; hi o; Below x; Above x].
Qed.

Lemma overlaps_rec_plain fuel r o : plain cmp r -> plain cmp o ->
  overlaps_rec cmp (S fuel) r o = Ret (interval_overlaps cmp r o).
Proof. intros [_ Hr] [_ Ho]. simpl. rewrite Hr, Ho. done. Qed.

Ltac exists_cons := repeat (rewrite ?Exists_cons, ?Exists_nil; cbn beta).

(** [overlaps] tests all pairs of pieces. *)
Lemma overlaps_pieces r o : interval_wf r -> interval_wf o ->
  exists b, overlaps cmp r o = Ret b /\
    (b = true <-> is_wrap_around cmp r = true /\ is_wrap_around cmp o = true \/
      Exists (fun p => Exists (fun q => interval_overlaps cmp p q = true) (pieces cmp o)) (pieces cmp r)).
Proof.
  assert (forall p q, interval_overlaps cmp p q = interval_overlaps cmp q p) as Hsym.
  { intros. by rewrite !interval_overlaps_cut, andb_comm. }
  intros Hr Ho. pose proof (unwrap_plain r) as (Hr1 & _ & _ & Hr2 & _).
  pose proof (unwrap_plain o) as (Ho1 & _ & _ & Ho2 & _).
  unfold overlaps, pieces. remember 1%nat as n eqn:Hn. cbn [overlaps_rec].
  revert Hr1 Hr2 Ho1 Ho2. generalize (unwrap r) (unwrap o). intros [r1 r2] [o1 o2] Hr1 Hr2 Ho1 Ho2.
  destruct (is_wrap_around cmp r) eqn:Hwr, (is_wrap_around cmp o) eqn:Hwo; simpl in *; subst n;
    rewrite ?overlaps_rec_plain by done; rewrite ?(Hsym o r1), ?(Hsym o r2); simpl.
  - eexists; split; [done|naive_solver].
  - exists (interval_overlaps cmp r1 o || interval_overlaps cmp r2 o).
    split; [by destruct (interval_overlaps cmp r1 o)|]. rewrite orb_true_iff. exists_cons. intuition congruence.
  - exists (interval_overlaps cmp r o1 || interval_overlaps cmp r o2).
    split; [by destruct (interval_overlaps cmp r o1)|]. rewrite orb_true_iff. exists_cons. intuition congruence.
  - exists (interval_overlaps cmp r o). split; [done|]. exists_cons. intuition congruence.
Qed.

(** In an order without gaps, there is a point between two cuts. *)
Lemma dense_cut `{!DenseOrder cmp} a b : a ≺ b -> exists x, a ≼ Below x /\ Above x ≼ b.
Proof.
  unfold cut_compare. destruct a as [|u|u|], b as [|v|v|]; intros Hab; try done.
  - destruct (dense_below (cmp:=cmp) v) as [z Hz]. exists z. by rewrite Hz.
  - exists v. by rewrite (cmp_refl cmp).
  - destruct (dense_inhabited (cmp:=cmp)) as [z]. by exists z.
  - exists u. by rewrite Hab, (cmp_refl cmp).
  - exists u. rewrite (cmp_refl cmp). by destruct (cmp u v).
  - exists u. by rewrite (cmp_refl cmp).
  - destruct (cmp u v) eqn:Huv; try done. destruct (dense_between (cmp:=cmp) u v Huv) as (z & Hz1 & Hz2).
    exists z. by rewrite Hz1, Hz2.
  - exists v. by rewrite Hab, (cmp_refl cmp).
  - destruct (dense_above (cmp:=cmp) u) as [z Hz]. exists z. by rewrite Hz.
Qed.

Lemma dense_cut2 `{!DenseOrder cmp} a a' b b' : a ≺ b -> a ≺ b' -> a' ≺ b -> a' ≺ b' ->
  exists x, a ≼ Below x /\ a' ≼ Below x /\ Above x ≼ b /\ Above x ≼ b'.
Proof.
  intros. set (l := if bool_decide (a ≼ a') then a' else a). set (h := if bool_decide (b ≼ b') then b else b').
  assert (l ≺ h /\ a ≼ l /\ a' ≼ l /\ h ≼ b /\ h ≼ b') as (Hlh & ? & ? & ? & ?).
  { subst l h. repeat case_bool_decide; split_and!; rank_lia [a; a'; b; b']. }
  clearbody l h. destruct (dense_cut l h Hlh) as (x & ? & ?). exists x.
  split_and!; rank_lia [a; a'; b; b'; l; h; Below x; Above x].
Qed.

(** No cut lies strictly between the two sides of a point. *)
Lemma point_cut x c : c ≼ Below x \/ Above x ≼ c.
Proof.
  unfold cut_compare. destruct c as [|v|v|]; try (by auto);
    rewrite (cmp_sym cmp x v); destruct (cmp x v); simpl; auto.
Qed.

(** ** Intersection *)

Lemma intersection_spec r o : plain cmp r -> plain cmp o ->
  match intersection cmp r o with
  | Some i => interval_overlaps cmp r o = true /\ plain cmp i /\
      forall x, covers cmp i x <-> covers cmp r x /\ covers cmp o x
  | None => interval_overlaps cmp r o = false
  end.
Proof.
  intros Hr Ho. pose proof (proj2 (proj1 (plain_cut r) Hr)). pose proof (proj2 (proj1 (plain_cut o) Ho)).
  unfold intersection, minmax_start. rewrite start_lt_cut, interval_overlaps_cut.
  assert (forall a b, plain cmp a -> plain cmp b -> lo a ≼ lo b ->
    end_ge_start cmp (end_ a) (start b) = true ->
    let i := mk_interval (start b) (min_end cmp (end_ a) (end_ b)) false in
    plain cmp i /\ forall x, covers cmp i x <-> covers cmp a x /\ covers cmp b x) as Hmeet.
  { intros a b Ha Hb Hle. rewrite ge_start_cut, bool_decide_eq_true. intros Hlt i.
    pose proof (proj2 (proj1 (plain_cut b) Hb)) as Hb'.
    assert (lo i = lo b /\ hi i = if bool_decide (hi a ≼ hi b) then hi a else hi b) as [Hlo Hhi].
    { split; [done|]. unfold i. rewrite hi_mk. unfold min_end. rewrite ge_end_cut.
      by case_bool_decide. }
    assert (lo i ≺ hi i) as Hi.
    { rewrite Hlo, Hhi. case_bool_decide; rank_lia [lo a; hi a; lo b; hi b]. }
    assert (plain cmp i) as Hp by by apply plain_cut. split; [done|]. intros x.
    rewrite !covers_plain_cut by done. rewrite Hlo, Hhi. clear Hi Hlo Hhi Hp.
    case_bool_decide; rank_lia [lo a; hi a; lo b; hi b; Below x; Above x]. }
  case_bool_decide as Hlt; simpl.
  - destruct (end_ge_start cmp (end_ o) (start r)) eqn:Hge; rewrite ge_start_cut in Hge.
    + apply bool_decide_eq_true in Hge as Hge'. split.
      { apply andb_true_iff. rewrite !bool_decide_eq_true. split; [|done]. rank_lia [lo r; hi r; lo o; hi o]. }
      destruct (Hmeet o r) as [? Hcov]; [done..|rank_lia [lo r; lo o]|by rewrite ge_start_cut|].
      split; [done|]. intros x. rewrite Hcov. tauto.
    + by rewrite Hge, andb_false_r.
  - destruct (end_ge_start cmp (end_ r) (start o)) eqn:Hge; rewrite ge_start_cut in Hge.
    + apply bool_decide_eq_true in Hge as Hge'. split.
      { apply andb_true_iff. rewrite !bool_decide_eq_true. split; [done|]. rank_lia [lo r; hi r; lo o; hi o]. }
      apply Hmeet; [done..|by apply not_lt|by rewrite ge_start_cut].
    + by rewrite Hge.
Qed.

(** ** Lists of intervals *)

Definition covers_any (l : list (wrapping_interval T)) x : Prop := Exists (fun p => covers cmp p x) l.

Definition ordered : list (wrapping_interval T) -> Prop := StronglySorted (fun p q => hi p ≼ lo q).

Lemma disjoint_ordered_cut l : disjoint_ordered cmp l <-> ordered l.
Proof.
  unfold disjoint_ordered, ordered.
  induction l as [|p l IH]; [by split; constructor|]. rewrite !StronglySorted_cons, IH.
  rewrite !Forall_forall. split; intros [Hp ?]; (split; [|done]); intros q Hq; specialize (Hp q Hq);
    revert Hp; by rewrite lt_start_cut, bool_decide_eq_true.
Qed.

Lemma ordered_app l1 l2 :
  ordered (l1 ++ l2) <-> ordered l1 /\ ordered l2 /\ forall p q, p ∈ l1 -> q ∈ l2 -> hi p ≼ lo q.
Proof.
  induction l1 as [|p l1 IH]; simpl.
  { split; [|by intros (_ & ? & _)]. intros. split_and!; [constructor|done|]. intros ?? Hin. inversion Hin. }
  unfold ordered in *. rewrite !StronglySorted_cons, IH, Forall_app, !Forall_forall. split.
  - intros ([H1 H2] & H3 & H4 & H5). split_and!; try done.
    intros p' q [->|Hp']%elem_of_cons Hq; eauto.
  - intros ([H1 H2] & H3 & H4). split_and!; eauto using list_elem_of_here, list_elem_of_further.
Qed.

(** The first of ordered intervals has the smallest start. *)
Lemma ordered_first p l q : Forall (plain cmp) (p :: l) -> ordered (p :: l) -> q ∈ p :: l -> lo p ≼ lo q.
Proof.
  unfold ordered. rewrite Forall_cons, StronglySorted_cons. intros [Hp _] [Hl _].
  apply plain_cut in Hp as [_ Hp]. intros [->|Hq]%elem_of_cons; [rank_lia [lo p]|].
  rewrite Forall_forall in Hl. specialize (Hl q Hq). rank_lia [lo p; hi p; lo q].
Qed.

Lemma covers_any_app l1 l2 x : covers_any (l1 ++ l2) x <-> covers_any l1 x \/ covers_any l2 x.
Proof. apply Exists_app. Qed.
Lemma covers_any_cons p l x : covers_any (p :: l) x <-> covers cmp p x \/ covers_any l x.
Proof. apply Exists_cons. Qed.

(** ** Subtraction *)

(** What the loop puts back of [r1] when it overlaps [r2]. *)
Definition cut_out (r1 r2 : wrapping_interval T) : list (wrapping_interval T) :=
  (if bool_decide (lo r1 ≺ lo r2) then
    match start r2 with
    | Some s => [mk_interval (start r1) (Some (IntervalBound (b_value s) (negb (b_inclusive s)))) false]
    | None => []
    end else []) ++
  (if bool_decide (hi r2 ≺ hi r1) then
    match end_ r2 with
    | Some e => [mk_interval (Some (IntervalBound (b_value e) (negb (b_inclusive e)))) (end_ r1) false]
    | None => []
    end else []).

Lemma end_given r1 r2 : hi r2 ≺ hi r1 -> exists e, end_ r2 = Some e.
Proof. unfold hi. destruct (end_ r2); [eauto|]. by destruct (end_cut (end_ r1)). Qed.
Lemma start_given r1 r2 : lo r1 ≺ lo r2 -> exists s, start r2 = Some s.
Proof. unfold lo. destruct (start r2); [eauto|]. by destruct (start_cut (start r1)). Qed.

Lemma subtract_overlap_step fuel r1 r2 left right result : lo r2 ≺ hi r1 -> lo r1 ≺ hi r2 ->
  subtract_loop cmp (S fuel) (r1 :: left) (r2 :: right) result =
  subtract_loop cmp fuel (cut_out r1 r2 ++ left) (r2 :: right) result.
Proof.
  intros H1 H2. cbn [subtract_loop]. rewrite !lt_start_cut, ge_end_cut, start_le_cut.
  rewrite !(bool_decide_eq_false_2 (_ ≼ _)) by (rank_lia [lo r1; hi r1; lo r2; hi r2]).
  rewrite <- !bool_decide_not.
  rewrite (bool_decide_ext _ _ (not_le (hi r1) (hi r2))), (bool_decide_ext _ _ (not_le (lo r2) (lo r1))).
  unfold cut_out.
  destruct (decide (hi r2 ≺ hi r1)) as [He|He];
    [rewrite !(bool_decide_eq_true_2 (hi r2 ≺ hi r1)) by done|rewrite !(bool_decide_eq_false_2 (hi r2 ≺ hi r1)) by done];
    (destruct (decide (lo r1 ≺ lo r2)) as [Hs|Hs];
      [rewrite !(bool_decide_eq_true_2 (lo r1 ≺ lo r2)) by done|rewrite !(bool_decide_eq_false_2 (lo r1 ≺ lo r2)) by done]);
    try destruct (end_given _ _ He) as [e ->]; try destruct (start_given _ _ Hs) as [s ->]; done.
Qed.

Lemma cut_out_cases r1 r2 : exists la lb, cut_out r1 r2 = la ++ lb /\
  (la = [] /\ lo r2 ≼ lo r1 \/ exists a, la = [a] /\ interval_wf a /\ lo a = lo r1 /\ hi a = lo r2 /\ lo r1 ≺ lo r2) /\
  (lb = [] /\ hi r1 ≼ hi r2 \/ exists b, lb = [b] /\ interval_wf b /\ lo b = hi r2 /\ hi b = hi r1 /\ hi r2 ≺ hi r1).
Proof.
  unfold cut_out. eexists _, _. split; [done|]. split.
  - case_bool_decide as Hs; [right|left; by rewrite not_lt in Hs].
    destruct (start_given _ _ Hs) as [[v i] Hv]. rewrite Hv. eexists. split_and!; try done.
    rewrite hi_mk. unfold lo. rewrite Hv. by destruct i.
  - case_bool_decide as He; [right|left; by rewrite not_lt in He].
    destruct (end_given _ _ He) as [[v i] Hv]. rewrite Hv. eexists. split_and!; try done.
    rewrite lo_mk. unfold hi. rewrite Hv. by destruct i.
Qed.

(** A piece that the loop puts back. *)
Record piece_of (r1 r2 p : wrapping_interval T) : Prop := {
  piece_plain : plain cmp p;
  piece_start : lo r1 ≼ lo p;
  piece_end : hi p ≼ hi r1;
  piece_clear : hi p ≼ lo r2 \/ hi r2 ≼ lo p;
}.

Lemma mk_piece r1 r2 p a b : interval_wf p -> lo p = a -> hi p = b -> a ≺ b ->
  lo r1 ≼ a -> b ≼ hi r1 -> b ≼ lo r2 \/ hi r2 ≼ a ->
  piece_of r1 r2 p /\ forall x, covers cmp p x <-> a ≼ Below x /\ Above x ≼ b.
Proof.
  intros Hwf <- <- Hlt ???. assert (plain cmp p) by by apply plain_cut.
  split; [done|]. intros x. by apply covers_plain_cut.
Qed.

Lemma cut_out_spec r1 r2 : plain cmp r1 -> plain cmp r2 -> lo r2 ≺ hi r1 -> lo r1 ≺ hi r2 ->
  (length (cut_out r1 r2) <= 2)%nat /\ Forall (piece_of r1 r2) (cut_out r1 r2) /\
  ordered (cut_out r1 r2) /\
  forall x, covers_any (cut_out r1 r2) x <-> covers cmp r1 x /\ ~ covers cmp r2 x.
Proof.
  intros Hp1 Hp2 H12 H21. pose proof Hp1 as [_ Hr1]%plain_cut. pose proof Hp2 as [_ Hr2]%plain_cut.
  destruct (cut_out_cases r1 r2) as (la & lb & -> & Ha & Hb).
  assert (forall x, covers cmp r1 x /\ ~ covers cmp r2 x <->
    lo r1 ≼ Below x /\ Above x ≼ lo r2 \/ hi r2 ≼ Below x /\ Above x ≼ hi r1) as Hx.
  { intros x. rewrite !covers_plain_cut by done. pose proof (below_above x).
    pose proof (point_cut x (lo r2)). pose proof (point_cut x (hi r2)).
    rank_lia [lo r1; hi r1; lo r2; hi r2; Below x; Above x]. }
  destruct Ha as [[-> Ha]|(a & -> & Hwa & Hla & Hha & Ha)], Hb as [[-> Hb]|(b & -> & Hwb & Hlb & Hhb & Hb)];
    simpl; (split; [lia|]); unfold ordered.
  - split_and!; [constructor..|]. intros x. rewrite Hx. unfold covers_any. rewrite Exists_nil.
    pose proof (below_above x). rank_lia [lo r1; hi r1; lo r2; hi r2; Below x; Above x].
  - destruct (mk_piece r1 r2 b (hi r2) (hi r1)) as [Hpc Hcov]; [done..|rank_lia [lo r1; hi r1; lo r2; hi r2]|rank_lia [lo r1; hi r1; lo r2; hi r2]|rank_lia [lo r1; hi r1; lo r2; hi r2]|]. split_and!; [by rewrite Forall_singleton|by repeat constructor|].
    intros x. rewrite Hx, covers_any_cons, Hcov. unfold covers_any. rewrite Exists_nil.
    pose proof (below_above x). rank_lia [lo r1; hi r1; lo r2; hi r2; Below x; Above x].
  - destruct (mk_piece r1 r2 a (lo r1) (lo r2)) as [Hpc Hcov]; [done..|rank_lia [lo r1; hi r1; lo r2; hi r2]|rank_lia [lo r1; hi r1; lo r2; hi r2]|rank_lia [lo r1; hi r1; lo r2; hi r2]|]. split_and!; [by rewrite Forall_singleton|by repeat constructor|].
    intros x. rewrite Hx, covers_any_cons, Hcov. unfold covers_any. rewrite Exists_nil.
    pose proof (below_above x). rank_lia [lo r1; hi r1; lo r2; hi r2; Below x; Above x].
  - destruct (mk_piece r1 r2 b (hi r2) (hi r1)) as [Hpc Hcov]; [done..|rank_lia [lo r1; hi r1; lo r2; hi r2]|rank_lia [lo r1; hi r1; lo r2; hi r2]|rank_lia [lo r1; hi r1; lo r2; hi r2]|].
    destruct (mk_piece r1 r2 a (lo r1) (lo r2)) as [Hpc' Hcov']; [done..|rank_lia [lo r1; hi r1; lo r2; hi r2]|rank_lia [lo r1; hi r1; lo r2; hi r2]|rank_lia [lo r1; hi r1; lo r2; hi r2]|].
    split_and!; [by rewrite Forall_cons, Forall_singleton|..].
    + repeat constructor. rewrite Hha, Hlb. rank_lia [lo r2; hi r2].
    + intros x. rewrite Hx, !covers_any_cons, Hcov, Hcov'. unfold covers_any. rewrite Exists_nil. tauto.
Qed.

(** The number of steps left: an interval that overlaps the next one to subtract
    is replaced by at most two that do not. *)
Definition weight (r2 p : wrapping_interval T) : nat := if interval_overlaps cmp p r2 then 3 else 1.
Definition weights (r2 : wrapping_interval T) (left : list (wrapping_interval T)) : nat :=
  sum_list (map (weight r2) left).
Definition potential (left right : list (wrapping_interval T)) : nat :=
  match right with
  | [] => 0
  | r2 :: _ => weights r2 left * 4 ^ length right + length right
  end.

Lemma weights_app r2 l1 l2 : weights r2 (l1 ++ l2) = (weights r2 l1 + weights r2 l2)%nat.
Proof. unfold weights. induction l1; simpl in *; lia. Qed.
Lemma weights_bounds r2 left : (length left <= weights r2 left <= 3 * length left)%nat.
Proof.
  induction left as [|p left IH]; [done|]. unfold weights in *. simpl. unfold weight at 1 3.
  destruct (interval_overlaps cmp p r2); lia.
Qed.
Lemma weights_pieces r1 r2 ps : Forall (piece_of r1 r2) ps -> weights r2 ps = length ps.
Proof.
  induction 1 as [|p ps [Hp _ _ Hclear] _ IH]; [done|]. unfold weights, weight in *. simpl.
  rewrite interval_overlaps_cut. apply plain_cut in Hp as [_ Hp].
  rewrite (proj2 (andb_false_iff _ _)); [lia|]. rewrite !bool_decide_eq_false, !not_lt. tauto.
Qed.

Lemma potential_pop left r2 right : left <> [] ->
  (potential left right < potential left (r2 :: right))%nat.
Proof.
  intros Hne. unfold potential. simpl. pose proof (weights_bounds r2 left).
  destruct right as [|r3 right]; [simpl; lia|]. pose proof (weights_bounds r3 left). simpl.
  pose proof (Nat.pow_nonzero 4 (length right)). nia.
Qed.
Lemma potential_output r1 left r2 right :
  (potential left (r2 :: right) < potential (r1 :: left) (r2 :: right))%nat.
Proof.
  unfold potential. simpl. pose proof (weights_bounds r2 [r1]).
  rewrite (weights_app r2 [r1] left : weights r2 (r1 :: left) = _).
  pose proof (Nat.pow_nonzero 4 (length right)). simpl in *. nia.
Qed.
Lemma potential_overlap r1 ps left r2 right : interval_overlaps cmp r1 r2 = true ->
  (length ps <= 2)%nat -> Forall (piece_of r1 r2) ps ->
  (potential (ps ++ left) (r2 :: right) < potential (r1 :: left) (r2 :: right))%nat.
Proof.
  intros Hov Hlen Hps. unfold potential. rewrite weights_app, (weights_pieces r1 r2 ps) by done.
  rewrite (weights_app r2 [r1] left : weights r2 (r1 :: left) = _).
  assert (weights r2 [r1] = 3%nat) as -> by (unfold weights, weight; simpl; by rewrite Hov).
  pose proof (Nat.pow_nonzero 4 (length (r2 :: right))). nia.
Qed.

(** The state of the loop, and what it computes. *)
Record subtracting (left right result : list (wrapping_interval T)) : Prop := {
  sub_left : Forall (plain cmp) left;
  sub_right : Forall (plain cmp) right;
  sub_result : Forall (plain cmp) result;
  sub_ordered : ordered (result ++ left);
  sub_right_ordered : ordered right;
}.

Lemma subtracting_pop r1 left r2 right result : hi r2 ≼ lo r1 ->
  subtracting (r1 :: left) (r2 :: right) result ->
  subtracting (r1 :: left) right result /\
  forall x, covers_any (r1 :: left) x -> ~ covers cmp r2 x.
Proof.
  intros Hcut [Hl Hr Hres Ho Hro]. apply Forall_cons in Hr as Hr'. destruct Hr' as [Hp2 ?].
  apply StronglySorted_cons in Hro as Hro'. destruct Hro' as [_ ?]. split; [done|].
  apply ordered_app in Ho as (_ & Ho & _). unfold covers_any. intros x [p [Hp Hx]]%Exists_exists.
  pose proof (ordered_first _ _ p Hl Ho Hp). rewrite Forall_forall in Hl. apply covers_plain_cut in Hx as []; [|by apply Hl].
  rewrite covers_plain_cut by done. intros []. pose proof (below_above x).
  rank_lia [lo r1; hi r2; lo p; lo r2; hi p; Below x; Above x].
Qed.

Lemma subtracting_output r1 left r2 right result : hi r1 ≼ lo r2 ->
  subtracting (r1 :: left) (r2 :: right) result ->
  subtracting left (r2 :: right) (result ++ [r1]) /\
  forall x, covers cmp r1 x -> ~ covers_any (r2 :: right) x.
Proof.
  intros Hcut [Hl Hr Hres Ho Hro]. apply Forall_cons in Hl as Hl'. destruct Hl' as [Hp1 ?]. split.
  { split; [done|done| |by rewrite <- (assoc_L (++))|done]. by rewrite Forall_app, Forall_singleton. }
  intros x [??]%covers_plain_cut; [|done]. unfold covers_any. rewrite Exists_exists. intros (p & Hp & Hx).
  pose proof (ordered_first _ _ p Hr Hro Hp). rewrite Forall_forall in Hr.
  apply covers_plain_cut in Hx as []; [|by apply Hr]. pose proof (below_above x).
  rank_lia [hi r1; lo r2; lo p; hi p; lo r1; Below x; Above x].
Qed.

Lemma subtracting_overlap r1 left r2 right result : lo r2 ≺ hi r1 -> lo r1 ≺ hi r2 ->
  subtracting (r1 :: left) (r2 :: right) result ->
  subtracting (cut_out r1 r2 ++ left) (r2 :: right) result.
Proof.
  intros H12 H21 [Hl Hr Hres Ho Hro]. apply Forall_cons in Hl as [Hp1 Hl]. apply Forall_cons in Hr as Hr'.
  destruct (cut_out_spec r1 r2) as (_ & Hps & Hpo & _); [naive_solver..|].
  apply ordered_app in Ho as (Hoa & Hob & Hab). apply StronglySorted_cons in Hob as [Hob Hob'].
  split; try done.
  { rewrite Forall_app. split; [|done]. eapply Forall_impl; [exact Hps|]. by intros p []. }
  rewrite Forall_forall in Hps, Hob. apply ordered_app. split; [done|]. split.
  - apply ordered_app. split_and!; [done..|]. intros p q Hp%Hps Hq. destruct Hp as [_ _ Hp _].
    pose proof (Hob q Hq). rank_lia [hi p; hi r1; lo q].
  - intros p q Hp [Hq|Hq]%elem_of_app; [|apply Hab; [done|by apply list_elem_of_further]].
    destruct (Hps q Hq) as [_ Hq' _ _]. pose proof (Hab p r1 Hp (list_elem_of_here _ _)).
    rank_lia [hi p; lo r1; lo q].
Qed.

Lemma subtract_loop_spec fuel left right result :
  subtracting left right result -> (potential left right <= fuel)%nat ->
  exists l, subtract_loop cmp fuel left right result = Ret l /\ Forall (plain cmp) l /\ ordered l /\
    forall x, covers_any l x <-> covers_any result x \/ covers_any left x /\ ~ covers_any right x.
Proof.
  assert (forall fuel left right result, left = [] \/ right = [] -> subtracting left right result ->
    exists l, subtract_loop cmp fuel left right result = Ret l /\ Forall (plain cmp) l /\ ordered l /\
      forall x, covers_any l x <-> covers_any result x \/ covers_any left x /\ ~ covers_any right x) as Hdone.
  { clear. intros fuel left right result Hnil [Hl Hr Hres Ho _]. exists (result ++ left). split.
    { destruct fuel, left, right; by destruct Hnil. }
    split_and!; [by apply Forall_app|done|]. intros x. rewrite covers_any_app. unfold covers_any.
    destruct Hnil as [-> | ->]; rewrite Exists_nil; tauto. }
  revert left right result. induction fuel as [|fuel IH]; intros left right result Hsub Hfuel.
  all: destruct left as [|r1 left]; [apply Hdone; auto|].
  all: destruct right as [|r2 right]; [apply Hdone; auto|].
  { pose proof (potential_output r1 left r2 right). lia. }
  destruct (decide (hi r2 ≼ lo r1)) as [Hbefore|Hbefore].
  { destruct (subtracting_pop _ _ _ _ _ Hbefore Hsub) as [Hsub' Hx].
    pose proof (potential_pop (r1 :: left) r2 right ltac:(done)).
    destruct (IH _ _ _ Hsub' ltac:(lia)) as (l & Hl & Hp & Ho & Hcov). exists l.
    cbn [subtract_loop]. rewrite lt_start_cut, bool_decide_eq_true_2 by done. split_and!; [done..|].
    intros x. rewrite Hcov, (covers_any_cons r2). specialize (Hx x). tauto. }
  destruct (decide (hi r1 ≼ lo r2)) as [Hafter|Hafter].
  { destruct (subtracting_output _ _ _ _ _ Hafter Hsub) as [Hsub' Hx].
    pose proof (potential_output r1 left r2 right).
    destruct (IH _ _ _ Hsub' ltac:(lia)) as (l & Hl & Hp & Ho & Hcov). exists l.
    cbn [subtract_loop]. rewrite !lt_start_cut, (bool_decide_eq_false_2 (hi r2 ≼ lo r1)), bool_decide_eq_true_2 by done.
    split_and!; [done..|]. intros x. rewrite Hcov, covers_any_app, !(covers_any_cons r1).
    unfold covers_any at 2. rewrite Exists_nil. specialize (Hx x). tauto. }
  rewrite not_le in Hbefore, Hafter. rewrite subtract_overlap_step by done.
  pose proof (subtracting_overlap _ _ _ _ _ Hafter Hbefore Hsub) as Hsub'.
  destruct Hsub as [Hl Hr _ _ _]. apply Forall_cons in Hl as [Hp1 _]. apply Forall_cons in Hr as [Hp2 _].
  destruct (cut_out_spec r1 r2) as (Hlen & Hps & _ & Hx); [done..|].
  pose proof (potential_overlap r1 (cut_out r1 r2) left r2 right) as Hpot.
  destruct (IH _ _ _ Hsub') as (l & Hl & Hp & Ho & Hcov).
  { rewrite interval_overlaps_cut, !bool_decide_eq_true_2 in Hpot by done. specialize (Hpot eq_refl Hlen Hps). lia. }
  exists l. split_and!; [done..|]. intros x. rewrite Hcov, covers_any_app, Hx, !covers_any_cons. tauto.
Qed.

Lemma pieces_ordered r : interval_wf r -> ordered (pieces cmp r).
Proof.
  intros Hwf. unfold pieces, ordered. destruct (is_wrap_around cmp r) eqn:Hw; [|by repeat constructor].
  pose proof (unwrap_plain r) as (_ & _ & Hhi & _ & Hlo & _). repeat constructor. rewrite Hhi, Hlo.
  rewrite is_wrap_cut, bool_decide_eq_true in Hw; done.
Qed.
Lemma pieces_length r : (1 <= length (pieces cmp r) <= 2)%nat.
Proof. unfold pieces. destruct (is_wrap_around cmp r); simpl; lia. Qed.

Lemma pieces_potential r o : (potential (pieces cmp r) (pieces cmp o) <= subtract_fuel)%nat.
Proof.
  unfold potential. pose proof (pieces_length r). pose proof (pieces_length o).
  destruct (pieces cmp o) as [|r2 [|r3 [|]]] eqn:Ho; simpl in *; try lia;
    pose proof (weights_bounds r2 (pieces cmp r)); unfold subtract_fuel; lia.
Qed.

(** ** Removing overlaps *)

Definition start_le (p q : wrapping_interval T) : Prop := start_lt_start cmp (start q) (start p) = false.
#[export] Instance start_le_dec p q : Decision (start_le p q).
Proof. unfold start_le. apply _. Defined.

Definition by_start : list (wrapping_interval T) -> Prop := StronglySorted start_le.

Lemma by_start_cons p l : by_start (p :: l) -> by_start l /\ forall q, q ∈ l -> lo p ≼ lo q.
Proof.
  unfold by_start, start_le. rewrite StronglySorted_cons, Forall_forall. intros [Hp Hl]. split; [done|].
  intros q Hq. specialize (Hp q Hq). revert Hp. by rewrite start_lt_cut, bool_decide_eq_false, not_lt.
Qed.

(** Merge sort is a possible [std::sort]. *)
Lemma merge_sort_by_start l : merge_sort start_le l ≡ₚ l /\ by_start (merge_sort start_le l).
Proof.
  assert (forall p q, start_le p q <-> lo p ≼ lo q) as Hle.
  { intros p q. unfold start_le. by rewrite start_lt_cut, bool_decide_eq_false, not_lt. }
  split; [apply merge_sort_Permutation|]. apply StronglySorted_merge_sort.
  - intros p q s. rewrite !Hle. intros. rank_lia [lo p; lo q; lo s].
  - intros p q. rewrite !Hle. rank_lia [lo p; lo q].
Qed.

(** The two ways in which the loop absorbs an interval. *)
Lemma absorb_inside cur r x : plain cmp cur -> plain cmp r -> lo cur ≼ lo r -> hi r ≼ hi cur ->
  covers cmp r x -> covers cmp cur x.
Proof. intros. rewrite covers_plain_cut in * by done. rank_lia [lo cur; hi cur; lo r; hi r; Below x; Above x]. Qed.

Lemma absorb_extend cur r : plain cmp cur -> plain cmp r -> lo cur ≼ lo r -> hi cur ≺ hi r -> lo r ≺ hi cur ->
  let m := mk_interval (start cur) (end_ r) false in
  plain cmp m /\ lo m = lo cur /\ forall x, covers cmp m x <-> covers cmp cur x \/ covers cmp r x.
Proof.
  intros Hc Hr Hle Hlt Hin m. pose proof Hc as [_ Hc']%plain_cut.
  assert (lo m = lo cur /\ hi m = hi r) as [Hlo Hhi] by done.
  assert (plain cmp m) by (apply plain_cut; split; [done|]; rewrite Hlo, Hhi; rank_lia [lo cur; hi cur; hi r]).
  split_and!; [done..|]. intros x. rewrite !covers_plain_cut, Hlo, Hhi by done.
  pose proof (point_cut x (lo r)). pose proof (point_cut x (hi cur)). pose proof (below_above x).
  rank_lia [lo cur; hi cur; lo r; hi r; Below x; Above x].
Qed.

Lemma deoverlap_loop_spec rest : forall cur acc,
  plain cmp cur -> Forall (plain cmp) rest -> Forall (plain cmp) acc -> ordered (acc ++ [cur]) ->
  by_start rest -> (forall q, q ∈ rest -> lo cur ≼ lo q) ->
  let l := deoverlap_loop cmp cur rest acc in
  Forall (plain cmp) l /\ ordered l /\
  forall x, covers_any l x <-> covers_any acc x \/ covers cmp cur x \/ covers_any rest x.
Proof.
  induction rest as [|r rest IH]; intros cur acc Hcur Hrest Hacc Hord Hby Hle; simpl.
  { split_and!; [by rewrite Forall_app, Forall_singleton|done|]. intros x.
    rewrite covers_any_app, covers_any_cons. done. }
  apply by_start_cons in Hby as [Hby Hr]. apply Forall_cons in Hrest as [Hpr Hrest].
  pose proof (Hle r (list_elem_of_here _ _)) as Hcr. pose proof Hpr as [_ Hpr']%plain_cut.
  assert (forall q, q ∈ rest -> lo cur ≼ lo q) by (intros; by apply Hle, list_elem_of_further).
  rewrite !ge_start_cut, ge_end_cut, (bool_decide_eq_true_2 (lo cur ≺ hi r)) by rank_lia [lo cur; lo r; hi r].
  simpl. case_bool_decide as Hin; [|case_bool_decide as Hov].
  - destruct (IH cur acc) as (? & ? & Hcov); [done..|]. split_and!; [done..|]. intros x.
    rewrite Hcov, (covers_any_cons r). pose proof (absorb_inside cur r x Hcur Hpr Hcr Hin). tauto.
  - destruct (absorb_extend cur r) as (Hm & Hlo & Hmx); [done..|rank_lia [hi cur; hi r]|done|].
    destruct (IH (mk_interval (start cur) (end_ r) false) acc) as (? & ? & Hcov); try done.
    + apply ordered_app in Hord as (Hacc' & _ & Hlast). apply ordered_app. split_and!; [done|by repeat constructor|].
      intros p q Hp ->%list_elem_of_singleton. rewrite Hlo. apply Hlast; [done|]. by apply list_elem_of_singleton.
    + split_and!; [done..|]. intros x. rewrite Hcov, Hmx, (covers_any_cons r). tauto.
  - apply not_lt in Hov. destruct (IH r (acc ++ [cur])) as (? & ? & Hcov); try done.
    + by rewrite Forall_app, Forall_singleton.
    + apply ordered_app in Hord as Hord'. destruct Hord' as (Hacc' & _ & Hlast).
      apply ordered_app. split_and!; [done|by repeat constructor|].
      intros p q [Hp| ->%list_elem_of_singleton]%elem_of_app ->%list_elem_of_singleton; [|done].
      pose proof (Hlast p cur Hp (list_elem_of_here _ _)). rank_lia [hi p; lo cur; lo r].
    + split_and!; [done..|]. intros x. rewrite Hcov, covers_any_app, !covers_any_cons.
      unfold covers_any at 2. rewrite Exists_nil. tauto.
Qed.

(** ** Slices of a sorted sequence *)

Fixpoint prefix_length (P : T -> bool) (xs : list T) : nat :=
  match xs with
  | x :: xs => if P x then S (prefix_length P xs) else 0
  | [] => 0
  end.

Lemma prefix_length_ext P Q xs : (forall x, P x = Q x) -> prefix_length P xs = prefix_length Q xs.
Proof. intros HPQ. induction xs as [|x xs IH]; simpl; [done|]. by rewrite HPQ, IH. Qed.

Lemma std_lower_bound_prefix xs v :
  std_lower_bound cmp xs v = prefix_length (fun x => bool_decide (cmp x v = Lt)) xs.
Proof. induction xs as [|x xs IH]; simpl; [done|]. by rewrite IH. Qed.
Lemma std_upper_bound_prefix xs v :
  std_upper_bound cmp xs v = prefix_length (fun x => negb (bool_decide (cmp v x = Lt))) xs.
Proof. induction xs as [|x xs IH]; simpl; [done|]. rewrite IH. by destruct (bool_decide (cmp v x = Lt)). Qed.

Lemma lower_bound_prefix r xs :
  lower_bound cmp r xs = prefix_length (fun x => bool_decide (Below x ≺ lo r)) xs.
Proof.
  unfold lower_bound, lo. destruct (start r) as [[v []]|]; simpl.
  - apply std_lower_bound_prefix.
  - rewrite std_upper_bound_prefix. apply prefix_length_ext. intros x.
    unfold cut_compare. rewrite (cmp_sym cmp v x). by destruct (cmp v x).
  - by destruct xs.
Qed.
Lemma upper_bound_prefix r xs : interval_wf r ->
  upper_bound cmp r xs = Ret (prefix_length (fun x => bool_decide (Above x ≼ hi r)) xs).
Proof.
  intros Hwf. unfold upper_bound, hi. destruct (end_ r) as [[v []]|] eqn:He; simpl.
  - rewrite std_upper_bound_prefix. f_equal. apply prefix_length_ext. intros x.
    unfold cut_compare. rewrite (cmp_sym cmp x v). by destruct (cmp x v).
  - rewrite std_lower_bound_prefix. f_equal. apply prefix_length_ext. intros x.
    unfold cut_compare. by destruct (cmp x v).
  - unfold is_singular, end_ in *. destruct (wi_singular r) eqn:Hs.
    + destruct (Hwf Hs) as (_ & v & Hv). congruence.
    + f_equal. induction xs as [|x xs IH]; simpl; [done|]. by rewrite IH.
Qed.

Lemma slice_prefix r xs : plain cmp r -> StronglySorted (fun x y => cmp x y <> Gt) xs ->
  let l := prefix_length (fun x => bool_decide (Below x ≺ lo r)) xs in
  let u := prefix_length (fun x => bool_decide (Above x ≼ hi r)) xs in
  (l <= u)%nat /\ take (u - l) (drop l xs) = filter (fun x => lo r ≼ Below x /\ Above x ≼ hi r) xs.
Proof.
  intros [_ Hr]%plain_cut. induction 1 as [|x xs Hxs IH Hx]; simpl; [done|].
  pose proof (point_cut x (lo r)). pose proof (below_above x). rewrite filter_cons.
  destruct (decide (Below x ≺ lo r)) as [Hlo|Hlo];
    [rewrite (bool_decide_eq_true_2 (Below x ≺ lo r)) by done|rewrite (bool_decide_eq_false_2 (Below x ≺ lo r)) by done].
  { rewrite bool_decide_eq_true_2 by rank_lia [lo r; hi r; Below x; Above x].
    rewrite decide_False by rank_lia [lo r; hi r; Below x; Above x]. simpl. destruct IH. split; [lia|done]. }
  assert (prefix_length (fun x => bool_decide (Below x ≺ lo r)) xs = 0%nat) as Hzero.
  { destruct xs as [|y xs]; [done|]. simpl. rewrite bool_decide_eq_false_2; [done|].
    apply Forall_cons in Hx as [Hxy _]. assert (Below x ≼ Below y) by done.
    rank_lia [lo r; Below x; Below y]. }
  rewrite Hzero in IH. simpl. split; [lia|]. cbv zeta in IH. rewrite Nat.sub_0_r in IH |- *. destruct IH as [_ IH].
  case_bool_decide as Hhi; simpl.
  - rewrite decide_True by (split; [by apply not_lt|done]). f_equal. rewrite <- IH. by rewrite drop_0.
  - rewrite decide_False by tauto. symmetry. rewrite <- IH, drop_0.
    destruct xs as [|y xs]; [done|]. simpl. rewrite bool_decide_eq_false_2; [done|].
    apply Forall_cons in Hx as [Hxy _]. assert (Above x ≼ Above y) by done. rank_lia [hi r; Above x; Above y].
Qed.

(** ** Containment of intervals *)

Lemma wrap_bounds r : is_wrap_around cmp r = true -> exists s e, start r = Some s /\ end_ r = Some e.
Proof.
  unfold is_wrap_around. intros Hw.
  destruct (wi_end r), (wi_start r); try done. destruct (end_ r), (start r); try done. eauto.
Qed.

Lemma contains_interval_same r o : is_wrap_around cmp r = is_wrap_around cmp o ->
  contains_interval cmp r o = Ret (bool_decide (lo r ≼ lo o) && bool_decide (hi o ≼ hi r)).
Proof.
  intros Hw. rewrite <- start_le_cut, <- ge_end_cut. unfold contains_interval. rewrite <- Hw.
  destruct (is_wrap_around cmp r) eqn:Hr; simpl; [|done].
  destruct (wrap_bounds r) as (s & e & -> & ->); [done|].
  by destruct (wrap_bounds o) as (os & oe & -> & ->).
Qed.

Lemma contains_interval_wraps r o : is_wrap_around cmp r = true -> is_wrap_around cmp o = false ->
  exists b, contains_interval cmp r o = Ret b /\ (b = true -> lo r ≼ lo o \/ hi o ≼ hi r).
Proof.
  intros Hr Ho. pose proof (start_le_cut r o) as Hs. pose proof (ge_end_cut r o) as He.
  unfold contains_interval. rewrite Hr, Ho. simpl.
  destruct (wrap_bounds r) as (s & e & Hs' & He'); [done|]. rewrite Hs', He' in *.
  destruct (start o) as [os|].
  - simpl in *. rewrite Hs. destruct (bool_decide (lo r ≼ lo o)) eqn:Hd; simpl.
    { eexists. split; [done|]. apply bool_decide_eq_true in Hd. auto. }
    destruct (end_ o) as [oe|]; simpl in *; eexists; (split; [done|]); [|done].
    rewrite He, bool_decide_eq_true. auto.
  - simpl in *. destruct (end_ o) as [oe|]; simpl in *; eexists; (split; [done|]); [|done].
    rewrite He, bool_decide_eq_true. auto.
Qed.

Lemma contains_interval_sound r o x b : interval_wf r -> interval_wf o ->
  contains_interval cmp r o = Ret b -> b = true -> covers cmp o x -> covers cmp r x.
Proof.
  intros Hwr Hwo Hb ->. destruct (decide (is_wrap_around cmp r = is_wrap_around cmp o)) as [Hw|Hw].
  { rewrite contains_interval_same in Hb by done. apply Ret_inj, andb_true_iff in Hb.
    rewrite !bool_decide_eq_true in Hb. destruct Hb.
    destruct (is_wrap_around cmp o) eqn:Ho; rewrite ?covers_wrap, ?covers_plain by done;
      rank_lia [lo r; hi r; lo o; hi o; Below x; Above x]. }
  destruct (is_wrap_around cmp r) eqn:Hr, (is_wrap_around cmp o) eqn:Ho; try done.
  - destruct (contains_interval_wraps r o) as (b & Hb' & Himp); [done..|].
    rewrite Hb in Hb'. apply Ret_inj in Hb' as <-. rewrite (covers_wrap r), (covers_plain o) by done. intros [].
    destruct (Himp eq_refl); [left|right]; rank_lia [lo r; hi r; lo o; hi o; Below x; Above x].
  - intros _. rewrite covers_plain by done. revert Hb. unfold contains_interval, lo, hi. rewrite Hr, Ho. simpl.
    destruct (start r), (end_ r); done.
Qed.

Lemma contains_interval_complete `{!DenseOrder cmp} r o : plain cmp r -> plain cmp o ->
  (forall x, covers cmp o x -> covers cmp r x) -> contains_interval cmp r o = Ret true.
Proof.
  intros Hr Ho Hx. rewrite contains_interval_same by (by rewrite (proj2 Hr), (proj2 Ho)).
  pose proof Ho as [_ Ho']%plain_cut.
  destruct (decide (lo r ≼ lo o)) as [Hlo|Hlo%not_le]; [destruct (decide (hi o ≼ hi r)) as [Hhi|Hhi%not_le]|].
  - by rewrite !bool_decide_eq_true_2.
  - exfalso. destruct (dense_cut2 (lo o) (hi r) (hi o) (hi o)) as (x & ? & ? & ? & _); [done..|].
    specialize (Hx x). rewrite !covers_plain_cut in Hx by done. destruct Hx as [_ Hx]; [done|].
    pose proof (below_above x). rank_lia [hi r; Below x; Above x].
  - exfalso. destruct (dense_cut2 (lo o) (lo o) (hi o) (lo r)) as (x & ? & _ & ? & ?); [done..|].
    specialize (Hx x). rewrite !covers_plain_cut in Hx by done. destruct Hx as [Hx _]; [done|].
    pose proof (below_above x). rank_lia [lo r; Below x; Above x].
Qed.

Lemma other_is_before_spec r o : is_wrap_around cmp r = false -> is_wrap_around cmp o = false ->
  other_is_before cmp r o = Ret (bool_decide (hi o ≼ lo r)).
Proof.
  intros Hr Ho. unfold other_is_before, lo, hi. rewrite Hr, Ho. simpl.
  destruct (start r) as [[u []]|], (end_ o) as [[v []]|]; simpl; unfold cut_compare; try done;
    by destruct (cmp v u).
Qed.

Lemma covers_order a b x y : Above x ≼ a -> a ≼ b -> b ≼ Below y -> cmp x y = Lt.
Proof.
  intros. assert (Above x ≼ Below y) as Hxy by rank_lia [a; b; Above x; Below y].
  unfold cut_compare in Hxy. by destruct (cmp x y).
Qed.

(** Equal intervals cover the same points. *)
Lemma equal_covers r o x : interval_wf r -> interval_wf o -> equal cmp r o = true ->
  covers cmp r x <-> covers cmp o x.
Proof.
  assert (forall a b : interval_bound T, bound_equal cmp a b = true ->
    (forall c, cut_compare cmp (start_cut (Some a)) c = cut_compare cmp (start_cut (Some b)) c) /\
    (forall c, cut_compare cmp c (end_cut (Some a)) = cut_compare cmp c (end_cut (Some b)))) as Hbound.
  { assert (forall u v : cut, cut_compare cmp u v = Eq ->
      (forall c, cut_compare cmp u c = cut_compare cmp v c) /\
      (forall c, cut_compare cmp c u = cut_compare cmp c v)) as Heq.
    { intros u v Huv. split; intros c; destruct (rank_exists (cut_compare cmp) [u; v; c]) as [rk Hrk];
        rewrite Hrk in Huv |- * by in_list; apply Z.compare_eq_iff in Huv as ->; by rewrite Hrk by in_list. }
    intros [u i] [v j] [Hij%eqb_prop Huv%bool_decide_eq_true]%andb_true_iff. simpl in *. subst j.
    destruct i; split; apply Heq; done. }
  intros Hr Ho Heq. unfold equal in Heq. rewrite !andb_true_iff in Heq. destruct Heq as [[[[Hs He] Hbs] Hbe] Hsg%eqb_prop].
  assert (forall c, cut_compare cmp (lo r) c = cut_compare cmp (lo o) c) as Hlo.
  { unfold lo, start. destruct (wi_start r), (wi_start o); try done. by apply Hbound. }
  assert (forall c, cut_compare cmp c (hi r) = cut_compare cmp c (hi o)) as Hhi.
  { unfold hi, end_. rewrite Hsg. destruct (wi_singular o); [destruct (wi_start r), (wi_start o)|destruct (wi_end r), (wi_end o)];
      try done; by apply Hbound. }
  assert (is_wrap_around cmp r = is_wrap_around cmp o) as Hw.
  { rewrite !is_wrap_cut by done. apply bool_decide_ext. rewrite <- !not_lt. by rewrite Hlo, Hhi. }
  destruct (is_wrap_around cmp o) eqn:Hwo; rewrite ?covers_wrap, ?covers_plain, Hlo, Hhi by done; done.
Qed.

(** A transformation that keeps the order keeps what is covered. *)
Lemma transform_covers {U} (cmpU : U -> U -> comparison) (f : T -> U) r x :
  (forall u v, cmpU (f u) (f v) = cmp u v) -> interval_wf r ->
  covers cmpU (transform f r) (f x) <-> covers cmp r x.
Proof.
  intros Hf Hwf. destruct r as [s e sg].
  assert (sg = true -> e = None) as He by (intros ->; apply Hwf; done).
  unfold covers, is_wrap_around, after_start, before_end, transform, start, end_; simpl.
  destruct s as [[u i]|], e as [[v j]|], sg; try (by specialize (He eq_refl)); simpl; rewrite ?Hf; done.
Qed.

(** ** Theorems *)

(** The tests of points. [contains] returns (its recursion ends and none of
    the assertions of [before] and [after] fails) whether the point is covered,
    for wrapping intervals too. For an interval that does not wrap around, a
    point is before it, covered or after it, exactly one of them, and if
    [other_is_before] says so, all its points are less than all points of the
    other. *)
Theorem point_tests_correct r o x : interval_wf r -> interval_wf o ->
  (exists c, contains cmp r x = Ret c /\ (c = true <-> covers cmp r x)) /\
  (is_wrap_around cmp r = false -> exists b a, before cmp r x = Ret b /\ after cmp r x = Ret a /\
    (covers cmp r x <-> b = false /\ a = false) /\ ~ (b = true /\ a = true)) /\
  (is_wrap_around cmp r = false -> is_wrap_around cmp o = false ->
    exists b, other_is_before cmp r o = Ret b /\
      (b = true -> forall y z, covers cmp o y -> covers cmp r z -> cmp y z = Lt)).
Proof.
  intros Hr Ho. split; [apply contains_spec|]. split.
  - intros Hw. assert (lo r ≺ hi r) by by apply plain_cut.
    rewrite before_spec, after_spec by done. eexists _, _. rewrite covers_plain by done.
    split_and!; [done..| |].
    + by rewrite !bool_decide_eq_false, !not_lt.
    + rewrite !bool_decide_eq_true. pose proof (point_cut x (hi r)). pose proof (below_above x).
      rank_lia [lo r; hi r; Below x; Above x].
  - intros Hwr Hwo. rewrite other_is_before_spec by done. eexists; split; [done|].
    rewrite bool_decide_eq_true. intros Hle y z. rewrite !covers_plain by done.
    intros [_ Hy] [Hz _]. by eapply covers_order.
Qed.

(** The test whether two intervals overlap. It always returns, also for
    wrapping intervals, and says yes whenever there is a common point; in an
    order without gaps it says yes only then. *)
Theorem overlaps_correct r o : interval_wf r -> interval_wf o ->
  exists b, overlaps cmp r o = Ret b /\
    ((exists x, covers cmp r x /\ covers cmp o x) -> b = true) /\
    (DenseOrder cmp -> b = true -> exists x, covers cmp r x /\ covers cmp o x).
Proof.
  intros Hr Ho. destruct (overlaps_pieces r o) as (b & Hb & Hiff); [done..|]. exists b.
  split; [done|]. pose proof (pieces_plain r Hr) as Hpr. pose proof (pieces_plain o Ho) as Hpo.
  rewrite Forall_forall in Hpr, Hpo. rewrite Hiff. split.
  - intros (x & Hxr & Hxo). right. apply covers_pieces in Hxr, Hxo.
    apply Exists_exists in Hxr as (p & Hp & Hxp), Hxo as (q & Hq & Hxq).
    apply Exists_exists. exists p. split; [done|]. apply Exists_exists. exists q. split; [done|].
    eauto using common_overlaps.
  - intros Hdense [[Hwr Hwo]|Hex].
    + destruct (dense_cut2 (lo r) (lo o) Top Top) as (x & ? & ? & _); [apply lo_top..|].
      exists x. rewrite !covers_wrap by done. auto.
    + apply Exists_exists in Hex as (p & Hp & (q & Hq & Hov)%Exists_exists).
      rewrite interval_overlaps_cut, andb_true_iff, !bool_decide_eq_true in Hov. destruct Hov.
      pose proof (Hpr p Hp) as [_ ?]%plain_cut. pose proof (Hpo q Hq) as [_ ?]%plain_cut.
      destruct (dense_cut2 (lo p) (lo q) (hi p) (hi q)) as (x & ? & ? & ? & ?); [done..|].
      exists x. rewrite !covers_pieces, !Exists_exists.
      split; [exists p|exists q]; (split; [done|]); rewrite covers_plain_cut; auto.
Qed.

(** The test whether an interval contains another. It returns for any two
    intervals, and says yes only if all points of the other are covered. In an
    order without gaps and for intervals that do not wrap around, it says yes
    whenever that is so. *)
Theorem contains_interval_correct r o : interval_wf r -> interval_wf o ->
  exists b, contains_interval cmp r o = Ret b /\
    (b = true -> forall x, covers cmp o x -> covers cmp r x) /\
    (DenseOrder cmp -> is_wrap_around cmp r = false -> is_wrap_around cmp o = false ->
      (forall x, covers cmp o x -> covers cmp r x) -> b = true).
Proof.
  intros Hr Ho.
  assert (exists b, contains_interval cmp r o = Ret b) as [b Hb].
  { destruct (is_wrap_around cmp r) eqn:Hwr, (is_wrap_around cmp o) eqn:Hwo;
      try (rewrite contains_interval_same by congruence; eauto; fail).
    - destruct (contains_interval_wraps r o) as (b & ? & _); eauto.
    - unfold contains_interval. rewrite Hwr, Hwo. simpl. eauto. }
  exists b. split_and!; [done|..].
  - intros -> x. by apply contains_interval_sound with true.
  - intros ? Hwr Hwo Hx. rewrite contains_interval_complete in Hb by done. by apply Ret_inj in Hb.
Qed.

(** Intersection. Two intervals that do not wrap around have an intersection
    exactly when they overlap, it does not wrap around either, and it covers
    exactly the common points; [trim_front] is the intersection with everything
    from a bound on. *)
Theorem intersection_correct r o s : plain cmp r -> plain cmp o ->
  (match intersection cmp r o with
   | Some i => interval_overlaps cmp r o = true /\ plain cmp i /\
       forall x, covers cmp i x <-> covers cmp r x /\ covers cmp o x
   | None => interval_overlaps cmp r o = false /\ forall x, ~ (covers cmp r x /\ covers cmp o x)
   end) /\
  (match trim_front cmp r s with
   | Some i => plain cmp i /\
       forall x, covers cmp i x <-> covers cmp r x /\ after_start cmp (mk_interval s None false) x
   | None => forall x, covers cmp r x -> ~ after_start cmp (mk_interval s None false) x
   end).
Proof.
  intros Hr Ho.
  assert (forall q, plain cmp q -> interval_overlaps cmp r q = false ->
    forall x, ~ (covers cmp r x /\ covers cmp q x)) as Hnone.
  { intros q Hq Hov x [? ?]. by rewrite (common_overlaps r q x) in Hov. }
  split.
  - pose proof (intersection_spec r o Hr Ho). destruct (intersection cmp r o); eauto.
  - set (q := mk_interval s None false).
    assert (plain cmp q) as Hq by (apply plain_mk; destruct s as [[v []]|]; done).
    assert (forall x, covers cmp q x <-> after_start cmp q x) as Hcov.
    { intros x. rewrite covers_plain_cut, after_start_cut by done. split; [by intros []|done]. }
    pose proof (intersection_spec r q Hr Hq) as Hs. unfold trim_front. fold q.
    destruct (intersection cmp r q) as [i|].
    + destruct Hs as (_ & ? & Hi). split; [done|]. intros x. by rewrite Hi, Hcov.
    + intros x Hx Ha. apply (Hnone q Hq Hs x). by rewrite Hcov.
Qed.

(** Subtraction. [subtract] returns for any two intervals (its loop ends), and
    the result covers exactly the points of the first that the second does not
    cover. The resulting intervals do not wrap around, are ordered and do not
    overlap. *)
Theorem subtract_correct r o : interval_wf r -> interval_wf o ->
  exists l, subtract cmp r o = Ret l /\
    (forall x, (exists p, p ∈ l /\ covers cmp p x) <-> covers cmp r x /\ ~ covers cmp o x) /\
    Forall (plain cmp) l /\ disjoint_ordered cmp l.
Proof.
  intros Hr Ho. destruct (subtract_loop_spec subtract_fuel (pieces cmp r) (pieces cmp o) [])
    as (l & Hl & Hp & Hord & Hcov); [|apply pieces_potential|].
  { by split; [apply pieces_plain|apply pieces_plain|constructor|apply (pieces_ordered r)|apply pieces_ordered]. }
  exists l. split_and!; [done| |done|by apply disjoint_ordered_cut]. intros x.
  pose proof (Hcov x) as Hx. unfold covers_any in Hx.
  rewrite <- !covers_pieces, Exists_nil, Exists_exists in Hx. tauto.
Qed.

(** Splitting. At a covered point that is not the inclusive end, [split]
    returns two intervals that together cover exactly the points of the interval,
    have no common point, and of which the first covers the point; also for
    wrapping intervals. *)
Theorem split_correct r p : interval_wf r -> covers cmp r p ->
  (forall e, end_ r = Some e -> b_inclusive e = true -> cmp (b_value e) p <> Eq) ->
  exists a b, split cmp r p = Ret (a, b) /\ covers cmp a p /\
    (forall x, covers cmp r x <-> covers cmp a x \/ covers cmp b x) /\
    (forall x, ~ (covers cmp a x /\ covers cmp b x)).
Proof.
  intros Hwf Hp Hend. destruct (contains_spec r p) as (c & Hc & Hiff).
  assert (c = true) as -> by by apply Hiff. unfold split. rewrite Hc. simpl.
  set (a := mk_interval (start r) (Some (IntervalBound p true)) false).
  set (b := mk_interval (Some (IntervalBound p false)) (end_ r) false).
  exists a, b. split; [done|].
  assert (lo a = lo r /\ hi a = Above p /\ lo b = Above p /\ hi b = hi r) as (Hla & Hha & Hlb & Hhb) by done.
  assert (forall i x, interval_wf i -> covers cmp i x <->
    hi i ≼ lo i /\ (lo i ≼ Below x \/ Above x ≼ hi i) \/
    lo i ≺ hi i /\ lo i ≼ Below x /\ Above x ≼ hi i) as Hcov.
  { intros i x Hi. rewrite <- (not_le (hi i) (lo i)). destruct (is_wrap_around cmp i) eqn:Hw.
    - rewrite covers_wrap by done. rewrite is_wrap_cut, bool_decide_eq_true in Hw by done. tauto.
    - rewrite covers_plain by done. rewrite is_wrap_cut, bool_decide_eq_false in Hw by done. tauto. }
  assert (interval_wf a /\ interval_wf b) as [Hwa Hwb] by done.
  pose proof (lo_top r). pose proof (bottom_hi r). pose proof (below_above p).
  rewrite (Hcov r p Hwf) in Hp. assert (hi r ≺ Above p \/ Above p ≺ hi r) as Hne.
  { assert (cut_compare cmp (hi r) (Above p) <> Eq) as Hne.
    { unfold hi, cut_compare. destruct (end_ r) as [[e []]|]; simpl; [by eapply (Hend _ eq_refl)| |done].
      by destruct (cmp e p). }
    pose proof (cmp_gt_lt (cut_compare cmp) (hi r) (Above p)) as Hgt.
    destruct (cut_compare cmp (hi r) (Above p)); naive_solver. }
  clear Hend. split_and!.
  - rewrite Hcov, Hla, Hha by done. rank_lia [lo r; hi r; Below p; Above p].
  - intros x. rewrite (Hcov r), (Hcov a), (Hcov b), Hla, Hha, Hlb, Hhb by done.
    pose proof (below_above x). pose proof (point_cut x (Above p)). pose proof (point_cut x (lo r)).
    pose proof (point_cut x (hi r)). rank_lia [lo r; hi r; Below p; Above p; Below x; Above x].
  - intros x. rewrite (Hcov a), (Hcov b), Hla, Hha, Hlb, Hhb by done.
    pose proof (below_above x). pose proof (point_cut x (Above p)). pose proof (point_cut x (lo r)).
    pose proof (point_cut x (hi r)). rank_lia [lo r; hi r; Below p; Above p; Below x; Above x].
Qed.

Lemma after_end_cut r p :
  match end_ r with None => false | Some e => negb (bool_decide (cmp p (b_value e) = Lt)) end =
  bool_decide (hi r ≼ Above p).
Proof.
  unfold hi, cut_compare. destruct (end_ r) as [[e []]|]; simpl; [..|done];
    rewrite (cmp_sym cmp p e); destruct (cmp p e); done.
Qed.

Lemma split_rest r p : plain cmp r -> Above p ≺ hi r -> lo r ≼ Above p ->
  let i := mk_interval (Some (IntervalBound p false)) (end_ r) false in
  plain cmp i /\ forall x, covers cmp i x <-> covers cmp r x /\ cmp p x = Lt.
Proof.
  intros Hr Hlt Hlo i. assert (lo i = Above p /\ hi i = hi r) as [Hli Hhi] by done.
  assert (plain cmp i) by (apply plain_cut; by rewrite Hli, Hhi). split; [done|]. intros x.
  rewrite !covers_plain_cut, Hli, Hhi by done.
  assert (cmp p x = Lt <-> Above p ≼ Below x) as -> by (unfold cut_compare; by destruct (cmp p x)).
  rank_lia [lo r; hi r; Above p; Below x; Above x].
Qed.

(** The part after a point. For an interval that does not wrap around, both
    versions of [split_after] return nothing only if no covered point is greater,
    and otherwise an interval that covers exactly the greater ones. *)
Theorem split_after_correct r p : plain cmp r ->
  let rest res :=
    match res with
    | Some i => plain cmp i /\ forall x, covers cmp i x <-> covers cmp r x /\ cmp p x = Lt
    | None => forall x, covers cmp r x -> cmp p x <> Lt
    end in
  rest (interval_split_after cmp r p) /\ exists res, split_after cmp r p = Ret res /\ rest res.
Proof.
  intros Hr rest. pose proof Hr as [_ Hr']%plain_cut.
  assert (hi r ≼ Above p -> rest None) as Hnone.
  { intros Hle x Hx. apply covers_plain_cut in Hx as [_ Hx]; [|done]. intros Hpx.
    assert (Above p ≺ Above x) by done. rank_lia [hi r; Above p; Above x]. }
  assert (Below p ≺ lo r -> rest (Some r)) as Hall.
  { intros Hlt. split; [done|]. intros x. split; [|by intros []]. intros Hx. split; [done|].
    apply covers_plain_cut in Hx as [Hx _]; [|done].
    assert (Below p ≺ Below x) by rank_lia [lo r; Below p; Below x]. done. }
  split.
  - unfold interval_split_after. rewrite after_end_cut. case_bool_decide as Hend; [by apply Hnone|].
    assert (Above p ≺ hi r) by rank_lia [hi r; Above p].
    destruct (match start r with None => false | Some s => bool_decide (cmp p (b_value s) = Lt) end) eqn:Hs.
    + apply Hall. unfold lo, cut_compare. destruct (start r) as [[s []]|]; simpl; [..|done];
        simpl in Hs; apply bool_decide_eq_true in Hs; by rewrite Hs.
    + apply split_rest; [done..|]. unfold lo, cut_compare.
      destruct (start r) as [[s []]|]; simpl; [..|done]; simpl in Hs; apply bool_decide_eq_false in Hs;
        rewrite (cmp_sym cmp p s); by destruct (cmp p s).
  - unfold split_after. destruct (contains_spec r p) as (c & -> & Hc). simpl. eexists; split; [done|].
    rewrite after_end_cut. rewrite covers_plain_cut in Hc by done. pose proof (below_above p).
    destruct (c && _) eqn:Hin.
    + apply andb_true_iff in Hin as [-> Hne]. destruct Hc as [[Hlo Hhi] _]; [done|].
      apply split_rest; [done| |rank_lia [lo r; Below p; Above p]].
      revert Hhi Hne. unfold hi, cut_compare. destruct (end_ r) as [[e []]|]; simpl; [..|done];
        destruct (cmp p e); done.
    + case_bool_decide as Hend; [by apply Hnone|]. apply Hall.
      destruct c; [|rank_lia [lo r; hi r; Below p; Above p]].
      exfalso. revert Hend Hin. clear -TotalOrder0. unfold hi, cut_compare.
      destruct (end_ r) as [[e []]|]; simpl; try done; rewrite (cmp_sym cmp p e); by destruct (cmp p e).
Qed.

(** The results begin where given intervals begin. *)
Lemma deoverlap_loop_starts rest : forall cur acc p,
  p ∈ deoverlap_loop cmp cur rest acc -> p ∈ acc \/ exists q, q ∈ cur :: rest /\ start p = start q.
Proof.
  induction rest as [|r rest IH]; intros cur acc p; cbn [deoverlap_loop].
  { intros [?|Hp%list_elem_of_singleton]%elem_of_app; [by left|right]. subst p. exists cur. split; [left|done]. }
  destruct (_ && _); [|destruct (end_ge_start cmp (end_ cur) (start r))]; intros Hp;
    apply IH in Hp as [Hp|(q & Hq & Hst)].
  - by left.
  - right. exists q. split; [set_solver|done].
  - by left.
  - right. apply elem_of_cons in Hq as [->|Hq]; [exists cur|exists q]; (split; [set_solver|done]).
  - apply elem_of_app in Hp as [?|Hp%list_elem_of_singleton]; [by left|right]. subst p. exists cur. split; [left|done].
  - right. exists q. split; [set_solver|done].
Qed.

Lemma deoverlap_starts sort l p :
  (forall l, sort l ≡ₚ l) -> p ∈ deoverlap cmp sort l -> exists q, q ∈ l /\ start p = start q.
Proof.
  intros Hsort. unfold deoverlap. destruct (length l <=? 1)%nat; [by exists p|].
  pose proof (Hsort l) as Hperm. destruct (sort l) as [|cur rest]; [by intros ?%elem_of_nil|].
  intros [?%elem_of_nil|(q & Hq & ?)]%deoverlap_loop_starts; [done|]. exists q. split; [|done]. by rewrite <- Hperm.
Qed.

Lemma deoverlap_spec sort l :
  (forall l, sort l ≡ₚ l /\ by_start (sort l)) -> Forall (plain cmp) l ->
  let l' := deoverlap cmp sort l in
  (forall x, (exists p, p ∈ l' /\ covers cmp p x) <-> exists p, p ∈ l /\ covers cmp p x) /\
  Forall (plain cmp) l' /\ disjoint_ordered cmp l'.
Proof.
  intros Hsort Hl. unfold deoverlap. destruct (Nat.leb_spec (length l) 1) as [Hlen|Hlen].
  { split_and!; [done..|]. apply disjoint_ordered_cut.
    destruct l as [|p [|q l]]; [by constructor|by repeat constructor|simpl in *; lia]. }
  destruct (Hsort l) as [Hperm Hby]. rewrite <- Hperm in Hl. apply Permutation_length in Hperm as Hlen'.
  assert (forall p, p ∈ l <-> p ∈ sort l) as Hin by (intros; by rewrite Hperm).
  setoid_rewrite Hin. clear Hin Hperm. destruct (sort l) as [|cur rest]; [simpl in *; lia|].
  apply by_start_cons in Hby as [Hby Hle]. apply Forall_cons in Hl as [Hcur Hrest].
  destruct (deoverlap_loop_spec rest cur []) as (Hp & Ho & Hcov); [done|done|done|by repeat constructor|done|done|].
  split_and!; [|done|by apply disjoint_ordered_cut]. intros x. specialize (Hcov x).
  rewrite <- covers_any_cons in Hcov. unfold covers_any in Hcov.
  rewrite Exists_nil, !Exists_exists in Hcov. tauto.
Qed.

(** Removing overlaps. Whatever order [std::sort] gives to intervals with
    equivalent starts, [deoverlap] covers exactly the points of the given
    intervals, with intervals that do not wrap around, are ordered and do not
    overlap. *)
Theorem deoverlap_correct sort l :
  (forall l, sort l ≡ₚ l /\ by_start (sort l)) -> Forall (plain cmp) l ->
  let l' := deoverlap cmp sort l in
  (forall x, (exists p, p ∈ l' /\ covers cmp p x) <-> exists p, p ∈ l /\ covers cmp p x) /\
  Forall (plain cmp) l' /\ disjoint_ordered cmp l'.
Proof. apply deoverlap_spec. Qed.

(** Slices. In a sorted sequence, the range between the two binary searches of
    an interval that does not wrap around is valid and holds exactly the elements
    the interval covers. *)
Theorem slice_correct r xs : plain cmp r -> StronglySorted (fun x y => cmp x y <> Gt) xs ->
  slice_of cmp r xs = Ret (filter (covers cmp r) xs).
Proof.
  intros Hr Hxs. destruct (slice_prefix r xs Hr Hxs) as [Hle Heq]. unfold slice_of.
  rewrite upper_bound_prefix, lower_bound_prefix by apply Hr. simpl.
  rewrite (proj2 (Nat.leb_le _ _)) by done. simpl. f_equal. etrans; [exact Heq|].
  apply list_filter_iff. intros x. by rewrite covers_plain_cut.
Qed.

End theory.

(** * Examples *)

#[export] Instance Q_total : TotalOrder Qcompare.
Proof.
  split.
  - intros x. by apply Qeq_alt.
  - intros. symmetry. apply Qcompare_antisym.
  - intros x y z. rewrite <- !Qle_alt. apply Qle_trans.
Qed.

#[export] Instance Q_dense : DenseOrder Qcompare.
Proof.
  split.
  - exact (inhabits 0%Q).
  - intros x y Hxy%Qlt_alt. exists ((x + y) * (1 # 2))%Q. rewrite <- !Qlt_alt. split; lra.
  - intros x. exists (x + 1)%Q. rewrite <- Qlt_alt. lra.
  - intros x. exists (x - 1)%Q. rewrite <- Qlt_alt. lra.
Qed.

(** Completeness of the containment test fails for intervals that wrap around:
    the interval from 5 (exclusive) around to 5 (inclusive) covers every number,
    but the test denies that it contains the interval of all numbers. *)
Theorem contains_misses_everything :
  let r := make (IntervalBound 5 false) (IntervalBound 5 true) in
  (forall x, covers Z.compare r x) /\
  contains_interval Z.compare r make_open_ended_both_sides = Ret false.
Proof.
  split; [|done]. intros x. unfold covers, after_start, before_end.
  cbn -[Z.compare]. change (5 ?= 5) with Eq. cbn -[Z.compare].
  rewrite !Z.compare_lt_iff, !Z.compare_eq_iff. lia.
Qed.

(** Splitting at the inclusive end. The point is inside the interval, as
    required, but the second part, which has no point to cover, is an interval
    that wraps around and covers every number. *)
Theorem split_at_end :
  let r := make (IntervalBound 1 true) (IntervalBound 5 true) in
  exists a b, interval_split Z.compare r 5 = Ret (a, b) /\
    is_wrap_around Z.compare b = true /\ forall x, covers Z.compare b x.
Proof.
  eexists _, _. split; [done|]. split; [done|]. intros x. unfold covers, after_start, before_end.
  cbn -[Z.compare]. change (5 ?= 5) with Eq. cbn -[Z.compare].
  rewrite !Z.compare_lt_iff, !Z.compare_eq_iff. lia.
Qed.

Module IntervalExamples.

(** From 1 to 5, from 3 on, and from 4 around to 2. *)
Definition i15 : wrapping_interval Q := make (IntervalBound 1%Q true) (IntervalBound 5%Q true).
Definition i3 : wrapping_interval Q := make_starting_with (IntervalBound 3%Q false).
Definition i42 : wrapping_interval Q := make (IntervalBound 4%Q true) (IntervalBound 2%Q false).

Lemma i15_plain : plain Qcompare i15.
Proof. done. Qed.
Lemma i3_plain : plain Qcompare i3.
Proof. done. Qed.

Lemma point_tests_correct_witness : contains Qcompare i42 5%Q = Ret true /\
  exists c, contains Qcompare i42 5%Q = Ret c /\ (c = true <-> covers Qcompare i42 5%Q).
Proof. split; [reflexivity|]. refine (proj1 (point_tests_correct Qcompare i42 i15 5%Q _ _)); done. Defined.

Lemma overlaps_correct_witness : exists x, covers Qcompare i42 x /\ covers Qcompare i15 x.
Proof.
  destruct (overlaps_correct Qcompare i42 i15) as (b & Hb & _ & Hx); [done|done|].
  apply (Hx _). vm_compute in Hb. congruence.
Defined.

Lemma contains_interval_correct_witness :
  contains_interval Qcompare i42 (make_singular 4%Q) = Ret true /\
  forall x, covers Qcompare (make_singular 4%Q) x -> covers Qcompare i42 x.
Proof.
  split; [reflexivity|].
  destruct (contains_interval_correct Qcompare i42 (make_singular 4%Q)) as (b & Hb & Hx & _).
  - done.
  - intros _. split; [reflexivity|]. by eexists.
  - apply Hx. vm_compute in Hb. congruence.
Defined.

Lemma intersection_correct_witness : exists i, intersection Qcompare i15 i3 = Some i /\
  forall x, covers Qcompare i x <-> covers Qcompare i15 x /\ covers Qcompare i3 x.
Proof.
  eexists. split; [reflexivity|].
  apply (intersection_correct Qcompare i15 i3 None i15_plain i3_plain).
Defined.

Lemma subtract_correct_witness : exists l, subtract Qcompare i15 i42 = Ret l /\ length l = 1%nat /\
  forall x, (exists p, p ∈ l /\ covers Qcompare p x) <-> covers Qcompare i15 x /\ ~ covers Qcompare i42 x.
Proof.
  destruct (subtract_correct Qcompare i15 i42) as (l & Hl & Hx & _); [done|done|].
  exists l. split; [done|]. split; [|done]. vm_compute in Hl. injection Hl as <-. reflexivity.
Defined.

Lemma split_correct_witness : exists a b, split Qcompare i42 1%Q = Ret (a, b) /\ covers Qcompare a 1%Q /\
  forall x, covers Qcompare i42 x <-> covers Qcompare a x \/ covers Qcompare b x.
Proof.
  destruct (split_correct Qcompare i42 1%Q) as (a & b & Hs & Hp & Hx & _).
  - done.
  - right. left. reflexivity.
  - intros e [= <-]. done.
  - by exists a, b.
Defined.

Lemma split_after_correct_witness : exists i, interval_split_after Qcompare i15 2%Q = Some i /\
  forall x, covers Qcompare i x <-> covers Qcompare i15 x /\ Qcompare 2%Q x = Lt.
Proof.
  eexists. split; [reflexivity|]. apply (split_after_correct Qcompare i15 2%Q i15_plain).
Defined.

Definition merged : list (wrapping_interval Q) := deoverlap Qcompare (merge_sort (start_le Qcompare)) [i3; i15].

Lemma deoverlap_correct_witness : length merged = 1%nat /\
  forall x, (exists p, p ∈ merged /\ covers Qcompare p x) <-> exists p, p ∈ [i3; i15] /\ covers Qcompare p x.
Proof.
  split; [vm_compute; reflexivity|].
  refine (proj1 (deoverlap_correct Qcompare _ [i3; i15] _ _)).
  - apply (merge_sort_by_start Qcompare).
  - constructor; [apply i3_plain|]. constructor; [apply i15_plain|constructor].
Defined.

Lemma slice_correct_witness : slice_of Qcompare i15 [0; 1; 3; 6]%Q = Ret [1; 3]%Q /\
  slice_of Qcompare i15 [0; 1; 3; 6]%Q = Ret (filter (covers Qcompare i15) [0; 1; 3; 6]%Q).
Proof.
  split; [reflexivity|]. apply (slice_correct Qcompare i15 [0; 1; 3; 6]%Q i15_plain).
  repeat (constructor; [|repeat (constructor; [vm_compute; congruence|]); constructor]); constructor.
Defined.

End IntervalExamples.
