(* ===== verification/Vint.v ===== *)
(** Variable-length integers ([src/vint-serialization.cc], [src/vint-serialization.hh]):
    the encoding of 64-bit integers in one to nine bytes, where the number of leading
    one bits of the first byte is the number of bytes that follow it.

    A buffer is a list of [int8_t] bytes; [serialize] returns the bytes it writes to its
    output iterator with their number, and [deserialize] aborts where the code would
    read past the end of its view. Both of the conditional branches of [deserialize],
    the one that loads eight bytes at a time and the one that loops over bytes, are
    modelled, and proved to agree. *)
From S2P Require Import Prelude Bytes.
Open Scope Z_scope.

Definition max_vint_length : Z := 9.

(** * Bit counting *)

(** [__builtin_clzll], of a positive value of 64 bits. *)
Definition count_leading_zeros (n : Z) : Z := 63 - Z.log2 n.

Definition count_leading_zero_bits (n : Z) : Z :=
  if n =? 0 then 64 else u32 (count_leading_zeros n).

Definition encode_zigzag (n : Z) : Z :=
  Z.lxor (u64 (Z.shiftl (u64 n) 1)) (u64 (Z.shiftr n 63)).

Definition decode_zigzag (n : Z) : Z :=
  i64 (Z.lxor (Z.shiftr n 1) (u64 (- Z.land n 1))).

Definition first_byte_value_mask (extra_bytes_size : Z) : Z := Z.shiftr 255 extra_bytes_size.

Definition count_extra_bytes (first_byte : Z) : Z :=
  u32 (count_leading_zero_bits (u64 (Z.lnot first_byte)) - 56).

(** * Writing *)

(** The loop of [encode]: [buffer[extra_bytes_size - i]] for the remaining [i]. *)
Fixpoint fill_buffer (i : nat) (value : Z) (buffer : list Z) : list Z :=
  match i with
  | O => buffer
  | S i => fill_buffer i (Z.shiftr value 8) (<[i := i8 (Z.land value 255)]> buffer)
  end.

Definition encode (value size : Z) : list Z :=
  let extra_bytes_size := size - 1 in
  let buffer := fill_buffer (Z.to_nat size) value (replicate 9 0) in
  let first := i8 (Z.lor (u64 (default 0 (buffer !! 0%nat)))
                         (u64 (Z.lnot (first_byte_value_mask extra_bytes_size)))) in
  take (Z.to_nat size) (<[0%nat := first]> buffer).

Definition unsigned_serialized_size (value : Z) : Z :=
  let magnitude := count_leading_zeros (Z.lor value 1) in
  u32 (9 - u32 (Z.quot (magnitude - 1) 7)).

Definition unsigned_serialize (value : Z) : Z * list Z :=
  let size := unsigned_serialized_size value in
  if size =? 1 then (1, [i8 (Z.land value 255)])
  else (size, encode value size).

Definition signed_serialize (value : Z) : Z * list Z := unsigned_serialize (encode_zigzag value).
Definition signed_serialized_size (value : Z) : Z := unsigned_serialized_size (encode_zigzag value).

(** * Reading *)

Definition unsigned_serialized_size_from_first_byte (first_byte : Z) : Z :=
  u32 (1 + (if first_byte >=? 0 then 0 else count_extra_bytes first_byte)).
Definition signed_serialized_size_from_first_byte (first_byte : Z) : Z :=
  unsigned_serialized_size_from_first_byte first_byte.

(** [copy_n] of [n] bytes that start at the second byte of the view. *)
Definition copy_extra {E} (n : Z) (v : list Z) : outcome E (list Z) :=
  if n <=? Z.of_nat (length v) - 1 then Ret (take (Z.to_nat n) (drop 1 v)) else Abort undefined_behaviour.

(** [be_to_cpu] on a little-endian machine. *)
Definition bswap_64 (x : Z) : Z := be_load (le_bytes 8 x).

(** The branch for little-endian machines. *)
Definition load_extra_le {E} (v : list Z) (extra_bytes_size result : Z) : outcome E Z :=
  value ← (if Z.of_nat (length v) >=? 8 + 1 then le_load <$> copy_extra 8 v
           else (fun bs => le_load (bs ++ replicate (8 - length bs) 0)) <$> copy_extra extra_bytes_size v);
  let value := bswap_64 (u64 (Z.shiftl value (64 - extra_bytes_size * 8))) in
  let result := u64 (Z.shiftl result ((extra_bytes_size * 8) mod 64)) in
  Ret (Z.lor result value).

(** The branch for the others: one byte at a time. *)
Definition load_extra_be {E} (v : list Z) (extra_bytes_size result : Z) : outcome E Z :=
  (fun bs => fold_left (fun result b => Z.lor (u64 (Z.shiftl result 8)) (Z.land (u64 b) 255)) bs result)
  <$> copy_extra extra_bytes_size v.

Definition unsigned_deserialize_with {E} (load_extra : list Z -> Z -> Z -> outcome E Z) (v : list Z) : outcome E Z :=
  first_byte ← defined (v !! 0%nat);
  if first_byte >=? 0 then Ret (u64 first_byte)
  else
    let extra_bytes_size := count_extra_bytes first_byte in
    load_extra v extra_bytes_size (Z.land (u64 first_byte) (first_byte_value_mask extra_bytes_size)).

Definition unsigned_deserialize {E} : list Z -> outcome E Z := unsigned_deserialize_with load_extra_le.
Definition signed_deserialize {E} (v : list Z) : outcome E Z := decode_zigzag <$> unsigned_deserialize v.

(** * Zigzag *)

Lemma lxor_ones a k : 0 <= k -> 0 <= a < 2 ^ k -> Z.lxor a (2 ^ k - 1) = 2 ^ k - 1 - a.
Proof.
  intros Hk Ha. replace (2 ^ k - 1) with (Z.ones k) by (rewrite Z.ones_equiv; lia).
  assert (forall n, k <= n -> Z.testbit a n = false) as Hhigh.
  { intros n Hn. destruct (decide (a = 0)) as [->|]; [apply Z.bits_0|].
    apply Z.bits_above_log2; [lia|]. assert (Z.log2 a < k) by (apply Z.log2_lt_pow2; lia). lia. }
  rewrite Z.sub_nocarry_ldiff.
  - apply Z.bits_inj'. intros n Hn. rewrite Z.lxor_spec, Z.ldiff_spec.
    destruct (decide (n < k)); [rewrite Z.ones_spec_low by lia; by destruct (Z.testbit a n)|].
    rewrite Z.ones_spec_high, Hhigh by lia. done.
  - apply Z.bits_inj'. intros n Hn. rewrite Z.ldiff_spec, Z.bits_0.
    destruct (decide (n < k)); [rewrite Z.ones_spec_low by lia; by destruct (Z.testbit a n)|].
    by rewrite Hhigh by lia.
Qed.

(** Small magnitudes of either sign take small values: 0, -1, 1, -2, 2, ... *)
Lemma encode_zigzag_eq n : is_i64 n -> encode_zigzag n = if 0 <=? n then 2 * n else - 2 * n - 1.
Proof.
  unfold fits_signed, encode_zigzag. intros Hn. rewrite Z.shiftl_mul_pow2, Z.shiftr_div_pow2 by lia.
  destruct (Z.leb_spec 0 n).
  - rewrite (Z.div_small n) by lia. change (u64 0) with 0. rewrite Z.lxor_0_r.
    rewrite (to_unsigned_id 64 n), to_unsigned_id by (unfold fits_unsigned; lia). lia.
  - replace (n / 2 ^ 63) with (-1) by (apply Z.div_unique with (n + 2 ^ 63); lia).
    change (u64 (-1)) with (2 ^ 64 - 1).
    replace (u64 (u64 n * 2 ^ 1)) with (2 * n + 2 ^ 64).
    { rewrite lxor_ones; lia. }
    unfold to_unsigned. rewrite Zmult_mod_idemp_l. apply Z.mod_unique with (-1); lia.
Qed.

Lemma encode_zigzag_range n : is_i64 n -> fits_unsigned 64 (encode_zigzag n).
Proof.
  intros Hn. rewrite encode_zigzag_eq by done. unfold fits_signed, fits_unsigned in *.
  destruct (Z.leb_spec 0 n); lia.
Qed.

Lemma decode_encode_zigzag n : is_i64 n -> decode_zigzag (encode_zigzag n) = n.
Proof.
  intros Hn. rewrite encode_zigzag_eq by done. unfold fits_signed, decode_zigzag in *.
  rewrite Z.shiftr_div_pow2 by lia. change 1 with (2 ^ 1 - 1) at 4. rewrite land_mask by lia.
  destruct (Z.leb_spec 0 n).
  - rewrite (Z.mul_comm 2), Z.div_mul, Z.mod_mul by lia. change (u64 (Z.opp 0)) with 0.
    rewrite Z.lxor_0_r. apply to_signed_id; [lia|done].
  - replace ((-2 * n - 1) / 2 ^ 1) with (- n - 1) by (apply Z.div_unique with 1; lia).
    replace ((-2 * n - 1) mod 2 ^ 1) with 1 by (apply Z.mod_unique with (- n - 1); lia).
    change (u64 (Z.opp 1)) with (2 ^ 64 - 1). rewrite lxor_ones by lia.
    unfold to_signed. replace (2 ^ 64 - 1 - (- n - 1) + 2 ^ (64 - 1)) with (n + 2 ^ 63 + 1 * 2 ^ 64) by lia.
    rewrite Z.mod_add, Z.mod_small by lia. lia.
Qed.

(** * Sizes *)

Lemma log2_lor_1 v : 0 <= v -> Z.log2 (Z.lor v 1) = Z.log2 v.
Proof. intros. rewrite Z.log2_lor by lia. pose proof (Z.log2_nonneg v). simpl. lia. Qed.

(** [k] bytes are enough for the values of [7 * k] bits, and nine for all. *)
Lemma unsigned_serialized_size_le v k :
  fits_unsigned 64 v -> 1 <= k <= 8 -> unsigned_serialized_size v <= k <-> v < 2 ^ (7 * k).
Proof.
  unfold fits_unsigned. intros Hv Hk. unfold unsigned_serialized_size, count_leading_zeros.
  rewrite log2_lor_1 by lia. pose proof (Z.log2_nonneg v).
  assert (Z.log2 v < 64) by (destruct (decide (v = 0)) as [->|]; [done|apply Z.log2_lt_pow2; lia]).
  assert (v < 2 ^ (7 * k) <-> Z.log2 v < 7 * k) as ->.
  { destruct (decide (v = 0)) as [->|]; [simpl; lia|]. apply Z.log2_lt_pow2; lia. }
  set (q := Z.quot _ _). assert (0 <= q <= 8) by (unfold q; Z.to_euclidean_division_equations; lia).
  rewrite (to_unsigned_id 32 q), to_unsigned_id by (unfold fits_unsigned; lia).
  unfold q; Z.to_euclidean_division_equations; lia.
Qed.

Lemma unsigned_serialized_size_range v :
  fits_unsigned 64 v -> 1 <= unsigned_serialized_size v <= max_vint_length.
Proof.
  unfold fits_unsigned. intros Hv. unfold unsigned_serialized_size, count_leading_zeros, max_vint_length.
  rewrite log2_lor_1 by lia. pose proof (Z.log2_nonneg v).
  assert (Z.log2 v < 64) by (destruct (decide (v = 0)) as [->|]; [done|apply Z.log2_lt_pow2; lia]).
  set (q := Z.quot _ _). assert (0 <= q <= 8) by (unfold q; Z.to_euclidean_division_equations; lia).
  rewrite (to_unsigned_id 32 q), to_unsigned_id by (unfold fits_unsigned; lia).
  unfold q; Z.to_euclidean_division_equations; lia.
Qed.

(** * The bytes written *)

Lemma i8_land_255 x : i8 (Z.land x 255) = i8 x.
Proof.
  change 255 with (2 ^ 8 - 1). rewrite land_mask by lia. apply (to_signed_unsigned 8). lia.
Qed.

Lemma fill_buffer_eq n v buffer :
  (n <= length buffer)%nat -> fill_buffer n v buffer = be_bytes n v ++ drop n buffer.
Proof.
  revert v buffer. induction n as [|n IH]; intros v buffer Hn; [done|]. cbn [fill_buffer].
  rewrite IH by (rewrite length_insert; lia). rewrite be_bytes_S, <- (assoc_L (++)). f_equal.
  rewrite i8_land_255. erewrite drop_S by (apply list_lookup_insert_eq; lia).
  by rewrite drop_insert_lt by lia.
Qed.

(** The first byte of an encoding with [e] more bytes, the value's top bits [t] in it. *)
Definition marked_byte (e t : Z) : Z := t - 2 ^ (8 - e).

(** The top bits leave the bit that ends the count clear. *)
Definition top_bits (e t : Z) : Prop := 1 <= e <= 8 /\ 0 <= t /\ t < Z.max 1 (2 ^ (7 - e)).

Ltac mark_cases e :=
  let H := fresh in
  assert (e = 1 \/ e = 2 \/ e = 3 \/ e = 4 \/ e = 5 \/ e = 6 \/ e = 7 \/ e = 8) as H by lia;
  destruct H as [-> | [-> | [-> | [-> | [-> | [-> | [-> | ->]]]]]]].

Lemma first_byte_marked e t :
  top_bits e t -> i8 (Z.lor (u64 (i8 t)) (u64 (Z.lnot (first_byte_value_mask e)))) = marked_byte e t.
Proof.
  intros (He & Ht & Ht').
  assert (first_byte_value_mask e = 2 ^ (8 - e) - 1) as -> by (mark_cases e; reflexivity).
  rewrite (to_signed_id 8 t), (to_unsigned_id 64 t)
    by (unfold fits_signed, fits_unsigned; mark_cases e; simpl in *; lia).
  replace (u64 (Z.lnot (2 ^ (8 - e) - 1))) with (Z.shiftl (2 ^ (56 + e) - 1) (8 - e))
    by (mark_cases e; reflexivity).
  assert (t < 2 ^ (8 - e)) by (mark_cases e; simpl in *; lia).
  rewrite Z.lor_comm, lor_shiftl by lia. unfold marked_byte.
  replace ((2 ^ (56 + e) - 1) * 2 ^ (8 - e) + t) with (t - 2 ^ (8 - e) + 2 ^ 56 * 2 ^ 8)
    by (mark_cases e; simpl; lia).
  unfold to_signed. rewrite <- Z.add_assoc, (Z.add_comm (2 ^ 56 * 2 ^ 8)), Z.add_assoc, Z.mod_add by lia.
  fold (to_signed 8 (t - 2 ^ (8 - e))). apply to_signed_id; [lia|].
  unfold fits_signed. mark_cases e; simpl in *; lia.
Qed.

Lemma marked_byte_negative e t : top_bits e t -> marked_byte e t < 0.
Proof. intros (He & Ht & Ht'). unfold marked_byte. mark_cases e; simpl in *; lia. Qed.

Lemma marked_byte_i8 e t : top_bits e t -> is_i8 (marked_byte e t).
Proof. intros (He & Ht & Ht'). unfold marked_byte, fits_signed. mark_cases e; simpl in *; lia. Qed.

(** A negative first byte is a mark, and carries its count and its bits. *)
Lemma negative_marked b : is_i8 b -> b < 0 -> exists e t, top_bits e t /\ b = marked_byte e t.
Proof.
  unfold fits_signed, top_bits, marked_byte. intros Hb Hneg.
  set (e := 8 - Z.log2_up (- b)).
  assert (b = -1 \/ b < -1) as [->|] by lia.
  { exists 8, 0. simpl. lia. }
  assert (0 < Z.log2_up (- b) <= 7).
  { split; [by apply Z.log2_up_pos; lia|]. apply Z.log2_up_le_pow2; simpl in *; lia. }
  pose proof (Z.log2_up_spec (- b) ltac:(lia)) as [Hlo Hhi].
  exists e, (b + 2 ^ (8 - e)). subst e. replace (8 - (8 - Z.log2_up (- b))) with (Z.log2_up (- b)) by lia.
  replace (7 - (8 - Z.log2_up (- b))) with (Z.pred (Z.log2_up (- b))) by lia.
  assert (2 ^ Z.log2_up (- b) = 2 * 2 ^ Z.pred (Z.log2_up (- b)))
    by (rewrite <- Z.pow_succ_r by lia; f_equal; lia).
  lia.
Qed.

Lemma count_extra_bytes_marked e t : top_bits e t -> count_extra_bytes (marked_byte e t) = e.
Proof.
  intros (He & Ht & Ht'). unfold count_extra_bytes, marked_byte.
  replace (Z.lnot (t - 2 ^ (8 - e))) with (2 ^ (8 - e) - 1 - t) by (unfold Z.lnot; lia).
  rewrite (to_unsigned_id 64) by (unfold fits_unsigned; mark_cases e; simpl in *; lia).
  assert (count_leading_zero_bits (2 ^ (8 - e) - 1 - t) = 56 + e) as ->.
  { unfold count_leading_zero_bits, count_leading_zeros. destruct (decide (e = 8)) as [->|].
    { simpl in *. by replace (t) with 0 by lia. }
    assert (2 ^ (8 - e) = 2 * 2 ^ (7 - e)) by (rewrite <- Z.pow_succ_r by lia; f_equal; lia).
    assert (0 < 2 ^ (7 - e)) by (apply Z.pow_pos_nonneg; lia).
    rewrite (Z.log2_unique (2 ^ (8 - e) - 1 - t) (7 - e))
      by (try replace (Z.succ (7 - e)) with (8 - e) by lia; lia).
    destruct (Z.eqb_spec (2 ^ (8 - e) - 1 - t) 0); [lia|].
    rewrite to_unsigned_id by (unfold fits_unsigned; lia). lia. }
  rewrite to_unsigned_id by (unfold fits_unsigned; lia). lia.
Qed.

Lemma marked_byte_bits e t :
  top_bits e t -> Z.land (u64 (marked_byte e t)) (first_byte_value_mask e) = t.
Proof.
  intros (He & Ht & Ht').
  assert (first_byte_value_mask e = 2 ^ (8 - e) - 1) as -> by (mark_cases e; reflexivity).
  rewrite land_mask by lia. unfold to_unsigned, marked_byte.
  assert (t < 2 ^ (8 - e)) by (mark_cases e; simpl in *; lia).
  replace (2 ^ 64) with (2 ^ (8 - e) * 2 ^ (56 + e)) by (rewrite <- Z.pow_add_r by lia; f_equal; lia).
  rewrite Z.mod_mod_divide by (exists (2 ^ (56 + e)); lia).
  symmetry. apply Z.mod_unique with (-1); lia.
Qed.

(** An encoding of [e] extra bytes: the mark, then the low bytes of the value. *)
Lemma encode_eq v e :
  top_bits e (Z.shiftr v (8 * e)) ->
  encode v (e + 1) = marked_byte e (Z.shiftr v (8 * e)) :: be_bytes (Z.to_nat e) v.
Proof.
  intros Htop. pose proof Htop as [He _]. unfold encode. rewrite fill_buffer_eq by (simpl; lia).
  replace (Z.to_nat (e + 1)) with (S (Z.to_nat e)) by lia.
  rewrite be_bytes_S_cons, Z2Nat.id by lia. cbn [app lookup list_lookup default insert list_insert].
  replace (e + 1 - 1) with e by lia. simpl. rewrite first_byte_marked by done. f_equal.
  rewrite take_app_le by (rewrite length_be_bytes; lia). apply take_ge. by rewrite length_be_bytes.
Qed.

(** What [serialize] writes: one byte, or a mark and the rest. *)
Lemma unsigned_serialize_cases v :
  fits_unsigned 64 v ->
  (unsigned_serialize v = (1, [v]) /\ 0 <= v < 2 ^ 7) \/
  exists e, top_bits e (Z.shiftr v (8 * e)) /\
    unsigned_serialize v = (e + 1, marked_byte e (Z.shiftr v (8 * e)) :: be_bytes (Z.to_nat e) v).
Proof.
  intros Hv. unfold unsigned_serialize. pose proof (unsigned_serialized_size_range v Hv) as Hs.
  unfold max_vint_length in Hs. destruct (Z.eqb_spec (unsigned_serialized_size v) 1) as [H1|H1].
  - left. apply Z.eq_le_incl, unsigned_serialized_size_le in H1; [|done|lia]. unfold fits_unsigned in Hv.
    rewrite i8_land_255, to_signed_id by (unfold fits_signed; lia). split; [done|lia].
  - right. exists (unsigned_serialized_size v - 1). set (e := unsigned_serialized_size v - 1).
    assert (unsigned_serialized_size v = e + 1) as Hse by lia.
    assert (top_bits e (Z.shiftr v (8 * e))) as Htop.
    { unfold top_bits, fits_unsigned in *. rewrite Z.shiftr_div_pow2 by lia.
      pose proof (Z.pow_pos_nonneg 2 (8 * e)). split_and!; [lia..|apply Z.div_pos; lia|].
      apply Z.div_lt_upper_bound; [lia|]. destruct (decide (e = 8)) as [->|]; [simpl; lia|].
      apply Z.lt_le_trans with (2 ^ (8 * e) * 2 ^ (7 - e)); [|apply Z.mul_le_mono_nonneg_l; lia].
      rewrite <- Z.pow_add_r by lia. replace (8 * e + (7 - e)) with (7 * (e + 1)) by lia.
      apply unsigned_serialized_size_le; [done|lia..]. }
    split; [done|]. rewrite Hse. by rewrite encode_eq.
Qed.

(** * Reading back *)

(** The bytes after the first, read one at a time: a big-endian number. *)
Lemma load_bytes_eq bs r :
  0 <= r -> (r + 1) * 2 ^ (8 * Z.of_nat (length bs)) <= 2 ^ 64 ->
  fold_left (fun result b => Z.lor (u64 (Z.shiftl result 8)) (Z.land (u64 b) 255)) bs r =
  r * 2 ^ (8 * Z.of_nat (length bs)) + be_load bs.
Proof.
  revert r. induction bs as [|b bs IH]; intros r Hr Hlt; cbn [fold_left length].
  { change (be_load []) with 0. simpl. lia. }
  cbn [length] in Hlt. replace (8 * Z.of_nat (S (length bs))) with (8 + 8 * Z.of_nat (length bs)) in * by lia.
  rewrite Z.pow_add_r in * by lia. set (p := 2 ^ (8 * Z.of_nat (length bs))) in *.
  assert (0 < p) by (apply Z.pow_pos_nonneg; lia).
  change 255 with (2 ^ 8 - 1). rewrite land_mask by lia.
  replace (u64 b mod 2 ^ 8) with (u8 b).
  2:{ unfold to_unsigned. symmetry. apply Z.mod_mod_divide. exists (2 ^ 56). reflexivity. }
  pose proof (to_unsigned_fits 8 b ltac:(lia)) as Hb. unfold fits_unsigned in Hb.
  rewrite (to_unsigned_id 64 (Z.shiftl r 8)), lor_shiftl
    by (unfold fits_unsigned; rewrite ?Z.shiftl_mul_pow2 by lia; nia).
  rewrite IH by nia. rewrite be_load_cons. fold p. lia.
Qed.

(** Eight bytes loaded at once, shifted and swapped: the same number. *)
Lemma bswap_shifted bs tail :
  Forall is_i8 bs -> (length bs + length tail = 8)%nat ->
  bswap_64 (u64 (Z.shiftl (le_load (bs ++ tail)) (64 - Z.of_nat (length bs) * 8))) = be_load bs.
Proof.
  intros Hbs Hlen. set (zeros := replicate (length tail) 0).
  assert (u64 (Z.shiftl (le_load (bs ++ tail)) (64 - Z.of_nat (length bs) * 8)) = le_load (zeros ++ bs)) as ->.
  { rewrite Z.shiftl_mul_pow2, !le_load_app by lia. unfold zeros. rewrite le_load_zeros, length_replicate.
    replace (8 * Z.of_nat (length tail)) with (64 - Z.of_nat (length bs) * 8) by lia.
    rewrite Z.mul_add_distr_r, (Z.mul_comm (2 ^ _)), <- Z.mul_assoc, <- Z.pow_add_r by lia.
    replace (8 * Z.of_nat (length bs) + (64 - Z.of_nat (length bs) * 8)) with 64 by lia.
    unfold to_unsigned. rewrite Z.mod_add, Z.mod_small by
      (try lia; pose proof (le_load_range (zeros ++ bs)) as Hr; unfold zeros in Hr;
       rewrite le_load_app, le_load_zeros, length_app, length_replicate in Hr;
       replace (8 * Z.of_nat (length tail + length bs)) with 64 in Hr by lia;
       replace (8 * Z.of_nat (length tail)) with (64 - Z.of_nat (length bs) * 8) in Hr by lia; lia).
    lia. }
  unfold bswap_64. replace 8%nat with (length (zeros ++ bs)) by (unfold zeros; rewrite length_app, length_replicate; lia).
  rewrite le_bytes_load.
  - apply be_load_zeros.
  - apply Forall_app. split; [|done]. apply Forall_replicate. unfold fits_signed. lia.
Qed.

Lemma copy_extra_Ret {E} n v bs :
  0 <= n -> copy_extra (E := E) n v = Ret bs -> length bs = Z.to_nat n /\ exists b tail, v = b :: bs ++ tail.
Proof.
  unfold copy_extra. intros Hn. destruct (Z.leb_spec n (Z.of_nat (length v) - 1)); [|done]. intros [= <-].
  destruct v as [|b v]; [simpl in *; lia|]. cbn [length drop] in *. rewrite drop_0.
  split; [rewrite length_take; lia|].
  exists b, (drop (Z.to_nat n) v). by rewrite take_drop.
Qed.

Lemma copy_extra_app {E} b bs tail :
  copy_extra (E := E) (Z.of_nat (length bs)) (b :: bs ++ tail) = Ret bs.
Proof.
  unfold copy_extra. simpl length. rewrite length_app. zbool. simpl drop. rewrite drop_0, Nat2Z.id.
  by rewrite take_app_length.
Qed.

Lemma load_extra_be_eq {E} e t b bs tail :
  top_bits e t -> length bs = Z.to_nat e ->
  load_extra_be (E := E) (b :: bs ++ tail) e t = Ret (t * 2 ^ (8 * e) + be_load bs).
Proof.
  intros (He & Ht & Ht') Hlen. unfold load_extra_be. replace e with (Z.of_nat (length bs)) at 1 by lia.
  rewrite copy_extra_app. simpl. f_equal. rewrite load_bytes_eq; [by rewrite Hlen, Z2Nat.id by lia|lia|].
  rewrite Hlen, Z2Nat.id by lia. mark_cases e; simpl in *; lia.
Qed.

Lemma load_extra_le_eq {E} e t b bs tail :
  top_bits e t -> length bs = Z.to_nat e -> Forall is_i8 bs ->
  load_extra_le (E := E) (b :: bs ++ tail) e t = Ret (t * 2 ^ (8 * e) + be_load bs).
Proof.
  intros (He & Ht & Ht') Hlen Hbs. unfold load_extra_le.
  set (value := if _ >=? _ then _ else _).
  assert (exists pad, (length bs + length pad = 8)%nat /\ value = Ret (le_load (bs ++ pad))) as (pad & Hpad & ->).
  { subst value. simpl length. rewrite length_app. destruct (Z.geb_spec (Z.of_nat (S (length bs + length tail))) (8 + 1)).
    - exists (take (8 - length bs) tail). split; [rewrite length_take; lia|].
      replace (bs ++ tail) with ((bs ++ take (8 - length bs) tail) ++ drop (8 - length bs) tail)
        by (by rewrite <- (assoc_L (++)), take_drop).
      pose proof (copy_extra_app (E := E) b (bs ++ take (8 - length bs) tail) (drop (8 - length bs) tail)) as Hcopy.
      replace (Z.of_nat (length (bs ++ take (8 - length bs) tail))) with 8 in Hcopy
        by (rewrite length_app, length_take; lia).
      by rewrite Hcopy.
    - exists (replicate (8 - length bs) 0). rewrite length_replicate. split; [lia|].
      replace e with (Z.of_nat (length bs)) by lia. by rewrite copy_extra_app. }
  simpl. f_equal. replace (64 - e * 8) with (64 - Z.of_nat (length bs) * 8) by lia.
  rewrite bswap_shifted by done. pose proof (be_load_range bs) as Hr. rewrite Hlen, Z2Nat.id in Hr by lia.
  destruct (decide (e = 8)) as [->|].
  - assert (t = 0) as -> by (simpl in *; lia). done.
  - rewrite Z.mod_small, (to_unsigned_id 64), lor_shiftl
      by (unfold fits_unsigned; rewrite ?Z.shiftl_mul_pow2 by lia; mark_cases e; simpl in *; lia).
    by rewrite (Z.mul_comm e).
Qed.

(** A first byte counts the bytes of its encoding. *)
Lemma size_from_marked_byte e t :
  top_bits e t -> unsigned_serialized_size_from_first_byte (marked_byte e t) = e + 1.
Proof.
  intros Ht. unfold unsigned_serialized_size_from_first_byte.
  pose proof (marked_byte_negative e t Ht). replace (marked_byte e t >=? 0) with false by lia.
  rewrite count_extra_bytes_marked by done. destruct Ht as [He _].
  rewrite to_unsigned_id by (unfold fits_unsigned; lia). lia.
Qed.

(** Either branch on a mark, with and without the bytes it announces. *)
Lemma deserialize_with_marked {E} load e t bs :
  top_bits e t ->
  unsigned_deserialize_with (E := E) load (marked_byte e t :: bs) = load (marked_byte e t :: bs) e t.
Proof.
  intros Ht. unfold unsigned_deserialize_with. simpl. pose proof (marked_byte_negative e t Ht).
  replace (marked_byte e t >=? 0) with false by lia.
  by rewrite count_extra_bytes_marked, marked_byte_bits.
Qed.

Lemma deserialize_marked {E} e t bs tail :
  top_bits e t -> length bs = Z.to_nat e -> Forall is_i8 bs ->
  unsigned_deserialize (E := E) (marked_byte e t :: bs ++ tail) = Ret (t * 2 ^ (8 * e) + be_load bs).
Proof. intros. unfold unsigned_deserialize. rewrite deserialize_with_marked by done. by apply load_extra_le_eq. Qed.

(** The two conditional branches of [unsigned_vint::deserialize], the loop over bytes and the
    one that loads eight bytes at once (past the end of the number if the buffer is long enough)
    and shifts and swaps them, return the same on every buffer; both succeed exactly when the
    buffer holds as many bytes as its first byte says. *)
Theorem deserialize_branches_agree {E} (v : list Z) :
  Forall is_i8 v ->
  unsigned_deserialize (E := E) v = unsigned_deserialize_with load_extra_be v /\
  match v with
  | [] => unsigned_deserialize (E := E) v = Abort undefined_behaviour
  | b :: _ =>
    if unsigned_serialized_size_from_first_byte b <=? Z.of_nat (length v)
    then exists x, unsigned_deserialize (E := E) v = Ret x /\ fits_unsigned 64 x
    else unsigned_deserialize (E := E) v = Abort undefined_behaviour
  end.
Proof.
  intros Hv. destruct v as [|b v]; [done|]. apply Forall_cons in Hv as [Hb Hv].
  destruct (decide (0 <= b)) as [Hpos|Hneg].
  - unfold unsigned_deserialize, unsigned_deserialize_with, unsigned_serialized_size_from_first_byte.
    simpl. replace (b >=? 0) with true by lia. split; [done|]. rewrite to_unsigned_id by (unfold fits_unsigned; lia).
    zbool. eexists. split; [done|]. auto with machine.
  - destruct (negative_marked b) as (e & t & Ht & ->); [done|lia|].
    rewrite size_from_marked_byte by done. unfold unsigned_deserialize.
    rewrite !deserialize_with_marked by done. pose proof Ht as (He & Ht0 & Htlt). cbn [length].
    destruct (Z.leb_spec (e + 1) (Z.of_nat (S (length v)))).
    + rewrite <- (take_drop (Z.to_nat e) v) in Hv |- *. apply Forall_app in Hv as [Hbs _].
      assert (length (take (Z.to_nat e) v) = Z.to_nat e) as Hlen by (rewrite length_take; lia).
      rewrite load_extra_le_eq, load_extra_be_eq by done. split; [done|]. eexists. split; [done|].
      pose proof (be_load_range (take (Z.to_nat e) v)) as Hr. rewrite Hlen, Z2Nat.id in Hr by lia.
      unfold fits_unsigned. mark_cases e; simpl in *; lia.
    + unfold load_extra_le, load_extra_be, copy_extra. cbn [length].
      destruct (Z.geb_spec (Z.of_nat (S (length v))) (8 + 1)); [lia|]. by zbool.
Qed.

Lemma deserialize_branches_agree_witness :
  unsigned_deserialize (E := unit) [-64; 1; 2; 3] = unsigned_deserialize_with load_extra_be [-64; 1; 2; 3] /\
  unsigned_deserialize (E := unit) [-64; 1; 2; 3] = Ret 258 /\
  unsigned_deserialize (E := unit) [-64; 1] = Abort undefined_behaviour.
Proof.
  split; [|split; [reflexivity|]].
  - apply deserialize_branches_agree. repeat constructor; unfold fits_signed; lia.
  - apply (deserialize_branches_agree (E := unit) [-64; 1]). repeat constructor; unfold fits_signed; lia.
Defined.

Lemma unsigned_deserialize_serialize {E} value rest :
  fits_unsigned 64 value -> unsigned_deserialize (E := E) (snd (unsigned_serialize value) ++ rest) = Ret value.
Proof.
  intros Hv. destruct (unsigned_serialize_cases value Hv) as [[-> Hsmall]|(e & Ht & ->)]; simpl.
  - unfold unsigned_deserialize, unsigned_deserialize_with. simpl. replace (value >=? 0) with true by lia.
    by rewrite to_unsigned_id.
  - pose proof Ht as [He _]. rewrite deserialize_marked by (try apply be_bytes_i8; rewrite ?length_be_bytes; done).
    rewrite be_load_bytes, Z2Nat.id, Z.shiftr_div_pow2 by lia. unfold to_unsigned. f_equal.
    rewrite (Z.mul_comm (_ / _)). symmetry. apply Z_div_mod_eq_full.
Qed.

(** C34: Reading an encoded integer back gives it, for every 64-bit value, signed or unsigned,
    and whatever bytes follow it in the buffer: with at least eight of them the reader takes
    the branch that reads past the end of the number. *)
Theorem vint_roundtrip {E} (value : Z) (rest : list Z) :
  (fits_unsigned 64 value ->
   unsigned_deserialize (E := E) (snd (unsigned_serialize value) ++ rest) = Ret value) /\
  (is_i64 value ->
   signed_deserialize (E := E) (snd (signed_serialize value) ++ rest) = Ret value).
Proof.
  split; [apply unsigned_deserialize_serialize|]. intros Hv. unfold signed_deserialize, signed_serialize.
  rewrite unsigned_deserialize_serialize by (by apply encode_zigzag_range).
  simpl. by rewrite decode_encode_zigzag.
Qed.

Lemma vint_roundtrip_witness :
  unsigned_deserialize (E := unit) (snd (unsigned_serialize (2 ^ 64 - 1)) ++ []) = Ret (2 ^ 64 - 1) /\
  signed_deserialize (E := unit) (snd (signed_serialize (- 2 ^ 63)) ++ [7]) = Ret (- 2 ^ 63).
Proof.
  split.
  - apply vint_roundtrip. unfold fits_unsigned. lia.
  - apply vint_roundtrip. unfold fits_signed. lia.
Defined.

(** The size of an encoding: the writer returns and writes as many bytes as
    [serialized_size] says, from one to nine; the first of them tells a reader how many there are;
    and there are as few as the format allows, [k] bytes holding [7 * k] bits for [k] up to eight. *)
Theorem vint_size (value : Z) :
  fits_unsigned 64 value ->
  let '(size, bytes) := unsigned_serialize value in
  size = unsigned_serialized_size value /\ 1 <= size <= max_vint_length /\
  Z.of_nat (length bytes) = size /\ Forall is_i8 bytes /\
  (exists b, bytes !! 0%nat = Some b /\ unsigned_serialized_size_from_first_byte b = size) /\
  (forall k, 1 <= k <= 8 -> size <= k <-> value < 2 ^ (7 * k)).
Proof.
  intros Hv. pose proof (unsigned_serialized_size_range value Hv) as Hrange.
  assert (fst (unsigned_serialize value) = unsigned_serialized_size value) as Hfst.
  { unfold unsigned_serialize. by destruct (Z.eqb_spec (unsigned_serialized_size value) 1). }
  destruct (unsigned_serialize_cases value Hv) as [[Heq Hsmall]|(e & Ht & Heq)];
    rewrite Heq in *; simpl in Hfst; rewrite <- Hfst in *.
  - split_and!; [done|lia..|done| |exists value|by intros; rewrite <- unsigned_serialized_size_le, <- Hfst].
    + repeat constructor; unfold fits_signed; lia.
    + split; [done|]. unfold unsigned_serialized_size_from_first_byte.
      by replace (value >=? 0) with true by lia.
  - pose proof Ht as [He _]. split_and!; [done|lia..| | |eexists|by intros; rewrite <- unsigned_serialized_size_le, <- Hfst].
    + cbn [length]. rewrite length_be_bytes. lia.
    + constructor; [by apply marked_byte_i8|apply be_bytes_i8].
    + split; [done|]. by apply size_from_marked_byte.
Qed.

Lemma vint_size_witness :
  unsigned_serialize 300 = (2, [-127; 44]) /\ unsigned_serialized_size 300 = 2 /\ ~ 300 < 2 ^ (7 * 1).
Proof.
  pose proof (vint_size 300 ltac:(unfold fits_unsigned; lia)) as H.
  replace (unsigned_serialize 300) with (2, [-127; 44]) in * by reflexivity.
  destruct H as (Hsize & _ & _ & _ & _ & Hk). split_and!; [done..|]. rewrite <- (Hk 1) by lia. lia.
Defined.
