(* ===== verification/Tokens.v ===== *)
(** Tokens and their division into shards and groups ([src/dht/token.hh],
    [src/dht/token.cc], [src/dht/token-sharding.hh] and, of [src/dht/i_partitioner.cc], the sharder).

    A token is a signed 64-bit integer or one of the two ends of the ring. A node's
    shards divide the tokens: the [sharding_ignore_msb_bits] most significant bits
    cut the ring into as many spans, and each span is divided evenly among the shards
    in turn. Integers are kept at their width: [uint64_t] arithmetic wraps. A shift of
    a [uint64_t] by 64 or more, and one of an [unsigned] by 32 or more, is undefined in
    C++; the theorems assume a number of ignored bits for which no shift is
    ([config_ok]). The search for the start of a shard has fuel, and two steps are
    proved to be enough. *)
From S2P Require Import Prelude Bytes Ordering.
Open Scope Z_scope.

Definition int64_min : Z := - 2 ^ 63.
Definition int64_max : Z := 2 ^ 63 - 1.

(** * Tokens *)

Inductive token_kind := before_all_keys | key | after_all_keys.
#[export] Instance token_kind_eq_dec : EqDecision token_kind.
Proof. solve_decision. Defined.

Definition token_kind_rank (k : token_kind) : Z :=
  match k with before_all_keys => 0 | key => 1 | after_all_keys => 2 end.

Record token := Token {
  _kind : token_kind;
  _data : Z;
}.
#[export] Instance token_eq_dec : EqDecision token.
Proof. solve_decision. Defined.

Definition normalize (t : Z) : Z := if t =? int64_min then int64_max else t.

(** The default constructor and the one from an integer. *)
Definition token_default : token := Token before_all_keys 0.
Definition token_of (d : Z) : token := Token key (normalize d).

Definition token_compare (t o : token) : comparison :=
  if token_kind_rank (_kind t) <? token_kind_rank (_kind o) then Lt
  else if token_kind_rank (_kind t) >? token_kind_rank (_kind o) then Gt
  else if bool_decide (_kind t = key) then (_data t ?= _data o)
  else Eq.
Definition token_lt (t o : token) : bool := bool_decide (token_compare t o = Lt).
(** [std::min]. *)
Definition token_min (t o : token) : token := if token_lt o t then o else t.

Definition minimum_token : token := Token before_all_keys int64_min.
Definition maximum_token : token := Token after_all_keys int64_min.
Definition first_token : token := Token key (int64_min + 1).
Definition last_token : token := Token key int64_max.
Definition is_minimum (t : token) : bool := bool_decide (_kind t = before_all_keys).
Definition is_maximum (t : token) : bool := bool_decide (_kind t = after_all_keys).
Definition is_last (t : token) : bool := bool_decide (_kind t = key) && (_data t =? int64_max).

(** [x + 1] of an [int64_t], undefined when it overflows. *)
Definition int64_succ {E} (x : Z) : outcome E Z :=
  if x =? int64_max then Abort undefined_behaviour else Ret (x + 1).

Definition next_token {E} (t : token) : outcome E token := Token key <$> int64_succ (_data t).

Definition to_int64 (t : token) : Z := _data t.
Definition from_int64 (i : Z) : token := Token key i.

(** [data()] and [from_bytes()]: eight bytes, most significant first. *)
Definition token_data (t : token) : list Z := be_bytes 8 (_data t).
Definition from_bytes (bytes : list Z) : outcome string token :=
  if negb (Z.of_nat (length bytes) =? 8) then Throw "Invalid token"%string
  else
    let tok := i64 (be_load bytes) in
    if tok =? int64_min then Ret minimum_token else Ret (Token key tok).

Definition unbias (t : token) : Z := u64 (u64 (_data t) + u64 int64_min).
Definition bias (n : Z) : token := Token key (i64 (u64 (n - u64 int64_min))).

Definition midpoint (t1 t2 : token) : token :=
  let l1 := u64 (_data t1) in
  let l2 := u64 (_data t2) in
  Token key (i64 (u64 (l1 + u64 (l2 - l1) / 2))).

(** * Shards *)

Definition zero_based_shard_of (token shards sharding_ignore_msb_bits : Z) : Z :=
  let token := u64 (Z.shiftl token sharding_ignore_msb_bits) in
  u32 (Z.shiftr (token * shards) 64).

(** [while (zero_based_shard_of(token, ...) != s) ++token;] *)
Fixpoint find_shard_start (fuel : nat) (token shards sharding_ignore_msb_bits s : Z) : outcome Empty_set Z :=
  if zero_based_shard_of token shards sharding_ignore_msb_bits =? s then Ret token
  else match fuel with
    | O => Abort out_of_fuel
    | S fuel => find_shard_start fuel (u64 (token + 1)) shards sharding_ignore_msb_bits s
    end.

Definition shard_start_estimate (shards sharding_ignore_msb_bits s : Z) : Z :=
  Z.shiftr (u64 (Z.shiftl s 64 / shards)) sharding_ignore_msb_bits.

Definition search_fuel : nat := 2.

Definition init_zero_based_shard_start (shards sharding_ignore_msb_bits : Z) : outcome Empty_set (list Z) :=
  if shards =? 1 then Ret [0]
  else
    foldr (fun s ret =>
      token ← find_shard_start search_fuel (shard_start_estimate shards sharding_ignore_msb_bits s)
        shards sharding_ignore_msb_bits s;
      ret ← ret;
      Ret (token :: ret)) (Ret []) (seqZ 0 shards).

Definition shard_of_minimum_token : Z := 0.

Definition shard_of (shard_count sharding_ignore_msb_bits : Z) (t : token) : Z :=
  match _kind t with
  | before_all_keys => shard_of_minimum_token
  | after_all_keys => u32 (shard_count - 1)
  | key => zero_based_shard_of (unbias t) shard_count sharding_ignore_msb_bits
  end.

(** [shard_start[shard]] is undefined past the end of the vector. *)
Definition token_for_next_shard {E} (shard_start : list Z) (shard_count sharding_ignore_msb_bits : Z)
    (t : token) (shard spans : Z) : outcome E token :=
  let from n :=
    let s := zero_based_shard_of n shard_count sharding_ignore_msb_bits in
    if sharding_ignore_msb_bits =? 0 then
      n ← defined (at_z shard_start shard);
      if (spans >? 1) || (shard <=? s) then Ret maximum_token else Ret (bias n)
    else
      let left_part := Z.shiftr n (64 - sharding_ignore_msb_bits) in
      let left_part := u64 (left_part + u32 (spans - (if shard >? s then 1 else 0))) in
      if left_part >=? u32 (Z.shiftl 1 sharding_ignore_msb_bits) then Ret maximum_token
      else
        let left_part := u64 (Z.shiftl left_part (64 - sharding_ignore_msb_bits)) in
        right_part ← defined (at_z shard_start shard);
        Ret (bias (Z.lor left_part right_part)) in
  match _kind t with
  | before_all_keys => from 0
  | after_all_keys => Ret maximum_token
  | key => from (unbias t)
  end.

(** Class [static_sharder]. *)
Record static_sharder := StaticSharder {
  _shard_count : Z;
  _sharding_ignore_msb_bits : Z;
  _shard_start : list Z;
}.

Definition make_static_sharder (shard_count sharding_ignore_msb_bits : Z) : outcome Empty_set static_sharder :=
  let msb := if shard_count >? 1 then sharding_ignore_msb_bits else 0 in
  starts ← init_zero_based_shard_start shard_count msb;
  Ret (StaticSharder shard_count msb starts).

Section sharder.
Context (sh : static_sharder).

Definition sharder_shard_of (t : token) : Z := shard_of (_shard_count sh) (_sharding_ignore_msb_bits sh) t.

Definition sharder_token_for_next_shard {E} (t : token) (shard spans : Z) : outcome E token :=
  token_for_next_shard (_shard_start sh) (_shard_count sh) (_sharding_ignore_msb_bits sh) t shard spans.

Definition shard_for_writes (t : token) : list Z := [sharder_shard_of t].

Definition next_shard {E} (t : token) : outcome E (option (Z * token)) :=
  let shard := sharder_shard_of t in
  let next_shard := if u32 (shard + 1) =? _shard_count sh then 0 else u32 (shard + 1) in
  next_token ← sharder_token_for_next_shard t next_shard 1;
  Ret (if is_maximum next_token then None else Some (next_shard, next_token)).

Definition find_first_token_for_shard_in_not_wrap_around_range {E} (start end_ : token) (shard_idx : Z) : outcome E token :=
  i ← int64_succ (to_int64 start);
  let t := from_int64 i in
  t ← (if negb (sharder_shard_of t =? shard_idx) then sharder_token_for_next_shard t shard_idx 1 else Ret t);
  Ret (token_min t end_).

Definition find_first_token_for_shard {E} (start end_ : token) (shard_idx : Z) : outcome E token :=
  if token_lt start end_ then find_first_token_for_shard_in_not_wrap_around_range start end_ shard_idx
  else
    found ← (if negb (to_int64 start =? int64_max) then
        t ← find_first_token_for_shard_in_not_wrap_around_range start maximum_token shard_idx;
        Ret (if is_maximum t then None else Some t)
      else Ret None);
    match found with
    | Some t => Ret t
    | None => find_first_token_for_shard_in_not_wrap_around_range minimum_token end_ shard_idx
    end.

End sharder.

(** * Groups *)

Definition compaction_group_of (most_significant_bits : Z) (t : token) : Z :=
  if most_significant_bits =? 0 then 0
  else match _kind t with
    | before_all_keys => 0
    | after_all_keys => u64 (i32 (Z.shiftl 1 most_significant_bits) - 1)
    | key => Z.shiftr (unbias t) (64 - most_significant_bits)
    end.

Definition last_token_of_compaction_group (most_significant_bits group : Z) : token :=
  bias (if group =? u64 (Z.shiftl 1 most_significant_bits) - 1 then 2 ^ 64 - 1
        else u64 (u64 (Z.shiftl (group + 1) (64 - most_significant_bits)) - 1)).

(** * The order of tokens *)

Lemma token_compare_lex t o :
  token_compare t o =
    then_compare (token_kind_rank (_kind t) ?= token_kind_rank (_kind o))
      ((if decide (_kind t = key) then _data t else 0) ?= (if decide (_kind o = key) then _data o else 0)).
Proof. unfold token_compare, token_kind_rank. by destruct t as [[] ?], o as [[] ?]. Qed.

#[export] Instance token_compare_total : TotalOrder token_compare.
Proof.
  pose proof (lex_total Z.compare Z.compare (fun t => token_kind_rank (_kind t))
    (fun t => if decide (_kind t = key) then _data t else 0)) as [Hrefl Hsym Htrans].
  split; intros *; rewrite !token_compare_lex; [apply Hrefl|apply Hsym|apply Htrans].
Qed.

Definition valid_token (t : token) : Prop := is_i64 (_data t).

(** The place of a token on the line of unsigned integers. *)
Definition token_pos (t : token) : Z := _data t + 2 ^ 63.

Lemma token_pos_range t : valid_token t -> 0 <= token_pos t < 2 ^ 64.
Proof. unfold valid_token, fits_signed, token_pos. lia. Qed.

Lemma unbias_eq t : valid_token t -> unbias t = token_pos t.
Proof.
  unfold valid_token, fits_signed, unbias, token_pos. intros Ht.
  change (u64 int64_min) with (2 ^ 63). unfold to_unsigned. rewrite Zplus_mod_idemp_l. apply Z.mod_small. lia.
Qed.

Lemma bias_eq n : 0 <= n < 2 ^ 64 -> bias n = Token key (n - 2 ^ 63).
Proof.
  intros Hn. unfold bias. change (u64 int64_min) with (2 ^ 63). f_equal.
  rewrite to_signed_unsigned by lia. apply to_signed_id; [lia|]. unfold fits_signed. lia.
Qed.

Lemma bias_valid n : 0 <= n < 2 ^ 64 -> valid_token (bias n) /\ token_pos (bias n) = n.
Proof. intros Hn. rewrite bias_eq by done. unfold valid_token, token_pos, fits_signed. simpl. lia. Qed.

Lemma compare_keys t o : _kind t = key -> _kind o = key -> token_compare t o = (token_pos t ?= token_pos o).
Proof.
  intros Ht Ho. unfold token_compare. rewrite Ht, Ho. simpl. unfold token_pos.
  zcompare; try done; lia.
Qed.

(** * Shards as quotients *)

(** The sizes for which the code is defined. *)
Definition config_ok (shards msb : Z) : Prop := 1 <= shards < 2 ^ 32 /\ 0 <= msb < 32.

Section shards.
Context (shards msb : Z) (Hok : config_ok shards msb).

(** The number of tokens in one pass over the shards. *)
Definition span : Z := 2 ^ (64 - msb).

(** The first token of a shard in the first pass. *)
Definition first_of (s : Z) : Z := (s * span + shards - 1) / shards.

Lemma span_pow : span * 2 ^ msb = 2 ^ 64.
Proof using Hok. destruct Hok as [_ ?]. unfold span. rewrite <- Z.pow_add_r by lia. f_equal. lia. Qed.

Lemma span_big : shards < span.
Proof using Hok.
  destruct Hok as [? ?]. unfold span. apply Z.lt_le_trans with (2 ^ 32); [lia|].
  apply Z.pow_le_mono_r; lia.
Qed.

Lemma shard_of_pos n : 0 <= n -> zero_based_shard_of n shards msb = (n mod span * shards) / span.
Proof using Hok.
  intros Hn. pose proof Hok as [Hs Hm]. pose proof span_big. pose proof span_pow as Hpow.
  assert (0 < 2 ^ msb) by (apply Z.pow_pos_nonneg; lia).
  unfold zero_based_shard_of. rewrite Z.shiftl_mul_pow2, Z.shiftr_div_pow2 by lia.
  unfold to_unsigned at 2. rewrite <- Hpow, Z.mul_mod_distr_r by lia.
  replace (n mod span * 2 ^ msb * shards) with (n mod span * shards * 2 ^ msb) by lia.
  rewrite Z.div_mul_cancel_r by lia. apply to_unsigned_id.
  pose proof (Z.mod_pos_bound n span ltac:(lia)).
  split; [apply Z.div_pos; nia|]. apply Z.div_lt_upper_bound; nia.
Qed.

Lemma shard_range n : 0 <= n -> 0 <= zero_based_shard_of n shards msb < shards.
Proof using Hok.
  intros Hn. rewrite shard_of_pos by done. pose proof Hok as [Hs Hm]. pose proof span_big.
  pose proof (Z.mod_pos_bound n span ltac:(lia)).
  split; [apply Z.div_pos; nia|]. apply Z.div_lt_upper_bound; nia.
Qed.

Lemma first_of_le s r : first_of s <= r <-> s * span <= r * shards.
Proof using Hok.
  destruct Hok as [Hs _]. unfold first_of. split; intros H.
  - pose proof (Z.mul_succ_div_gt (s * span + shards - 1) shards ltac:(lia)). nia.
  - apply Z.lt_succ_r, Z.div_lt_upper_bound; nia.
Qed.

Lemma first_of_mono s s' : s <= s' -> first_of s <= first_of s'.
Proof using Hok. intros. apply first_of_le. pose proof (proj1 (first_of_le s' (first_of s')) (Z.le_refl _)). pose proof span_big. destruct Hok. nia. Qed.

Lemma first_of_0 : first_of 0 = 0.
Proof using Hok. destruct Hok as [Hs _]. unfold first_of. apply Z.div_small. lia. Qed.

Lemma first_of_range s : 0 <= s < shards -> 0 <= first_of s < span.
Proof using Hok.
  intros Hs. pose proof Hok as [Hsh _]. pose proof span_big. split.
  - rewrite <- first_of_0. apply first_of_mono. lia.
  - assert (first_of s <= span - 1); [|lia]. apply first_of_le. nia.
Qed.

(** The shard of a position in a pass is decided by the first positions. *)
Lemma shard_ge n s : 0 <= n -> s <= zero_based_shard_of n shards msb <-> first_of s <= n mod span.
Proof using Hok.
  intros Hn. rewrite shard_of_pos by done. rewrite first_of_le. pose proof span_big. destruct Hok as [Hs _].
  split; intros H'.
  - pose proof (Z.mul_div_le (n mod span * shards) span ltac:(lia)). nia.
  - apply Z.div_le_lower_bound; lia.
Qed.

Lemma shard_lt n s : 0 <= n -> zero_based_shard_of n shards msb < s <-> n mod span < first_of s.
Proof using Hok. intros Hn. pose proof (shard_ge n s Hn). lia. Qed.

Lemma first_of_lt s : 0 <= s < shards -> first_of s < first_of (s + 1).
Proof using Hok.
  intros Hs. pose proof span_big. destruct Hok as [Hsh _].
  assert (~ first_of (s + 1) <= first_of s); [|lia]. rewrite first_of_le. unfold first_of.
  pose proof (Z.mul_div_le (s * span + shards - 1) shards ltac:(lia)). nia.
Qed.

Lemma shard_of_first s : 0 <= s < shards -> zero_based_shard_of (first_of s) shards msb = s.
Proof using Hok.
  intros Hs. pose proof (first_of_range s Hs). pose proof (first_of_lt s Hs).
  assert (first_of s mod span = first_of s) as Hmod by (apply Z.mod_small; lia).
  pose proof (shard_ge (first_of s) s ltac:(lia)). pose proof (shard_lt (first_of s) (s + 1) ltac:(lia)). lia.
Qed.

Lemma find_shard_start_eq s :
  0 <= s < shards -> find_shard_start search_fuel (shard_start_estimate shards msb s) shards msb s = Ret (first_of s).
Proof using Hok.
  intros Hs. pose proof Hok as [Hsh Hm]. pose proof span_big. pose proof (first_of_range s Hs) as Hr.
  assert (0 < 2 ^ msb) by (apply Z.pow_pos_nonneg; lia).
  assert (shard_start_estimate shards msb s = s * span / shards) as ->.
  { unfold shard_start_estimate. rewrite Z.shiftl_mul_pow2, Z.shiftr_div_pow2 by lia.
    rewrite to_unsigned_id. 2:{ split; [apply Z.div_pos; lia|apply Z.div_lt_upper_bound; nia]. }
    rewrite Z.div_div by lia. rewrite <- span_pow.
    replace (s * (span * 2 ^ msb)) with (s * span * 2 ^ msb) by lia. apply Z.div_mul_cancel_r; lia. }
  set (f := s * span / shards). pose proof (Z.mul_div_le (s * span) shards ltac:(lia)).
  pose proof (Z.mul_succ_div_gt (s * span) shards ltac:(lia)). fold f in H1, H2.
  assert (0 <= f) by (apply Z.div_pos; nia).
  assert (f <= first_of s <= f + 1) as Hf.
  { split; [|apply first_of_le; nia]. pose proof (proj1 (first_of_le s (first_of s)) (Z.le_refl _)). nia. }
  assert (f mod span = f) as Hmod by (apply Z.mod_small; lia).
  pose proof (shard_ge f s ltac:(lia)) as Hge. rewrite Hmod in Hge.
  unfold search_fuel. cbn [find_shard_start]. destruct (Z.eqb_spec (zero_based_shard_of f shards msb) s) as [Heq|Hne].
  { f_equal. lia. }
  assert (f + 1 = first_of s) as Hf1.
  { destruct (decide (f = first_of s)) as [Heq|]; [|lia]. exfalso. apply Hne. rewrite Heq. by apply shard_of_first. }
  rewrite (to_unsigned_id 64), Hf1, shard_of_first by (try split; try lia; rewrite <- span_pow; nia).
  by rewrite Z.eqb_refl.
Qed.

Lemma init_zero_based_shard_start_eq :
  init_zero_based_shard_start shards msb = Ret (first_of <$> seqZ 0 shards).
Proof using Hok.
  pose proof Hok as [Hsh _]. unfold init_zero_based_shard_start. destruct (Z.eqb_spec shards 1) as [H1|H1].
  { replace (seqZ 0 shards) with [0] by (by rewrite H1).
    change (first_of <$> [0]) with [first_of 0]. by rewrite first_of_0. }
  assert (forall s, s ∈ seqZ 0 shards -> 0 <= s < shards) as Hin by (intros s; rewrite elem_of_seqZ; lia).
  revert Hin. generalize (seqZ 0 shards) as l. induction l as [|s l IH]; intros Hin; [done|].
  cbn [foldr]. rewrite find_shard_start_eq, IH by (intros; apply Hin; by constructor). done.
Qed.

Lemma first_of_lookup s : 0 <= s < shards -> at_z (first_of <$> seqZ 0 shards) s = Some (first_of s).
Proof using Hok.
  intros Hs. apply at_z_Some. split; [lia|]. rewrite list_lookup_fmap, lookup_seqZ_lt by lia. simpl. f_equal. f_equal. lia.
Qed.

(** ** The next shard *)

(** The position a search for a later token starts from. *)
Definition search_pos (t : token) : Z := match _kind t with key => token_pos t | _ => 0 end.

Lemma search_pos_range t : valid_token t -> 0 <= search_pos t < 2 ^ 64.
Proof. intros Ht. pose proof (token_pos_range t Ht). unfold search_pos. destruct (_kind t); lia. Qed.

Lemma token_for_next_shard_eq {E} t shard spans :
  valid_token t -> _kind t <> after_all_keys -> 0 <= shard < shards -> 1 <= spans < 2 ^ 32 ->
  let n := search_pos t in
  let pass := n / span + spans - (if shard >? zero_based_shard_of n shards msb then 1 else 0) in
  token_for_next_shard (E := E) (first_of <$> seqZ 0 shards) shards msb t shard spans =
  Ret (if pass >=? 2 ^ msb then maximum_token else bias (pass * span + first_of shard)).
Proof using Hok.
  intros Ht Hkind Hshard Hspans n. pose proof (search_pos_range t Ht) as Hn. fold n in Hn.
  pose proof Hok as [Hsh Hm]. pose proof span_big. pose proof span_pow as Hpow.
  assert (0 < 2 ^ msb) by (apply Z.pow_pos_nonneg; lia).
  assert (0 <= n / span < 2 ^ msb) as Hpass by (split; [apply Z.div_pos|apply Z.div_lt_upper_bound]; lia).
  pose proof (first_of_range shard Hshard) as Hfirst.
  set (s := zero_based_shard_of n shards msb).
  set (later := if shard >? s then 1 else 0). assert (0 <= later <= 1) by (unfold later; destruct (shard >? s); lia).
  intros pass.
  assert (token_for_next_shard (E := E) (first_of <$> seqZ 0 shards) shards msb t shard spans =
    if msb =? 0 then
      if (spans >? 1) || (shard <=? s) then Ret maximum_token else Ret (bias (first_of shard))
    else
      let left_part := u64 (Z.shiftr n (64 - msb) + u32 (spans - later)) in
      if left_part >=? u32 (Z.shiftl 1 msb) then Ret maximum_token
      else Ret (bias (Z.lor (u64 (Z.shiftl left_part (64 - msb))) (first_of shard)))) as ->.
  { unfold token_for_next_shard. rewrite first_of_lookup by done. unfold later, s, n, search_pos.
    destruct (_kind t) eqn:Hk; try done; rewrite ?unbias_eq by done; by destruct (msb =? 0). }
  destruct (Z.eqb_spec msb 0) as [Hm0|Hm0].
  - subst pass. rewrite Hm0 in *. change (2 ^ 0) with 1 in *. replace (n / span) with 0 in * by lia.
    unfold later in *. destruct (Z.gtb_spec spans 1), (Z.leb_spec shard s), (Z.gtb_spec shard s); simpl; try lia;
      repeat (zbool; simpl); try done; try lia. by replace (0 + spans - 1) with 0 by lia.
  - rewrite Z.shiftr_div_pow2, Z.shiftl_mul_pow2 by lia. fold span.
    assert (2 ^ msb <= 2 ^ 31) by (apply Z.pow_le_mono_r; lia).
    rewrite (to_unsigned_id 32 (spans - later)), (to_unsigned_id 32 (1 * 2 ^ msb)),
      (to_unsigned_id 64 (n / span + (spans - later))) by (unfold fits_unsigned; lia).
    replace (n / span + (spans - later)) with pass by (unfold pass; lia). cbv zeta. rewrite Z.mul_1_l.
    destruct (Z.geb_spec pass (2 ^ msb)); [done|]. do 2 f_equal.
    assert (0 <= pass) by (unfold pass; lia).
    rewrite to_unsigned_id, lor_shiftl by (rewrite ?Z.shiftl_mul_pow2 by lia; unfold fits_unsigned; fold span; nia || lia).
    done.
Qed.

(** A shard begins where the position in the pass is its first one. *)
Lemma shard_begins b s :
  2 <= shards -> 0 < b ->
  zero_based_shard_of b shards msb = s /\ zero_based_shard_of (b - 1) shards msb <> s <->
  0 <= s < shards /\ b mod span = first_of s.
Proof using Hok.
  intros H2 Hb. pose proof span_big as Hbig.
  pose proof (Z.mod_pos_bound b span ltac:(lia)) as Hr.
  pose proof (shard_range b ltac:(lia)) as Hsb. pose proof (shard_range (b - 1) ltac:(lia)) as Hsp.
  assert (b mod span = 0 /\ (b - 1) mod span = span - 1 \/
          0 < b mod span /\ (b - 1) mod span = b mod span - 1) as Hprev.
  { destruct (decide (b mod span = 0)) as [H0|H0]; [left|right]; (split; [lia|]); symmetry.
    - apply Z.mod_unique with (b / span - 1); [lia|]. pose proof (Z.div_mod b span). lia.
    - apply Z.mod_unique with (b / span); [lia|]. pose proof (Z.div_mod b span). lia. }
  pose proof (fun s => shard_ge b s ltac:(lia)) as Hge. pose proof (fun s => shard_ge (b - 1) s ltac:(lia)) as Hge'.
  split.
  - intros [Hs Hne]. assert (0 <= s < shards) as Hss by lia. split; [done|].
    pose proof (proj1 (Hge s)). destruct (decide (b mod span = first_of s)) as [|Hgt]; [done|].
    pose proof (first_of_range s Hss). destruct Hprev as [[? _]|[? Hp]]; [lia|].
    pose proof (proj2 (Hge' s)). pose proof (proj1 (Hge' (s + 1))). pose proof (proj2 (Hge (s + 1))). lia.
  - intros [Hss Hs]. pose proof (first_of_lt s Hss). pose proof (proj2 (Hge s)). pose proof (proj1 (Hge (s + 1))).
    split; [lia|]. destruct Hprev as [[Hz Hp]|[? Hp]].
    + assert (s = 0). { destruct (decide (s = 0)); [done|]. pose proof (first_of_lt 0 ltac:(lia)) as H01.
        pose proof (first_of_mono 1 s ltac:(lia)). rewrite first_of_0 in H01. change (0 + 1) with 1 in H01. lia. }
      pose proof (proj2 (Hge' 1)). pose proof (first_of_range 1 ltac:(lia)). lia.
    + pose proof (proj1 (Hge' s)). lia.
Qed.

Lemma pass_bound pass r : 0 <= r < span -> pass < 2 ^ msb <-> pass * span + r < 2 ^ 64.
Proof using Hok.
  intros Hr. rewrite <- span_pow. split; intros H.
  - assert ((pass + 1) * span <= span * 2 ^ msb); [|lia]. rewrite Z.mul_comm. apply Z.mul_le_mono_nonneg_l; lia.
  - apply Z.nle_gt. intros Hle. assert (span * 2 ^ msb <= pass * span); [|lia].
    rewrite (Z.mul_comm pass). apply Z.mul_le_mono_nonneg_l; lia.
Qed.

(** The first beginning of a shard after a position. *)
Lemma next_begin n shard :
  0 <= n < 2 ^ 64 -> 0 <= shard < shards ->
  let pass := n / span + 1 - (if shard >? zero_based_shard_of n shards msb then 1 else 0) in
  let b := pass * span + first_of shard in
  0 <= pass /\ n < b /\ b mod span = first_of shard /\ (pass < 2 ^ msb <-> b < 2 ^ 64) /\
  b / span = pass /\
  forall x, n < x -> x mod span = first_of shard -> b <= x.
Proof using Hok.
  intros Hn Hs pass b. pose proof span_big as Hbig. pose proof Hok as [Hsh Hm]. pose proof span_pow as Hpow.
  pose proof (first_of_range shard Hs) as Hf. pose proof (Z.mod_pos_bound n span ltac:(lia)) as Hr.
  pose proof (Z.div_mod n span ltac:(lia)) as Hdm.
  assert (0 <= n / span) by (apply Z.div_pos; lia).
  assert (0 < 2 ^ msb) by (apply Z.pow_pos_nonneg; lia).
  assert (b / span = pass) by (symmetry; apply Z.div_unique with (first_of shard); [lia|unfold b; lia]).
  assert (b mod span = first_of shard) by (symmetry; apply Z.mod_unique with pass; [lia|unfold b; lia]).
  pose proof (shard_ge n shard ltac:(lia)) as Hge.
  assert (forall x, x mod span = first_of shard -> x = x / span * span + first_of shard) as Hx.
  { intros x Hx. pose proof (Z.div_mod x span ltac:(lia)). lia. }
  assert (forall x, n < x -> n / span <= x / span) as Hmono by (intros; apply Z.div_le_mono; lia).
  pose proof (pass_bound pass (first_of shard) Hf) as Hpb.
  assert (pass = n / span /\ n mod span < first_of shard \/
          pass = n / span + 1 /\ first_of shard <= n mod span) as [[Hp ?]|[Hp ?]].
  { unfold pass. destruct (Z.gtb_spec shard (zero_based_shard_of n shards msb)); lia. }
  - split_and!; [lia|unfold b; nia|done..|]. intros x Hnx Hmod. pose proof (Hx x Hmod). specialize (Hmono x Hnx).
    unfold b. nia.
  - split_and!; [lia|unfold b; nia|done..|]. intros x Hnx Hmod. pose proof (Hx x Hmod). specialize (Hmono x Hnx).
    assert (n / span <> x / span) by (intros Heq; rewrite <- Heq in *; lia). unfold b. nia.
Qed.

End shards.

(** A token that a partition can have; [INT64_MIN] is not one. *)
Definition legal_token (t : token) : Prop := _kind t = key /\ int64_min < _data t <= int64_max.

Lemma legal_valid t : legal_token t -> valid_token t.
Proof. unfold legal_token, valid_token, fits_signed, int64_min, int64_max. lia. Qed.

(** * What a sharder promises

    [shard_of] is the owner of each token. *)

(** Where a shard's tokens begin. *)
Definition starts_shard (shard_of : token -> Z) (t : token) (shard : Z) : Prop :=
  shard_of t = shard /\ (_data t = int64_min \/ shard_of (Token key (_data t - 1)) <> shard).

(** [token_for_next_shard]: the first token greater than [t] at which the shard begins. *)
Definition next_start (shard_of : token -> Z) (t : token) (shard : Z) (r : token) : Prop :=
  (legal_token r /\ token_compare t r = Lt /\ starts_shard shard_of r shard /\
   forall u, legal_token u -> token_compare t u = Lt -> token_compare u r = Lt -> ~ starts_shard shard_of u shard) \/
  (r = maximum_token /\ forall u, legal_token u -> token_compare t u = Lt -> ~ starts_shard shard_of u shard).

(** [next_shard]: the first token of another shard, and which one. *)
Definition next_owner (shard_of : token -> Z) (t : token) (o : option (Z * token)) : Prop :=
  match o with
  | Some (s, r) => legal_token r /\ token_compare t r = Lt /\ shard_of r = s /\ s <> shard_of t /\
      forall u, legal_token u -> token_compare t u <> Gt -> token_compare u r = Lt -> shard_of u = shard_of t
  | None => forall u, legal_token u -> token_compare t u <> Gt -> shard_of u = shard_of t
  end.

(** * The sharder *)

(** What the constructor of [static_sharder] establishes. *)
Definition sharder_ok (sh : static_sharder) : Prop :=
  config_ok (_shard_count sh) (_sharding_ignore_msb_bits sh) /\
  (_shard_count sh = 1 -> _sharding_ignore_msb_bits sh = 0) /\
  _shard_start sh = first_of (_shard_count sh) (_sharding_ignore_msb_bits sh) <$> seqZ 0 (_shard_count sh).

Lemma make_static_sharder_ok shards msb :
  config_ok shards msb ->
  exists sh, make_static_sharder shards msb = Ret sh /\ sharder_ok sh /\ _shard_count sh = shards.
Proof.
  intros Hok. unfold make_static_sharder. set (m := if shards >? 1 then msb else 0).
  assert (config_ok shards m) by (unfold config_ok, m in *; destruct (shards >? 1); lia).
  rewrite init_zero_based_shard_start_eq by done. simpl. eexists. split; [done|]. split; [|done].
  split_and!; [done| |done]. simpl. intros ->. done.
Qed.

Lemma make_static_sharder_inv shards msb sh :
  config_ok shards msb -> make_static_sharder shards msb = Ret sh -> sharder_ok sh /\ _shard_count sh = shards.
Proof. intros Hok Hmk. destruct (make_static_sharder_ok shards msb Hok) as (sh' & Hsh' & ? & ?).
  rewrite Hmk in Hsh'. by simplify_eq. Qed.

Section sharder_theory.
Context (sh : static_sharder) (Hsh : sharder_ok sh).
Local Abbreviation shards := (_shard_count sh).
Local Abbreviation msb := (_sharding_ignore_msb_bits sh).
Local Abbreviation span := (span msb).
Local Abbreviation first_of := (first_of shards msb).
Local Abbreviation zshard n := (zero_based_shard_of n shards msb).
Local Abbreviation owner := (sharder_shard_of sh).

Lemma config : config_ok shards msb.
Proof using Hsh. apply Hsh. Qed.

Lemma shard_of_key t : _kind t = key -> valid_token t -> sharder_shard_of sh t = zshard (token_pos t).
Proof. intros Hk Ht. unfold sharder_shard_of, shard_of. by rewrite Hk, unbias_eq. Qed.

Lemma sharder_shard_range t : valid_token t -> 0 <= sharder_shard_of sh t < shards.
Proof using Hsh.
  intros Ht. pose proof config as [? ?]. unfold sharder_shard_of, shard_of, shard_of_minimum_token.
  destruct (_kind t); [lia| |rewrite to_unsigned_id; unfold fits_unsigned; lia].
  rewrite unbias_eq by done. apply shard_range; [apply config|]. by apply token_pos_range.
Qed.

(** The tokens at which a shard begins, by their positions. *)
Lemma starts_shard_pos t s :
  2 <= shards -> legal_token t -> starts_shard owner t s <-> 0 <= s < shards /\ token_pos t mod span = first_of s.
Proof using Hsh.
  intros H2 Ht. pose proof (legal_valid t Ht). destruct Ht as [Hk Hd].
  rewrite <- (shard_begins shards msb config (token_pos t) s) by (unfold token_pos, int64_min in *; lia).
  unfold starts_shard. rewrite !shard_of_key by (unfold valid_token, fits_signed, int64_min, int64_max in *; simpl; lia || done).
  unfold token_pos; simpl. replace (_data t - 1 + 2 ^ 63) with (_data t + 2 ^ 63 - 1) by lia.
  unfold int64_min in *. naive_solver lia.
Qed.

Lemma sharder_next_eq {E} t shard spans :
  valid_token t -> _kind t <> after_all_keys -> 0 <= shard < shards -> 1 <= spans < 2 ^ 32 ->
  let n := search_pos t in
  let pass := n / span + spans - (if shard >? zshard n then 1 else 0) in
  sharder_token_for_next_shard (E := E) sh t shard spans =
  Ret (if pass >=? 2 ^ msb then maximum_token else bias (pass * span + first_of shard)).
Proof using Hsh.
  intros. unfold sharder_token_for_next_shard. destruct Hsh as (Hok & _ & ->). by apply token_for_next_shard_eq.
Qed.

Lemma search_pos_lt t u : valid_token t -> legal_token u -> _kind t <> after_all_keys ->
  token_compare t u = Lt <-> search_pos t < token_pos u.
Proof.
  intros Ht [Hk Hd] Hne. unfold search_pos. destruct (_kind t) eqn:Hkt; [|by rewrite compare_keys, Z.compare_lt_iff|done].
  unfold token_compare. rewrite Hkt, Hk. unfold token_pos, int64_min in *. simpl. split; [lia|done].
Qed.

Lemma bias_legal n : 0 < n < 2 ^ 64 -> legal_token (bias n) /\ token_pos (bias n) = n.
Proof.
  intros Hn. destruct (bias_valid n) as [? ?]; [lia|]. split; [|done]. rewrite bias_eq by lia.
  unfold legal_token, int64_min, int64_max. cbn [_kind _data]. split; [done|lia].
Qed.

Lemma token_for_next_shard_max {E} t shard spans :
  _kind t = after_all_keys -> sharder_token_for_next_shard (E := E) sh t shard spans = Ret maximum_token.
Proof. intros Hk. unfold sharder_token_for_next_shard, token_for_next_shard. by rewrite Hk. Qed.

Lemma token_for_next_shard_one {E} t shard :
  valid_token t -> 0 <= shard < shards ->
  exists r, sharder_token_for_next_shard (E := E) sh t shard 1 = Ret r /\ next_start owner t shard r.
Proof using Hsh.
  intros Ht Hs. pose proof config as Hok. pose proof Hok as [Hn _].
  destruct (decide (_kind t = after_all_keys)) as [Hk|Hk].
  { exists maximum_token. split; [by apply token_for_next_shard_max|]. right. split; [done|].
    intros u [Hu _]. unfold token_compare. by rewrite Hk, Hu. }
  pose proof (search_pos_range t Ht) as Hpos.
  eexists. split; [by apply sharder_next_eq|].
  destruct (next_begin shards msb Hok (search_pos t) shard Hpos Hs) as (Hp0 & Hlt & Hmod & Hbound & _ & Hleast).
  set (pass := search_pos t / span + 1 - _) in *. set (b := pass * span + first_of shard) in *.
  destruct (decide (shards = 1)) as [H1|H1].
  { assert (2 ^ msb = 1) as -> by (destruct Hsh as (_ & Hm & _); by rewrite Hm).
    assert (1 <= pass) by (pose proof (shard_range shards msb Hok (search_pos t)); unfold pass;
      pose proof (Z.div_pos (search_pos t) span); pose proof (span_big shards msb Hok);
      replace (shard >? zshard (search_pos t)) with false by lia; lia).
    replace (pass >=? 1) with true by lia. right. split; [done|]. intros u Hu _ [_ Hst].
    pose proof (legal_valid u Hu). destruct Hu as [Hku Hdu]. destruct Hst as [Hst|Hst]; [unfold int64_min in *; lia|].
    apply Hst. pose proof (sharder_shard_range (Token key (_data u - 1))) as Hr.
    unfold valid_token, fits_signed, int64_min, int64_max in *. simpl in *. lia. }
  destruct (Z.geb_spec pass (2 ^ msb)) as [Hge|Hge].
  - right. split; [done|]. intros u Hu Htu Hst. apply starts_shard_pos in Hst as [_ Hum]; [|lia|done].
    apply (search_pos_lt t u Ht Hu Hk) in Htu. specialize (Hleast _ Htu Hum).
    pose proof (token_pos_range u (legal_valid u Hu)). lia.
  - left. destruct (bias_legal b) as [Hleg Hb]; [lia|]. split_and!.
    + done.
    + apply search_pos_lt; [done..|lia].
    + apply starts_shard_pos; [lia|done|]. by rewrite Hb.
    + intros u Hu Htu Hur Hst. apply starts_shard_pos in Hst as [_ Hum]; [|lia|done].
      apply (search_pos_lt t u Ht Hu Hk) in Htu. specialize (Hleast _ Htu Hum).
      rewrite compare_keys, Z.compare_lt_iff in Hur by (apply Hu || apply Hleg). lia.
Qed.

Lemma token_for_next_shard_spans {E} t shard spans :
  valid_token t -> 0 <= shard < shards -> 1 <= spans -> spans + 1 < 2 ^ 32 ->
  sharder_token_for_next_shard (E := E) sh t shard (spans + 1) =
  (r ← sharder_token_for_next_shard sh t shard 1; sharder_token_for_next_shard sh r shard spans).
Proof using Hsh.
  intros Ht Hs Hsp Hsp'. pose proof config as Hok.
  destruct (decide (_kind t = after_all_keys)) as [Hk|Hk].
  { rewrite !token_for_next_shard_max by done. done. }
  pose proof (search_pos_range t Ht) as Hpos.
  rewrite (sharder_next_eq t shard 1), sharder_next_eq by (done || lia).
  destruct (next_begin shards msb Hok (search_pos t) shard Hpos Hs) as (Hp0 & Hlt & Hmod & Hbound & Hdiv & _).
  set (later := if shard >? zshard (search_pos t) then 1 else 0) in *.
  set (pass := search_pos t / span + 1 - later) in *. set (b := pass * span + first_of shard) in *.
  replace (search_pos t / span + (spans + 1) - later) with (pass + spans) by (unfold pass; lia).
  destruct (Z.geb_spec pass (2 ^ msb)) as [Hge|Hge].
  { replace (pass + spans >=? 2 ^ msb) with true by lia. simpl. by rewrite token_for_next_shard_max. }
  destruct (bias_valid b) as [Hval Hb]; [lia|]. simpl.
  rewrite sharder_next_eq by (done || lia).
  assert (search_pos (bias b) = b) as -> by (by unfold search_pos; rewrite bias_eq in * by lia).
  assert (zshard b = shard) as ->.
  { pose proof (first_of_lt shards msb Hok shard Hs).
    pose proof (shard_ge shards msb Hok b shard ltac:(lia)). pose proof (shard_ge shards msb Hok b (shard + 1) ltac:(lia)). lia. }
  replace (shard >? shard) with false by lia. rewrite Hdiv. by replace (pass + spans - 0) with (pass + spans) by lia.
Qed.

(** ** The shard after a token's *)

(** The owner of a position stays until the next shard begins. *)
Lemma same_shard_until n x :
  0 <= n < 2 ^ 64 ->
  let s := zshard n in
  let s' := if s + 1 =? shards then 0 else s + 1 in
  n <= x -> x < (n / span + 1 - (if s' >? s then 1 else 0)) * span + first_of s' -> zshard x = s.
Proof using Hsh.
  intros Hn s s' Hnx Hxb. pose proof config as Hok. pose proof (span_big shards msb Hok) as Hbig.
  pose proof (shard_range shards msb Hok n ltac:(lia)) as Hs. pose proof (shard_range shards msb Hok x ltac:(lia)) as Hsx.
  pose proof (Z.div_mod n span ltac:(lia)). pose proof (Z.div_mod x span ltac:(lia)).
  pose proof (Z.mod_pos_bound n span ltac:(lia)). pose proof (Z.mod_pos_bound x span ltac:(lia)).
  pose proof (Z.div_le_mono n x span ltac:(lia) ltac:(lia)).
  pose proof (shard_ge shards msb Hok n s ltac:(lia)) as Hgn. pose proof (shard_ge shards msb Hok x s ltac:(lia)) as Hgx.
  pose proof (shard_ge shards msb Hok x (s + 1) ltac:(lia)) as Hgx'. fold s in Hs, Hgn.
  unfold s' in Hxb. destruct (Z.eqb_spec (s + 1) shards) as [Hlast|Hlast].
  - rewrite first_of_0 in Hxb by done. replace (0 >? s) with false in Hxb by lia.
    assert (x / span = n / span) as Heq by nia. rewrite Heq in *. lia.
  - pose proof (first_of_range shards msb Hok (s + 1) ltac:(lia)). replace (s + 1 >? s) with true in Hxb by lia.
    assert (x / span = n / span) as Heq by nia. rewrite Heq in *. lia.
Qed.

Lemma search_pos_le t u : valid_token t -> legal_token u -> _kind t <> after_all_keys ->
  token_compare t u <> Gt -> search_pos t <= token_pos u.
Proof.
  intros Ht [Hk Hd] Hne. unfold search_pos. destruct (_kind t) eqn:Hkt; [|by rewrite compare_keys, Z.compare_le_iff|done].
  unfold token_pos, int64_min in *. lia.
Qed.

Lemma shard_of_search_pos t : valid_token t -> _kind t <> after_all_keys -> sharder_shard_of sh t = zshard (search_pos t).
Proof using Hsh.
  intros Ht Hk. unfold sharder_shard_of, shard_of, search_pos. destruct (_kind t); [|by rewrite unbias_eq|done].
  pose proof config as Hok. pose proof (shard_lt shards msb Hok 0 1 ltac:(lia)) as Hlt.
  pose proof (shard_range shards msb Hok 0 ltac:(lia)). pose proof (span_big shards msb Hok). destruct Hok as [? ?].
  rewrite Z.mod_0_l in Hlt by lia. pose proof (first_of_lt shards msb config 0 ltac:(lia)) as Hf.
  rewrite first_of_0 in Hf by apply config. unfold shard_of_minimum_token. change (0 + 1) with 1 in Hf. lia.
Qed.

Lemma next_shard_ok {E} t :
  valid_token t -> exists o, next_shard (E := E) sh t = Ret o /\ next_owner (sharder_shard_of sh) t o.
Proof using Hsh.
  intros Ht. pose proof config as Hok. pose proof Hok as [Hn _]. unfold next_shard.
  destruct (decide (_kind t = after_all_keys)) as [Hk|Hk].
  { rewrite token_for_next_shard_max by done. eexists. split; [done|]. simpl.
    intros u [Hu _]. unfold token_compare. by rewrite Hk, Hu. }
  pose proof (search_pos_range t Ht) as Hpos. pose proof (sharder_shard_range t Ht) as Hrange.
  rewrite (to_unsigned_id 32) by (unfold fits_unsigned; lia).
  rewrite (shard_of_search_pos t) in * by done. set (s := zshard (search_pos t)) in *.
  set (s' := if s + 1 =? shards then 0 else s + 1).
  assert (0 <= s' < shards) as Hs' by (unfold s'; destruct (Z.eqb_spec (s + 1) shards); lia).
  rewrite sharder_next_eq by (done || lia). cbn [mbind outcome_bind].
  pose proof (fun x => same_shard_until (search_pos t) x Hpos) as Hsame. fold s in Hsame. fold s' in Hsame. cbv zeta in Hsame.
  destruct (next_begin shards msb Hok (search_pos t) s' Hpos Hs') as (Hp0 & Hlt & Hmod & Hbound & _ & _). fold s in Hp0, Hlt, Hmod, Hbound. fold s.
  set (pass := search_pos t / span + 1 - _) in *. set (b := pass * span + first_of s') in *.
  assert (forall u, legal_token u -> token_compare t u <> Gt -> token_pos u < b ->
    sharder_shard_of sh u = sharder_shard_of sh t) as Howner.
  { intros u Hu Htu Hub. pose proof (legal_valid u Hu). rewrite (shard_of_search_pos t) by done.
    rewrite shard_of_key by (apply Hu || done). apply Hsame; [by apply search_pos_le|done]. }
  destruct (Z.geb_spec pass (2 ^ msb)) as [Hge|Hge].
  - eexists. split; [done|]. simpl. intros u Hu Htu. apply Howner; [done..|].
    pose proof (token_pos_range u (legal_valid u Hu)). lia.
  - destruct (bias_legal b) as [Hleg Hb]; [lia|]. exists (Some (s', bias b)). split.
    { by rewrite bias_eq by lia. }
    pose proof (first_of_lt shards msb Hok s' Hs').
    pose proof (shard_ge shards msb Hok b s' ltac:(lia)). pose proof (shard_ge shards msb Hok b (s' + 1) ltac:(lia)).
    split_and!; [done| | | |].
    + apply search_pos_lt; [done..|lia].
    + rewrite shard_of_key, Hb by (apply Hleg || by apply legal_valid). lia.
    + rewrite (shard_of_search_pos t) by done. fold s. unfold s'. destruct (Z.eqb_spec (s + 1) shards) as [Hl|]; [|lia].
      intros Hs0. destruct Hsh as (_ & Hm & _).
      rewrite Hm in Hge by lia. change (2 ^ 0) with 1 in Hge.
      assert (0 <= search_pos t / span) by (apply Z.div_pos; [lia|pose proof (span_big shards msb Hok); lia]).
      unfold pass in Hge. replace (0 >? s) with false in Hge by lia. lia.
    + intros u Hu Htu Hub. rewrite compare_keys, Z.compare_lt_iff in Hub by (apply Hu || apply Hleg).
      apply Howner; [done..|lia].
Qed.

(** ** The first token of a shard in a range *)

(** The tokens that occur: those partitions have, and the two ends. *)
Definition ring_token (t : token) : Prop := legal_token t \/ t = minimum_token \/ t = maximum_token.

Lemma ring_token_valid t : ring_token t -> valid_token t.
Proof. intros [Ht|[->| ->]]; [by apply legal_valid|unfold valid_token, fits_signed, minimum_token, maximum_token, int64_min; cbn [_data]; lia..]. Qed.

(** The first token in [(start, end_]] that the shard owns, or [end_]. *)
Definition first_owned (start end_ : token) (shard : Z) (r : token) : Prop :=
  (legal_token r /\ token_compare start r = Lt /\ token_compare r end_ <> Gt /\ sharder_shard_of sh r = shard /\
   forall u, legal_token u -> token_compare start u = Lt -> token_compare u r = Lt -> sharder_shard_of sh u <> shard) \/
  (r = end_ /\ forall u, legal_token u -> token_compare start u = Lt -> token_compare u end_ <> Gt ->
   sharder_shard_of sh u <> shard).

(** Between a token of another shard and one of this shard, this shard begins. *)
Lemma begins_between t u shard :
  legal_token t -> legal_token u -> sharder_shard_of sh t <> shard -> sharder_shard_of sh u = shard ->
  token_compare t u = Lt ->
  exists v, legal_token v /\ token_compare t v = Lt /\ token_compare v u <> Gt /\ starts_shard owner v shard.
Proof.
  intros Ht Hu Hnt Hsu Htu.
  assert (exists k, token_pos u = token_pos t + Z.of_nat k) as [k Hk].
  { exists (Z.to_nat (token_pos u - token_pos t)). rewrite compare_keys, Z.compare_lt_iff in Htu by (apply Ht || apply Hu). lia. }
  revert u Hu Hsu Htu Hk. induction k as [|k IH]; intros u Hu Hsu Htu Hk.
  { rewrite compare_keys, Z.compare_lt_iff in Htu by (apply Ht || apply Hu). lia. }
  set (p := Token key (_data u - 1)). destruct Ht as [Hkt Htd], Hu as [Hku Hud].
  assert (token_pos p = token_pos u - 1) as Hp by (unfold p, token_pos; simpl; lia).
  destruct (decide (sharder_shard_of sh p = shard)) as [Hps|Hps].
  - assert (legal_token p) as Hleg.
    { split; [done|]. unfold token_pos in *. simpl. split; [|lia].
      destruct (decide (k = 0%nat)) as [->|]; [|lia].
      exfalso. apply Hnt. rewrite <- Hps. f_equal. destruct t as [kt dt]. simpl in *. subst kt. f_equal. lia. }
    destruct (decide (k = 0%nat)) as [->|Hk0].
    { exfalso. apply Hnt. rewrite <- Hps. f_equal. destruct t as [kt dt], u as [ku du]. unfold token_pos in *. simpl in *. subst. f_equal. lia. }
    destruct (IH p Hleg Hps) as (v & Hv & Htv & Hvp & Hst).
    + rewrite compare_keys, Z.compare_lt_iff by done. lia.
    + lia.
    + exists v. split_and!; [done..| |done].
      rewrite compare_keys, Z.compare_le_iff in * by (done || apply Hv). lia.
  - exists u. split_and!; [by split|done|by rewrite (cmp_refl token_compare)|]. split; [done|]. by right.
Qed.

(** The first token of a shard from a token on. *)
Lemma first_owned_from {E} t shard :
  legal_token t -> 0 <= shard < shards ->
  exists r, (if negb (sharder_shard_of sh t =? shard) then sharder_token_for_next_shard (E := E) sh t shard 1 else Ret t) = Ret r /\
    ((legal_token r /\ token_compare t r <> Gt /\ sharder_shard_of sh r = shard /\
      forall u, legal_token u -> token_compare t u <> Gt -> token_compare u r = Lt -> sharder_shard_of sh u <> shard) \/
     (r = maximum_token /\ forall u, legal_token u -> token_compare t u <> Gt -> sharder_shard_of sh u <> shard)).
Proof using Hsh.
  intros Ht Hshard. destruct (Z.eqb_spec (sharder_shard_of sh t) shard) as [Heq|Hne]; cbn [negb].
  { exists t. split; [done|]. left. split_and!; [done|by rewrite (cmp_refl token_compare)|done|].
    intros u Hu Htu Hut. exfalso. rank_with token_compare [t; u]. }
  destruct (token_for_next_shard_one (E := E) t shard (legal_valid t Ht) Hshard) as (r & -> & Hr).
  exists r. split; [done|].
  assert (forall u, legal_token u -> token_compare t u <> Gt -> sharder_shard_of sh u = shard -> token_compare t u = Lt) as Hlater.
  { intros u Hu Htu Hown. destruct (token_compare t u) eqn:Hc; [|done..].
    rewrite compare_keys, Z.compare_eq_iff in Hc by (apply Ht || apply Hu). destruct Hne. rewrite <- Hown.
    by rewrite !shard_of_key, Hc by (apply Ht || apply Hu || by apply legal_valid). }
  destruct Hr as [(Hleg & Htr & Hst & Hmin)|[-> Hmin]]; [left|right].
  - split_and!; [done|by rewrite Htr|apply Hst|]. intros u Hu Htu Hur Hown.
    destruct (begins_between t u shard) as (v & Hv & Htv & Hvu & Hstv); [by auto..|].
    apply (Hmin v); [done..| |done]. rank_with token_compare [u; v; r].
  - split; [done|]. intros u Hu Htu Hown.
    destruct (begins_between t u shard) as (v & Hv & Htv & Hvu & Hstv); [by auto..|]. by apply (Hmin v).
Qed.

(** Where the search of a range begins. *)
Lemma token_succ start :
  ring_token start -> start <> maximum_token -> start <> last_token ->
  let t := from_int64 (_data start + 1) in
  legal_token t /\ int64_succ (E := Empty_set) (to_int64 start) = Ret (_data t) /\
  forall u, legal_token u -> token_compare start u = Lt <-> token_compare t u <> Gt.
Proof.
  intros Hstart Hnmax Hnlast t.
  assert (int64_min <= _data start < int64_max /\ _kind start <> after_all_keys) as [Hd Hk].
  { destruct Hstart as [[Hk Hd]|[->| ->]]; [|by simpl|done]. rewrite Hk. split; [|done].
    destruct start as [k d]; simpl in *; subst k. split; [lia|]. destruct (decide (d = int64_max)) as [->|]; [done|lia]. }
  assert (legal_token t) as Ht by (split; [done|]; unfold t, from_int64; simpl; lia).
  split_and!; [done| |].
  { unfold int64_succ, to_int64. by replace (_data start =? int64_max) with false by lia. }
  intros u Hu. rewrite search_pos_lt by (done || by apply ring_token_valid).
  rewrite (compare_keys t u), Z.compare_le_iff by (done || apply Hu).
  destruct Hstart as [[Hks _]|[->| ->]]; [|unfold search_pos, t, from_int64, token_pos, minimum_token, int64_min; cbn [_kind _data]; lia|done].
  unfold search_pos, t, from_int64, token_pos. rewrite Hks. simpl. lia.
Qed.

Lemma find_in_range {E} start end_ shard :
  ring_token start -> start <> maximum_token -> start <> last_token -> ring_token end_ -> 0 <= shard < shards ->
  exists r, find_first_token_for_shard_in_not_wrap_around_range (E := E) sh start end_ shard = Ret r /\
            first_owned start end_ shard r.
Proof using Hsh.
  intros Hstart Hnmax Hnlast Hend Hshard.
  destruct (token_succ start Hstart Hnmax Hnlast) as (Ht & Hsucc & Hafter). set (t := from_int64 _) in *.
  unfold find_first_token_for_shard_in_not_wrap_around_range.
  replace (int64_succ (to_int64 start)) with (Ret (E := E) (_data t)).
  2:{ unfold int64_succ in *. by destruct (to_int64 start =? int64_max). }
  cbn [mbind outcome_bind]. change (from_int64 (_data t)) with t.
  destruct (first_owned_from (E := E) t shard Ht Hshard) as (r & -> & Hr).
  cbn [mbind outcome_bind]. eexists. split; [done|]. unfold token_min, token_lt. case_bool_decide as Hlt.
  - right. split; [done|]. intros u Hu Hsu%Hafter Hue; [|done].
    destruct Hr as [(_ & _ & _ & Hmin)|[-> Hmin]]; apply Hmin; try done. rank_with token_compare [u; end_; r].
  - destruct Hr as [(Hleg & Hsr & Hown & Hmin)|[-> Hmin]].
    + left. split_and!; [done|by apply Hafter|rank_with token_compare [r; end_]|done|].
      intros u Hu Hsu%Hafter Hur; [|done]. by apply Hmin.
    + right. assert (end_ = maximum_token) as ->.
      { destruct Hend as [[Hke _]|[->| ->]]; [|done|done]. exfalso. apply Hlt. unfold token_compare. by rewrite Hke. }
      split; [done|]. intros u Hu Hsu%Hafter _; [|done]. by apply Hmin.
Qed.

End sharder_theory.

(** * Theorems *)

(** C35: The table of shard starts. Its construction ends, with one entry for each shard, the
    smallest token that the sharding function gives to the shard. *)
Theorem init_zero_based_shard_start_correct shards msb :
  config_ok shards msb ->
  exists starts, init_zero_based_shard_start shards msb = Ret starts /\ Z.of_nat (length starts) = shards /\
  forall s n, at_z starts s = Some n ->
    0 <= n < 2 ^ 64 /\ zero_based_shard_of n shards msb = s /\
    forall m, 0 <= m < n -> zero_based_shard_of m shards msb <> s.
Proof.
  intros Hok. rewrite init_zero_based_shard_start_eq by done. pose proof Hok as [Hs Hm]. eexists. split; [done|].
  rewrite length_fmap, length_seqZ. split; [lia|]. intros s n Hn.
  assert (0 <= s < shards) as Hss.
  { unfold at_z in Hn. rewrite length_fmap, length_seqZ in Hn. destruct (Z.leb_spec 0 s), (Z.ltb_spec s (Z.of_nat (Z.to_nat shards))); simpl in *; try done; lia. }
  rewrite first_of_lookup in Hn by done. injection Hn as <-.
  pose proof (first_of_range shards msb Hok s Hss). pose proof (span_pow shards msb Hok).
  assert (0 < 2 ^ msb) by (apply Z.pow_pos_nonneg; lia).
  split_and!; [lia|nia|by apply shard_of_first|]. intros m Hm' Heq.
  pose proof (shard_ge shards msb Hok m s ltac:(lia)) as Hge. rewrite Z.mod_small in Hge by lia. lia.
Qed.

Lemma init_zero_based_shard_start_correct_witness :
  config_ok 3 12 /\
  exists starts, init_zero_based_shard_start 3 12 = Ret starts /\ Z.of_nat (length starts) = 3.
Proof.
  assert (config_ok 3 12) as Hok by (unfold config_ok; lia). split; [done|].
  destruct (init_zero_based_shard_start_correct 3 12 Hok) as (starts & ? & ? & _). by exists starts.
Defined.

(** [token_for_next_shard] on a sharder: the first token greater than [t] at which the given
    shard begins, or the maximum token if there is none; and for several passes over the shards,
    the result of as many calls, each on the token the one before returned. *)
Theorem token_for_next_shard_correct {E} shards msb sh t shard :
  config_ok shards msb -> make_static_sharder shards msb = Ret sh -> valid_token t -> 0 <= shard < shards ->
  (exists r, sharder_token_for_next_shard (E := E) sh t shard 1 = Ret r /\ next_start (sharder_shard_of sh) t shard r) /\
  (forall spans, 1 <= spans -> spans + 1 < 2 ^ 32 ->
    sharder_token_for_next_shard (E := E) sh t shard (spans + 1) =
    (r ← sharder_token_for_next_shard sh t shard 1; sharder_token_for_next_shard sh r shard spans)).
Proof.
  intros Hok Hmk Ht Hs. destruct (make_static_sharder_inv shards msb sh Hok Hmk) as [Hsh <-].
  split; [by apply token_for_next_shard_one|]. intros. by apply token_for_next_shard_spans.
Qed.

Definition example_sharder : static_sharder :=
  match make_static_sharder 3 1 with Ret sh => sh | _ => StaticSharder 0 0 [] end.

Lemma token_for_next_shard_correct_witness :
  exists r, sharder_token_for_next_shard (E := Empty_set) example_sharder (Token key 5) 2 1 = Ret r /\
            next_start (sharder_shard_of example_sharder) (Token key 5) 2 r.
Proof.
  apply (token_for_next_shard_correct 3 1 example_sharder); [|reflexivity|..].
  - unfold config_ok. lia.
  - unfold valid_token, fits_signed. simpl. lia.
  - lia.
Defined.

(** [find_first_token_for_shard] finds the first token of a shard in a range [(start, end]]
    of the ring, or returns [end] if there is none: in a range that wraps around, the first one
    after [start] if the shard has one there, and otherwise the first one up to [end]. The
    exception is the range from the last token to the maximum token, for which the successor of
    the last token is computed and overflows. *)
Theorem find_first_token_for_shard_correct {E} shards msb sh start end_ shard :
  config_ok shards msb -> make_static_sharder shards msb = Ret sh ->
  ring_token start -> start <> maximum_token -> ring_token end_ -> 0 <= shard < shards ->
  if decide (start = last_token /\ end_ = maximum_token) then
    find_first_token_for_shard (E := E) sh start end_ shard = Abort undefined_behaviour
  else
    exists r, find_first_token_for_shard (E := E) sh start end_ shard = Ret r /\
    if token_lt start end_ then first_owned sh start end_ shard r
    else (first_owned sh start maximum_token shard r /\ r <> maximum_token) \/
         (first_owned sh start maximum_token shard maximum_token /\ first_owned sh minimum_token end_ shard r).
Proof.
  intros Hok Hmk Hstart Hnmax Hend Hs. destruct (make_static_sharder_inv shards msb sh Hok Hmk) as [Hsh <-].
  unfold find_first_token_for_shard. destruct (decide (start = last_token /\ end_ = maximum_token)) as [[-> ->]|Hcase].
  { reflexivity. }
  destruct (token_lt start end_) eqn:Hlt.
  { apply bool_decide_eq_true in Hlt. apply find_in_range; try done. intros ->. apply Hcase. split; [done|].
    destruct Hend as [Hend|[->| ->]]; [|done|done]. destruct Hend as [Hk Hd].
    rewrite compare_keys, Z.compare_lt_iff in Hlt by done. unfold token_pos, last_token, int64_max in *. simpl in *. lia. }
  destruct (decide (start = last_token)) as [->|Hnlast].
  - destruct (find_in_range sh Hsh (E := E) minimum_token end_ shard) as (r & Hr & Hown);
      [by right; left|done|done|done|done|]. exists r. split; [exact Hr|]. right. split; [|done].
    right. split; [done|]. intros u [Hk Hd] Hlast. rewrite compare_keys, Z.compare_lt_iff in Hlast by done.
    unfold token_pos, last_token, int64_max in *. simpl in *. lia.
  - assert ((to_int64 start =? int64_max) = false) as ->.
    { apply Z.eqb_neq. unfold to_int64. destruct Hstart as [[Hk Hd]|[->| ->]]; [|done|done]. intros Heq. apply Hnlast.
      destruct start as [k d]. simpl in *. by subst. }
    cbn [negb]. destruct (find_in_range sh Hsh (E := E) start maximum_token shard) as (r & -> & Hown);
      [done|done|done|by right; right|done|]. cbn [mbind outcome_bind].
    destruct (is_maximum r) eqn:Hmax.
    + apply bool_decide_eq_true in Hmax.
      assert (r = maximum_token) as ->.
      { destruct Hown as [(Hleg & _)|[? _]]; [|done]. destruct Hleg as [Hk _]. by rewrite Hk in Hmax. }
      destruct (find_in_range sh Hsh (E := E) minimum_token end_ shard) as (r' & -> & Hown');
        [by right; left|done|done|done|done|]. exists r'. split; [done|]. by right.
    + exists r. split; [done|]. left. split; [done|]. by intros ->.
Qed.

Lemma find_first_token_for_shard_correct_witness :
  exists r, find_first_token_for_shard (E := Empty_set) example_sharder (Token key 5) (Token key 4) 1 = Ret r.
Proof.
  pose proof (find_first_token_for_shard_correct (E := Empty_set) 3 1 example_sharder (Token key 5) (Token key 4) 1) as H.
  rewrite decide_False in H by (intros [? _]; done). destruct H as (r & Hr & _); [..|by exists r].
  - unfold config_ok. lia.
  - reflexivity.
  - left. split; [done|]. unfold int64_min, int64_max. simpl. lia.
  - done.
  - left. split; [done|]. unfold int64_min, int64_max. simpl. lia.
  - lia.
Defined.

(** The number of tokens in a group. *)
Definition group_size (bits : Z) : Z := 2 ^ (64 - bits).

Lemma group_size_pow bits : 0 <= bits <= 64 -> group_size bits * 2 ^ bits = 2 ^ 64 /\ 0 < group_size bits /\ 0 < 2 ^ bits.
Proof.
  intros. unfold group_size. split_and!; try (apply Z.pow_pos_nonneg; lia).
  rewrite <- Z.pow_add_r by lia. f_equal. lia.
Qed.

Lemma last_token_of_group bits g :
  0 <= bits <= 30 -> 0 <= g < 2 ^ bits ->
  legal_token (last_token_of_compaction_group bits g) /\
  token_pos (last_token_of_compaction_group bits g) = (g + 1) * group_size bits - 1.
Proof.
  intros Hb Hg. destruct (group_size_pow bits) as (Hw & Hpos & ?); [lia|]. set (w := group_size bits) in *.
  assert (2 ^ bits <= 2 ^ 30) by (apply Z.pow_le_mono_r; lia).
  assert (2 ^ 34 <= w) by (apply Z.pow_le_mono_r; lia).
  unfold last_token_of_compaction_group. rewrite !Z.shiftl_mul_pow2, (to_unsigned_id 64 (1 * 2 ^ bits)) by (unfold fits_unsigned; lia).
  change (2 ^ (64 - bits)) with w. destruct (Z.eqb_spec g (1 * 2 ^ bits - 1)) as [->|Hne].
  { destruct (bias_legal (2 ^ 64 - 1)) as [? ->]; [lia|]. split; [done|lia]. }
  rewrite (to_unsigned_id 64 ((g + 1) * w)), to_unsigned_id by (unfold fits_unsigned; nia).
  apply bias_legal. nia.
Qed.

Lemma compaction_group_of_key bits t :
  0 <= bits <= 30 -> valid_token t -> _kind t = key -> compaction_group_of bits t = token_pos t / group_size bits.
Proof.
  intros Hb Ht Hk. unfold compaction_group_of, group_size. rewrite Hk, unbias_eq by done.
  destruct (Z.eqb_spec bits 0) as [->|]; [|by rewrite Z.shiftr_div_pow2 by lia].
  pose proof (token_pos_range t Ht). symmetry. apply Z.div_small. done.
Qed.

(** The groups that the most significant bits divide the tokens into: [2 ^ bits] of them, each
    the tokens from after the last token of the group before it to its own last token. *)
Theorem compaction_group_correct bits t :
  0 <= bits <= 30 -> valid_token t ->
  let g := compaction_group_of bits t in
  0 <= g < 2 ^ bits /\
  (_kind t = key -> token_compare t (last_token_of_compaction_group bits g) <> Gt /\
    (g = 0 \/ token_compare (last_token_of_compaction_group bits (g - 1)) t = Lt)) /\
  (_kind t = after_all_keys -> g = 2 ^ bits - 1) /\ (_kind t = before_all_keys -> g = 0).
Proof.
  intros Hb Ht. destruct (group_size_pow bits) as (Hw & Hpos & ?); [lia|]. set (w := group_size bits) in *.
  assert (2 ^ bits <= 2 ^ 30) by (apply Z.pow_le_mono_r; lia). pose proof (token_pos_range t Ht) as Hp.
  intros g. destruct (_kind t) eqn:Hk.
  - assert (g = 0) as -> by (unfold g, compaction_group_of; rewrite Hk; by destruct (bits =? 0)).
    split_and!; [lia|lia|done..].
  - assert (g = token_pos t / w) as Hg by (by apply compaction_group_of_key).
    assert (0 <= g < 2 ^ bits) as Hgr by (rewrite Hg; split; [apply Z.div_pos|apply Z.div_lt_upper_bound]; lia).
    pose proof (Z.div_mod (token_pos t) w ltac:(lia)) as Hdm. pose proof (Z.mod_pos_bound (token_pos t) w ltac:(lia)). rewrite <- Hg in Hdm.
    split_and!; [lia|lia| |done..]. intros _. destruct (last_token_of_group bits g Hb Hgr) as [[Hlk _] Hlp].
    rewrite compare_keys, Z.compare_le_iff, Hlp by done. fold w. split; [lia|].
    destruct (decide (g = 0)); [by left|right]. destruct (last_token_of_group bits (g - 1)) as [[Hlk' _] Hlp']; [lia|lia|].
    rewrite compare_keys, Z.compare_lt_iff, Hlp' by done. fold w. lia.
  - assert (g = 2 ^ bits - 1) as ->.
    { unfold g, compaction_group_of. rewrite Hk. destruct (Z.eqb_spec bits 0) as [->|]; [done|].
      rewrite Z.shiftl_mul_pow2, Z.mul_1_l, (to_signed_id 32), to_unsigned_id by (unfold fits_signed, fits_unsigned; lia). done. }
    split_and!; [lia|lia|done..].
Qed.

Lemma compaction_group_correct_witness :
  compaction_group_of 3 (Token key 5) = 4 /\
  token_compare (last_token_of_compaction_group 3 3) (Token key 5) = Lt.
Proof.
  destruct (compaction_group_correct 3 (Token key 5)) as (_ & Hkey & _); [lia|unfold valid_token, fits_signed; simpl; lia|].
  split; [reflexivity|]. destruct (Hkey eq_refl) as [_ [H|H]]; [discriminate H|exact H].
Defined.
