(* ===== verification/Ring.v ===== *)
(** Positions in the ring of partitions, and the division of partition ranges among
    shards ([src/dht/ring_position.hh], [src/dht/i_partitioner.cc], [src/dht/i_partitioner.hh],
    [src/dht/sharder.hh], [src/dht/decorated_key.hh]).

    A partition is a token and a key; a position is a partition or a place before or
    after all partitions of a token. The type of keys and its comparator
    ([partition_key::legacy_tri_compare], which depends on the schema) are arguments.
    Partition ranges are intervals of positions ([Interval]). The virtual class
    [sharder] is a record of operations; what its documentation promises is the class
    [SharderLaws], which [static_sharder] satisfies and against which the users of a
    sharder are verified. Loops have fuel, and enough of it is proved to exist. *)
From S2P Require Import Prelude Bytes Ordering Interval IntervalTheory Tokens.
Open Scope Z_scope.

(** * Sharders *)

(** The virtual functions of class [sharder], [spans] at its default of one pass. *)
Record sharder := Sharder {
  shard_count : Z;
  shard_for_reads : token -> Z;
  token_for_next_shard_for_reads : token -> Z -> outcome Empty_set token;
  next_shard_for_reads : token -> outcome Empty_set (option (Z * token));
}.

Definition as_sharder (sh : static_sharder) : sharder := {|
  shard_count := _shard_count sh;
  shard_for_reads := sharder_shard_of sh;
  token_for_next_shard_for_reads t shard := sharder_token_for_next_shard sh t shard 1;
  next_shard_for_reads := next_shard sh;
|}.

Class SharderLaws (sh : sharder) : Prop := {
  shard_for_reads_range t : valid_token t -> 0 <= shard_for_reads sh t < shard_count sh;
  token_for_next_shard_law t shard : valid_token t -> 0 <= shard < shard_count sh ->
    exists r, token_for_next_shard_for_reads sh t shard = Ret r /\ next_start (shard_for_reads sh) t shard r;
  next_shard_law t : valid_token t ->
    exists o, next_shard_for_reads sh t = Ret o /\ next_owner (shard_for_reads sh) t o;
}.

Lemma static_sharder_laws sh : sharder_ok sh -> SharderLaws (as_sharder sh).
Proof.
  intros Hsh. split; simpl.
  - by apply sharder_shard_range.
  - by apply token_for_next_shard_one.
  - by apply next_shard_ok.
Qed.

(** * Positions *)

Section positions.
Context {K : Type} (key_compare : K -> K -> comparison).

Record decorated_key := DecoratedKey {
  dk_token : token;
  dk_key : K;
}.

(** [token_bound], an [int8_t]: [start] is -1, [end] is 1. *)
Definition bound_start : Z := -1.
Definition bound_end : Z := 1.

Record ring_position := RingPosition {
  rp_token : token;
  rp_bound : Z;
  rp_key : option K;
}.

Definition min_position : ring_position := RingPosition minimum_token bound_start None.
Definition max_position : ring_position := RingPosition maximum_token bound_end None.
Definition starting_at (t : token) : ring_position := RingPosition t bound_start None.
Definition ending_at (t : token) : ring_position := RingPosition t bound_end None.
Definition position_of_key (dk : decorated_key) : ring_position := RingPosition (dk_token dk) 0 (Some (dk_key dk)).

Definition relation_to_keys (p : ring_position) : Z :=
  match rp_key p with Some _ => 0 | None => rp_bound p end.

Record ring_position_view := RingPositionView {
  v_token : token;
  v_key : option K;
  v_weight : Z;
}.

Definition view_of (pos : ring_position) (after_key : bool) : ring_position_view :=
  RingPositionView (rp_token pos) (rp_key pos)
    (match rp_key pos with Some _ => Z.b2z after_key | None => relation_to_keys pos end).
Definition view_of_key (dk : decorated_key) (after_key : bool) : ring_position_view :=
  RingPositionView (dk_token dk) (Some (dk_key dk)) (Z.b2z after_key).
Definition view_min : ring_position_view := RingPositionView minimum_token None (-1).
Definition view_max : ring_position_view := RingPositionView maximum_token None 1.
Definition view_starting_at (t : token) : ring_position_view := RingPositionView t None bound_start.
Definition view_ending_at (t : token) : ring_position_view := RingPositionView t None bound_end.
Definition for_after_key (v : ring_position_view) : ring_position_view :=
  RingPositionView (v_token v) (v_key v) (match v_key v with Some _ => 1 | None => v_weight v end).

Definition ring_position_tri_compare (lh rh : ring_position_view) : comparison :=
  match token_compare (v_token lh) (v_token rh) with
  | Eq =>
    match v_key lh, v_key rh with
    | Some lk, Some rk =>
      match key_compare lk rk with
      | Eq => v_weight lh - v_weight rh ?= 0
      | c => c
      end
    | None, None => v_weight lh - v_weight rh ?= 0
    | None, Some _ => if v_weight lh >? 0 then Gt else Lt
    | Some _, None => if v_weight rh >? 0 then Lt else Gt
    end
  | c => c
  end.

Definition ring_position_compare (p o : ring_position) : comparison :=
  ring_position_tri_compare (view_of p false) (view_of o false).

Definition decorated_key_compare (k other : decorated_key) : comparison :=
  match token_compare (dk_token k) (dk_token other) with
  | Eq => key_compare (dk_key k) (dk_key other)
  | c => c
  end.
Definition decorated_key_compare_position (k : decorated_key) (other : ring_position) : comparison :=
  match token_compare (dk_token k) (rp_token other) with
  | Eq =>
    match rp_key other with
    | Some ok => key_compare (dk_key k) ok
    | None => 0 ?= relation_to_keys other
    end
  | c => c
  end.

(** [ring_position_comparator_for_sstables]. *)
Definition compare_for_sstables (lh : ring_position_view) (rh : decorated_key) : comparison :=
  match token_compare (v_token lh) (dk_token rh) with
  | Eq =>
    match match v_key lh with Some lk => key_compare (dk_key rh) lk | None => Eq end with
    | Eq => v_weight lh ?= 0
    | rel => CompOpp rel
    end
  | c => c
  end.

Definition partition_range : Type := wrapping_interval ring_position.

Definition for_range_start (r : partition_range) : ring_position_view :=
  match start r with Some b => view_of (b_value b) (negb (b_inclusive b)) | None => view_min end.
Definition for_range_end (r : partition_range) : ring_position_view :=
  match end_ r with Some b => view_of (b_value b) (b_inclusive b) | None => view_max end.

Definition to_partition_range (r : wrapping_interval token) : partition_range :=
  mk_interval
    ((fun b => IntervalBound (RingPosition (b_value b) (if b_inclusive b then bound_start else bound_end) None)
        (b_inclusive b)) <$> start r)
    ((fun b => IntervalBound (RingPosition (b_value b) (if b_inclusive b then bound_end else bound_start) None)
        (b_inclusive b)) <$> end_ r)
    false.

(** [first_token(const partition_range&)]. *)
Definition range_first_token (pr : partition_range) : outcome Empty_set token :=
  let start := for_range_start pr in
  let token := v_token start in
  if bool_decide (v_key start = None) && (v_weight start =? bound_end) && bool_decide (_kind token = key) && negb (is_last token)
  then next_token token
  else Ret token.

Definition is_single_shard (sh : sharder) (pr : partition_range) : outcome Empty_set (option Z) :=
  token ← range_first_token pr;
  let shard := shard_for_reads sh token in
  if is_singular pr then Ret (Some shard)
  else
    s_a_t ← next_shard_for_reads sh token;
    Ret match s_a_t with
      | Some (_, next) =>
        if bool_decide (ring_position_tri_compare (for_range_end pr) (view_starting_at next) = Gt) then None else Some shard
      | None => Some shard
      end.

(** * Dividing a range among shards *)

(** Class [ring_position_range_sharder]. *)
Record ring_position_range_sharder := RangeSharder {
  rs_range : partition_range;
  rs_done : bool;
}.

Definition range_sharder_next (sh : sharder) (st : ring_position_range_sharder) :
    outcome Empty_set (option (partition_range * Z) * ring_position_range_sharder) :=
  if rs_done st then Ret (None, st)
  else
    let range := rs_range st in
    let token := match start range with Some b => rp_token (b_value b) | None => minimum_token end in
    let shard := shard_for_reads sh token in
    next_shard_and_token ← next_shard_for_reads sh token;
    match next_shard_and_token with
    | None => Ret (Some (range, shard), RangeSharder range true)
    | Some (_, shard_boundary_token) =>
      let shard_boundary := starting_at shard_boundary_token in
      if match end_ range with
         | None => true
         | Some e => bool_decide (ring_position_compare shard_boundary (b_value e) = Lt)
         end && negb (is_maximum shard_boundary_token)
      then
        Ret (Some (mk_interval (start range) (Some (IntervalBound shard_boundary false)) false, shard),
             RangeSharder (mk_interval (Some (IntervalBound shard_boundary true)) (end_ range) false) false)
      else Ret (Some (range, shard), RangeSharder range true)
    end.

(** All results of [next], in order. *)
Fixpoint range_sharder_run (fuel : nat) (sh : sharder) (st : ring_position_range_sharder) :
    outcome Empty_set (list (partition_range * Z)) :=
  match fuel with
  | O => Abort out_of_fuel
  | S fuel =>
    '(r, st) ← range_sharder_next sh st;
    match r with
    | None => Ret []
    | Some p => ps ← range_sharder_run fuel sh st; Ret (p :: ps)
    end
  end.

(** [ret[rprs->shard].emplace_back(rprs->ring_range)]. *)
Definition add_to_shard (ret : gmap Z (list partition_range)) (p : partition_range * Z) : gmap Z (list partition_range) :=
  <[p.2 := default [] (ret !! p.2) ++ [p.1]]> ret.

Definition split_range_to_shards (fuel : nat) (pr : partition_range) (sh : sharder) :
    outcome Empty_set (gmap Z (list partition_range)) :=
  ps ← range_sharder_run fuel sh (RangeSharder pr false);
  Ret (fold_left add_to_shard ps ∅).

(** Class [ring_position_range_vector_sharder]; [vs_current] is the index of
    [_current_range] in [_ranges]. *)
Record ring_position_range_vector_sharder := VectorSharder {
  vs_ranges : list partition_range;
  vs_current : nat;
  vs_sharder : option ring_position_range_sharder;
}.

Definition next_range (st : ring_position_range_vector_sharder) : ring_position_range_vector_sharder :=
  match vs_ranges st !! vs_current st with
  | Some r => VectorSharder (vs_ranges st) (S (vs_current st)) (Some (RangeSharder r false))
  | None => st
  end.

Definition make_vector_sharder (ranges : list partition_range) : ring_position_range_vector_sharder :=
  next_range (VectorSharder ranges 0 None).

(** The loop of [next]: [fuel] is the number of ranges not yet begun. *)
Fixpoint vector_sharder_step (fuel : nat) (sh : sharder) (st : ring_position_range_vector_sharder) :
    outcome Empty_set (option (partition_range * Z * Z) * ring_position_range_vector_sharder) :=
  current ← defined (vs_sharder st);
  '(r, current) ← range_sharder_next sh current;
  let st := VectorSharder (vs_ranges st) (vs_current st) (Some current) in
  match r with
  | Some p => Ret (Some (p, Z.of_nat (vs_current st) - 1), st)
  | None =>
    if decide (vs_current st = length (vs_ranges st)) then Ret (None, st)
    else match fuel with
      | O => Abort out_of_fuel
      | S fuel => vector_sharder_step fuel sh (next_range st)
      end
  end.

Definition vector_sharder_next (sh : sharder) (st : ring_position_range_vector_sharder) :
    outcome Empty_set (option (partition_range * Z * Z) * ring_position_range_vector_sharder) :=
  match vs_sharder st with
  | None => Ret (None, st)
  | Some _ => vector_sharder_step (length (vs_ranges st)) sh st
  end.

End positions.
Arguments decorated_key : clear implicits.
Arguments ring_position : clear implicits.
Arguments ring_position_view : clear implicits.
Arguments partition_range : clear implicits.
Arguments ring_position_range_sharder : clear implicits.
Arguments ring_position_range_vector_sharder : clear implicits.

(** * Subtracting ranges *)

Section subtracting_ranges.
Context {T : Type} (cmp : T -> T -> comparison).

(** Does the range to subtract sort after the range? *)
Definition sorts_after (range_to_subtract range : wrapping_interval T) : bool :=
  match start range_to_subtract with
  | None => false
  | Some s =>
    match start range with
    | None => true
    | Some rs => bool_decide (cmp (b_value s) (b_value rs) = Gt)
    end
  end.

Fixpoint subtract_ranges_loop (fuel : nat) (ranges ranges_to_subtract res : list (wrapping_interval T)) :
    outcome Empty_set (list (wrapping_interval T)) :=
  match ranges, fuel with
  | [], _ => Ret res
  | _, O => Abort out_of_fuel
  | range :: ranges', S fuel =>
    match ranges_to_subtract with
    | [] => subtract_ranges_loop fuel ranges' [] (res ++ [range])
    | range_to_subtract :: rest =>
      diff ← subtract cmp range range_to_subtract;
      match diff with
      | [] => subtract_ranges_loop fuel ranges' ranges_to_subtract res
      | [d] =>
        if sorts_after range_to_subtract range then subtract_ranges_loop fuel ranges' ranges_to_subtract (res ++ [d])
        else subtract_ranges_loop fuel (d :: ranges') rest res
      | [d0; d1] => subtract_ranges_loop fuel (d1 :: ranges') rest (res ++ [d0])
      | _ => Abort assertion_failed
      end
    end
  end.

Definition subtract_ranges (sort : list (wrapping_interval T) -> list (wrapping_interval T))
    (source_ranges ranges_to_subtract : list (wrapping_interval T)) : outcome Empty_set (list (wrapping_interval T)) :=
  let ranges := deoverlap cmp sort source_ranges in
  subtract_ranges_loop (length ranges + length ranges_to_subtract) ranges ranges_to_subtract [].

End subtracting_ranges.

(** * Dividing the tokens by their most significant bits *)

(** The loop of [split_token_range_msb]: the ranges from the [i]-th on, with the last
    token of the one before; an inconsistent group is a fatal error. *)
Fixpoint split_token_range_loop (n : nat) (bits i : Z) (prev_last_token : token) :
    outcome string (list (wrapping_interval token)) :=
  match n with
  | O => Ret []
  | S n =>
    start_bound ← (if i =? 0 then Ret (IntervalBound minimum_token true)
      else
        t ← next_token prev_last_token;
        if negb (compaction_group_of bits t =? i) then Throw "split_token_range_msb: inconsistent end_bound compaction group"%string
        else Ret (IntervalBound prev_last_token false));
    let last := last_token_of_compaction_group bits i in
    rest ← split_token_range_loop n bits (i + 1) last;
    Ret (mk_interval (Some start_bound) (Some (IntervalBound last true)) false :: rest)
  end.

Definition split_token_range_msb (bits : Z) : outcome string (list (wrapping_interval token)) :=
  if bits =? 0 then
    Ret [mk_interval (Some (IntervalBound minimum_token true)) (Some (IntervalBound maximum_token true)) false]
  else
    let number_of_ranges := u64 (i32 (Z.shiftl 1 bits)) in
    check (bits <? 64) ;;
    split_token_range_loop (Z.to_nat number_of_ranges) bits 0 token_default.
