(* ===== verification/RingTheory.v ===== *)
(** The theorems about ring positions and the division of ranges ([Ring]): the order of
    positions is total and agrees with the comparators of partitions; a sharder divides
    a range into pieces of one shard each; subtracting ranges; splitting by the most
    significant bits. *)
From S2P Require Import Prelude Bytes Ordering Interval IntervalTheory Tokens Ring.
Open Scope Z_scope.

(** * The order of positions *)

Section order.
Context {K : Type} (key_compare : K -> K -> comparison) `{!TotalOrder key_compare}.
Local Abbreviation compare_views := (ring_position_tri_compare key_compare).
Local Abbreviation compare_positions := (ring_position_compare key_compare).

(** A position without a key lies before or after all keys of its token. *)
Definition side_of_keys (v : ring_position_view K) : Z :=
  match v_key v with Some _ => 0 | None => if v_weight v >? 0 then 1 else -1 end.

Lemma compare_views_lex lh rh :
  compare_views lh rh =
    then_compare (token_compare (v_token lh) (v_token rh))
      (then_compare (side_of_keys lh ?= side_of_keys rh)
        (then_compare (list_compare key_compare (option_list (v_key lh)) (option_list (v_key rh)))
          (v_weight lh ?= v_weight rh))).
Proof.
  destruct lh as [lt lk lw], rh as [rt rk rw]. unfold ring_position_tri_compare, side_of_keys. simpl.
  replace (lw - rw ?= 0) with (lw ?= rw) by (zcompare; try done; lia).
  destruct (token_compare lt rt); [|done..].
  destruct lk as [lk|], rk as [rk|]; simpl.
  - by destruct (key_compare lk rk).
  - by destruct (rw >? 0).
  - by destruct (lw >? 0).
  - destruct (Z.gtb_spec lw 0), (Z.gtb_spec rw 0); simpl; zcompare; try done; lia.
Qed.

#[export] Instance compare_views_total : TotalOrder compare_views.
Proof.
  pose proof (lex_total (list_compare key_compare) Z.compare
    (fun v : ring_position_view K => option_list (v_key v)) v_weight) as Hkey.
  pose proof (lex_total Z.compare _ side_of_keys (fun v : ring_position_view K => v) (TotalOrder1 := Hkey)) as Hside.
  pose proof (lex_total token_compare _ v_token (fun v : ring_position_view K => v) (TotalOrder1 := Hside)) as [Hrefl Hsym Htrans].
  split; intros *; rewrite !compare_views_lex; [apply Hrefl|apply Hsym|apply Htrans].
Qed.

#[export] Instance compare_positions_total : TotalOrder compare_positions.
Proof. apply (by_key_total compare_views (fun p => view_of p false)). Qed.

Lemma compare_views_token lh rh : compare_views lh rh <> Gt -> token_compare (v_token lh) (v_token rh) <> Gt.
Proof. unfold ring_position_tri_compare. by destruct (token_compare (v_token lh) (v_token rh)). Qed.

Lemma compare_views_lt_token lh rh : token_compare (v_token lh) (v_token rh) = Lt -> compare_views lh rh = Lt.
Proof. unfold ring_position_tri_compare. by intros ->. Qed.

(** What the constructors establish: a position without a key is before or after the keys. *)
Definition view_ok (v : ring_position_view K) : Prop :=
  v_key v = None -> v_weight v = bound_start \/ v_weight v = bound_end.
Definition position_ok (p : ring_position K) : Prop := view_ok (view_of p false).

(** The comparators of partitions and positions. They define one total order: each of the
    comparators of a partition with a partition, with a position and with a position of an
    sstable index is the comparator of positions, applied to the positions of the partitions. *)
Theorem ring_order_correct (dk other : decorated_key K) (p : ring_position K) (v : ring_position_view K) :
  position_ok p -> view_ok v ->
  TotalOrder compare_views /\
  decorated_key_compare key_compare dk other = compare_views (view_of_key dk false) (view_of_key other false) /\
  decorated_key_compare_position key_compare dk p = compare_views (view_of_key dk false) (view_of p false) /\
  compare_for_sstables key_compare v dk = compare_views v (view_of_key dk false).
Proof.
  intros Hp Hv. split; [apply _|]. destruct dk as [t k], other as [ot ok], p as [pt pb pk], v as [vt vk vw].
  unfold position_ok, view_ok, bound_start, bound_end, view_of, relation_to_keys in Hp, Hv. simpl in Hp, Hv.
  unfold decorated_key_compare, decorated_key_compare_position, compare_for_sstables, ring_position_tri_compare,
    view_of, view_of_key, relation_to_keys. simpl. split_and!.
  - destruct (token_compare t ot); [|done..]. by destruct (key_compare k ok).
  - destruct (token_compare t pt); [|done..]. destruct pk as [pk|]; [by destruct (key_compare k pk)|].
    destruct (Hp eq_refl) as [->| ->]; done.
  - destruct (token_compare vt t); [|done..]. destruct vk as [vk|].
    + rewrite (cmp_sym key_compare k vk). replace (vw - 0) with vw by lia. by destruct (key_compare k vk).
    + destruct (Hv eq_refl) as [->| ->]; done.
Qed.

End order.

(** * Dividing a range among shards *)

Section sharding.
Context {K : Type} (key_compare : K -> K -> comparison) `{!TotalOrder key_compare}.
Context (sh : sharder) `{!SharderLaws sh}.
Local Abbreviation cmp := (ring_position_compare key_compare).
Local Notation "a ≺ b" := (cut_compare cmp a b = Lt) (at level 70).
Local Notation "a ≼ b" := (cut_compare cmp a b <> Gt) (at level 70).
Local Ltac rank_lia ps := rank_with (cut_compare cmp) ps.

(** The partition of a token and a key is in a range. *)
Definition has_partition (r : partition_range K) (dk : decorated_key K) : Prop :=
  covers cmp r (position_of_key dk).

Definition start_token (r : partition_range K) : token :=
  match start r with Some b => rp_token (b_value b) | None => minimum_token end.

(** The tokens at the ends of a range are 64-bit integers. *)
Definition range_tokens_ok (r : partition_range K) : Prop := valid_token (start_token r).

Lemma cmp_token p q : cmp p q <> Gt -> token_compare (rp_token p) (rp_token q) <> Gt.
Proof. apply (compare_views_token key_compare (view_of p false) (view_of q false)). Qed.

Lemma cmp_lt_token p q : token_compare (rp_token p) (rp_token q) = Lt -> cmp p q = Lt.
Proof. apply (compare_views_lt_token key_compare (view_of p false) (view_of q false)). Qed.

Lemma start_token_le r dk :
  is_wrap_around cmp r = false -> legal_token (dk_token dk) -> has_partition r dk ->
  token_compare (start_token r) (dk_token dk) <> Gt.
Proof.
  intros Hw [Hk _] Hin. unfold has_partition in Hin. apply covers_plain in Hin as [Hlo _]; [|done..].
  apply after_start_cut in Hlo. unfold after_start in Hlo. unfold start_token.
  destruct (start r) as [b|].
  - apply (cmp_token (b_value b) (position_of_key dk)). by destruct Hlo as [->|[_ ->]].
  - unfold token_compare. by rewrite Hk.
Qed.

(** A partition before the first position of a token has a smaller token. *)
Lemma before_starting_at dk t :
  cmp (position_of_key dk) (starting_at t) = Lt -> token_compare (dk_token dk) t = Lt.
Proof.
  unfold ring_position_compare, ring_position_tri_compare. simpl.
  by destruct (token_compare (dk_token dk) t).
Qed.

(** One step of [ring_position_range_sharder::next]. *)
Inductive sharder_step (r : partition_range K) (shard : Z) : partition_range K -> option (partition_range K) -> Prop :=
| step_last :
    (forall dk, legal_token (dk_token dk) -> has_partition r dk -> shard_for_reads sh (dk_token dk) = shard) ->
    sharder_step r shard r None
| step_split piece rest :
    plain cmp piece -> plain cmp rest -> hi piece ≼ lo rest ->
    (forall x, covers cmp r x <-> covers cmp piece x \/ covers cmp rest x) ->
    (forall dk, legal_token (dk_token dk) -> has_partition piece dk -> shard_for_reads sh (dk_token dk) = shard) ->
    legal_token (start_token rest) -> token_compare (start_token r) (start_token rest) = Lt ->
    shard_for_reads sh (start_token rest) <> shard ->
    lo piece = lo r -> 
    sharder_step r shard piece (Some rest).

Lemma range_sharder_next_spec r :
  plain cmp r -> range_tokens_ok r ->
  exists piece rest, sharder_step r (shard_for_reads sh (start_token r)) piece rest /\
  range_sharder_next key_compare sh (RangeSharder r false) =
    Ret (Some (piece, shard_for_reads sh (start_token r)),
         match rest with None => RangeSharder r true | Some rest => RangeSharder rest false end).
Proof.
  intros Hr Htok. unfold range_sharder_next. simpl. fold (start_token r).
  destruct (next_shard_law (start_token r) Htok) as (o & -> & Ho). simpl.
  assert (forall dk, legal_token (dk_token dk) -> has_partition r dk -> token_compare (start_token r) (dk_token dk) <> Gt) as Hle.
  { intros. apply start_token_le; [apply Hr|done..]. }
  destruct o as [[s t]|]; [|exists r, None; split; [apply step_last; intros; apply Ho; auto|done]..].
  destruct Ho as (Ht & Hlt & Hst & Hne & Hown). assert (is_maximum t = false) as -> by (unfold is_maximum; by rewrite (proj1 Ht)).
  rewrite andb_true_r. set (B := starting_at t : ring_position K).
  assert (lo r ≺ Below B) as HloB.
  { unfold lo. unfold start_token in Hlt. destruct (start r) as [[v []]|]; simpl; [| |done].
    all: by rewrite (cmp_lt_token v B Hlt). }
  assert (match end_ r with None => true | Some e => bool_decide (cmp B (b_value e) = Lt) end = true ->
    Below B ≺ hi r) as HBhi.
  { unfold hi. destruct (end_ r) as [[v []]|]; simpl; [| |done]; rewrite bool_decide_eq_true; by intros ->. }
  assert (match end_ r with None => true | Some e => bool_decide (cmp B (b_value e) = Lt) end = false ->
    hi r ≼ Above B) as HhiB.
  { unfold hi. destruct (end_ r) as [[v []]|]; simpl; [| |done]; rewrite bool_decide_eq_false;
      rewrite (cmp_sym cmp B v); by destruct (cmp B v). }
  destruct (match end_ r with None => true | Some e => _ end).
  - set (piece := mk_interval (start r) (Some (IntervalBound B false)) false).
    set (rest := mk_interval (Some (IntervalBound B true)) (end_ r) false).
    specialize (HBhi eq_refl).
    assert (plain cmp piece) as Hpiece by (apply (plain_mk cmp); exact HloB).
    assert (plain cmp rest) as Hrest by (apply (plain_mk cmp); exact HBhi).
    exists piece, (Some rest). split; [|done]. constructor; try done.
    + change (Below B ≼ Below B). rank_lia [Below B].
    + intros x. rewrite !covers_plain_cut by done. change (lo piece) with (lo r). change (hi piece) with (Below B).
      change (lo rest) with (Below B). change (hi rest) with (hi r). pose proof (point_cut cmp x (Below B)).
      rank_lia [lo r; hi r; Below B; Below x; Above x].
    + intros dk Hdk Hin. apply Hown; [done| |].
      * by apply (start_token_le piece dk (proj2 Hpiece)).
      * unfold has_partition in Hin. apply covers_plain_cut in Hin as [_ Hin]; [|done..].
        apply before_starting_at. fold B. change (hi piece) with (Below B) in Hin. unfold cut_compare in Hin.
        by destruct (cmp (position_of_key dk) B).
    + change (shard_for_reads sh t <> shard_for_reads sh (start_token r)). by rewrite Hst.
  - exists r, None. split; [|done]. apply step_last. intros dk Hdk Hin. apply Hown; [done|by apply Hle|].
    unfold has_partition in Hin. apply covers_plain_cut in Hin as [_ Hin]; [|done..].
    apply before_starting_at. fold B. specialize (HhiB eq_refl).
    assert (Above (position_of_key dk) ≼ Above B) as Hab by (rank_lia [Above (position_of_key dk); Above B; hi r]).
    unfold cut_compare in Hab. destruct (cmp (position_of_key dk) B) eqn:Hc; [|done|done].
    exfalso. revert Hc. unfold ring_position_compare, ring_position_tri_compare. simpl.
    by destruct (token_compare (dk_token dk) t).
Qed.

(** The pieces of a range: ordered, together the range, each of one shard, and no two
    in a row of the same. *)
Record pieces_ok (r : partition_range K) (ps : list (partition_range K * Z)) : Prop := {
  pieces_ok_plain : Forall (fun p => plain cmp p.1) ps;
  pieces_ok_ordered : disjoint_ordered cmp ps.*1;
  pieces_ok_cover x : covers cmp r x <-> exists p, p ∈ ps /\ covers cmp p.1 x;
  pieces_ok_owner p dk : p ∈ ps -> legal_token (dk_token dk) -> has_partition p.1 dk ->
    shard_for_reads sh (dk_token dk) = p.2;
  pieces_ok_alternate : Sorted (fun p q => p.2 <> q.2) ps;
}.

(** How far the start of a range is from the end of the ring. *)
Definition tokens_left (t : token) : nat := Z.to_nat (2 ^ 64 - search_pos t).

Lemma tokens_left_lt t u :
  valid_token t -> legal_token u -> _kind t <> after_all_keys -> token_compare t u = Lt ->
  (tokens_left u < tokens_left t)%nat.
Proof.
  intros Ht Hu Hk Htu. apply search_pos_lt in Htu; [|done..]. unfold tokens_left.
  pose proof (search_pos_range t Ht). pose proof (token_pos_range u (legal_valid u Hu)).
  assert (search_pos u = token_pos u) as -> by (unfold search_pos; by rewrite (proj1 Hu)). lia.
Qed.

Lemma range_sharder_run_spec fuel : forall r,
  plain cmp r -> range_tokens_ok r -> (tokens_left (start_token r) + 1 < fuel)%nat ->
  exists ps, range_sharder_run key_compare fuel sh (RangeSharder r false) = Ret ps /\ pieces_ok r ps /\
    exists p ps', ps = p :: ps' /\ p.2 = shard_for_reads sh (start_token r) /\ lo p.1 = lo r.
Proof.
  induction fuel as [|fuel IH]; intros r Hr Htok Hfuel; [lia|]. cbn [range_sharder_run].
  destruct (range_sharder_next_spec r Hr Htok) as (piece & rest & Hstep & ->). cbn [mbind outcome_bind].
  destruct Hstep as [Hown|piece rest Hpiece Hrest Hord Hcov Hown Hleg Hlt Hne Hlo].
  - destruct fuel as [|fuel]; [lia|]. cbn. eexists. split; [done|]. split; [|by eexists _, _].
    split; simpl.
    + by constructor.
    + by repeat constructor.
    + intros x. set_solver.
    + intros p dk ->%list_elem_of_singleton. apply Hown.
    + by repeat constructor.
  - assert (_kind (start_token r) <> after_all_keys) as Hk.
    { intros Hk. unfold token_compare in Hlt. rewrite Hk, (proj1 Hleg) in Hlt. done. }
    pose proof (tokens_left_lt _ _ Htok Hleg Hk Hlt).
    destruct (IH rest) as (ps & -> & [Hpl Ho Hc Hw Ha] & p & ps' & -> & Hp & Hplo); [done|by apply legal_valid|lia|].
    cbn [mbind outcome_bind]. eexists. split; [done|]. split; [|by eexists _, _]. split.
    + by constructor.
    + apply (disjoint_ordered_cut cmp) in Ho. apply (disjoint_ordered_cut cmp). rewrite fmap_cons in *. constructor; [exact Ho|].
      apply Forall_forall. intros q Hq. cbn [fst].
      assert (Forall (plain cmp) (p.1 :: ps'.*1)) as Hpl' by (rewrite <- fmap_cons; by apply Forall_fmap).
      pose proof (ordered_first cmp _ _ q Hpl' Ho Hq) as Hfirst. rewrite Hplo in Hfirst.
      rank_lia [hi piece; lo rest; lo q].
    + intros x. rewrite Hcov, Hc. set_solver.
    + intros q dk [->|Hq]%elem_of_cons; [apply Hown|by apply Hw].
    + constructor; [done|]. constructor. cbn [snd]. rewrite Hp. by intros Heq.
Qed.

(** C36: [ring_position_range_sharder]. The calls of [next] come to an end, and return the pieces of
    the range: in order and without overlap, together covering exactly the positions of the range;
    every partition of a piece is owned by the shard the piece is returned with; and successive
    pieces belong to different shards, so none could be longer. *)
Theorem range_sharder_correct (r : partition_range K) :
  plain cmp r -> range_tokens_ok r ->
  exists fuel ps, range_sharder_run key_compare fuel sh (RangeSharder r false) = Ret ps /\ pieces_ok r ps.
Proof.
  intros Hr Htok. eexists. destruct (range_sharder_run_spec _ r Hr Htok (Nat.lt_succ_diag_r _)) as (ps & ? & ? & _).
  by exists ps.
Qed.

(** The pieces of one shard are collected in order. *)
Lemma add_to_shard_lookup (ps : list (partition_range K * Z)) s m :
  default [] (fold_left add_to_shard ps m !! s) =
  default [] (m !! s) ++ (filter (fun p => p.2 = s) ps).*1.
Proof.
  revert m. induction ps as [|[r t] ps IH]; intros m; [by rewrite app_nil_r|].
  cbn [fold_left]. rewrite IH, filter_cons. unfold add_to_shard. cbn [fst snd]. case_decide as Hs.
  - subst t. rewrite lookup_insert_eq. simpl. by rewrite <- (assoc_L (++)).
  - by rewrite lookup_insert_ne by done.
Qed.

Lemma ordered_filter (ps : list (partition_range K * Z)) s :
  disjoint_ordered cmp ps.*1 -> disjoint_ordered cmp (filter (fun p => p.2 = s) ps).*1.
Proof.
  induction ps as [|p ps IH]; [done|]. rewrite fmap_cons, filter_cons. intros [Hf Ho]%StronglySorted_cons.
  case_decide; [|by apply IH]. rewrite fmap_cons. constructor; [by apply IH|].
  apply Forall_forall. intros q (p' & -> & [_ Hp']%list_elem_of_filter)%list_elem_of_fmap.
  rewrite Forall_forall in Hf. apply Hf. by apply list_elem_of_fmap_2.
Qed.

(** [split_range_to_shards] returns, and gives each shard a sorted list of disjoint ranges that
    has exactly the partitions of the given range that the shard owns. *)
Theorem split_range_to_shards_correct (r : partition_range K) :
  plain cmp r -> range_tokens_ok r ->
  exists fuel m, split_range_to_shards key_compare fuel r sh = Ret m /\
  forall s, let rs := default [] (m !! s) in
    disjoint_ordered cmp rs /\ Forall (plain cmp) rs /\
    forall dk, legal_token (dk_token dk) ->
      has_partition r dk /\ shard_for_reads sh (dk_token dk) = s <-> exists p, p ∈ rs /\ has_partition p dk.
Proof.
  intros Hr Htok. destruct (range_sharder_run_spec _ r Hr Htok (Nat.lt_succ_diag_r _)) as (ps & Hps & [Hpl Ho Hc Hw Ha] & _).
  eexists _, _. unfold split_range_to_shards. rewrite Hps. split; [done|]. intros s.
  rewrite add_to_shard_lookup, lookup_empty. cbn [default app].
  split_and!.
  - by apply ordered_filter.
  - apply Forall_forall. intros q (p & -> & [_ Hp]%list_elem_of_filter)%list_elem_of_fmap.
    rewrite Forall_forall in Hpl. by apply Hpl.
  - intros dk Hdk. unfold has_partition at 1. rewrite Hc. split.
    + intros [(p & Hp & Hin) Hs]. exists p.1. split; [|done]. apply list_elem_of_fmap. exists p. split; [done|].
      apply list_elem_of_filter. split; [|done]. rewrite <- Hs. symmetry. by apply Hw.
    + intros (q & (p & -> & [Hs Hp]%list_elem_of_filter)%list_elem_of_fmap & Hin).
      split; [by exists p|]. rewrite <- Hs. by apply Hw.
Qed.

(** ** Ranges of one shard *)

(** The first token that partitions of a range can have. *)
Lemma range_first_token_spec r :
  plain cmp r -> range_tokens_ok r ->
  (forall b, start r = Some b -> position_ok (b_value b)) ->
  exists t, range_first_token r = Ret t /\ valid_token t /\
  forall dk, legal_token (dk_token dk) -> has_partition r dk -> token_compare t (dk_token dk) <> Gt.
Proof.
  intros Hr Htok Hpos. unfold range_first_token.
  assert (v_token (for_range_start r) = start_token r) as Hv.
  { unfold for_range_start, start_token. by destruct (start r). }
  rewrite Hv. unfold is_last, bound_end.
  destruct (bool_decide (v_key (for_range_start r) = None)) eqn:Hkey; simpl.
  2:{ exists (start_token r). split_and!; [done..|]. intros. apply start_token_le; [apply Hr|done..]. }
  destruct (Z.eqb_spec (v_weight (for_range_start r)) 1) as [Hw|]; simpl.
  2:{ exists (start_token r). split_and!; [done..|]. intros. apply start_token_le; [apply Hr|done..]. }
  destruct (bool_decide (_kind (start_token r) = key)) eqn:Hk; simpl.
  2:{ exists (start_token r). split_and!; [done..|]. intros. apply start_token_le; [apply Hr|done..]. }
  destruct (Z.eqb_spec (_data (start_token r)) int64_max) as [|Hnl]; simpl.
  { exists (start_token r). split_and!; [done..|]. intros. apply start_token_le; [apply Hr|done..]. }
  apply bool_decide_eq_true in Hkey, Hk. unfold next_token, int64_succ. replace (_data (start_token r) =? int64_max) with false by lia.
  eexists. split; [done|]. unfold range_tokens_ok, valid_token, fits_signed, int64_max in *. cbn [_data].
  split; [lia|]. intros dk Hdk Hin.
  assert (token_compare (start_token r) (dk_token dk) = Lt) as Hlt.
  { pose proof (start_token_le r dk (proj2 Hr) Hdk Hin) as Hle.
    unfold has_partition in Hin. apply covers_plain_cut in Hin as [Hlo _]; [|done..].
    apply after_start_cut in Hlo. unfold after_start in Hlo. unfold start_token, for_range_start in *.
    destruct (start r) as [[[bt bb bk] bi]|]; [|by apply (f_equal v_weight) in Hw || simpl in *].
    simpl in *. subst bk. unfold relation_to_keys in Hw. simpl in Hw. subst bb.
    unfold ring_position_compare, ring_position_tri_compare in Hlo. simpl in Hlo.
    destruct (token_compare bt (dk_token dk)); [|done|done]. by destruct Hlo as [|[_ ?]]. }
  rewrite compare_keys, Z.compare_lt_iff in Hlt by (done || apply Hdk).
  rewrite compare_keys, Z.compare_le_iff by (done || apply Hdk). unfold token_pos in *. cbn [_data]. lia.
Qed.

(** The positions that [for_range_end] gives the end of a range. *)
Lemma before_range_end r dk :
  plain cmp r -> legal_token (dk_token dk) -> has_partition r dk ->
  ring_position_tri_compare key_compare (view_of_key dk false) (for_range_end r) = Lt.
Proof.
  intros Hr [Hk _] Hin. unfold has_partition in Hin. apply covers_plain_cut in Hin as [_ Hhi]; [|done..].
  apply before_end_cut in Hhi. unfold before_end in Hhi. unfold for_range_end.
  destruct (end_ r) as [[[bt bb bk] bi]|]; simpl in *.
  2:{ apply compare_views_lt_token. unfold token_compare. simpl. by rewrite Hk. }
  unfold ring_position_compare, ring_position_tri_compare in *. simpl in *.
  destruct (token_compare (dk_token dk) bt); [|done|by destruct Hhi as [|[_ ?]]].
  destruct bk as [bk|]; simpl in *.
  - destruct (key_compare (dk_key dk) bk); [|done|by destruct Hhi as [|[_ ?]]].
    by destruct Hhi as [|[-> _]].
  - destruct (relation_to_keys (RingPosition bt bb None) >? 0); [done|]. by destruct Hhi as [|[_ ?]].
Qed.

Lemma token_compare_eq t u : legal_token u -> token_compare t u = Eq -> t = u.
Proof.
  intros [Hk _] Heq. assert (_kind t = key) as Hkt.
  { unfold token_compare in Heq. rewrite Hk in Heq. by destruct (_kind t). }
  rewrite compare_keys, Z.compare_eq_iff in Heq by done. unfold token_pos in Heq.
  destruct t, u; simpl in *; subst. f_equal. lia.
Qed.

(** [is_single_shard] returns; if it names a shard, the shard owns all partitions of the range,
    and if it does not, another shard than that of the first token begins inside the range. *)
Theorem is_single_shard_correct (r : partition_range K) :
  plain cmp r -> range_tokens_ok r -> (forall b, start r = Some b -> position_ok (b_value b)) ->
  exists o, is_single_shard key_compare sh r = Ret o /\
  match o with
  | Some s => forall dk, legal_token (dk_token dk) -> has_partition r dk -> shard_for_reads sh (dk_token dk) = s
  | None => exists t b, range_first_token r = Ret t /\ legal_token b /\ token_compare t b = Lt /\
      shard_for_reads sh b <> shard_for_reads sh t /\
      ring_position_tri_compare key_compare (view_starting_at b) (for_range_end r) = Lt
  end.
Proof.
  intros Hr Htok Hpos. unfold is_single_shard.
  destruct (range_first_token_spec r Hr Htok Hpos) as (t & Ht & Hval & Hle). rewrite Ht. cbn [mbind outcome_bind].
  destruct (is_singular r) eqn:Hsing.
  { eexists. split; [done|]. intros dk Hdk Hin. f_equal.
    destruct Hr as [Hwf _]. unfold is_singular in Hsing. destruct (Hwf Hsing) as [_ [v Hv]].
    unfold has_partition, covers in Hin. unfold is_wrap_around in Hin. rewrite (proj1 (Hwf Hsing)) in Hin.
    unfold after_start, before_end, start, end_ in Hin. rewrite Hsing, Hv in Hin. simpl in Hin.
    assert (cmp v (position_of_key dk) = Eq) as Heq by (rank_with (ring_position_compare key_compare) [v; position_of_key dk]).
    symmetry. apply token_compare_eq; [done|].
    assert (t = rp_token v) as ->.
    { unfold range_first_token, for_range_start, start in Ht. rewrite Hv in Ht. simpl in Ht.
      destruct (rp_key v) as [k|] eqn:Hk; [by injection Ht as <-|]. exfalso. revert Heq.
      unfold ring_position_compare, ring_position_tri_compare. simpl. rewrite Hk.
      destruct (token_compare (rp_token v) (dk_token dk)); [|done..]. by destruct (relation_to_keys v >? 0). }
    revert Heq. unfold ring_position_compare, ring_position_tri_compare. simpl.
    by destruct (token_compare (rp_token v) (dk_token dk)). }
  destruct (next_shard_law t Hval) as (o & -> & Ho). cbn [mbind outcome_bind]. eexists. split; [done|].
  destruct o as [[s b]|]; [|by intros dk Hdk Hin; apply Ho; [done|apply Hle]].
  destruct Ho as (Hleg & Hlt & Hs & Hne & Hown). case_bool_decide as Hend.
  - exists t, b. split_and!; [done..|by rewrite Hs|].
    rewrite (cmp_sym (ring_position_tri_compare key_compare) (for_range_end r)). by rewrite Hend.
  - intros dk Hdk Hin. apply Hown; [done|by apply Hle|]. pose proof (before_range_end r dk Hr Hdk Hin) as Hbefore.
    apply before_starting_at.
    change (ring_position_tri_compare key_compare (view_of_key dk false) (view_starting_at b) = Lt).
    by eapply (cmp_lt_le_trans (ring_position_tri_compare key_compare)).
Qed.

End sharding.

(** * Subtracting ranges *)

Section subtracting.
Context {T : Type} (cmp : T -> T -> comparison) `{!TotalOrder cmp}.
Local Notation "a ≺ b" := (cut_compare cmp a b = Lt) (at level 70).
Local Notation "a ≼ b" := (cut_compare cmp a b <> Gt) (at level 70).
Local Ltac rank_lia ps := rank_with (cut_compare cmp) ps.
Implicit Types (r s p : wrapping_interval T) (rs ss res : list (wrapping_interval T)).

(** The difference of two intervals that do not wrap around: what is left before and
    after the second. *)
Lemma subtract_plain r s :
  plain cmp r -> plain cmp s ->
  subtract cmp r s = Ret (if decide (lo s ≺ hi r /\ lo r ≺ hi s) then cut_out cmp r s else [r]).
Proof.
  intros Hr Hs. unfold subtract, pieces. rewrite (proj2 Hr), (proj2 Hs).
  pose proof Hr as [_ Hlr]%(plain_cut cmp). pose proof Hs as [_ Hls]%(plain_cut cmp).
  change subtract_fuel with (S (S (S 95))). generalize 95%nat as f. intros f. destruct (decide _) as [[H1 H2]|Hno].
  - rewrite subtract_overlap_step, (right_id_L [] (++)) by done.
    destruct (cut_out_cases cmp r s) as (la & lb & -> & Ha & Hb).
    assert (forall b, lo b = hi s -> hi s ≼ lo b) as Hpop by (intros b ->; rank_lia [hi s]).
    assert (forall fuel b res, lo b = hi s -> subtract_loop cmp (S fuel) [b] [s] res = Ret (res ++ [b])) as Hlast.
    { intros fuel b res Hlb. cbn [subtract_loop]. rewrite lt_start_cut by done. rewrite bool_decide_eq_true_2 by auto.
      by destruct fuel. }
    assert (forall fuel a l res, lo a = lo r -> hi a = lo s ->
      subtract_loop cmp (S fuel) (a :: l) [s] res = subtract_loop cmp fuel l [s] (res ++ [a])) as Hfirst.
    { intros fuel a l res Hla Hha. cbn [subtract_loop]. rewrite !lt_start_cut by done.
      rewrite (bool_decide_eq_false_2 (hi s ≼ lo a)) by (rewrite Hla; rank_lia [hi s; lo r; lo s]).
      by rewrite (bool_decide_eq_true_2 (hi a ≼ lo s)) by (rewrite Hha; rank_lia [lo s]). }
    destruct Ha as [[-> _]|(a & -> & _ & Hla & Hha & Hlt)]; simpl app; [|rewrite Hfirst by done];
      (destruct Hb as [[-> _]|(b & -> & _ & Hlb & _)]; [done|]); by rewrite Hlast.
  - cbn [subtract_loop]. rewrite !lt_start_cut by done. case_bool_decide as Hc; [done|].
    rewrite bool_decide_eq_true_2 by (rank_lia [lo s; hi s; lo r; hi r]). done.
Qed.

(** The comparison that decides whether a range to subtract sorts after a range looks at
    the values of their starts only. It is wrong for a range that begins with a value and
    one to subtract that begins right after the same value. *)
Definition starts_clash (b c : option (interval_bound T)) : Prop :=
  match b, c with
  | Some b, Some c => b_inclusive b = true /\ b_inclusive c = false /\ cmp (b_value b) (b_value c) = Eq
  | _, _ => False
  end.

Lemma sorts_after_cut r s : ~ starts_clash (start r) (start s) -> sorts_after cmp s r = bool_decide (lo r ≺ lo s).
Proof.
  unfold starts_clash, sorts_after, lo. intros Hclash.
  destruct (start r) as [[b []]|], (start s) as [[c []]|]; try done; simpl; unfold cut_compare;
    rewrite (cmp_sym cmp b c); destruct (cmp b c) eqn:Hbc; repeat case_bool_decide; try done; naive_solver.
Qed.

(** Where a range continues after the end of one that was subtracted. *)
Definition after_end (s : wrapping_interval T) : option (interval_bound T) :=
  (fun e => IntervalBound (b_value e) (negb (b_inclusive e))) <$> end_ s.

(** No range to subtract begins right after the value that a range, or what is left of one
    after another range was subtracted, begins with. *)
Definition clash_free (rs ss : list (wrapping_interval T)) : Prop :=
  forall s, s ∈ ss ->
    (forall r, r ∈ rs -> ~ starts_clash (start r) (start s)) /\
    (forall s', s' ∈ ss -> ~ starts_clash (after_end s') (start s)).

(** The pieces of a difference, with where they begin. *)
Lemma cut_out_parts r s : lo s ≺ hi r -> lo r ≺ hi s -> plain cmp r -> plain cmp s ->
  exists la lb, cut_out cmp r s = la ++ lb /\
  (la = [] /\ lo s ≼ lo r \/ exists a, la = [a] /\ plain cmp a /\ lo a = lo r /\ hi a = lo s /\ lo r ≺ lo s) /\
  (lb = [] /\ hi r ≼ hi s \/
   exists b, lb = [b] /\ plain cmp b /\ lo b = hi s /\ hi b = hi r /\ hi s ≺ hi r /\ start b = after_end s).
Proof.
  intros H1 H2 Hr Hs. destruct (cut_out_cases cmp r s) as (la & lb & Heq & Ha & Hb).
  exists la, lb. split; [done|]. split.
  - destruct Ha as [|(a & -> & ? & Hla & Hha & ?)]; [by left|right]. exists a. split_and!; try done.
    apply plain_cut; [done|]. by rewrite Hla, Hha.
  - destruct Hb as [|(b & -> & ? & Hlb & Hhb & ?)]; [by left|right]. exists b. split_and!; try done.
    + apply plain_cut; [done|]. by rewrite Hlb, Hhb.
    + unfold cut_out in Heq. rewrite (bool_decide_eq_true_2 (hi s ≺ hi r)) in Heq by done.
      unfold after_end. destruct (end_ s) as [e|] eqn:He.
      * apply app_inj_tail in Heq as [_ <-]. done.
      * destruct (end_given cmp r s) as [e He']; [done|congruence].
Qed.

Record subtraction_state (rs ss res : list (wrapping_interval T)) : Prop := {
  st_ranges : Forall (plain cmp) rs;
  st_subtrahends : Forall (plain cmp) ss;
  st_result : Forall (plain cmp) res;
  st_ordered : ordered cmp (res ++ rs);
  st_subtrahends_ordered : ordered cmp ss;
  st_clash_free : clash_free rs ss;
}.

Lemma ordered_replace res r rs ps :
  ordered cmp (res ++ r :: rs) -> ordered cmp ps -> Forall (fun p => lo r ≼ lo p /\ hi p ≼ hi r) ps ->
  ordered cmp (res ++ ps ++ rs).
Proof.
  intros (Hres & Hrs & Hle)%ordered_app Hps Hin. apply StronglySorted_cons in Hrs as [Hr Hrs].
  rewrite Forall_forall in Hr, Hin. rewrite !ordered_app by done. split_and!; [done..| |].
  - intros p q Hp Hq. specialize (Hr q Hq). destruct (Hin p Hp). rank_lia [hi p; hi r; lo q].
  - intros p q Hp [Hq|Hq]%elem_of_app; [|by apply Hle; [|right]].
    pose proof (Hle p r Hp (list_elem_of_here _ _)). destruct (Hin q Hq). rank_lia [hi p; lo r; lo q].
Qed.

(** What comes later in an ordered list lies above. *)
Lemma covers_later p l x : ordered cmp (p :: l) -> Forall (plain cmp) l -> covers_any cmp l x -> hi p ≼ Below x.
Proof.
  intros [Hp _]%StronglySorted_cons Hl [q [Hq Hx]]%Exists_exists. rewrite Forall_forall in Hp, Hl.
  specialize (Hp q Hq). apply covers_plain_cut in Hx as [Hx _]; [|by auto..]. rank_lia [hi p; lo q; Below x].
Qed.

Lemma clash_free_sub rs rs' ss ss' :
  clash_free rs ss -> (forall r, r ∈ rs' -> r ∈ rs \/ exists s, s ∈ ss /\ start r = after_end s) ->
  (forall s, s ∈ ss' -> s ∈ ss) -> clash_free rs' ss'.
Proof.
  intros Hcf Hrs Hss s Hs. destruct (Hcf s (Hss s Hs)) as [H1 H2]. split.
  - intros r Hr. destruct (Hrs r Hr) as [?|(s' & Hs' & ->)]; auto.
  - auto.
Qed.

(** The state after a step that puts [out] in the result and keeps [left] of the range. *)
Lemma subtraction_step r rs s ss ss' res out left :
  subtraction_state (r :: rs) (s :: ss) res ->
  Forall (plain cmp) (out ++ left) -> ordered cmp (out ++ left) ->
  Forall (fun p => lo r ≼ lo p /\ hi p ≼ hi r) (out ++ left) ->
  Forall (fun p => start p = start r \/ start p = after_end s) left ->
  ss' = s :: ss \/ ss' = ss ->
  subtraction_state (left ++ rs) ss' (res ++ out).
Proof.
  intros [Hr Hs Hres Ho Hso Hcf] Hpl Hpo Hin Hst Hss'.
  apply Forall_cons in Hr as [Hr Hrs]. apply Forall_app in Hpl as [Hout Hleft].
  assert (forall p, p ∈ ss' -> p ∈ s :: ss) as Hsub by (destruct Hss' as [->| ->]; [done|by right]).
  split.
  - by apply Forall_app.
  - rewrite Forall_forall in *. auto.
  - by apply Forall_app.
  - rewrite <- (assoc_L (++)), (assoc_L (++) out). by eapply ordered_replace.
  - destruct Hss' as [->| ->]; [done|]. by apply StronglySorted_cons in Hso as [_ ?].
  - intros t Ht. destruct (Hcf t (Hsub t Ht)) as [H1 H2]. split; [|auto].
    intros q [Hq|Hq]%elem_of_app; [|apply H1; by right]. rewrite Forall_forall in Hst.
    destruct (Hst q Hq) as [->| ->]; [apply H1; left|apply H2; left].
Qed.

(** Decides a goal about the points of two intervals that do not wrap around. *)
Local Ltac points x r s :=
  rewrite ?(covers_plain_cut cmp r), ?(covers_plain_cut cmp s) by done;
  pose proof (below_above cmp x); pose proof (point_cut cmp x (lo s)); pose proof (point_cut cmp x (hi s));
  pose proof (point_cut cmp x (hi r)); rank_lia [lo r; hi r; lo s; hi s; Below x; Above x].

(** What one iteration does with a range and one to subtract: [out] goes to the result,
    [left] stays, and [ss'] are left to subtract. *)
Record iteration (r : wrapping_interval T) rs (s : wrapping_interval T) ss out left ss' : Prop := {
  it_subtrahends : ss' = s :: ss \/ ss' = ss;
  it_shorter : (length left + length ss' < 2 + length ss)%nat;
  it_plain : Forall (plain cmp) (out ++ left);
  it_ordered : ordered cmp (out ++ left);
  it_inside : Forall (fun p => lo r ≼ lo p /\ hi p ≼ hi r) (out ++ left);
  it_starts : Forall (fun p => start p = start r \/ start p = after_end s) left;
  it_covers x : covers_any cmp out x \/ (covers_any cmp (left ++ rs) x /\ ~ covers_any cmp ss' x) <->
                covers_any cmp (r :: rs) x /\ ~ covers_any cmp (s :: ss) x;
}.

Section iteration.
Context (r s : wrapping_interval T) (rs ss : list (wrapping_interval T)).
Hypothesis (Hr : plain cmp r) (Hs : plain cmp s).
Hypothesis Hlater : forall x, covers_any cmp rs x -> hi r ≼ Below x.
Hypothesis Hslater : forall x, covers_any cmp ss x -> hi s ≼ Below x.

Lemma covers_any_nil x : covers_any cmp [] x <-> False.
Proof. apply Exists_nil. Qed.

(** The range is used up. *)
Lemma iteration_none : lo s ≼ lo r -> hi r ≼ hi s -> iteration r rs s ss [] [] (s :: ss).
Proof using Hr Hs TotalOrder0.
  intros Ha Hb. split; [by left|simpl; lia|constructor..|]. intros x.
  rewrite !covers_any_cons, covers_any_nil. cbn [app]. assert (covers cmp r x -> covers cmp s x); [|tauto]. points x r s.
Qed.

(** A part after the range to subtract is left, or the whole range. *)
Lemma iteration_suffix b :
  plain cmp b -> lo r ≼ lo b -> hi b = hi r -> start b = start r \/ start b = after_end s ->
  (forall x, covers cmp b x <-> covers cmp r x /\ ~ covers cmp s x) -> hi s ≼ hi r ->
  iteration r rs s ss [] [b] ss.
Proof using Hr Hs Hlater TotalOrder0.
  intros Hpb Hlb Hhb Hsb Hb Hle. split; [by right|simpl; lia|by constructor|by repeat constructor|..].
  - constructor; [|done]. rewrite Hhb. split; [done|]. rank_lia [hi r].
  - by constructor.
  - intros x. specialize (Hlater x). specialize (Hb x). rewrite covers_any_app, !covers_any_cons, !covers_any_nil.
    assert (hi r ≼ Below x -> ~ covers cmp s x) by (points x r s). tauto.
Qed.

(** A part before the range to subtract goes to the result, or the whole range. *)
Lemma iteration_prefix a :
  plain cmp a -> lo a = lo r -> hi a ≼ hi r -> hi a ≼ lo s -> hi r ≼ hi s ->
  (forall x, covers cmp a x <-> covers cmp r x /\ ~ covers cmp s x) ->
  iteration r rs s ss [a] [] (s :: ss).
Proof using Hr Hs Hslater TotalOrder0.
  intros Hpa Hla Hha Has Hrs Ha. split; [by left|simpl; lia|by constructor|by repeat constructor|..].
  - constructor; [|done]. rewrite Hla. split; [rank_lia [lo r]|done].
  - constructor.
  - intros x. specialize (Hslater x). specialize (Ha x). rewrite !covers_any_cons, covers_any_nil. cbn [app].
    assert (covers cmp r x -> ~ hi s ≼ Below x); [|tauto]. points x r s.
Qed.

Lemma iteration_both a b :
  plain cmp a -> plain cmp b -> lo a = lo r -> hi a = lo s -> lo b = hi s -> hi b = hi r -> start b = after_end s ->
  lo r ≺ lo s -> hi s ≺ hi r -> iteration r rs s ss [a] [b] ss.
Proof using Hr Hs Hlater Hslater TotalOrder0.
  intros Hpa Hpb Hla Hha Hlb Hhb Hsb Ha Hb.
  pose proof Hr as [_ Hlr]%(plain_cut cmp). pose proof Hs as [_ Hls]%(plain_cut cmp).
  split; [by right|simpl; lia|by constructor; [|constructor]|..].
  - repeat constructor. rewrite Hha, Hlb. rank_lia [lo s; hi s].
  - constructor; [|constructor; [|done]]; rewrite ?Hla, ?Hha, ?Hlb, ?Hhb; split; rank_lia [lo r; hi r; lo s; hi s].
  - constructor; [by right|done].
  - intros x. specialize (Hlater x). specialize (Hslater x). rewrite covers_any_app, !covers_any_cons, !covers_any_nil.
    assert (covers cmp a x <-> covers cmp r x /\ ~ covers cmp s x /\ ~ hi s ≼ Below x)
      by (rewrite (covers_plain_cut cmp a), Hla, Hha by done; points x r s).
    assert (covers cmp b x <-> covers cmp r x /\ ~ covers cmp s x /\ hi s ≼ Below x)
      by (rewrite (covers_plain_cut cmp b), Hlb, Hhb by done; points x r s).
    assert (hi s ≼ Below x \/ ~ hi s ≼ Below x) by (rank_lia [hi s; Below x]).
    assert (hi r ≼ Below x -> ~ covers cmp s x) by (points x r s). tauto.
Qed.

Lemma subtract_ranges_iteration fuel res :
  ~ starts_clash (start r) (start s) ->
  exists out left ss', iteration r rs s ss out left ss' /\
    subtract_ranges_loop cmp (S fuel) (r :: rs) (s :: ss) res =
    subtract_ranges_loop cmp fuel (left ++ rs) ss' (res ++ out).
Proof using Hr Hs Hlater Hslater TotalOrder0.
  intros Hclash. cbn [subtract_ranges_loop]. rewrite subtract_plain, sorts_after_cut by done. cbn [mbind outcome_bind].
  pose proof Hr as [_ Hlr]%(plain_cut cmp). pose proof Hs as [_ Hls]%(plain_cut cmp).
  destruct (decide (lo s ≺ hi r /\ lo r ≺ hi s)) as [[H1 H2]|Hno].
  - destruct (cut_out_parts r s H1 H2 Hr Hs) as (la & lb & -> & Ha & Hb).
    destruct Ha as [[-> Ha]|(a & -> & Hpa & Hla & Hha & Ha)], Hb as [[-> Hb]|(b & -> & Hpb & Hlb & Hhb & Hb & Hsb)]; cbn [app].
    + exists [], [], (s :: ss). rewrite app_nil_r. split; [by apply iteration_none|done].
    + rewrite bool_decide_eq_false_2 by (rank_lia [lo r; lo s]).
      exists [], [b], ss. rewrite app_nil_r. split; [|done]. apply iteration_suffix; auto.
      * rewrite Hlb. rank_lia [lo r; hi s].
      * intros x. rewrite (covers_plain_cut cmp b), Hlb, Hhb by done. points x r s.
      * rank_lia [hi r; hi s].
    + rewrite bool_decide_eq_true_2 by done. exists [a], [], (s :: ss). split; [|done].
      apply iteration_prefix; try done; rewrite ?Hha; [rank_lia [hi r; lo s]|rank_lia [lo s]|].
      intros x. rewrite (covers_plain_cut cmp a), Hla, Hha by done. points x r s.
    + exists [a], [b], ss. split; [by apply iteration_both|done].
  - case_bool_decide as Hlt.
    + exists [r], [], (s :: ss). split; [|done].
      apply iteration_prefix; try done; [rank_lia [hi r]|rank_lia [lo r; hi r; lo s; hi s]|rank_lia [lo r; hi r; lo s; hi s]|].
      intros x. assert (covers cmp r x -> ~ covers cmp s x); [|tauto]. points x r s.
    + exists [], [r], ss. rewrite app_nil_r. split; [|done].
      apply iteration_suffix; auto; [rank_lia [lo r]| |rank_lia [lo r; hi r; lo s; hi s]].
      intros x. assert (covers cmp r x -> ~ covers cmp s x); [|tauto]. points x r s.
Qed.

End iteration.

Lemma subtract_ranges_loop_spec fuel : forall rs ss res,
  subtraction_state rs ss res -> (length rs + length ss <= fuel)%nat ->
  exists out, subtract_ranges_loop cmp fuel rs ss res = Ret out /\ Forall (plain cmp) out /\ ordered cmp out /\
    forall x, covers_any cmp out x <-> covers_any cmp res x \/ (covers_any cmp rs x /\ ~ covers_any cmp ss x).
Proof.
  induction fuel as [|fuel IH]; intros [|r rs] ss res Hst Hfuel.
  1,3: exists res; destruct Hst as [_ _ Hres Ho _ _]; rewrite app_nil_r in Ho; split_and!; [done..|];
    intros x; unfold covers_any at 3; rewrite Exists_nil; tauto.
  { simpl in Hfuel; lia. }
  cbn [length] in Hfuel. destruct ss as [|s ss].
  { cbn [subtract_ranges_loop]. destruct (IH rs [] (res ++ [r])) as (out & -> & ? & ? & Hcov); [|simpl in *; lia|].
    - destruct Hst as [[Hr Hrs]%Forall_cons Hs Hres Ho Hso Hcf]. split; try done.
      + apply Forall_app. by rewrite Forall_singleton.
      + by rewrite <- (assoc_L (++)).
      + by intros t ?%elem_of_nil.
    - exists out. split_and!; [done..|]. intros x. rewrite Hcov, covers_any_app, !covers_any_cons, !covers_any_nil. tauto. }
  cbn [length] in Hfuel. pose proof Hst as [[Hr Hrs]%Forall_cons [Hs Hss]%Forall_cons Hres Ho Hso Hcf].
  destruct (subtract_ranges_iteration r s rs ss Hr Hs) with fuel res as (out & left & ss' & [Hss' Hlen Hpl Hpo Hin Hstart Hcov] & ->).
  - intros x. apply covers_later; [|done]. by apply ordered_app in Ho as (_ & ? & _).
  - intros x. by apply covers_later.
  - apply Hcf; left.
  - destruct (IH (left ++ rs) ss' (res ++ out)) as (out' & -> & ? & ? & Hcov');
      [by eapply subtraction_step|rewrite length_app; lia|].
    exists out'. split_and!; [done..|]. intros x. rewrite Hcov', covers_any_app, <- Hcov. tauto.
Qed.

(** C37: [subtract_ranges]. It returns (no assertion fails and the loop ends) a sorted list of
    disjoint ranges with exactly the positions of the source ranges that no range to subtract has,
    provided that the ranges to subtract are sorted and disjoint and that none of them begins right
    after the value that a source range, or what is left after another subtracted range, begins
    with. *)
Theorem subtract_ranges_correct sort sources ss :
  (forall l, sort l ≡ₚ l /\ by_start cmp (sort l)) -> Forall (plain cmp) sources ->
  Forall (plain cmp) ss -> disjoint_ordered cmp ss -> clash_free sources ss ->
  exists out, subtract_ranges cmp sort sources ss = Ret out /\ Forall (plain cmp) out /\ disjoint_ordered cmp out /\
  forall x, (exists p, p ∈ out /\ covers cmp p x) <->
    (exists p, p ∈ sources /\ covers cmp p x) /\ ~ (exists s, s ∈ ss /\ covers cmp s x).
Proof.
  intros Hsort Hsrc Hss Hso Hcf. destruct (deoverlap_spec cmp sort sources Hsort Hsrc) as (Hcov & Hpl & Ho).
  unfold subtract_ranges. set (rs := deoverlap cmp sort sources) in *.
  destruct (subtract_ranges_loop_spec (length rs + length ss) rs ss []) as (out & -> & Hout & Hoo & Hx); [|done|].
  - split; [done..| | |]; [by apply disjoint_ordered_cut..|]. intros s Hs. destruct (Hcf s Hs) as [H1 H2]. split; [|done].
    intros r Hr. destruct (deoverlap_starts cmp sort sources r) as (q & Hq & ->); [apply Hsort|done|]. by apply H1.
  - exists out. split_and!; [done..|by apply disjoint_ordered_cut|]. intros x. rewrite <- Hcov, <- !Exists_exists.
    fold (covers_any cmp out x). fold (covers_any cmp rs x). fold (covers_any cmp ss x). rewrite Hx, covers_any_nil. tauto.
Qed.

End subtracting.

(** * Splitting the tokens *)

Section splitting.
Context (bits : Z) (Hbits : 1 <= bits <= 30).

(** The range of the [i]-th group. *)
Definition group_range (i : Z) : wrapping_interval token :=
  mk_interval (Some (if i =? 0 then IntervalBound minimum_token true
                     else IntervalBound (last_token_of_compaction_group bits (i - 1)) false))
    (Some (IntervalBound (last_token_of_compaction_group bits i) true)) false.

Lemma split_token_range_loop_eq n : forall i prev,
  0 <= i -> i + Z.of_nat n <= 2 ^ bits ->
  (i <> 0 -> prev = last_token_of_compaction_group bits (i - 1)) ->
  split_token_range_loop n bits i prev = Ret (group_range <$> seqZ i (Z.of_nat n)).
Proof using Hbits.
  induction n as [|n IH]; intros i prev Hi Hn Hprev; [done|]. cbn [split_token_range_loop].
  rewrite IH by (try lia; intros; by replace (i + 1 - 1) with i by lia).
  rewrite (seqZ_cons i) by lia. replace (Z.pred (Z.of_nat (S n))) with (Z.of_nat n) by lia.
  rewrite fmap_cons. replace (Z.succ i) with (i + 1) by lia. unfold group_range at 2.
  destruct (Z.eqb_spec i 0) as [|Hne]; [done|]. rewrite Hprev by done.
  destruct (last_token_of_group bits (i - 1)) as [[Hk Hd] Hp]; [lia..|].
  destruct (group_size_pow bits) as (Hw & Hpos & ?); [lia|].
  set (prev' := last_token_of_compaction_group bits (i - 1)) in *.
  assert (_data prev' <> int64_max) as Hnl by (unfold token_pos, int64_max in *; nia).
  unfold next_token, int64_succ. replace (_data prev' =? int64_max) with false by lia. cbn [fmap outcome_fmap mbind outcome_bind].
  rewrite compaction_group_of_key by (lia || done || (unfold valid_token, fits_signed, int64_min, int64_max in *; cbn [_data]; lia)).
  replace (token_pos (Token key (_data prev' + 1)) / group_size bits) with i; [by rewrite Z.eqb_refl|].
  apply Z.div_unique with 0; [lia|]. unfold token_pos in *. cbn [_data]. lia.
Qed.

Lemma group_range_spec i :
  0 <= i < 2 ^ bits ->
  plain token_compare (group_range i) /\
  forall t, legal_token t -> covers token_compare (group_range i) t <-> compaction_group_of bits t = i.
Proof using Hbits.
  intros Hi. destruct (last_token_of_group bits i) as [Hleg Hp]; [lia..|].
  destruct (group_size_pow bits) as (Hw & Hpos & ?); [lia|].
  assert (plain token_compare (group_range i)) as Hpl.
  { apply (plain_mk token_compare).
    destruct (Z.eqb_spec i 0) as [->|]; cbn [start_cut end_cut b_inclusive b_value cut_compare].
    - unfold token_compare. by rewrite (proj1 Hleg).
    - destruct (last_token_of_group bits (i - 1)) as [Hleg' Hp']; [lia..|].
      rewrite compare_keys by (apply Hleg || apply Hleg'). by rewrite (proj2 (Z.compare_lt_iff _ _)) by nia. }
  split; [done|]. intros t Ht. rewrite compaction_group_of_key by (lia || by apply legal_valid || apply Ht).
  unfold covers. rewrite (proj2 Hpl). unfold group_range, after_start, before_end. cbn.
  assert (token_compare t (last_token_of_compaction_group bits i) = Lt \/
    true = true /\ token_compare t (last_token_of_compaction_group bits i) = Eq <->
    token_pos t / group_size bits <= i) as Hend.
  { rewrite compare_keys by (apply Ht || apply Hleg). rewrite Hp, Z.compare_lt_iff, Z.compare_eq_iff.
    split; intros H'; [apply Z.lt_succ_r, Z.div_lt_upper_bound; nia|].
    pose proof (Z.mul_succ_div_gt (token_pos t) (group_size bits) ltac:(lia)). nia. }
  rewrite Hend. pose proof (token_pos_range t (legal_valid t Ht)).
  destruct (Z.eqb_spec i 0) as [->|Hne]; cbn [b_value b_inclusive].
  - assert (0 <= token_pos t / group_size bits) by (apply Z.div_pos; lia).
    assert (token_compare minimum_token t = Lt) by (unfold token_compare; simpl; by rewrite (proj1 Ht)). intuition lia.
  - destruct (last_token_of_group bits (i - 1)) as [Hleg' Hp']; [lia..|].
    rewrite compare_keys by (apply Ht || apply Hleg'). rewrite Hp', Z.compare_lt_iff, Z.compare_eq_iff.
    replace (i - 1 + 1) with i by lia.
    assert (i * group_size bits - 1 < token_pos t <-> i <= token_pos t / group_size bits); [|intuition (lia || done)].
    split; intros H'; [apply Z.div_le_lower_bound; lia|].
    pose proof (Z.mul_div_le (token_pos t) (group_size bits) ltac:(lia)). nia.
Qed.

Lemma group_ranges_ordered n : forall i,
  0 <= i -> i + Z.of_nat n <= 2 ^ bits -> disjoint_ordered token_compare (group_range <$> seqZ i (Z.of_nat n)).
Proof using Hbits.
  induction n as [|n IH]; intros i Hi Hn; [constructor|].
  rewrite (seqZ_cons i) by lia. replace (Z.pred (Z.of_nat (S n))) with (Z.of_nat n) by lia. rewrite fmap_cons.
  constructor; [apply IH; lia|]. apply Forall_fmap, Forall_forall. intros k [Hk1 Hk2]%elem_of_seqZ.
  unfold compose. rewrite (lt_start_cut token_compare). apply bool_decide_eq_true.
  change (hi (group_range i)) with (Above (last_token_of_compaction_group bits i)).
  replace (lo (group_range k)) with (Above (last_token_of_compaction_group bits (k - 1)))
    by (unfold lo, group_range; by rewrite (proj2 (Z.eqb_neq k 0)) by lia).
  destruct (last_token_of_group bits i) as [Hleg Hp]; [lia..|].
  destruct (last_token_of_group bits (k - 1)) as [Hleg' Hp']; [lia..|].
  destruct (group_size_pow bits) as (Hw & Hpos & ?); [lia|]. unfold cut_compare.
  rewrite compare_keys, Hp, Hp', Z.compare_le_iff by (apply Hleg || apply Hleg'). nia.
Qed.

End splitting.

(** [split_token_range_msb] returns (it finds no inconsistent group) as many ranges as there are
    groups, sorted and disjoint, and the [i]-th has exactly the tokens of the [i]-th group. *)
Theorem split_token_range_msb_correct bits :
  0 <= bits <= 30 ->
  exists l, split_token_range_msb bits = Ret l /\ Z.of_nat (length l) = 2 ^ bits /\
  Forall (plain token_compare) l /\ disjoint_ordered token_compare l /\
  forall i r t, at_z l i = Some r -> legal_token t -> covers token_compare r t <-> compaction_group_of bits t = i.
Proof.
  intros Hb. unfold split_token_range_msb. destruct (Z.eqb_spec bits 0) as [->|Hne].
  { eexists. split; [done|]. split; [done|]. split_and!.
    - constructor; [|done]. by apply (plain_mk token_compare).
    - by repeat constructor.
    - intros i r t Hr Ht. apply at_z_Some in Hr as [Hi Hr]. apply list_lookup_singleton_Some in Hr as [Hi0 <-].
      replace i with 0 by lia. split; [done|]. intros _. unfold covers, after_start, before_end. simpl.
      unfold token_compare. simpl. rewrite (proj1 Ht). simpl. auto. }
  assert (2 ^ bits <= 2 ^ 30) by (apply Z.pow_le_mono_r; lia). assert (0 < 2 ^ bits) by (apply Z.pow_pos_nonneg; lia).
  rewrite Z.shiftl_mul_pow2, Z.mul_1_l, (to_signed_id 32), to_unsigned_id by (unfold fits_signed, fits_unsigned; lia).
  replace (bits <? 64) with true by lia. cbn [check mbind outcome_bind].
  rewrite split_token_range_loop_eq by lia. rewrite Z2Nat.id by lia. eexists. split; [done|].
  rewrite length_fmap, length_seqZ. split; [lia|]. split_and!.
  - apply Forall_fmap, Forall_forall. intros i Hi%elem_of_seqZ. apply group_range_spec; lia.
  - pose proof (group_ranges_ordered bits ltac:(lia) (Z.to_nat (2 ^ bits)) 0) as Ho. rewrite Z2Nat.id in Ho by lia. apply Ho; lia.
  - intros i r t Hr Ht. apply at_z_Some in Hr as [Hi Hr]. rewrite list_lookup_fmap in Hr.
    apply fmap_Some in Hr as (k & [-> Hk]%lookup_seqZ & ->). replace (0 + Z.of_nat (Z.to_nat i)) with i by lia.
    apply group_range_spec; [lia..|done].
Qed.

(** * Examples *)

Module RingExamples.

(** Partition keys that are integers. *)
Definition example_ring : sharder := as_sharder example_sharder.

Lemma example_sharder_ok : sharder_ok example_sharder.
Proof.
  apply (make_static_sharder_inv 3 1); [unfold config_ok; lia|reflexivity].
Qed.
#[local] Instance example_laws : SharderLaws example_ring.
Proof. apply static_sharder_laws, example_sharder_ok. Qed.

(** All partitions from a token on. *)
Definition from_token (t : token) : partition_range Z := make_starting_with (IntervalBound (starting_at t) true).

Lemma ring_order_correct_witness :
  TotalOrder (ring_position_tri_compare Z.compare) /\
  decorated_key_compare_position Z.compare (DecoratedKey (Token key 5) 7) (ending_at (Token key 5)) = Lt.
Proof.
  destruct (ring_order_correct Z.compare (DecoratedKey (Token key 5) 7) (DecoratedKey (Token key 5) 7)
    (ending_at (Token key 5)) view_min) as (? & _ & Hpos & _); [by right|by left|]. by rewrite Hpos.
Defined.

Lemma range_sharder_correct_witness :
  exists fuel ps, range_sharder_run Z.compare fuel example_ring (RangeSharder (from_token (Token key 5)) false) = Ret ps.
Proof.
  destruct (range_sharder_correct Z.compare example_ring (from_token (Token key 5))) as (fuel & ps & Hps & _).
  - by apply (plain_mk (ring_position_compare Z.compare)).
  - unfold range_tokens_ok, valid_token, fits_signed. simpl. lia.
  - by exists fuel, ps.
Defined.

Lemma split_range_to_shards_correct_witness :
  exists fuel m, split_range_to_shards Z.compare fuel (from_token (Token key 5)) example_ring = Ret m.
Proof.
  destruct (split_range_to_shards_correct Z.compare example_ring (from_token (Token key 5))) as (fuel & m & Hm & _).
  - by apply (plain_mk (ring_position_compare Z.compare)).
  - unfold range_tokens_ok, valid_token, fits_signed. simpl. lia.
  - by exists fuel, m.
Defined.

Lemma is_single_shard_correct_witness :
  exists o, is_single_shard Z.compare example_ring (from_token (Token key 5)) = Ret o.
Proof.
  destruct (is_single_shard_correct Z.compare example_ring (from_token (Token key 5))) as (o & Ho & _).
  - by apply (plain_mk (ring_position_compare Z.compare)).
  - unfold range_tokens_ok, valid_token, fits_signed. simpl. lia.
  - intros b [= <-]. by left.
  - by exists o.
Defined.

Lemma split_token_range_msb_correct_witness :
  exists l, split_token_range_msb 2 = Ret l /\ Z.of_nat (length l) = 4.
Proof. destruct (split_token_range_msb_correct 2) as (l & ? & ? & _); [lia|]. by exists l. Defined.

(** Ranges of integers. *)
Definition closed (a b : Z) : wrapping_interval Z := make (IntervalBound a true) (IntervalBound b true).
Definition opened (a b : Z) : wrapping_interval Z := make (IntervalBound a false) (IntervalBound b true).
Definition sort_ranges : list (wrapping_interval Z) -> list (wrapping_interval Z) := merge_sort (start_le Z.compare).

Lemma subtract_ranges_correct_witness :
  exists out, subtract_ranges Z.compare sort_ranges [closed 1 10; closed 15 18] [closed 3 4; closed 9 16] = Ret out /\
  forall x, (exists p, p ∈ out /\ covers Z.compare p x) <->
    (exists p, p ∈ [closed 1 10; closed 15 18] /\ covers Z.compare p x) /\
    ~ (exists s, s ∈ [closed 3 4; closed 9 16] /\ covers Z.compare s x).
Proof.
  destruct (subtract_ranges_correct Z.compare sort_ranges [closed 1 10; closed 15 18] [closed 3 4; closed 9 16])
    as (out & ? & _ & _ & ?); [apply merge_sort_by_start; apply _| | | | |by exists out].
  - repeat (constructor; [by apply (plain_mk Z.compare)|]). constructor.
  - repeat (constructor; [by apply (plain_mk Z.compare)|]). constructor.
  - by repeat constructor.
  - intros s Hs. split; intros r Hr; unfold starts_clash.
    all: repeat (apply elem_of_cons in Hs as [->|Hs]; [by repeat (apply elem_of_cons in Hr as [->|Hr]; [simpl; naive_solver|]); apply elem_of_nil in Hr|]);
      by apply elem_of_nil in Hs.
Defined.

(** C38: Subtracting sorted and disjoint ranges is wrong when one of them begins right after the first
    value of a range: from [1, 10] and [15, 18], with everything after 1 and up to 20 subtracted, all
    of the second range is left. *)
Theorem subtract_ranges_keeps_subtracted :
  disjoint_ordered Z.compare [opened 1 20] /\
  subtract_ranges Z.compare sort_ranges [closed 1 10; closed 15 18] [opened 1 20] = Ret [closed 1 1; closed 15 18] /\
  covers Z.compare (opened 1 20) 16 /\ covers Z.compare (closed 15 18) 16.
Proof. split; [by repeat constructor|]. split; [vm_compute; reflexivity|]. split; vm_compute; naive_solver. Qed.

End RingExamples.
