(* ===== verification/Clustering.v ===== *)
(** Clustering keys, bounds and positions inside a partition
    ([src/clustering_bounds_comparator.hh], [src/keys.cc], [src/mutation/position_in_partition.hh],
    [src/utils/lexicographical_compare.hh], [position_range_to_clustering_range] of [src/query.cc]).

    A clustering key prefix is the list of the values of its first columns; the type
    of values and, column by column, the comparators of the types of the schema are
    arguments, required to be total orders. A bound is a prefix with the side of it on
    which the bound lies, a position is a place in the partition. A view and the object
    it refers to are one type. *)
From S2P Require Import Prelude Ordering Interval IntervalTheory.
Open Scope Z_scope.

(** * Bounds *)

Inductive bound_kind := excl_end | incl_start | incl_end | excl_start.
#[export] Instance bound_kind_eq_dec : EqDecision bound_kind.
Proof. solve_decision. Defined.

Definition invert_kind (k : bound_kind) : bound_kind :=
  match k with
  | excl_start => incl_end
  | incl_start => excl_end
  | excl_end => incl_start
  | incl_end => excl_start
  end.

Definition reverse_kind (k : bound_kind) : bound_kind :=
  match k with
  | excl_start => excl_end
  | incl_start => incl_end
  | excl_end => excl_start
  | incl_end => incl_start
  end.

Definition weight (k : bound_kind) : Z :=
  match k with excl_end => -2 | incl_start => -1 | incl_end => 1 | excl_start => 2 end.

Inductive bound_weight := before_all_prefixed | equal | after_all_prefixed.
#[export] Instance bound_weight_eq_dec : EqDecision bound_weight.
Proof. solve_decision. Defined.

(** The value of the enumerator, an [int8_t]. *)
Definition bound_weight_value (w : bound_weight) : Z :=
  match w with before_all_prefixed => -1 | equal => 0 | after_all_prefixed => 1 end.

Definition reversed_weight (w : bound_weight) : bound_weight :=
  match w with
  | equal => w
  | before_all_prefixed => after_all_prefixed
  | after_all_prefixed => before_all_prefixed
  end.

Definition position_weight (k : bound_kind) : bound_weight :=
  match k with
  | excl_end | incl_start => before_all_prefixed
  | incl_end | excl_start => after_all_prefixed
  end.

Inductive partition_region := partition_start | static_row | clustered | partition_end.
#[export] Instance partition_region_eq_dec : EqDecision partition_region.
Proof. solve_decision. Defined.

(** [composite_tri_compare::rank]. *)
Definition region_rank (r : partition_region) : Z :=
  match r with partition_start => 0 | static_row => 1 | clustered => 2 | partition_end => 3 end.

(** [lexicographical_relation], with the values of its enumerators. *)
Inductive lexicographical_relation :=
  rel_before_all_prefixed | rel_before_all_strictly_prefixed | rel_after_all_prefixed.
#[export] Instance lexicographical_relation_eq_dec : EqDecision lexicographical_relation.
Proof. solve_decision. Defined.
Definition relation_value (r : lexicographical_relation) : Z :=
  match r with rel_before_all_prefixed => 0 | rel_before_all_strictly_prefixed => 1 | rel_after_all_prefixed => 2 end.

Section clustering.
Context {V : Type}.
Abbreviation key := (list V).

(** The types of the clustering columns, as their comparators. *)
Context (types : list (V -> V -> comparison)).

(** ** Comparison of keys *)

(** The loop of [prefix_equality_tri_compare]; a key has at most as many values as
    there are types, so the types never run out first. *)
Fixpoint prefix_equality_tri_compare (types : list (V -> V -> comparison)) (p1 p2 : key) : comparison :=
  match p1, p2, types with
  | v1 :: p1, v2 :: p2, comp :: types =>
    match comp v1 v2 with Eq => prefix_equality_tri_compare types p1 p2 | c => c end
  | _, _, _ => Eq
  end.

Fixpoint lexicographical_tri_compare (types : list (V -> V -> comparison)) (p1 p2 : key)
    (relation1 relation2 : lexicographical_relation) : comparison :=
  match types, p1, p2 with
  | comp :: types, v1 :: p1, v2 :: p2 =>
    match comp v1 v2 with Eq => lexicographical_tri_compare types p1 p2 relation1 relation2 | c => c end
  | _, [], [] => relation_value relation1 ?= relation_value relation2
  | _, _, [] => if decide (relation2 = rel_after_all_prefixed) then Lt else Gt
  | _, [], _ => if decide (relation1 = rel_after_all_prefixed) then Gt else Lt
  | _, _, _ => Eq
  end.

(** [compound_type::compare] and [equal]. *)
Definition key_compare (p1 p2 : key) : comparison :=
  lexicographical_tri_compare types p1 p2 rel_before_all_strictly_prefixed rel_before_all_strictly_prefixed.
Definition key_equal (p1 p2 : key) : bool := bool_decide (key_compare p1 p2 = Eq).
Definition is_full_key (p : key) : bool := Nat.eqb (length p) (length types).
Definition is_empty_key (p : key) : bool := Nat.eqb (length p) 0.

(** [bound_view::tri_compare], on prefixes with weights. *)
Definition place_tri_compare (p1 : key) (w1 : Z) (p2 : key) (w2 : Z) : comparison :=
  match prefix_equality_tri_compare types p1 p2 with
  | Eq =>
    let d1 := Z.of_nat (length p1) in
    let d2 := Z.of_nat (length p2) in
    (if d1 <=? d2 then Z.shiftl w1 1 else 1) ?= (if d2 <=? d1 then Z.shiftl w2 1 else 1)
  | res => res
  end.

(** ** Bounds *)

Record bound_view := BoundView {
  bv_prefix : key;
  bv_kind : bound_kind;
}.

Definition bound_tri_compare (b1 b2 : bound_view) : comparison :=
  place_tri_compare (bv_prefix b1) (weight (bv_kind b1)) (bv_prefix b2) (weight (bv_kind b2)).
Definition bound_less (b1 b2 : bound_view) : bool := bool_decide (bound_tri_compare b1 b2 = Lt).
(** [compare::operator()(bound_view, clustering_key_prefix)] and the converse. *)
Definition bound_key_less (b : bound_view) (p : key) : bool :=
  bool_decide (place_tri_compare (bv_prefix b) (weight (bv_kind b)) p 0 = Lt).
Definition key_bound_less (p : key) (b : bound_view) : bool :=
  bool_decide (place_tri_compare p 0 (bv_prefix b) (weight (bv_kind b)) = Lt).

Definition bound_view_equal (b other : bound_view) : bool :=
  bool_decide (bv_kind b = bv_kind other) && key_equal (bv_prefix b) (bv_prefix other).
Definition adjacent (b other : bound_view) : bool :=
  bool_decide (invert_kind (bv_kind other) = bv_kind b) && key_equal (bv_prefix b) (bv_prefix other).
Definition bottom : bound_view := BoundView [] incl_start.
Definition top : bound_view := BoundView [] incl_end.

Definition clustering_range : Type := wrapping_interval key.

Definition from_range_start (range : clustering_range) : bound_view :=
  match start range with
  | Some b => BoundView (b_value b) (if b_inclusive b then incl_start else excl_start)
  | None => bottom
  end.
Definition from_range_end (range : clustering_range) : bound_view :=
  match end_ range with
  | Some b => BoundView (b_value b) (if b_inclusive b then incl_end else excl_end)
  | None => top
  end.
Definition from_range (range : clustering_range) : bound_view * bound_view :=
  (from_range_start range, from_range_end range).

(** ** Positions *)

Record position_in_partition := Position {
  p_type : partition_region;
  p_weight : bound_weight;
  p_ck : option key;
}.

Definition for_partition_start : position_in_partition := Position partition_start equal None.
Definition for_partition_end : position_in_partition := Position partition_end equal None.
Definition for_static_row : position_in_partition := Position static_row equal None.
Definition for_key (ck : key) : position_in_partition := Position clustered equal (Some ck).
Definition before_key (ck : key) : position_in_partition := Position clustered before_all_prefixed (Some ck).
Definition position_of_bound (bv : bound_view) : position_in_partition :=
  Position clustered (position_weight (bv_kind bv)) (Some (bv_prefix bv)).
Definition before_all_clustered_rows : position_in_partition := position_of_bound bottom.
Definition after_all_clustered_rows : position_in_partition := position_of_bound top.
Definition position_for_range_start (r : clustering_range) : position_in_partition := position_of_bound (from_range_start r).
Definition position_for_range_end (r : clustering_range) : position_in_partition := position_of_bound (from_range_end r).

(** [after_key(schema, key)]: a key that is not full is extended with missing values
    ([clustering_key::make_full]; [missing] is the value they have), and the position
    lies before its extensions. *)
Definition position_after_key (missing : V) (ck : key) : position_in_partition :=
  if negb (is_full_key ck) then
    Position clustered before_all_prefixed (Some (take (length types) (ck ++ replicate (length types) missing)))
  else Position clustered after_all_prefixed (Some ck).

Definition is_clustering_row (p : position_in_partition) : bool :=
  bool_decide (p_type p = clustered) && bool_decide (p_weight p = equal).
Definition is_after_all_clustered_rows (p : position_in_partition) : bool :=
  bool_decide (p_type p = partition_end) ||
  match p_ck p with
  | Some ck => is_empty_key ck && bool_decide (p_weight p = after_all_prefixed)
  | None => false
  end.
Definition is_before_all_clustered_rows {E} (p : position_in_partition) : outcome E bool :=
  if region_rank (p_type p) <? region_rank clustered then Ret true
  else if bool_decide (p_type p = clustered) then
    ck ← defined (p_ck p);
    Ret (is_empty_key ck && bool_decide (p_weight p = before_all_prefixed))
  else Ret false.

(** Both conversions are for positions that are not those of rows. *)
Definition as_start_bound_view {E} (p : position_in_partition) : outcome E bound_view :=
  check (negb (bool_decide (p_weight p = equal))) ;;
  ck ← defined (p_ck p);
  Ret (BoundView ck (if decide (p_weight p = before_all_prefixed) then incl_start else excl_start)).
Definition as_end_bound_view {E} (p : position_in_partition) : outcome E bound_view :=
  check (negb (bool_decide (p_weight p = equal))) ;;
  ck ← defined (p_ck p);
  Ret (BoundView ck (if decide (p_weight p = before_all_prefixed) then excl_end else incl_end)).

Definition reversed_position (p : position_in_partition) : position_in_partition :=
  Position (p_type p) (reversed_weight (p_weight p)) (p_ck p).

(** [tri_compare]: positions of a region other than [clustered] have no key. *)
Definition position_tri_compare (a b : position_in_partition) : comparison :=
  if decide (p_type a = p_type b) then
    match p_ck a with
    | None => Eq
    | Some ack =>
      place_tri_compare ack (bound_weight_value (p_weight a)) (default [] (p_ck b)) (bound_weight_value (p_weight b))
    end
  else region_rank (p_type a) ?= region_rank (p_type b).
Definition position_less (a b : position_in_partition) : bool := bool_decide (position_tri_compare a b = Lt).

(** [equal_compare]. *)
Definition position_equal (a b : position_in_partition) : bool :=
  if decide (p_type a = p_type b) then
    match p_ck a, p_ck b with
    | Some ack, Some bck => bool_decide (p_weight a = p_weight b) && key_equal ack bck
    | None, None => true
    | _, _ => false
    end
  else false.

Definition no_clustering_row_between (a b : position_in_partition) : bool :=
  match p_ck a, p_ck b with
  | Some ack, Some bck =>
    key_equal ack bck &&
    (negb (bool_decide (p_weight a = before_all_prefixed)) || negb (bool_decide (p_weight b = after_all_prefixed)))
  | None, None => true
  | _, _ => false
  end.
Definition no_clustering_row_between_weak (a b : position_in_partition) : bool :=
  match p_ck a, p_ck b with
  | Some ack, Some bck =>
    key_equal ack bck &&
    (bool_decide (p_weight a = after_all_prefixed) || negb (bool_decide (p_weight b = after_all_prefixed)))
  | None, None => true
  | _, _ => false
  end.

(** ** Ranges of positions *)

Record position_range := PositionRange {
  pr_start : position_in_partition;
  pr_end : position_in_partition;
}.

Definition position_range_from_range (r : clustering_range) : position_range :=
  PositionRange (position_for_range_start r) (position_for_range_end r).
Definition position_range_full : position_range := PositionRange for_static_row after_all_clustered_rows.
Definition all_clustered_rows : position_range := PositionRange before_all_clustered_rows after_all_clustered_rows.

Definition position_range_contains (r : position_range) (pos : position_in_partition) : bool :=
  negb (position_less pos (pr_start r)) && position_less pos (pr_end r).
Definition position_range_contains_range (r : position_range) (start end_ : position_in_partition) : bool :=
  negb (position_less start (pr_start r)) && negb (position_less (pr_end r) end_).
Definition position_range_overlaps (r : position_range) (start end_ : position_in_partition) : bool :=
  negb (position_less end_ (pr_start r)) && position_less start (pr_end r).
Definition is_all_clustered_rows {E} (r : position_range) : outcome E bool :=
  b ← is_before_all_clustered_rows (pr_start r);
  Ret (b && is_after_all_clustered_rows (pr_end r)).

(** The bound that [position_range_to_clustering_range] gives to one end. *)
Definition to_bound {E} (p : position_in_partition) (left : bool) : outcome E (option (interval_bound key)) :=
  before ← is_before_all_clustered_rows p;
  if before : bool then check left ;; Ret None
  else if is_after_all_clustered_rows p then check (negb left) ;; Ret None
  else
    check (bool_decide (is_Some (p_ck p))) ;;
    ck ← defined (p_ck p);
    let after := bool_decide (p_weight p = after_all_prefixed) in
    Ret (Some (IntervalBound ck (if left then negb after else after))).

Definition position_range_to_clustering_range {E} (r : position_range) : outcome E (option clustering_range) :=
  check (bool_decide (p_type (pr_start r) = clustered)) ;;
  check (bool_decide (p_type (pr_end r) = clustered)) ;;
  let general :=
    s ← to_bound (pr_start r) true;
    e ← to_bound (pr_end r) false;
    Ret (Some (mk_interval s e false)) in
  match p_ck (pr_start r), p_ck (pr_end r) with
  | Some sk, Some ek =>
    if key_equal sk ek then
      check (negb (bool_decide (p_weight (pr_start r) = p_weight (pr_end r)))) ;;
      if bool_decide (p_weight (pr_end r) = after_all_prefixed) && negb (bool_decide (p_weight (pr_start r) = after_all_prefixed))
      then Ret (Some (make_singular sk))
      else Ret None
    else general
  | _, _ => general
  end.

End clustering.
Arguments bound_view : clear implicits.
Arguments position_in_partition : clear implicits.
Arguments position_range : clear implicits.
Arguments clustering_range : clear implicits.

(** * The order of places *)

(** What a schema promises of the types of its clustering columns. *)
Class ColumnTypes {V} (types : list (V -> V -> comparison)) : Prop := columns_total : Forall TotalOrder types.

(** A place is a prefix with a weight: before ([w <= 0]) or after ([w > 0]) all its proper
    extensions. *)
Section places.
Context {V : Type} (types : list (V -> V -> comparison)) `{Htypes : !ColumnTypes types}.

Definition place : Type := list V * Z.
Definition place_compare (a b : place) : comparison := place_tri_compare types a.1 a.2 b.1 b.2.

(** The comparison of places, value by value. *)
Fixpoint place_compare_rec (types : list (V -> V -> comparison)) (p1 : list V) (w1 : Z) (p2 : list V) (w2 : Z) : comparison :=
  match p1, p2 with
  | [], [] => w1 ?= w2
  | [], _ :: _ => if w1 <=? 0 then Lt else Gt
  | _ :: _, [] => if w2 <=? 0 then Gt else Lt
  | v1 :: p1, v2 :: p2 =>
    match types with
    | comp :: types => then_compare (comp v1 v2) (place_compare_rec types p1 w1 p2 w2)
    | [] => place_compare_rec [] p1 w1 p2 w2
    end
  end.

Ltac by_weights :=
  rewrite ?Z.shiftl_mul_pow2 by lia;
  repeat match goal with |- context [?a <=? ?b] => destruct (Z.leb_spec a b) end; zcompare; (done || lia).

Lemma place_tri_compare_eq tys p1 w1 p2 w2 :
  place_tri_compare tys p1 w1 p2 w2 = place_compare_rec tys p1 w1 p2 w2.
Proof using.
  revert tys p2. induction p1 as [|v1 p1 IH]; intros tys [|v2 p2]; unfold place_tri_compare; cbn [place_compare_rec length].
  - destruct tys; cbn [prefix_equality_tri_compare]; by_weights.
  - replace (prefix_equality_tri_compare tys [] (v2 :: p2)) with Eq by (by destruct tys).
    by_weights.
  - replace (prefix_equality_tri_compare tys (v1 :: p1) []) with Eq by (by destruct tys).
    by_weights.
  - assert (forall n m, (Z.of_nat (S n) <=? Z.of_nat (S m)) = (Z.of_nat n <=? Z.of_nat m)) as Hle.
    { intros n m. destruct (Z.leb_spec (Z.of_nat n) (Z.of_nat m)); [apply Z.leb_le|apply Z.leb_gt]; lia. }
    rewrite !Hle. destruct tys as [|comp tys]; cbn [prefix_equality_tri_compare].
    + rewrite <- IH. unfold place_tri_compare. by destruct p1, p2.
    + destruct (comp v1 v2); simpl; [|done..]. rewrite <- IH. done.
Qed.

#[export] Instance place_compare_total : TotalOrder place_compare.
Proof using Htypes.
  unfold ColumnTypes in Htypes. split; unfold place_compare.
  - intros [p w]. rewrite place_tri_compare_eq. simpl. revert types Htypes.
    induction p as [|v p IH]; intros tys Htys; simpl; [apply Z.compare_refl|].
    destruct Htys as [|comp tys Hc Htys]; [by apply IH|]. rewrite (cmp_refl comp). by apply IH.
  - intros [p w] [q u]. rewrite !place_tri_compare_eq. simpl. revert types Htypes q.
    induction p as [|v p IH]; intros tys Htys [|v' q]; simpl; [apply Z.compare_antisym|by destruct (w <=? 0)|by destruct (u <=? 0)|].
    destruct Htys as [|comp tys Hc Htys]; [by apply IH|]. rewrite (cmp_sym comp v v'), IH by done. by destruct (comp v v').
  - intros [p w] [q u] [r x]. rewrite !place_tri_compare_eq. simpl. revert types Htypes q r.
    induction p as [|v p IH]; intros tys Htys [|v' q] [|v'' r]; simpl;
      repeat match goal with |- context [?a <=? 0] => destruct (Z.leb_spec a 0) end; try done;
      rewrite ?Z.compare_le_iff; try lia.
    destruct Htys as [|comp tys Hc Htys]; [by apply IH|].
    destruct (rank_exists comp [v; v'; v'']) as [rk Hrk]. rewrite !Hrk by in_list. clear Hrk. unfold then_compare.
    zcompare; try congruence; try lia. by apply IH.
Qed.

(** The weights only matter by their sign, unless the two prefixes are equal. *)
Lemma place_weights p q :
  (forall w u, place_tri_compare types p w q u = (w ?= u)) \/
  (forall w u, place_tri_compare types p w q u <> Eq /\
    forall w' u', (w <=? 0) = (w' <=? 0) -> (u <=? 0) = (u' <=? 0) ->
      place_tri_compare types p w q u = place_tri_compare types p w' q u').
Proof using.
  enough ((forall w u, place_compare_rec types p w q u = (w ?= u)) \/
    (forall w u, place_compare_rec types p w q u <> Eq /\
      forall w' u', (w <=? 0) = (w' <=? 0) -> (u <=? 0) = (u' <=? 0) ->
        place_compare_rec types p w q u = place_compare_rec types p w' q u')) as [H|H].
  { left. intros. by rewrite place_tri_compare_eq. }
  { right. intros w u. rewrite place_tri_compare_eq. split; [apply H|].
    intros w' u'. rewrite place_tri_compare_eq. apply H. }
  generalize types. revert q. induction p as [|v p IH]; intros [|v' q] tys; simpl.
  - by left.
  - right. intros w u. split; [by destruct (w <=? 0)|]. by intros w' u' ->.
  - right. intros w u. split; [by destruct (u <=? 0)|]. by intros w' u' _ ->.
  - destruct tys as [|comp tys]; [apply IH|]. destruct (comp v v'); simpl; [apply IH| |]; by right.
Qed.

Lemma key_equal_place p q w u :
  (length p <= length types)%nat -> (length q <= length types)%nat ->
  key_equal types p q = true -> place_compare (p, w) (q, u) = (w ?= u).
Proof using.
  unfold key_equal, key_compare, place_compare. rewrite bool_decide_eq_true, place_tri_compare_eq. simpl.
  generalize types. revert q. induction p as [|v p IH]; intros [|v' q] tys Hp Hq; simpl in *; try done.
  - by destruct tys.
  - by destruct tys.
  - destruct tys as [|comp tys]; simpl in *; [lia|]. destruct (comp v v'); [|done..]. simpl. intros. apply IH; [lia..|done].
Qed.

Lemma place_key_equal p q w :
  (length p <= length types)%nat -> place_compare (p, w) (q, w) = Eq -> key_equal types p q = true.
Proof using.
  unfold key_equal, key_compare, place_compare. rewrite bool_decide_eq_true, place_tri_compare_eq. simpl.
  generalize types. revert q. induction p as [|v p IH]; intros [|v' q] tys Hp; simpl in *.
  - by destruct tys.
  - by destruct (w <=? 0).
  - by destruct (w <=? 0).
  - destruct tys as [|comp tys]; simpl in *; [lia|]. destruct (comp v v'); [|done..]. simpl. intros. apply IH; [lia|done].
Qed.

(** ** Bounds as places *)

Definition bound_place (b : bound_view V) : place := (bv_prefix b, bound_weight_value (position_weight (bv_kind b))).
Definition key_place (p : list V) : place := (p, 0).

Definition is_start_kind (k : bound_kind) : bool := match k with incl_start | excl_start => true | _ => false end.

(** Bounds of the same side are ordered as their places; an end lies before a start if nothing
    is between them. *)
Lemma bound_less_place b1 b2 :
  bound_less types b1 b2 = true <->
  if negb (is_start_kind (bv_kind b1)) && is_start_kind (bv_kind b2) then place_compare (bound_place b1) (bound_place b2) <> Gt
  else place_compare (bound_place b1) (bound_place b2) = Lt.
Proof using.
  unfold bound_less, bound_tri_compare, bound_place, place_compare. rewrite bool_decide_eq_true.
  destruct b1 as [p1 k1], b2 as [p2 k2]. cbn [fst snd bv_prefix bv_kind].
  destruct (place_weights p1 p2) as [Hw|Hw]; [rewrite !Hw; by destruct k1, k2|].
  assert (forall k, (weight k <=? 0) = (bound_weight_value (position_weight k) <=? 0)) as Hk by (by intros []).
  destruct (Hw (weight (k1)) (weight k2)) as [Hne Heq]. rewrite <- (Heq _ _ (Hk k1) (Hk k2)).
  destruct (place_tri_compare types p1 (weight k1) p2 (weight k2)), k1, k2; simpl; naive_solver.
Qed.

Lemma key_bound_less_place p b :
  key_bound_less types p b = true <-> place_compare (key_place p) (bound_place b) = Lt.
Proof using.
  unfold key_bound_less, bound_place, key_place, place_compare. rewrite bool_decide_eq_true. cbn [fst snd].
  destruct b as [q k]. cbn [bv_prefix bv_kind].
  destruct (place_weights p q) as [Hw|Hw]; [rewrite !Hw; by destruct k|].
  destruct (Hw 0 (weight k)) as [_ Heq]. by rewrite (Heq 0 (bound_weight_value (position_weight k))) by (by destruct k).
Qed.

Lemma bound_key_less_place b p :
  bound_key_less types b p = true <-> place_compare (bound_place b) (key_place p) = Lt.
Proof using.
  unfold bound_key_less, bound_place, key_place, place_compare. rewrite bool_decide_eq_true. cbn [fst snd].
  destruct b as [q k]. cbn [bv_prefix bv_kind].
  destruct (place_weights q p) as [Hw|Hw]; [rewrite !Hw; by destruct k|].
  destruct (Hw (weight k) 0) as [_ Heq]. by rewrite (Heq (bound_weight_value (position_weight k)) 0) by (by destruct k).
Qed.

(** No key lies on the place of a bound. *)
Lemma bound_place_not_key b p : place_compare (bound_place b) (key_place p) <> Eq.
Proof using.
  unfold bound_place, key_place, place_compare. cbn [fst snd]. destruct b as [q k]. cbn [bv_prefix bv_kind].
  destruct (place_weights q p) as [Hw|Hw]; [rewrite Hw; by destruct k|apply Hw].
Qed.

End places.

(** * The order of positions *)

Section positions.
Context {V : Type} (types : list (V -> V -> comparison)) `{Htypes : !ColumnTypes types}.

(** Exactly the positions of the clustered region have a key, of at most as many values as
    there are clustering columns. *)
Definition position_ok (p : position_in_partition V) : Prop :=
  match p_ck p with
  | Some ck => p_type p = clustered /\ (length ck <= length types)%nat
  | None => p_type p <> clustered
  end.

Definition position_place (p : position_in_partition V) : place :=
  match p_ck p with Some ck => (ck, bound_weight_value (p_weight p)) | None => ([], 0) end.

Definition position_order (a b : position_in_partition V) : comparison :=
  then_compare (region_rank (p_type a) ?= region_rank (p_type b)) (place_compare types (position_place a) (position_place b)).

#[export] Instance position_order_total : TotalOrder position_order.
Proof using Htypes. apply (lex_total Z.compare (place_compare types) (fun p => region_rank (p_type p)) position_place). Qed.

Lemma region_rank_inj r r' : region_rank r = region_rank r' -> r = r'.
Proof using. by destruct r, r'. Qed.

Lemma position_tri_compare_order a b :
  position_ok a -> position_ok b -> position_tri_compare types a b = position_order a b.
Proof using.
  unfold position_ok, position_tri_compare, position_order, position_place, place_compare. intros Ha Hb.
  destruct (decide (p_type a = p_type b)) as [Heq|Hne].
  - rewrite Heq, Z.compare_refl in *. cbn [then_compare].
    destruct (p_ck a) as [ak|], (p_ck b) as [bk|]; [done|naive_solver..|by rewrite place_tri_compare_eq].
  - destruct (Z.compare_spec (region_rank (p_type a)) (region_rank (p_type b))) as [?%region_rank_inj| |]; done.
Qed.

Lemma position_less_order a b :
  position_ok a -> position_ok b -> position_less types a b = true <-> position_order a b = Lt.
Proof using. intros. unfold position_less. by rewrite bool_decide_eq_true, position_tri_compare_order. Qed.

Lemma position_ok_bound b : (length (bv_prefix b) <= length types)%nat -> position_ok (position_of_bound b).
Proof using. done. Qed.

Lemma position_order_clustered a b :
  p_type a = clustered -> p_type b = clustered -> position_order a b = place_compare types (position_place a) (position_place b).
Proof using. intros Ha Hb. unfold position_order. by rewrite Ha, Hb. Qed.

(** A place for every position, so that all positions compare as their places: those of the
    clustered region lie between [nowhere] and [beyond]. *)
Definition beyond : place (V := V) := ([], 2).
Definition nowhere : place (V := V) := ([], -2).
Definition general_place (p : position_in_partition V) : place (V := V) :=
  match p_type p with
  | partition_start => ([], -3)
  | static_row => nowhere
  | clustered => position_place p
  | partition_end => beyond
  end.

Lemma position_place_between (p : position_in_partition V) w :
  1 < Z.abs w -> place_compare types (position_place p) ([], w) = (0 ?= w) /\ place_compare types ([], w) (position_place p) = (w ?= 0).
Proof using.
  intros Hw. unfold place_compare, position_place. rewrite !place_tri_compare_eq.
  destruct (p_ck p) as [[|v ck]|]; cbn [fst snd place_compare_rec]; [|destruct (Z.leb_spec w 0); split; symmetry; zcompare; (done || lia)|done].
  destruct (p_weight p); cbn [bound_weight_value]; split; zcompare; (done || lia).
Qed.

Lemma position_tri_compare_place a b :
  position_ok a -> position_ok b -> position_tri_compare types a b = place_compare types (general_place a) (general_place b).
Proof using.
  intros Ha Hb. rewrite position_tri_compare_order by done. unfold position_order, general_place, nowhere, beyond.
  assert (forall p, position_ok p -> p_type p <> clustered -> position_place p = ([], 0)) as Hnone.
  { unfold position_ok, position_place. intros p Hp Ht. by destruct (p_ck p); [destruct Hp|]. }
  destruct (p_type a) eqn:Hat, (p_type b) eqn:Hbt; cbn [region_rank then_compare Z.compare Pos.compare Pos.compare_cont];
    rewrite ?(fun w H => proj1 (position_place_between a w H)), ?(fun w H => proj2 (position_place_between b w H)) by done; try done;
    rewrite ?(Hnone a), ?(Hnone b) by congruence; unfold place_compare; by rewrite !place_tri_compare_eq.
Qed.

(** The comparator defines a total order on positions, whose equality is [equal_compare]. *)
Lemma position_order_correct a b c :
  position_ok a -> position_ok b -> position_ok c ->
  position_tri_compare types a a = Eq /\
  position_tri_compare types b a = CompOpp (position_tri_compare types a b) /\
  (position_tri_compare types a b <> Gt -> position_tri_compare types b c <> Gt -> position_tri_compare types a c <> Gt) /\
  (position_equal types a b = true <-> position_tri_compare types a b = Eq).
Proof using Htypes.
  intros Ha Hb Hc. rewrite !position_tri_compare_order by done. split_and!.
  - apply (cmp_refl position_order).
  - apply (cmp_sym position_order).
  - apply (cmp_le_trans position_order).
  - unfold position_equal, position_order, position_place. unfold position_ok in Ha, Hb.
    destruct (decide (p_type a = p_type b)) as [Heq|Hne].
    + rewrite Heq, Z.compare_refl in *. cbn [then_compare].
      destruct (p_ck a) as [ak|], (p_ck b) as [bk|]; [|naive_solver..|].
      * rewrite andb_true_iff, bool_decide_eq_true. split.
        -- intros [-> Hk]. rewrite (key_equal_place types) by naive_solver. apply Z.compare_refl.
        -- intros Hcmp. unfold place_compare in Hcmp. destruct (place_weights types ak bk) as [Hw|Hw]; [|by destruct (proj1 (Hw _ _) Hcmp)].
           cbn [fst snd] in Hcmp. rewrite Hw, Z.compare_eq_iff in Hcmp. split; [by destruct (p_weight a), (p_weight b)|].
           apply (place_key_equal types ak bk 0); [naive_solver|]. unfold place_compare. cbn [fst snd]. by rewrite Hw.
      * split; [intros _; apply (cmp_refl (place_compare types))|done].
    + split; [done|]. destruct (Z.compare_spec (region_rank (p_type a)) (region_rank (p_type b))) as [?%region_rank_inj| |]; done.
Qed.

(** ** Rows in ranges *)

(** A row is in a clustering range if its key lies between the bounds. *)
Definition row_in_range (r : clustering_range V) (k : list V) : Prop :=
  bound_key_less types (from_range_start r) k = true /\ key_bound_less types k (from_range_end r) = true.

Definition row_in_position_range (r : position_range V) (k : list V) : Prop :=
  position_range_contains types r (for_key k) = true.

Definition range_keys_ok (r : clustering_range V) : Prop :=
  (forall b, start r = Some b -> (length (b_value b) <= length types)%nat) /\
  (forall b, end_ r = Some b -> (length (b_value b) <= length types)%nat).

Lemma range_bounds_ok r :
  range_keys_ok r ->
  (length (bv_prefix (from_range_start r)) <= length types)%nat /\ (length (bv_prefix (from_range_end r)) <= length types)%nat.
Proof using.
  intros [Hs He]. unfold from_range_start, from_range_end. split.
  - destruct (start r); [by apply Hs|simpl; lia].
  - destruct (end_ r); [by apply He|simpl; lia].
Qed.

Lemma row_between_places (s e : position_in_partition V) k :
  position_ok s -> position_ok e -> p_type s = clustered -> p_type e = clustered -> (length k <= length types)%nat ->
  row_in_position_range (PositionRange s e) k <->
  place_compare types (position_place s) (key_place k) <> Gt /\ place_compare types (key_place k) (position_place e) = Lt.
Proof using Htypes.
  intros Hs He Hst Het Hk. unfold row_in_position_range, position_range_contains. cbn [pr_start pr_end].
  assert (position_ok (for_key k)) as Hkok by done.
  rewrite andb_true_iff, negb_true_iff, <- not_true_iff_false, !position_less_order, !position_order_clustered by done.
  change (position_place (for_key k)) with (key_place k).
  assert (place_compare types (key_place k) (position_place s) <> Lt <-> place_compare types (position_place s) (key_place k) <> Gt);
    [rewrite (cmp_gt_lt (place_compare types)); tauto|tauto].
Qed.

(** Converting a clustering range to a range of positions keeps its rows. *)
Lemma position_range_from_range_rows r k :
  range_keys_ok r -> (length k <= length types)%nat ->
  row_in_position_range (position_range_from_range r) k <-> row_in_range r k.
Proof using Htypes.
  intros Hr Hk. destruct (range_bounds_ok r Hr). unfold position_range_from_range.
  rewrite row_between_places by done. unfold row_in_range. rewrite (bound_key_less_place types), (key_bound_less_place types).
  change (position_place (position_for_range_start r)) with (bound_place (from_range_start r)).
  change (position_place (position_for_range_end r)) with (bound_place (from_range_end r)).
  pose proof (bound_place_not_key types (from_range_start r) k).
  destruct (place_compare types (bound_place (from_range_start r)) (key_place k)); naive_solver.
Qed.

(** For rows, the position of a key lies like the one before all that it prefixes. *)
Definition side (w : bound_weight) : Z := if decide (w = after_all_prefixed) then 1 else -1.

Lemma start_side p w k :
  place_compare types (p, bound_weight_value w) (key_place k) <> Gt <-> place_compare types (p, side w) (key_place k) = Lt.
Proof using.
  unfold place_compare, key_place. cbn [fst snd]. destruct (place_weights types p k) as [Hw|Hw]; [rewrite !Hw; by destruct w|].
  destruct (Hw (bound_weight_value w) 0) as [Hne Heq]. rewrite (Heq (side w) 0) in * by (by destruct w).
  destruct (place_tri_compare types p (side w) k 0); naive_solver.
Qed.

Lemma end_side p w k :
  place_compare types (key_place k) (p, bound_weight_value w) = Lt <-> place_compare types (key_place k) (p, side w) = Lt.
Proof using.
  unfold place_compare, key_place. cbn [fst snd]. destruct (place_weights types k p) as [Hw|Hw]; [rewrite !Hw; by destruct w|].
  destruct (Hw 0 (bound_weight_value w)) as [_ Heq]. by rewrite (Heq 0 (side w)) by (by destruct w).
Qed.

Lemma place_bottom x w : place_compare types x ([], w) <> Gt -> w <= 0 -> x.1 = [].
Proof using.
  unfold place_compare. rewrite place_tri_compare_eq. destruct x as [[|v p] u]; cbn [fst snd]; [done|].
  simpl. destruct (Z.leb_spec w 0); [done|lia].
Qed.

Lemma place_top x w : place_compare types ([], w) x <> Gt -> 0 < w -> x.1 = [].
Proof using.
  unfold place_compare. rewrite place_tri_compare_eq. destruct x as [[|v p] u]; cbn [fst snd]; [done|].
  simpl. destruct (Z.leb_spec w 0); [lia|done].
Qed.

Lemma key_equal_nil : key_equal types [] [] = true.
Proof using. unfold key_equal, key_compare. generalize types. by intros []. Qed.

(** What [to_bound] returns for the two ends of a range with different keys. *)
Lemma to_bound_start {E} w sk x :
  place_compare types (sk, bound_weight_value w) x = Lt -> (x.1 = [] -> sk <> []) ->
  exists o, to_bound (E := E) (Position clustered w (Some sk)) true = Ret o /\
  (forall b, o = Some b -> b_value b = sk) /\
  bound_place (match o with Some b => BoundView (b_value b) (if b_inclusive b then incl_start else excl_start) | None => bottom end) =
    (sk, side w).
Proof using.
  intros Hlt Hne. unfold to_bound, is_before_all_clustered_rows, is_after_all_clustered_rows. cbn [p_type p_ck p_weight].
  rewrite (bool_decide_eq_true_2 (clustered = clustered)), (bool_decide_eq_false_2 (clustered = partition_end)) by done.
  cbn [region_rank Z.ltb Z.compare Pos.compare Pos.compare_cont defined mbind outcome_bind orb].
  destruct (is_empty_key sk) eqn:Hempty.
  - unfold is_empty_key in Hempty. destruct sk; [|done]. destruct w; simpl.
    + eexists. split; [done|]. split; [naive_solver|done].
    + eexists. split; [done|]. split; [naive_solver|done].
    + destruct (place_top x (bound_weight_value after_all_prefixed)); [by rewrite Hlt|done|]. naive_solver.
  - simpl. eexists. split; [done|]. split; [naive_solver|]. by destruct w.
Qed.

Lemma to_bound_end {E} w ek x :
  place_compare types x (ek, bound_weight_value w) = Lt -> (x.1 = [] -> ek <> []) ->
  exists o, to_bound (E := E) (Position clustered w (Some ek)) false = Ret o /\
  (forall b, o = Some b -> b_value b = ek) /\
  bound_place (match o with Some b => BoundView (b_value b) (if b_inclusive b then incl_end else excl_end) | None => top end) =
    (ek, side w).
Proof using.
  intros Hlt Hne. unfold to_bound, is_before_all_clustered_rows, is_after_all_clustered_rows. cbn [p_type p_ck p_weight].
  rewrite (bool_decide_eq_true_2 (clustered = clustered)), (bool_decide_eq_false_2 (clustered = partition_end)) by done.
  cbn [region_rank Z.ltb Z.compare Pos.compare Pos.compare_cont defined mbind outcome_bind orb].
  destruct (is_empty_key ek) eqn:Hempty.
  - unfold is_empty_key in Hempty. destruct ek; [|done]. destruct w; simpl.
    + destruct (place_bottom x (bound_weight_value before_all_prefixed)); [by rewrite Hlt|done|]. naive_solver.
    + destruct (place_bottom x (bound_weight_value equal)); [by rewrite Hlt|done|]. naive_solver.
    + eexists. split; [done|]. split; [naive_solver|done].
  - simpl. eexists. split; [done|]. split; [naive_solver|]. by destruct w.
Qed.

Lemma range_to_clustering_distinct {E} ws sk we ek :
  (length sk <= length types)%nat -> (length ek <= length types)%nat -> key_equal types sk ek = false ->
  place_compare types (sk, bound_weight_value ws) (ek, bound_weight_value we) = Lt ->
  exists r, position_range_to_clustering_range (E := E) types
    (PositionRange (Position clustered ws (Some sk)) (Position clustered we (Some ek))) = Ret (Some r) /\ range_keys_ok r /\
    bound_place (from_range_start r) = (sk, side ws) /\ bound_place (from_range_end r) = (ek, side we).
Proof using.
  intros Hs He Hne Hlt. unfold position_range_to_clustering_range. cbn [pr_start pr_end p_type p_ck].
  rewrite (bool_decide_eq_true_2 (clustered = clustered)), Hne by done. cbn [check mbind outcome_bind].
  destruct (to_bound_start (E := E) ws sk (ek, bound_weight_value we) Hlt) as (so & -> & Hsv & Hsp).
  { simpl. intros -> ->. by rewrite key_equal_nil in Hne. }
  destruct (to_bound_end (E := E) we ek (sk, bound_weight_value ws) Hlt) as (eo & -> & Hev & Hep).
  { simpl. intros -> ->. by rewrite key_equal_nil in Hne. }
  eexists. split; [done|]. split; [|split; [exact Hsp|exact Hep]].
  split; intros b Hb; [by rewrite (Hsv b Hb)|by rewrite (Hev b Hb)].
Qed.

(** The ranges whose two keys are equal: a single key, or no row at all. *)
Lemma range_to_clustering_equal {E} ws sk we ek :
  (length sk <= length types)%nat -> (length ek <= length types)%nat -> key_equal types sk ek = true ->
  bound_weight_value ws < bound_weight_value we ->
  position_range_to_clustering_range (E := E) types
    (PositionRange (Position clustered ws (Some sk)) (Position clustered we (Some ek))) =
    Ret (if decide (we = after_all_prefixed) then Some (make_singular sk) else None).
Proof using.
  intros Hs He Heq Hlt. unfold position_range_to_clustering_range. cbn [pr_start pr_end p_type p_ck p_weight].
  rewrite (bool_decide_eq_true_2 (clustered = clustered)), Heq by done. cbn [check mbind outcome_bind].
  by destruct ws, we.
Qed.

(** A range of positions that is not empty converts to the clustering range with the same rows,
    and to none only if it has no rows; no assertion fails. *)
Theorem position_range_to_clustering_range_correct {E} s e :
  position_ok s -> position_ok e -> p_type s = clustered -> p_type e = clustered -> position_less types s e = true ->
  exists o, position_range_to_clustering_range (E := E) types (PositionRange s e) = Ret o /\
  forall k, (length k <= length types)%nat ->
    row_in_position_range (PositionRange s e) k <->
    match o with Some r => range_keys_ok r /\ row_in_range r k | None => False end.
Proof using Htypes.
  intros Hs He Hst Het Hlt. pose proof Hlt as Hlt'. rewrite position_less_order, position_order_clustered in Hlt' by done.
  destruct s as [? ws [sk|]], e as [? we [ek|]]; simpl in Hst, Het; subst; [|by destruct He|by destruct Hs..].
  destruct Hs as [_ Hsl], He as [_ Hel]. unfold position_place in Hlt'. cbn [p_ck p_weight] in *.
  destruct (key_equal types sk ek) eqn:Heq.
  - pose proof (key_equal_place types sk ek (bound_weight_value ws) (bound_weight_value we) Hsl Hel Heq) as Hw.
    rewrite Hw, Z.compare_lt_iff in Hlt'. rewrite range_to_clustering_equal by done. eexists. split; [done|]. intros k Hk.
    rewrite row_between_places by done. unfold position_place. cbn [p_ck p_weight]. rewrite start_side, end_side.
    pose proof (key_equal_place types sk ek 1 1 Hsl Hel Heq) as Hek. pose proof (key_equal_place types sk ek (-1) (-1) Hsl Hel Heq) as Hek'.
    rewrite Z.compare_refl in Hek, Hek'. destruct (decide (we = after_all_prefixed)) as [->|Hwe].
    + unfold row_in_range. rewrite (bound_key_less_place types), (key_bound_less_place types). unfold bound_place. simpl.
      assert (side ws = -1) as -> by (by destruct ws). change (side after_all_prefixed) with 1.
      assert (range_keys_ok (make_singular sk)) by (by split; intros b [= <-]).
      assert (place_compare types (key_place k) (ek, 1) = Lt <-> place_compare types (key_place k) (sk, 1) = Lt);
        [split; intros; rank_with (place_compare types) [key_place k; (ek, 1); (sk, 1)]|tauto].
    + assert (side ws = -1 /\ side we = -1) as [-> ->] by (by destruct ws, we).
      split; [|done]. intros [??]. rank_with (place_compare types) [key_place k; (ek, -1); (sk, -1)].
  - destruct (range_to_clustering_distinct (E := E) ws sk we ek) as (r & Hr & Hok & Hrs & Hre); [done..|].
    exists (Some r). split; [done|]. intros k Hk.
    rewrite row_between_places by done. unfold position_place. cbn [p_ck p_weight]. rewrite start_side, end_side.
    unfold row_in_range. rewrite (bound_key_less_place types), (key_bound_less_place types), Hrs, Hre. tauto.
Qed.

(** ** Positions without a row between them *)

(** What lies strictly between a key and the place after all that it prefixes is longer. *)
Lemma between_longer p k :
  place_compare types (p, 0) (k, 0) = Lt -> place_compare types (k, 0) (p, 1) = Lt -> (length p < length k)%nat.
Proof using Htypes.
  unfold place_compare. rewrite !place_tri_compare_eq. cbn [fst snd]. unfold ColumnTypes in Htypes. revert types Htypes k.
  induction p as [|v p IH]; intros tys Htys [|v' k]; simpl; try done; [lia|].
  destruct Htys as [|comp tys Hc Htys]; [intros H1 H2; specialize (IH [] ltac:(constructor) k H1 H2); lia|].
  rewrite (cmp_sym comp v v'). destruct (comp v v'); simpl; try done. intros H1 H2. specialize (IH tys Htys k H1 H2). lia.
Qed.

Definition row_position_full (p : position_in_partition V) : Prop :=
  p_weight p = equal -> forall ck, p_ck p = Some ck -> length ck = length types.

(** For two positions of the clustered region, the answer that no row is between them is right. *)
Lemma no_clustering_row_between_sound a b k :
  position_ok a -> position_ok b -> p_type a = clustered -> p_type b = clustered ->
  row_position_full a -> row_position_full b -> length k = length types ->
  no_clustering_row_between types a b = true ->
  position_less types a (for_key k) = true -> position_less types (for_key k) b = true -> False.
Proof using Htypes.
  intros Ha Hb Hat Hbt Hfa Hfb Hk. assert (position_ok (for_key k)) by (split; [done|lia]).
  rewrite !position_less_order, !position_order_clustered by done. unfold no_clustering_row_between.
  destruct a as [? aw [ak|]], b as [? bw [bk|]]; simpl in Hat, Hbt; subst; [|by destruct Hb|by destruct Ha..].
  destruct Ha as [_ Hal], Hb as [_ Hbl]. unfold position_place. cbn [p_ck p_weight for_key] in *.
  rewrite andb_true_iff. intros [Heq Hw] H1 H2. change (k, bound_weight_value equal) with (key_place k) in *.
  pose proof (key_equal_place types ak bk (bound_weight_value aw) (bound_weight_value bw) Hal Hbl Heq) as Hab.
  pose proof (key_equal_place types ak bk (bound_weight_value bw) (bound_weight_value bw) Hal Hbl Heq) as Hbb.
  rewrite Z.compare_refl in Hbb.
  destruct aw, bw; simpl in Hw; try done; simpl in H1, H2, Hab, Hbb; try (
    rank_with (place_compare types) [key_place k; (ak, -1); (ak, 0); (ak, 1); (bk, -1); (bk, 0); (bk, 1)]).
  - apply (start_side ak equal k) in H1.
    simpl in H1. rank_with (place_compare types) [key_place k; (ak, 0); (bk, 0)].
  - assert (length ak < length k)%nat; [|specialize (Hfa eq_refl ak eq_refl); lia]. apply between_longer; [done|].
    unfold key_place in *. rank_with (place_compare types) [(k, 0); (ak, 1); (bk, 1)].
Qed.

(** For positions outside of the clustered region it is not: all rows are between the static row
    and the end of the partition. *)
Lemma no_clustering_row_between_regions k :
  no_clustering_row_between types for_static_row for_partition_end = true /\
  position_less types for_static_row (for_key k) = true /\ position_less types (for_key k) for_partition_end = true.
Proof using. done. Qed.

End positions.

(** * Witnesses *)

Module ClusteringExamples.

Definition columns : list (Z -> Z -> comparison) := [Z.compare; Z.compare].
#[local] Instance columns_types : ColumnTypes columns.
Proof. repeat constructor; apply Z_compare_total. Qed.

(** After all rows with the prefix 1 and up to the row (2, 5). *)
Lemma position_range_to_clustering_range_correct_witness :
  exists r, position_range_to_clustering_range (E := Empty_set) columns
      (PositionRange (Position clustered after_all_prefixed (Some [1])) (Position clustered after_all_prefixed (Some [2; 5]))) = Ret (Some r) /\
    row_in_range columns r [2; 5] /\ ~ row_in_range columns r [1; 9].
Proof.
  destruct (position_range_to_clustering_range_correct (E := Empty_set) columns
    (Position clustered after_all_prefixed (Some [1])) (Position clustered after_all_prefixed (Some [2; 5]))) as (o & Ho & Hrows);
    [by split; simpl; [done|lia]..|done|done|done|].
  destruct o as [r|]; [|done]. exists r. split; [exact Ho|]. split.
  - apply (Hrows [2; 5]); [simpl; lia|by split].
  - intros Hin. vm_compute in Ho. injection Ho as <-. by destruct Hin.
Defined.

End ClusteringExamples.
