(* ===== verification/RangeTombstones.v ===== *)
(** Tombstones and range tombstones ([src/mutation/tombstone.hh],
    [src/mutation/range_tombstone.hh], [src/mutation/range_tombstone.cc],
    [src/mutation/range_tombstone_list.hh], [src/mutation/range_tombstone_list.cc]).

    A tombstone deletes what was written before its timestamp; a range tombstone does so
    for a range of clustering keys. [range_tombstone_list] is an intrusive search tree of
    range tombstones that do not overlap. It is modelled as the list of its entries in
    their order. Entries have identities, their addresses, since the operations that a
    [reverter] records refer to entries that are changed and moved later; an iterator
    divides the list in two. The theorems are in [RangeTombstonesTheory]. *)
From S2P Require Import Prelude Ordering Interval Clustering.
Open Scope Z_scope.

(** * Tombstones *)

(** [api::missing_timestamp], the least [int64_t]. *)
Definition missing_timestamp : Z := - 2 ^ 63.

Record tombstone := Tombstone {
  timestamp : Z;
  deletion_time : Z;
}.
#[export] Instance tombstone_eq_dec : EqDecision tombstone.
Proof. solve_decision. Defined.

Definition no_tombstone : tombstone := Tombstone missing_timestamp 0.
Definition tombstone_compare (a b : tombstone) : comparison :=
  then_compare (timestamp a ?= timestamp b) (deletion_time a ?= deletion_time b).
Definition tombstone_less (a b : tombstone) : bool := bool_decide (tombstone_compare a b = Lt).
Definition tombstone_bool (t : tombstone) : bool := negb (timestamp t =? missing_timestamp).
Definition tombstone_apply (this t : tombstone) : tombstone := if tombstone_less this t then t else this.
(** Both return the new values of [*this] and of the argument. *)
Definition tombstone_apply_reversibly (this t : tombstone) : tombstone * tombstone := (tombstone_apply t this, this).
Definition tombstone_revert (this t : tombstone) : tombstone * tombstone := (t, this).

Section range_tombstones.
Context {V : Type} (types : list (V -> V -> comparison)).
Abbreviation key := (list V).
Abbreviation position := (position_in_partition V).
Abbreviation less := (position_less types).
Abbreviation cmp := (position_tri_compare types).

(** * Range tombstones *)

Record range_tombstone := RangeTombstone {
  rt_start : key;
  rt_start_kind : bound_kind;
  rt_end : key;
  rt_end_kind : bound_kind;
  rt_tomb : tombstone;
}.

Definition rt_of_bounds (start end_ : bound_view V) (tomb : tombstone) : range_tombstone :=
  RangeTombstone (bv_prefix start) (bv_kind start) (bv_prefix end_) (bv_kind end_) tomb.
Definition rt_of_positions {E} (start end_ : position) (tomb : tombstone) : outcome E range_tombstone :=
  s ← as_start_bound_view start;
  e ← as_end_bound_view end_;
  Ret (rt_of_bounds s e tomb).

Definition start_bound (rt : range_tombstone) : bound_view V := BoundView (rt_start rt) (rt_start_kind rt).
Definition end_bound (rt : range_tombstone) : bound_view V := BoundView (rt_end rt) (rt_end_kind rt).
Definition rt_position (rt : range_tombstone) : position := position_of_bound (start_bound rt).
Definition rt_end_position (rt : range_tombstone) : position := position_of_bound (end_bound rt).

Definition rt_equal (rt other : range_tombstone) : bool :=
  bool_decide (rt_tomb rt = rt_tomb other) &&
  bound_view_equal types (start_bound rt) (start_bound other) && bound_view_equal types (end_bound rt) (end_bound other).

(** [range_tombstone::compare]. *)
Definition rt_less (rt1 rt2 : range_tombstone) : bool := bound_less types (start_bound rt1) (start_bound rt2).

Definition is_single_clustering_row_tombstone (start : key) (start_kind : bound_kind) (end_ : key) (end_kind : bound_kind) : bool :=
  is_full_key types start && bool_decide (start_kind = incl_start) && bool_decide (end_kind = incl_end) && key_equal types start end_.

(** Two range tombstones with the same start: what becomes of the first, and what is left
    of the older one. *)
Definition rt_apply (this src : range_tombstone) : range_tombstone * option range_tombstone :=
  if decide (rt_tomb this = rt_tomb src) then
    (if bound_less types (end_bound this) (end_bound src)
     then RangeTombstone (rt_start this) (rt_start_kind this) (rt_end src) (rt_end_kind src) (rt_tomb this)
     else this, None)
  else
    let '(this, src) := if tombstone_less (rt_tomb this) (rt_tomb src) then (src, this) else (this, src) in
    if bound_less types (end_bound this) (end_bound src) then
      (this, Some (RangeTombstone (rt_end this) (invert_kind (rt_end_kind this)) (rt_end src) (rt_end_kind src) (rt_tomb src)))
    else (this, None).

Definition set_start {E} (rt : range_tombstone) (pos : position) : outcome E range_tombstone :=
  b ← as_start_bound_view pos;
  Ret (RangeTombstone (bv_prefix b) (bv_kind b) (rt_end rt) (rt_end_kind rt) (rt_tomb rt)).
Definition set_end {E} (rt : range_tombstone) (pos : position) : outcome E range_tombstone :=
  b ← as_end_bound_view pos;
  Ret (RangeTombstone (rt_start rt) (rt_start_kind rt) (bv_prefix b) (bv_kind b) (rt_tomb rt)).

(** The answer, and the range tombstone after the call. *)
Definition rt_trim_front {E} (rt : range_tombstone) (pos : position) : outcome E (bool * range_tombstone) :=
  if negb (less pos (rt_end_position rt)) then Ret (false, rt)
  else
    rt ← (if less (rt_position rt) pos then set_start rt pos else Ret rt);
    Ret (true, rt).

Definition rt_trim {E} (rt : range_tombstone) (start end_ : position) : outcome E (bool * range_tombstone) :=
  if negb (less start (rt_end_position rt)) then Ret (false, rt)
  else if negb (less (rt_position rt) end_) then Ret (false, rt)
  else
    rt ← (if less (rt_position rt) start then set_start rt start else Ret rt);
    rt ← (if less end_ (rt_end_position rt) then set_end rt end_ else Ret rt);
    Ret (true, rt).

Definition rt_reverse (rt : range_tombstone) : range_tombstone :=
  RangeTombstone (rt_end rt) (reverse_kind (rt_end_kind rt)) (rt_start rt) (reverse_kind (rt_start_kind rt)) (rt_tomb rt).

(** * Accumulating range tombstones in the order of a reader *)

Record range_tombstone_accumulator := Accumulator {
  ac_partition_tombstone : tombstone;
  ac_range_tombstones : list range_tombstone;
  ac_current_tombstone : tombstone;
}.

Definition make_accumulator : range_tombstone_accumulator := Accumulator no_tombstone [] no_tombstone.

Definition update_current_tombstone (ac : range_tombstone_accumulator) : range_tombstone_accumulator :=
  Accumulator (ac_partition_tombstone ac) (ac_range_tombstones ac)
    (fold_left (fun t rt => tombstone_apply t (rt_tomb rt)) (ac_range_tombstones ac) (ac_partition_tombstone ac)).

(** [_cmp(end bound of rt, (ck, w))]. *)
Definition ends_before (rt : range_tombstone) (ck : key) (w : Z) : bool :=
  bool_decide (place_tri_compare types (rt_end rt) (weight (rt_end_kind rt)) ck w = Lt).

(** The range tombstones that are left after the loop, and whether any was dropped. *)
Fixpoint drop_ended (rts : list range_tombstone) (ck : key) (w : Z) : list range_tombstone * bool :=
  match rts with
  | [] => ([], false)
  | rt :: rest => if ends_before rt ck w then ((drop_ended rest ck w).1, true) else (rts, false)
  end.

Definition drop_unneeded_tombstones (ac : range_tombstone_accumulator) (ck : key) (w : Z) : range_tombstone_accumulator :=
  let '(rts, dropped) := drop_ended (ac_range_tombstones ac) ck w in
  let ac := Accumulator (ac_partition_tombstone ac) rts (ac_current_tombstone ac) in
  if dropped then update_current_tombstone ac else ac.

Definition set_partition_tombstone (ac : range_tombstone_accumulator) (t : tombstone) : range_tombstone_accumulator :=
  update_current_tombstone (Accumulator t (ac_range_tombstones ac) (ac_current_tombstone ac)).

Definition tombstone_for_row (ac : range_tombstone_accumulator) (ck : key) : tombstone * range_tombstone_accumulator :=
  let ac := drop_unneeded_tombstones ac ck 0 in (ac_current_tombstone ac, ac).

Definition range_tombstones_for_row (ac : range_tombstone_accumulator) (ck : key) : list range_tombstone * range_tombstone_accumulator :=
  let ac := drop_unneeded_tombstones ac ck 0 in (ac_range_tombstones ac, ac).

Definition accumulator_clear (ac : range_tombstone_accumulator) : range_tombstone_accumulator :=
  Accumulator no_tombstone [] no_tombstone.

(** Insertion at [boost::upper_bound]: before the first whose end lies after [rt]'s. *)
Fixpoint insert_by_end (rts : list range_tombstone) (rt : range_tombstone) : list range_tombstone :=
  match rts with
  | [] => [rt]
  | rt1 :: rest => if bound_less types (end_bound rt) (end_bound rt1) then rt :: rts else rt1 :: insert_by_end rest rt
  end.

Definition accumulator_apply (ac : range_tombstone_accumulator) (rt : range_tombstone) : range_tombstone_accumulator :=
  let ac := drop_unneeded_tombstones ac (rt_start rt) (weight (rt_start_kind rt)) in
  Accumulator (ac_partition_tombstone ac) (insert_by_end (ac_range_tombstones ac) rt)
    (tombstone_apply (ac_current_tombstone ac) (rt_tomb rt)).

(** * Lists of range tombstones *)

(** An entry with its address. *)
Definition entry : Type := N * range_tombstone.

(** What a [reverter] records: references to entries, an entry that was taken out, and the
    value an entry had. *)
Inductive undo_op :=
| insert_undo_op (new_rt : N)
| erase_undo_op (rt : entry)
| update_undo_op (old_rt : range_tombstone) (new_rt : N).

(** The list, and the address of the entry that will be allocated next. *)
Record range_tombstone_list := RangeTombstoneList {
  rl_tombstones : list entry;
  rl_next : N;
}.

Definition make_range_tombstone_list : range_tombstone_list := RangeTombstoneList [] 0.
Definition rl_values (l : range_tombstone_list) : list range_tombstone := (rl_tombstones l).*2.

(** The state of an insertion: the entries before the iterator, the next address and the
    recorded operations. *)
Record editor := Editor {
  ed_before : list entry;
  ed_next : N;
  ed_ops : list undo_op;
}.

(** [nop_reverter] records nothing. *)
Context (recording : bool).

Definition record_op (ed : editor) (op : undo_op) : list undo_op :=
  if recording then ed_ops ed ++ [op] else ed_ops ed.

(** Allocates an entry for [rt] and inserts it before the iterator. *)
Definition rev_insert (ed : editor) (rt : range_tombstone) : editor :=
  Editor (ed_before ed ++ [(ed_next ed, rt)]) (ed_next ed + 1) (record_op ed (insert_undo_op (ed_next ed))).

(** Takes the entry [it] out of the list. *)
Definition rev_erase (ed : editor) (it : entry) : editor :=
  Editor (ed_before ed) (ed_next ed) (record_op ed (erase_undo_op it)).

(** Replaces the value of the entry [it]. *)
Definition rev_update (ed : editor) (it : entry) (new_rt : range_tombstone) : entry * editor :=
  ((it.1, new_rt), Editor (ed_before ed) (ed_next ed) (record_op ed (update_undo_op it.2 it.1))).

Definition pass_entry (ed : editor) (it : entry) : editor := Editor (ed_before ed ++ [it]) (ed_next ed) (ed_ops ed).

(** The loop of [insert_from], from the iterator on; returns the entries from the iterator on. *)
Fixpoint insert_loop (after : list entry) (ed : editor) (start end_ : position) (tomb : tombstone) :
    outcome Empty_set (editor * list entry) :=
  match after with
  | [] =>
    rt ← rt_of_positions start end_ tomb;
    Ret (rev_insert ed rt, [])
  | it :: rest =>
    let it_start := rt_position it.2 in
    let it_end := rt_end_position it.2 in
    if negb (bool_decide (cmp end_ start = Gt)) then Ret (ed, after)
    else if bool_decide (cmp end_ it_start = Lt) then
      if bool_decide (rt_tomb it.2 = tomb) && bool_decide (cmp end_ it_start = Eq) then
        rt ← rt_of_positions start end_ tomb;
        let '(it, ed) := rev_update ed it rt in
        Ret (ed, it :: rest)
      else
        rt ← rt_of_positions start end_ tomb;
        Ret (rev_insert ed rt, after)
    else
      match tombstone_compare tomb (rt_tomb it.2) with
      | Eq =>
        let start := if less it_start start then it_start else start in
        let end_ := if less end_ it_end then it_end else end_ in
        insert_loop rest (rev_erase ed it) start end_ tomb
      | Gt =>
        '(it, ed) ← (if less it_start start then
            left ← rt_of_positions it_start start (rt_tomb it.2);
            right ← rt_of_positions start it_end (rt_tomb it.2);
            let '(it, ed) := rev_update ed it right in
            Ret (it, rev_insert ed left)
          else Ret (it, ed));
        if less end_ (rt_end_position it.2) then
          rt ← rt_of_positions start end_ tomb;
          right ← rt_of_positions end_ (rt_end_position it.2) (rt_tomb it.2);
          let '(it, ed) := rev_update ed it right in
          Ret (rev_insert ed rt, it :: rest)
        else insert_loop rest (rev_erase ed it) start end_ tomb
      | Lt =>
        if less start it_start && negb (less it_start end_) then
          rt ← rt_of_positions start end_ tomb;
          Ret (rev_insert ed rt, after)
        else
          ed ← (if less start it_start then
              rt ← rt_of_positions start it_start tomb;
              Ret (rev_insert ed rt)
            else Ret ed);
          if less it_end end_ then insert_loop rest (pass_entry ed it) it_end end_ tomb
          else Ret (ed, after)
      end
  end.

Definition insert_from (ed : editor) (after : list entry) (start end_ : position) (tomb : tombstone) :
    outcome Empty_set (editor * list entry) :=
  match last (ed_before ed) with
  | Some prev =>
    if bool_decide (rt_tomb prev.2 = tomb) && bool_decide (cmp (rt_end_position prev.2) start = Eq) then
      insert_loop after (rev_erase (Editor (removelast (ed_before ed)) (ed_next ed) (ed_ops ed)) prev)
        (rt_position prev.2) end_ tomb
    else insert_loop after ed start end_ tomb
  | None => insert_loop after ed start end_ tomb
  end.

(** The list divided at the first entry that satisfies the predicate, where a search of
    the tree ends. *)
Fixpoint split_at_first {A} (f : A -> bool) (l : list A) : list A * list A :=
  match l with
  | [] => ([], [])
  | x :: l' => if f x then ([], l) else let '(a, b) := split_at_first f l' in (x :: a, b)
  end.

(** [apply_reversibly] of one range tombstone; returns the list and the recorded operations. *)
Definition apply_recorded (l : range_tombstone_list) (ops : list undo_op) (rt : range_tombstone) :
    outcome Empty_set (range_tombstone_list * list undo_op) :=
  let start := rt_position rt in
  let end_ := rt_end_position rt in
  if negb (less start end_) then Ret (l, ops)
  else
    match last (rl_tombstones l) with
    | Some last =>
      let '(before, after) :=
        if less start (rt_end_position last.2)
        then split_at_first (fun e => less start (rt_end_position e.2)) (rl_tombstones l)
        else (rl_tombstones l, []) in
      '(ed, after) ← insert_from (Editor before (rl_next l) ops) after start end_ (rt_tomb rt);
      Ret (RangeTombstoneList (ed_before ed ++ after) (ed_next ed), ed_ops ed)
    | None =>
      new ← rt_of_positions start end_ (rt_tomb rt);
      let ed := rev_insert (Editor [] (rl_next l) ops) new in
      Ret (RangeTombstoneList (ed_before ed) (ed_next ed), ed_ops ed)
    end.

Fixpoint apply_all_recorded (l : range_tombstone_list) (ops : list undo_op) (rts : list range_tombstone) :
    outcome Empty_set (range_tombstone_list * list undo_op) :=
  match rts with
  | [] => Ret (l, ops)
  | rt :: rts =>
    '(l, ops) ← apply_recorded l ops rt;
    apply_all_recorded l ops rts
  end.

End range_tombstones.
Arguments range_tombstone : clear implicits.
Arguments range_tombstone_accumulator : clear implicits.
Arguments range_tombstone_list : clear implicits.
Arguments entry : clear implicits.
Arguments undo_op : clear implicits.
Arguments editor : clear implicits.

Section range_tombstone_lists.
Context {V : Type} (types : list (V -> V -> comparison)).
Abbreviation key := (list V).
Abbreviation position := (position_in_partition V).
Abbreviation less := (position_less types).
Abbreviation range_tombstone := (range_tombstone V).
Abbreviation range_tombstone_list := (range_tombstone_list V).

(** ** Applying *)

(** [apply(const schema&, const range_tombstone&)], with a [nop_reverter]. *)
Definition rl_apply (l : range_tombstone_list) (rt : range_tombstone) : outcome Empty_set range_tombstone_list :=
  '(l, _) ← apply_recorded types false l [] rt; Ret l.

(** [apply_monotonically(const schema&, const range_tombstone&)]: the operations are recorded
    and forgotten. *)
Definition rl_apply_monotonically (l : range_tombstone_list) (rt : range_tombstone) : outcome Empty_set range_tombstone_list :=
  '(l, _) ← apply_recorded types true l [] rt; Ret l.

(** [apply(const schema&, const range_tombstone_list&)]. *)
Fixpoint rl_apply_all (l : range_tombstone_list) (rts : list range_tombstone) : outcome Empty_set range_tombstone_list :=
  match rts with
  | [] => Ret l
  | rt :: rts => l ← rl_apply l rt; rl_apply_all l rts
  end.

(** [apply_reversibly(const schema&, range_tombstone_list&)]: the list and the reverter. *)
Definition rl_apply_reversibly (l : range_tombstone_list) (rt_list : list range_tombstone) :
    outcome Empty_set (range_tombstone_list * list (undo_op V)) :=
  apply_all_recorded types true l [] rt_list.

(** [apply_monotonically] of a list that is consumed: [preempt] tells, entry by entry, whether
    the task quota is used up. Returns the list, what is left of the other one and whether all
    was applied. *)
Fixpoint rl_apply_monotonically_all (preemptible : bool) (preempt : nat -> bool) (l : range_tombstone_list)
    (rts : list range_tombstone) : outcome Empty_set (range_tombstone_list * list range_tombstone * bool) :=
  match rts with
  | [] => Ret (l, [], true)
  | rt :: rts =>
    l ← rl_apply_monotonically l rt;
    if preemptible && preempt (length rts) then Ret (l, rts, false)
    else rl_apply_monotonically_all preemptible preempt l rts
  end.

(** ** Undoing *)

(** The value of the entry at an address. *)
Definition entry_value (l : list (entry V)) (id : N) : option range_tombstone :=
  '(_, e) ← list_find (fun e => e.1 = id) l; Some e.2.

(** [find]: the entry with the end bound of [rt], if it equals [rt]. *)
Definition same_end (e : entry V) (rt : range_tombstone) : bool :=
  negb (bound_less types (end_bound e.2) (end_bound rt)) && negb (bound_less types (end_bound rt) (end_bound e.2)).
Definition find_entry (l : list (entry V)) (rt : range_tombstone) : option nat :=
  '(i, e) ← list_find (fun e => same_end e rt = true) l;
  if rt_equal types e.2 rt then Some i else None.

(** [_tombstones.insert(entry)], a search by the start bounds; an entry with an equivalent
    start is kept. *)
Fixpoint insert_entry (l : list (entry V)) (e : entry V) : list (entry V) :=
  match l with
  | [] => [e]
  | x :: rest =>
    if rt_less types x.2 e.2 then x :: insert_entry rest e
    else if rt_less types e.2 x.2 then e :: l
    else l
  end.

Definition undo (op : undo_op V) (l : list (entry V)) : outcome Empty_set (list (entry V)) :=
  match op with
  | insert_undo_op id =>
    new_rt ← defined (entry_value l id);
    match find_entry l new_rt with
    | Some i => Ret (delete i l)
    | None => Abort assertion_failed
    end
  | erase_undo_op rt => Ret (insert_entry l rt)
  | update_undo_op old_rt id =>
    new_rt ← defined (entry_value l id);
    match find_entry l new_rt with
    | Some i => Ret (alter (fun e => (e.1, old_rt)) i l)
    | None => Abort assertion_failed
    end
  end.

(** [revert]: the operations are undone in reverse order. *)
Fixpoint undo_all (ops : list (undo_op V)) (l : list (entry V)) : outcome Empty_set (list (entry V)) :=
  match ops with
  | [] => Ret l
  | op :: ops => l ← undo op l; undo_all ops l
  end.
Definition revert (ops : list (undo_op V)) (l : range_tombstone_list) : outcome Empty_set range_tombstone_list :=
  es ← undo_all (rev ops) (rl_tombstones l);
  Ret (RangeTombstoneList es (rl_next l)).

(** ** Queries *)

Definition search_tombstone_covering (l : list range_tombstone) (k : key) : tombstone :=
  match (split_at_first (fun rt => key_bound_less types k (end_bound rt)) l).2 with
  | [] => no_tombstone
  | it :: _ => if key_bound_less types k (start_bound it) then no_tombstone else rt_tomb it
  end.

(** The range between two iterators: from the first entry that satisfies [f] to the first that
    satisfies [g]. *)
Definition iterator_range (f g : range_tombstone -> bool) (l : list range_tombstone) : list range_tombstone :=
  (split_at_first g (split_at_first f l).2).1.

Definition rl_slice (l : list range_tombstone) (r : clustering_range V) : list range_tombstone :=
  let bv_range := from_range r in
  iterator_range (fun rt => negb (bound_less types (end_bound rt) bv_range.1))
    (fun rt => bound_less types bv_range.2 (start_bound rt)) l.
Definition rl_slice_positions (l : list range_tombstone) (start end_ : position) : list range_tombstone :=
  iterator_range (fun rt => less start (rt_end_position rt)) (fun rt => negb (less (rt_position rt) end_)) l.
Definition lower_slice (l : list range_tombstone) (start : bound_view V) (before : position) : list range_tombstone :=
  iterator_range (fun rt => negb (bound_less types (end_bound rt) start)) (fun rt => negb (less (rt_end_position rt) before)) l.
Definition upper_slice (l : list range_tombstone) (after : position) (end_ : bound_view V) : list range_tombstone :=
  iterator_range (fun rt => less after (rt_position rt)) (fun rt => bound_less types end_ (start_bound rt)) l.

Definition rl_equal (l other : list range_tombstone) : bool :=
  Nat.eqb (length l) (length other) && forallb (fun p => rt_equal types p.1 p.2) (zip l other).

(** ** Difference and trimming *)

(** [diff.apply(s, start, end, tomb)]. *)
Definition rl_apply_bounds (l : range_tombstone_list) (start end_ : bound_view V) (tomb : tombstone) :
    outcome Empty_set range_tombstone_list := rl_apply l (rt_of_bounds start end_ tomb).

(** The loops of [difference]: [this] begins with the current range tombstone, of which the part
    from [cur_start] is left. Every round moves one of the two iterators. *)
Fixpoint difference_loop (fuel : nat) (this other : list range_tombstone) (cur_start cur_end : bound_view V)
    (diff : range_tombstone_list) : outcome Empty_set range_tombstone_list :=
  match this, fuel with
  | [], _ => Ret diff
  | _, O => Abort out_of_fuel
  | this_rt :: this_rest, S fuel =>
    let advance_this_rt other diff :=
      match this_rest with
      | [] => difference_loop fuel [] other cur_start cur_end diff
      | rt :: _ => difference_loop fuel this_rest other (start_bound rt) (end_bound rt) diff
      end in
    match other with
    | [] =>
      diff ← rl_apply_bounds diff cur_start cur_end (rt_tomb this_rt);
      advance_this_rt [] diff
    | other_rt :: other_rest =>
      if bound_less types cur_end (start_bound other_rt) then
        diff ← rl_apply_bounds diff cur_start cur_end (rt_tomb this_rt);
        advance_this_rt other diff
      else if bound_less types (end_bound other_rt) cur_start then
        difference_loop fuel this other_rest cur_start cur_end diff
      else
        let new_end := BoundView (bv_prefix (start_bound other_rt)) (invert_kind (bv_kind (start_bound other_rt))) in
        '(cur_start, diff) ← (if bound_less types cur_start new_end then
            diff ← rl_apply_bounds diff cur_start new_end (rt_tomb this_rt);
            Ret (start_bound other_rt, diff)
          else Ret (cur_start, diff));
        let newer := tombstone_less (rt_tomb other_rt) (rt_tomb this_rt) in
        if bound_less types cur_end (end_bound other_rt) then
          diff ← (if newer then rl_apply_bounds diff cur_start cur_end (rt_tomb this_rt) else Ret diff);
          advance_this_rt other diff
        else
          let end_ := end_bound other_rt in
          diff ← (if newer then rl_apply_bounds diff cur_start end_ (rt_tomb this_rt) else Ret diff);
          let cur_start := BoundView (bv_prefix end_) (invert_kind (bv_kind end_)) in
          if bound_less types cur_end cur_start then
            match this_rest with
            | [] => difference_loop fuel [] other_rest cur_start cur_end diff
            | rt :: _ => difference_loop fuel this_rest other_rest (start_bound rt) (end_bound rt) diff
            end
          else difference_loop fuel this other_rest cur_start cur_end diff
    end
  end.

Definition difference (this other : list range_tombstone) : outcome Empty_set range_tombstone_list :=
  match this with
  | [] => Ret make_range_tombstone_list
  | this_rt :: _ =>
    difference_loop (length this + length other) this other (start_bound this_rt) (end_bound this_rt) make_range_tombstone_list
  end.

(** [std::max] and [std::min]. *)
Definition max_bound (a b : bound_view V) : bound_view V := if bound_less types a b then b else a.
Definition min_bound (a b : bound_view V) : bound_view V := if bound_less types b a then b else a.

Definition trim_range (l : list range_tombstone) (list_ : range_tombstone_list) (range : clustering_range V) :
    outcome Empty_set range_tombstone_list :=
  let start := from_range_start range in
  let end_ := from_range_end range in
  rl_apply_all list_
    ((fun rt => rt_of_bounds (max_bound (start_bound rt) start) (min_bound (end_bound rt) end_) (rt_tomb rt)) <$> rl_slice l range).

Fixpoint trim_ranges (l : list range_tombstone) (list_ : range_tombstone_list) (ranges : list (clustering_range V)) :
    outcome Empty_set range_tombstone_list :=
  match ranges with
  | [] => Ret list_
  | range :: ranges => list_ ← trim_range l list_ range; trim_ranges l list_ ranges
  end.
Definition rl_trim (l : list range_tombstone) (ranges : list (clustering_range V)) : outcome Empty_set range_tombstone_list :=
  trim_ranges l make_range_tombstone_list ranges.

(** ** Removing *)

Definition erase_where (f : range_tombstone -> bool) (l : range_tombstone_list) : range_tombstone_list :=
  RangeTombstoneList (filter (fun e => f e.2 = false) (rl_tombstones l)) (rl_next l).

Definition rl_clear (l : range_tombstone_list) : range_tombstone_list := RangeTombstoneList [] (rl_next l).

(** [pop] of the entry an iterator points to; the end iterator has none. *)
Definition rl_pop (l : range_tombstone_list) (it : nat) : outcome Empty_set (range_tombstone * range_tombstone_list) :=
  match rl_tombstones l !! it with
  | Some e => Ret (e.2, RangeTombstoneList (delete it (rl_tombstones l)) (rl_next l))
  | None => Abort undefined_behaviour
  end.

Definition pop_front_and_lock (l : range_tombstone_list) : outcome Empty_set (range_tombstone * range_tombstone_list) :=
  match rl_tombstones l with
  | [] => Abort assertion_failed
  | e :: rest => Ret (e.2, RangeTombstoneList rest (rl_next l))
  end.

End range_tombstone_lists.
