(* ===== verification/RangeTombstonesTheory.v ===== *)
(** The theory of range tombstones ([RangeTombstones]).

    A range tombstone covers the places from its start to its end; a list of them gives each
    place the tombstone of the range that covers it ([covering]). Applying a range tombstone
    is a pointwise maximum, the lists that result are canonical, and a canonical list is
    determined by what it covers: so the order of application does not matter. Every change
    of a list can be undone. *)
From S2P Require Import Prelude Ordering Interval IntervalTheory Clustering RangeTombstones.
Open Scope Z_scope.

(** * The order of tombstones *)

#[export] Instance tombstone_compare_total : TotalOrder tombstone_compare.
Proof. apply (lex_total Z.compare Z.compare timestamp deletion_time). Qed.

Lemma tombstone_compare_eq a b : tombstone_compare a b = Eq <-> a = b.
Proof.
  destruct a as [t d], b as [t' d']. unfold tombstone_compare, then_compare. simpl.
  destruct (Z.compare_spec t t'); [rewrite Z.compare_eq_iff| |]; split; try naive_solver lia.
Qed.

Lemma tombstone_less_spec a b : tombstone_less a b = true <-> tombstone_compare a b = Lt.
Proof. apply bool_decide_eq_true. Qed.

Lemma tombstone_apply_comm a b : tombstone_apply a b = tombstone_apply b a.
Proof.
  unfold tombstone_apply, tombstone_less. rewrite (cmp_sym tombstone_compare b a).
  destruct (tombstone_compare b a) eqn:Hab; simpl; try done. by apply tombstone_compare_eq in Hab.
Qed.

Lemma tombstone_apply_idem a : tombstone_apply a a = a.
Proof. unfold tombstone_apply. by destruct (tombstone_less a a). Qed.

Lemma tombstone_apply_assoc a b c : tombstone_apply a (tombstone_apply b c) = tombstone_apply (tombstone_apply a b) c.
Proof.
  unfold tombstone_apply, tombstone_less.
  repeat case_bool_decide; try done; exfalso; rank_with tombstone_compare [a; b; c].
Qed.

(** The greater of two tombstones that may be missing. *)
Definition omax (a b : option tombstone) : option tombstone :=
  match a, b with
  | Some a, Some b => Some (tombstone_apply a b)
  | None, b => b
  | a, None => a
  end.

#[export] Instance omax_mergeable : Mergeable (fun _ => True) eq omax.
Proof.
  split; try done; try congruence.
  - apply _.
  - intros [a|] [b|] _ _; simpl; [by rewrite tombstone_apply_comm|done..].
  - intros [a|] [b|] [c|] _ _ _; simpl; [by rewrite tombstone_apply_assoc|done..].
  - intros [a|] _; simpl; [by rewrite tombstone_apply_idem|done].
Qed.

(** * Places *)

Definition place_ltb {V} (types : list (V -> V -> comparison)) (a b : place) : bool :=
  match place_compare types a b with Lt => true | _ => false end.

Lemma place_lt_true {V} (types : list (V -> V -> comparison)) a b : place_ltb types a b = true <-> place_compare types a b = Lt.
Proof. unfold place_ltb. by destruct (place_compare types a b). Qed.

(** Turns the comparisons of the listed places into comparisons of integers. *)
Ltac to_ranks types ps :=
  let rk := fresh "rk" in
  let Hrk := fresh "Hrk" in
  let Hlt := fresh "Hlt" in
  destruct (rank_exists (place_compare types) ps) as [rk Hrk];
  assert (forall a b, a ∈ ps -> b ∈ ps -> place_ltb types a b = (rk a <? rk b)) as Hlt
    by (intros ????; unfold place_ltb, Z.ltb; by rewrite Hrk);
  repeat match goal with
  | H : context [place_compare types ?a ?b] |- _ => rewrite (Hrk a b) in H by in_list
  | H : context [place_ltb types ?a ?b] |- _ => rewrite (Hlt a b) in H by in_list
  | |- context [place_compare types ?a ?b] => rewrite (Hrk a b) by in_list
  | |- context [place_ltb types ?a ?b] => rewrite (Hlt a b) by in_list
  end; clear Hrk Hlt;
  rewrite ?Z.compare_lt_iff, ?Z.compare_le_iff, ?Z.compare_gt_iff, ?Z.compare_eq_iff, ?Z.ltb_lt, ?Z.ltb_ge in *.

(** Decides a goal about the listed places. *)
Ltac places_of types ps :=
  repeat match goal with |- context [if place_ltb types ?a ?b then _ else _] => destruct (place_ltb types a b) eqn:? end;
  to_ranks types ps;
  repeat match goal with
  | |- context [?a <? ?b] => destruct (Z.ltb_spec a b)
  end; simpl; try done; try lia.

Section theory.
Context {V : Type} (types : list (V -> V -> comparison)) `{Htypes : !ColumnTypes types}.
Abbreviation range_tombstone := (range_tombstone V).
Abbreviation place := (@place V).
Abbreviation position := (position_in_partition V).
Abbreviation cmp := (place_compare types).
Abbreviation place_lt := (place_ltb types).
Ltac places ps := places_of types ps.

(** * Ranges of places *)

Definition lo (rt : range_tombstone) : place := bound_place (start_bound rt).
Definition hi (rt : range_tombstone) : place := bound_place (end_bound rt).

(** The two bounds are a start and an end, and their keys fit the schema. *)
Definition rt_wf (rt : range_tombstone) : Prop :=
  is_start_kind (rt_start_kind rt) = true /\ is_start_kind (rt_end_kind rt) = false /\
  (length (rt_start rt) <= length types)%nat /\ (length (rt_end rt) <= length types)%nat.
(** Moreover the range is not empty. *)
Definition rt_ok (rt : range_tombstone) : Prop := rt_wf rt /\ place_lt (lo rt) (hi rt) = true.

Definition between (s e x : place) : bool := negb (place_lt x s) && place_lt x e.
Definition covers (rt : range_tombstone) (x : place) : bool := between (lo rt) (hi rt) x.

(** The tombstone of the range that covers a place. *)
Fixpoint covering (l : list range_tombstone) (x : place) : option tombstone :=
  match l with
  | [] => None
  | rt :: l => if covers rt x then Some (rt_tomb rt) else covering l x
  end.

(** What covers a place after a tombstone was applied to a range. *)
Definition overlay (s e : place) (t : tombstone) (x : place) (o : option tombstone) : option tombstone :=
  if between s e x then omax o (Some t) else o.

(** The entries follow each other without overlap, after the place [p] if there is one; and
    entries that touch have different tombstones. *)
Definition follows (p : option (place * tombstone)) (s : place) (t : tombstone) : Prop :=
  match p with
  | None => True
  | Some (h, u) => place_lt s h = false /\ (cmp h s = Eq -> u <> t)
  end.
Fixpoint canonical (p : option (place * tombstone)) (l : list range_tombstone) : Prop :=
  match l with
  | [] => True
  | rt :: l => rt_ok rt /\ follows p (lo rt) (rt_tomb rt) /\ canonical (Some (hi rt, rt_tomb rt)) l
  end.

Definition last_of (p : option (place * tombstone)) (l : list range_tombstone) : option (place * tombstone) :=
  match last l with Some rt => Some (hi rt, rt_tomb rt) | None => p end.

Lemma last_of_cons p rt l : last_of p (rt :: l) = last_of (Some (hi rt, rt_tomb rt)) l.
Proof using. unfold last_of. rewrite last_cons. by destruct (last l). Qed.

Lemma canonical_app p l k : canonical p (l ++ k) <-> canonical p l /\ canonical (last_of p l) k.
Proof using.
  revert p. induction l as [|rt l IH]; intros p; [simpl; tauto|].
  rewrite last_of_cons. cbn [canonical app]. rewrite IH. tauto.
Qed.

Lemma covering_app l k x : covering (l ++ k) x = match covering l x with Some t => Some t | None => covering k x end.
Proof using. induction l as [|rt l IH]; simpl; [done|]. by destruct (covers rt x). Qed.

(** Nothing is covered before the place that a list follows. *)
Lemma covering_before h t l x : canonical (Some (h, t)) l -> place_lt x h = true -> covering l x = None.
Proof using Htypes.
  revert h t. induction l as [|rt l IH]; intros h t; [done|]. cbn [canonical covering].
  intros ([_ Hok] & [Hf _] & Hl) Hx. unfold covers, between.
  assert (place_lt x (lo rt) = true) as -> by (places [x; h; lo rt]). simpl.
  apply (IH _ _ Hl). places [x; h; lo rt; hi rt].
Qed.

(** A list that follows a place follows any place before it. *)
Lemma canonical_weaken h t h' t' l : canonical (Some (h, t)) l -> place_lt h' h = true -> canonical (Some (h', t')) l.
Proof using Htypes.
  destruct l as [|rt l]; [done|]. cbn [canonical follows]. intros (Hok & [Hf _] & Hl) Hh. split_and!; try done.
  - places [h; h'; lo rt].
  - intros ?. exfalso. places [h; h'; lo rt].
Qed.

Lemma canonical_none p l : canonical p l -> canonical None l.
Proof using. destruct l; simpl; tauto. Qed.

(** * Positions that are bounds *)

Definition bound_position (p : position) : Prop :=
  exists ck, p_type p = clustered /\ p_weight p <> equal /\ p_ck p = Some ck /\ (length ck <= length types)%nat.

Lemma bound_position_ok p : bound_position p -> position_ok types p /\ p_type p = clustered.
Proof using. intros (ck & Ht & _ & Hck & Hl). unfold position_ok. by rewrite Hck. Qed.

Lemma cmp_position a b :
  bound_position a -> bound_position b -> position_tri_compare types a b = cmp (position_place a) (position_place b).
Proof using.
  intros [Ha Hat]%bound_position_ok [Hb Hbt]%bound_position_ok.
  by rewrite position_tri_compare_order, position_order_clustered.
Qed.

Lemma less_position a b :
  bound_position a -> bound_position b -> position_less types a b = place_lt (position_place a) (position_place b).
Proof using.
  intros. unfold position_less, place_ltb. rewrite cmp_position by done. by destruct (cmp _ _).
Qed.

Lemma rt_positions rt : rt_wf rt -> bound_position (rt_position rt) /\ bound_position (rt_end_position rt).
Proof using.
  intros (_ & _ & Hs & He). split; eexists; (split; [done|]); (split; [|done]); simpl; [by destruct (rt_start_kind rt)|by destruct (rt_end_kind rt)].
Qed.

Lemma rt_of_positions_any {E} s e t :
  bound_position s -> bound_position e ->
  exists rt, rt_of_positions (E := E) s e t = Ret rt /\
  rt_wf rt /\ lo rt = position_place s /\ hi rt = position_place e /\ rt_tomb rt = t.
Proof using.
  intros (sk & _ & Hsw & Hsk & Hsl) (ek & _ & Hew & Hek & Hel).
  unfold rt_of_positions, as_start_bound_view, as_end_bound_view, position_place. rewrite Hsk, Hek.
  rewrite !bool_decide_eq_false_2 by done. simpl. eexists. split; [done|].
  unfold rt_wf, lo, hi, bound_place, start_bound, end_bound. simpl.
  by destruct (p_weight s), (p_weight e).
Qed.

Lemma rt_of_positions_spec s e t :
  bound_position s -> bound_position e ->
  exists rt, rt_of_positions (E := Empty_set) s e t = Ret rt /\
  rt_wf rt /\ lo rt = position_place s /\ hi rt = position_place e /\ rt_tomb rt = t.
Proof using. apply rt_of_positions_any. Qed.

(** * Editing a list of entries *)

Abbreviation entry := (entry V).
Abbreviation undo_op := (undo_op V).

Fixpoint ordered (p : option place) (l : list range_tombstone) : Prop :=
  match l with
  | [] => True
  | rt :: l => rt_ok rt /\ match p with Some h => place_lt (lo rt) h = false | None => True end /\ ordered (Some (hi rt)) l
  end.

Definition last_hi (p : option place) (l : list range_tombstone) : option place :=
  match last l with Some rt => Some (hi rt) | None => p end.

Lemma ordered_ranges_app p l k : ordered p (l ++ k) <-> ordered p l /\ ordered (last_hi p l) k.
Proof using.
  revert p. induction l as [|rt l IH]; intros p; [simpl; tauto|].
  cbn [ordered app]. rewrite IH. unfold last_hi. rewrite last_cons. destruct (last l); tauto.
Qed.

Lemma canonical_ordered p l : canonical p l -> ordered (fst <$> p) l.
Proof using.
  revert p. induction l as [|rt l IH]; intros p; [done|]. cbn [canonical ordered]. intros (Hok & Hf & Hl).
  split; [done|]. split; [|specialize (IH _ Hl); exact IH]. destruct p as [[h u]|]; [apply Hf|done].
Qed.

Lemma last_of_hi l : fst <$> last_of None l = last_hi None l.
Proof using. unfold last_of, last_hi. by destruct (last l). Qed.

(** The entries are in order and have different addresses. *)
Definition sane (es : list entry) : Prop := ordered None es.*2 /\ NoDup es.*1.

Inductive edit : list entry -> undo_op -> list entry -> Prop :=
| edit_insert a b id rt : edit (a ++ b) (insert_undo_op id) (a ++ (id, rt) :: b)
| edit_erase a e b : edit (a ++ e :: b) (erase_undo_op e) (a ++ b)
| edit_update a id old new b : edit (a ++ (id, old) :: b) (update_undo_op old id) (a ++ (id, new) :: b).

Inductive edits : list entry -> list undo_op -> list entry -> Prop :=
| edits_nil l : sane l -> edits l [] l
| edits_snoc l ops l' op l'' : edits l ops l' -> edit l' op l'' -> sane l'' -> edits l (ops ++ [op]) l''.

Lemma edits_sane l ops l' : edits l ops l' -> sane l /\ sane l'.
Proof using. induction 1; naive_solver. Qed.

Lemma edits_app l ops l' ops' l'' : edits l ops l' -> edits l' ops' l'' -> edits l (ops ++ ops') l''.
Proof using.
  intros H1 H2. induction H2 as [|l' ops' l2 op l3 H2 IH Hop Hs]; [by rewrite app_nil_r|].
  rewrite app_assoc. eapply edits_snoc; eauto.
Qed.

Lemma edits_one l op l' : sane l -> edit l op l' -> sane l' -> edits l [op] l'.
Proof using. intros Hs Hop Hs'. by apply (edits_snoc l [] l op l' (edits_nil l Hs)). Qed.

(** ** Undoing *)

Lemma rt_less_place x y : rt_wf x -> rt_wf y -> rt_less types x y = place_lt (lo x) (lo y).
Proof using.
  intros (Hx & _) (Hy & _). apply eq_true_iff_eq. unfold rt_less. rewrite bound_less_place, place_lt_true.
  unfold start_bound. cbn [bv_kind]. by rewrite Hx.
Qed.

Lemma end_less_place x y : rt_wf x -> rt_wf y -> bound_less types (end_bound x) (end_bound y) = place_lt (hi x) (hi y).
Proof using.
  intros (_ & Hx & _) (_ & Hy & _). apply eq_true_iff_eq. rewrite bound_less_place, place_lt_true.
  unfold end_bound. cbn [bv_kind]. by rewrite Hx, Hy.
Qed.

Lemma key_equal_refl k : (length k <= length types)%nat -> key_equal types k k = true.
Proof using Htypes. intros. apply (place_key_equal types k k 0); [done|]. apply (cmp_refl cmp). Qed.

Lemma rt_equal_refl rt : rt_wf rt -> rt_equal types rt rt = true.
Proof using Htypes.
  intros (_ & _ & ? & ?). unfold rt_equal, bound_view_equal. simpl.
  by rewrite !bool_decide_eq_true_2, !key_equal_refl by done.
Qed.

Lemma ordered_wf p l x : ordered p l -> x ∈ l -> rt_ok x.
Proof using.
  revert p. induction l as [|rt l IH]; intros p; [by intros _ ?%elem_of_nil|]. cbn [ordered].
  intros (Hok & _ & Hl) [->|Hx]%elem_of_cons; [done|by eapply IH].
Qed.

(** All that precedes an entry ends before it begins. *)
Lemma ordered_before p a rt b x : ordered p (a ++ rt :: b) -> x ∈ a -> place_lt (lo rt) (hi x) = false.
Proof using Htypes.
  revert p. induction a as [|y a IH]; intros p; [by intros _ ?%elem_of_nil|]. cbn [ordered app].
  intros (_ & _ & Hl) [->|Hx]%elem_of_cons; [|by apply (IH _ Hl)].
  clear IH. revert y p Hl. induction a as [|z a IH]; intros y p; [naive_solver|]. cbn [ordered app].
  intros ([_ Hz] & Hyz & Hl). specialize (IH z p Hl). places [lo rt; hi y; lo z; hi z].
Qed.

Lemma entry_value_app (a : list entry) id rt b : NoDup (a ++ (id, rt) :: b).*1 -> entry_value (a ++ (id, rt) :: b) id = Some rt.
Proof using.
  unfold entry_value. induction a as [|[i r] a IH]; simpl.
  - intros _. by rewrite decide_True.
  - rewrite NoDup_cons. intros [Hi Hnd]. rewrite decide_False.
    + specialize (IH Hnd). by destruct (list_find _ _) as [[]|].
    + intros ->. apply Hi. rewrite fmap_app, elem_of_app. right. left.
Qed.

Lemma find_entry_app (a : list entry) id rt b :
  ordered None (a ++ (id, rt) :: b).*2 -> find_entry types (a ++ (id, rt) :: b) rt = Some (length a).
Proof using Htypes.
  intros Hord. rewrite fmap_app in Hord. cbn [fmap list_fmap snd] in Hord.
  assert (rt_ok rt) as [Hwf Hlt] by (eapply ordered_wf; [exact Hord|]; apply elem_of_app; right; left).
  unfold find_entry. rewrite list_find_app_r.
  - simpl. rewrite decide_True.
    + simpl. by rewrite rt_equal_refl.
    + unfold same_end. simpl. rewrite end_less_place by done.
      assert (place_lt (hi rt) (hi rt) = false) as -> by (places [hi rt]). done.
  - apply list_find_None, Forall_forall. intros e He.
    assert (e.2 ∈ a.*2) as He2 by (by apply list_elem_of_fmap_2).
    assert (rt_ok e.2) as [Hewf _] by (eapply ordered_wf; [exact Hord|]; apply elem_of_app; by left).
    pose proof (ordered_before _ _ _ _ _ Hord He2). unfold same_end. rewrite !end_less_place by done.
    assert (place_lt (hi e.2) (hi rt) = true) as -> by (places [hi e.2; lo rt; hi rt]). done.
Qed.

Lemma insert_entry_app (a : list entry) e b : ordered None (a ++ e :: b).*2 -> insert_entry types (a ++ b) e = a ++ e :: b.
Proof using Htypes.
  intros Hord. rewrite fmap_app in Hord. cbn [fmap list_fmap] in Hord.
  assert (forall x, x ∈ a.*2 -> rt_wf x /\ place_lt (lo x) (lo e.2) = true) as Ha.
  { intros x Hx. assert (rt_ok x) as [??] by (eapply ordered_wf; [exact Hord|]; apply elem_of_app; by left).
    split; [done|]. pose proof (ordered_before _ _ _ _ _ Hord Hx). places [lo x; hi x; lo e.2]. }
  apply ordered_ranges_app in Hord as [_ ([Hewf He] & _ & Hb)].
  induction a as [|x a IH]; simpl.
  - destruct b as [|y b]; [done|]. simpl. cbn [ordered fmap list_fmap] in Hb. destruct Hb as ([Hywf Hy] & Hey & _).
    rewrite !rt_less_place by done.
    assert (place_lt (lo y.2) (lo e.2) = false) as -> by (places [lo y.2; lo e.2; hi e.2]).
    assert (place_lt (lo e.2) (lo y.2) = true) as -> by (places [lo y.2; lo e.2; hi e.2]). done.
  - destruct (Ha x.2) as [Hx Hlt]; [left|]. rewrite rt_less_place, Hlt by done. f_equal. apply IH.
    intros y Hy. apply Ha. by right.
Qed.

Lemma undo_edit l op l' : edit l op l' -> sane l -> sane l' -> undo types op l' = Ret l.
Proof using Htypes.
  intros Hop [Hord Hnd] [Hord' Hnd']. destruct Hop as [a b id rt|a e b|a id old new b]; simpl.
  - rewrite entry_value_app by done. simpl. rewrite find_entry_app by done. f_equal.
    clear. induction a; simpl; [done|]. by f_equal.
  - by rewrite insert_entry_app.
  - rewrite entry_value_app by done. simpl. rewrite find_entry_app by done. f_equal.
    clear. induction a; simpl; [done|]. by f_equal.
Qed.

(** Undoing the operations of an edit in reverse gives back the list, and every assertion of the
    way holds. *)
Lemma undo_edits l ops l' : edits l ops l' -> undo_all types (rev ops) l' = Ret l.
Proof using Htypes.
  induction 1 as [|l ops l' op l'' Hops IH Hop Hs]; [done|]. rewrite rev_app_distr. simpl.
  rewrite (undo_edit l' op l'') by (try done; by apply edits_sane in Hops as [_ ?]). done.
Qed.

(** * Inserting a range tombstone *)

Section inserting.
Context (recording : bool).
Abbreviation editor := (editor V).

Definition ids_ok (next : N) (es : list entry) : Prop := NoDup es.*1 /\ Forall (fun id => (id < next)%N) es.*1.

Definition recorded (ops : list undo_op) : list undo_op := if recording then ops else [].

Lemma recorded_app ops ops' : recorded (ops ++ ops') = recorded ops ++ recorded ops'.
Proof using. unfold recorded. by destruct recording. Qed.

(** What an insertion of [tomb] from [s] to [e] at the iterator does: only entries from the
    iterator on change. *)
Definition inserted (ed : editor) (after : list entry) (s e : place) (tomb : tombstone)
    (r : outcome Empty_set (editor * list entry)) : Prop :=
  exists ed' after' out ops,
    r = Ret (ed', after') /\ ed_before ed' ++ after' = ed_before ed ++ out /\
    ed_ops ed' = ed_ops ed ++ recorded ops /\
    edits (ed_before ed ++ after) ops (ed_before ed ++ out) /\
    Forall (fun id => (id < ed_next ed')%N) (ed_before ed ++ out).*1 /\
    canonical (last_of None (ed_before ed).*2) out.*2 /\
    forall x, covering out.*2 x = overlay s e tomb x (covering after.*2 x).

(** Steps that the insertion takes before it goes on, and before it ends. *)
Lemma inserted_step ed after ed1 mid after1 ops s e s1 e1 tomb r :
  ed_before ed1 = ed_before ed ++ mid -> ed_ops ed1 = ed_ops ed ++ recorded ops ->
  edits (ed_before ed ++ after) ops (ed_before ed1 ++ after1) ->
  canonical (last_of None (ed_before ed).*2) mid.*2 ->
  (forall x, match covering mid.*2 x with Some t => Some t | None => overlay s1 e1 tomb x (covering after1.*2 x) end =
    overlay s e tomb x (covering after.*2 x)) ->
  inserted ed1 after1 s1 e1 tomb r -> inserted ed after s e tomb r.
Proof using.
  intros Hb Hops Hed Hmid Hcov (ed' & after' & out & ops' & -> & Hout & Hops' & Hed' & Hids & Hcan & Hcov').
  exists ed', after', (mid ++ out), (ops ++ ops'). rewrite Hb, <- !app_assoc in *. split_and!; try done.
  - by rewrite Hops', Hops, recorded_app, app_assoc.
  - by eapply edits_app.
  - rewrite fmap_app. apply canonical_app. split; [done|].
    rewrite fmap_app in Hcan. unfold last_of in *. rewrite last_app in Hcan. by destruct (last mid.*2).
  - intros x. rewrite fmap_app, covering_app, <- Hcov, Hcov'. done.
Qed.

Lemma inserted_stop ed after ed1 mid after1 ops s e tomb :
  ed_before ed1 = ed_before ed ++ mid -> ed_ops ed1 = ed_ops ed ++ recorded ops ->
  edits (ed_before ed ++ after) ops (ed_before ed1 ++ after1) ->
  Forall (fun id => (id < ed_next ed1)%N) (ed_before ed1 ++ after1).*1 ->
  canonical (last_of None (ed_before ed).*2) (mid ++ after1).*2 ->
  (forall x, covering (mid ++ after1).*2 x = overlay s e tomb x (covering after.*2 x)) ->
  inserted ed after s e tomb (Ret (ed1, after1)).
Proof using.
  intros Hb Hops Hed Hids Hcan Hcov. exists ed1, after1, (mid ++ after1), ops.
  rewrite Hb, <- !app_assoc in *. by split_and!.
Qed.

(** The state in which the loop is at the top. *)
Record ready (ed : editor) (after : list entry) (start end_ : position) (tomb : tombstone) : Prop := {
  ready_start : bound_position start;
  ready_end : bound_position end_;
  ready_lt : place_lt (position_place start) (position_place end_) = true;
  ready_before : canonical None (ed_before ed).*2;
  ready_after : canonical (last_of None (ed_before ed).*2) after.*2;
  ready_ids : ids_ok (ed_next ed) (ed_before ed ++ after);
  ready_follows : follows (last_of None (ed_before ed).*2) (position_place start) tomb;
  ready_reach : match after with it :: _ => place_lt (position_place start) (hi it.2) = true | [] => True end;
}.

Lemma ready_sane ed after start end_ tomb : ready ed after start end_ tomb -> sane (ed_before ed ++ after).
Proof using.
  intros [_ _ _ Hb Ha [Hnd _] _ _]. split; [|done]. rewrite fmap_app.
  apply (canonical_ordered None), canonical_app. done.
Qed.

Lemma last_of_snoc p l rt : last_of p (l ++ [rt]) = Some (hi rt, rt_tomb rt).
Proof using. unfold last_of. by rewrite last_snoc. Qed.

(** ** The three operations as edits *)

Lemma ids_fresh next a b rt : ids_ok next (a ++ b) -> ids_ok (next + 1) ((a ++ [(next, rt)]) ++ b).
Proof using.
  intros [Hnd Hlt]. assert ((a ++ [(next, rt)]) ++ b ≡ₚ (next, rt) :: (a ++ b)) as Hp by (rewrite <- app_assoc; simpl; by rewrite <- Permutation_middle).
  split; rewrite Hp; simpl.
  - apply NoDup_cons. split; [|done]. intros Hin. rewrite Forall_forall in Hlt. specialize (Hlt _ Hin). lia.
  - constructor; [lia|]. eapply Forall_impl; [exact Hlt|]. simpl. lia.
Qed.

Lemma edits_insert ed rt after :
  ids_ok (ed_next ed) (ed_before ed ++ after) -> ordered None (ed_before ed ++ after).*2 ->
  ordered None ((ed_before ed).*2 ++ rt :: after.*2) ->
  edits (ed_before ed ++ after) [insert_undo_op (ed_next ed)] (ed_before (rev_insert recording ed rt) ++ after).
Proof using.
  intros Hids Hord Hord'. destruct (ids_fresh _ _ _ rt Hids) as [Hnd _]. rewrite <- app_assoc in Hnd.
  simpl. rewrite <- app_assoc. apply edits_one; [split; [done|apply Hids]|constructor|].
  split; [|done]. by rewrite fmap_app.
Qed.

Lemma edits_update ed it new_rt rest :
  NoDup (ed_before ed ++ it :: rest).*1 -> ordered None (ed_before ed ++ it :: rest).*2 ->
  ordered None ((ed_before ed).*2 ++ new_rt :: rest.*2) ->
  edits (ed_before ed ++ it :: rest) [update_undo_op it.2 it.1] (ed_before ed ++ (it.1, new_rt) :: rest).
Proof using.
  intros Hnd Hord Hord'. destruct it as [id old]. apply edits_one; [done|constructor|].
  split; [by rewrite fmap_app|]. rewrite fmap_app in *. done.
Qed.

Lemma ordered_remove p l rt k : ordered p (l ++ rt :: k) -> ordered p (l ++ k).
Proof using Htypes.
  rewrite !ordered_ranges_app. intros [Hl ([_ Hlt] & Hp & Hk)]. split; [done|]. destruct k as [|x k]; [done|].
  cbn [ordered] in *. destruct Hk as (Hx & Hrx & Hk). split; [done|]. split; [|done].
  destruct (last_hi p l) as [h|]; [|done]. places [lo rt; hi rt; lo x; h].
Qed.

Lemma edits_erase ed it rest :
  NoDup (ed_before ed ++ it :: rest).*1 -> ordered None (ed_before ed ++ it :: rest).*2 ->
  edits (ed_before ed ++ it :: rest) [erase_undo_op it] (ed_before ed ++ rest).
Proof using Htypes.
  intros Hnd Hord. apply edits_one; [done|constructor|]. rewrite fmap_app in Hnd. rewrite fmap_app in Hord. split.
  - rewrite fmap_app. by apply ordered_remove in Hord.
  - rewrite fmap_app. simpl in Hnd. rewrite <- Permutation_middle in Hnd. by apply NoDup_cons in Hnd as [_ ?].
Qed.

(** ** The branches of the loop *)

Lemma ordered_at bs rt u k :
  canonical None bs -> rt_ok rt -> follows (last_of None bs) (lo rt) u -> ordered (Some (hi rt)) k -> ordered None (bs ++ rt :: k).
Proof using.
  intros Hb Hok Hf Hk. apply ordered_ranges_app. split; [by apply (canonical_ordered None)|].
  cbn [ordered]. rewrite <- last_of_hi. split; [done|]. split; [|done].
  destruct (last_of None bs) as [[h v]|]; [apply Hf|done].
Qed.

Lemma record_op_one ed op : record_op recording ed op = ed_ops ed ++ recorded [op].
Proof using. unfold record_op, recorded. destruct recording; [done|]. by rewrite app_nil_r. Qed.

(** The new range tombstone lies before all that follows: it is inserted and that is all. *)
Lemma insert_stop ed after start end_ tomb rt :
  ready ed after start end_ tomb -> rt_wf rt ->
  lo rt = position_place start -> hi rt = position_place end_ -> rt_tomb rt = tomb ->
  canonical (Some (position_place end_, tomb)) after.*2 ->
  inserted ed after (position_place start) (position_place end_) tomb (Ret (rev_insert recording ed rt, after)).
Proof using Htypes.
  intros Hr Hwf Hlo Hhi Ht Hafter. pose proof (ready_sane _ _ _ _ _ Hr) as [Hord _].
  destruct Hr as [_ _ Hlt Hb Ha Hids Hf _]. assert (rt_ok rt) as Hok by (split; [done|by rewrite Hlo, Hhi]).
  apply (inserted_stop ed after (rev_insert recording ed rt) [(ed_next ed, rt)] after [insert_undo_op (ed_next ed)]).
  - done.
  - exact (record_op_one ed _).
  - apply edits_insert; [done..|]. apply (ordered_at _ _ tomb); [done..|by rewrite Hlo|].
    rewrite Hhi. by apply canonical_ordered in Hafter.
  - by apply ids_fresh.
  - simpl. rewrite Hlo, Hhi, Ht. by split_and!.
  - intros x. simpl. unfold covers, overlay. rewrite Hlo, Hhi, Ht. destruct (between _ _ x) eqn:Hx; [|done].
    apply andb_true_iff in Hx as [_ Hx]. by rewrite (covering_before _ _ _ _ Hafter Hx).
Qed.

Lemma ids_remove next (a : list entry) e b : ids_ok next (a ++ e :: b) -> ids_ok next (a ++ b).
Proof using.
  intros [Hnd Hlt]. rewrite <- Permutation_middle in Hnd, Hlt. simpl in Hnd, Hlt.
  apply NoDup_cons in Hnd as [_ ?]. by apply Forall_cons in Hlt as [_ ?].
Qed.

(** What follows an entry also follows what comes before the place where the new range begins. *)
Lemma canonical_skip p it rest :
  rt_ok it -> follows p (lo it) (rt_tomb it) -> canonical (Some (hi it, rt_tomb it)) rest -> canonical p rest.
Proof using Htypes.
  intros [_ Hlt] Hf Hrest. destruct p as [[h u]|]; [|by apply canonical_none in Hrest].
  apply (canonical_weaken (hi it) (rt_tomb it)); [done|]. destruct Hf as [Hf _]. places [h; lo it; hi it].
Qed.

(** The entry has the same tombstone: both become one. *)
Lemma merge_branch ed it rest start end_ tomb :
  ready ed (it :: rest) start end_ tomb -> rt_tomb it.2 = tomb -> place_lt (position_place end_) (lo it.2) = false ->
  let s' := if place_lt (lo it.2) (position_place start) then rt_position it.2 else start in
  let e' := if place_lt (position_place end_) (hi it.2) then rt_end_position it.2 else end_ in
  ready (rev_erase recording ed it) rest s' e' tomb /\
  forall r, inserted (rev_erase recording ed it) rest (position_place s') (position_place e') tomb r ->
    inserted ed (it :: rest) (position_place start) (position_place end_) tomb r.
Proof using Htypes.
  intros Hr Ht He s' e'. pose proof (ready_sane _ _ _ _ _ Hr) as [Hord Hnd].
  destruct Hr as [Hs Hen Hlt Hb Ha Hids Hf Hreach]. cbn [canonical fmap list_fmap] in Ha.
  destruct Ha as (Hok & Hfi & Hrest). destruct (rt_positions it.2 (proj1 Hok)) as [Hps Hpe].
  assert (position_place s' = if place_lt (lo it.2) (position_place start) then lo it.2 else position_place start) as Es
    by (unfold s'; by destruct (place_lt (lo it.2) (position_place start))).
  assert (position_place e' = if place_lt (position_place end_) (hi it.2) then hi it.2 else position_place end_) as Ee
    by (unfold e'; by destruct (place_lt (position_place end_) (hi it.2))).
  pose proof (proj2 Hok) as Hlh. split.
  - split; try done.
    + unfold s'. by destruct (place_lt (lo it.2) (position_place start)).
    + unfold e'. by destruct (place_lt (position_place end_) (hi it.2)).
    + rewrite Es, Ee. places [lo it.2; hi it.2; position_place start; position_place end_].
    + by apply (canonical_skip _ it.2).
    + by apply ids_remove in Hids.
    + rewrite Es. destruct (place_lt (lo it.2) (position_place start)); [by rewrite <- Ht|done].
    + destruct rest as [|x rest]; [done|]. cbn [canonical fmap list_fmap] in Hrest. destruct Hrest as ([_ Hx] & [Hix _] & _).
      rewrite Es. places [lo it.2; hi it.2; position_place start; lo x.2; hi x.2].
  - intros r. apply (inserted_step ed (it :: rest) (rev_erase recording ed it) [] rest [erase_undo_op it]); try done.
    + by rewrite app_nil_r.
    + exact (record_op_one ed _).
    + exact (edits_erase ed it rest Hnd Hord).
    + intros x. cbn [covering fmap list_fmap]. rewrite Ht. rewrite Es, Ee. unfold overlay, covers, between.
      destruct (place_lt x (hi it.2)) eqn:Hx.
      * rewrite (covering_before _ _ _ _ Hrest Hx).
        places [lo it.2; hi it.2; position_place start; position_place end_; x]; by rewrite tombstone_apply_idem.
      * places [lo it.2; hi it.2; position_place start; position_place end_; x].
Qed.

(** *** The entry is newer and stays *)

(** The part of the new range before the entry, as the code inserts it. *)
Definition insert_gap (ed : editor) (start it_start : position) (tomb : tombstone) : outcome Empty_set editor :=
  if position_less types start it_start then rt ← rt_of_positions start it_start tomb; Ret (rev_insert recording ed rt)
  else Ret ed.

Lemma insert_gap_spec ed it rest start end_ tomb :
  ready ed (it :: rest) start end_ tomb -> tomb <> rt_tomb it.2 ->
  exists ed1 mid ops, insert_gap ed start (rt_position it.2) tomb = Ret ed1 /\
  ed_before ed1 = ed_before ed ++ mid /\ ed_ops ed1 = ed_ops ed ++ recorded ops /\
  edits (ed_before ed ++ it :: rest) ops (ed_before ed1 ++ it :: rest) /\ ids_ok (ed_next ed1) (ed_before ed1 ++ it :: rest) /\
  canonical (last_of None (ed_before ed).*2) (mid ++ it :: rest).*2 /\
  forall x, covering mid.*2 x = if between (position_place start) (lo it.2) x then Some tomb else None.
Proof using Htypes.
  intros Hr Hne. pose proof (ready_sane _ _ _ _ _ Hr) as [Hord Hnd].
  destruct Hr as [Hs Hen Hlt Hb Ha Hids Hf Hreach]. pose proof Ha as Hcan. cbn [canonical fmap list_fmap] in Ha.
  destruct Ha as (Hok & Hfi & Hrest). destruct (rt_positions it.2 (proj1 Hok)) as [Hps Hpe].
  unfold insert_gap. rewrite less_position by done. change (position_place (rt_position it.2)) with (lo it.2).
  destruct (place_lt (position_place start) (lo it.2)) eqn:Hgap.
  - destruct (rt_of_positions_spec start (rt_position it.2) tomb Hs Hps) as (rt & -> & Hwf & Hlo & Hhi & Ht).
    change (position_place (rt_position it.2)) with (lo it.2) in Hhi. cbn [mbind outcome_bind].
    assert (rt_ok rt) as Hrt by (split; [done|by rewrite Hlo, Hhi]).
    assert (place_lt (lo it.2) (lo it.2) = false) by (places [lo it.2]).
    eexists _, [(ed_next ed, rt)], [insert_undo_op (ed_next ed)]. split; [done|]. split_and!; try done.
    + exact (record_op_one ed _).
    + apply edits_insert; [done..|]. apply (ordered_at _ _ tomb); [done..|by rewrite Hlo|].
      simpl. rewrite Hhi. split; [done|]. split; [done|by apply canonical_ordered in Hrest].
    + by apply ids_fresh.
    + simpl. rewrite Hlo, Hhi, Ht. by split_and!.
    + intros x. simpl. unfold covers. by rewrite Hlo, Hhi, Ht.
  - eexists _, [], []. split; [done|]. unfold recorded. split_and!; try done; rewrite ?app_nil_r; try done.
    + by destruct recording; rewrite app_nil_r.
    + by apply edits_nil.
    + intros x. simpl. unfold between.
      assert (negb (place_lt x (position_place start)) && place_lt x (lo it.2) = false) as ->; [|done].
      places [x; position_place start; lo it.2].
Qed.

Lemma keep_stop ed it rest start end_ tomb :
  ready ed (it :: rest) start end_ tomb -> tombstone_compare tomb (rt_tomb it.2) = Lt ->
  place_lt (position_place end_) (lo it.2) = false -> place_lt (hi it.2) (position_place end_) = false ->
  exists ed1, insert_gap ed start (rt_position it.2) tomb = Ret ed1 /\
  inserted ed (it :: rest) (position_place start) (position_place end_) tomb (Ret (ed1, it :: rest)).
Proof using Htypes.
  intros Hr Htomb Hov He. assert (tomb <> rt_tomb it.2) as Hne by (intros Heq%tombstone_compare_eq; congruence).
  destruct (insert_gap_spec ed it rest start end_ tomb Hr Hne) as (ed1 & mid & ops & -> & Hb1 & Hops & Hed & Hids & Hcan & Hcov).
  destruct Hr as [_ _ Hlt _ Ha _ _ Hreach]. cbn [canonical fmap list_fmap] in Ha. destruct Ha as ([_ Hlh] & _ & Hrest).
  exists ed1. split; [done|]. apply (inserted_stop ed _ ed1 mid _ ops); try done; [apply Hids|].
  intros x. rewrite fmap_app, covering_app, Hcov. cbn [covering fmap list_fmap].
  assert (tombstone_apply (rt_tomb it.2) tomb = rt_tomb it.2) as Hmax.
  { rewrite tombstone_apply_comm. unfold tombstone_apply. by rewrite (proj2 (tombstone_less_spec _ _) Htomb). }
  unfold overlay, covers, between. destruct (place_lt x (hi it.2)) eqn:Hx.
  - rewrite (covering_before _ _ _ _ Hrest Hx).
    places [lo it.2; hi it.2; position_place start; position_place end_; x]; by rewrite Hmax.
  - places [lo it.2; hi it.2; position_place start; position_place end_; x].
Qed.

Lemma keep_next ed it rest start end_ tomb :
  ready ed (it :: rest) start end_ tomb -> tombstone_compare tomb (rt_tomb it.2) = Lt ->
  place_lt (hi it.2) (position_place end_) = true ->
  exists ed1, insert_gap ed start (rt_position it.2) tomb = Ret ed1 /\
  ready (pass_entry ed1 it) rest (rt_end_position it.2) end_ tomb /\
  forall r, inserted (pass_entry ed1 it) rest (hi it.2) (position_place end_) tomb r ->
    inserted ed (it :: rest) (position_place start) (position_place end_) tomb r.
Proof using Htypes.
  intros Hr Htomb He. assert (tomb <> rt_tomb it.2) as Hne by (intros Heq%tombstone_compare_eq; congruence).
  destruct (insert_gap_spec ed it rest start end_ tomb Hr Hne) as (ed1 & mid & ops & -> & Hb1 & Hops & Hed & Hids & Hcan & Hcov).
  destruct Hr as [Hs Hen Hlt Hb Ha _ _ Hreach]. cbn [canonical fmap list_fmap] in Ha. destruct Ha as ([Hwf Hlh] & _ & Hrest).
  destruct (rt_positions it.2 Hwf) as [_ Hpe]. rewrite fmap_app in Hcan. cbn [fmap list_fmap] in Hcan.
  assert (canonical (last_of None (ed_before ed).*2) (mid ++ [it]).*2) as Hmid.
  { rewrite fmap_app. apply canonical_app in Hcan as [? Hit]. apply canonical_app. split; [done|]. cbn [canonical] in Hit. simpl. tauto. }
  exists ed1. split; [done|]. split.
  - split; try done; cbn [pass_entry ed_before ed_next]; rewrite ?fmap_app; change ([it].*2) with [it.2];
      rewrite ?last_of_snoc; try done.
    + rewrite Hb1, fmap_app, <- app_assoc. apply canonical_app. split; [done|]. by rewrite fmap_app in Hmid.
    + by rewrite <- app_assoc.
    + split; [|done]. change (position_place (rt_end_position it.2)) with (hi it.2). places [hi it.2].
    + destruct rest as [|y rest]; [done|]. cbn [canonical fmap list_fmap] in Hrest. destruct Hrest as ([_ Hy] & [Hiy _] & _).
      change (position_place (rt_end_position it.2)) with (hi it.2). places [hi it.2; lo y.2; hi y.2].
  - intros r. apply (inserted_step ed _ (pass_entry ed1 it) (mid ++ [it]) rest ops); try done.
    + simpl. by rewrite Hb1, <- app_assoc.
    + simpl. by rewrite <- app_assoc.
    + intros x. rewrite fmap_app, covering_app, Hcov. cbn [covering fmap list_fmap].
      assert (tombstone_apply (rt_tomb it.2) tomb = rt_tomb it.2) as Hmax.
      { rewrite tombstone_apply_comm. unfold tombstone_apply. by rewrite (proj2 (tombstone_less_spec _ _) Htomb). }
      unfold overlay, covers, between. destruct (place_lt x (hi it.2)) eqn:Hx.
      * rewrite (covering_before _ _ _ _ Hrest Hx).
        places [lo it.2; hi it.2; position_place start; position_place end_; x]; by rewrite Hmax.
      * places [lo it.2; hi it.2; position_place start; position_place end_; x].
Qed.

(** *** The entry is older and is overwritten *)

(** The part of the entry before the new range, as the code cuts it off. *)
Definition cut_front (ed : editor) (it : entry) (start : position) : outcome Empty_set (entry * editor) :=
  if position_less types (rt_position it.2) start then
    left ← rt_of_positions (rt_position it.2) start (rt_tomb it.2);
    right ← rt_of_positions start (rt_end_position it.2) (rt_tomb it.2);
    let '(it, ed) := rev_update recording ed it right in
    Ret (it, rev_insert recording ed left)
  else Ret (it, ed).

(** After the cut: the entry begins at the new range or later. *)
Record cut (ed : editor) (it : entry) (rest : list entry) (start : position) (tomb : tombstone)
    (it1 : entry) (ed1 : editor) (mid : list entry) (ops : list undo_op) : Prop := {
  cut_before : ed_before ed1 = ed_before ed ++ mid;
  cut_ops : ed_ops ed1 = ed_ops ed ++ recorded ops;
  cut_edits : edits (ed_before ed ++ it :: rest) ops (ed_before ed1 ++ it1 :: rest);
  cut_ids : ids_ok (ed_next ed1) (ed_before ed1 ++ it1 :: rest);
  cut_ok : rt_ok it1.2;
  cut_hi : hi it1.2 = hi it.2;
  cut_tomb : rt_tomb it1.2 = rt_tomb it.2;
  cut_lo : place_lt (lo it1.2) (position_place start) = false;
  cut_follows : follows (last_of None (ed_before ed1).*2) (position_place start) tomb;
  cut_follows_it : exists u, follows (last_of None (ed_before ed1).*2) (lo it1.2) u;
  cut_mid : canonical (last_of None (ed_before ed).*2) mid.*2;
  cut_covering x : match covering mid.*2 x with Some t => Some t | None => if covers it1.2 x then Some (rt_tomb it.2) else None end =
    (if covers it.2 x then Some (rt_tomb it.2) else None) /\
    (covering mid.*2 x <> None -> place_lt x (position_place start) = true);
}.

Lemma cut_front_spec ed it rest start end_ tomb :
  ready ed (it :: rest) start end_ tomb -> tomb <> rt_tomb it.2 ->
  exists it1 ed1 mid ops, cut_front ed it start = Ret (it1, ed1) /\ cut ed it rest start tomb it1 ed1 mid ops.
Proof using Htypes.
  intros Hr Hne. pose proof (ready_sane _ _ _ _ _ Hr) as [Hord Hnd].
  destruct Hr as [Hs Hen Hlt Hb Ha Hids Hf Hreach]. cbn [canonical fmap list_fmap] in Ha.
  destruct Ha as (Hok & Hfi & Hrest). destruct (rt_positions it.2 (proj1 Hok)) as [Hps Hpe].
  pose proof (proj2 Hok) as Hlh. unfold cut_front. rewrite less_position by done.
  change (position_place (rt_position it.2)) with (lo it.2).
  destruct (place_lt (lo it.2) (position_place start)) eqn:Hcut.
  - destruct (rt_of_positions_spec (rt_position it.2) start (rt_tomb it.2) Hps Hs) as (left & -> & Hlwf & Hllo & Hlhi & Hlt').
    destruct (rt_of_positions_spec start (rt_end_position it.2) (rt_tomb it.2) Hs Hpe) as (right & -> & Hrwf & Hrlo & Hrhi & Hrt).
    change (position_place (rt_position it.2)) with (lo it.2) in Hllo.
    change (position_place (rt_end_position it.2)) with (hi it.2) in Hrhi. cbn [mbind outcome_bind rev_update].
    assert (rt_ok left) as Hleft by (split; [done|by rewrite Hllo, Hlhi]).
    assert (rt_ok right) as Hright by (split; [done|by rewrite Hrlo, Hrhi]).
    assert (place_lt (position_place start) (position_place start) = false) by (places [position_place start]).
    assert (follows (last_of None (ed_before ed).*2) (lo right) (rt_tomb it.2)) as Hfr.
    { rewrite Hrlo. destruct (last_of None (ed_before ed).*2) as [[h u]|]; [|done]. destruct Hf as [Hf _], Hfi as [Hfi _].
      split; [done|]. intros ?. exfalso. places [h; lo it.2; position_place start]. }
    assert (ordered (Some (hi right)) rest.*2) as Hro by (rewrite Hrhi; by apply canonical_ordered in Hrest).
    set (ed0 := Editor (ed_before ed) (ed_next ed) (record_op recording ed (update_undo_op it.2 it.1))).
    assert (edits (ed_before ed ++ it :: rest) [update_undo_op it.2 it.1] (ed_before ed ++ (it.1, right) :: rest)) as Hup.
    { apply edits_update; [done..|]. by apply (ordered_at _ _ (rt_tomb it.2)). }
    assert (ids_ok (ed_next ed0) (ed_before ed0 ++ (it.1, right) :: rest)) as Hids0.
    { unfold ids_ok in *. rewrite fmap_app in *. done. }
    eexists _, _, [(ed_next ed, left)], ([update_undo_op it.2 it.1] ++ [insert_undo_op (ed_next ed)]). split; [done|]. split; try done.
    + change (record_op recording ed0 (insert_undo_op (ed_next ed)) = ed_ops ed ++ recorded ([update_undo_op it.2 it.1] ++ [insert_undo_op (ed_next ed)])).
      rewrite recorded_app, (record_op_one ed0). simpl. by rewrite record_op_one, <- app_assoc.
    + eapply edits_app; [exact Hup|]. apply (edits_insert ed0 left ((it.1, right) :: rest)); [done| |].
      * by destruct (edits_sane _ _ _ Hup) as [_ [? _]].
      * apply (ordered_at _ _ (rt_tomb it.2)); [done..|by rewrite Hllo|]. simpl. rewrite Hlhi, Hrlo. split; [done|]. by split.
    + by apply (ids_fresh (ed_next ed0) (ed_before ed0) ((it.1, right) :: rest) left).
    + simpl. by rewrite Hrlo.
    + simpl. rewrite fmap_app. simpl. rewrite last_of_snoc, Hlhi, Hlt'. by split.
    + exists tomb. simpl. rewrite fmap_app. simpl. rewrite last_of_snoc, Hlhi, Hlt', Hrlo. by split.
    + simpl. rewrite Hllo, Hlt'. by split_and!.
    + intros x. simpl. unfold covers, between. rewrite Hllo, Hlhi, Hlt', Hrlo, Hrhi.
      split; places [lo it.2; hi it.2; position_place start; x].
  - exists it, ed, [], []. split; [done|]. split; try done; rewrite ?app_nil_r; try done.
    + unfold recorded. by destruct recording; rewrite app_nil_r.
    + by apply edits_nil.
    + by exists (rt_tomb it.2).
Qed.

Lemma tombstone_apply_less t u : tombstone_compare t u = Gt -> tombstone_apply u t = t.
Proof using. intros H%(cmp_gt_lt tombstone_compare). unfold tombstone_apply. by rewrite (proj2 (tombstone_less_spec _ _) H). Qed.

(** The new range ends inside of the entry. *)
Lemma overwrite_stop ed it rest start end_ tomb it1 ed1 mid ops rt right :
  ready ed (it :: rest) start end_ tomb -> tombstone_compare tomb (rt_tomb it.2) = Gt ->
  cut ed it rest start tomb it1 ed1 mid ops ->
  place_lt (position_place end_) (lo it.2) = false -> place_lt (position_place end_) (hi it.2) = true ->
  rt_wf rt -> lo rt = position_place start -> hi rt = position_place end_ -> rt_tomb rt = tomb ->
  rt_wf right -> lo right = position_place end_ -> hi right = hi it.2 -> rt_tomb right = rt_tomb it.2 ->
  inserted ed (it :: rest) (position_place start) (position_place end_) tomb
    (let '(it, ed) := rev_update recording ed1 it1 right in Ret (rev_insert recording ed rt, it :: rest)).
Proof using Htypes.
  intros Hr Htomb [Hb1 Hops Hed Hids Hok1 Hhi1 Ht1 Hlo1 Hf1 [u Hfi1] Hmid Hcov] Hov He Hwf Hlo Hhi Ht Hrwf Hrlo Hrhi Hrt.
  assert (tomb <> rt_tomb it.2) as Hne by (intros Heq%tombstone_compare_eq; congruence).
  destruct Hr as [Hs Hen Hlt Hb Ha _ _ Hreach]. cbn [canonical fmap list_fmap] in Ha. destruct Ha as ([_ Hlh] & _ & Hrest).
  assert (rt_ok rt) as Hrok by (split; [done|by rewrite Hlo, Hhi]).
  assert (rt_ok right) as Hriok by (split; [done|by rewrite Hrlo, Hrhi]).
  assert (place_lt (position_place end_) (position_place end_) = false) by (places [position_place end_]).
  assert (canonical None (ed_before ed1).*2) as Hb1c by (rewrite Hb1, fmap_app; by apply canonical_app).
  assert (last_of None (ed_before ed1).*2 = last_of (last_of None (ed_before ed).*2) mid.*2) as Hlast
    by (rewrite Hb1, fmap_app; unfold last_of; rewrite last_app; by destruct (last mid.*2)).
  set (ed2 := Editor (ed_before ed1) (ed_next ed1) (record_op recording ed1 (update_undo_op it1.2 it1.1))).
  assert (ordered (Some (hi right)) rest.*2) as Hro by (rewrite Hrhi; by apply canonical_ordered in Hrest).
  assert (edits (ed_before ed1 ++ it1 :: rest) [update_undo_op it1.2 it1.1] (ed_before ed1 ++ (it1.1, right) :: rest)) as Hup.
  { apply edits_update; [apply Hids|by destruct (edits_sane _ _ _ Hed) as [_ [? _]]|].
    apply (ordered_at _ _ tomb); [done..| |done]. rewrite Hrlo. destruct (last_of None (ed_before ed1).*2) as [[h v]|]; [|done].
    destruct Hf1 as [Hf1 _]. split; [|intros ?; exfalso]; places [h; position_place start; position_place end_]. }
  assert (ids_ok (ed_next ed2) (ed_before ed2 ++ (it1.1, right) :: rest)) as Hids2.
  { unfold ids_ok in *. rewrite fmap_app in *. done. }
  apply (inserted_stop ed _ (rev_insert recording ed2 rt) (mid ++ [(ed_next ed1, rt)]) _
    (ops ++ [update_undo_op it1.2 it1.1] ++ [insert_undo_op (ed_next ed1)])).
  - simpl. by rewrite Hb1, <- app_assoc.
  - change (record_op recording ed2 (insert_undo_op (ed_next ed1)) =
      ed_ops ed ++ recorded (ops ++ [update_undo_op it1.2 it1.1] ++ [insert_undo_op (ed_next ed1)])).
    rewrite !recorded_app, (record_op_one ed2). simpl. by rewrite record_op_one, Hops, <- !app_assoc.
  - eapply edits_app; [exact Hed|]. eapply edits_app; [exact Hup|].
    apply (edits_insert ed2 rt ((it1.1, right) :: rest)); [done|by destruct (edits_sane _ _ _ Hup) as [_ [? _]]|].
    apply (ordered_at _ _ tomb); [done..|by rewrite Hlo|]. simpl. rewrite Hhi, Hrlo. by split_and!.
  - by apply (ids_fresh (ed_next ed2) (ed_before ed2) ((it1.1, right) :: rest) rt).
  - rewrite <- app_assoc, fmap_app. apply canonical_app. split; [done|]. rewrite <- Hlast. simpl.
    rewrite Hlo, Hhi, Hrlo, Hrhi, Ht, Hrt. by split_and!.
  - intros x. rewrite <- app_assoc, fmap_app, covering_app. cbn [app covering fmap list_fmap snd]. destruct (Hcov x) as [Hcx Hmx].
    unfold overlay, covers in *. rewrite Hlo, Hhi, Hrlo, Hrhi, Ht, Hrt. rewrite Hhi1 in Hcx.
    destruct (covering mid.*2 x) as [v|].
    + specialize (Hmx ltac:(done)). destruct (between (lo it.2) (hi it.2) x); [|done]. rewrite Hcx. unfold between.
      places [x; position_place start; position_place end_].
    + unfold between in *. destruct (place_lt x (hi it.2)) eqn:Hx.
      * rewrite (covering_before _ _ _ _ Hrest Hx). pose proof (tombstone_apply_less _ _ Htomb) as Hm.
        revert Hcx. places [lo it.2; lo it1.2; hi it.2; position_place start; position_place end_; x]; by rewrite Hm.
      * places [lo it.2; hi it.2; position_place start; position_place end_; x].
Qed.

(** The new range reaches to the end of the entry, which is taken out. *)
Lemma overwrite_next ed it rest start end_ tomb it1 ed1 mid ops :
  ready ed (it :: rest) start end_ tomb -> tombstone_compare tomb (rt_tomb it.2) = Gt ->
  cut ed it rest start tomb it1 ed1 mid ops -> place_lt (position_place end_) (hi it.2) = false ->
  ready (rev_erase recording ed1 it1) rest start end_ tomb /\
  forall r, inserted (rev_erase recording ed1 it1) rest (position_place start) (position_place end_) tomb r ->
    inserted ed (it :: rest) (position_place start) (position_place end_) tomb r.
Proof using Htypes.
  intros Hr Htomb [Hb1 Hops Hed Hids Hok1 Hhi1 Ht1 Hlo1 Hf1 _ Hmid Hcov] He.
  destruct Hr as [Hs Hen Hlt Hb Ha _ _ Hreach]. cbn [canonical fmap list_fmap] in Ha. destruct Ha as ([_ Hlh] & _ & Hrest).
  split.
  - split; try done.
    + simpl. rewrite Hb1, fmap_app. by apply canonical_app.
    + simpl. destruct (last_of None (ed_before ed1).*2) as [[h u]|]; [|by apply canonical_none in Hrest].
      apply (canonical_weaken (hi it.2) (rt_tomb it.2)); [done|]. destruct Hf1 as [Hf1 _].
      places [h; position_place start; hi it.2].
    + by apply ids_remove in Hids.
    + destruct rest as [|y rest]; [done|]. cbn [canonical fmap list_fmap] in Hrest. destruct Hrest as ([_ Hy] & [Hiy _] & _).
      places [hi it.2; lo y.2; hi y.2; position_place start].
  - intros r. apply (inserted_step ed _ (rev_erase recording ed1 it1) mid rest (ops ++ [erase_undo_op it1])); try done.
    + change (record_op recording ed1 (erase_undo_op it1) = ed_ops ed ++ recorded (ops ++ [erase_undo_op it1])).
      by rewrite record_op_one, recorded_app, Hops, app_assoc.
    + eapply edits_app; [exact Hed|]. apply (edits_erase ed1 it1 rest); [apply Hids|].
      by destruct (edits_sane _ _ _ Hed) as [_ [? _]].
    + intros x. cbn [covering fmap list_fmap]. destruct (Hcov x) as [Hcx Hmx]. unfold overlay, covers in *. rewrite Hhi1 in Hcx.
      destruct (covering mid.*2 x) as [v|].
      * specialize (Hmx ltac:(done)). destruct (between (lo it.2) (hi it.2) x); [|done]. rewrite Hcx. unfold between.
        places [x; position_place start; position_place end_].
      * unfold between in *. destruct (place_lt x (hi it.2)) eqn:Hx.
        -- rewrite (covering_before _ _ _ _ Hrest Hx). pose proof (tombstone_apply_less _ _ Htomb) as Hm.
           revert Hcx. places [lo it.2; lo it1.2; hi it.2; position_place start; position_place end_; x]; by rewrite Hm.
        -- places [lo it.2; hi it.2; position_place start; position_place end_; x].
Qed.

(** ** The loop *)

Lemma insert_loop_cons it rest ed start end_ tomb :
  ready ed (it :: rest) start end_ tomb ->
  insert_loop types recording (it :: rest) ed start end_ tomb =
  if place_lt (position_place end_) (lo it.2) then
    rt ← rt_of_positions start end_ tomb; Ret (rev_insert recording ed rt, it :: rest)
  else
    match tombstone_compare tomb (rt_tomb it.2) with
    | Eq =>
      insert_loop types recording rest (rev_erase recording ed it)
        (if place_lt (lo it.2) (position_place start) then rt_position it.2 else start)
        (if place_lt (position_place end_) (hi it.2) then rt_end_position it.2 else end_) tomb
    | Gt =>
      '(it, ed) ← cut_front ed it start;
      if position_less types end_ (rt_end_position it.2) then
        rt ← rt_of_positions start end_ tomb;
        right ← rt_of_positions end_ (rt_end_position it.2) (rt_tomb it.2);
        let '(it, ed) := rev_update recording ed it right in
        Ret (rev_insert recording ed rt, it :: rest)
      else insert_loop types recording rest (rev_erase recording ed it) start end_ tomb
    | Lt =>
      if place_lt (position_place start) (lo it.2) && negb (place_lt (lo it.2) (position_place end_)) then
        rt ← rt_of_positions start end_ tomb; Ret (rev_insert recording ed rt, it :: rest)
      else
        ed ← insert_gap ed start (rt_position it.2) tomb;
        if place_lt (hi it.2) (position_place end_) then
          insert_loop types recording rest (pass_entry ed it) (rt_end_position it.2) end_ tomb
        else Ret (ed, it :: rest)
    end.
Proof using Htypes.
  intros [Hs Hen Hlt _ Ha _ _ _]. cbn [canonical fmap list_fmap] in Ha. destruct Ha as ([Hwf _] & _ & _).
  destruct (rt_positions it.2 Hwf) as [Hps Hpe]. cbn [insert_loop]. unfold cut_front, insert_gap.
  rewrite !cmp_position, !less_position by done.
  change (position_place (rt_position it.2)) with (lo it.2). change (position_place (rt_end_position it.2)) with (hi it.2).
  rewrite bool_decide_eq_true_2 by (places [position_place start; position_place end_]). cbn [negb].
  destruct (place_lt (position_place end_) (lo it.2)) eqn:Hc.
  - apply place_lt_true in Hc. rewrite Hc, bool_decide_eq_true_2 by done. by rewrite andb_false_r.
  - rewrite bool_decide_eq_false_2; [done|]. intros Hc'%place_lt_true. by rewrite Hc in Hc'.
Qed.

Lemma insert_loop_spec after ed start end_ tomb :
  ready ed after start end_ tomb ->
  inserted ed after (position_place start) (position_place end_) tomb (insert_loop types recording after ed start end_ tomb).
Proof using Htypes.
  revert ed start end_. induction after as [|it rest IH]; intros ed start end_ Hr; pose proof Hr as [Hs Hen Hlt _ Ha _ _ Hreach];
    destruct (rt_of_positions_spec start end_ tomb Hs Hen) as (rt & Hrt & Hwf & Hlo & Hhi & Ht).
  { cbn [insert_loop]. rewrite Hrt. by apply insert_stop. }
  rewrite insert_loop_cons by done. cbn [canonical fmap list_fmap] in Ha. destruct Ha as (Hok & Hf & Hrest).
  destruct (place_lt (position_place end_) (lo it.2)) eqn:Hov.
  { rewrite Hrt. apply insert_stop; try done. split; [done|]. split; [|done].
    split; [|intros ?; exfalso]; places [position_place end_; lo it.2]. }
  destruct (tombstone_compare tomb (rt_tomb it.2)) eqn:Htomb.
  - apply tombstone_compare_eq in Htomb. destruct (merge_branch ed it rest start end_ tomb) as [Hr' Hin]; [done..|].
    by apply Hin, IH.
  - assert (tomb <> rt_tomb it.2) by (intros Heq%tombstone_compare_eq; congruence).
    destruct (place_lt (position_place start) (lo it.2) && negb (place_lt (lo it.2) (position_place end_))) eqn:Hgap.
    { apply andb_true_iff in Hgap as [_ Hgap%negb_true_iff]. rewrite Hrt. by apply insert_stop. }
    destruct (place_lt (hi it.2) (position_place end_)) eqn:Hend.
    + destruct (keep_next ed it rest start end_ tomb) as (ed1 & -> & Hr' & Hin); [done..|]. by apply Hin, IH.
    + destruct (keep_stop ed it rest start end_ tomb) as (ed1 & -> & Hin); done.
  - assert (tomb <> rt_tomb it.2) by (intros Heq%tombstone_compare_eq; congruence).
    destruct (cut_front_spec ed it rest start end_ tomb) as (it1 & ed1 & mid & ops & -> & Hcut); [done..|].
    cbn [mbind outcome_bind]. destruct (rt_positions it1.2 (proj1 (cut_ok _ _ _ _ _ _ _ _ _ Hcut))) as [_ Hpe].
    rewrite less_position by done. change (position_place (rt_end_position it1.2)) with (hi it1.2). rewrite (cut_hi _ _ _ _ _ _ _ _ _ Hcut).
    destruct (place_lt (position_place end_) (hi it.2)) eqn:Hend.
    + destruct (rt_of_positions_spec end_ (rt_end_position it1.2) (rt_tomb it1.2) Hen Hpe) as (right & Hright & Hrwf & Hrlo & Hrhi & Hrt').
      rewrite Hrt. cbn [mbind outcome_bind]. rewrite Hright. cbn [mbind outcome_bind].
      apply (overwrite_stop ed it rest start end_ tomb it1 ed1 mid ops rt right); try done.
      * rewrite Hrhi. exact (cut_hi _ _ _ _ _ _ _ _ _ Hcut).
      * rewrite Hrt'. exact (cut_tomb _ _ _ _ _ _ _ _ _ Hcut).
    + destruct (overwrite_next ed it rest start end_ tomb it1 ed1 mid ops) as [Hr' Hin]; [done..|]. by apply Hin, IH.
Qed.

(** ** Applying a range tombstone to a list *)

Definition rl_ok (l : range_tombstone_list V) : Prop :=
  canonical None (rl_values l) /\ ids_ok (rl_next l) (rl_tombstones l).

Lemma split_at_first_spec {A} (f : A -> bool) (l : list A) :
  let '(a, b) := split_at_first f l in
  l = a ++ b /\ Forall (fun x => f x = false) a /\ match b with x :: _ => f x = true | [] => True end.
Proof using.
  induction l as [|x l IH]; simpl; [done|]. destruct (f x) eqn:Hx; [done|].
  destruct (split_at_first f l) as [a b]. destruct IH as (-> & Ha & Hb). by split_and!; [|constructor|].
Qed.

Lemma covering_Some l x t : covering l x = Some t -> exists rt, rt ∈ l /\ covers rt x = true /\ rt_tomb rt = t.
Proof using.
  induction l as [|rt l IH]; simpl; [done|]. destruct (covers rt x) eqn:Hc.
  - intros [= <-]. exists rt. by split; [left|].
  - intros (rt' & ? & ?)%IH. exists rt'. by split; [right|].
Qed.

(** What an insertion does to the whole list. *)
Lemma inserted_list ed after s e tomb r :
  inserted ed after s e tomb r -> canonical None (ed_before ed).*2 ->
  Forall (fun en => place_lt s (hi en.2) = false) (ed_before ed) ->
  exists ed' after' ops, r = Ret (ed', after') /\ ed_ops ed' = ed_ops ed ++ recorded ops /\
  edits (ed_before ed ++ after) ops (ed_before ed' ++ after') /\
  rl_ok (RangeTombstoneList (ed_before ed' ++ after') (ed_next ed')) /\
  forall x, covering (ed_before ed' ++ after').*2 x = overlay s e tomb x (covering (ed_before ed ++ after).*2 x).
Proof using Htypes.
  intros (ed' & after' & out & ops & -> & Hout & Hops & Hed & Hids & Hcan & Hcov) Hb Hbs.
  exists ed', after', ops. rewrite Hout. split_and!; try done.
  - split; [unfold rl_values; cbn [rl_tombstones]; rewrite fmap_app; by apply canonical_app|].
    split; [by destruct (edits_sane _ _ _ Hed) as [_ [_ ?]]|done].
  - intros x. rewrite !fmap_app, !covering_app, Hcov. destruct (covering (ed_before ed).*2 x) as [t|] eqn:Hx; [|done].
    apply covering_Some in Hx as (rt & Hrt & Hx & _). apply list_elem_of_fmap in Hrt as (en & -> & Hen).
    rewrite Forall_forall in Hbs. specialize (Hbs _ Hen). unfold covers, between, overlay in *. apply andb_true_iff in Hx as [_ Hx].
    unfold between. places [x; s; e; hi en.2].
Qed.

(** The entry before the iterator touches the new range and has its tombstone. *)
Lemma insert_from_merge b prev next ops after start end_ tomb :
  bound_position start -> bound_position end_ -> place_lt (position_place start) (position_place end_) = true ->
  canonical None ((b ++ [prev]) ++ after).*2 -> ids_ok next ((b ++ [prev]) ++ after) ->
  match after with it :: _ => place_lt (position_place start) (hi it.2) = true | [] => True end ->
  rt_tomb prev.2 = tomb -> cmp (hi prev.2) (position_place start) = Eq ->
  let ed := rev_erase recording (Editor b next ops) prev in
  exists ed' after' ops', insert_loop types recording after ed (rt_position prev.2) end_ tomb = Ret (ed', after') /\
  ed_ops ed' = ops ++ recorded ops' /\ edits ((b ++ [prev]) ++ after) ops' (ed_before ed' ++ after') /\
  rl_ok (RangeTombstoneList (ed_before ed' ++ after') (ed_next ed')) /\
  forall x, covering (ed_before ed' ++ after').*2 x =
    overlay (position_place start) (position_place end_) tomb x (covering ((b ++ [prev]) ++ after).*2 x).
Proof using Htypes.
  intros Hs He Hlt Hcan Hids Hreach Ht Htouch ed. rewrite <- app_assoc in *. cbn [app] in *.
  pose proof Hcan as Hcan'. rewrite fmap_app in Hcan. apply canonical_app in Hcan as [Hb Hc].
  cbn [canonical fmap list_fmap] in Hc. destruct Hc as (Hok & Hf & Hafter).
  destruct (rt_positions prev.2 (proj1 Hok)) as [Hps _]. pose proof (proj2 Hok) as Hlh.
  assert (ready ed after (rt_position prev.2) end_ tomb) as Hr.
  { split; try done.
    - change (position_place (rt_position prev.2)) with (lo prev.2). places [lo prev.2; hi prev.2; position_place start; position_place end_].
    - by apply (canonical_skip _ prev.2).
    - by apply ids_remove in Hids.
    - by rewrite <- Ht.
    - destruct after as [|it after]; [done|]. change (position_place (rt_position prev.2)) with (lo prev.2).
      places [lo prev.2; hi prev.2; position_place start; hi it.2]. }
  apply insert_loop_spec in Hr. apply inserted_list in Hr as (ed' & after' & ops' & -> & Hops & Hed & Hrl & Hcov); [|done|].
  - exists ed', after', ([erase_undo_op prev] ++ ops'). split; [done|]. split_and!; try done.
    + rewrite Hops, recorded_app, app_assoc. f_equal. exact (record_op_one (Editor b next ops) _).
    + eapply edits_app; [|exact Hed]. apply (edits_erase (Editor b next ops)); [apply Hids|]. by apply (canonical_ordered None).
    + intros x. rewrite Hcov. simpl. rewrite !fmap_app, !covering_app. cbn [covering fmap list_fmap].
      change (position_place (rt_position prev.2)) with (lo prev.2). rewrite Ht. unfold overlay, covers, between.
      destruct (covering b.*2 x) as [t|] eqn:Hx.
      * apply covering_Some in Hx as (rt & Hrt & Hx & _). unfold covers, between in Hx. apply andb_true_iff in Hx as [_ Hx].
        apply canonical_ordered in Hcan'. rewrite fmap_app in Hcan'. pose proof (ordered_before _ _ _ _ _ Hcan' Hrt).
        places [x; hi rt; lo prev.2; hi prev.2; position_place start; position_place end_].
      * destruct (place_lt x (hi prev.2)) eqn:Hxp; [rewrite (covering_before _ _ _ _ Hafter Hxp)|];
          places [x; lo prev.2; hi prev.2; position_place start; position_place end_].
  - simpl. apply Forall_forall. intros en Hen. apply canonical_ordered in Hcan'. rewrite fmap_app in Hcan'.
    apply (ordered_before _ _ _ _ _ Hcan'). by apply list_elem_of_fmap_2.
Qed.

Lemma insert_from_spec b next ops after start end_ tomb :
  bound_position start -> bound_position end_ -> place_lt (position_place start) (position_place end_) = true ->
  canonical None (b ++ after).*2 -> ids_ok next (b ++ after) ->
  Forall (fun en => place_lt (position_place start) (hi en.2) = false) b ->
  match after with it :: _ => place_lt (position_place start) (hi it.2) = true | [] => True end ->
  exists ed' after' ops', insert_from types recording (Editor b next ops) after start end_ tomb = Ret (ed', after') /\
  ed_ops ed' = ops ++ recorded ops' /\ edits (b ++ after) ops' (ed_before ed' ++ after') /\
  rl_ok (RangeTombstoneList (ed_before ed' ++ after') (ed_next ed')) /\
  forall x, covering (ed_before ed' ++ after').*2 x =
    overlay (position_place start) (position_place end_) tomb x (covering (b ++ after).*2 x).
Proof using Htypes.
  intros Hs He Hlt Hcan Hids Hbs Hreach. unfold insert_from. cbn [ed_before ed_next ed_ops].
  assert (forall (Hf : follows (last_of None b.*2) (position_place start) tomb),
    ready (Editor b next ops) after start end_ tomb) as Hready.
  { intros Hf. rewrite fmap_app in Hcan. apply canonical_app in Hcan as [??]. by split. }
  assert (canonical None b.*2) as Hb by (rewrite fmap_app in Hcan; by apply canonical_app in Hcan as [??]).
  destruct (snoc_cases b) as [->|(b' & prev & ->)].
  { simpl. apply (inserted_list (Editor [] next ops)); [|done..]. by apply insert_loop_spec, Hready. }
  rewrite last_snoc, removelast_last. rewrite fmap_app in Hready. cbn [fmap list_fmap] in Hready. rewrite last_of_snoc in Hready.
  apply Forall_app in Hbs as Hbs'. destruct Hbs' as [_ [Hps _]%Forall_cons].
  destruct (rt_positions prev.2) as [_ Hpe].
  { rewrite fmap_app in Hb. apply canonical_app in Hb as [_ ([? _] & _)]. done. }
  rewrite cmp_position by done. change (position_place (rt_end_position prev.2)) with (hi prev.2).
  destruct (bool_decide (rt_tomb prev.2 = tomb) && bool_decide (cmp (hi prev.2) (position_place start) = Eq)) eqn:Hmerge.
  - apply andb_true_iff in Hmerge as [?%bool_decide_eq_true ?%bool_decide_eq_true].
    destruct (insert_from_merge b' prev next ops after start end_ tomb) as (ed' & after' & ops' & Hl); [done..|]. by exists ed', after', ops'.
  - apply (inserted_list (Editor (b' ++ [prev]) next ops)); [|done..]. apply insert_loop_spec, Hready. split; [done|].
    intros Htouch Ht. rewrite Ht, Htouch in Hmerge. by rewrite !bool_decide_eq_true_2 in Hmerge.
Qed.

(** The list divided where the new range begins. *)
Definition divide (l : list entry) (start : position) : list entry * list entry :=
  match last l with
  | Some la =>
    if position_less types start (rt_end_position la.2)
    then split_at_first (fun e => position_less types start (rt_end_position e.2)) l
    else (l, [])
  | None => ([], [])
  end.

Lemma divide_spec l start :
  canonical None l.*2 -> bound_position start ->
  let '(b, a) := divide l start in
  l = b ++ a /\ Forall (fun en => place_lt (position_place start) (hi en.2) = false) b /\
  match a with it :: _ => place_lt (position_place start) (hi it.2) = true | [] => True end.
Proof using Htypes.
  intros Hcan Hs. assert (forall e, e ∈ l -> position_less types start (rt_end_position e.2) = place_lt (position_place start) (hi e.2)) as Hless.
  { intros e He. apply less_position; [done|]. apply rt_positions.
    apply (canonical_ordered None) in Hcan. by apply (ordered_wf _ _ _ Hcan (list_elem_of_fmap_2 snd _ _ He)). }
  unfold divide. destruct (snoc_cases l) as [->|(l' & la & ->)]; [done|]. rewrite last_snoc.
  rewrite (Hless la) by (apply elem_of_app; right; left).
  destruct (place_lt (position_place start) (hi la.2)) eqn:Hla.
  - pose proof (split_at_first_spec (fun e => position_less types start (rt_end_position e.2)) (l' ++ [la])) as Hsplit.
    destruct (split_at_first _ _) as [b a]. destruct Hsplit as (Hba & Hb & Ha). rewrite Hba in *. split; [done|]. split.
    + rewrite Forall_forall in *. intros e He. rewrite <- Hless; [by apply Hb|]. apply elem_of_app. by left.
    + destruct a as [|it a]; [done|]. rewrite <- Hless; [done|]. apply elem_of_app. right. left.
  - split; [by rewrite app_nil_r|]. split; [|done]. apply Forall_app. split; [|by repeat constructor].
    apply Forall_forall. intros e He. apply (canonical_ordered None) in Hcan. rewrite fmap_app in Hcan.
    pose proof (ordered_before _ _ _ _ _ Hcan (list_elem_of_fmap_2 snd _ _ He)).
    assert (rt_ok la.2) as [_ ?] by (eapply ordered_wf; [exact Hcan|]; apply elem_of_app; right; left).
    places [position_place start; hi e.2; lo la.2; hi la.2].
Qed.

Lemma apply_recorded_spec l ops rt :
  rl_ok l -> rt_wf rt ->
  exists l' ops', apply_recorded types recording l ops rt = Ret (l', ops ++ recorded ops') /\ rl_ok l' /\
  edits (rl_tombstones l) ops' (rl_tombstones l') /\
  forall x, covering (rl_values l') x = overlay (lo rt) (hi rt) (rt_tomb rt) x (covering (rl_values l) x).
Proof using Htypes.
  intros Hl Hwf. pose proof Hl as [Hcan Hids]. destruct (rt_positions rt Hwf) as [Hs He].
  unfold apply_recorded. rewrite less_position by done.
  change (position_place (rt_position rt)) with (lo rt). change (position_place (rt_end_position rt)) with (hi rt).
  destruct (place_lt (lo rt) (hi rt)) eqn:Hlt; cbn [negb].
  2: { exists l, []. unfold recorded. split; [by destruct recording; rewrite app_nil_r|]. split; [done|]. split.
       - apply edits_nil. split; [by apply (canonical_ordered None)|apply Hids].
       - intros x. unfold overlay, between. places [x; lo rt; hi rt]. }
  pose proof (divide_spec (rl_tombstones l) (rt_position rt) Hcan Hs) as Hdiv. unfold divide in Hdiv.
  unfold rl_values in *. destruct (last (rl_tombstones l)) as [la|] eqn:Hlast.
  - destruct (if position_less types (rt_position rt) (rt_end_position la.2) then _ else _) as [b a].
    destruct Hdiv as (Hba & Hbs & Hreach). rewrite Hba in *.
    destruct (insert_from_spec b (rl_next l) ops a (rt_position rt) (rt_end_position rt) (rt_tomb rt)) as
      (ed' & a' & ops' & -> & Hops & Hed & Hrl & Hcov); [done..|].
    cbn [mbind outcome_bind]. rewrite Hops. eexists _, ops'. split; [done|]. by split_and!.
  - apply last_None in Hlast. rewrite Hlast in *.
    destruct (insert_from_spec [] (rl_next l) ops [] (rt_position rt) (rt_end_position rt) (rt_tomb rt)) as
      (ed' & a' & ops' & Hins & Hops & Hed & Hrl & Hcov); [done..|].
    unfold insert_from in Hins. cbn [ed_before last insert_loop] in Hins.
    destruct (rt_of_positions _ _ _) as [new| |] eqn:Hnew; cbn [mbind outcome_bind] in Hins; simplify_eq.
    rewrite app_nil_r in *. eexists _, ops'. split; [by rewrite <- Hops|]. by split_and!.
Qed.

End inserting.

End theory.
