(* ===== verification/RangeTombstonesTheorems.v ===== *)
(** What lists of range tombstones promise: claims about [RangeTombstones], from the theory of
    [RangeTombstonesTheory].

    Applying is a pointwise maximum and does not depend on the order; it can be undone, at any
    moment; the difference of two lists is what one must be given to know as much as the
    other; search, slice and trim are what they say of the places that are covered; and the
    accumulator of a reader knows the tombstone of every row it passes. *)
From S2P Require Import Prelude Ordering Interval IntervalTheory Clustering RangeTombstones RangeTombstonesTheory.
Open Scope Z_scope.

Section theorems.
Context {V : Type} (types : list (V -> V -> comparison)) `{Htypes : !ColumnTypes types}.
Abbreviation range_tombstone := (range_tombstone V).
Abbreviation place := (@place V).
Abbreviation cmp := (place_compare types).
Abbreviation canonical := (canonical types).
Abbreviation covering := (covering types).
Abbreviation rt_wf := (rt_wf types).
Abbreviation rl_ok := (rl_ok types).
Abbreviation place_lt := (place_ltb types).
Ltac places ps := places_of types ps.

(** * Applying *)

(** What a range tombstone says of a place. *)
Definition contribution (x : place) (rt : range_tombstone) : option tombstone :=
  if covers types rt x then Some (rt_tomb rt) else None.

Lemma overlay_contribution rt x o : overlay types (lo rt) (hi rt) (rt_tomb rt) x o = omax o (contribution x rt).
Proof using. unfold overlay, contribution, covers. destruct (between _ _ _ _), o; done. Qed.

(** The two ways of applying one range tombstone. *)
Lemma rl_apply_spec l rt :
  rl_ok l -> rt_wf rt ->
  exists l', rl_apply types l rt = Ret l' /\ rl_ok l' /\
  forall x, covering (rl_values l') x = omax (covering (rl_values l) x) (contribution x rt).
Proof using Htypes.
  intros Hl Hrt. destruct (apply_recorded_spec types false l [] rt Hl Hrt) as (l' & ops & Heq & Hl' & _ & Hcov).
  unfold rl_apply. rewrite Heq. exists l'. split; [done|]. split; [done|].
  intros x. by rewrite Hcov, overlay_contribution.
Qed.

Lemma rl_apply_monotonically_spec l rt :
  rl_ok l -> rt_wf rt ->
  exists l', rl_apply_monotonically types l rt = Ret l' /\ rl_ok l' /\
  forall x, covering (rl_values l') x = omax (covering (rl_values l) x) (contribution x rt).
Proof using Htypes.
  intros Hl Hrt. destruct (apply_recorded_spec types true l [] rt Hl Hrt) as (l' & ops & Heq & Hl' & _ & Hcov).
  unfold rl_apply_monotonically. rewrite Heq. exists l'. split; [done|]. split; [done|].
  intros x. by rewrite Hcov, overlay_contribution.
Qed.

Lemma rl_apply_all_spec rts l :
  rl_ok l -> Forall rt_wf rts ->
  exists l', rl_apply_all types l rts = Ret l' /\ rl_ok l' /\
  forall x, covering (rl_values l') x = fold_left omax (contribution x <$> rts) (covering (rl_values l) x).
Proof using Htypes.
  intros Hl Hrts. revert l Hl. induction Hrts as [|rt rts Hrt _ IH]; intros l Hl; simpl; [by exists l|].
  destruct (rl_apply_spec l rt Hl Hrt) as (l1 & -> & Hl1 & Hcov1). cbn [mbind outcome_bind].
  destruct (IH l1 Hl1) as (l' & -> & Hl' & Hcov). exists l'. split; [done|]. split; [done|].
  intros x. by rewrite Hcov, Hcov1.
Qed.

(** ** Canonical lists *)

Lemma start_places_equal b b' :
  is_start_kind (bv_kind b) = is_start_kind (bv_kind b') ->
  (length (bv_prefix b) <= length types)%nat -> cmp (bound_place b) (bound_place b') = Eq -> bound_view_equal types b b' = true.
Proof using.
  destruct b as [p k], b' as [p' k']. unfold bound_place, bound_view_equal, place_compare. cbn [bv_prefix bv_kind fst snd].
  intros Hk Hlen Hcmp. destruct (place_weights types p p') as [Hw|Hw]; [|by destruct (proj1 (Hw _ _) Hcmp)].
  rewrite Hw, Z.compare_eq_iff in Hcmp. apply andb_true_iff. split.
  - apply bool_decide_eq_true. by destruct k, k'.
  - apply (place_key_equal types p p' 0); [done|]. unfold place_compare. cbn [fst snd]. by rewrite Hw.
Qed.

Lemma rt_places_equal rt rt' :
  rt_wf rt -> rt_wf rt' -> cmp (lo rt) (lo rt') = Eq -> cmp (hi rt) (hi rt') = Eq -> rt_tomb rt = rt_tomb rt' ->
  rt_equal types rt rt' = true.
Proof using.
  intros (Hs & He & Hsl & Hel) (Hs' & He' & _ & _) Hlo Hhi Ht. unfold rt_equal. rewrite Ht, bool_decide_eq_true_2 by done.
  rewrite !start_places_equal; unfold start_bound, end_bound; cbn [bv_kind bv_prefix]; congruence || done.
Qed.

Lemma covers_lo rt : rt_ok types rt -> covers types rt (lo rt) = true.
Proof using Htypes. intros [_ Hlt]. unfold covers, between. places [lo rt; hi rt]. Qed.

Lemma covering_lo rt l : rt_ok types rt -> covering (rt :: l) (lo rt) = Some (rt_tomb rt).
Proof using Htypes. intros. simpl. by rewrite covers_lo. Qed.

(** What begins later does not cover the beginning. *)
Lemma starts_first a l b k :
  canonical None (a :: l) -> canonical None (b :: k) -> (forall x, covering (a :: l) x = covering (b :: k) x) ->
  place_lt (lo a) (lo b) = false.
Proof using Htypes.
  intros (Ha & _ & _) (Hb & _ & Hk) Hcov. apply not_true_iff_false. intros Hlt. specialize (Hcov (lo a)).
  rewrite covering_lo in Hcov by done. simpl in Hcov. unfold covers, between in Hcov. rewrite Hlt in Hcov. simpl in Hcov.
  rewrite (covering_before types _ _ _ _ Hk) in Hcov; [done|]. destruct Hb as [_ Hb]. places [lo a; lo b; hi b].
Qed.

(** What ends earlier is followed by an entry with another tombstone. *)
Lemma ends_first a l b k :
  canonical None (a :: l) -> canonical None (b :: k) -> (forall x, covering (a :: l) x = covering (b :: k) x) ->
  cmp (lo a) (lo b) = Eq -> rt_tomb a = rt_tomb b -> place_lt (hi a) (hi b) = false.
Proof using Htypes.
  intros ([_ Ha] & _ & Hl) ([_ Hb] & _ & _) Hcov Hlo Ht. apply not_true_iff_false. intros Hlt. specialize (Hcov (hi a)).
  simpl in Hcov. unfold covers, between in Hcov.
  assert (place_lt (hi a) (hi a) = false) as Hirr by (places [hi a]).
  assert (place_lt (hi a) (lo b) = false) as Hge by (places [lo a; lo b; hi a]).
  rewrite Hirr, andb_false_r, Hge, Hlt in Hcov. simpl in Hcov. rewrite <- Ht in Hcov.
  destruct l as [|c l]; [done|]. simpl in Hl, Hcov. destruct Hl as (Hc & [Hac Hne] & Hl).
  unfold covers, between in Hcov. destruct (place_lt (hi a) (lo c)) eqn:Hgap.
  - simpl in Hcov. rewrite (covering_before types _ _ _ _ Hl) in Hcov; [done|]. destruct Hc as [_ Hc]. places [hi a; lo c; hi c].
  - simpl in Hcov. destruct Hc as [_ Hc]. assert (place_lt (hi a) (hi c) = true) as Hach by (places [hi a; lo c; hi c]).
    rewrite Hach in Hcov. injection Hcov as Hcov. apply Hne; [|done]. places [hi a; lo c].
Qed.

(** A canonical list is determined by what it covers. *)
Lemma canonical_unique l k :
  canonical None l -> canonical None k -> (forall x, covering l x = covering k x) -> rl_equal types l k = true.
Proof using Htypes.
  revert k. induction l as [|a l IH]; intros [|b k] Hl Hk Hcov; [done| | |].
  - specialize (Hcov (lo b)). rewrite covering_lo in Hcov by apply Hk. done.
  - specialize (Hcov (lo a)). rewrite covering_lo in Hcov by apply Hl. done.
  - assert (cmp (lo a) (lo b) = Eq) as Hlo.
    { pose proof (starts_first a l b k Hl Hk Hcov). pose proof (starts_first b k a l Hk Hl (fun x => eq_sym (Hcov x))).
      places [lo a; lo b]. }
    assert (covers types b (lo a) = true) as Hba.
    { destruct Hk as [[_ Hb] _]. unfold covers, between. places [lo a; lo b; hi b]. }
    assert (rt_tomb a = rt_tomb b) as Ht.
    { specialize (Hcov (lo a)). rewrite covering_lo in Hcov by apply Hl. simpl in Hcov. rewrite Hba in Hcov. by injection Hcov. }
    assert (cmp (hi a) (hi b) = Eq) as Hhi.
    { assert (cmp (lo b) (lo a) = Eq) as Hlo' by (places [lo a; lo b]).
      pose proof (ends_first a l b k Hl Hk Hcov Hlo Ht).
      pose proof (ends_first b k a l Hk Hl (fun x => eq_sym (Hcov x)) Hlo' (eq_sym Ht)). places [hi a; hi b]. }
    destruct Hl as (Ha & _ & Hl), Hk as (Hb & _ & Hk).
    assert (rl_equal types l k = true) as Hrest.
    { apply IH; [by apply canonical_none in Hl|by apply canonical_none in Hk|]. intros x. specialize (Hcov x). simpl in Hcov.
      unfold covers, between in Hcov. destruct (place_lt x (hi a)) eqn:Hx.
      - rewrite (covering_before types _ _ _ _ Hl Hx). symmetry. apply (covering_before types _ _ _ _ Hk). places [x; hi a; hi b].
      - assert (place_lt x (hi b) = false) as Hxb by (places [x; hi a; hi b]). by rewrite Hxb, !andb_false_r in Hcov. }
    unfold rl_equal in *. simpl. rewrite andb_true_iff in *. destruct Hrest as [-> Hrest]. split; [done|].
    rewrite rt_places_equal by (apply Ha || apply Hb || done). done.
Qed.

(** * Claims *)

(** C15: Applying a range tombstone to a list returns, keeps the list canonical (sorted, without
    overlap, and neighbours that touch have different tombstones), and gives every place the newer
    of the tombstone it had and, if the range covers it, the applied one. *)
Theorem rl_apply_correct (l : range_tombstone_list V) rt :
  rl_ok l -> rt_wf rt ->
  exists l', rl_apply types l rt = Ret l' /\ rl_ok l' /\
  forall x, covering (rl_values l') x = omax (covering (rl_values l) x) (contribution x rt).
Proof using Htypes. apply rl_apply_spec. Qed.

(** C39: Replicas converge: two lists that are equal and to which the same range tombstones are
    applied, in any order and any number of times, are equal again. *)
Theorem rl_apply_converges (l k : range_tombstone_list V) rts rts' :
  rl_ok l -> rl_ok k -> (forall x, covering (rl_values l) x = covering (rl_values k) x) ->
  Forall rt_wf rts -> Forall rt_wf rts' -> (forall rt, rt ∈ rts <-> rt ∈ rts') ->
  exists l' k', rl_apply_all types l rts = Ret l' /\ rl_apply_all types k rts' = Ret k' /\
  rl_equal types (rl_values l') (rl_values k') = true.
Proof using Htypes.
  intros Hl Hk Hlk Hrts Hrts' Hsame.
  destruct (rl_apply_all_spec rts l Hl Hrts) as (l' & -> & [Hl' _] & Hcov).
  destruct (rl_apply_all_spec rts' k Hk Hrts') as (k' & -> & [Hk' _] & Hcov').
  exists l', k'. split; [done|]. split; [done|]. apply canonical_unique; [done..|]. intros x. rewrite Hcov, Hcov', Hlk.
  apply (merge_all_converges (fun _ => True) eq omax); [done|by apply Forall_true..|].
  intros o. rewrite !list_elem_of_fmap. split; intros (rt & -> & Hrt); exists rt; (split; [done|]); by apply Hsame.
Qed.

Lemma apply_all_recorded_spec rts l ops :
  rl_ok l -> Forall rt_wf rts ->
  exists l' ops', apply_all_recorded types true l ops rts = Ret (l', ops ++ ops') /\ rl_ok l' /\
  edits types (rl_tombstones l) ops' (rl_tombstones l') /\
  forall x, covering (rl_values l') x = fold_left omax (contribution x <$> rts) (covering (rl_values l) x).
Proof using Htypes.
  intros Hl Hrts. revert l ops Hl. induction Hrts as [|rt rts Hrt _ IH]; intros l ops Hl; cbn [apply_all_recorded].
  { exists l, []. rewrite app_nil_r. split; [done|]. split; [done|]. split; [|done]. destruct Hl as [Hl [Hnd _]].
    apply edits_nil. split; [by apply (canonical_ordered types None)|done]. }
  destruct (apply_recorded_spec types true l ops rt Hl Hrt) as (l1 & ops1 & -> & Hl1 & Hed1 & Hcov1). cbn [mbind outcome_bind].
  destruct (IH l1 (ops ++ recorded true ops1) Hl1) as (l' & ops' & -> & Hl' & Hed & Hcov).
  exists l', (ops1 ++ ops'). rewrite app_assoc. split; [done|]. split; [done|]. split; [by eapply edits_app|].
  intros x. rewrite Hcov, Hcov1, overlay_contribution. done.
Qed.

Lemma edits_prefix l ops1 ops2 l' :
  edits types l (ops1 ++ ops2) l' -> exists l1, edits types l ops1 l1 /\ edits types l1 ops2 l'.
Proof using.
  remember (ops1 ++ ops2) as ops eqn:Hops. intros Hed. revert ops2 Hops.
  induction Hed as [l Hs|l ops l1 op l' Hed IH Hop Hs]; intros ops2 Hops.
  - symmetry in Hops. apply app_eq_nil in Hops as [-> ->]. exists l. split; by apply edits_nil.
  - destruct (snoc_cases ops2) as [->|(ops2' & op' & ->)].
    + rewrite app_nil_r in Hops. subst ops1. exists l'. split; [by eapply edits_snoc|]. by apply edits_nil.
    + rewrite app_assoc in Hops. apply app_inj_tail in Hops as [-> <-]. destruct (IH ops2' eq_refl) as (l2 & H1 & H2).
      exists l2. split; [done|]. by eapply edits_snoc.
Qed.

(** C16: A reverter restores the list. After the range tombstones of another list were applied
    reversibly, reverting finds every entry it refers to and gives back exactly the entries there
    were, with their addresses; and so it does from the state after any number of the operations
    that were recorded, where an exception may have stopped the application. *)
Theorem revert_correct (l : range_tombstone_list V) rts :
  rl_ok l -> Forall rt_wf rts ->
  exists l' ops, rl_apply_reversibly types l rts = Ret (l', ops) /\ rl_ok l' /\
  (forall x, covering (rl_values l') x = fold_left omax (contribution x <$> rts) (covering (rl_values l) x)) /\
  revert types ops l' = Ret (RangeTombstoneList (rl_tombstones l) (rl_next l')) /\
  forall ops1 ops2, ops = ops1 ++ ops2 ->
    exists es, edits types (rl_tombstones l) ops1 es /\ edits types es ops2 (rl_tombstones l') /\
      undo_all types (rev ops1) es = Ret (rl_tombstones l).
Proof using Htypes.
  intros Hl Hrts. destruct (apply_all_recorded_spec rts l [] Hl Hrts) as (l' & ops & Heq & Hl' & Hed & Hcov).
  exists l', ops. split; [exact Heq|]. split; [done|]. split; [done|]. split.
  - unfold revert. by rewrite (undo_edits types _ _ _ Hed).
  - intros ops1 ops2 ->. apply edits_prefix in Hed as (es & H1 & H2). exists es. split; [done|]. split; [done|].
    by apply undo_edits.
Qed.

(** Applying a list that is consumed, with preemption after any entry: whatever is not yet
    applied is left in the other list, so that both lists together cover what they covered, and
    nothing is left if the call says it is finished. *)
Theorem rl_apply_monotonically_correct preemptible preempt (l : range_tombstone_list V) rts :
  rl_ok l -> Forall rt_wf rts ->
  exists l' rest finished, rl_apply_monotonically_all types preemptible preempt l rts = Ret (l', rest, finished) /\
  rl_ok l' /\ Forall rt_wf rest /\ (finished = true -> rest = []) /\
  forall x, fold_left omax (contribution x <$> rest) (covering (rl_values l') x) =
    fold_left omax (contribution x <$> rts) (covering (rl_values l) x).
Proof using Htypes.
  intros Hl Hrts. revert l Hl. induction Hrts as [|rt rts Hrt Hrts IH]; intros l Hl; cbn [rl_apply_monotonically_all].
  { by exists l, [], true. }
  destruct (rl_apply_monotonically_spec l rt Hl Hrt) as (l1 & -> & Hl1 & Hcov1). cbn [mbind outcome_bind].
  destruct (preemptible && preempt (length rts)).
  - exists l1, rts, false. split_and!; try done. intros x. by rewrite Hcov1.
  - destruct (IH l1 Hl1) as (l' & rest & fin & -> & ? & ? & ? & Hcov). exists l', rest, fin. split_and!; try done.
    intros x. by rewrite Hcov, Hcov1.
Qed.

(** * Search, slice and trim *)

Lemma key_less_lt k b : key_bound_less types k b = place_lt (key_place k) (bound_place b).
Proof using. apply eq_true_iff_eq. by rewrite key_bound_less_place, place_lt_true. Qed.

(** An end lies before a start if nothing is between them; a start lies before an end if
    something is. *)
Lemma end_start_less e s :
  is_start_kind (bv_kind e) = false -> is_start_kind (bv_kind s) = true ->
  bound_less types e s = negb (place_lt (bound_place s) (bound_place e)).
Proof using Htypes.
  intros He Hs. apply eq_true_iff_eq. rewrite bound_less_place, He, Hs. simpl. rewrite negb_true_iff, <- not_true_iff_false, place_lt_true.
  rewrite (cmp_gt_lt cmp). done.
Qed.

Lemma search_spec p l k :
  canonical p l -> search_tombstone_covering types l k = default no_tombstone (covering l (key_place k)).
Proof using Htypes.
  unfold search_tombstone_covering. revert p. induction l as [|rt l IH]; intros p; [done|]. cbn [split_at_first covering].
  intros (Hok & _ & Hl). unfold covers, between. rewrite key_less_lt. change (bound_place (end_bound rt)) with (hi rt).
  destruct (place_lt (key_place k) (hi rt)) eqn:Hend; cbn [snd].
  - rewrite key_less_lt. change (bound_place (start_bound rt)) with (lo rt).
    destruct (place_lt (key_place k) (lo rt)); [|done]. simpl. by rewrite (covering_before types _ _ _ _ Hl Hend).
  - rewrite andb_false_r, <- (IH _ Hl). by destruct (split_at_first _ l).
Qed.

(** The places of a clustering range. *)
Definition range_lo (r : clustering_range V) : place := bound_place (from_range_start r).
Definition range_hi (r : clustering_range V) : place := bound_place (from_range_end r).
Definition in_range (r : clustering_range V) (x : place) : bool := between types (range_lo r) (range_hi r) x.
Definition overlaps_range (r : clustering_range V) (rt : range_tombstone) : bool :=
  place_lt (range_lo r) (hi rt) && place_lt (lo rt) (range_hi r).

Lemma range_kinds (r : clustering_range V) :
  is_start_kind (bv_kind (from_range_start r)) = true /\ is_start_kind (bv_kind (from_range_end r)) = false.
Proof using.
  unfold from_range_start, from_range_end. split.
  - destruct (start r) as [[? []]|]; done.
  - destruct (end_ r) as [[? []]|]; done.
Qed.

(** From the first entry on that begins after the range, none overlaps. *)
Lemma slice_end r p l :
  canonical p l -> place_lt (range_hi r) (range_lo r) = false ->
  Forall (fun rt => place_lt (range_lo r) (hi rt) = true) l ->
  (split_at_first (fun rt => bound_less types (from_range_end r) (start_bound rt)) l).1 = filter (fun rt => overlaps_range r rt = true) l.
Proof using Htypes.
  intros Hl Hr. destruct (range_kinds r) as [_ Hk]. revert p Hl. induction l as [|rt l IH]; intros p; [done|]. cbn [split_at_first].
  intros (Hok & _ & Hl) [Hhi Hall]%Forall_cons. rewrite end_start_less by (done || apply Hok).
  change (bound_place (start_bound rt)) with (lo rt). change (bound_place (from_range_end r)) with (range_hi r).
  rewrite filter_cons. destruct (place_lt (lo rt) (range_hi r)) eqn:Hlo; simpl.
  - rewrite decide_True by (unfold overlaps_range; by rewrite Hhi, Hlo). rewrite <- (IH _ Hl Hall). by destruct (split_at_first _ l).
  - rewrite decide_False by (unfold overlaps_range; by rewrite Hhi, Hlo). symmetry. apply list_filter_none. clear IH Hall. destruct Hok as [_ Hok].
    assert (place_lt (hi rt) (range_hi r) = false) as Hrt by (places [lo rt; hi rt; range_hi r]). clear Hok Hlo Hhi.
    revert rt Hl Hrt. induction l as [|rt' l IH]; intros rt Hl Hrt; [done|]. destruct Hl as ([_ Hok] & [Hf _] & Hl). constructor.
    + unfold overlaps_range. assert (place_lt (lo rt') (range_hi r) = false) as -> by (places [hi rt; lo rt'; range_hi r]).
      by rewrite andb_false_r.
    + apply (IH rt' Hl). places [hi rt; lo rt'; hi rt'; range_hi r].
Qed.

(** A slice has exactly the range tombstones that overlap with the range. *)
Lemma slice_spec r p l :
  canonical p l -> place_lt (range_hi r) (range_lo r) = false ->
  rl_slice types l r = filter (fun rt => overlaps_range r rt = true) l.
Proof using Htypes.
  intros Hl Hr. destruct (range_kinds r) as [Hk _]. unfold rl_slice, iterator_range, from_range. cbn [fst snd].
  revert p Hl. induction l as [|rt l IH]; intros p Hl; [done|]. cbn [split_at_first].
  pose proof Hl as (Hok & _ & Hl'). rewrite end_start_less, negb_involutive by (done || apply Hok).
  change (bound_place (end_bound rt)) with (hi rt). change (bound_place (from_range_start r)) with (range_lo r).
  destruct (place_lt (range_lo r) (hi rt)) eqn:Hhi; cbn [snd].
  - apply (slice_end r p (rt :: l)); [done..|]. constructor; [done|]. clear IH Hl Hok. revert rt Hl' Hhi.
    induction l as [|rt' l IH]; intros rt Hl Hhi; [done|]. destruct Hl as ([_ Hok] & [Hf _] & Hl).
    assert (place_lt (range_lo r) (hi rt') = true) by (places [range_lo r; hi rt; lo rt'; hi rt']). constructor; [done|by apply (IH rt')].
  - rewrite filter_cons, decide_False by (unfold overlaps_range; by rewrite Hhi). rewrite <- (IH _ Hl').
    by destruct (split_at_first _ l).
Qed.

(** ** Trimming *)

Definition clip (r : clustering_range V) (rt : range_tombstone) : range_tombstone :=
  rt_of_bounds (max_bound types (start_bound rt) (from_range_start r)) (min_bound types (end_bound rt) (from_range_end r)) (rt_tomb rt).

Lemma clip_spec r rt :
  range_keys_ok types r -> rt_wf rt ->
  rt_wf (clip r rt) /\ rt_tomb (clip r rt) = rt_tomb rt /\ forall x, covers types (clip r rt) x = covers types rt x && in_range r x.
Proof using Htypes.
  intros Hr (Hs & He & Hsl & Hel). destruct (range_kinds r) as [Hks Hke]. destruct (range_bounds_ok types r Hr) as [Hrs Hre].
  assert (forall b b', is_start_kind (bv_kind b) = is_start_kind (bv_kind b') ->
    bound_less types b b' = place_lt (bound_place b) (bound_place b')) as Hless.
  { intros b b' Hk. apply eq_true_iff_eq. rewrite bound_less_place, place_lt_true, Hk. destruct (is_start_kind (bv_kind b')); simpl; tauto. }
  unfold clip, max_bound, min_bound. rewrite !Hless by (simpl; congruence).
  change (bound_place (start_bound rt)) with (lo rt). change (bound_place (end_bound rt)) with (hi rt).
  change (bound_place (from_range_start r)) with (range_lo r). change (bound_place (from_range_end r)) with (range_hi r).
  set (s := if place_lt (lo rt) (range_lo r) then _ else _). set (e := if place_lt (range_hi r) (hi rt) then _ else _).
  assert (bound_place s = if place_lt (lo rt) (range_lo r) then range_lo r else lo rt) as Es
    by (unfold s; by destruct (place_lt (lo rt) (range_lo r))).
  assert (bound_place e = if place_lt (range_hi r) (hi rt) then range_hi r else hi rt) as Ee
    by (unfold e; by destruct (place_lt (range_hi r) (hi rt))).
  split; [|split; [done|]].
  - unfold s, e. by destruct (place_lt (lo rt) (range_lo r)), (place_lt (range_hi r) (hi rt)).
  - intros x. unfold covers, in_range, between. change (lo (rt_of_bounds s e _)) with (bound_place s).
    change (hi (rt_of_bounds s e _)) with (bound_place e). rewrite Es, Ee. clear Es Ee s e.
    places [x; lo rt; hi rt; range_lo r; range_hi r].
Qed.

Lemma fold_none {A} (f : A -> option tombstone) l o : Forall (fun a => f a = None) l -> fold_left omax (f <$> l) o = o.
Proof using. intros Hl. revert o. induction Hl as [|a l Ha _ IH]; intros o; [done|]. simpl. rewrite Ha, IH. by destruct o. Qed.

Lemma fold_filter {A} (f : A -> option tombstone) (P : A -> bool) l o :
  Forall (fun a => P a = false -> f a = None) l ->
  fold_left omax (f <$> filter (fun a => P a = true) l) o = fold_left omax (f <$> l) o.
Proof using.
  intros Hl. revert o. induction Hl as [|a l Ha _ IH]; intros o; [done|]. rewrite filter_cons. simpl. destruct (P a) eqn:HP.
  - rewrite decide_True by done. apply IH.
  - rewrite decide_False by done. rewrite IH, (Ha eq_refl). by destruct o.
Qed.

Lemma covering_none l x : covering l x = None <-> Forall (fun rt => covers types rt x = false) l.
Proof using.
  induction l as [|rt l IH]; simpl; [done|]. rewrite Forall_cons, <- IH. destruct (covers types rt x); naive_solver.
Qed.

(** At most one entry of a list contributes to a place. *)
Lemma fold_covering p l x (b : bool) o :
  canonical p l ->
  fold_left omax ((fun rt => if covers types rt x && b then Some (rt_tomb rt) else None) <$> l) o =
  omax o (if b then covering l x else None).
Proof using Htypes.
  revert p o. induction l as [|rt l IH]; intros p o; [by destruct b, o|]. cbn [covering].
  intros (_ & _ & Hl). cbn [fmap list_fmap fold_left]. destruct (covers types rt x) eqn:Hx.
  - rewrite fold_none; [by destruct b|]. assert (covering l x = None) as Hnone.
    { apply (covering_before types _ _ _ _ Hl). unfold covers, between in Hx. by apply andb_true_iff in Hx as [_ ?]. }
    apply covering_none in Hnone. eapply Forall_impl; [exact Hnone|]. simpl. by intros ? ->.
  - simpl. rewrite (IH _ _ Hl). by destruct o.
Qed.

Definition range_ok (r : clustering_range V) : Prop := range_keys_ok types r /\ place_lt (range_hi r) (range_lo r) = false.

Lemma trim_range_spec l acc r :
  rl_ok acc -> canonical None l -> range_ok r ->
  exists acc', trim_range types l acc r = Ret acc' /\ rl_ok acc' /\
  forall x, covering (rl_values acc') x = omax (covering (rl_values acc) x) (if in_range r x then covering l x else None).
Proof using Htypes.
  intros Hacc Hl [Hkeys Hr]. unfold trim_range. rewrite (slice_spec r None l) by done.
  assert (forall rt, rt ∈ l -> rt_wf rt) as Hwf.
  { intros rt Hrt. apply (canonical_ordered types None) in Hl. by apply (ordered_wf types _ _ _ Hl). }
  change (fun rt => rt_of_bounds _ _ _) with (clip r).
  destruct (rl_apply_all_spec (clip r <$> filter (fun rt => overlaps_range r rt = true) l) acc Hacc) as (acc' & -> & Hacc' & Hcov).
  { apply Forall_forall. intros rt' (rt & -> & [_ Hrt]%list_elem_of_filter)%list_elem_of_fmap. by apply clip_spec; [|apply Hwf]. }
  exists acc'. split; [done|]. split; [done|]. intros x. rewrite Hcov, <- list_fmap_compose, <- (fold_covering None l x) by done.
  rewrite (fold_filter (contribution x ∘ clip r) (overlaps_range r)).
  - f_equal. apply list_fmap_ext. intros i rt Hi%list_elem_of_lookup_2. simpl. unfold contribution.
    destruct (clip_spec r rt Hkeys (Hwf _ Hi)) as (_ & -> & ->). done.
  - apply Forall_forall. intros rt Hrt Hov. simpl. unfold contribution.
    destruct (clip_spec r rt Hkeys (Hwf _ Hrt)) as (_ & _ & ->).
    unfold overlaps_range, covers, in_range, between in *. apply (canonical_ordered types None) in Hl.
    destruct (ordered_wf types _ _ _ Hl Hrt) as [_ ?]. revert Hov. places [x; lo rt; hi rt; range_lo r; range_hi r].
Qed.

Lemma trim_spec l ranges :
  canonical None l -> Forall range_ok ranges ->
  exists l', rl_trim types l ranges = Ret l' /\ rl_ok l' /\
  forall x, covering (rl_values l') x = if existsb (fun r => in_range r x) ranges then covering l x else None.
Proof using Htypes.
  intros Hl Hranges. unfold rl_trim.
  assert (forall acc, rl_ok acc -> exists l', trim_ranges types l acc ranges = Ret l' /\ rl_ok l' /\
    forall x, covering (rl_values l') x =
      omax (covering (rl_values acc) x) (if existsb (fun r => in_range r x) ranges then covering l x else None)) as Hacc.
  { induction Hranges as [|r ranges Hr _ IH]; intros acc Hacc; cbn [trim_ranges existsb].
    { exists acc. split; [done|]. split; [done|]. intros x. by destruct (covering (rl_values acc) x). }
    destruct (trim_range_spec l acc r Hacc Hl Hr) as (acc1 & -> & Hacc1 & Hcov1). cbn [mbind outcome_bind].
    destruct (IH acc1 Hacc1) as (l' & -> & Hl' & Hcov). exists l'. split; [done|]. split; [done|]. intros x.
    rewrite Hcov, Hcov1. rewrite <- (merge_assoc (ok := fun _ => True) (eqv := eq)) by done. f_equal.
    destruct (in_range r x), (existsb _ ranges); simpl; try done; by destruct (covering l x); simpl; rewrite ?tombstone_apply_idem. }
  destruct (Hacc make_range_tombstone_list) as (l' & -> & Hl' & Hcov); [by repeat constructor|].
  exists l'. split; [done|]. split; [done|]. intros x. rewrite Hcov. done.
Qed.

(** Searching a list for a key finds the tombstone that covers the key, or none; trimming a
    list to clustering ranges returns a canonical list that covers the places of the ranges, as
    the list did, and no others. *)
Theorem search_and_trim_correct l ranges :
  canonical None l -> Forall range_ok ranges ->
  (forall k, search_tombstone_covering types l k = default no_tombstone (covering l (key_place k))) /\
  exists l', rl_trim types l ranges = Ret l' /\ rl_ok l' /\
  forall x, covering (rl_values l') x = if existsb (fun r => in_range r x) ranges then covering l x else None.
Proof using Htypes.
  intros Hl Hranges. split; [intros k; by apply (search_spec None)|by apply trim_spec].
Qed.

(** * Difference *)

(** What the difference says of a place: the tombstone of the first list if it is newer. *)
Definition newer_only (a b : option tombstone) : option tombstone :=
  match a, b with
  | Some t, Some u => if tombstone_less u t then Some t else None
  | a, None => a
  | None, Some _ => None
  end.

Lemma apply_bounds_spec diff s e t :
  rl_ok diff -> is_start_kind (bv_kind s) = true -> is_start_kind (bv_kind e) = false ->
  (length (bv_prefix s) <= length types)%nat -> (length (bv_prefix e) <= length types)%nat ->
  exists diff', rl_apply_bounds types diff s e t = Ret diff' /\ rl_ok diff' /\
  forall x, covering (rl_values diff') x =
    omax (covering (rl_values diff) x) (if between types (bound_place s) (bound_place e) x then Some t else None).
Proof using Htypes. intros Hd Hs He Hsl Hel. apply (rl_apply_spec diff (rt_of_bounds s e t)); done. Qed.

(** The state of the loop: [cur_start] to [cur_end] is what is left of the current range tombstone. *)
Record at_range (this_rt : range_tombstone) (rest other : list range_tombstone) (cur_start cur_end : bound_view V) : Prop := {
  at_start : is_start_kind (bv_kind cur_start) = true /\ (length (bv_prefix cur_start) <= length types)%nat;
  at_end : is_start_kind (bv_kind cur_end) = false /\ (length (bv_prefix cur_end) <= length types)%nat;
  at_lt : place_lt (bound_place cur_start) (bound_place cur_end) = true;
  at_rest : canonical (Some (bound_place cur_end, rt_tomb this_rt)) rest;
  at_other : canonical None other;
}.

(** What is left of the first list at that point. *)
Definition left_over (this_rt : range_tombstone) (rest : list range_tombstone) (cs ce x : place) : option tombstone :=
  if between types cs ce x then Some (rt_tomb this_rt) else covering rest x.

(** The loop does its work, with [fuel], from any such state. *)
Definition loop_works (fuel : nat) : Prop :=
  forall this_rt rest other cur_start cur_end diff,
  at_range this_rt rest other cur_start cur_end -> rl_ok diff -> (length rest + length other < fuel)%nat ->
  exists diff', difference_loop types fuel (this_rt :: rest) other cur_start cur_end diff = Ret diff' /\ rl_ok diff' /\
  forall x, covering (rl_values diff') x = omax (covering (rl_values diff) x)
    (newer_only (left_over this_rt rest (bound_place cur_start) (bound_place cur_end) x) (covering other x)).

(** Moving on to the next range tombstone of the first list. *)
Lemma advance_spec fuel rest other h t cur_start cur_end diff :
  loop_works fuel -> canonical (Some (h, t)) rest -> canonical None other -> rl_ok diff -> (length rest + length other <= fuel)%nat ->
  exists diff', match rest with
    | [] => difference_loop types fuel [] other cur_start cur_end diff
    | rt :: _ => difference_loop types fuel rest other (start_bound rt) (end_bound rt) diff
    end = Ret diff' /\ rl_ok diff' /\
  forall x, covering (rl_values diff') x = omax (covering (rl_values diff) x) (newer_only (covering rest x) (covering other x)).
Proof using Htypes.
  intros Hloop Hrest Hother Hd Hfuel. destruct rest as [|rt rest].
  - exists diff. split; [by destruct fuel|]. split; [done|]. intros x. simpl. by destruct (covering other x), (covering (rl_values diff) x).
  - destruct Hrest as ([(Hs & He & Hsl & Hel) Hlt] & _ & Hrest). simpl in Hfuel.
    destruct (Hloop rt rest other (start_bound rt) (end_bound rt) diff) as (diff' & -> & Hd' & Hcov); [by split|done|lia|].
    by exists diff'.
Qed.

Lemma bound_less_se s e :
  is_start_kind (bv_kind s) = true -> is_start_kind (bv_kind e) = false -> bound_less types s e = place_lt (bound_place s) (bound_place e).
Proof using. intros Hs He. apply eq_true_iff_eq. by rewrite bound_less_place, place_lt_true, Hs, He. Qed.

Lemma bound_less_ee e e' :
  is_start_kind (bv_kind e) = false -> is_start_kind (bv_kind e') = false -> bound_less types e e' = place_lt (bound_place e) (bound_place e').
Proof using. intros He He'. apply eq_true_iff_eq. by rewrite bound_less_place, place_lt_true, He, He'. Qed.

(** The same place, as a bound of the other side. *)
Lemma invert_place p k : bound_place (BoundView p (invert_kind k)) = bound_place (V := V) (BoundView p k) /\
  is_start_kind (invert_kind k) = negb (is_start_kind k).
Proof using. by destruct k. Qed.

(** What lies before the range tombstone of the other list is kept whatever its tombstone. *)
Lemma front_spec o cur_start diff t :
  rl_ok diff -> rt_ok types o -> is_start_kind (bv_kind cur_start) = true -> (length (bv_prefix cur_start) <= length types)%nat ->
  let new_end := BoundView (bv_prefix (start_bound o)) (invert_kind (bv_kind (start_bound o))) in
  exists cur_start1 diff1,
    (if bound_less types cur_start new_end then
       diff ← rl_apply_bounds types diff cur_start new_end t; Ret (start_bound o, diff)
     else Ret (cur_start, diff)) = Ret (cur_start1, diff1) /\
  rl_ok diff1 /\ is_start_kind (bv_kind cur_start1) = true /\ (length (bv_prefix cur_start1) <= length types)%nat /\
  bound_place cur_start1 = (if place_lt (bound_place cur_start) (lo o) then lo o else bound_place cur_start) /\
  forall x, covering (rl_values diff1) x =
    omax (covering (rl_values diff) x) (if between types (bound_place cur_start) (lo o) x then Some t else None).
Proof using Htypes.
  intros Hd [(Hos & _ & Hol & _) _] Hs Hsl new_end. destruct (invert_place (rt_start o) (rt_start_kind o)) as [Hp Hk].
  assert (bound_place new_end = lo o) as Hne by exact Hp. assert (is_start_kind (bv_kind new_end) = false) as Hnk by (simpl; by rewrite Hk, Hos).
  rewrite bound_less_se, Hne by done. destruct (place_lt (bound_place cur_start) (lo o)) eqn:Hlt.
  - destruct (apply_bounds_spec diff cur_start new_end t) as (diff1 & -> & Hd1 & Hcov); [done..|]. cbn [mbind outcome_bind].
    exists (start_bound o), diff1. rewrite Hne in Hcov. by split_and!.
  - exists cur_start, diff. split_and!; try done. intros x. unfold between.
    assert (negb (place_lt x (bound_place cur_start)) && place_lt x (lo o) = false) as -> by (places [x; bound_place cur_start; lo o]).
    by destruct (covering (rl_values diff) x).
Qed.

(** A part is only kept if the tombstone is newer than the other one. *)
Lemma keep_if_newer (newer : bool) diff s e t :
  rl_ok diff -> is_start_kind (bv_kind s) = true -> is_start_kind (bv_kind e) = false ->
  (length (bv_prefix s) <= length types)%nat -> (length (bv_prefix e) <= length types)%nat ->
  exists diff', (if newer then rl_apply_bounds types diff s e t else Ret diff) = Ret diff' /\ rl_ok diff' /\
  forall x, covering (rl_values diff') x =
    omax (covering (rl_values diff) x) (if newer && between types (bound_place s) (bound_place e) x then Some t else None).
Proof using Htypes.
  intros. destruct newer; [by apply apply_bounds_spec|]. exists diff. split; [done|]. split; [done|].
  intros x. by destruct (covering (rl_values diff) x).
Qed.

Lemma loop_step_skip fuel this_rt rest o other cur_start cur_end diff :
  loop_works fuel -> at_range this_rt rest (o :: other) cur_start cur_end -> rl_ok diff ->
  (length rest + length (o :: other) < S fuel)%nat -> place_lt (bound_place cur_start) (hi o) = false ->
  exists diff', difference_loop types fuel (this_rt :: rest) other cur_start cur_end diff = Ret diff' /\ rl_ok diff' /\
  forall x, covering (rl_values diff') x = omax (covering (rl_values diff) x)
    (newer_only (left_over this_rt rest (bound_place cur_start) (bound_place cur_end) x) (covering (o :: other) x)).
Proof using Htypes.
  intros Hloop [Hs He Hlt Hrest Hother] Hd Hfuel Hskip. destruct Hother as (Ho & _ & Hother). simpl in Hfuel.
  destruct (Hloop this_rt rest other cur_start cur_end diff) as (diff' & -> & Hd' & Hcov);
    [split; try done; by apply canonical_none in Hother|done|lia|].
  exists diff'. split; [done|]. split; [done|]. intros x. rewrite Hcov. f_equal. cbn [RangeTombstonesTheory.covering].
  destruct (covers types o x) eqn:Hx; [|done]. unfold covers, between in Hx. apply andb_true_iff in Hx as [_ Hx].
  unfold left_over, between. assert (place_lt x (bound_place cur_start) = true) as -> by (places [x; hi o; bound_place cur_start]).
  rewrite (covering_before types _ _ _ _ Hrest) by (places [x; hi o; bound_place cur_start; bound_place cur_end]).
  by destruct (covering other x).
Qed.

Lemma loop_step_keep fuel this_rt rest other cur_start cur_end diff :
  loop_works fuel -> at_range this_rt rest other cur_start cur_end -> rl_ok diff ->
  (length rest + length other < S fuel)%nat ->
  match other with o :: _ => place_lt (lo o) (bound_place cur_end) = false | [] => True end ->
  exists diff', (diff ← rl_apply_bounds types diff cur_start cur_end (rt_tomb this_rt);
    match rest with
    | [] => difference_loop types fuel [] other cur_start cur_end diff
    | rt :: _ => difference_loop types fuel rest other (start_bound rt) (end_bound rt) diff
    end) = Ret diff' /\ rl_ok diff' /\
  forall x, covering (rl_values diff') x = omax (covering (rl_values diff) x)
    (newer_only (left_over this_rt rest (bound_place cur_start) (bound_place cur_end) x) (covering other x)).
Proof using Htypes.
  intros Hloop [[Hs Hsl] [He Hel] Hlt Hrest Hother] Hd Hfuel Hgap.
  destruct (apply_bounds_spec diff cur_start cur_end (rt_tomb this_rt)) as (diff1 & -> & Hd1 & Hcov1); [done..|]. cbn [mbind outcome_bind].
  destruct (advance_spec fuel rest other (bound_place cur_end) (rt_tomb this_rt) cur_start cur_end diff1) as (diff' & -> & Hd' & Hcov);
    [done..|lia|].
  exists diff'. split; [done|]. split; [done|]. intros x. rewrite Hcov, Hcov1.
  rewrite <- (merge_assoc (ok := fun _ => True) (eqv := eq)) by done. f_equal. unfold left_over.
  destruct (between types (bound_place cur_start) (bound_place cur_end) x) eqn:Hx; [|done].
  apply andb_true_iff in Hx as [_ Hx]. rewrite (covering_before types _ _ _ _ Hrest Hx).
  assert (covering other x = None) as ->; [|done]. destruct other as [|o other]; [done|]. destruct Hother as ([_ Ho] & _ & Hother).
  cbn [RangeTombstonesTheory.covering]. unfold covers, between.
  assert (place_lt x (lo o) = true) as -> by (places [x; lo o; bound_place cur_end]). simpl.
  apply (covering_before types _ _ _ _ Hother). places [x; lo o; hi o; bound_place cur_end].
Qed.

(** The parts of a range tombstone [this_rt] from [cs] to [ce] and of [o] at a place where they
    overlap: what was kept, and what is still to come. *)
Definition kept (this_rt o : range_tombstone) (cs cs1 e x : place) : option tombstone :=
  omax (if between types cs (lo o) x then Some (rt_tomb this_rt) else None)
    (if tombstone_less (rt_tomb o) (rt_tomb this_rt) && between types cs1 e x then Some (rt_tomb this_rt) else None).

Lemma kept_this_first this_rt rest o other cs cs1 ce x :
  canonical (Some (ce, rt_tomb this_rt)) rest -> rt_ok types o -> canonical (Some (hi o, rt_tomb o)) other ->
  place_lt cs ce = true -> place_lt (lo o) ce = true -> cs1 = (if place_lt cs (lo o) then lo o else cs) -> place_lt ce (hi o) = true ->
  omax (kept this_rt o cs cs1 ce x) (newer_only (covering rest x) (covering (o :: other) x)) =
  newer_only (left_over this_rt rest cs ce x) (covering (o :: other) x).
Proof using Htypes.
  intros Hrest [_ Ho] Hother Hlt Hlo -> Hhi. unfold kept, left_over. cbn [RangeTombstonesTheory.covering].
  destruct (place_lt x ce) eqn:Hx.
  - rewrite (covering_before types _ _ _ _ Hrest Hx).
    rewrite (covering_before types _ _ _ _ Hother) by (places [x; ce; hi o]).
    unfold newer_only, covers, between. destruct (tombstone_less (rt_tomb o) (rt_tomb this_rt)) eqn:Hnew;
      places [x; cs; ce; lo o; hi o]; by rewrite Hnew.
  - assert (forall s, between types s ce x = false) as Hout by (intros; unfold between; rewrite Hx; apply andb_false_r).
    rewrite !Hout, andb_false_r.
    assert (between types cs (lo o) x = false) as -> by (unfold between; places [x; cs; ce; lo o]). done.
Qed.

Lemma kept_other_first this_rt rest o other cs cs1 ce x :
  canonical (Some (ce, rt_tomb this_rt)) rest -> rt_ok types o -> canonical (Some (hi o, rt_tomb o)) other ->
  place_lt cs ce = true -> place_lt (lo o) ce = true -> place_lt cs (hi o) = true ->
  cs1 = (if place_lt cs (lo o) then lo o else cs) -> place_lt ce (hi o) = false ->
  omax (kept this_rt o cs cs1 (hi o) x) (newer_only (left_over this_rt rest (hi o) ce x) (covering other x)) =
  newer_only (left_over this_rt rest cs ce x) (covering (o :: other) x).
Proof using Htypes.
  intros Hrest [_ Ho] Hother Hlt Hlo Hcs -> Hhi. unfold kept, left_over. cbn [RangeTombstonesTheory.covering].
  destruct (place_lt x (hi o)) eqn:Hx.
  - rewrite (covering_before types _ _ _ _ Hother Hx).
    rewrite (covering_before types _ _ _ _ Hrest) by (places [x; ce; hi o]).
    unfold newer_only, covers, between. destruct (tombstone_less (rt_tomb o) (rt_tomb this_rt)) eqn:Hnew;
      places [x; cs; ce; lo o; hi o]; by rewrite Hnew.
  - assert (forall s, between types s (hi o) x = false) as Hout by (intros; unfold between; rewrite Hx; apply andb_false_r).
    unfold covers. rewrite !Hout, andb_false_r.
    assert (between types cs (lo o) x = false) as -> by (unfold between; places [x; cs; hi o; lo o]). simpl.
    assert (between types cs ce x = between types (hi o) ce x) as ->; [|done].
    unfold between. places [x; cs; ce; hi o].
Qed.

Lemma loop_step_overlap fuel this_rt rest o other cur_start cur_end diff cur_start1 diff1 :
  loop_works fuel -> at_range this_rt rest (o :: other) cur_start cur_end ->
  (length rest + length (o :: other) < S fuel)%nat ->
  place_lt (bound_place cur_start) (hi o) = true -> place_lt (lo o) (bound_place cur_end) = true ->
  rl_ok diff1 -> is_start_kind (bv_kind cur_start1) = true -> (length (bv_prefix cur_start1) <= length types)%nat ->
  bound_place cur_start1 = (if place_lt (bound_place cur_start) (lo o) then lo o else bound_place cur_start) ->
  (forall x, covering (rl_values diff1) x =
    omax (covering (rl_values diff) x) (if between types (bound_place cur_start) (lo o) x then Some (rt_tomb this_rt) else None)) ->
  let newer := tombstone_less (rt_tomb o) (rt_tomb this_rt) in
  exists diff', (if bound_less types cur_end (end_bound o) then
      diff ← (if newer then rl_apply_bounds types diff1 cur_start1 cur_end (rt_tomb this_rt) else Ret diff1);
      match rest with
      | [] => difference_loop types fuel [] (o :: other) cur_start cur_end diff
      | rt :: _ => difference_loop types fuel rest (o :: other) (start_bound rt) (end_bound rt) diff
      end
    else
      let end_ := end_bound o in
      diff ← (if newer then rl_apply_bounds types diff1 cur_start1 end_ (rt_tomb this_rt) else Ret diff1);
      let cur_start2 := BoundView (bv_prefix end_) (invert_kind (bv_kind end_)) in
      if bound_less types cur_end cur_start2 then
        match rest with
        | [] => difference_loop types fuel [] other cur_start2 cur_end diff
        | rt :: _ => difference_loop types fuel rest other (start_bound rt) (end_bound rt) diff
        end
      else difference_loop types fuel (this_rt :: rest) other cur_start2 cur_end diff) = Ret diff' /\ rl_ok diff' /\
  forall x, covering (rl_values diff') x = omax (covering (rl_values diff) x)
    (newer_only (left_over this_rt rest (bound_place cur_start) (bound_place cur_end) x) (covering (o :: other) x)).
Proof using Htypes.
  intros Hloop [[Hs Hsl] [He Hel] Hlt Hrest Hother] Hfuel Hcs Hlo Hd1 Hs1 Hsl1 Hp1 Hcov1 newer.
  destruct Hother as (Ho & _ & Hother). pose proof (proj1 Ho) as (_ & Hoe & _ & Hoel). simpl in Hfuel.
  assert (canonical None (o :: other)) as Hother0 by (by split_and!).
  rewrite bound_less_ee by done. change (bound_place (end_bound o)) with (hi o). destruct (place_lt (bound_place cur_end) (hi o)) eqn:Hend.
  - destruct (keep_if_newer newer diff1 cur_start1 cur_end (rt_tomb this_rt)) as (diff2 & -> & Hd2 & Hcov2); [done..|]. cbn [mbind outcome_bind].
    destruct (advance_spec fuel rest (o :: other) (bound_place cur_end) (rt_tomb this_rt) cur_start cur_end diff2) as (diff' & -> & Hd' & Hcov);
      [done..|simpl; lia|].
    exists diff'. split; [done|]. split; [done|]. intros x. rewrite Hcov, Hcov2, Hcov1.
    rewrite <- !(merge_assoc (ok := fun _ => True) (eqv := eq)) by done. f_equal.
    rewrite (merge_assoc (ok := fun _ => True) (eqv := eq)) by done. by apply kept_this_first.
  - cbv zeta. destruct (keep_if_newer newer diff1 cur_start1 (end_bound o) (rt_tomb this_rt)) as (diff2 & -> & Hd2 & Hcov2); [done..|].
    cbn [mbind outcome_bind]. destruct (invert_place (rt_end o) (rt_end_kind o)) as [Hip Hik]. set (cs2 := BoundView _ _).
    assert (is_start_kind (bv_kind cs2) = true) as Hs2 by (simpl; by rewrite Hik, Hoe).
    assert (bound_place cs2 = hi o) as Hp2 by exact Hip. rewrite end_start_less, Hp2 by done.
    assert (forall x, covering (rl_values diff2) x = omax (covering (rl_values diff) x)
      (kept this_rt o (bound_place cur_start) (bound_place cur_start1) (hi o) x)) as Hkept.
    { intros x. rewrite Hcov2, Hcov1, <- (merge_assoc (ok := fun _ => True) (eqv := eq)) by done. done. }
    destruct (place_lt (hi o) (bound_place cur_end)) eqn:Hmore; cbn [negb].
    + destruct (Hloop this_rt rest other cs2 cur_end diff2) as (diff' & -> & Hd' & Hcov); [|done|lia|].
      { split; try done; [by rewrite Hp2|by apply canonical_none in Hother]. }
      exists diff'. split; [done|]. split; [done|]. intros x. rewrite Hcov, Hkept, Hp2.
      rewrite <- (merge_assoc (ok := fun _ => True) (eqv := eq)) by done. f_equal. by apply kept_other_first.
    + destruct (advance_spec fuel rest other (bound_place cur_end) (rt_tomb this_rt) cs2 cur_end diff2) as (diff' & -> & Hd' & Hcov);
        [done|done|by apply canonical_none in Hother|done|lia|].
      exists diff'. split; [done|]. split; [done|]. intros x. rewrite Hcov, Hkept.
      rewrite <- (merge_assoc (ok := fun _ => True) (eqv := eq)) by done. f_equal.
      rewrite <- (kept_other_first this_rt rest o other (bound_place cur_start) (bound_place cur_start1) (bound_place cur_end)) by done.
      f_equal. f_equal. unfold left_over, between.
      assert (negb (place_lt x (hi o)) && place_lt x (bound_place cur_end) = false) as ->; [|done]. places [x; hi o; bound_place cur_end].
Qed.

Lemma difference_loop_spec fuel : loop_works fuel.
Proof using Htypes.
  induction fuel as [|fuel IH]; intros this_rt rest other cur_start cur_end diff Hat Hd Hfuel; [lia|].
  pose proof Hat as [[Hs Hsl] [He Hel] Hlt Hrest Hother]. cbn [difference_loop]. destruct other as [|o other].
  { by apply (loop_step_keep fuel this_rt rest [] cur_start cur_end diff IH Hat Hd). }
  pose proof Hother as (Ho & _ & _). pose proof (proj1 Ho) as (Hos & Hoe & _).
  rewrite !end_start_less by done. change (bound_place (start_bound o)) with (lo o). change (bound_place (end_bound o)) with (hi o).
  destruct (place_lt (lo o) (bound_place cur_end)) eqn:Hlo; cbn [negb].
  2: { by apply (loop_step_keep fuel this_rt rest (o :: other) cur_start cur_end diff IH Hat Hd). }
  destruct (place_lt (bound_place cur_start) (hi o)) eqn:Hhi; cbn [negb].
  2: { by apply loop_step_skip. }
  destruct (front_spec o cur_start diff (rt_tomb this_rt)) as (cs1 & diff1 & Heq & Hd1 & Hs1 & Hsl1 & Hp1 & Hcov1); [done..|].
  cbv zeta in Heq. rewrite Heq. cbn [mbind outcome_bind].
  by apply (loop_step_overlap fuel this_rt rest o other cur_start cur_end diff cs1 diff1).
Qed.

Lemma difference_spec this other :
  canonical None this -> canonical None other ->
  exists diff, difference types this other = Ret diff /\ rl_ok diff /\
  forall x, covering (rl_values diff) x = newer_only (covering this x) (covering other x).
Proof using Htypes.
  intros Hthis Hother. assert (rl_ok make_range_tombstone_list) as Hnew by (by repeat constructor).
  unfold difference. destruct this as [|rt rest].
    - exists make_range_tombstone_list. split; [done|]. split; [done|]. intros x. by destruct (covering other x).
    - destruct Hthis as (Hok & _ & Hrest). pose proof (proj1 Hok) as (Hs & He & Hsl & Hel).
      destruct (difference_loop_spec (length (rt :: rest) + length other) rt rest other (start_bound rt) (end_bound rt)
        make_range_tombstone_list) as (diff & -> & Hd & Hcov); [by destruct Hok|done|simpl; lia|].
      exists diff. split; [done|]. split; [done|]. intros x. rewrite Hcov. done.
Qed.

(** The difference of two lists returns a canonical list that has the tombstones of the first
    where they are newer than those of the second and nothing else; so applying it to the second
    list is as good as applying all of the first. *)
Theorem difference_correct this other :
  canonical None this -> canonical None other ->
  exists diff, difference types this other = Ret diff /\ rl_ok diff /\
  (forall x, covering (rl_values diff) x = newer_only (covering this x) (covering other x)) /\
  (forall x, omax (covering other x) (covering (rl_values diff) x) = omax (covering other x) (covering this x)).
Proof using Htypes.
  intros Hthis Hother. destruct (difference_spec this other Hthis Hother) as (diff & Heq & Hd & Hcov).
  exists diff. split; [done|]. split; [done|]. split; [done|]. intros x. rewrite Hcov. unfold newer_only.
  destruct (covering this x) as [t|], (covering other x) as [u|]; simpl; try done.
  unfold tombstone_apply. destruct (tombstone_less u t) eqn:Hut; simpl; by rewrite ?Hut.
Qed.

(** * Every list the operations can make *)

Lemma canonical_filter (f : range_tombstone -> bool) p (es : list (entry V)) :
  canonical p es.*2 -> canonical p (filter (fun e => f e.2 = false) es).*2.
Proof using Htypes.
  revert p. induction es as [|e es IH]; intros p; [done|]. cbn [canonical fmap list_fmap]. intros (Hok & Hf & Hes).
  rewrite filter_cons. destruct (decide (f e.2 = false)) as [_|_].
  - cbn [canonical fmap list_fmap]. split; [done|]. split; [done|]. by apply IH.
  - apply IH. by apply (canonical_skip types p e.2).
Qed.

Lemma erase_where_spec f l : rl_ok l -> rl_ok (erase_where f l).
Proof using Htypes.
  intros (Hl & Hnd & Hlt). split; [by apply (canonical_filter f None)|]. simpl. split.
  - eapply sublist_NoDup; [exact Hnd|]. apply fmap_sublist, sublist_filter.
  - rewrite Forall_forall in *. intros id Hid. apply Hlt. rewrite list_elem_of_fmap in *.
    destruct Hid as (e & -> & He). apply list_elem_of_filter in He as [_ He]. by exists e.
Qed.

Lemma pop_front_spec l :
  rl_ok l -> rl_tombstones l <> [] ->
  exists rt l', pop_front_and_lock l = Ret (rt, l') /\ rl_ok l' /\ rl_values l = rt :: rl_values l'.
Proof using.
  intros (Hl & Hnd & Hlt) Hne. unfold pop_front_and_lock, rl_values in *. destruct (rl_tombstones l) as [|e es]; [done|].
  eexists _, _. split; [done|]. split; [|done]. cbn [fmap list_fmap canonical] in *. split.
  - destruct Hl as (_ & _ & Hl). by apply canonical_none in Hl.
  - apply NoDup_cons in Hnd as [_ ?]. by apply Forall_cons in Hlt as [_ ?].
Qed.

(** Addresses are not used again. *)
Lemma insert_loop_next recording after ed s e t ed' after' :
  insert_loop types recording after ed s e t = Ret (ed', after') -> (ed_next ed <= ed_next ed')%N.
Proof using.
  revert ed s e. induction after as [|it rest IH]; intros ed s e; cbn [insert_loop].
  { destruct (rt_of_positions s e t); intros ?; simplify_eq/=. lia. }
  cbv zeta. destruct (negb _); [by intros [= <- _]|]. destruct (bool_decide (_ = Lt)).
  { destruct (_ && _); destruct (rt_of_positions s e t); intros ?; simplify_eq/=; lia. }
  destruct (tombstone_compare _ _).
  - intros Hl. apply IH in Hl. exact Hl.
  - destruct (_ && _); [destruct (rt_of_positions s e t); intros ?; simplify_eq/=; lia|].
    destruct (position_less types s (rt_position it.2)); [destruct (rt_of_positions s (rt_position it.2) t); [|done..]|];
      cbn [mbind outcome_bind]; (destruct (position_less types (rt_end_position it.2) e);
        [intros Hl; apply IH in Hl; simpl in Hl; lia|intros ?; simplify_eq/=; lia]).
  - destruct (position_less types (rt_position it.2) s).
    + destruct (rt_of_positions (rt_position it.2) s (rt_tomb it.2)) as [lft| |], (rt_of_positions s (rt_end_position it.2) (rt_tomb it.2)) as [rgt| |];
        cbn [mbind outcome_bind rev_update fst snd]; try done.
      destruct (position_less types e (rt_end_position rgt)); [|intros Hl; apply IH in Hl; simpl in Hl; lia].
      destruct (rt_of_positions s e t), (rt_of_positions e (rt_end_position rgt) (rt_tomb rgt)); intros ?; simplify_eq/=; lia.
    + cbn [mbind outcome_bind]. destruct (position_less types e (rt_end_position it.2)); [|intros Hl; apply IH in Hl; exact Hl].
      destruct (rt_of_positions s e t), (rt_of_positions e (rt_end_position it.2) (rt_tomb it.2)); intros ?; simplify_eq/=; lia.
Qed.

Lemma apply_recorded_next recording l ops rt l' ops' :
  apply_recorded types recording l ops rt = Ret (l', ops') -> (rl_next l <= rl_next l')%N.
Proof using.
  unfold apply_recorded. destruct (negb _); [by intros [= <- _]|]. destruct (last (rl_tombstones l)) as [la|].
  - destruct (if position_less types (rt_position rt) (rt_end_position la.2) then _ else _) as [b a].
    destruct (insert_from _ _ _ _ _ _ _) as [[ed a']| |] eqn:Hins; intros ?; simplify_eq/=.
    unfold insert_from in Hins. cbn [ed_before] in Hins. repeat case_match; by apply insert_loop_next in Hins.
  - destruct (rt_of_positions _ _ _); intros ?; simplify_eq/=. lia.
Qed.

Lemma apply_all_recorded_next recording rts l ops l' ops' :
  apply_all_recorded types recording l ops rts = Ret (l', ops') -> (rl_next l <= rl_next l')%N.
Proof using.
  revert l ops. induction rts as [|rt rts IH]; intros l ops; cbn [apply_all_recorded]; [by intros [= <- _]|].
  destruct (apply_recorded types recording l ops rt) as [[l1 ops1]| |] eqn:Heq; [|done..]. intros Hrest.
  apply apply_recorded_next in Heq. apply IH in Hrest. lia.
Qed.

(** What the rest of the program does to a list: [lo_try] applies reversibly and reverts. *)
Inductive list_operation : Type :=
| lo_apply (rt : range_tombstone)
| lo_apply_monotonically (rt : range_tombstone)
| lo_apply_list (rts : list range_tombstone)
| lo_try (rts : list range_tombstone)
| lo_trim (ranges : list (clustering_range V))
| lo_difference (other : range_tombstone_list V)
| lo_erase_where (f : range_tombstone -> bool)
| lo_pop_front.

Definition perform_operation (l : range_tombstone_list V) (op : list_operation) : outcome Empty_set (range_tombstone_list V) :=
  match op with
  | lo_apply rt => rl_apply types l rt
  | lo_apply_monotonically rt => rl_apply_monotonically types l rt
  | lo_apply_list rts => rl_apply_all types l rts
  | lo_try rts => '(l, ops) ← rl_apply_reversibly types l rts; revert types ops l
  | lo_trim ranges => rl_trim types (rl_values l) ranges
  | lo_difference other => difference types (rl_values l) (rl_values other)
  | lo_erase_where f => Ret (erase_where f l)
  | lo_pop_front => if bool_decide (rl_tombstones l = []) then Ret l else '(_, l) ← pop_front_and_lock l; Ret l
  end.

Fixpoint perform_all (l : range_tombstone_list V) (ops : list list_operation) : outcome Empty_set (range_tombstone_list V) :=
  match ops with
  | [] => Ret l
  | op :: ops => l ← perform_operation l op; perform_all l ops
  end.

Definition operation_ok (op : list_operation) : Prop :=
  match op with
  | lo_apply rt | lo_apply_monotonically rt => rt_wf rt
  | lo_apply_list rts | lo_try rts => Forall rt_wf rts
  | lo_trim ranges => Forall range_ok ranges
  | lo_difference other => rl_ok other
  | lo_erase_where _ | lo_pop_front => True
  end.

Lemma perform_operation_ok l op : rl_ok l -> operation_ok op -> exists l', perform_operation l op = Ret l' /\ rl_ok l'.
Proof using Htypes.
  intros Hl Hop. destruct op as [rt|rt|rts|rts|ranges|other|f|]; simpl in Hop |- *.
  - destruct (rl_apply_spec l rt Hl Hop) as (l' & ? & ? & _). by exists l'.
  - destruct (rl_apply_monotonically_spec l rt Hl Hop) as (l' & ? & ? & _). by exists l'.
  - destruct (rl_apply_all_spec rts l Hl Hop) as (l' & ? & ? & _). by exists l'.
  - destruct (apply_all_recorded_spec rts l [] Hl Hop) as (l' & ops & Heq & Hl' & Hed & _).
    unfold rl_apply_reversibly. rewrite Heq. cbn [mbind outcome_bind app]. unfold revert. rewrite (undo_edits types _ _ _ Hed).
    eexists. split; [done|]. split; [apply Hl|]. destruct Hl as [_ [Hnd Hlt]]. split; [exact Hnd|]. simpl.
    eapply Forall_impl; [exact Hlt|]. intros id Hid. apply apply_all_recorded_next in Heq. simpl in Hid |- *. lia.
  - destruct (trim_spec (rl_values l) ranges) as (l' & ? & ? & _); [apply Hl|done|]. by exists l'.
  - destruct (difference_spec (rl_values l) (rl_values other)) as (l' & ? & ? & _); [apply Hl|apply Hop|]. by exists l'.
  - eexists. split; [done|]. by apply erase_where_spec.
  - case_bool_decide as Hne; [by exists l|]. destruct (pop_front_spec l Hl Hne) as (rt & l' & -> & ? & _). by exists l'.
Qed.

Lemma canonical_disjoint p l i j a b x :
  canonical p l -> l !! i = Some a -> l !! j = Some b -> covers types a x = true -> covers types b x = true -> i = j.
Proof using Htypes.
  revert p i j. induction l as [|rt l IH]; intros p i j Hl Ha Hb Hca Hcb; [done|]. destruct Hl as (Hok & _ & Hl).
  assert (forall n c, l !! n = Some c -> covers types c x = true -> covers types rt x = false) as Hrest.
  { intros n c Hn Hc. destruct (covers types rt x) eqn:Hrt; [|done]. exfalso.
    assert (covering l x = None) as Hnone.
    { apply (covering_before types (hi rt) (rt_tomb rt)); [done|]. unfold covers, between in Hrt. by apply andb_true_iff in Hrt as [_ ?]. }
    clear - Hn Hc Hnone. revert n Hn. induction l as [|r l IH]; intros [|n] Hn; simplify_eq/=; [by rewrite Hc in Hnone|].
    destruct (covers types r x); [done|]. by eapply IH. }
  destruct i as [|i], j as [|j]; simplify_eq/=; [done|..].
  - by rewrite (Hrest j b) in Hca.
  - by rewrite (Hrest i a) in Hcb.
  - f_equal. by eapply (IH _ i j Hl).
Qed.


(** * Single range tombstones *)

(** The newer of two range tombstones with the same start, and what it leaves of the other. *)
Lemma rt_apply_newer a b :
  rt_ok types a -> rt_ok types b -> cmp (lo a) (lo b) = Eq -> tombstone_compare (rt_tomb a) (rt_tomb b) = Gt ->
  let '(this', rest) := if bound_less types (end_bound a) (end_bound b)
    then (a, Some (RangeTombstone (rt_end a) (invert_kind (rt_end_kind a)) (rt_end b) (rt_end_kind b) (rt_tomb b))) else (a, None) in
  this' = a /\ (forall r, rest = Some r -> rt_ok types r /\ lo r = hi a) /\
  forall x, omax (contribution x a) (rest ≫= contribution x) = omax (contribution x a) (contribution x b).
Proof using Htypes.
  intros [Ha Hla] [Hb Hlb] Hlo Ht. pose proof (tombstone_apply_less _ _ Ht) as Hm. rewrite tombstone_apply_comm in Hm.
  rewrite end_less_place by done. destruct (invert_place (rt_end a) (rt_end_kind a)) as [Hp Hk].
  destruct (place_lt (hi a) (hi b)) eqn:Hhi; (split; [done|]); (split; [|intros x; simpl; unfold contribution]).
  - intros r [= <-]. split; [|exact Hp]. split; [split_and!; simpl; [rewrite Hk; by destruct Ha as (_ & -> & _)|apply Hb|apply Ha|apply Hb]|].
    change (place_lt (bound_place (BoundView (rt_end a) (invert_kind (rt_end_kind a)))) (hi b) = true). rewrite Hp. exact Hhi.
  - set (r := RangeTombstone _ _ _ _ _). assert (lo r = hi a) as Hr by exact Hp. change (rt_tomb r) with (rt_tomb b).
    unfold covers, between. rewrite Hr. change (hi r) with (hi b). places [x; lo a; lo b; hi a; hi b]; by rewrite ?Hm.
  - done.
  - unfold covers, between. places [x; lo a; lo b; hi a; hi b]; by rewrite ?Hm.
Qed.

(** Applying one range tombstone to another with the same start: the two results together give
    every place the newer tombstone, and do not overlap. *)
Lemma rt_apply_spec this src :
  rt_ok types this -> rt_ok types src -> cmp (lo this) (lo src) = Eq ->
  let '(this', rest) := rt_apply types this src in
  rt_ok types this' /\ cmp (lo this') (lo this) = Eq /\
  (forall r, rest = Some r -> rt_ok types r /\ lo r = hi this') /\
  forall x, omax (contribution x this') (rest ≫= contribution x) = omax (contribution x this) (contribution x src).
Proof using Htypes.
  intros Hok Hok' Hlo. unfold rt_apply. destruct (decide (rt_tomb this = rt_tomb src)) as [Ht|Ht].
  - destruct Hok as [Hwf Hlt], Hok' as [Hwf' Hlt']. rewrite end_less_place by done. unfold contribution. rewrite <- Ht.
    destruct (place_lt (hi this) (hi src)) eqn:Hhi.
    + set (m := RangeTombstone _ _ _ _ _). split; [|split; [apply (cmp_refl cmp)|split; [done|]]].
      * split; [split_and!; apply Hwf || apply Hwf'|]. change (lo m) with (lo this). change (hi m) with (hi src).
        places [lo this; hi this; hi src].
      * intros x. unfold covers, between. change (lo m) with (lo this). change (hi m) with (hi src). simpl.
        places [x; lo this; lo src; hi this; hi src]; by rewrite ?tombstone_apply_idem.
    + split; [done|]. split; [apply (cmp_refl cmp)|]. split; [done|]. intros x. unfold covers, between. simpl.
      places [x; lo this; lo src; hi this; hi src]; by rewrite ?tombstone_apply_idem.
  - destruct (tombstone_less (rt_tomb this) (rt_tomb src)) eqn:Hnew.
    + apply tombstone_less_spec, (cmp_gt_lt tombstone_compare) in Hnew.
      pose proof (rt_apply_newer src this Hok' Hok ltac:(places [lo this; lo src]) Hnew) as Hab.
      destruct (if bound_less _ _ _ then _ else _) as [this' rest]. destruct Hab as (-> & Hrest & Hcov).
      split; [done|]. split; [places [lo this; lo src]|]. split; [done|]. intros x. rewrite Hcov.
      apply (merge_comm (ok := fun _ => True) (eqv := eq)); done.
    + assert (tombstone_compare (rt_tomb this) (rt_tomb src) = Gt) as Hgt.
      { unfold tombstone_less in Hnew. apply bool_decide_eq_false in Hnew.
        destruct (tombstone_compare (rt_tomb this) (rt_tomb src)) eqn:Hc; [|done|done]. by apply tombstone_compare_eq in Hc. }
      pose proof (rt_apply_newer this src Hok Hok' Hlo Hgt) as Hab.
      destruct (if bound_less _ _ _ then _ else _) as [this' rest]. destruct Hab as (-> & Hrest & Hcov).
      split; [done|]. split; [apply (cmp_refl cmp)|]. by split.
Qed.

(** Trimming to a range of positions: whether anything is left, and what. *)
Lemma rt_trim_spec rt start end_ :
  rt_ok types rt -> bound_position types start -> bound_position types end_ ->
  place_lt (position_place end_) (position_place start) = false ->
  exists b rt', rt_trim (E := Empty_set) types rt start end_ = Ret (b, rt') /\
  b = place_lt (position_place start) (hi rt) && place_lt (lo rt) (position_place end_) /\
  if b : bool then rt_wf rt' /\ rt_tomb rt' = rt_tomb rt /\
    forall x, covers types rt' x = covers types rt x && between types (position_place start) (position_place end_) x
  else rt' = rt.
Proof using Htypes.
  intros [Hwf Hlt] Hs He Hse. destruct (rt_positions types rt Hwf) as [Hps Hpe]. unfold rt_trim. rewrite !(less_position types) by done.
  change (position_place (rt_position rt)) with (lo rt). change (position_place (rt_end_position rt)) with (hi rt).
  destruct (place_lt (position_place start) (hi rt)) eqn:H1; [|by exists false, rt]. cbn [negb].
  destruct (place_lt (lo rt) (position_place end_)) eqn:H2; [|by exists false, rt]. cbn [negb andb].
  assert (exists rt1, (if place_lt (lo rt) (position_place start) then set_start (E := Empty_set) rt start else Ret rt) = Ret rt1 /\
    rt_wf rt1 /\ rt_tomb rt1 = rt_tomb rt /\ hi rt1 = hi rt /\
    lo rt1 = if place_lt (lo rt) (position_place start) then position_place start else lo rt) as (rt1 & -> & Hwf1 & Ht1 & Hhi1 & Hlo1).
  { destruct (place_lt (lo rt) (position_place start)); [|by exists rt]. destruct Hs as (sk & _ & Hsw & Hsk & Hsl).
    unfold set_start, as_start_bound_view, position_place. rewrite Hsk, bool_decide_eq_false_2 by done. simpl. eexists. split; [done|].
    destruct Hwf as (? & ? & ? & ?). unfold lo, bound_place, start_bound. simpl. by destruct (p_weight start). }
  cbn [mbind outcome_bind]. destruct (rt_positions types rt1 Hwf1) as [_ Hpe1]. rewrite (less_position types) by done.
  change (position_place (rt_end_position rt1)) with (hi rt1). rewrite Hhi1.
  assert (exists rt2, (if place_lt (position_place end_) (hi rt) then set_end (E := Empty_set) rt1 end_ else Ret rt1) = Ret rt2 /\
    rt_wf rt2 /\ rt_tomb rt2 = rt_tomb rt1 /\ lo rt2 = lo rt1 /\
    hi rt2 = if place_lt (position_place end_) (hi rt) then position_place end_ else hi rt) as (rt2 & -> & Hwf2 & Ht2 & Hlo2 & Hhi2).
  { destruct (place_lt (position_place end_) (hi rt)); [|by exists rt1]. destruct He as (ek & _ & Hew & Hek & Hel).
    unfold set_end, as_end_bound_view, position_place. rewrite Hek, bool_decide_eq_false_2 by done. simpl. eexists. split; [done|].
    destruct Hwf1 as (? & ? & ? & ?). unfold hi, bound_place, end_bound. simpl. by destruct (p_weight end_). }
  exists true, rt2. split; [done|]. split; [done|]. split; [done|]. split; [congruence|]. intros x. unfold covers, between.
  rewrite Hlo2, Hlo1, Hhi2. places [x; lo rt; hi rt; position_place start; position_place end_].
Qed.

(** * The accumulator *)

(** What a reader passes: range tombstones where they begin, and rows. *)
Inductive fragment :=
| range_fragment (rt : range_tombstone)
| row_fragment (ck : list V).

Definition fragment_place (f : fragment) : place :=
  match f with range_fragment rt => lo rt | row_fragment ck => key_place ck end.

(** The tombstone the accumulator gives for each row. *)
Fixpoint read (ac : range_tombstone_accumulator V) (fs : list fragment) : list tombstone :=
  match fs with
  | [] => []
  | range_fragment rt :: fs => read (accumulator_apply types ac rt) fs
  | row_fragment ck :: fs => let '(t, ac) := tombstone_for_row types ac ck in t :: read ac fs
  end.

(** The newest of a tombstone and those of some range tombstones. *)
Definition newest (t : tombstone) (rts : list range_tombstone) : tombstone := fold_left (fun t rt => tombstone_apply t (rt_tomb rt)) rts t.

(** The tombstone of each row: the newest of the partition's and of all ranges that cover it. *)
Fixpoint expected (partition : tombstone) (seen : list range_tombstone) (fs : list fragment) : list tombstone :=
  match fs with
  | [] => []
  | range_fragment rt :: fs => expected partition (rt :: seen) fs
  | row_fragment ck :: fs =>
    newest partition (filter (fun rt => covers types rt (key_place ck) = true) seen) :: expected partition seen fs
  end.

(** Fragments come in increasing order. *)
Fixpoint increasing (p : place) (fs : list fragment) : Prop :=
  match fs with
  | [] => True
  | f :: fs =>
    match f with range_fragment rt => rt_ok types rt | row_fragment _ => True end /\
    place_lt p (fragment_place f) = true /\ increasing (fragment_place f) fs
  end.

Lemma newest_fmap t rts : newest t rts = fold_left tombstone_apply (rt_tomb <$> rts) t.
Proof using. unfold newest. revert t. induction rts as [|rt rts IH]; intros t; simpl; [done|]. apply IH. Qed.

(** The newest tombstone only depends on which there are. *)
Lemma newest_same t rts rts' : (forall rt, rt ∈ rts <-> rt ∈ rts') -> newest t rts = newest t rts'.
Proof using.
  intros Hsame. rewrite !newest_fmap.
  assert (Mergeable (fun _ => True) eq tombstone_apply) as Hm.
  { split; try done; try congruence; [apply _|intros; apply tombstone_apply_comm|intros; apply tombstone_apply_assoc|
      intros; apply tombstone_apply_idem]. }
  apply (merge_all_converges (fun _ => True) eq tombstone_apply); [done|by apply Forall_true..|].
  intros o. rewrite !list_elem_of_fmap. split; intros (rt & -> & Hrt); exists rt; (split; [done|]); by apply Hsame.
Qed.

Lemma newest_snoc t rts rt : newest t (rts ++ [rt]) = tombstone_apply (newest t rts) (rt_tomb rt).
Proof using. unfold newest. by rewrite fold_left_app. Qed.

(** Sorted by end. *)
Fixpoint by_end (rts : list range_tombstone) : Prop :=
  match rts with
  | [] => True
  | rt :: rts => Forall (fun rt' => place_lt (hi rt') (hi rt) = false) rts /\ by_end rts
  end.

(** The state of the accumulator when it has passed the range tombstones [seen] and is at [p]. *)
Record accumulated (ac : range_tombstone_accumulator V) (partition : tombstone) (seen : list range_tombstone) (p : place) : Prop := {
  acc_partition : ac_partition_tombstone ac = partition;
  acc_current : ac_current_tombstone ac = newest partition (ac_range_tombstones ac);
  acc_sorted : by_end (ac_range_tombstones ac);
  acc_ok : Forall (rt_ok types) seen;
  acc_kept rt : rt ∈ ac_range_tombstones ac -> rt ∈ seen;
  acc_dropped rt : rt ∈ seen -> rt ∈ ac_range_tombstones ac \/ place_lt p (hi rt) = false;
  acc_before rt : rt ∈ seen -> place_lt p (lo rt) = false;
}.

Lemma ends_before_row rt ck : ends_before types rt ck 0 = negb (place_lt (key_place ck) (hi rt)).
Proof using Htypes.
  apply eq_true_iff_eq. change (ends_before types rt ck 0) with (bound_key_less types (end_bound rt) ck).
  rewrite bound_key_less_place, negb_true_iff. change (bound_place (end_bound rt)) with (hi rt).
  pose proof (bound_place_not_key types (end_bound rt) ck) as Hne. change (bound_place (end_bound rt)) with (hi rt) in Hne.
  split; intros ?; places [hi rt; key_place ck].
Qed.

Lemma ends_before_start rt new :
  rt_wf rt -> rt_wf new -> ends_before types rt (rt_start new) (weight (rt_start_kind new)) = negb (place_lt (lo new) (hi rt)).
Proof using Htypes.
  intros (_ & He & _) (Hs & _).
  change (ends_before types rt (rt_start new) (weight (rt_start_kind new))) with (bound_less types (end_bound rt) (start_bound new)).
  by rewrite end_start_less.
Qed.

(** Dropping leaves exactly the ranges that end after the place. *)
Lemma drop_ended_spec rts ck w q :
  by_end rts -> (forall rt, rt ∈ rts -> ends_before types rt ck w = negb (place_lt q (hi rt))) ->
  let '(kept, dropped) := drop_ended types rts ck w in
  by_end kept /\ (forall rt, rt ∈ kept <-> rt ∈ rts /\ place_lt q (hi rt) = true) /\ (dropped = false -> kept = rts).
Proof using Htypes.
  induction rts as [|rt rts IH]; cbn [drop_ended by_end]; intros Hsort Hends.
  { split; [done|]. split; [|done]. intros rt. rewrite elem_of_nil. tauto. }
  rewrite Hends by left. destruct (place_lt q (hi rt)) eqn:Hq; cbn [negb].
  - split; [done|]. split; [|done]. intros rt'. split; [|tauto]. intros Hin. split; [done|].
    apply elem_of_cons in Hin as [->|Hin]; [done|]. destruct Hsort as [Hall _]. rewrite Forall_forall in Hall. specialize (Hall _ Hin).
    places [q; hi rt; hi rt'].
  - destruct (drop_ended types rts ck w) as [kept d]. destruct IH as (Hs & Hkept & _); [apply Hsort|intros; apply Hends; by right|]. simpl in *.
    split; [done|]. split; [|done]. intros rt'. rewrite Hkept, elem_of_cons. naive_solver congruence.
Qed.

Lemma drop_unneeded_spec ac partition seen p q ck w :
  accumulated ac partition seen p -> place_lt p q = true ->
  (forall rt, rt ∈ seen -> ends_before types rt ck w = negb (place_lt q (hi rt))) ->
  let ac' := drop_unneeded_tombstones types ac ck w in
  accumulated ac' partition seen q /\ forall rt, rt ∈ ac_range_tombstones ac' <-> rt ∈ seen /\ place_lt q (hi rt) = true.
Proof using Htypes.
  intros [Hpart Hcur Hsort Hok Hkept Hdrop Hbefore] Hpq Hends ac'. unfold ac', drop_unneeded_tombstones.
  pose proof (drop_ended_spec (ac_range_tombstones ac) ck w q Hsort) as Hspec.
  destruct (drop_ended types (ac_range_tombstones ac) ck w) as [kept dropped].
  destruct Hspec as (Hs & Hk & Hd); [intros; by apply Hends, Hkept|].
  assert (forall rt, rt ∈ kept <-> rt ∈ seen /\ place_lt q (hi rt) = true) as Hk'.
  { intros rt. rewrite Hk. split; [intros [? ?]; by split; [apply Hkept|]|]. intros [Hin Hlt]. split; [|done].
    destruct (Hdrop rt Hin) as [?|Hend]; [done|]. exfalso. places [p; q; hi rt]. }
  assert (accumulated (Accumulator (ac_partition_tombstone ac) kept (newest partition kept)) partition seen q) as Hacc.
  { split; simpl; try done.
    - intros rt ?. by apply Hk'.
    - intros rt Hin. destruct (place_lt q (hi rt)) eqn:Hlt; [left; by apply Hk'|by right].
    - intros rt Hin. specialize (Hbefore rt Hin). places [p; q; lo rt]. }
  destruct dropped.
  - unfold update_current_tombstone. simpl. rewrite Hpart in *. done.
  - rewrite (Hd eq_refl) in *. rewrite Hcur. done.
Qed.

Lemma insert_by_end_elem rts rt x : x ∈ insert_by_end types rts rt <-> x = rt \/ x ∈ rts.
Proof using.
  induction rts as [|rt1 rts IH]; simpl; [by rewrite list_elem_of_singleton, elem_of_nil; tauto|].
  destruct (bound_less types (end_bound rt) (end_bound rt1)); rewrite !elem_of_cons; [tauto|]. rewrite IH. tauto.
Qed.

Lemma insert_by_end_sorted rts rt :
  Forall rt_wf rts -> rt_wf rt -> by_end rts -> by_end (insert_by_end types rts rt).
Proof using Htypes.
  intros Hwf Hrt. induction Hwf as [|rt1 rts Hrt1 Hwf IH]; simpl; [done|]. intros [Hall Hs].
  rewrite end_less_place by done. destruct (place_lt (hi rt) (hi rt1)) eqn:Hlt; simpl.
  - split; [|done]. constructor; [places [hi rt; hi rt1]|]. eapply Forall_impl; [exact Hall|]. intros rt' Hrt'. simpl in *.
    places [hi rt; hi rt1; hi rt'].
  - split; [|by apply IH]. apply Forall_forall. intros x [->|Hx]%insert_by_end_elem; [done|]. by rewrite Forall_forall in Hall; apply Hall.
Qed.

(** The accumulator of a reader. Given the fragments of a partition in order, range tombstones
    that may overlap and rows, it gives for every row the newest of the partition tombstone and of
    all range tombstones that cover the row. *)
Theorem accumulator_correct partition fs p :
  increasing p fs -> read (set_partition_tombstone make_accumulator partition) fs = expected partition [] fs.
Proof using Htypes.
  intros Hinc. assert (accumulated (set_partition_tombstone make_accumulator partition) partition [] p) as Hacc.
  { split; simpl; try done; intros rt ?%elem_of_nil; done. }
  revert Hinc Hacc. generalize (set_partition_tombstone (V := V) make_accumulator partition). generalize (@nil range_tombstone).
  revert p. induction fs as [|[rt|ck] fs IH]; intros p seen ac Hinc Hacc; [done|..]; destruct Hinc as (Hrt & Hlt & Hinc); cbn [read expected].
  - apply (IH (lo rt)); [done|]. unfold accumulator_apply.
    destruct (drop_unneeded_spec ac partition seen p (lo rt) (rt_start rt) (weight (rt_start_kind rt)) Hacc Hlt) as [[Hpart Hcur Hsort Hok Hkept Hdrop Hbefore] _].
    { intros rt' Hin. apply ends_before_start; [|apply Hrt]. destruct Hacc as [_ _ _ Hok _ _ _]. rewrite Forall_forall in Hok. by apply Hok. }
    set (ac' := drop_unneeded_tombstones types ac (rt_start rt) (weight (rt_start_kind rt))) in *. split; simpl.
    + done.
    + rewrite Hcur, <- newest_snoc. apply newest_same. intros x. rewrite insert_by_end_elem, elem_of_app, list_elem_of_singleton. tauto.
    + apply insert_by_end_sorted; [|apply Hrt|done]. apply Forall_forall. intros x Hx%Hkept. rewrite Forall_forall in Hok. by apply Hok.
    + by constructor.
    + intros x. rewrite insert_by_end_elem, elem_of_cons. naive_solver.
    + intros x. rewrite insert_by_end_elem, elem_of_cons. intros [->|Hx]; [tauto|]. destruct (Hdrop x Hx); tauto.
    + intros x [->|Hx]%elem_of_cons; [places [lo rt]|by apply Hbefore].
  - unfold tombstone_for_row.
    destruct (drop_unneeded_spec ac partition seen p (key_place ck) ck 0 Hacc Hlt) as [Hacc' Hkept]; [intros; apply ends_before_row|].
    f_equal; [|by apply (IH (key_place ck))]. rewrite (acc_current _ _ _ _ Hacc'). apply newest_same. intros x.
    rewrite Hkept, list_elem_of_filter. unfold covers, between. split.
    + intros [Hx Hq]. split; [|done]. apply andb_true_iff. split; [|done]. apply negb_true_iff.
      apply (acc_before _ _ _ _ Hacc) in Hx. simpl in Hlt. pose proof (bound_place_not_key types (start_bound x) ck) as Hne.
      change (bound_place (start_bound x)) with (lo x) in Hne. places [p; key_place ck; lo x].
    + by intros [[_ ?]%andb_true_iff ?].
Qed.

End theorems.

(** * Witnesses *)

Module RangeTombstoneExamples.

(** Two clustering columns of integers. *)
Definition columns : list (Z -> Z -> comparison) := [Z.compare; Z.compare].
#[local] Instance columns_types : ColumnTypes columns.
Proof. repeat constructor; apply Z_compare_total. Qed.

Definition deletion (from to when : Z) : range_tombstone Z := RangeTombstone [from] incl_start [to] incl_end (Tombstone when 0).

Definition list_of (rts : list (range_tombstone Z)) : range_tombstone_list Z :=
  RangeTombstoneList (imap (fun i rt => (N.of_nat i, rt)) rts) (N.of_nat (length rts)).

Definition old_list : range_tombstone_list Z := list_of [deletion 1 5 10; deletion 7 9 30].

Lemma old_list_ok : rl_ok columns old_list.
Proof. split; [by repeat (split || constructor)|]. split; [by apply (bool_decide_unpack _)|by repeat constructor]. Qed.

Lemma deletion_wf from to when : rt_wf columns (deletion from to when).
Proof. split_and!; try done; simpl; lia. Qed.

Lemma rl_apply_correct_witness :
  exists l, rl_apply columns old_list (deletion 3 8 20) = Ret l /\
    covering columns (rl_values l) (key_place [4; 0]) = Some (Tombstone 20 0) /\
    covering columns (rl_values l) (key_place [8; 1]) = Some (Tombstone 30 0).
Proof.
  destruct (rl_apply_correct columns old_list (deletion 3 8 20)) as (l & Hl & _ & Hcov);
    [apply old_list_ok|apply deletion_wf|]. exists l. split; [exact Hl|]. rewrite !Hcov. by split.
Defined.

Lemma rl_apply_converges_witness :
  exists l k, rl_apply_all columns old_list [deletion 3 8 20; deletion 4 4 40] = Ret l /\
    rl_apply_all columns old_list [deletion 4 4 40; deletion 3 8 20; deletion 4 4 40] = Ret k /\
    rl_equal columns (rl_values l) (rl_values k) = true.
Proof.
  apply (rl_apply_converges columns); [apply old_list_ok..|done|repeat constructor; simpl; lia|repeat constructor; simpl; lia|].
  intros rt. rewrite !elem_of_cons, elem_of_nil. tauto.
Defined.

Lemma revert_correct_witness :
  exists l ops, rl_apply_reversibly columns old_list [deletion 3 8 20; deletion 4 4 40] = Ret (l, ops) /\
    length ops = 8%nat /\ revert columns ops l = Ret (RangeTombstoneList (rl_tombstones old_list) (rl_next l)).
Proof.
  destruct (revert_correct columns old_list [deletion 3 8 20; deletion 4 4 40]) as (l & ops & Hl & _ & _ & Hrev & _);
    [apply old_list_ok|repeat constructor; simpl; lia|].
  exists l, ops. split; [exact Hl|]. split; [|exact Hrev]. vm_compute in Hl. by injection Hl as <- <-.
Defined.

Lemma search_and_trim_correct_witness :
  search_tombstone_covering columns (rl_values old_list) [2; 2] = Tombstone 10 0 /\
  exists l, rl_trim columns (rl_values old_list) [make (IntervalBound [2] true) (IntervalBound [8] false)] = Ret l /\
    covering columns (rl_values l) (key_place [1; 0]) = None /\ covering columns (rl_values l) (key_place [7; 7]) = Some (Tombstone 30 0).
Proof.
  destruct (search_and_trim_correct columns (rl_values old_list) [make (IntervalBound [2] true) (IntervalBound [8] false)])
    as (Hsearch & l & Hl & _ & Hcov); [apply old_list_ok| |].
  { constructor; [|done]. split; [|done]. split; intros b [= <-]; simpl; lia. }
  split; [by rewrite Hsearch|]. exists l. split; [exact Hl|]. rewrite !Hcov. by split.
Defined.


Lemma difference_correct_witness :
  exists diff, difference columns (rl_values old_list) [deletion 2 8 20] = Ret diff /\
    covering columns (rl_values diff) (key_place [1; 0]) = Some (Tombstone 10 0) /\
    covering columns (rl_values diff) (key_place [3; 0]) = None /\
    covering columns (rl_values diff) (key_place [8; 0]) = Some (Tombstone 30 0).
Proof.
  destruct (difference_correct columns (rl_values old_list) [deletion 2 8 20]) as (diff & Hd & _ & Hcov & _);
    [apply old_list_ok|by repeat (split || constructor)|].
  exists diff. split; [exact Hd|]. rewrite !Hcov. by split_and!.
Defined.

Lemma accumulator_correct_witness :
  read columns (set_partition_tombstone make_accumulator (Tombstone 5 0))
    [row_fragment [0; 0]; range_fragment (deletion 1 9 10); range_fragment (deletion 2 4 20); row_fragment [3; 1]; row_fragment [6; 0];
     row_fragment [10; 0]] =
  [Tombstone 5 0; Tombstone 20 0; Tombstone 10 0; Tombstone 5 0].
Proof.
  rewrite (accumulator_correct columns (Tombstone 5 0) _ ([], -1)); [done|]. by repeat (split || constructor).
Defined.

End RangeTombstoneExamples.
