(* ===== verification/RangeTombstoneChanges.v ===== *)
(** Streams of range tombstone changes: [src/mutation/range_tombstone_change_generator.hh],
    [src/mutation/range_tombstone_assembler.hh] and [src/readers/upgrading_consumer.hh].

    Readers describe the deleted ranges of a partition by range tombstones that may overlap or by
    changes: from this position on, this tombstone is active. The generator turns the first form
    into the second while the range tombstones arrive, the assembler turns the second into range
    tombstones that do not overlap. The upgrading consumer uses a generator to turn a stream of
    fragments of the first form into one of the second, for a whole partition or for one range
    of positions after another. What is proved of them is in [RangeTombstoneChangesTheory]. *)
From S2P Require Import Prelude Interval Clustering RangeTombstones.

Section changes.
Context {V : Type} (types : list (V -> V -> comparison)).
Abbreviation position := (position_in_partition V).
Abbreviation range_tombstone := (range_tombstone V).
Abbreviation range_tombstone_list := (range_tombstone_list V).
Abbreviation cmp := (position_tri_compare types).
Abbreviation less := (position_less types).

Record range_tombstone_change := RangeTombstoneChange {
  rtc_position : position;
  rtc_tombstone : tombstone;
}.

(** * The generator *)

Record range_tombstone_change_generator := Generator {
  g_range_tombstones : range_tombstone_list;
  g_lower_bound : position;
}.

Definition make_generator : range_tombstone_change_generator := Generator make_range_tombstone_list before_all_clustered_rows.

(** The loop of [trim], from the first entry on. *)
Fixpoint drop_before (lower_bound : position) (es : list (entry V)) : list (entry V) :=
  match es with
  | [] => []
  | e :: rest => if negb (less lower_bound (rt_end_position e.2)) then drop_before lower_bound rest else es
  end.

Definition generator_trim (g : range_tombstone_change_generator) (lower_bound : position) :
    outcome Empty_set range_tombstone_change_generator :=
  lower ← (if is_clustering_row lower_bound then ck ← defined (p_ck lower_bound); Ret (before_key ck) else Ret lower_bound);
  let next := rl_next (g_range_tombstones g) in
  match drop_before lower_bound (rl_tombstones (g_range_tombstones g)) with
  | [] => Ret (Generator (RangeTombstoneList [] next) lower)
  | e :: rest =>
    rt ← (if less (rt_position e.2) lower then set_start e.2 lower else Ret e.2);
    Ret (Generator (RangeTombstoneList ((e.1, rt) :: rest) next) lower)
  end.

Definition should_flush (upper_bound pos : position) : bool :=
  if is_after_all_clustered_rows upper_bound then negb (bool_decide (cmp pos upper_bound = Gt))
  else bool_decide (cmp pos upper_bound = Lt).

(** [cmp(prev->end_position(), pos) < 0] if there is a previous range tombstone. *)
Definition gap_before (prev : option range_tombstone) (pos : position) : list range_tombstone_change :=
  match prev with
  | Some prev =>
    if bool_decide (cmp (rt_end_position prev) pos = Lt) then [RangeTombstoneChange (rt_end_position prev) no_tombstone] else []
  | None => []
  end.

Definition change_at_start (lower_bound : position) (rt : range_tombstone) : list range_tombstone_change :=
  if negb (bool_decide (cmp (rt_position rt) lower_bound = Lt)) then [RangeTombstoneChange (rt_position rt) (rt_tomb rt)] else [].

(** The loop of [flush]: the changes, the range tombstone that was popped last and what is left. *)
Fixpoint flush_loop (lower_bound upper_bound : position) (prev : option range_tombstone) (es : list (entry V)) :
    list range_tombstone_change * option range_tombstone * list (entry V) :=
  match es with
  | [] => ([], prev, [])
  | e :: rest =>
    if should_flush upper_bound (rt_end_position e.2) then
      let '(changes, prev', remaining) := flush_loop lower_bound upper_bound (Some e.2) rest in
      (gap_before prev (rt_position e.2) ++ change_at_start lower_bound e.2 ++ changes, prev', remaining)
    else ([], prev, es)
  end.

(** [flush]: the changes that are given to the consumer, and the generator afterwards. *)
Definition generator_flush (g : range_tombstone_change_generator) (upper_bound : position) (end_of_range : bool) :
    list range_tombstone_change * range_tombstone_change_generator :=
  match rl_tombstones (g_range_tombstones g) with
  | [] => ([], g)
  | _ =>
    let '(changes, prev, es) := flush_loop (g_lower_bound g) upper_bound None (rl_tombstones (g_range_tombstones g)) in
    let closing :=
      match prev, es with
      | Some prev, [] => [RangeTombstoneChange (rt_end_position prev) no_tombstone]
      | _, e :: _ => gap_before prev (rt_position e.2)
      | None, [] => []
      end in
    let overlapping :=
      match es with
      | e :: _ => if bool_decide (cmp (rt_position e.2) upper_bound = Lt) then change_at_start (g_lower_bound g) e.2 else []
      | [] => []
      end in
    let at_end :=
      match es with
      | e :: _ =>
        if end_of_range && bool_decide (cmp (rt_position e.2) upper_bound = Lt) then [RangeTombstoneChange upper_bound no_tombstone] else []
      | [] => []
      end in
    (changes ++ closing ++ overlapping ++ at_end, Generator (RangeTombstoneList es (rl_next (g_range_tombstones g))) upper_bound)
  end.

Definition generator_consume (g : range_tombstone_change_generator) (rt : range_tombstone) : outcome Empty_set range_tombstone_change_generator :=
  l ← rl_apply types (g_range_tombstones g) rt;
  Ret (Generator l (g_lower_bound g)).

Definition generator_reset (g : range_tombstone_change_generator) : range_tombstone_change_generator :=
  Generator (rl_clear (g_range_tombstones g)) before_all_clustered_rows.

Definition generator_discardable (g : range_tombstone_change_generator) : bool :=
  bool_decide (rl_tombstones (g_range_tombstones g) = []).

(** * The assembler *)

(** The state is [_prev_rt]. *)
Definition range_tombstone_assembler : Type := option range_tombstone_change.
Definition make_assembler : range_tombstone_assembler := None.

Definition has_active_tombstone (a : range_tombstone_assembler) : bool :=
  match a with Some c => tombstone_bool (rtc_tombstone c) | None => false end.
Definition get_current_tombstone (a : range_tombstone_assembler) : tombstone :=
  match a with Some c => rtc_tombstone c | None => no_tombstone end.
Definition assembler_reset (a : range_tombstone_assembler) : range_tombstone_assembler := None.

Inductive stream_error : Type := active_at_end_of_stream (c : range_tombstone_change).

Definition assembler_consume (a : range_tombstone_assembler) (rt : range_tombstone_change) :
    outcome stream_error (option range_tombstone * range_tombstone_assembler) :=
  match a with
  | Some prev =>
    if has_active_tombstone a && less (rtc_position prev) (rtc_position rt) then
      r ← rt_of_positions (rtc_position prev) (rtc_position rt) (rtc_tombstone prev);
      Ret (Some r, Some rt)
    else Ret (None, Some rt)
  | None => Ret (None, Some rt)
  end.

Definition on_end_of_stream (a : range_tombstone_assembler) : outcome stream_error () :=
  match a with
  | Some prev => if has_active_tombstone a then Throw (active_at_end_of_stream prev) else Ret tt
  | None => Ret tt
  end.

Definition assembler_flush (a : range_tombstone_assembler) (pos : position) :
    outcome stream_error (option range_tombstone * range_tombstone_assembler) :=
  match a with
  | Some prev =>
    if has_active_tombstone a && less (rtc_position prev) pos then
      r ← rt_of_positions (rtc_position prev) pos (rtc_tombstone prev);
      Ret (Some r, Some (RangeTombstoneChange pos (rtc_tombstone prev)))
    else Ret (None, a)
  | None => Ret (None, None)
  end.

Definition assembler_discardable (a : range_tombstone_assembler) : bool := negb (has_active_tombstone a).

(** * The upgrading consumer *)

(** What fragments hold besides positions and range tombstones: the partition key and tombstone,
    the cells of the static row and of rows. *)
Context {D St R : Type}.

Inductive mutation_fragment : Type :=
| partition_start_fragment (d : D)
| static_row_fragment (s : St)
| clustering_row_fragment (ck : list V) (r : R)
| range_tombstone_fragment (rt : range_tombstone)
| partition_end_fragment.

Inductive mutation_fragment_v2 : Type :=
| partition_start_v2 (d : D)
| static_row_v2 (s : St)
| clustering_row_v2 (ck : list V) (r : R)
| range_tombstone_change_v2 (c : range_tombstone_change)
| partition_end_v2.

Record upgrading_consumer := UpgradingConsumer {
  uc_rt_gen : range_tombstone_change_generator;
  uc_current_rt : tombstone;
  uc_pr : option (position_range V);
}.

Definition make_upgrading_consumer : upgrading_consumer := UpgradingConsumer make_generator no_tombstone None.

Definition set_position_range (u : upgrading_consumer) (pr : position_range V) : outcome Empty_set upgrading_consumer :=
  g ← generator_trim (uc_rt_gen u) (pr_start pr);
  Ret (UpgradingConsumer g no_tombstone (Some pr)).

Definition consumer_discardable (u : upgrading_consumer) : bool :=
  generator_discardable (uc_rt_gen u) && negb (tombstone_bool (uc_current_rt u)).

(** The fragments given to the end consumer, and the consumer afterwards. *)
Definition flush_tombstones (u : upgrading_consumer) (pos : position) (emit_end : bool) :
    list mutation_fragment_v2 * upgrading_consumer :=
  let '(changes, g) := generator_flush (uc_rt_gen u) pos false in
  let current := fold_left (fun _ c => rtc_tombstone c) changes (uc_current_rt u) in
  let closing := if emit_end && tombstone_bool current then [range_tombstone_change_v2 (RangeTombstoneChange pos no_tombstone)] else [] in
  ((range_tombstone_change_v2 <$> changes) ++ closing, UpgradingConsumer g current (uc_pr u)).

Definition upgrading_consume (u : upgrading_consumer) (mf : mutation_fragment) :
    outcome Empty_set (list mutation_fragment_v2 * upgrading_consumer) :=
  match mf with
  | partition_start_fragment d =>
    Ret ([partition_start_v2 d], UpgradingConsumer (generator_reset (uc_rt_gen u)) no_tombstone None)
  | static_row_fragment s => Ret ([static_row_v2 s], u)
  | clustering_row_fragment ck r =>
    let '(fs, u) := flush_tombstones u (for_key ck) false in
    Ret (fs ++ [clustering_row_v2 ck r], u)
  | range_tombstone_fragment rt =>
    '(overlaps, rt) ← match uc_pr u with Some pr => rt_trim_front types rt (pr_start pr) | None => Ret (true, rt) end;
    if negb overlaps then Ret ([], u)
    else
      let '(fs, u) := flush_tombstones u (rt_position rt) false in
      g ← generator_consume (uc_rt_gen u) rt;
      Ret (fs, UpgradingConsumer g (uc_current_rt u) (uc_pr u))
  | partition_end_fragment =>
    let '(fs, u) :=
      match uc_pr u with
      | Some pr => flush_tombstones u (pr_end pr) true
      | None => flush_tombstones u after_all_clustered_rows false
      end in
    Ret (fs ++ [partition_end_v2], u)
  end.

Definition upgrading_on_end_of_stream (u : upgrading_consumer) : list mutation_fragment_v2 * upgrading_consumer :=
  match uc_pr u with Some pr => flush_tombstones u (pr_end pr) true | None => ([], u) end.

End changes.
Arguments range_tombstone_change : clear implicits.
Arguments range_tombstone_change_generator : clear implicits.
Arguments range_tombstone_assembler : clear implicits.
Arguments stream_error : clear implicits.
Arguments upgrading_consumer : clear implicits.
Arguments mutation_fragment : clear implicits.
Arguments mutation_fragment_v2 : clear implicits.
