(* ===== verification/RangeTombstoneChangesTheory.v ===== *)
(** What streams of range tombstone changes mean, and that the generator, the upgrading consumer
    and the assembler keep the meaning.

    A stream of changes gives every place the tombstone of the last change at or before it
    ([active_at]). A canonical list of range tombstones has one stream that means the same
    ([bounds_of]); what a generator emits when it is flushed from [m] to [u] is the part of that
    stream between the two places, which is how its invariant [pending] goes from [m] to [u]. *)
From S2P Require Import Prelude Ordering Interval Clustering RangeTombstones RangeTombstonesTheory RangeTombstonesTheorems RangeTombstoneChanges.

Section theory.
Context {V : Type} (types : list (V -> V -> comparison)) `{Htypes : !ColumnTypes types}.
Abbreviation range_tombstone := (range_tombstone V).
Abbreviation place := (@place V).
Abbreviation position := (position_in_partition V).
Abbreviation change := (range_tombstone_change V).
Abbreviation cmp := (place_compare types).
Abbreviation place_lt := (place_ltb types).
Abbreviation canonical := (canonical types).
Abbreviation covering := (covering types).
Abbreviation rl_ok := (rl_ok types).
Ltac places ps := places_of types ps.

(** * Positions of the clustered region *)

Definition clustered_position (p : position) : Prop := position_ok types p /\ p_type p = clustered.

Lemma bound_is_clustered p : bound_position types p -> clustered_position p.
Proof using. apply bound_position_ok. Qed.

Lemma key_is_clustered ck : (length ck <= length types)%nat -> clustered_position (for_key ck).
Proof using. by split. Qed.

Lemma place_beyond (p : position) : cmp (position_place p) beyond = Lt /\ cmp beyond (position_place p) = Gt.
Proof using. by apply (position_place_between types p 2). Qed.

Lemma place_nowhere (p : position) : cmp nowhere (position_place p) = Lt /\ cmp (position_place p) nowhere = Gt.
Proof using. split; by apply (position_place_between types p (-2)). Qed.

Lemma general_clustered (p : position) : clustered_position p -> general_place p = position_place p.
Proof using. intros [_ Hp]. unfold general_place. by rewrite Hp. Qed.

Lemma cmp_clustered a b :
  clustered_position a -> position_ok types b -> position_tri_compare types a b = cmp (position_place a) (general_place b).
Proof using. intros Ha Hb. rewrite <- (general_clustered a) by done. apply position_tri_compare_place; [apply Ha|done]. Qed.

Lemma cmp_clustered_r a b :
  position_ok types a -> clustered_position b -> position_tri_compare types a b = cmp (general_place a) (position_place b).
Proof using. intros Ha Hb. rewrite <- (general_clustered b) by done. apply position_tri_compare_place; [done|apply Hb]. Qed.

Lemma lt_clustered a b :
  clustered_position a -> position_ok types b ->
  bool_decide (position_tri_compare types a b = Lt) = place_lt (position_place a) (general_place b).
Proof using. intros. rewrite cmp_clustered by done. unfold place_ltb. by destruct (cmp _ _). Qed.

Lemma lt_clustered_r a b :
  position_ok types a -> clustered_position b ->
  bool_decide (position_tri_compare types a b = Lt) = place_lt (general_place a) (position_place b).
Proof using. intros. rewrite cmp_clustered_r by done. unfold place_ltb. by destruct (cmp _ _). Qed.

(** * The meaning of a stream of changes *)

Definition change_place (c : change) : place := position_place (rtc_position c).

Fixpoint active_at (t : tombstone) (cs : list change) (x : place) : tombstone :=
  match cs with
  | [] => t
  | c :: cs => if place_lt x (change_place c) then t else active_at (rtc_tombstone c) cs x
  end.

(** The tombstone that is active after the stream. *)
Definition last_tombstone (t : tombstone) (cs : list change) : tombstone := fold_left (fun _ c => rtc_tombstone c) cs t.

Lemma last_tombstone_app t cs ds : last_tombstone t (cs ++ ds) = last_tombstone (last_tombstone t cs) ds.
Proof using. apply fold_left_app. Qed.

(** Positions grow strictly, from after [p] on. *)
Fixpoint rising (p : option place) (cs : list change) : Prop :=
  match cs with
  | [] => True
  | c :: cs => match p with Some p => place_lt p (change_place c) = true | None => True end /\ rising (Some (change_place c)) cs
  end.

Lemma rising_weaken p q cs : rising (Some p) cs -> place_lt p q = false -> rising (Some q) cs.
Proof using Htypes. destruct cs as [|c cs]; [done|]. simpl. intros [Hc Hcs] Hq. split; [|done]. places [p; q; change_place c]. Qed.

Lemma rising_none p cs : rising p cs -> rising None cs.
Proof using. destruct cs; simpl; tauto. Qed.

Lemma rising_after p cs c : rising (Some p) cs -> c ∈ cs -> place_lt p (change_place c) = true.
Proof using Htypes.
  revert p. induction cs as [|d cs IH]; intros p; [by intros _ ?%elem_of_nil|]. intros [Hd Hcs] [->|Hc]%elem_of_cons; [done|].
  specialize (IH _ Hcs Hc). places [p; change_place d; change_place c].
Qed.

Lemma rising_filter P `{!forall c, Decision (P c)} p cs : rising p cs -> rising p (filter P cs).
Proof using Htypes.
  revert p. induction cs as [|c cs IH]; intros p; [done|]. intros [Hc Hcs]. rewrite filter_cons. destruct (decide (P c)).
  - split; [done|]. by apply IH.
  - apply IH. destruct p as [p|]; [|by apply rising_none in Hcs].
    apply (rising_weaken (change_place c)); [done|]. places [p; change_place c].
Qed.

Lemma rising_app p cs ds :
  rising p cs -> rising None ds -> (forall c d, c ∈ cs -> d ∈ ds -> place_lt (change_place c) (change_place d) = true) ->
  (forall q d, p = Some q -> d ∈ ds -> place_lt q (change_place d) = true) -> rising p (cs ++ ds).
Proof using.
  revert p. induction cs as [|c cs IH]; intros p Hcs Hds Hcd Hp; simpl.
  - destruct ds as [|d ds]; [done|]. destruct Hds as [_ Hds]. split; [|done]. destruct p; [|done]. apply (Hp _ d); [done|left].
  - destruct Hcs as [Hc Hcs]. split; [done|]. apply IH; [done|done|..].
    + intros ????. apply Hcd; [by right|done].
    + intros q d [= <-] Hd. apply Hcd; [left|done].
Qed.

(** The part of a stream from one place to another. *)
Definition from_to (m u : place) (cs : list change) : list change :=
  filter (fun c => place_lt (change_place c) m = false /\ place_lt (change_place c) u = true) cs.
Definition changes_before (u : place) (cs : list change) : list change := filter (fun c => place_lt (change_place c) u = true) cs.

Lemma changes_before_nil u p cs : rising (Some p) cs -> place_lt p u = false -> changes_before u cs = [].
Proof using Htypes.
  intros Hcs Hp. apply list_filter_none, Forall_forall. intros c Hc.
  pose proof (rising_after _ _ _ Hcs Hc). places [p; u; change_place c].
Qed.

Lemma from_to_nil m u p cs : rising (Some p) cs -> place_lt p u = false -> from_to m u cs = [].
Proof using Htypes.
  intros Hcs Hp. apply list_filter_none, Forall_forall. intros c Hc [_ ?].
  pose proof (rising_after _ _ _ Hcs Hc). places [p; u; change_place c].
Qed.

(** A stream divides at a place. *)
Lemma changes_before_split p m u cs : rising p cs -> place_lt u m = false -> changes_before u cs = changes_before m cs ++ from_to m u cs.
Proof using Htypes.
  intros Hcs Hmu. revert p Hcs. induction cs as [|c cs IH]; intros p; [done|]. intros [_ Hcs]. specialize (IH _ Hcs).
  unfold changes_before, from_to in *. rewrite !filter_cons. destruct (place_lt (change_place c) m) eqn:Hm.
  - assert (place_lt (change_place c) u = true) as -> by (places [u; m; change_place c]). simpl. f_equal. exact IH.
  - fold (changes_before m cs) in *. rewrite (changes_before_nil m (change_place c)) in * by done.
    destruct (place_lt (change_place c) u) eqn:Hu; simpl; [f_equal|]; exact IH.
Qed.

Lemma active_at_before p t cs x u : rising p cs -> place_lt x u = true -> active_at t cs x = active_at t (changes_before u cs) x.
Proof using Htypes.
  intros Hcs Hx. revert p t Hcs. induction cs as [|c cs IH]; intros p t; [done|]. intros [_ Hcs]. unfold changes_before. rewrite filter_cons.
  destruct (decide (place_lt (change_place c) u = true)) as [Hu|Hu]; simpl.
  - destruct (place_lt x (change_place c)); [done|]. by eapply IH.
  - fold (changes_before u cs). rewrite (changes_before_nil u (change_place c)) by (try done; by apply not_true_iff_false). simpl.
    apply not_true_iff_false in Hu. by assert (place_lt x (change_place c) = true) as -> by (places [x; u; change_place c]).
Qed.

Lemma active_at_app t cs ds x :
  (forall c, c ∈ cs -> place_lt x (change_place c) = false) -> active_at t (cs ++ ds) x = active_at (last_tombstone t cs) ds x.
Proof using.
  revert t. induction cs as [|c cs IH]; intros t Hcs; [done|]. simpl. rewrite Hcs by left. apply IH. intros ??. apply Hcs. by right.
Qed.

Lemma active_at_app_l t cs ds x :
  (forall c, c ∈ ds -> place_lt x (change_place c) = true) -> active_at t (cs ++ ds) x = active_at t cs x.
Proof using.
  intros Hds. revert t. induction cs as [|c cs IH]; intros t; simpl; [|by rewrite IH].
  destruct ds as [|d ds]; [done|]. simpl. by rewrite Hds by left.
Qed.

(** From [m] on, a stream means what its part from [m] on means after what was active before. *)
Lemma active_at_from_to m u p t cs x :
  rising p cs -> place_lt x m = false -> place_lt x u = true ->
  active_at t cs x = active_at (last_tombstone t (changes_before m cs)) (from_to m u cs) x.
Proof using Htypes.
  intros Hcs Hm Hu. rewrite (active_at_before p t cs x u) by done. rewrite (changes_before_split p m u) by (try done; places [x; m; u]).
  apply active_at_app. intros c [Hc _]%list_elem_of_filter. places [x; m; change_place c].
Qed.

(** * The stream of a list of range tombstones *)

Definition end_change (rt : range_tombstone) : change := RangeTombstoneChange (rt_end_position rt) no_tombstone.
Definition start_change (rt : range_tombstone) : change := RangeTombstoneChange (rt_position rt) (rt_tomb rt).

(** The end of a range tombstone, unless the next one begins there. *)
Definition ending (rt : range_tombstone) (next : list range_tombstone) : list change :=
  match next with
  | [] => [end_change rt]
  | rt' :: _ => if place_lt (hi rt) (lo rt') then [end_change rt] else []
  end.
Fixpoint bounds_of (rts : list range_tombstone) : list change :=
  match rts with
  | [] => []
  | rt :: rest => start_change rt :: ending rt rest ++ bounds_of rest
  end.
Definition changes_after (prev : option range_tombstone) (rts : list range_tombstone) : list change :=
  match prev with Some rt => ending rt rts | None => [] end ++ bounds_of rts.

Definition at_bound (c : change) : Prop := bound_position types (rtc_position c).

Lemma at_bound_place c : at_bound c -> exists b, change_place c = bound_place b.
Proof using.
  intros (ck & _ & Hw & Hck & _). exists (BoundView ck (if decide (p_weight (rtc_position c) = before_all_prefixed) then incl_start else incl_end)).
  unfold change_place, position_place, bound_place. simpl. rewrite Hck. by destruct (p_weight (rtc_position c)).
Qed.

Lemma canonical_oks p rts : canonical p rts -> Forall (rt_ok types) rts.
Proof using. revert p. induction rts as [|rt rts IH]; intros p; [done|]. intros (Hok & _ & Hrts). constructor; [done|by eapply IH]. Qed.

Lemma bounds_at_bound rts : Forall (rt_ok types) rts -> Forall at_bound (bounds_of rts).
Proof using.
  induction 1 as [|rt rts [Hrt _] _ IH]; [done|]. cbn [bounds_of]. pose proof (rt_positions types rt Hrt) as [Hs He].
  constructor; [done|]. apply Forall_app. split; [|done].
  unfold ending. destruct rts as [|rt' rts]; [|destruct (place_lt _ _)]; by repeat constructor.
Qed.

Lemma bounds_rising rts :
  forall p rt q, canonical p (rt :: rts) -> place_lt q (lo rt) = true -> rising (Some q) (bounds_of (rt :: rts)).
Proof using Htypes.
  induction rts as [|rt' rts IH]; intros p rt q ([_ Hok] & _ & Hrts) Hq; [done|]. cbn [bounds_of ending]. split; [done|].
  pose proof Hrts as ([_ Hok'] & [Hf _] & _). change (change_place (start_change rt)) with (lo rt).
  destruct (place_lt (hi rt) (lo rt')) eqn:Hgap; [split; [done|]|]; (eapply IH; [exact Hrts|]); [done|]. places [lo rt; hi rt; lo rt'].
Qed.

Lemma bounds_rising_none p rts : canonical p rts -> rising None (bounds_of rts).
Proof using Htypes.
  destruct rts as [|rt rts]; [done|]. intros Hrts. split; [done|]. destruct rts as [|rt' rts]; [by destruct Hrts as ([_ ?] & _)|].
  destruct Hrts as ([_ Hok] & _ & Hrts). pose proof Hrts as (_ & [Hf _] & _). cbn [ending].
  destruct (place_lt (hi rt) (lo rt')) eqn:Hgap; [split; [done|]|]; (eapply bounds_rising; [exact Hrts|]); [done|].
  change (change_place (start_change rt)) with (lo rt). places [lo rt; hi rt; lo rt'].
Qed.

(** The changes at the end of a range tombstone and after it lie at or after its end. *)
Lemma after_rising prev rts q :
  canonical (Some (hi prev, rt_tomb prev)) rts -> place_lt q (hi prev) = true -> rising (Some q) (changes_after (Some prev) rts).
Proof using Htypes.
  intros Hrts Hq. unfold changes_after. destruct rts as [|rt rts]; [done|]. pose proof Hrts as (_ & [Hf _] & _). cbn [ending].
  destruct (place_lt (hi prev) (lo rt)) eqn:Hgap; [split; [done|]|]; (eapply bounds_rising; [exact Hrts|]); [done|].
  places [q; hi prev; lo rt].
Qed.

Lemma after_from prev rts c : canonical (Some (hi prev, rt_tomb prev)) rts -> c ∈ changes_after (Some prev) rts -> place_lt (change_place c) (hi prev) = false.
Proof using Htypes.
  intros Hrts Hc. destruct (place_lt (change_place c) (hi prev)) eqn:Hlt; [|done].
  pose proof (rising_after _ _ _ (after_rising _ _ _ Hrts Hlt) Hc). places [change_place c; hi prev].
Qed.

Lemma covering_before_first p rt rts x : canonical p (rt :: rts) -> place_lt x (lo rt) = true -> covering (rt :: rts) x = None.
Proof using Htypes.
  intros ([_ Hok] & _ & Hrts) Hx. cbn [covering]. unfold covers, between. rewrite Hx. simpl.
  apply (covering_before types (hi rt) (rt_tomb rt)); [done|]. places [x; lo rt; hi rt].
Qed.

Lemma canonical_ends h t rts rt : canonical (Some (h, t)) rts -> rt ∈ rts -> place_lt (hi rt) h = false.
Proof using Htypes.
  revert h t. induction rts as [|r rts IH]; intros h t; [by intros _ ?%elem_of_nil|].
  intros ([_ Hok] & [Hf _] & Hrts) [->|Hin]%elem_of_cons; [places [h; lo r; hi r]|].
  specialize (IH _ _ Hrts Hin). places [h; lo r; hi r; hi rt].
Qed.

(** The stream of a canonical list means what the list covers. *)
Lemma active_at_start p t rt rts x :
  canonical p (rt :: rts) -> (place_lt x (hi rt) = false -> active_at (rt_tomb rt) (changes_after (Some rt) rts) x = default no_tombstone (covering rts x)) ->
  active_at t (bounds_of (rt :: rts)) x = if place_lt x (lo rt) then t else default no_tombstone (covering (rt :: rts) x).
Proof using Htypes.
  intros (Hok & _ & Hrts) Hrest. cbn [bounds_of active_at]. change (change_place (start_change rt)) with (lo rt).
  change (rtc_tombstone (start_change rt)) with (rt_tomb rt). destruct (place_lt x (lo rt)) eqn:Hlo; [done|]. unfold changes_after in Hrest.
  cbn [covering]. unfold covers, between. rewrite Hlo. destruct (place_lt x (hi rt)) eqn:Hhi; simpl; [|by apply Hrest].
  pose proof (after_rising rt rts x Hrts Hhi) as Hr. unfold changes_after in Hr. destruct (ending rt rts ++ bounds_of rts) as [|c cs]; [done|].
  simpl. by rewrite (proj1 Hr).
Qed.

Lemma active_at_after prev rts x :
  canonical (Some (hi prev, rt_tomb prev)) rts -> place_lt x (hi prev) = false ->
  active_at (rt_tomb prev) (changes_after (Some prev) rts) x = default no_tombstone (covering rts x).
Proof using Htypes.
  revert prev. induction rts as [|rt rts IH]; intros prev Hrts Hx.
  { unfold changes_after. simpl. change (change_place (end_change prev)) with (hi prev). by rewrite Hx. }
  pose proof Hrts as (_ & [Hf _] & Hrest). unfold changes_after. cbn [ending]. destruct (place_lt (hi prev) (lo rt)) eqn:Hgap.
  - cbn [app active_at]. change (change_place (end_change prev)) with (hi prev). rewrite Hx.
    rewrite (active_at_start _ _ _ _ _ Hrts (IH rt Hrest)). destruct (place_lt x (lo rt)) eqn:Hlo; [|done].
    by rewrite (covering_before_first _ _ _ _ Hrts Hlo).
  - rewrite app_nil_l, (active_at_start _ _ _ _ _ Hrts (IH rt Hrest)).
    by assert (place_lt x (lo rt) = false) as -> by (places [x; hi prev; lo rt]).
Qed.

Lemma active_at_bounds p rts x : canonical p rts -> active_at no_tombstone (bounds_of rts) x = default no_tombstone (covering rts x).
Proof using Htypes.
  destruct rts as [|rt rts]; [done|]. intros Hrts.
  rewrite (active_at_start _ _ _ _ _ Hrts) by (apply active_at_after, Hrts). destruct (place_lt x (lo rt)) eqn:Hlo; [|done].
  by rewrite (covering_before_first _ _ _ _ Hrts Hlo).
Qed.

(** Streams that mean the same before a place have the same tombstone active there. *)
Lemma last_before_active p cs u x :
  rising p cs -> place_lt x u = true -> (forall c, c ∈ changes_before u cs -> place_lt x (change_place c) = false) ->
  active_at no_tombstone cs x = last_tombstone no_tombstone (changes_before u cs).
Proof using Htypes.
  intros Hcs Hx Hbefore. rewrite (active_at_before p _ cs x u) by done.
  rewrite <- (app_nil_r (changes_before u cs)) at 1. by rewrite active_at_app.
Qed.

Lemma rising_last p cs c : rising p (cs ++ [c]) -> forall d, d ∈ cs ++ [c] -> place_lt (change_place c) (change_place d) = false.
Proof using Htypes.
  revert p. induction cs as [|b cs IH]; intros p Hcs d Hd.
  { apply list_elem_of_singleton in Hd as ->. places [change_place c]. }
  destruct Hcs as [_ Hcs]. apply elem_of_cons in Hd as [->|Hd]; [|by eapply IH].
  assert (place_lt (change_place b) (change_place c) = true) by (eapply rising_after; [exact Hcs|apply elem_of_app; right; left]).
  places [change_place b; change_place c].
Qed.

Lemma last_before_ext p q cs ds u :
  rising p cs -> rising q ds ->
  (forall x, place_lt x u = true -> active_at no_tombstone cs x = active_at no_tombstone ds x) ->
  last_tombstone no_tombstone (changes_before u cs) = last_tombstone no_tombstone (changes_before u ds).
Proof using Htypes.
  intros Hcs Hds Hsame.
  assert (forall cs p, rising p cs -> changes_before u cs = [] \/ exists x, place_lt x u = true /\
    (forall c, c ∈ changes_before u cs -> place_lt x (change_place c) = false)) as Hlast.
  { clear cs p Hcs Hsame. intros cs p Hcs. apply (rising_filter (fun c => place_lt (change_place c) u = true)) in Hcs. fold (changes_before u cs) in Hcs.
    destruct (snoc_cases (changes_before u cs)) as [->|(cs' & c & Heq)]; [by left|right]. exists (change_place c). rewrite Heq in *. split.
    - assert (c ∈ changes_before u cs) as Hin by (rewrite Heq; apply elem_of_app; right; left). by apply list_elem_of_filter in Hin as [? _].
    - by apply (rising_last p cs' c). }
  destruct (Hlast cs p Hcs) as [Hc|(x & Hx & Hxc)], (Hlast ds q Hds) as [Hd|(y & Hy & Hyd)].
  - by rewrite Hc, Hd.
  - rewrite <- (last_before_active q ds u y), <- Hsame, (last_before_active p cs u y); try done. rewrite Hc. by intros ? ?%elem_of_nil.
  - rewrite <- (last_before_active p cs u x), Hsame, (last_before_active q ds u x); try done. rewrite Hd. by intros ? ?%elem_of_nil.
  - destruct (place_lt x y) eqn:Hxy.
    + rewrite <- (last_before_active q ds u y), <- Hsame, (last_before_active p cs u y); try done.
      intros c Hin. specialize (Hxc c Hin). places [x; y; change_place c].
    + rewrite <- (last_before_active p cs u x), Hsame, (last_before_active q ds u x); try done.
      intros c Hin. specialize (Hyd c Hin). places [x; y; change_place c].
Qed.

(** * Flushing a generator *)

Lemma hi_beyond rt : place_lt (hi rt) beyond = true.
Proof using. apply place_lt_true, (place_beyond (rt_end_position rt)). Qed.

Lemma beyond_hi rt : place_lt beyond (hi rt) = false.
Proof using. unfold place_ltb. by rewrite (proj2 (place_beyond (rt_end_position rt)) : cmp beyond (hi rt) = Gt). Qed.

Lemma lo_nowhere rt : place_lt (lo rt) nowhere = false.
Proof using. unfold place_ltb. by rewrite (proj2 (place_nowhere (rt_position rt)) : cmp (lo rt) nowhere = Gt). Qed.

(** A position inside of a range tombstone is in the clustered region. *)
Lemma inside_clustered rt (p : position) :
  place_lt (lo rt) (general_place p) = true -> place_lt (general_place p) (hi rt) = true -> p_type p = clustered.
Proof using.
  unfold general_place. destruct (p_type p); [|by rewrite lo_nowhere|done|by rewrite beyond_hi].
  unfold place_ltb. by rewrite (proj1 (position_place_between types (rt_position rt) (-3) eq_refl) : cmp (lo rt) ([], -3) = Gt).
Qed.

Definition flush_place (u : position) : place := if is_after_all_clustered_rows u then beyond else general_place u.

Lemma after_all_top u p :
  is_after_all_clustered_rows u = true -> position_ok types u -> clustered_position p -> position_tri_compare types p u <> Gt.
Proof using.
  unfold is_after_all_clustered_rows. intros Ha Hu Hp. rewrite cmp_clustered by done. unfold general_place, position_ok in *.
  destruct (p_ck u) as [[|v ck]|] eqn:Hck; simpl in Ha; [destruct Hu as [Hu _]|destruct Hu as [Hu _]|]; rewrite ?Hu in *; simpl in Ha; try done.
  - apply bool_decide_eq_true in Ha as Hw. unfold position_place. rewrite Hck, Hw. unfold place_compare. rewrite place_tri_compare_eq.
    destruct (p_ck p) as [[|]|]; simpl; [by destruct (p_weight p)|done..].
  - destruct (p_type u); try done. rewrite (proj1 (place_beyond p)). done.
Qed.

Lemma should_flush_place u p :
  position_ok types u -> clustered_position p -> should_flush types u p = place_lt (position_place p) (flush_place u).
Proof using.
  intros Hu Hp. unfold should_flush, flush_place. destruct (is_after_all_clustered_rows u) eqn:Ha; [|by apply lt_clustered].
  rewrite bool_decide_eq_false_2 by (by apply after_all_top). simpl. symmetry. apply place_lt_true, place_beyond.
Qed.

Lemma before_flush_place u p :
  position_ok types u -> is_after_all_clustered_rows u = false -> clustered_position p ->
  bool_decide (position_tri_compare types p u = Lt) = place_lt (position_place p) (flush_place u).
Proof using. intros Hu Ha Hp. rewrite <- should_flush_place by done. unfold should_flush. by rewrite Ha. Qed.

Lemma rt_clustered rt : rt_ok types rt -> clustered_position (rt_position rt) /\ clustered_position (rt_end_position rt).
Proof using. intros [Hwf _]. apply rt_positions in Hwf as [??]. split; by apply bound_is_clustered. Qed.

(** The lower bound that the generator has is as good as [m] for these range tombstones. *)
Definition same_lower (lower : position) (m : place) (rts : list range_tombstone) : Prop :=
  position_ok types lower /\
  Forall (fun rt => place_lt (lo rt) (general_place lower) = place_lt (lo rt) m /\ place_lt (hi rt) m = false) rts.

Lemma change_at_start_place lower m rt :
  rt_ok types rt -> position_ok types lower -> place_lt (lo rt) (general_place lower) = place_lt (lo rt) m ->
  change_at_start types lower rt = if place_lt (lo rt) m then [] else [start_change rt].
Proof using.
  intros Hrt Hlower Hlo. unfold change_at_start. rewrite lt_clustered by (try done; by apply rt_clustered).
  change (position_place (rt_position rt)) with (lo rt). rewrite Hlo. by destruct (place_lt (lo rt) m).
Qed.

Lemma gap_before_place prev rt :
  rt_ok types prev -> rt_ok types rt -> gap_before types (Some prev) (rt_position rt) = ending prev [rt].
Proof using.
  intros Hprev Hrt. unfold gap_before, ending.
  rewrite lt_clustered by (by apply rt_clustered). by rewrite general_clustered by (by apply rt_clustered).
Qed.

(** Everything that [flush] emits of the range tombstones, but for the end of the range. *)
Definition closing_changes (prev : option range_tombstone) (es : list (entry V)) : list change :=
  match prev, es with
  | Some prev, [] => [end_change prev]
  | _, e :: _ => gap_before types prev (rt_position e.2)
  | None, [] => []
  end.
Definition overlapping_change (lower u : position) (es : list (entry V)) : list change :=
  match es with
  | e :: _ => if bool_decide (position_tri_compare types (rt_position e.2) u = Lt) then change_at_start types lower e.2 else []
  | [] => []
  end.

(** The range tombstone before the list, if there is one, was flushed. *)
Definition flushed (m u : place) (prev : option range_tombstone) (rts : list range_tombstone) : Prop :=
  match prev with
  | Some p => rt_ok types p /\ canonical (Some (hi p, rt_tomb p)) rts /\ place_lt (hi p) m = false /\ place_lt (hi p) u = true
  | None => canonical None rts
  end.

(** What precedes the start of the next range tombstone. *)
Definition gap (prev : option range_tombstone) (rt : range_tombstone) : list change :=
  match prev with Some p => ending p [rt] | None => [] end.

Lemma gap_cons prev rt rts : changes_after prev (rt :: rts) = gap prev rt ++ start_change rt :: changes_after (Some rt) rts.
Proof using. by destruct prev. Qed.

Lemma gap_flushed m u prev rt rts :
  flushed m u prev (rt :: rts) ->
  rt_ok types rt /\ canonical (Some (hi rt, rt_tomb rt)) rts /\ gap_before types prev (rt_position rt) = gap prev rt /\
  from_to m u (gap prev rt) = gap prev rt.
Proof using.
  intros Hprev. destruct prev as [p|]; [|by destruct Hprev as (? & _ & ?)].
  destruct Hprev as (Hp & (Hrt & _ & Hrts) & Hm & Hlt). split; [done|]. split; [done|]. split; [by apply gap_before_place|].
  simpl. destruct (place_lt (hi p) (lo rt)); [|done]. unfold from_to. by rewrite filter_cons_True.
Qed.

(** The first range tombstone that stays. *)
Lemma flush_stays lower m u prev rt rts :
  position_ok types u -> flushed m (flush_place u) prev (rt :: rts) -> same_lower lower m (rt :: rts) ->
  place_lt (hi rt) (flush_place u) = false ->
  gap_before types prev (rt_position rt) ++
    (if bool_decide (position_tri_compare types (rt_position rt) u = Lt) then change_at_start types lower rt else []) =
    from_to m (flush_place u) (changes_after prev (rt :: rts)) /\
  forall t, (prev = None -> t = no_tombstone) ->
    last_tombstone t (changes_before (flush_place u) (changes_after prev (rt :: rts))) =
    last_tombstone no_tombstone (changes_before (flush_place u) (bounds_of (rt :: rts))).
Proof using Htypes.
  intros Hu Hprev [Hlower Hrts] Hhi. apply Forall_cons in Hrts as [[Hlo _] _].
  destruct (gap_flushed _ _ _ _ _ Hprev) as (Hrt & Hcan & Hgap & Hfrom).
  assert (is_after_all_clustered_rows u = false) as Ha.
  { destruct (is_after_all_clustered_rows u) eqn:Ha; [|done]. unfold flush_place in Hhi. rewrite Ha in Hhi.
    by rewrite hi_beyond in Hhi. }
  rewrite before_flush_place by (try done; by apply rt_clustered). change (position_place (rt_position rt)) with (lo rt).
  rewrite (change_at_start_place lower m) by done. rewrite Hgap, gap_cons. cbn [bounds_of]. fold (changes_after (Some rt) rts).
  change (ending rt rts ++ bounds_of rts) with (changes_after (Some rt) rts).
  assert (Forall (fun c => place_lt (change_place c) (flush_place u) = false) (changes_after (Some rt) rts)) as Hafter.
  { apply Forall_forall. intros c Hc. pose proof (after_from _ _ _ Hcan Hc). places [change_place c; hi rt; flush_place u]. }
  assert (changes_before (flush_place u) (changes_after (Some rt) rts) = [] /\ from_to m (flush_place u) (changes_after (Some rt) rts) = []) as [Hb Hf].
  { split; apply list_filter_none; (eapply Forall_impl; [exact Hafter|]); intros c Hc; cbv beta in *; rewrite Hc; [done|by intros [_ ?]]. }
  split.
  - unfold from_to in *. rewrite filter_app, Hfrom, filter_cons. change (change_place (start_change rt)) with (lo rt).
    rewrite Hf. destruct (place_lt (lo rt) (flush_place u)), (place_lt (lo rt) m); by simpl.
  - intros t Ht. unfold changes_before in *. rewrite filter_app, !filter_cons, Hb, last_tombstone_app. change (change_place (start_change rt)) with (lo rt).
    destruct (place_lt (lo rt) (flush_place u)) eqn:Hlt; simpl; [done|]. destruct prev as [p|]; simpl; [|by apply Ht].
    destruct Hprev as (_ & _ & _ & Hp). assert (place_lt (hi p) (lo rt) = true) as -> by (places [hi p; lo rt; flush_place u]).
    by rewrite filter_cons_True.
Qed.

Lemma flush_loop_spec lower m u prev es :
  position_ok types u -> flushed m (flush_place u) prev es.*2 -> same_lower lower m es.*2 ->
  let '(cs, prev', es') := flush_loop types lower u prev es in
  cs ++ closing_changes prev' es' ++ overlapping_change lower u es' = from_to m (flush_place u) (changes_after prev es.*2) /\
  (exists popped, es = popped ++ es' /\ Forall (fun e => place_lt (hi e.2) (flush_place u) = true) popped) /\
  Forall (fun e => place_lt (hi e.2) (flush_place u) = false) es' /\
  forall t, (prev = None -> t = no_tombstone) ->
    last_tombstone t (changes_before (flush_place u) (changes_after prev es.*2)) = last_tombstone no_tombstone (changes_before (flush_place u) (bounds_of es'.*2)).
Proof using Htypes.
  intros Hu. revert prev. induction es as [|e es IH]; intros prev Hprev Hlower; cbn [flush_loop].
  - split; [|split; [by exists []|split; [done|]]].
    + destruct prev as [p|]; [|done]. destruct Hprev as (_ & _ & Hm & Hlt). simpl. unfold changes_after, from_to. simpl.
      rewrite filter_cons_True; [done|]. by split.
    + intros t Ht. destruct prev as [p|]; [|by rewrite Ht]. destruct Hprev as (_ & _ & _ & Hlt). unfold changes_after, changes_before. simpl.
      by rewrite filter_cons_True.
  - destruct (gap_flushed _ _ _ e.2 es.*2 Hprev) as (Hrt & Hcan & Hgap & Hfrom). rewrite should_flush_place by (try done; by apply rt_clustered).
    change (position_place (rt_end_position e.2)) with (hi e.2). destruct (place_lt (hi e.2) (flush_place u)) eqn:Hhi.
    + destruct Hlower as [Hlower [[Hlo Hm] Hes]%Forall_cons]. specialize (IH (Some e.2)). destruct (flush_loop _ _ _ _ _) as [[cs prev'] es'].
      destruct IH as (Hcs & (popped & -> & Hpopped) & Hes' & Hlast); [by split_and!|by split|].
      split; [|split; [exists (e :: popped); split; [done|by constructor]|split; [done|]]].
      * cbn [fmap list_fmap]. rewrite gap_cons. unfold from_to in *. rewrite filter_app, Hfrom, filter_cons, <- Hcs.
        rewrite Hgap, (change_at_start_place lower m) by done. change (change_place (start_change e.2)) with (lo e.2).
        destruct Hrt as [_ Hrt]. assert (place_lt (lo e.2) (flush_place u) = true) as -> by (places [lo e.2; hi e.2; flush_place u]).
        rewrite <- !app_assoc. destruct (place_lt (lo e.2) m); simpl; [|done]. done.
      * intros t Ht. cbn [fmap list_fmap]. rewrite gap_cons. unfold changes_before in *.
        rewrite filter_app, filter_cons, last_tombstone_app. destruct (decide _); [|by apply Hlast]. simpl. by apply Hlast.
    + destruct (flush_stays lower m u prev e.2 es.*2) as [Hcs Hlast]; [done..|].
      split; [by destruct prev|]. split; [by exists []|]. split; [|exact Hlast].
      constructor; [done|]. apply Forall_forall. intros e' He'.
      pose proof (canonical_ends _ _ _ _ Hcan (list_elem_of_fmap_2 snd _ _ He')).
      places [hi e.2; hi e'.2; flush_place u].
Qed.
(** * The invariant of a generator *)

(** The newest of the range tombstones that cover a place. *)
Definition newest_at (seen : list range_tombstone) (x : place) : option tombstone := fold_left omax (contribution types x <$> seen) None.

Lemma newest_at_snoc seen rt x : newest_at (seen ++ [rt]) x = omax (newest_at seen x) (contribution types x rt).
Proof using. unfold newest_at. by rewrite fmap_app, fold_left_app. Qed.

Abbreviation g_values g := (rl_values (g_range_tombstones g)).

(** A generator that was flushed up to [m] and was given [seen], when [a] is the tombstone that
    is active after what it emitted. *)
Record pending (g : range_tombstone_change_generator V) (m : place) (seen : list range_tombstone) (a : tombstone) : Prop := {
  pending_list : rl_ok (g_range_tombstones g);
  pending_lower : position_ok types (g_lower_bound g);
  pending_same : general_place (g_lower_bound g) = m \/
    place_lt m (general_place (g_lower_bound g)) = false /\ forall x, place_lt x m = true -> covering (g_values g) x = None;
  pending_ends : Forall (fun rt => place_lt (hi rt) m = false) (g_values g);
  pending_cover : forall x, place_lt x m = false -> covering (g_values g) x = newest_at seen x;
  pending_active : a = last_tombstone no_tombstone (changes_before m (bounds_of (g_values g)));
}.

Lemma covering_elem p l rt x : canonical p l -> rt ∈ l -> covers types rt x = true -> covering l x = Some (rt_tomb rt).
Proof using Htypes.
  revert p. induction l as [|r l IH]; intros p; [by intros _ ?%elem_of_nil|]. intros Hl Hin Hx. cbn [covering].
  apply elem_of_cons in Hin as [->|Hin]; [by rewrite Hx|]. destruct Hl as ([_ Hok] & _ & Hl).
  assert (covers types r x = false) as ->; [|by eapply IH].
  destruct (covers types r x) eqn:Hr; [|done]. apply andb_true_iff in Hr as [_ Hr].
  pose proof (covering_before types _ _ _ _ Hl Hr) as Hnone. rewrite (covering_none types) in Hnone.
  rewrite Forall_forall in Hnone. by rewrite Hnone in Hx.
Qed.

Lemma covering_some l x t : covering l x = Some t -> exists rt, rt ∈ l /\ covers types rt x = true /\ rt_tomb rt = t.
Proof using.
  induction l as [|r l IH]; [done|]. cbn [covering]. destruct (covers types r x) eqn:Hr.
  - intros [= <-]. exists r. split; [left|done].
  - intros (rt & ? & ?)%IH. exists rt. split; [by right|done].
Qed.

(** Where a range tombstone ends, another one is active. *)
Lemma covering_end p l rt : canonical p l -> rt ∈ l -> covering l (hi rt) <> Some (rt_tomb rt).
Proof using Htypes.
  revert p. induction l as [|r l IH]; intros p; [by intros _ ?%elem_of_nil|]. intros ([_ Hok] & _ & Hl) Hin. cbn [covering].
  apply elem_of_cons in Hin as [->|Hin].
  - unfold covers, between. replace (place_lt (hi r) (hi r)) with false by (places [hi r]). rewrite andb_false_r.
    destruct l as [|r' l]; [done|]. pose proof Hl as ([_ Hok'] & [Hf Hne] & _).
    destruct (place_lt (hi r) (lo r')) eqn:Hgap; [by rewrite (covering_before_first _ _ _ _ Hl Hgap)|].
    cbn [covering]. unfold covers, between. rewrite Hgap. simpl.
    assert (place_lt (hi r) (hi r') = true) as -> by (places [hi r; lo r'; hi r']). intros [= Heq]. apply Hne; [|done].
    places [hi r; lo r'].
  - assert (covers types r (hi rt) = false) as ->; [|by eapply IH]. unfold covers, between.
    by rewrite (canonical_ends _ _ _ _ Hl Hin), andb_false_r.
Qed.

Lemma pending_same_lower g m seen a : pending g m seen a -> same_lower (g_lower_bound g) m (g_values g).
Proof using Htypes.
  intros [[Hl _] Hlower Hsame Hends _ _]. split; [done|]. rewrite Forall_forall in *. intros rt Hrt. split; [|by apply Hends].
  destruct Hsame as [->|[Hle Hnone]]; [done|].
  assert (rt_ok types rt) as Hok by (apply (canonical_ordered types) in Hl; by eapply ordered_wf).
  assert (place_lt (lo rt) m = false) as Hm.
  { destruct (place_lt (lo rt) m) eqn:Hm; [|done]. specialize (Hnone _ Hm).
    by rewrite (covering_elem None _ rt) in Hnone by (try done; by apply covers_lo). }
  rewrite Hm. places [lo rt; m; general_place (g_lower_bound g)].
Qed.

Lemma consume_ends (l l' : list range_tombstone) m :
  canonical None l -> canonical None l' -> Forall (fun rt => place_lt (hi rt) m = false) l ->
  (forall x, place_lt x m = true -> covering l' x = covering l x) -> Forall (fun rt => place_lt (hi rt) m = false) l'.
Proof using Htypes.
  intros Hl Hl' Hends Hsame. rewrite Forall_forall in *. intros rt Hrt. destruct (place_lt (hi rt) m) eqn:Hm; [|done]. exfalso.
  assert (rt_ok types rt) as Hok by (apply (canonical_ordered types) in Hl'; by eapply ordered_wf). pose proof Hok as [_ Hlt].
  assert (covering l (lo rt) = Some (rt_tomb rt)) as (r & Hr & Hcov & Ht)%covering_some.
  { rewrite <- Hsame by (places [lo rt; hi rt; m]). by apply (covering_elem None); [..|apply covers_lo]. }
  apply (covering_end None l' rt); [done..|]. rewrite Hsame by done. rewrite <- Ht. apply (covering_elem None); [done..|].
  specialize (Hends _ Hr). unfold covers, between in *. apply andb_true_iff in Hcov as [H1%negb_true_iff H2].
  apply andb_true_iff. rewrite negb_true_iff. split; places [lo rt; hi rt; lo r; hi r; m].
Qed.

(** A range tombstone that begins at or after [m]. *)
Lemma pending_consume g m seen a rt :
  pending g m seen a -> rt_wf types rt -> place_lt (lo rt) m = false ->
  exists g', generator_consume types g rt = Ret g' /\ pending g' m (seen ++ [rt]) a.
Proof using Htypes.
  intros [Hl Hlower Hsame Hends Hcover Hactive] Hrt Hm. unfold generator_consume.
  destruct (rl_apply_spec types (g_range_tombstones g) rt Hl Hrt) as (l' & -> & Hl' & Hcov).
  assert (forall x, place_lt x m = true -> covering (rl_values l') x = covering (g_values g) x) as Hbelow.
  { intros x Hx. rewrite Hcov. unfold contribution, covers, between.
    assert (place_lt x (lo rt) = true) as -> by (places [x; m; lo rt]). simpl. by destruct (covering _ _). }
  eexists. split; [done|]. split; simpl; try done.
  - destruct Hsame as [|[Hle Hnone]]; [by left|]. right. split; [done|]. intros x Hx. rewrite Hbelow by done. by apply Hnone.
  - apply (consume_ends (g_values g)); [apply Hl|apply Hl'|done|done].
  - intros x Hx. by rewrite Hcov, newest_at_snoc, Hcover.
  - rewrite Hactive. destruct Hl as [Hl _], Hl' as [Hl' _].
    apply (last_before_ext None None); [by apply (bounds_rising_none None)..|]. intros x Hx.
    by rewrite !(active_at_bounds None), Hbelow.
Qed.

Lemma rl_ok_suffix (a b : list (entry V)) n : rl_ok (RangeTombstoneList (a ++ b) n) -> rl_ok (RangeTombstoneList b n).
Proof using.
  unfold RangeTombstonesTheory.rl_ok, rl_values, ids_ok. cbn [rl_tombstones rl_next]. rewrite !fmap_app. intros (Hcan & Hnd & Hlt).
  apply canonical_app in Hcan as [_ Hcan]. split; [by eapply canonical_none|]. split; [by apply NoDup_app in Hnd as (_ & _ & ?)|].
  by apply Forall_app in Hlt as [_ ?].
Qed.

Lemma generator_flush_parts g u cs prev es :
  rl_tombstones (g_range_tombstones g) <> [] ->
  flush_loop types (g_lower_bound g) u None (rl_tombstones (g_range_tombstones g)) = (cs, prev, es) ->
  generator_flush types g u false =
    (cs ++ closing_changes prev es ++ overlapping_change (g_lower_bound g) u es,
     Generator (RangeTombstoneList es (rl_next (g_range_tombstones g))) u).
Proof using.
  intros Hne Heq. unfold generator_flush. destruct (rl_tombstones (g_range_tombstones g)) as [|e0 es0] eqn:Hes; [done|].
  rewrite Heq. f_equal. do 2 f_equal. destruct es; by rewrite ?app_nil_r.
Qed.

(** Flushing gives what the range tombstones mean between [m] and the bound. *)
Lemma pending_flush g m seen a u :
  pending g m seen a -> position_ok types u -> place_lt (flush_place u) m = false ->
  let '(cs, g') := generator_flush types g u false in
  pending g' (flush_place u) seen (last_tombstone a cs) /\ rising None cs /\
  (forall c, c ∈ cs -> place_lt (change_place c) m = false /\ place_lt (change_place c) (flush_place u) = true /\ at_bound c) /\
  forall x, place_lt x m = false -> place_lt x (flush_place u) = true -> active_at a cs x = default no_tombstone (newest_at seen x).
Proof using Htypes.
  intros Hp Hu Hmu. pose proof (pending_same_lower _ _ _ _ Hp) as Hlower. destruct Hp as [Hl Hlow Hsame Hends Hcover Hactive].
  destruct (decide (rl_tombstones (g_range_tombstones g) = [])) as [Hnil|Hne].
  { unfold generator_flush. rewrite Hnil. unfold rl_values in *. rewrite Hnil in *. simpl in *.
    split; [|split; [done|split; [by intros ? ?%elem_of_nil|]]].
    - split; unfold rl_values; rewrite ?Hnil; simpl; try done.
      + right. split; [|done]. destruct Hsame as [Hs|[Hs _]]; [subst m; done|].
        places [m; flush_place u; general_place (g_lower_bound g)].
      + intros x Hx. rewrite <- Hcover; [done|]. places [x; m; flush_place u].
    - intros x Hx _. rewrite <- Hcover by done. by rewrite Hactive. }
  pose proof (flush_loop_spec (g_lower_bound g) m u None (rl_tombstones (g_range_tombstones g)) Hu (proj1 Hl) Hlower) as Hloop.
  destruct (flush_loop _ _ _ _ _) as [[cs prev] es] eqn:Heq. rewrite (generator_flush_parts g u cs prev es) by done.
  destruct Hloop as (Hcs & (popped & Hes & Hpopped) & Hes' & Hlast). rewrite Hcs. change (changes_after None ?rts) with (bounds_of rts) in *.
  pose proof (bounds_rising_none None _ (proj1 Hl)) as Hrising. unfold rl_values in *.
  split; [|split; [by apply rising_filter|split]].
  - assert (rl_ok (RangeTombstoneList es (rl_next (g_range_tombstones g)))) as Hok.
    { apply (rl_ok_suffix popped). rewrite <- Hes. by destruct (g_range_tombstones g). }
    split; cbn [g_range_tombstones g_lower_bound]; unfold rl_values; cbn [rl_tombstones]; try done.
    + unfold flush_place in *. destruct (is_after_all_clustered_rows u); [right|by left].
      assert (es = []) as ->; [|split; [|done]].
      * destruct es as [|e es]; [done|]. apply Forall_cons in Hes' as [He _].
        by rewrite hi_beyond in He.
      * unfold place_ltb, general_place, place_compare, beyond, nowhere. rewrite !place_tri_compare_eq. destruct (p_type u); simpl; try done.
        pose proof (proj2 (place_beyond u)) as Hb. unfold place_compare, beyond in Hb. rewrite place_tri_compare_eq in Hb. simpl in Hb. by rewrite Hb.
    + by apply Forall_fmap.
    + intros x Hx. rewrite <- Hcover by (places [x; m; flush_place u]). rewrite Hes, fmap_app, covering_app.
      assert (covering popped.*2 x = None) as ->; [|done]. apply covering_none, Forall_fmap. eapply Forall_impl; [exact Hpopped|].
      intros e He. cbv beta in He. simpl. unfold covers, between. destruct (place_lt x (hi e.2)) eqn:Hxe; [|by rewrite andb_false_r].
      places [x; hi e.2; flush_place u].
    + rewrite <- (Hlast no_tombstone) by done. rewrite (changes_before_split None m) by done. by rewrite last_tombstone_app, Hactive.
  - intros c [[? ?] Hc]%list_elem_of_filter. split_and!; try done. pose proof (bounds_at_bound _ (canonical_oks _ _ (proj1 Hl))) as Hb.
    rewrite Forall_forall in Hb. by apply Hb.
  - intros x Hx Hxu. rewrite Hactive, <- (active_at_from_to m (flush_place u) None) by done.
    by rewrite (active_at_bounds None), Hcover by (try done; apply Hl).
Qed.

(** * Trimming a generator *)

Lemma bounds_from p rt rts c : canonical p (rt :: rts) -> c ∈ bounds_of (rt :: rts) -> place_lt (change_place c) (lo rt) = false.
Proof using Htypes.
  intros Hrts Hc. destruct (place_lt (change_place c) (lo rt)) eqn:Hlt; [|done].
  pose proof (rising_after _ _ _ (bounds_rising _ _ _ _ Hrts Hlt) Hc). places [change_place c; lo rt].
Qed.

(** A list that begins at or after [m] is pending there. *)
Lemma pending_begin es n lower m seen :
  rl_ok (RangeTombstoneList es n) -> position_ok types lower -> general_place lower = m ->
  match es with e :: _ => place_lt (lo e.2) m = false | [] => True end ->
  (forall x, place_lt x m = false -> covering es.*2 x = newest_at seen x) ->
  pending (Generator (RangeTombstoneList es n) lower) m seen no_tombstone.
Proof using Htypes.
  intros Hl Hlower Hm Hfirst Hcover. split; simpl; try done; [by left|..]; unfold rl_values in *; simpl.
  - destruct es as [|e es]; [done|]. destruct Hl as [([_ Hok] & _ & Hes) _]. cbn [fmap list_fmap]. constructor; [places [lo e.2; hi e.2; m]|].
    apply Forall_forall. intros rt Hrt. pose proof (canonical_ends _ _ _ _ Hes Hrt). places [lo e.2; hi e.2; hi rt; m].
  - assert (changes_before m (bounds_of es.*2) = []) as ->; [|done]. apply list_filter_none, Forall_forall. intros c Hc Hlt.
    destruct es as [|e es]; [by apply elem_of_nil in Hc|]. destruct Hl as [Hl _].
    pose proof (bounds_from _ _ _ _ Hl Hc). places [lo e.2; m; change_place c].
Qed.

Lemma drop_before_spec l es :
  position_ok types l -> Forall (fun e => rt_ok types e.2) es ->
  exists dropped, es = dropped ++ drop_before types l es /\ Forall (fun e => place_lt (general_place l) (hi e.2) = false) dropped /\
  match drop_before types l es with e :: _ => place_lt (general_place l) (hi e.2) = true | [] => True end.
Proof using.
  intros Hl. induction 1 as [|e es He _ IH]; [by exists []|]. cbn [drop_before]. unfold position_less.
  rewrite lt_clustered_r by (try done; by apply rt_clustered). change (position_place (rt_end_position e.2)) with (hi e.2).
  destruct (place_lt (general_place l) (hi e.2)) eqn:Hlt; simpl; [by exists []|].
  destruct IH as (dropped & Hes & Hdropped & Hfirst). exists (e :: dropped). split; [by rewrite Hes at 1|]. split; [by constructor|done].
Qed.

(** The lower bound after [trim], and the place it has. *)
Definition trim_lower (l : position) : position :=
  if is_clustering_row l then match p_ck l with Some ck => before_key ck | None => l end else l.

Lemma trim_lower_ok l : position_ok types l -> position_ok types (trim_lower l).
Proof using.
  unfold trim_lower, position_ok. intros Hl. destruct (is_clustering_row l); [|done]. destruct (p_ck l) as [ck|] eqn:Hck; simpl; [|by rewrite Hck].
  split; [done|apply Hl].
Qed.

(** A bound is after a row if and only if it is after the position before the row. *)
Lemma trim_lower_hi l rt :
  position_ok types l -> place_lt (general_place l) (hi rt) = place_lt (general_place (trim_lower l)) (hi rt).
Proof using.
  intros Hl. unfold trim_lower, is_clustering_row. destruct (decide (p_type l = clustered)) as [Ht|]; [|by rewrite bool_decide_eq_false_2].
  rewrite bool_decide_eq_true_2 by done. destruct (decide (p_weight l = equal)) as [Hw|]; [|by rewrite bool_decide_eq_false_2].
  rewrite bool_decide_eq_true_2 by done. simpl. destruct (p_ck l) as [ck|] eqn:Hck; [|done].
  unfold general_place, position_place. rewrite Ht, Hck, Hw. unfold place_ltb, place_compare, hi, bound_place, before_key. simpl.
  destruct (place_weights types ck (rt_end rt)) as [He|Hne].
  - rewrite !He. by destruct (rt_end_kind rt).
  - by rewrite (proj2 (Hne 0 _) (-1) (bound_weight_value (position_weight (rt_end_kind rt)))).
Qed.

Lemma trim_lower_bound l rt :
  position_ok types l -> rt_ok types rt ->
  place_lt (lo rt) (general_place (trim_lower l)) = true -> place_lt (general_place (trim_lower l)) (hi rt) = true ->
  bound_position types (trim_lower l) /\ general_place (trim_lower l) = position_place (trim_lower l).
Proof using.
  intros Hl Hrt Hlo Hhi. assert (p_type (trim_lower l) = clustered) as Ht by (by eapply inside_clustered).
  split; [|unfold general_place; by rewrite Ht]. pose proof (trim_lower_ok l Hl) as Hok. unfold position_ok in Hok.
  destruct (p_ck (trim_lower l)) as [ck|] eqn:Hck; [|done]. exists ck. split; [done|]. split; [|split; [done|apply Hok]].
  unfold trim_lower in *. destruct (is_clustering_row l) eqn:Hrow.
  - destruct (p_ck l) eqn:Hckl; [done|]. unfold position_ok in Hl. rewrite Hckl in Hl. done.
  - unfold is_clustering_row in Hrow. rewrite Ht, bool_decide_eq_true_2 in Hrow by done. by apply bool_decide_eq_false in Hrow.
Qed.

Lemma set_start_spec rt pos :
  rt_wf types rt -> bound_position types pos ->
  exists rt', set_start (E := Empty_set) rt pos = Ret rt' /\ rt_wf types rt' /\ lo rt' = position_place pos /\ hi rt' = hi rt /\ rt_tomb rt' = rt_tomb rt.
Proof using.
  intros (Hs & He & _ & Hel) (ck & _ & Hw & Hck & Hl). unfold set_start, as_start_bound_view, position_place. rewrite Hck.
  rewrite bool_decide_eq_false_2 by done. simpl. eexists. split; [done|]. unfold rt_wf, lo, hi, bound_place, start_bound, end_bound. simpl.
  by destruct (p_weight pos).
Qed.

Lemma generator_trim_eq g l :
  position_ok types l ->
  generator_trim types g l =
    match drop_before types l (rl_tombstones (g_range_tombstones g)) with
    | [] => Ret (Generator (RangeTombstoneList [] (rl_next (g_range_tombstones g))) (trim_lower l))
    | e :: rest =>
      rt ← (if position_less types (rt_position e.2) (trim_lower l) then set_start e.2 (trim_lower l) else Ret e.2);
      Ret (Generator (RangeTombstoneList ((e.1, rt) :: rest) (rl_next (g_range_tombstones g))) (trim_lower l))
    end.
Proof using.
  intros Hl. unfold generator_trim, trim_lower. destruct (is_clustering_row l) eqn:Hrow; [|done].
  unfold position_ok in Hl. destruct (p_ck l) as [ck|]; [done|]. unfold is_clustering_row in Hrow. by rewrite bool_decide_eq_false_2 in Hrow.
Qed.

(** After [trim] a generator is ready for the rows from the new lower bound on. *)
Lemma pending_trim g m seen l :
  rl_ok (g_range_tombstones g) -> (forall x, place_lt x m = false -> covering (g_values g) x = newest_at seen x) ->
  position_ok types l -> place_lt (general_place (trim_lower l)) m = false ->
  exists g', generator_trim types g l = Ret g' /\ pending g' (general_place (trim_lower l)) seen no_tombstone.
Proof using Htypes.
  intros Hl Hcover Hpos Hm. rewrite generator_trim_eq by done. pose proof (trim_lower_ok l Hpos) as Hlower.
  assert (Forall (fun e => rt_ok types e.2) (rl_tombstones (g_range_tombstones g))) as Hoks.
  { apply Forall_forall. intros e He. destruct Hl as [Hl _]. apply (canonical_ordered types) in Hl.
    eapply ordered_wf; [exact Hl|]. by apply (list_elem_of_fmap_2 snd). }
  destruct (drop_before_spec l _ Hpos Hoks) as (dropped & Hes & Hdropped & Hfirst). unfold rl_values in Hcover.
  assert (rl_ok (RangeTombstoneList (drop_before types l (rl_tombstones (g_range_tombstones g))) (rl_next (g_range_tombstones g)))) as Hok.
  { apply (rl_ok_suffix dropped). rewrite <- Hes. by destruct (g_range_tombstones g). }
  assert (forall x, place_lt x (general_place (trim_lower l)) = false ->
    covering (drop_before types l (rl_tombstones (g_range_tombstones g))).*2 x = newest_at seen x) as Hcov.
  { intros x Hx. rewrite <- Hcover by (places [x; m; general_place (trim_lower l)]). rewrite Hes at 2. rewrite fmap_app, covering_app.
    assert (covering dropped.*2 x = None) as ->; [|done]. apply covering_none, Forall_fmap. eapply Forall_impl; [exact Hdropped|].
    intros e He. cbv beta in He. rewrite trim_lower_hi in He by done. simpl. unfold covers, between.
    destruct (place_lt x (hi e.2)) eqn:Hxe; [|by rewrite andb_false_r]. places [x; hi e.2; general_place (trim_lower l)]. }
  rewrite Hes in Hoks. apply Forall_app in Hoks as [_ Hoks].
  destruct (drop_before types l (rl_tombstones (g_range_tombstones g))) as [|e es]; [eexists; split; [done|by apply pending_begin]|].
  apply Forall_cons in Hoks as [He _]. rewrite trim_lower_hi in Hfirst by done. unfold position_less.
  rewrite lt_clustered by (try done; by apply rt_clustered). change (position_place (rt_position e.2)) with (lo e.2).
  destruct (place_lt (lo e.2) (general_place (trim_lower l))) eqn:Hlo.
  - destruct (trim_lower_bound l e.2) as [Hb Hgp]; [done..|].
    destruct (set_start_spec e.2 (trim_lower l)) as (rt & -> & Hwf & Hrlo & Hrhi & Hrt); [apply He|done|].
    rewrite <- Hgp in Hrlo. eexists. split; [done|]. apply pending_begin; [|done|done|simpl; rewrite Hrlo; places [general_place (trim_lower l)]|].
    + destruct Hok as [(Hok & _ & Hrest) Hids]. split; [|exact Hids]. unfold rl_values in *. cbn [rl_tombstones fmap list_fmap canonical] in *.
      split; [split; [done|simpl; by rewrite Hrlo, Hrhi]|]. split; [done|]. simpl. by rewrite Hrhi, Hrt.
    + intros x Hx. rewrite <- Hcov by done. cbn [fmap list_fmap covering]. unfold covers, between. simpl. rewrite Hrlo, Hrhi, Hrt, Hx.
      assert (place_lt x (lo e.2) = false) as -> by (places [x; lo e.2; general_place (trim_lower l)]). done.
  - eexists. split; [done|]. destruct e. by apply pending_begin.
Qed.

(** * The upgrading consumer *)

Context {D St R : Type}.
Abbreviation fragment := (mutation_fragment V D St R).
Abbreviation fragment_v2 := (mutation_fragment_v2 V D St R).
Abbreviation consumer := (upgrading_consumer V).

(** What a reader of the second form sees: the changes, and every row with the tombstone that is
    active at it. *)
Definition changes_of (out : list fragment_v2) : list change :=
  omap (fun f => match f with range_tombstone_change_v2 c => Some c | _ => None end) out.
Fixpoint rows_read (t : tombstone) (out : list fragment_v2) : list (list V * R * tombstone) :=
  match out with
  | [] => []
  | range_tombstone_change_v2 c :: out => rows_read (rtc_tombstone c) out
  | clustering_row_v2 ck r :: out => (ck, r, t) :: rows_read t out
  | _ :: out => rows_read t out
  end.

(** What a stream of the first form has. *)
Definition tombstones_of (fs : list fragment) : list range_tombstone :=
  omap (fun f => match f with range_tombstone_fragment rt => Some rt | _ => None end) fs.
Definition rows_expected (seen : list range_tombstone) (fs : list fragment) : list (list V * R * tombstone) :=
  omap (fun f => match f with
    | clustering_row_fragment ck r => Some (ck, r, default no_tombstone (newest_at seen (key_place ck)))
    | _ => None end) fs.

Definition fragment_place (f : fragment_v2) : option place :=
  match f with
  | range_tombstone_change_v2 c => Some (change_place c)
  | clustering_row_v2 ck _ => Some (key_place ck)
  | _ => None
  end.
(** Rows and changes are at places that grow strictly. *)
Definition places_rise (out : list fragment_v2) : Prop :=
  StronglySorted (fun a b => place_lt a b = true) (omap fragment_place out).

(** The place from which a range tombstone counts in a range that begins at [s]. *)
Definition counts_from (s : place) (rt : range_tombstone) : place := if place_lt (lo rt) s then s else lo rt.

(** The fragments of a range that begins at [s], in order from [m] on. *)
Fixpoint in_order (s m : place) (fs : list fragment) : Prop :=
  match fs with
  | [] => True
  | clustering_row_fragment ck _ :: fs =>
    (length ck <= length types)%nat /\ place_lt m (key_place ck) = true /\ in_order s (key_place ck) fs
  | range_tombstone_fragment rt :: fs =>
    rt_ok types rt /\
    if place_lt s (hi rt) then place_lt (counts_from s rt) m = false /\ in_order s (counts_from s rt) fs
    else in_order s m fs
  | static_row_fragment _ :: fs => in_order s m fs
  | _ => False
  end.

(** The place of the last of them. *)
Fixpoint end_place (s m : place) (fs : list fragment) : place :=
  match fs with
  | [] => m
  | clustering_row_fragment ck _ :: fs => end_place s (key_place ck) fs
  | range_tombstone_fragment rt :: fs => end_place s (if place_lt s (hi rt) then counts_from s rt else m) fs
  | _ :: fs => end_place s m fs
  end.

(** The beginning of the range that the consumer was set to. *)
Definition range_start (u : consumer) : option position := pr_start <$> uc_pr u.
Definition start_place (u : consumer) : place := match range_start u with Some p => general_place p | None => nowhere end.
(** It is not the position of a row. *)
Definition start_ok (u : consumer) : Prop :=
  match range_start u with Some p => position_ok types p /\ is_clustering_row p = false | None => True end.

Lemma trim_front_spec rt (p : position) :
  rt_wf types rt -> position_ok types p -> is_clustering_row p = false ->
  exists rt', rt_trim_front (E := Empty_set) types rt p = Ret (place_lt (general_place p) (hi rt), rt') /\
  (place_lt (general_place p) (hi rt) = true -> rt_wf types rt' /\
    lo rt' = (if place_lt (lo rt) (general_place p) then general_place p else lo rt) /\ hi rt' = hi rt /\ rt_tomb rt' = rt_tomb rt).
Proof using.
  intros Hrt Hp Hrow. pose proof (rt_positions types rt Hrt) as [Hs%bound_is_clustered He%bound_is_clustered].
  unfold rt_trim_front, position_less. rewrite lt_clustered_r, lt_clustered by done.
  change (position_place (rt_end_position rt)) with (hi rt). change (position_place (rt_position rt)) with (lo rt).
  destruct (place_lt (general_place p) (hi rt)) eqn:Hhi; simpl; [|by exists rt].
  destruct (place_lt (lo rt) (general_place p)) eqn:Hlo; [|by exists rt].
  assert (p_type p = clustered) as Ht by (by eapply inside_clustered).
  assert (bound_position types p) as Hb.
  { unfold position_ok in Hp. destruct (p_ck p) as [ck|] eqn:Hck; [|done]. exists ck. split; [done|]. split; [|split; [done|apply Hp]].
    unfold is_clustering_row in Hrow. rewrite bool_decide_eq_true_2 in Hrow by done. by apply bool_decide_eq_false in Hrow. }
  destruct (set_start_spec rt p Hrt Hb) as (rt' & -> & Hwf & Hlo' & Hhi' & Htomb). exists rt'. split; [done|]. intros _.
  by rewrite general_clustered by (by apply bound_is_clustered).
Qed.

Fixpoint upgrade_all (u : consumer) (fs : list fragment) : outcome Empty_set (list fragment_v2 * consumer) :=
  match fs with
  | [] => Ret ([], u)
  | f :: fs =>
    '(out, u) ← upgrading_consume types u f;
    '(out', u) ← upgrade_all u fs;
    Ret (out ++ out', u)
  end.

Definition at_most (m : place) (f : fragment_v2) : Prop :=
  match f with
  | range_tombstone_change_v2 c => place_lt (change_place c) m = true
  | clustering_row_v2 ck _ => place_lt m (key_place ck) = false
  | _ => True
  end.
Definition at_least (m : place) (f : fragment_v2) : Prop :=
  match f with
  | range_tombstone_change_v2 c => place_lt (change_place c) m = false /\ at_bound c
  | clustering_row_v2 ck _ => place_lt m (key_place ck) = true
  | _ => True
  end.

Lemma key_not_at_bound c ck : at_bound c -> cmp (key_place ck) (change_place c) <> Eq.
Proof using Htypes.
  intros [b ->]%at_bound_place Heq. apply (bound_place_not_key types b ck). rewrite (cmp_sym cmp). by rewrite Heq.
Qed.

Lemma most_least m f f' p q :
  at_most m f -> at_least m f' -> fragment_place f = Some p -> fragment_place f' = Some q -> place_lt p q = true.
Proof using Htypes.
  destruct f as [| |ck r|c|], f' as [| |ck' r'|c'|]; simpl; try done; intros H1 H2 [= <-] [= <-].
  - places [m; key_place ck; key_place ck'].
  - destruct H2 as [H2 Hb]. pose proof (key_not_at_bound c' ck Hb). places [m; key_place ck; change_place c'].
  - places [m; change_place c; key_place ck'].
  - destruct H2 as [H2 _]. places [m; change_place c; change_place c'].
Qed.

Lemma at_most_weaken m n f : place_lt n m = false -> at_most m f -> at_most n f.
Proof using Htypes. intros Hn. destruct f as [| |ck r|c|]; simpl; try done; intros H; [places [m; n; key_place ck]|places [m; n; change_place c]]. Qed.
Lemma at_least_weaken m n f : place_lt m n = false -> at_least m f -> at_least n f.
Proof using Htypes.
  intros Hn. destruct f as [| |ck r|c|]; simpl; try done; [intros H; places [m; n; key_place ck]|].
  intros [H Hb]. split; [|done]. places [m; n; change_place c].
Qed.

(** The consumer emits [out] and goes from [m] to [m']: everything before [m'] is said. *)
Record emits (u : consumer) (m : place) (out : list fragment_v2) (u' : consumer) (m' : place) (seen : list range_tombstone) : Prop := {
  emits_range : uc_pr u' = uc_pr u;
  emits_forward : place_lt m' m = false;
  emits_pending : pending (uc_rt_gen u') m' seen (uc_current_rt u');
  emits_least : Forall (at_least m) out;
  emits_most : Forall (at_most m') out;
  emits_rise : places_rise out;
  emits_last : uc_current_rt u' = last_tombstone (uc_current_rt u) (changes_of out);
  emits_active : forall x, place_lt x m = false -> place_lt x m' = true ->
    active_at (uc_current_rt u) (changes_of out) x = default no_tombstone (newest_at seen x);
}.

Lemma changes_of_elem c out : c ∈ changes_of out -> range_tombstone_change_v2 c ∈ out.
Proof using. unfold changes_of. rewrite list_elem_of_omap. intros (f & Hf & Hc). by destruct f; simplify_eq. Qed.

Lemma emits_compose u m out1 u1 m1 seen1 out2 u2 m2 seen2 :
  emits u m out1 u1 m1 seen1 -> emits u1 m1 out2 u2 m2 seen2 ->
  (forall x, place_lt x m = false -> place_lt x m1 = true -> newest_at seen2 x = newest_at seen1 x) ->
  emits u m (out1 ++ out2) u2 m2 seen2.
Proof using Htypes.
  intros [Hr1 Hf1 Hp1 Hl1 Hm1 Hs1 Ht1 Ha1] [Hr2 Hf2 Hp2 Hl2 Hm2 Hs2 Ht2 Ha2] Hsame. split; try done.
  - by rewrite Hr2.
  - places [m; m1; m2].
  - apply Forall_app. split; [done|]. eapply Forall_impl; [exact Hl2|]. intros f. by apply at_least_weaken.
  - apply Forall_app. split; [|done]. eapply Forall_impl; [exact Hm1|]. intros f. by apply at_most_weaken.
  - unfold places_rise in *. rewrite omap_app. apply StronglySorted_app_2; [|done..]. intros p q (f & Hf & Hfp)%list_elem_of_omap (f' & Hf' & Hfq)%list_elem_of_omap.
    rewrite Forall_forall in Hm1, Hl2. by apply (most_least m1 f f'); [apply Hm1|apply Hl2|..].
  - unfold changes_of. rewrite omap_app. fold (changes_of out1) (changes_of out2). by rewrite last_tombstone_app, <- Ht1.
  - intros x Hx Hx2. unfold changes_of. rewrite omap_app. fold (changes_of out1) (changes_of out2). rewrite Forall_forall in Hm1, Hl2.
    destruct (place_lt x m1) eqn:Hx1.
    + rewrite Hsame, <- Ha1 by done. apply active_at_app_l. intros c Hc%changes_of_elem. specialize (Hl2 _ Hc) as [Hl2 _].
      places [x; m1; change_place c].
    + rewrite <- Ha2, Ht1 by done. apply active_at_app. intros c Hc%changes_of_elem. specialize (Hm1 _ Hc). simpl in Hm1.
      places [x; m1; change_place c].
Qed.

Lemma changes_of_map (cs : list change) : changes_of (range_tombstone_change_v2 <$> cs) = cs.
Proof using. induction cs as [|c cs IH]; [done|]. cbn. by f_equal. Qed.

Lemma rising_places cs p : rising p cs -> places_rise (range_tombstone_change_v2 <$> cs).
Proof using Htypes.
  unfold places_rise. revert p. induction cs as [|c cs IH]; intros p Hcs; [constructor|]. destruct Hcs as [_ Hcs]. cbn.
  constructor; [by eapply IH|]. apply Forall_forall. intros q Hq. change (q ∈ omap fragment_place (range_tombstone_change_v2 <$> cs)) in Hq.
  rewrite list_elem_of_omap in Hq. destruct Hq as (f & Hf & Hfq). apply list_elem_of_fmap in Hf as (d & -> & Hd). simpl in Hfq. simplify_eq.
  by eapply rising_after.
Qed.

(** Flushing the consumer up to a position. *)
Lemma emits_flush u m seen pos :
  pending (uc_rt_gen u) m seen (uc_current_rt u) -> position_ok types pos -> place_lt (flush_place pos) m = false ->
  let '(out, u') := flush_tombstones types u pos false in
  emits u m out u' (flush_place pos) seen /\ exists cs, out = range_tombstone_change_v2 <$> cs.
Proof using Htypes.
  intros Hp Hpos Hm. pose proof (pending_flush _ _ _ _ _ Hp Hpos Hm) as Hflush. unfold flush_tombstones.
  destruct (generator_flush types (uc_rt_gen u) pos false) as [cs g]. destruct Hflush as (Hp' & Hcs & Hin & Hact).
  rewrite app_nil_r. fold (last_tombstone (uc_current_rt u) cs). split.
  - split; simpl; rewrite ?changes_of_map; try done.
    + apply Forall_fmap, Forall_forall. intros c Hc. simpl. destruct (Hin c Hc) as (? & _ & ?). done.
    + apply Forall_fmap, Forall_forall. intros c Hc. simpl. by destruct (Hin c Hc) as (_ & ? & _).
    + by eapply rising_places.
  - by exists cs.
Qed.

Lemma rows_read_changes t cs out : rows_read t ((range_tombstone_change_v2 <$> cs) ++ out) = rows_read (last_tombstone t cs) out.
Proof using. revert t. induction cs as [|c cs IH]; intros t; [done|]. apply IH. Qed.

(** The tombstone that is active at a row to which the generator was flushed. *)
Lemma row_active g ck seen a : pending g (key_place ck) seen a -> a = default no_tombstone (newest_at seen (key_place ck)).
Proof using Htypes.
  intros [[Hl _] _ _ _ Hcover Hactive]. rewrite <- Hcover by (places [key_place ck]). rewrite <- (active_at_bounds None) by done. rewrite Hactive.
  pose proof (bounds_rising_none None _ Hl) as Hr. pose proof (bounds_at_bound _ (canonical_oks _ _ Hl)) as Hb. revert Hr Hb.
  generalize (bounds_of (g_values g)) as cs. intros cs. generalize no_tombstone. generalize (@None place).
  induction cs as [|c cs IH]; intros p t Hr Hb; [done|]. destruct Hr as [_ Hr]. apply Forall_cons in Hb as [Hc Hb]. simpl.
  pose proof (key_not_at_bound c ck Hc). unfold changes_before. rewrite filter_cons. destruct (place_lt (key_place ck) (change_place c)) eqn:Hlt.
  - rewrite decide_False by (intros ?; places [key_place ck; change_place c]). fold (changes_before (key_place ck) cs).
    rewrite (changes_before_nil (key_place ck) (change_place c)); [done|done|]. places [key_place ck; change_place c].
  - rewrite decide_True by (places [key_place ck; change_place c]). simpl. by eapply IH.
Qed.

Lemma flush_place_key ck : flush_place (for_key ck) = key_place ck.
Proof using. unfold flush_place, is_after_all_clustered_rows. simpl. by rewrite andb_false_r. Qed.

Lemma emits_row u m seen ck r :
  pending (uc_rt_gen u) m seen (uc_current_rt u) -> (length ck <= length types)%nat -> place_lt m (key_place ck) = true ->
  exists out u', upgrading_consume types u (clustering_row_fragment ck r) = Ret (out, u') /\
  emits u m out u' (key_place ck) seen /\ rows_read (uc_current_rt u) out = [(ck, r, default no_tombstone (newest_at seen (key_place ck)))].
Proof using Htypes.
  intros Hp Hck Hm. pose proof (emits_flush u m seen (for_key ck) Hp) as Hflush. rewrite flush_place_key in Hflush. cbn [upgrading_consume].
  destruct (flush_tombstones types u (for_key ck) false) as [out u1]. destruct Hflush as [He [cs ->]]; [by split|places [m; key_place ck]|].
  eexists _, _. split; [done|]. pose proof (row_active _ _ _ _ (emits_pending _ _ _ _ _ _ He)) as Hact.
  assert (changes_of ((range_tombstone_change_v2 <$> cs) ++ [clustering_row_v2 ck r]) = cs) as Hcs.
  { unfold changes_of. rewrite omap_app, app_nil_r. apply changes_of_map. }
  destruct He as [Hr Hf Hpend Hl Hmo Hs Ht Ha]. rewrite changes_of_map in Ht, Ha. split.
  - split; rewrite ?Hcs; try done.
    + apply Forall_app. split; [done|]. by repeat constructor.
    + apply Forall_app. split; [done|]. repeat constructor. simpl. places [key_place ck].
    + unfold places_rise in *. rewrite omap_app. apply StronglySorted_app_2; [|done|repeat constructor].
      intros p q (f & Hfin & Hfp)%list_elem_of_omap Hq%list_elem_of_singleton. subst q. rewrite Forall_forall in Hmo. specialize (Hmo _ Hfin).
      apply list_elem_of_fmap in Hfin as (c & -> & _). simpl in Hfp, Hmo. by simplify_eq.
  - rewrite rows_read_changes. simpl. by rewrite <- Ht, Hact.
Qed.

Lemma rt_flush_place rt : rt_ok types rt -> flush_place (rt_position rt) = lo rt.
Proof using Htypes.
  intros Hrt. pose proof (rt_clustered rt Hrt) as [Hs He]. unfold flush_place. destruct (is_after_all_clustered_rows _) eqn:Ha.
  - exfalso. pose proof (after_all_top _ _ Ha (proj1 Hs) He) as Hgt. rewrite cmp_clustered, general_clustered in Hgt by (try done; apply Hs).
    destruct Hrt as [_ Hlt%place_lt_true]. apply Hgt. rewrite (cmp_sym cmp). by rewrite (Hlt : cmp (position_place (rt_position rt)) (position_place (rt_end_position rt)) = Lt).
  - by apply general_clustered.
Qed.

Lemma pending_ext g m seen seen' a :
  pending g m seen a -> (forall x, place_lt x m = false -> newest_at seen' x = newest_at seen x) -> pending g m seen' a.
Proof using. intros [? ? ? ? Hcover ?] Hsame. split; try done. intros x Hx. by rewrite Hcover, Hsame. Qed.

Lemma emits_nothing u m seen : pending (uc_rt_gen u) m seen (uc_current_rt u) -> emits u m [] u m seen.
Proof using Htypes. intros Hp. split; try done; [places [m]|constructor|]. intros x ??. exfalso. places [x; m]. Qed.

Lemma counts_contribution s rt m x :
  place_lt m s = false -> place_lt x m = false -> place_lt x (counts_from s rt) = true -> contribution types x rt = None.
Proof using Htypes.
  unfold counts_from, contribution, covers, between. intros Hs Hm Hx. destruct (place_lt (lo rt) s) eqn:Hlo; [exfalso; places [m; s; x]|].
  by rewrite Hx.
Qed.

Lemma trimmed_spec (u : consumer) rt :
  start_ok u -> rt_ok types rt ->
  exists rt', match uc_pr u with Some pr => rt_trim_front types rt (pr_start pr) | None => Ret (true, rt) end =
    Ret (E := Empty_set) (place_lt (start_place u) (hi rt), rt') /\
  (place_lt (start_place u) (hi rt) = true -> rt_ok types rt' /\ lo rt' = counts_from (start_place u) rt /\
    forall x, place_lt x (start_place u) = false -> contribution types x rt' = contribution types x rt).
Proof using Htypes.
  unfold start_ok, start_place, range_start, counts_from. intros Hu [Hrt Hlt]. destruct (uc_pr u) as [pr|]; simpl in *.
  - destruct Hu as [Hp Hrow]. destruct (trim_front_spec rt (pr_start pr) Hrt Hp Hrow) as (rt' & -> & Htrim). exists rt'. split; [done|].
    intros Hhi. destruct (Htrim Hhi) as (Hwf & Hlo & Hhi' & Ht). split; [split; [done|]; rewrite Hlo, Hhi'; by destruct (place_lt (lo rt) (general_place (pr_start pr)))|].
    split; [done|]. intros x Hx. unfold contribution, covers, between. rewrite Hlo, Hhi', Ht.
    destruct (place_lt (lo rt) (general_place (pr_start pr))) eqn:Hs; [|done].
    rewrite Hx. by assert (place_lt x (lo rt) = false) as -> by (places [x; lo rt; general_place (pr_start pr)]).
  - exists rt. assert (place_lt nowhere (hi rt) = true) as ->.
    { apply place_lt_true, (place_nowhere (rt_end_position rt)). }
    split; [done|]. rewrite lo_nowhere. done.
Qed.

Lemma emits_range_tombstone u m seen rt :
  pending (uc_rt_gen u) m seen (uc_current_rt u) -> start_ok u -> rt_ok types rt -> place_lt m (start_place u) = false ->
  let m' := if place_lt (start_place u) (hi rt) then counts_from (start_place u) rt else m in
  place_lt m' m = false ->
  exists out u', upgrading_consume types u (range_tombstone_fragment rt) = Ret (out, u') /\
  emits u m out u' m' (seen ++ [rt]) /\ exists cs, out = range_tombstone_change_v2 <$> cs.
Proof using Htypes.
  intros Hp Hu Hrt Hs m' Hm. cbn [upgrading_consume]. destruct (trimmed_spec u rt Hu Hrt) as (rt' & -> & Htrim). cbn [mbind outcome_bind].
  subst m'. destruct (place_lt (start_place u) (hi rt)) eqn:Hhi; simpl.
  2: { exists [], u. split; [done|]. split; [|by exists []]. apply emits_nothing. eapply pending_ext; [exact Hp|]. intros x Hx.
       rewrite newest_at_snoc. unfold contribution, covers, between. destruct (place_lt x (hi rt)) eqn:Hxh; [exfalso; places [x; m; hi rt; start_place u]|].
       rewrite andb_false_r. by destruct (newest_at seen x). }
  destruct (Htrim eq_refl) as (Hrt' & Hlo & Hcon). pose proof (emits_flush u m seen (rt_position rt') Hp) as Hflush.
  rewrite (rt_flush_place rt' Hrt'), Hlo in Hflush. destruct (flush_tombstones types u (rt_position rt') false) as [out u1].
  destruct Hflush as [He [cs ->]]; [by apply rt_clustered|done|].
  destruct (pending_consume _ _ _ _ rt' (emits_pending _ _ _ _ _ _ He)) as (g & -> & Hg); [apply Hrt'|rewrite Hlo; places [counts_from (start_place u) rt]|].
  eexists _, _. split; [done|]. split; [|by exists cs]. destruct He as [Hr Hf Hpend Hl Hmo Hri Ht Ha]. split; simpl; try done.
  - eapply pending_ext; [exact Hg|]. intros x Hx. rewrite !newest_at_snoc. f_equal. symmetry. apply Hcon. places [x; m; start_place u; counts_from (start_place u) rt].
  - intros x Hx Hx'. rewrite Ha, newest_at_snoc by done. rewrite (counts_contribution (start_place u) rt m x) by done. by destruct (newest_at seen x).
Qed.

(** Later range tombstones do not cover earlier places. *)
Lemma in_order_none s m fs x :
  in_order s m fs -> place_lt x s = false -> place_lt s m = true ->
  (forall b, place_lt (bound_place b) m = false -> place_lt x (bound_place b) = true) ->
  Forall (fun rt => contribution types x rt = None) (tombstones_of fs).
Proof using Htypes.
  revert m. induction fs as [|f fs IH]; intros m Hfs Hx Hs Hb; [constructor|]. destruct f as [d|st|ck r|rt|]; try done; cbn [in_order] in Hfs.
  - by apply (IH m).
  - destruct Hfs as (_ & Hck & Hfs). apply (IH _ Hfs); [done|places [s; m; key_place ck]|].
    intros b Hge. apply Hb. places [m; key_place ck; bound_place b].
  - destruct Hfs as [[_ Hlt] Hfs]. change (tombstones_of (range_tombstone_fragment rt :: fs)) with (rt :: tombstones_of fs).
    destruct (place_lt s (hi rt)) eqn:Hhi.
    + destruct Hfs as [Hge Hfs]. assert (counts_from s rt = lo rt) as Hfrom.
      { unfold counts_from in *. destruct (place_lt (lo rt) s); [exfalso; places [s; m]|done]. }
      rewrite Hfrom in *. constructor.
      * unfold contribution, covers, between. by rewrite (Hb (start_bound rt) Hge : place_lt x (lo rt) = true).
      * apply (IH _ Hfs); [done|places [s; m; lo rt]|]. intros b Hge'. apply Hb. places [m; lo rt; bound_place b].
    + constructor; [|by apply (IH m)]. unfold contribution, covers, between.
      destruct (place_lt x (hi rt)) eqn:Hxh; [exfalso; places [x; s; hi rt]|by rewrite andb_false_r].
Qed.

Lemma newest_at_none seen later x : Forall (fun rt => contribution types x rt = None) later -> newest_at (seen ++ later) x = newest_at seen x.
Proof using. intros Hl. unfold newest_at. rewrite fmap_app, fold_left_app. by apply fold_none. Qed.

Lemma newest_at_later s m m1 fs seen x :
  in_order s m1 fs -> place_lt m s = false -> place_lt x m = false -> place_lt x m1 = true ->
  newest_at (seen ++ tombstones_of fs) x = newest_at seen x.
Proof using Htypes.
  intros Hfs Hs Hx Hx1. apply newest_at_none, (in_order_none s m1); [done|places [m; s; x]|places [s; m; m1; x]|].
  intros b Hb. places [x; m1; bound_place b].
Qed.

Lemma newest_at_later_key s m ck fs seen :
  in_order s (key_place ck) fs -> place_lt m s = false -> place_lt m (key_place ck) = true ->
  newest_at (seen ++ tombstones_of fs) (key_place ck) = newest_at seen (key_place ck).
Proof using Htypes.
  intros Hfs Hs Hck. apply newest_at_none, (in_order_none s (key_place ck)); [done|places [m; s; key_place ck]|places [s; m; key_place ck]|].
  intros b Hb. pose proof (bound_place_not_key types b ck). places [key_place ck; bound_place b].
Qed.

Lemma rows_read_app t out1 out2 : rows_read t (out1 ++ out2) = rows_read t out1 ++ rows_read (last_tombstone t (changes_of out1)) out2.
Proof using. revert t. induction out1 as [|[] out1 IH]; intros t; simpl; rewrite ?IH; done. Qed.

Lemma rows_read_only_changes t cs : rows_read t (range_tombstone_change_v2 <$> cs) = [].
Proof using. rewrite <- (app_nil_r (_ <$> _)). by rewrite rows_read_changes. Qed.

Lemma rows_expected_row seen ck r fs :
  rows_expected seen (clustering_row_fragment ck r :: fs) =
  (ck, r, default no_tombstone (newest_at seen (key_place ck))) :: rows_expected seen fs.
Proof using. done. Qed.

(** The fragments of a range, or of a partition, up to its end. *)
Lemma upgrade_all_spec fs : forall u m seen,
  pending (uc_rt_gen u) m seen (uc_current_rt u) -> start_ok u -> place_lt m (start_place u) = false -> in_order (start_place u) m fs ->
  exists out u', upgrade_all u fs = Ret (out, u') /\
  emits u m out u' (end_place (start_place u) m fs) (seen ++ tombstones_of fs) /\
  rows_read (uc_current_rt u) out = rows_expected (seen ++ tombstones_of fs) fs.
Proof using Htypes.
  induction fs as [|f fs IH]; intros u m seen Hp Hu Hs Hfs; cbn [upgrade_all end_place].
  { exists [], u. rewrite app_nil_r. split; [done|]. split; [by apply emits_nothing|done]. }
  assert (forall out1 u1 m1 seen1 rows1,
    upgrading_consume types u f = Ret (out1, u1) -> emits u m out1 u1 m1 seen1 -> in_order (start_place u) m1 fs ->
    seen1 ++ tombstones_of fs = seen ++ tombstones_of (f :: fs) ->
    rows_read (uc_current_rt u) out1 = rows1 -> rows_expected (seen ++ tombstones_of (f :: fs)) (f :: fs) = rows1 ++ rows_expected (seen1 ++ tombstones_of fs) fs ->
    exists out u', ('(out, u) ← upgrading_consume types u f; '(out', u) ← upgrade_all u fs; Ret (out ++ out', u)) = Ret (out, u') /\
      emits u m out u' (end_place (start_place u) m1 fs) (seen ++ tombstones_of (f :: fs)) /\
      rows_read (uc_current_rt u) out = rows_expected (seen ++ tombstones_of (f :: fs)) (f :: fs)) as Hstep.
  { intros out1 u1 m1 seen1 rows1 Heq He Hfs1 Hseen Hrows1 Hexp. rewrite Heq. cbn [mbind outcome_bind].
    assert (start_place u1 = start_place u) as Hsp by (unfold start_place, range_start; by rewrite (emits_range _ _ _ _ _ _ He)).
    destruct (IH u1 m1 seen1) as (out2 & u2 & -> & He2 & Hrows2).
    - apply He.
    - unfold start_ok, range_start in *. by rewrite (emits_range _ _ _ _ _ _ He).
    - rewrite Hsp. pose proof (emits_forward _ _ _ _ _ _ He). places [m; m1; start_place u].
    - by rewrite Hsp.
    - exists (out1 ++ out2), u2. split; [done|]. rewrite Hsp in He2. rewrite <- Hseen. split.
      + eapply emits_compose; [exact He|exact He2|]. intros x Hx Hx1. by eapply newest_at_later.
      + rewrite Hseen, Hexp, rows_read_app, Hrows1. f_equal. by rewrite <- (emits_last _ _ _ _ _ _ He). }
  destruct f as [d|st|ck r|rt|]; try done; cbn [in_order] in Hfs.
  - apply (Hstep [static_row_v2 st] u m seen []); [done|..|done|done|done|done].
    destruct (emits_nothing u m seen Hp) as [? ? ? ? ? ? ? ?]. split; try done; by repeat constructor.
  - destruct Hfs as (Hck & Hm & Hfs). destruct (emits_row u m seen ck r) as (out1 & u1 & Heq & He & Hrows); [done..|].
    apply (Hstep out1 u1 (key_place ck) seen [(ck, r, default no_tombstone (newest_at seen (key_place ck)))]); try done.
    change (tombstones_of (clustering_row_fragment ck r :: fs)) with (tombstones_of fs). rewrite rows_expected_row. simpl.
    by rewrite (newest_at_later_key (start_place u) m).
  - destruct Hfs as [Hrt Hfs]. destruct (emits_range_tombstone u m seen rt) as (out1 & u1 & Heq & He & cs & Hcs); [done..| |].
    { destruct (place_lt (start_place u) (hi rt)); [apply Hfs|places [m]]. }
    apply (Hstep out1 u1 _ (seen ++ [rt]) []); [done|exact He|..].
    + destruct (place_lt (start_place u) (hi rt)); [apply Hfs|done].
    + by rewrite <- app_assoc.
    + rewrite Hcs. apply rows_read_only_changes.
    + by rewrite <- app_assoc.
Qed.

(** ** A whole partition *)

Definition bottom_place : place := ([], -1).

Lemma bottom_first (p : position) : place_lt (position_place p) bottom_place = false.
Proof using.
  unfold place_ltb, place_compare, bottom_place, position_place. rewrite place_tri_compare_eq.
  destruct (p_ck p) as [[|v ck]|]; simpl; [by destruct (p_weight p)|done..].
Qed.

Lemma bottom_between : place_lt bottom_place nowhere = false /\ place_lt beyond bottom_place = false /\ place_lt beyond nowhere = false.
Proof using. unfold place_ltb, place_compare, bottom_place, nowhere, beyond. by rewrite !place_tri_compare_eq. Qed.

Lemma pending_reset g : pending (generator_reset g) bottom_place [] no_tombstone.
Proof using Htypes. apply pending_begin; [|split; [done|simpl; lia]|done..]. split; [done|]. by split; simpl; constructor. Qed.

Lemma pending_beyond g seen a : pending g beyond seen a -> a = no_tombstone.
Proof using.
  intros [_ _ _ Hends _ ->]. destruct (g_values g) as [|rt rts]; [done|]. apply Forall_cons in Hends as [Hrt _]. by rewrite hi_beyond in Hrt.
Qed.

Lemma key_beyond ck : place_lt beyond (key_place ck) = false.
Proof using. unfold place_ltb. by rewrite (proj2 (place_beyond (for_key ck)) : cmp beyond (key_place ck) = Gt). Qed.

Lemma lo_beyond rt : place_lt beyond (lo rt) = false.
Proof using. unfold place_ltb. by rewrite (proj2 (place_beyond (rt_position rt)) : cmp beyond (lo rt) = Gt). Qed.

Lemma end_place_beyond s m fs : place_lt beyond s = false -> place_lt beyond m = false -> place_lt beyond (end_place s m fs) = false.
Proof using.
  intros Hs. revert m. induction fs as [|f fs IH]; intros m Hm; [done|]. destruct f as [d|st|ck r|rt|]; cbn [end_place]; apply IH; try done.
  - apply key_beyond.
  - unfold counts_from. destruct (place_lt s (hi rt)), (place_lt (lo rt) s); try done; apply lo_beyond.
Qed.

Lemma upgrade_all_app u fs gs :
  upgrade_all u (fs ++ gs) = ('(out, u) ← upgrade_all u fs; '(out', u) ← upgrade_all u gs; Ret (out ++ out', u)).
Proof using.
  revert u. induction fs as [|f fs IH]; intros u; simpl; [by destruct (upgrade_all u gs) as [[]| |]|].
  destruct (upgrading_consume types u f) as [[out1 u1]| |]; simpl; [|done..]. rewrite IH.
  destruct (upgrade_all u1 fs) as [[out2 u2]| |]; simpl; [|done..]. destruct (upgrade_all u2 gs) as [[out3 u3]| |]; simpl; [|done..].
  by rewrite app_assoc.
Qed.

Lemma upgrade_partition_spec (u : consumer) d fs :
  in_order nowhere bottom_place fs ->
  exists out u', upgrade_all u (partition_start_fragment d :: fs ++ [partition_end_fragment]) =
    Ret (partition_start_v2 d :: out ++ [partition_end_v2], u') /\
  places_rise out /\ Forall at_bound (changes_of out) /\ rows_read no_tombstone out = rows_expected (tombstones_of fs) fs /\
  (forall p : position, active_at no_tombstone (changes_of out) (position_place p) =
    default no_tombstone (newest_at (tombstones_of fs) (position_place p))) /\
  last_tombstone no_tombstone (changes_of out) = no_tombstone.
Proof using Htypes.
  intros Hfs. cbn [upgrade_all upgrading_consume mbind outcome_bind]. rewrite upgrade_all_app.
  set (u1 := UpgradingConsumer (generator_reset (uc_rt_gen u)) no_tombstone None).
  destruct (upgrade_all_spec fs u1 bottom_place []) as (out1 & u2 & -> & He & Hrows); [apply pending_reset|done|apply bottom_between|done|].
  cbn [mbind outcome_bind app upgrade_all upgrading_consume]. rewrite (emits_range _ _ _ _ _ _ He). change (uc_pr u1) with (@None (position_range V)).
  pose proof (emits_flush u2 _ _ after_all_clustered_rows (emits_pending _ _ _ _ _ _ He)) as Hflush.
  destruct (flush_tombstones types u2 after_all_clustered_rows false) as [out2 u3].
  destruct Hflush as [He2 [cs Hcs]]; [split; [done|simpl; lia]|apply end_place_beyond; apply bottom_between|]. change (flush_place after_all_clustered_rows) with (beyond (V := V)) in *.
  pose proof (emits_compose _ _ _ _ _ _ _ _ _ _ He He2) as Hall. destruct Hall as [_ _ Hp Hleast _ Hrise Hlast Hact]; [done|].
  exists (out1 ++ out2), u3. cbn [mbind outcome_bind]. simpl. rewrite !app_nil_r, <- app_assoc. split; [done|]. split; [done|]. split; [|split; [|split]].
  - apply Forall_forall. intros c Hc%changes_of_elem. rewrite Forall_forall in Hleast. apply (Hleast _ Hc).
  - rewrite rows_read_app. change no_tombstone with (uc_current_rt u1) at 1. rewrite Hrows, Hcs, rows_read_only_changes. apply app_nil_r.
  - intros p. apply Hact; [apply bottom_first|]. apply place_lt_true, place_beyond.
  - change no_tombstone with (uc_current_rt u1) at 1. rewrite <- Hlast. by eapply pending_beyond.
Qed.

(** C17: Upgrading the fragments of a partition, whose range tombstones may overlap, returns; rows
    and changes come at strictly increasing positions, every row is read with the newest range
    tombstone of the partition that covers it, the changes mean the same at every position, and
    the stream ends with no tombstone active. *)
Theorem upgrade_partition_correct (u : consumer) d fs :
  in_order nowhere bottom_place fs ->
  exists out u', upgrade_all u (partition_start_fragment d :: fs ++ [partition_end_fragment]) =
    Ret (partition_start_v2 d :: out ++ [partition_end_v2], u') /\
  places_rise out /\ rows_read no_tombstone out = rows_expected (tombstones_of fs) fs /\
  (forall p : position, active_at no_tombstone (changes_of out) (position_place p) =
    default no_tombstone (newest_at (tombstones_of fs) (position_place p))) /\
  last_tombstone no_tombstone (changes_of out) = no_tombstone.
Proof using Htypes.
  intros Hfs. destruct (upgrade_partition_spec u d fs Hfs) as (out & u' & ? & ? & _ & ?). by exists out, u'.
Qed.

(** ** One range of positions after another *)

Definition run_range (u : consumer) (pr : position_range V) (fs : list fragment) : outcome Empty_set (list fragment_v2 * consumer) :=
  u ← set_position_range types u pr;
  '(out, u) ← upgrade_all u fs;
  let '(out', u) := upgrading_on_end_of_stream types u in
  Ret (out ++ out', u).

Fixpoint run_ranges (u : consumer) (ranges : list (position_range V * list fragment)) : outcome Empty_set (list (list fragment_v2)) :=
  match ranges with
  | [] => Ret []
  | (pr, fs) :: ranges =>
    '(out, u) ← run_range u pr fs;
    outs ← run_ranges u ranges;
    Ret (out :: outs)
  end.

(** The ranges follow each other, and each has its fragments. *)
Fixpoint ranges_ok (m : place) (ranges : list (position_range V * list fragment)) : Prop :=
  match ranges with
  | [] => True
  | (pr, fs) :: ranges =>
    let s := general_place (pr_start pr) in
    position_ok types (pr_start pr) /\ is_clustering_row (pr_start pr) = false /\ bound_position types (pr_end pr) /\
    place_lt s m = false /\ in_order s s fs /\ place_lt (flush_place (pr_end pr)) (end_place s s fs) = false /\
    ranges_ok (flush_place (pr_end pr)) ranges
  end.

(** What is right for the output of one range, after [seen]. *)
Record range_read (pr : position_range V) (fs : list fragment) (seen : list range_tombstone) (out : list fragment_v2) : Prop := {
  range_rises : places_rise out;
  range_rows : rows_read no_tombstone out = rows_expected seen fs;
  range_means : forall x, between types (general_place (pr_start pr)) (flush_place (pr_end pr)) x = true ->
    active_at no_tombstone (changes_of out) x = default no_tombstone (newest_at seen x);
  range_closed : tombstone_bool (last_tombstone no_tombstone (changes_of out)) = false;
  range_within : forall c, c ∈ changes_of out ->
    position_less types (rtc_position c) (pr_start pr) = false /\ position_less types (pr_end pr) (rtc_position c) = false;
}.

Definition closing (u : consumer) (pos : position) : list fragment_v2 :=
  if tombstone_bool (uc_current_rt u) then [range_tombstone_change_v2 (RangeTombstoneChange pos no_tombstone)] else [].

Lemma flush_tombstones_end u pos :
  flush_tombstones (D := D) (St := St) (R := R) types u pos true =
  let '(out, u') := flush_tombstones types u pos false in (out ++ closing u' pos, u').
Proof using. unfold flush_tombstones, closing. destruct (generator_flush types (uc_rt_gen u) pos false) as [cs g]. by rewrite app_nil_r. Qed.

Lemma bound_flush_place p : bound_position types p -> flush_place p = if is_after_all_clustered_rows p then beyond else position_place p.
Proof using. intros Hp. unfold flush_place. by rewrite general_clustered by (by apply bound_is_clustered). Qed.

(** The change that closes a range comes after everything else. *)
Lemma closing_spec u m out u' seen pos :
  emits u m out u' (flush_place pos) seen -> uc_current_rt u = no_tombstone -> bound_position types pos ->
  places_rise (out ++ closing u' pos) /\ tombstone_bool (last_tombstone no_tombstone (changes_of (out ++ closing u' pos))) = false /\
  rows_read no_tombstone (out ++ closing u' pos) = rows_read no_tombstone out /\
  forall x, place_lt x m = false -> place_lt x (flush_place pos) = true ->
    active_at no_tombstone (changes_of (out ++ closing u' pos)) x = default no_tombstone (newest_at seen x).
Proof using Htypes.
  intros [_ _ Hp _ Hmost Hrise Hlast Hact] Hu Hpos. rewrite Hu in Hlast, Hact. unfold closing.
  destruct (tombstone_bool (uc_current_rt u')) eqn:Hb; [|rewrite app_nil_r; split_and!; try done; by rewrite <- Hlast].
  rewrite bound_flush_place in * by done. destruct (is_after_all_clustered_rows pos); [by rewrite (pending_beyond _ _ _ Hp) in Hb|].
  set (c := RangeTombstoneChange pos no_tombstone). assert (at_least (position_place pos) (range_tombstone_change_v2 c)) as Hc.
  { split; [change (place_lt (position_place pos) (position_place pos) = false); places [position_place pos]|done]. }
  assert (changes_of (out ++ [range_tombstone_change_v2 c]) = changes_of out ++ [c]) as Hcs by (unfold changes_of; by rewrite omap_app).
  rewrite Hcs, last_tombstone_app. split; [|split; [done|split]].
  - unfold places_rise in *. rewrite omap_app. apply StronglySorted_app_2; [|done|repeat constructor].
    intros p q (f & Hf & Hfp)%list_elem_of_omap Hq%list_elem_of_singleton. subst q. rewrite Forall_forall in Hmost.
    by apply (most_least (position_place pos) f (range_tombstone_change_v2 c)); [apply Hmost|..].
  - rewrite rows_read_app. apply app_nil_r.
  - intros x Hx Hxp. rewrite active_at_app_l; [by apply Hact|]. intros d ->%list_elem_of_singleton. done.
Qed.

(** No change is before the start of the range or after its end. *)
Lemma closing_within u out u' seen start pos :
  emits u (general_place start) out u' (flush_place pos) seen -> position_ok types start -> bound_position types pos ->
  forall c, c ∈ changes_of (out ++ closing u' pos) ->
    position_less types (rtc_position c) start = false /\ position_less types pos (rtc_position c) = false.
Proof using Htypes.
  intros [_ Hf Hp Hleast Hmost _ _ _] Hstart Hpos c Hc. pose proof (bound_is_clustered _ Hpos) as Hcl.
  assert (at_bound c /\ place_lt (change_place c) (general_place start) = false /\
    (rtc_position c = pos \/ place_lt (change_place c) (flush_place pos) = true)) as (Hb & Hge & Hle).
  { apply changes_of_elem, elem_of_app in Hc as [Hc|Hc].
    - rewrite Forall_forall in Hleast, Hmost. destruct (Hleast _ Hc) as [? ?]. specialize (Hmost _ Hc). auto.
    - unfold closing in Hc. destruct (tombstone_bool _) eqn:Ht; [|by apply elem_of_nil in Hc]. apply list_elem_of_singleton in Hc as [= ->].
      split; [done|]. split; [|by left]. rewrite bound_flush_place in * by done.
      destruct (is_after_all_clustered_rows pos); [by rewrite (pending_beyond _ _ _ Hp) in Ht|done]. }
  pose proof (bound_is_clustered _ Hb) as Hbc. unfold position_less. rewrite lt_clustered by done. split; [done|].
  rewrite lt_clustered_r by (done || apply Hcl). rewrite general_clustered by done. destruct Hle as [->|Hle]; [places [position_place pos]|].
  unfold flush_place in Hle. destruct (is_after_all_clustered_rows pos) eqn:Ha.
  - pose proof (after_all_top _ _ Ha (proj1 Hcl) Hbc) as Htop. rewrite cmp_clustered, general_clustered in Htop by (done || apply Hcl).
    unfold place_ltb. rewrite (cmp_sym cmp). by destruct (cmp (position_place (rtc_position c)) (position_place pos)).
  - rewrite general_clustered in Hle by done. unfold change_place in Hle. places [position_place (rtc_position c); position_place pos].
Qed.

Definition ready (u : consumer) (m : place) (seen : list range_tombstone) : Prop :=
  rl_ok (g_range_tombstones (uc_rt_gen u)) /\ forall x, place_lt x m = false -> covering (g_values (uc_rt_gen u)) x = newest_at seen x.

Lemma run_range_spec u m seen pr fs ranges :
  ready u m seen -> ranges_ok m ((pr, fs) :: ranges) ->
  exists out u', run_range u pr fs = Ret (out, u') /\ range_read pr fs (seen ++ tombstones_of fs) out /\
  ready u' (flush_place (pr_end pr)) (seen ++ tombstones_of fs).
Proof using Htypes.
  intros [Hl Hcover] (Hs & Hrow & He & Hsm & Hfs & Hend & _). unfold run_range, set_position_range.
  assert (trim_lower (pr_start pr) = pr_start pr) as Htl by (unfold trim_lower; by rewrite Hrow).
  destruct (pending_trim (uc_rt_gen u) m seen (pr_start pr)) as (g & -> & Hg); [done|done|done|by rewrite Htl|]. rewrite Htl in Hg.
  cbn [mbind outcome_bind]. set (u1 := UpgradingConsumer g no_tombstone (Some pr)).
  destruct (upgrade_all_spec fs u1 (general_place (pr_start pr)) seen) as (out1 & u2 & -> & Hemit & Hrows);
    [done|by split|change (start_place u1) with (general_place (pr_start pr)); places [general_place (pr_start pr)]|done|].
  cbn [mbind outcome_bind]. unfold upgrading_on_end_of_stream. rewrite (emits_range _ _ _ _ _ _ Hemit). change (uc_pr u1) with (Some pr).
  cbv match. rewrite flush_tombstones_end. pose proof (emits_flush u2 _ _ (pr_end pr) (emits_pending _ _ _ _ _ _ Hemit)) as Hflush.
  destruct (flush_tombstones types u2 (pr_end pr) false) as [out2 u3]. destruct Hflush as [He2 [cs Hcs]]; [by apply bound_is_clustered|done|].
  assert (emits u1 (general_place (pr_start pr)) (out1 ++ out2) u3 (flush_place (pr_end pr)) (seen ++ tombstones_of fs)) as Hall
    by (by eapply emits_compose).
  destruct (closing_spec _ _ _ _ _ _ Hall eq_refl He) as (Hrise & Hclosed & Hrr & Hact).
  exists ((out1 ++ out2) ++ closing u3 (pr_end pr)), u3. rewrite app_assoc. split; [done|]. split; [split; try done|].
  - rewrite Hrr, rows_read_app, Hcs, rows_read_only_changes, app_nil_r. exact Hrows.
  - intros x [Hx1%negb_true_iff Hx2]%andb_true_iff. by apply Hact.
  - by eapply closing_within.
  - destruct (emits_pending _ _ _ _ _ _ Hall) as [? _ _ _ ? _]. by split.
Qed.

(** C19: Reading a partition range by range: for every range of positions, the range tombstones
    given for it, or given earlier and still pending, are trimmed to the range. Rows and changes of
    the range rise, rows are read with the newest range tombstone that covers them, the changes
    mean the same at every place of the range, no change is before the start or after the end of
    the range, and the range is closed at its end. *)
Theorem upgrade_ranges_correct (u : consumer) d ranges :
  ranges_ok bottom_place ranges ->
  exists u' outs, upgrade_all u [partition_start_fragment d] = Ret ([partition_start_v2 d], u') /\
  run_ranges u' ranges = Ret outs /\ length outs = length ranges /\
  forall k pr fs out, ranges !! k = Some (pr, fs) -> outs !! k = Some out ->
    range_read pr fs (tombstones_of (concat (take (S k) ranges).*2)) out.
Proof using Htypes.
  intros Hranges. eexists. assert (ready (UpgradingConsumer (generator_reset (uc_rt_gen u)) no_tombstone None) bottom_place []) as Hready.
  { destruct (pending_reset (uc_rt_gen u)). by split. }
  assert (forall m u1 seen, ready u1 m seen -> ranges_ok m ranges ->
    exists outs, run_ranges u1 ranges = Ret outs /\ length outs = length ranges /\
    forall k pr fs out, ranges !! k = Some (pr, fs) -> outs !! k = Some out ->
      range_read pr fs (seen ++ tombstones_of (concat (take (S k) ranges).*2)) out) as Hrun.
  { clear Hready Hranges. induction ranges as [|[pr fs] ranges IH]; intros m u1 seen Hready Hranges; cbn [run_ranges]; [by exists []|].
    destruct (run_range_spec _ _ _ _ _ _ Hready Hranges) as (out & u2 & -> & Hread & Hready2). cbn [mbind outcome_bind].
    destruct (IH _ _ _ Hready2) as (outs & -> & Hlen & Houts); [apply Hranges|]. exists (out :: outs). cbn [mbind outcome_bind].
    split; [done|]. split; [simpl; by rewrite Hlen|]. intros [|k] pr' fs' out' H1 H2; simplify_eq/=; [by rewrite app_nil_r|].
    specialize (Houts k _ _ _ H1 H2). unfold tombstones_of in *. rewrite omap_app, app_assoc. exact Houts. }
  destruct (Hrun _ _ _ Hready Hranges) as (outs & Heq & Hlen & Houts). exists outs. split; [done|]. split; [exact Heq|]. by split.
Qed.

(** * The assembler *)

Fixpoint assemble (a : range_tombstone_assembler V) (cs : list change) :
    outcome (stream_error V) (list range_tombstone * range_tombstone_assembler V) :=
  match cs with
  | [] => Ret ([], a)
  | c :: cs =>
    '(o, a) ← assembler_consume types a c;
    '(rts, a) ← assemble a cs;
    Ret (option_list o ++ rts, a)
  end.

(** A tombstone that deletes something. *)
Definition effective (t : tombstone) : tombstone := if tombstone_bool t then t else no_tombstone.

Lemma covering_ordered h rts x : ordered types (Some h) rts -> place_lt x h = true -> covering rts x = None.
Proof using Htypes.
  revert h. induction rts as [|rt rts IH]; intros h; [done|]. intros ([_ Hok] & Hf & Hrts) Hx. cbn [covering]. unfold covers, between.
  assert (place_lt x (lo rt) = true) as -> by (places [x; h; lo rt]). simpl. apply (IH (hi rt) Hrts). places [x; h; lo rt; hi rt].
Qed.

Lemma ordered_weaken h h' rts : ordered types (Some h) rts -> place_lt h h' = false -> ordered types (Some h') rts.
Proof using Htypes. destruct rts as [|rt rts]; [done|]. intros (Hok & Hf & Hrts) Hh. split; [done|]. split; [|done]. places [h; h'; lo rt]. Qed.

(** From the last change on. *)
Lemma assemble_spec prev cs :
  at_bound prev -> Forall at_bound cs -> rising (Some (change_place prev)) cs ->
  exists rts last, assemble (Some prev) cs = Ret (rts, Some last) /\ ordered types (Some (change_place prev)) rts /\
  rtc_tombstone last = last_tombstone (rtc_tombstone prev) cs /\
  (tombstone_bool (rtc_tombstone last) = false ->
    forall x, place_lt x (change_place prev) = false ->
      default no_tombstone (covering rts x) = effective (active_at (rtc_tombstone prev) cs x)).
Proof using Htypes.
  revert prev. induction cs as [|c cs IH]; intros prev Hprev Hcs Hrise; cbn [assemble].
  { exists [], prev. split; [done|]. split; [done|]. split; [done|]. intros Hb x _. simpl. unfold effective. by rewrite Hb. }
  apply Forall_cons in Hcs as [Hc Hcs]. destruct Hrise as [Hlt Hrise]. destruct (IH c Hc Hcs Hrise) as (rts & la & Heq & Hord & Hlast & Hcov).
  unfold assembler_consume. rewrite less_position, (Hlt : place_lt (position_place (rtc_position prev)) (position_place (rtc_position c)) = true), andb_true_r by done.
  simpl. destruct (tombstone_bool (rtc_tombstone prev)) eqn:Hb.
  - destruct (rt_of_positions_any types (E := stream_error V) (rtc_position prev) (rtc_position c) (rtc_tombstone prev)) as (rt & -> & Hwf & Hlo & Hhi & Ht); [done..|].
    cbn [mbind outcome_bind]. rewrite Heq. cbn [mbind outcome_bind]. exists (rt :: rts), la. split; [done|]. split; [|split; [done|]].
    + split; [split; [done|by rewrite Hlo, Hhi]|]. change (hi rt = change_place c) in Hhi. change (lo rt = change_place prev) in Hlo.
      rewrite Hlo, Hhi. split; [places [change_place prev]|done].
    + intros Hla x Hx. change (hi rt = change_place c) in Hhi. change (lo rt = change_place prev) in Hlo. cbn [covering].
      unfold covers, between. rewrite Hlo, Hhi, Hx. simpl. destruct (place_lt x (change_place c)) eqn:Hxc; simpl; [|by apply Hcov].
      unfold effective. by rewrite Ht, Hb.
  - cbn [mbind outcome_bind]. rewrite Heq. cbn [mbind outcome_bind]. exists rts, la. split; [done|]. split; [|split; [done|]].
    + eapply ordered_weaken; [exact Hord|]. places [change_place prev; change_place c].
    + intros Hla x Hx. destruct (place_lt x (change_place c)) eqn:Hxc; [|by apply Hcov].
      rewrite (covering_ordered _ _ _ Hord Hxc). unfold effective. by rewrite Hb.
Qed.

Lemma assembler_spec cs :
  Forall at_bound cs -> rising None cs ->
  exists rts a, assemble make_assembler cs = Ret (rts, a) /\ ordered types None rts /\
  (if tombstone_bool (last_tombstone no_tombstone cs) then exists c, on_end_of_stream a = Throw (active_at_end_of_stream c)
   else on_end_of_stream a = Ret tt /\ forall x, default no_tombstone (covering rts x) = effective (active_at no_tombstone cs x)).
Proof using Htypes.
  destruct cs as [|c cs]; [by exists [], None|]. intros [Hc Hcs]%Forall_cons [_ Hrise].
  destruct (assemble_spec c cs Hc Hcs Hrise) as (rts & la & Heq & Hord & Hlast & Hcov). exists rts, (Some la). cbn [assemble assembler_consume mbind outcome_bind].
  simpl. rewrite Heq. split; [done|]. split; [destruct rts as [|rt rts]; [done|]; by destruct Hord as (? & _ & ?)|].
  change (last_tombstone no_tombstone (c :: cs)) with (last_tombstone (rtc_tombstone c) cs). rewrite <- Hlast.
  destruct (tombstone_bool (rtc_tombstone la)) eqn:Hb; [by exists la|]. split; [done|]. intros x.
  destruct (place_lt x (change_place c)) eqn:Hx; [by rewrite (covering_ordered _ _ _ Hord Hx)|by apply Hcov].
Qed.

(** Assembling a stream of changes at rising positions returns range tombstones that are in
    order and do not overlap. If the stream is closed, the end of the stream is accepted and they
    cover every place with the tombstone that the stream makes active there, if it deletes
    anything; if a tombstone is still active, the end of the stream throws. *)
Theorem assembler_correct cs :
  Forall at_bound cs -> rising None cs ->
  exists rts a, assemble make_assembler cs = Ret (rts, a) /\ ordered types None rts /\
  (if tombstone_bool (last_tombstone no_tombstone cs) then exists c, on_end_of_stream a = Throw (active_at_end_of_stream c)
   else on_end_of_stream a = Ret tt /\ forall x, default no_tombstone (covering rts x) = effective (active_at no_tombstone cs x)).
Proof using Htypes. apply assembler_spec. Qed.

Lemma places_rise_changes out : places_rise out -> rising None (changes_of out).
Proof using.
  unfold places_rise. intros Hs. assert (forall p, (forall q, q ∈ omap fragment_place out -> match p with Some p => place_lt p q = true | None => True end) -> rising p (changes_of out)) as Hp.
  { induction out as [|f out IH]; intros p Hp; [done|]. destruct f as [d|st|ck r|c|]; cbn [omap list_omap fragment_place] in *; try by apply IH.
    - change (StronglySorted (fun a b => place_lt a b = true) (key_place ck :: omap fragment_place out)) in Hs. inversion Hs; subst.
      apply IH; [done|]. intros q Hq. apply Hp. by right.
    - change (StronglySorted (fun a b => place_lt a b = true) (change_place c :: omap fragment_place out)) in Hs. inversion Hs as [|? ? Hs' Hall]; subst.
      change (rising p (c :: changes_of out)). split; [apply Hp; left|]. apply IH; [done|]. intros q Hq. rewrite Forall_forall in Hall. by apply Hall. }
  apply Hp. done.
Qed.

(** C20: Round trip: a partition with range tombstones that may overlap, upgraded to changes and
    assembled again, has range tombstones in order and without overlap that cover every position
    with the newest of the original ones. *)
Theorem upgrade_assemble_roundtrip (u : consumer) d fs :
  in_order nowhere bottom_place fs ->
  exists out u' rts a, upgrade_all u (partition_start_fragment d :: fs ++ [partition_end_fragment]) =
    Ret (partition_start_v2 d :: out ++ [partition_end_v2], u') /\
  assemble make_assembler (changes_of out) = Ret (rts, a) /\ on_end_of_stream a = Ret tt /\ ordered types None rts /\
  forall p : position, default no_tombstone (covering rts (position_place p)) =
    effective (default no_tombstone (newest_at (tombstones_of fs) (position_place p))).
Proof using Htypes.
  intros Hfs. destruct (upgrade_partition_spec u d fs Hfs) as (out & u' & Heq & Hrise & Hbound & _ & Hact & Hlast).
  destruct (assembler_spec (changes_of out) Hbound (places_rise_changes _ Hrise)) as (rts & a & Ha & Hord & Hend).
  rewrite Hlast in Hend. destruct Hend as [Hend Hcov].
  exists out, u', rts, a. split; [done|]. split; [done|]. split; [done|]. split; [done|]. intros p. by rewrite Hcov, Hact.
Qed.

End theory.

(** * Witnesses *)

Module ChangeExamples.
Import RangeTombstoneExamples.

#[local] Instance example_types : ColumnTypes columns.
Proof. repeat constructor; apply Z_compare_total. Qed.

Abbreviation fragment := (mutation_fragment Z () () Z).

(** Two range tombstones that overlap, and rows before, in and after them. *)
Definition fragments : list fragment :=
  [static_row_fragment tt; range_tombstone_fragment (deletion 1 9 10); clustering_row_fragment [2; 0] 100;
   range_tombstone_fragment (deletion 3 5 20); clustering_row_fragment [4; 1] 101; clustering_row_fragment [7; 0] 102;
   clustering_row_fragment [12; 0] 103].

Ltac conjuncts := repeat (hnf; lazymatch goal with |- _ /\ _ => split | |- ex _ => eexists end).

Lemma fragments_in_order : in_order columns nowhere bottom_place fragments.
Proof. conjuncts; try done; simpl; lia. Qed.

Lemma upgrade_partition_correct_witness :
  exists out u', upgrade_all columns make_upgrading_consumer (partition_start_fragment tt :: fragments ++ [partition_end_fragment]) =
    Ret (partition_start_v2 tt :: out ++ [partition_end_v2], u') /\
  rows_read no_tombstone out =
    [([2; 0], 100, Tombstone 10 0); ([4; 1], 101, Tombstone 20 0); ([7; 0], 102, Tombstone 10 0); ([12; 0], 103, no_tombstone)].
Proof.
  destruct (upgrade_partition_correct columns make_upgrading_consumer tt fragments fragments_in_order) as (out & u' & Heq & _ & Hrows & _).
  exists out, u'. split; [exact Heq|]. rewrite Hrows. reflexivity.
Defined.

Lemma upgrade_assemble_roundtrip_witness :
  exists rts, rts <> [] /\ covering columns rts (key_place [4; 1]) = Some (Tombstone 20 0).
Proof.
  destruct (upgrade_assemble_roundtrip columns make_upgrading_consumer tt fragments fragments_in_order)
    as (out & u' & rts & a & _ & _ & _ & _ & Hcov). exists rts. specialize (Hcov (for_key [4; 1])).
  change (position_place (for_key [4; 1])) with (key_place [4; 1]) in Hcov. vm_compute (effective _) in Hcov.
  destruct (covering columns rts (key_place [4; 1])) as [t|] eqn:Ht; [|done]. simpl in Hcov. subst t. split; [|done]. by intros ->.
Defined.

Definition range (from to : Z) : position_range Z := PositionRange (position_of_bound (BoundView [from] incl_start)) (position_of_bound (BoundView [to] incl_end)).

Definition ranges : list (position_range Z * list fragment) :=
  [(range 2 4, [range_tombstone_fragment (deletion 1 9 10); clustering_row_fragment [3; 0] 100]);
   (range 7 20, [range_tombstone_fragment (deletion 3 8 20); clustering_row_fragment [8; 5] 101; clustering_row_fragment [9; 0] 102])].

Lemma ranges_are_ok : ranges_ok columns bottom_place ranges.
Proof. conjuncts; try done; simpl; lia. Qed.

Lemma upgrade_ranges_correct_witness :
  exists u' outs, upgrade_all columns make_upgrading_consumer [partition_start_fragment tt : fragment] = Ret ([partition_start_v2 tt], u') /\
  run_ranges columns u' ranges = Ret outs /\
  rows_read no_tombstone <$> outs =
    [[([3; 0], 100, Tombstone 10 0)]; [([8; 5], 101, Tombstone 20 0); ([9; 0], 102, Tombstone 10 0)]].
Proof.
  destruct (upgrade_ranges_correct columns make_upgrading_consumer tt ranges ranges_are_ok) as (u' & outs & Hu & Houts & Hlen & Hread).
  exists u', outs. split; [exact Hu|]. split; [exact Houts|]. destruct outs as [|out1 [|out2 [|]]]; try done.
  destruct (Hread 0%nat _ _ _ eq_refl eq_refl) as [_ H1 _ _ _]. destruct (Hread 1%nat _ _ _ eq_refl eq_refl) as [_ H2 _ _ _].
  cbn [fmap list_fmap]. rewrite H1, H2. reflexivity.
Defined.

Lemma assembler_correct_witness :
  exists rts a, assemble columns make_assembler
    [RangeTombstoneChange (position_of_bound (BoundView [1] incl_start)) (Tombstone 10 0);
     RangeTombstoneChange (position_of_bound (BoundView [3] incl_start)) (Tombstone 20 0);
     RangeTombstoneChange (position_of_bound (BoundView [5] incl_end)) no_tombstone] = Ret (rts, a) /\
  on_end_of_stream a = Ret tt /\ covering columns rts (key_place [5; 5]) = Some (Tombstone 20 0).
Proof.
  destruct (assembler_correct columns
    [RangeTombstoneChange (position_of_bound (BoundView [1] incl_start)) (Tombstone 10 0);
     RangeTombstoneChange (position_of_bound (BoundView [3] incl_start)) (Tombstone 20 0);
     RangeTombstoneChange (position_of_bound (BoundView [5] incl_end)) no_tombstone]) as (rts & a & Heq & _ & Hend).
  { repeat constructor; eexists; split_and!; try done; simpl; lia. }
  { by repeat split. }
  destruct Hend as [Hend Hcov]. exists rts, a. split; [exact Heq|]. split; [exact Hend|]. specialize (Hcov (key_place [5; 5])).
  vm_compute (effective _) in Hcov. destruct (covering columns rts (key_place [5; 5])) as [t|]; [|done]. simpl in Hcov. by subst t.
Defined.

End ChangeExamples.
