(* ===== verification/RangesWalker.v ===== *)
(** Walking over clustering ranges: [src/clustering_ranges_walker.hh], and the slicer of
    [src/readers/mutation_readers.cc] that cuts the stream of a partition to clustering ranges.

    The walker goes over the ranges in order, along with the positions of a stream. It says of
    each position whether the ranges contain it, and cuts the range tombstone that is active to
    the ranges. *)
From S2P Require Import Prelude Interval Clustering RangeTombstones RangeTombstoneChanges.

Section walker.
Context {V : Type} (types : list (V -> V -> comparison)).
Abbreviation position := (position_in_partition V).
Abbreviation clustering_range := (clustering_range V).
Abbreviation change := (range_tombstone_change V).
Abbreviation less := (position_less types).

(** [_current_range] is the rest of the ranges, from the current one on. *)
Record clustering_ranges_walker := Walker {
  w_ranges : list clustering_range;
  w_current_range : list clustering_range;
  w_in_current : bool;
  w_past_current : bool;
  w_using_clustering_range : bool;
  w_with_static_row : bool;
  w_current_start : position;
  w_current_end : position;
  w_trim : option position;
  w_change_counter : Z;
  w_tombstone : tombstone;
}.

Definition w_set_in (b : bool) (w : clustering_ranges_walker) : clustering_ranges_walker :=
  Walker (w_ranges w) (w_current_range w) b (w_past_current w) (w_using_clustering_range w) (w_with_static_row w)
    (w_current_start w) (w_current_end w) (w_trim w) (w_change_counter w) (w_tombstone w).
Definition w_set_past (b : bool) (w : clustering_ranges_walker) : clustering_ranges_walker :=
  Walker (w_ranges w) (w_current_range w) (w_in_current w) b (w_using_clustering_range w) (w_with_static_row w)
    (w_current_start w) (w_current_end w) (w_trim w) (w_change_counter w) (w_tombstone w).
Definition w_set_range (cr : list clustering_range) (u : bool) (w : clustering_ranges_walker) : clustering_ranges_walker :=
  Walker (w_ranges w) cr (w_in_current w) (w_past_current w) u (w_with_static_row w)
    (w_current_start w) (w_current_end w) (w_trim w) (w_change_counter w) (w_tombstone w).
Definition w_set_positions (s e : position) (w : clustering_ranges_walker) : clustering_ranges_walker :=
  Walker (w_ranges w) (w_current_range w) (w_in_current w) (w_past_current w) (w_using_clustering_range w) (w_with_static_row w)
    s e (w_trim w) (w_change_counter w) (w_tombstone w).
Definition w_set_trim (t : option position) (w : clustering_ranges_walker) : clustering_ranges_walker :=
  Walker (w_ranges w) (w_current_range w) (w_in_current w) (w_past_current w) (w_using_clustering_range w) (w_with_static_row w)
    (w_current_start w) (w_current_end w) t (w_change_counter w) (w_tombstone w).
Definition w_count_change (w : clustering_ranges_walker) : clustering_ranges_walker :=
  Walker (w_ranges w) (w_current_range w) (w_in_current w) (w_past_current w) (w_using_clustering_range w) (w_with_static_row w)
    (w_current_start w) (w_current_end w) (w_trim w) (w_change_counter w +! 1) (w_tombstone w).
Definition set_tombstone (t : tombstone) (w : clustering_ranges_walker) : clustering_ranges_walker :=
  Walker (w_ranges w) (w_current_range w) (w_in_current w) (w_past_current w) (w_using_clustering_range w) (w_with_static_row w)
    (w_current_start w) (w_current_end w) (w_trim w) (w_change_counter w) t.

Definition advance_to_next_range (w : clustering_ranges_walker) : bool * clustering_ranges_walker :=
  let w := w_set_past false (w_set_in false w) in
  if w_using_clustering_range w && bool_decide (w_current_range w = []) then (false, w)
  else
    let cr := if w_using_clustering_range w then tail (w_current_range w) else w_current_range w in
    let w := w_set_range cr true (w_count_change w) in
    match cr with
    | [] => (false, w_set_positions after_all_clustered_rows after_all_clustered_rows w)
    | r :: _ => (true, w_set_positions (position_for_range_start r) (position_for_range_end r) w)
    end.

Definition set_current_positions (w : clustering_ranges_walker) : clustering_ranges_walker :=
  let w := w_set_range (w_current_range w) false w in
  if negb (w_with_static_row w) then
    match w_current_range w with
    | [] => w_set_positions before_all_clustered_rows (w_current_end w) w
    | r :: _ => w_set_range (w_current_range w) true (w_set_positions (position_for_range_start r) (position_for_range_end r) w)
    end
  else
    match w_current_range w with
    | r :: _ =>
      if bool_decide (start r = None) then
        w_set_range (w_current_range w) true (w_set_positions (w_current_start w) (position_for_range_end r) w)
      else w
    | [] => w
    end.

Definition make_walker (ranges : list clustering_range) (with_static_row : bool) : clustering_ranges_walker :=
  set_current_positions
    (Walker ranges ranges with_static_row false false with_static_row for_static_row before_all_clustered_rows None 1 no_tombstone).

Record progress := Progress {
  pg_contained : bool;
  pg_rts : list change;
}.

(** A pass over the current range and all that follow ends the loops. *)
Definition walk_fuel (w : clustering_ranges_walker) : nat := 2 + length (w_current_range w).

Fixpoint walker_trim_loop (fuel : nat) (w : clustering_ranges_walker) (pos : position) : outcome Empty_set clustering_ranges_walker :=
  match fuel with
  | O => Abort out_of_fuel
  | S fuel =>
    if negb (less (w_current_start w) pos) then Ret w
    else if less pos (w_current_end w) then
      Ret (w_count_change (w_set_in false (w_set_positions pos (w_current_end w) (w_set_trim (Some pos) w))))
    else
      let '(more, w) := advance_to_next_range w in
      if more then walker_trim_loop fuel w pos else Ret w
  end.
Definition walker_trim_front (w : clustering_ranges_walker) (pos : position) : outcome Empty_set clustering_ranges_walker :=
  walker_trim_loop (walk_fuel w) w pos.

(** [advance_to(pos, new_tombstone)]. *)
Fixpoint advance_loop (fuel : nat) (w : clustering_ranges_walker) (pos : position) (prev_tombstone new_tombstone : tombstone)
    (rts : list change) : outcome Empty_set (progress * clustering_ranges_walker) :=
  match fuel with
  | O => Abort out_of_fuel
  | S fuel =>
    if negb (w_in_current w) && less pos (w_current_start w) then Ret (Progress false rts, w)
    else
      let rts := rts ++ (if negb (w_in_current w) && tombstone_bool prev_tombstone
                         then [RangeTombstoneChange (w_current_start w) prev_tombstone] else []) in
      let w := w_set_in true w in
      if less pos (w_current_end w) then
        let rts := rts ++ (if bool_decide (prev_tombstone = new_tombstone) then [] else [RangeTombstoneChange pos new_tombstone]) in
        Ret (Progress true rts, w)
      else
        let rts := rts ++ (if negb (w_past_current w) && tombstone_bool prev_tombstone
                           then [RangeTombstoneChange (w_current_end w) no_tombstone] else []) in
        let '(more, w) := advance_to_next_range (w_set_past true w) in
        if more then advance_loop fuel w pos prev_tombstone new_tombstone rts else Ret (Progress false rts, w)
  end.
Definition advance_to (w : clustering_ranges_walker) (pos : position) (new_tombstone : tombstone) :
    outcome Empty_set (progress * clustering_ranges_walker) :=
  let prev_tombstone := w_tombstone w in
  advance_loop (walk_fuel w) (set_tombstone new_tombstone w) pos prev_tombstone new_tombstone [].

(** [advance_to(start, end)]. *)
Fixpoint advance_range_loop (fuel : nat) (w : clustering_ranges_walker) (start end_ : position) :
    outcome Empty_set (bool * clustering_ranges_walker) :=
  match fuel with
  | O => Abort out_of_fuel
  | S fuel =>
    if negb (less (w_current_start w) end_) then Ret (false, w)
    else if less start (w_current_end w) then Ret (true, w)
    else
      let '(more, w) := advance_to_next_range w in
      if more then advance_range_loop fuel w start end_ else Ret (false, w)
  end.
Definition advance_to_range (w : clustering_ranges_walker) (start end_ : position) : outcome Empty_set (bool * clustering_ranges_walker) :=
  advance_range_loop (walk_fuel w) w start end_.

Fixpoint contains_loop (ranges : list clustering_range) (start end_ : position) : bool :=
  match ranges with
  | [] => false
  | rng :: ranges =>
    if negb (less (position_for_range_start rng) end_) then false
    else if less start (position_for_range_end rng) then true
    else contains_loop ranges start end_
  end.
Definition contains_tombstone (w : clustering_ranges_walker) (start end_ : position) : bool :=
  if match w_trim w with Some t => negb (less t end_) | None => false end then false
  else contains_loop (w_current_range w) start end_.

(** The loop of [split_tombstone]; the list stands for the stream [dst]. *)
Fixpoint split_loop (ranges : list clustering_range) (rt : range_tombstone V) (first : option (range_tombstone V))
    (dst : range_tombstone_list V) : outcome Empty_set (option (range_tombstone V) * range_tombstone_list V) :=
  match ranges with
  | [] => Ret (first, dst)
  | rng :: ranges =>
    let range_start := position_for_range_start rng in
    let range_end := position_for_range_end rng in
    if negb (less (rt_position rt) range_start) && negb (less range_end (rt_end_position rt)) then
      check (bool_decide (first = None)) ;;
      Ret (Some rt, dst)
    else
      '(overlaps, this_range_rt) ← rt_trim types rt range_start range_end;
      if negb overlaps then split_loop ranges rt first dst
      else
        match first with
        | Some _ => dst ← rl_apply types dst this_range_rt; split_loop ranges rt first dst
        | None => split_loop ranges rt (Some this_range_rt) dst
        end
  end.
Definition split_tombstone (w : clustering_ranges_walker) (rt : range_tombstone V) (dst : range_tombstone_list V) :
    outcome Empty_set (option (range_tombstone V) * range_tombstone_list V) :=
  '(overlaps, rt) ← match w_trim w with Some t => rt_trim_front types rt t | None => Ret (true, rt) end;
  if negb overlaps then Ret (None, dst) else split_loop (w_current_range w) rt None dst.

Definition out_of_range (w : clustering_ranges_walker) : bool :=
  negb (w_in_current w) && bool_decide (w_current_range w = []).

Definition walker_reset (w : clustering_ranges_walker) : outcome Empty_set clustering_ranges_walker :=
  let w := w_set_past false (w_set_in (w_with_static_row w) (w_set_range (w_ranges w) (w_using_clustering_range w) w)) in
  let w := w_count_change (set_current_positions (w_set_positions for_static_row before_all_clustered_rows w)) in
  match w_trim w with
  | Some pos => walker_trim_front (w_set_trim None w) pos
  | None => Ret w
  end.

(** * The slicer *)

Context {D St R : Type}.

(** The walker and [_p], the last progress. *)
Record partition_slicer := Slicer {
  sl_ranges_walker : clustering_ranges_walker;
  sl_p : progress;
}.
Definition make_slicer (row_ranges : list clustering_range) : partition_slicer :=
  Slicer (make_walker row_ranges false) (Progress true []).

(** [apply]: what is given to the consumer. The static row comes first, when [_p] has no changes. *)
Definition slicer_apply (sl : partition_slicer) (mf : mutation_fragment_v2 V D St R) :
    outcome Empty_set (list (mutation_fragment_v2 V D St R) * partition_slicer) :=
  let w := sl_ranges_walker sl in
  '(p, w) ← match mf with
    | partition_start_v2 _ => Abort assertion_failed
    | static_row_v2 _ => Ret (sl_p sl, w)
    | clustering_row_v2 ck _ => advance_to w (for_key ck) (w_tombstone w)
    | range_tombstone_change_v2 c =>
      '(p, w) ← advance_to w (rtc_position c) (rtc_tombstone c);
      Ret (Progress false (pg_rts p), w)
    | partition_end_v2 =>
      '(p, w) ← advance_to w for_partition_end (w_tombstone w);
      Ret (Progress true (pg_rts p), w)
    end;
  Ret ((range_tombstone_change_v2 <$> pg_rts p) ++ (if pg_contained p then [mf] else []), Slicer w p).

End walker.
Arguments clustering_ranges_walker : clear implicits.
Arguments progress : clear implicits.
Arguments partition_slicer : clear implicits.
