(* ===== verification/RangesWalkerTheory.v ===== *)
(** What the walker says of positions and makes of range tombstones, and that the slicer cuts a
    stream to its ranges.

    The walker is reduced to the ranges that it still has to go over ([todo]) and a function on
    them ([walk]), whose result is then compared with membership in the ranges ([inside]). *)
From S2P Require Import Prelude Ordering Interval Clustering RangeTombstones RangeTombstonesTheory RangeTombstonesTheorems RangeTombstoneChanges RangeTombstoneChangesTheory RangesWalker.

Section theory.
Context {V : Type} (types : list (V -> V -> comparison)) `{Htypes : !ColumnTypes types}.
Abbreviation place := (@place V).
Abbreviation position := (position_in_partition V).
Abbreviation clustering_range := (clustering_range V).
Abbreviation change := (range_tombstone_change V).
Abbreviation cmp := (place_compare types).
Abbreviation place_lt := (place_ltb types).
Abbreviation walker := (clustering_ranges_walker V).
Abbreviation segment := (position * position)%type.
Ltac places ps := places_of types ps.

(** * The ranges that are left *)

Definition segment_of (r : clustering_range) : segment := (position_for_range_start r, position_for_range_end r).

Definition at_end (w : walker) : bool := w_using_clustering_range w && bool_decide (w_current_range w = []).
Definition rest (w : walker) : list clustering_range :=
  if w_using_clustering_range w then tail (w_current_range w) else w_current_range w.
Definition todo (w : walker) : list segment :=
  if at_end w then [] else (w_current_start w, w_current_end w) :: (segment_of <$> rest w).

(** Between calls: nothing is in the middle of a loop, and at the end the current range is empty. *)
Record walker_ok (w : walker) : Prop := {
  walker_past : w_past_current w = false;
  walker_end : at_end w = true -> w_in_current w = false /\ w_current_start w = after_all_clustered_rows /\ w_current_end w = after_all_clustered_rows;
}.

Lemma walk_fuel_todo w : (S (length (todo w)) <= walk_fuel w)%nat.
Proof using.
  unfold walk_fuel, todo, rest, at_end. destruct (w_using_clustering_range w), (w_current_range w); simpl; rewrite ?length_fmap; lia.
Qed.

(** One step of the walker along the ranges. *)
Lemma advance_to_next_todo w seg segs :
  todo w = seg :: segs ->
  exists w', advance_to_next_range w = (negb (bool_decide (segs = [])), w') /\
  todo w' = segs /\ w_in_current w' = false /\ walker_ok w' /\ w_tombstone w' = w_tombstone w /\ w_trim w' = w_trim w.
Proof using.
  destruct w as [rs cr i p u st s e tr n t]. unfold advance_to_next_range, todo, at_end, rest. simpl. intros Htodo.
  assert (segs = segment_of <$> (if u then tail cr else cr)) as -> by (destruct u, cr; by simplify_eq/=).
  destruct u; [destruct cr as [|r [|r' cr]]; [done|..]|destruct cr as [|r' cr]]; simpl; eexists; split_and!; try done; by split.
Qed.

(** * Walking over segments *)

Definition close_segment (prev : tombstone) (e : position) : list change :=
  if tombstone_bool prev then [RangeTombstoneChange e no_tombstone] else [].
Definition open_segment (inc : bool) (prev : tombstone) (s : position) : list change :=
  if negb inc && tombstone_bool prev then [RangeTombstoneChange s prev] else [].

(** Whether the position is contained, the changes and the segments that are left; the walker is in
    the first one if the position is contained. *)
Fixpoint walk (inc : bool) (segs : list segment) (pos : position) (prev new : tombstone) : bool * list change * list segment :=
  match segs with
  | [] => (false, [], [])
  | (s, e) :: segs' =>
    if negb inc && position_less types pos s then (false, [], segs)
    else if position_less types pos e then
      (true, open_segment inc prev s ++ (if bool_decide (prev = new) then [] else [RangeTombstoneChange pos new]), segs)
    else
      let '(c, rts, remaining) := walk false segs' pos prev new in
      (c, open_segment inc prev s ++ close_segment prev e ++ rts, remaining)
  end.

Lemma advance_loop_walk fuel w pos prev new rts :
  walker_ok w -> todo w <> [] -> (S (length (todo w)) <= fuel)%nat ->
  let '(c, rts', remaining) := walk (w_in_current w) (todo w) pos prev new in
  exists w', advance_loop types fuel w pos prev new rts = Ret (Progress c (rts ++ rts'), w') /\
  walker_ok w' /\ todo w' = remaining /\ w_in_current w' = c /\ w_tombstone w' = w_tombstone w.
Proof using.
  revert w rts. induction fuel as [|fuel IH]; intros w rts Hok Hne Hfuel; [lia|]. cbn [advance_loop].
  destruct (todo w) as [|[s e] segs] eqn:Htodo; [done|].
  assert (w_current_start w = s /\ w_current_end w = e) as [Hs He] by (unfold todo in Htodo; destruct (at_end w); by simplify_eq/=).
  cbn [walk]. rewrite Hs. destruct (negb (w_in_current w) && position_less types pos s) eqn:Hbefore.
  { exists w. rewrite app_nil_r. destruct (w_in_current w) eqn:Hin; [done|]. by split_and!. }
  change (w_current_end (w_set_in true w)) with (w_current_end w). rewrite He. change (w_past_current (w_set_in true w)) with (w_past_current w).
  rewrite (walker_past w Hok). fold (open_segment (w_in_current w) prev s). destruct (position_less types pos e).
  { exists (w_set_in true w). rewrite <- app_assoc. split_and!; try done. destruct Hok as [Hp Hend]. split; [done|].
    change (at_end (w_set_in true w)) with (at_end w). intros Ha. unfold todo in Htodo. by rewrite Ha in Htodo. }
  cbn [negb andb]. fold (close_segment prev e).
  destruct (advance_to_next_todo (w_set_past true (w_set_in true w)) _ _ Htodo) as (w1 & -> & Htd & Hin & Hok1 & Ht & _).
  destruct (walk false segs pos prev new) as [[c rts'] remaining] eqn:Hwalk. case_bool_decide as Hsegs; cbn [negb].
  - rewrite Hsegs in Hwalk, Htd. cbn [walk] in Hwalk. injection Hwalk as <- <- <-. exists w1. rewrite app_nil_r, !app_assoc. by split_and!.
  - specialize (IH w1 ((rts ++ open_segment (w_in_current w) prev s) ++ close_segment prev e)). rewrite Htd, Hin, Hwalk in IH.
    destruct IH as (w' & -> & ? & ? & ? & Ht'); [done|done|simpl in Hfuel; lia|]. exists w'. rewrite !app_assoc. split_and!; try done. by rewrite Ht', Ht.
Qed.

(** A walker that has no ranges left acts as if it had the empty one at the end of the partition. *)
Definition walk_end (pos : position) (prev : tombstone) : list change :=
  if position_less types pos after_all_clustered_rows then []
  else open_segment false prev after_all_clustered_rows ++ close_segment prev after_all_clustered_rows.

Lemma advance_to_walk w pos new :
  walker_ok w ->
  let '(c, rts, remaining) := walk (w_in_current w) (todo w) pos (w_tombstone w) new in
  exists w', advance_to types w pos new = Ret (Progress c (rts ++ if bool_decide (todo w = []) then walk_end pos (w_tombstone w) else []), w') /\
  walker_ok w' /\ todo w' = remaining /\ w_in_current w' = c /\ w_tombstone w' = new.
Proof using.
  intros Hok. unfold advance_to. pose proof (walk_fuel_todo w) as Hfuel. case_bool_decide as Hend.
  - rewrite Hend. cbn [walk]. assert (at_end w = true) as Ha by (unfold todo in Hend; by destruct (at_end w)).
    destruct (walker_end w Hok Ha) as (Hin & Hs & He). unfold walk_fuel. simpl.
    rewrite Hin, Hs. simpl. unfold walk_end. destruct (position_less types pos after_all_clustered_rows) eqn:Hless.
    { eexists. split; [done|]. split_and!; try done. split; [apply Hok|done]. }
    rewrite He, Hless, (walker_past w Hok). simpl. unfold advance_to_next_range. simpl.
    change (w_using_clustering_range w && bool_decide (w_current_range w = [])) with (at_end w). rewrite Ha.
    eexists. split; [done|]. split_and!; try done.
  - pose proof (advance_loop_walk (walk_fuel w) (set_tombstone new w) pos (w_tombstone w) new []) as Hloop.
    change (todo (set_tombstone new w)) with (todo w) in Hloop. change (w_in_current (set_tombstone new w)) with (w_in_current w) in Hloop.
    destruct (walk (w_in_current w) (todo w) pos (w_tombstone w) new) as [[c rts] remaining].
    destruct Hloop as (w' & -> & Hw'); [destruct Hok; by split|done|done|]. exists w'. by rewrite app_nil_r.
Qed.

(** * What walking means *)

Abbreviation active_at := (active_at types).
Abbreviation clustered_position := (clustered_position types).

Definition in_segment (sg : segment) (x : place) : bool := between types (general_place sg.1) (general_place sg.2) x.
Definition inside (segs : list segment) (x : place) : bool := existsb (fun sg => in_segment sg x) segs.

(** The segments are in order. The walker is in the first one, or they are all from [m] on. *)
Fixpoint segments_ok (inc : bool) (m : place) (segs : list segment) : Prop :=
  match segs with
  | [] => True
  | (s, e) :: segs =>
    position_ok types s /\ clustered_position e /\ place_lt (general_place e) (general_place s) = false /\
    (if inc then place_lt m (general_place s) = false /\ place_lt (general_place e) m = false
     else clustered_position s /\ place_lt (general_place s) m = false) /\
    segments_ok false (general_place e) segs
  end.

Lemma segments_ok_weaken m n segs : segments_ok false m segs -> place_lt m n = false -> segments_ok false n segs.
Proof using Htypes.
  destruct segs as [|[s e] segs]; [done|]. intros (? & ? & ? & [? ?] & ?) Hn. split_and!; try done. places [m; n; general_place s].
Qed.

Lemma inside_before m segs x : segments_ok false m segs -> place_lt x m = true -> inside segs x = false.
Proof using Htypes.
  revert m. induction segs as [|[s e] segs IH]; intros m; [done|]. intros (_ & _ & Hse & [_ Hm] & Hsegs) Hx. cbn [inside existsb].
  assert (place_lt x (general_place s) = true) as Hxs by (places [x; m; general_place s]).
  change (existsb _ segs) with (inside segs x). rewrite (IH (general_place e)); [|done|places [x; general_place s; general_place e]].
  unfold in_segment, between. cbn [fst snd]. by rewrite Hxs.
Qed.

(** Changes between two places, in order. *)
Definition changes_between (m u : place) (cs : list change) : Prop :=
  Forall (fun c => place_lt (change_place c) m = false /\ place_lt u (change_place c) = false) cs /\
  StronglySorted (fun c d => place_lt (change_place d) (change_place c) = false) cs.

Lemma changes_between_nil m u : changes_between m u [].
Proof using. split; constructor. Qed.

Lemma changes_between_one m u c :
  place_lt (change_place c) m = false -> place_lt u (change_place c) = false -> changes_between m u [c].
Proof using. intros. split; repeat constructor; done. Qed.

Lemma changes_between_app m n u cs ds :
  changes_between m n cs -> changes_between n u ds -> place_lt n m = false -> place_lt u n = false -> changes_between m u (cs ++ ds).
Proof using Htypes.
  intros [Hcs Hsc] [Hds Hsd] Hn Hu. rewrite !Forall_forall in *. split.
  - rewrite Forall_forall. intros c [Hc|Hc]%elem_of_app; [specialize (Hcs c Hc) as []|specialize (Hds c Hc) as []]; split; try done; places [m; n; u; change_place c].
  - apply StronglySorted_app_2; [|done|done]. intros c d Hc Hd. destruct (Hcs c Hc), (Hds d Hd). places [n; change_place c; change_place d].
Qed.

Lemma active_at_between_r m n t cs ds x :
  changes_between m n cs -> place_lt x n = false -> active_at t (cs ++ ds) x = active_at (last_tombstone t cs) ds x.
Proof using Htypes.
  intros [Hcs _] Hx. rewrite Forall_forall in Hcs. apply active_at_app. intros c Hc. destruct (Hcs c Hc). places [x; n; change_place c].
Qed.

Lemma active_at_between_l n u t cs ds x :
  changes_between n u ds -> place_lt x n = true -> active_at t (cs ++ ds) x = active_at t cs x.
Proof using Htypes.
  intros [Hds _] Hx. rewrite Forall_forall in Hds. apply active_at_app_l. intros c Hc. destruct (Hds c Hc). places [x; n; change_place c].
Qed.

(** A tombstone that deletes nothing is the empty one. *)
Definition normal (t : tombstone) : Prop := tombstone_bool t = false -> t = no_tombstone.

Lemma open_segment_spec inc prev s m :
  normal prev -> (inc = false -> clustered_position s) ->
  let mid := if inc then m else general_place s in
  changes_between mid mid (open_segment inc prev s) /\
  last_tombstone (if inc then prev else no_tombstone) (open_segment inc prev s) = prev.
Proof using Htypes.
  intros Hprev Hs. unfold open_segment. destruct inc; simpl; [by split; [apply changes_between_nil|]|].
  destruct (tombstone_bool prev) eqn:Hb; [|split; [apply changes_between_nil|]; by rewrite Hprev].
  split; [|done]. specialize (Hs eq_refl).
  apply changes_between_one; unfold change_place; simpl; rewrite <- (general_clustered types) by done; places [general_place s].
Qed.

Lemma close_segment_spec prev e :
  normal prev -> clustered_position e ->
  changes_between (general_place e) (general_place e) (close_segment prev e) /\
  last_tombstone prev (close_segment prev e) = no_tombstone.
Proof using Htypes.
  intros Hprev He. unfold close_segment. destruct (tombstone_bool prev) eqn:Hb; [|split; [apply changes_between_nil|]; by rewrite Hprev].
  split; [|done]. apply changes_between_one; unfold change_place; simpl; rewrite <- (general_clustered types) by done; places [general_place e].
Qed.

(** From [m] to [P], the changes cut the tombstone to the segments. *)
Record walked (inc : bool) (m : place) (segs : list segment) (P : place) (prev new : tombstone)
    (c : bool) (rts : list change) (remaining : list segment) : Prop := {
  walked_contained : c = inside segs P;
  walked_between : changes_between m P rts;
  walked_last : last_tombstone (if inc then prev else no_tombstone) rts = if c then new else no_tombstone;
  walked_active : forall x, place_lt x m = false -> place_lt P x = false ->
    active_at (if inc then prev else no_tombstone) rts x = if inside segs x then (if place_lt x P then prev else new) else no_tombstone;
  walked_ok : segments_ok c P remaining;
  walked_entered : c = true -> remaining <> [];
  walked_after : forall x, place_lt x P = false -> inside remaining x = inside segs x;
}.

Lemma position_less_place a b :
  position_ok types a -> position_ok types b -> position_less types a b = place_lt (general_place a) (general_place b).
Proof using. intros. unfold position_less. rewrite position_tri_compare_place by done. unfold place_ltb. by destruct (cmp _ _). Qed.

Lemma inside_cons sg segs x : inside (sg :: segs) x = in_segment sg x || inside segs x.
Proof using. done. Qed.

Section step.
Context (m : place) (pos : position) (prev new : tombstone).
Context (Hpos : position_ok types pos) (Hm : place_lt (general_place pos) m = false) (Hprev : normal prev).
Context (Hnew : prev = new \/ clustered_position pos).
Abbreviation P := (general_place pos).

Lemma walked_before s e segs :
  segments_ok false m ((s, e) :: segs) -> place_lt P (general_place s) = true -> walked false m ((s, e) :: segs) P prev new false [] ((s, e) :: segs).
Proof using Htypes Hm.
  intros Hok Hlt. assert (segments_ok false (general_place s) ((s, e) :: segs)) as Hs.
  { destruct Hok as (? & ? & ? & [? ?] & ?). split_and!; try done. places [general_place s]. }
  split; try done.
  - by rewrite (inside_before (general_place s)).
  - apply changes_between_nil.
  - intros x _ Hx. rewrite (inside_before (general_place s)); [done..|]. places [x; P; general_place s].
  - apply (segments_ok_weaken (general_place s)); [done|]. places [P; general_place s].
Qed.

(** The walker enters the segment, or is in it, and the position is before its end. *)
Lemma walked_in inc s e segs :
  segments_ok inc m ((s, e) :: segs) -> negb inc && place_lt P (general_place s) = false -> place_lt P (general_place e) = true ->
  walked inc m ((s, e) :: segs) P prev new true
    (open_segment inc prev s ++ (if bool_decide (prev = new) then [] else [RangeTombstoneChange pos new])) ((s, e) :: segs).
Proof using Htypes Hm Hprev Hnew.
  intros (Hs & He & Hse & Hinc & Hsegs) Hbefore Hlt.
  set (mid := if inc then m else general_place s).
  assert (place_lt mid m = false /\ place_lt P mid = false /\ place_lt mid (general_place s) = false /\ place_lt P (general_place s) = false) as (Hmid & HmidP & Hmids & HPs).
  { unfold mid. destruct inc; simpl in Hbefore; destruct Hinc; split_and!; try done; places [m; P; general_place s]. }
  destruct (open_segment_spec inc prev s m) as [Hopen Hlast]; [done|by intros ->; apply Hinc|]. fold mid in Hopen.
  set (tl := if bool_decide (prev = new) then [] else _).
  assert (changes_between P P tl /\ last_tombstone prev tl = new) as [Htl Hlast'].
  { unfold tl. case_bool_decide; [by split; [apply changes_between_nil|]|]. destruct Hnew as [?|Hcl]; [done|].
    split; [|done]. apply changes_between_one; unfold change_place; simpl; rewrite <- (general_clustered types) by done; places [P]. }
  assert (forall x, place_lt x (general_place e) = true -> inside ((s, e) :: segs) x = negb (place_lt x (general_place s))) as Hin.
  { intros x Hx. rewrite inside_cons, (inside_before (general_place e) segs) by done. unfold in_segment, between. simpl. by rewrite Hx, andb_true_r, orb_false_r. }
  split.
  - by rewrite Hin, HPs.
  - apply (changes_between_app _ P); [|done|done|places [P]]. rewrite <- (app_nil_r (open_segment _ _ _)).
    apply (changes_between_app _ mid); [|apply changes_between_nil|done|done]. destruct Hopen as [Ho ?]. split; [|done].
    eapply Forall_impl; [done|]. intros c [? ?]. split; [|done]. places [m; mid; change_place c].
  - by rewrite last_tombstone_app, Hlast.
  - intros x Hxm HxP. rewrite Hin by (places [x; P; general_place e]). destruct (place_lt x mid) eqn:Hxmid.
    + assert (inc = false) as -> by (unfold mid in Hxmid; destruct inc; [congruence|done]). unfold mid in Hxmid. rewrite Hxmid. simpl.
      rewrite (active_at_between_l P P) by (try done; places [x; P; mid; general_place s]).
      apply (active_at_between_l mid mid _ [] _ _ Hopen). done.
    + rewrite (active_at_between_r mid mid) by done. rewrite Hlast.
      assert (place_lt x (general_place s) = false) as -> by (places [x; mid; general_place s]). simpl. unfold tl.
      case_bool_decide as Heq; [rewrite Heq; by destruct (place_lt x P)|]. destruct Hnew as [?|Hcl]; [done|].
      simpl. unfold change_place. simpl. by rewrite <- (general_clustered types).
  - split_and!; try done. places [P; general_place e].
  - done.
  - done.
Qed.

Lemma walked_past inc s e segs c rts remaining :
  segments_ok inc m ((s, e) :: segs) -> negb inc && place_lt P (general_place s) = false -> place_lt P (general_place e) = false ->
  walked false (general_place e) segs P prev new c rts remaining ->
  walked inc m ((s, e) :: segs) P prev new c (open_segment inc prev s ++ close_segment prev e ++ rts) remaining.
Proof using Htypes Hm Hprev.
  intros (Hs & He & Hse & Hinc & Hsegs) Hbefore Hlt [Hc Hbet Hlst Hact Hrem Hent Haft].
  set (mid := if inc then m else general_place s).
  assert (place_lt mid m = false /\ place_lt (general_place e) mid = false /\ place_lt mid (general_place s) = false) as (Hmid & Hmide & Hmids).
  { unfold mid. destruct inc; simpl in Hbefore; destruct Hinc; split_and!; try done; places [m; P; general_place s]. }
  destruct (open_segment_spec inc prev s m) as [Hopen Hlast]; [done|by intros ->; apply Hinc|]. fold mid in Hopen.
  destruct (close_segment_spec prev e) as [Hclose Hlast']; [done..|].
  assert (forall x, place_lt x (general_place e) = false -> in_segment (s, e) x = false) as Hout.
  { intros x Hx. unfold in_segment, between. simpl. by rewrite Hx, andb_false_r. }
  assert (changes_between m (general_place e) (open_segment inc prev s ++ close_segment prev e)) as Hoc.
  { apply (changes_between_app _ (general_place e)); [|done|places [m; mid; general_place e]|places [general_place e]].
    destruct Hopen as [Ho ?]. split; [|done]. eapply Forall_impl; [done|]. intros d [? ?]. split; places [m; mid; general_place e; change_place d]. }
  rewrite app_assoc. split.
  - by rewrite inside_cons, Hout.
  - apply (changes_between_app _ (general_place e)); try done. places [m; mid; general_place e].
  - by rewrite !last_tombstone_app, Hlast, Hlast'.
  - intros x Hxm HxP. rewrite inside_cons. destruct (place_lt x (general_place e)) eqn:Hxe.
    + rewrite (inside_before (general_place e) segs), orb_false_r by done. rewrite (active_at_between_l (general_place e) P) by done.
      rewrite (active_at_between_l (general_place e) (general_place e)) by done. unfold in_segment, between. simpl. rewrite Hxe, andb_true_r.
      assert (place_lt x P = true) as -> by (places [x; P; general_place e]). destruct (place_lt x mid) eqn:Hxmid.
      * assert (inc = false) as -> by (unfold mid in Hxmid; destruct inc; [congruence|done]). unfold mid in Hxmid. rewrite Hxmid. simpl.
        by apply (active_at_between_l mid mid _ [] _ _ Hopen).
      * rewrite <- (app_nil_r (open_segment _ _ _)), (active_at_between_r mid mid) by done. rewrite Hlast.
        by assert (place_lt x (general_place s) = false) as -> by (places [x; mid; general_place s]).
    + rewrite Hout by done. simpl. rewrite (active_at_between_r m (general_place e)) by done. rewrite last_tombstone_app, Hlast, Hlast'. by apply Hact.
  - done.
  - done.
  - intros x Hx. rewrite inside_cons, Hout, Haft by (try done; places [x; P; general_place e]). done.
Qed.

End step.

Lemma walk_walked inc segs m pos prev new :
  segments_ok inc m segs -> (inc = true -> segs <> []) -> position_ok types pos -> place_lt (general_place pos) m = false ->
  normal prev -> prev = new \/ clustered_position pos ->
  let '(c, rts, remaining) := walk inc segs pos prev new in walked inc m segs (general_place pos) prev new c rts remaining.
Proof using Htypes.
  intros Hok Hinc Hpos Hm Hprev Hnew. revert inc m Hok Hinc Hm.
  induction segs as [|[s e] segs IH]; intros inc m Hok Hinc Hm; cbn [walk].
  { assert (inc = false) as -> by (destruct inc; [by destruct Hinc|done]). split; try done. apply changes_between_nil. }
  pose proof Hok as (Hs & He & _ & _ & Hsegs). rewrite !position_less_place by (try done; apply He).
  destruct (negb inc && place_lt (general_place pos) (general_place s)) eqn:Hbefore.
  { apply andb_true_iff in Hbefore as [Hi Hlt]. destruct inc; [done|]. by apply walked_before. }
  destruct (place_lt (general_place pos) (general_place e)) eqn:Hlt; [by apply walked_in|].
  specialize (IH false (general_place e) Hsegs). destruct (walk false segs pos prev new) as [[c rts] remaining].
  apply walked_past; try done. by apply IH.
Qed.

(** * Advancing along a stream *)

Definition top_place : place := position_place after_all_clustered_rows.

Lemma top_last (p : position) : place_lt top_place (position_place p) = false.
Proof using.
  unfold place_ltb, place_compare, top_place, position_place. rewrite place_tri_compare_eq.
  destruct (p_ck p) as [[|v ck]|]; simpl; [by destruct (p_weight p)|done..].
Qed.

Lemma after_all_clustered : clustered_position after_all_clustered_rows.
Proof using. split; [|done]. split; [done|]. simpl. lia. Qed.

Lemma walk_end_walked m pos prev new :
  position_ok types pos -> place_lt (general_place pos) m = false -> normal prev -> place_lt top_place m = false \/ prev = no_tombstone ->
  walked false m [] (general_place pos) prev new false (walk_end pos prev) [].
Proof using Htypes.
  intros Hpos Hm Hprev Htop. unfold walk_end. pose proof after_all_clustered as Hcl.
  rewrite position_less_place by (try done; apply Hcl). rewrite (general_clustered types after_all_clustered_rows) by done. fold top_place.
  assert (walked false m [] (general_place pos) prev new false [] []) as Hnil by (split; try done; apply changes_between_nil).
  destruct (place_lt (general_place pos) top_place) eqn:Hlt; [done|]. unfold open_segment, close_segment. simpl.
  destruct (tombstone_bool prev) eqn:Hb; [|done]. destruct Htop as [Htop| ->]; [|done]. split; try done.
  - apply (changes_between_app _ top_place _ [_] [_]); try done; [apply changes_between_one|apply changes_between_one];
      unfold change_place; simpl; fold top_place; try done; places [top_place].
  - intros x _ _. cbn. unfold change_place. cbn [rtc_position]. cbn. by destruct (place_lt x ([], 1)).
Qed.

Lemma advance_to_walked w m pos new :
  walker_ok w -> segments_ok (w_in_current w) m (todo w) -> (w_in_current w = true -> todo w <> []) ->
  position_ok types pos -> place_lt (general_place pos) m = false -> place_lt top_place m = false \/ w_tombstone w = no_tombstone ->
  normal (w_tombstone w) -> w_tombstone w = new \/ clustered_position pos ->
  exists c rts w', advance_to types w pos new = Ret (Progress c rts, w') /\ walker_ok w' /\ w_in_current w' = c /\ w_tombstone w' = new /\
  walked (w_in_current w) m (todo w) (general_place pos) (w_tombstone w) new c rts (todo w').
Proof using Htypes.
  intros Hok Hsegs Hin Hpos Hm Htop Hprev Hnew. pose proof (advance_to_walk w pos new Hok) as Hadv.
  pose proof (walk_walked _ _ _ _ _ _ Hsegs Hin Hpos Hm Hprev Hnew) as Hwalk. destruct (walk _ _ _ _ _) as [[c rts] remaining] eqn:Hw.
  destruct Hadv as (w' & Hadv & Hok' & Htd & Hc & Ht). eexists c, _, w'. split; [exact Hadv|]. split_and!; try done. rewrite Htd.
  case_bool_decide as Hend; [|by rewrite app_nil_r]. rewrite Hend in *. cbn [walk] in Hw. injection Hw as <- <- <-.
  assert (w_in_current w = false) as -> by (destruct (w_in_current w); [by destruct Hin|done]). by apply walk_end_walked.
Qed.

(** The walker has gone to [m]: [ins] are the changes that it was given, [outs] those that it made. *)
Record tracks (segs0 : list segment) (w : walker) (m : place) (ins outs : list change) : Prop := {
  tracks_ok : walker_ok w;
  tracks_segments : segments_ok (w_in_current w) m (todo w);
  tracks_in : w_in_current w = true -> todo w <> [];
  tracks_todo : forall x, place_lt x m = false -> inside (todo w) x = inside segs0 x;
  tracks_tombstone : w_tombstone w = last_tombstone no_tombstone ins;
  tracks_normal : normal (w_tombstone w);
  tracks_ins : Forall (fun c => place_lt m (change_place c) = false) ins;
  tracks_outs : changes_between nowhere m outs;
  tracks_last : last_tombstone no_tombstone outs = if w_in_current w then w_tombstone w else no_tombstone;
  tracks_active : forall x, place_lt m x = false ->
    active_at no_tombstone outs x = if inside segs0 x then active_at no_tombstone ins x else no_tombstone;
}.

(** The change that a call gives, if it changes the tombstone. *)
Definition given (t : tombstone) (pos : position) (new : tombstone) : list change :=
  if bool_decide (t = new) then [] else [RangeTombstoneChange pos new].

Lemma last_given t pos new : last_tombstone t (given t pos new) = new.
Proof using. unfold given. by case_bool_decide. Qed.

Lemma given_at t pos new c : t = new \/ clustered_position pos -> c ∈ given t pos new -> change_place c = general_place pos.
Proof using.
  intros Hpos. unfold given. case_bool_decide; [by intros ?%elem_of_nil|]. intros ->%list_elem_of_singleton. destruct Hpos; [done|].
  unfold change_place. simpl. by rewrite (general_clustered types).
Qed.

Lemma active_at_given t pos new x :
  t = new \/ clustered_position pos -> active_at t (given t pos new) x = if place_lt x (general_place pos) then t else new.
Proof using.
  intros Hpos. unfold given. case_bool_decide as Ht; [subst; by destruct (place_lt _ _)|]. destruct Hpos; [done|].
  simpl. unfold change_place. simpl. by rewrite (general_clustered types).
Qed.

Lemma tracks_advance segs0 w m ins outs pos new :
  tracks segs0 w m ins outs -> position_ok types pos -> place_lt (general_place pos) m = false ->
  place_lt top_place m = false \/ w_tombstone w = no_tombstone -> w_tombstone w = new \/ clustered_position pos -> normal new ->
  place_lt m nowhere = false ->
  exists rts w', advance_to types w pos new = Ret (Progress (inside segs0 (general_place pos)) rts, w') /\
  changes_between m (general_place pos) rts /\ w_in_current w' = inside segs0 (general_place pos) /\
  tracks segs0 w' (general_place pos) (ins ++ given (w_tombstone w) pos new) (outs ++ rts).
Proof using Htypes.
  intros [Hok Hsegs Hin Htodo Ht Hn Hins Houts Hlast Hact] Hpos Hm Htop Hnew Hnn Hm0.
  destruct (advance_to_walked w m pos new) as (c & rts & w' & Hadv & Hok' & Hc & Ht' & [Hcon Hbet Hlst Hact' Hsegs' Hent Haft]); [done..|].
  rewrite Htodo in Hcon by done. exists rts, w'. rewrite <- Hcon. split; [done|]. split; [done|]. split; [done|].
  assert (Forall (fun d => place_lt (general_place pos) (change_place d) = false) (ins ++ given (w_tombstone w) pos new)) as Hins'.
  { rewrite Forall_app, !Forall_forall in *. split; intros d Hd; [specialize (Hins d Hd); places [m; general_place pos; change_place d]|].
    rewrite (given_at _ _ _ _ Hnew Hd). places [general_place pos]. }
  split; try done.
  - by rewrite Hc.
  - by rewrite Hc.
  - intros x Hx. rewrite Haft, Htodo; [done| |done]. places [x; m; general_place pos].
  - by rewrite last_tombstone_app, <- Ht, last_given.
  - by rewrite Ht'.
  - by apply (changes_between_app _ m).
  - by rewrite last_tombstone_app, Hlast, Hlst, Hc, Ht'.
  - intros x Hx. destruct (place_lt x m) eqn:Hxm.
    + rewrite (active_at_between_l m (general_place pos)) by done. rewrite Hact by (places [x; m]).
      rewrite (active_at_app_l types _ ins); [done|]. intros d Hd. rewrite (given_at _ _ _ _ Hnew Hd). places [x; m; general_place pos].
    + rewrite (active_at_between_r nowhere m) by done. rewrite Hlast, Hact', Htodo by done.
      rewrite (active_at_app types _ ins), <- Ht, active_at_given; [done|done|].
      intros d Hd. rewrite Forall_forall in Hins. specialize (Hins d Hd). places [x; m; change_place d].
Qed.

(** ** From the beginning *)

(** The ranges are in order and do not overlap. *)
Definition ranges_in_order (ranges : list clustering_range) : Prop := segments_ok false nowhere (segment_of <$> ranges).

Definition in_ranges (ranges : list clustering_range) (x : place) : bool :=
  existsb (fun r => between types (position_place (position_for_range_start r)) (position_place (position_for_range_end r)) x) ranges.

(** What the walker is asked for: the static row, which lies before all rows, and the ranges. *)
Definition requested (with_static_row : bool) (ranges : list clustering_range) (x : place) : bool :=
  (with_static_row && between types nowhere bottom_place x) || in_ranges ranges x.

Lemma inside_ranges m ranges x : segments_ok false m (segment_of <$> ranges) -> inside (segment_of <$> ranges) x = in_ranges ranges x.
Proof using.
  revert m. induction ranges as [|r ranges IH]; intros m; [done|]. intros (_ & He & _ & [Hs _] & Hr).
  change (inside (segment_of <$> r :: ranges) x) with (in_segment (segment_of r) x || inside (segment_of <$> ranges) x).
  rewrite (IH _ Hr). unfold in_segment. simpl. by rewrite !(general_clustered types) by done.
Qed.

Lemma make_walker_inside ranges st x :
  ranges_in_order ranges -> inside (todo (make_walker ranges st)) x = requested st ranges x.
Proof using Htypes.
  intros Hr. unfold requested. rewrite <- (inside_ranges nowhere) by done. destruct st; simpl.
  - destruct ranges as [|r ranges]; [done|].
    unfold make_walker, set_current_positions. cbn -[inside fmap]. case_bool_decide as Hs; [|done].
    change (inside ((for_static_row, position_for_range_end r) :: (segment_of <$> ranges)) x =
      between types nowhere bottom_place x || inside (segment_of r :: (segment_of <$> ranges)) x).
    destruct Hr as (_ & He & Hse & _). rewrite !inside_cons, orb_assoc. f_equal. unfold in_segment, between. cbn [fst snd segment_of] in *.
    assert (position_place (position_for_range_start r) = bottom_place) as Hb by (unfold position_for_range_start, from_range_start; by rewrite Hs).
    assert (p_type (position_for_range_start r) = clustered) as Ht by (unfold position_for_range_start, from_range_start; by rewrite Hs).
    assert (general_place (position_for_range_start r) = bottom_place) as Hg by (unfold general_place; by rewrite Ht).
    rewrite Hg in *. change (general_place for_static_row) with (nowhere (V := V)).
    pose proof (bottom_between types) as (Hbn & _ & _). places [x; nowhere (V := V); bottom_place (V := V); general_place (position_for_range_end r)].
  - destruct ranges as [|r ranges]; [|done]. change (in_segment (before_all_clustered_rows, before_all_clustered_rows) x || false = false).
    rewrite orb_false_r. unfold in_segment, between. simpl. by destruct (place_lt x _).
Qed.

Lemma make_walker_segments ranges st : ranges_in_order ranges -> segments_ok st nowhere (todo (make_walker ranges st)).
Proof using Htypes.
  intros Hr. pose proof (bottom_between types) as (Hbn & _ & _).
  assert (clustered_position before_all_clustered_rows) as Hcl by (split; [split; [done|simpl; lia]|done]).
  assert (place_lt nowhere (nowhere (V := V)) = false) as Hnn by (places [nowhere (V := V)]).
  assert (forall p, clustered_position p -> place_lt (general_place p) nowhere = false) as Hn.
  { intros p Hp. rewrite (general_clustered types) by done. unfold place_ltb. by rewrite (proj2 (place_nowhere types p)). }
  assert (forall r, clustered_position (position_for_range_start r) -> place_lt (general_place (position_for_range_start r)) bottom_place = false) as Hbot.
  { intros r Hs. rewrite (general_clustered types) by done. apply bottom_first. }
  destruct st, ranges as [|r ranges]; simpl.
  - by split_and!.
  - unfold make_walker, set_current_positions. cbn -[segments_ok fmap]. destruct Hr as (Hs & He & Hse & [Hsc Hsn] & Hr).
    case_bool_decide as Hnone.
    + change (segments_ok true nowhere ((for_static_row, position_for_range_end r) :: (segment_of <$> ranges))).
      split_and!; try done; by apply Hn.
    + change (segments_ok true nowhere ((for_static_row, before_all_clustered_rows) :: (segment_of <$> r :: ranges))).
      split_and!; try done. change (segments_ok false bottom_place (segment_of r :: (segment_of <$> ranges))). split_and!; try done. by apply Hbot.
  - split_and!; try done. apply Hcl.
  - done.
Qed.

Lemma tracks_start ranges st :
  ranges_in_order ranges -> tracks (todo (make_walker ranges st)) (make_walker ranges st) nowhere [] [].
Proof using Htypes.
  intros Hr. assert (w_past_current (make_walker ranges st) = false /\ w_in_current (make_walker ranges st) = st /\
    at_end (make_walker ranges st) = false /\ w_tombstone (make_walker ranges st) = no_tombstone) as (Hpast & Hin & Hend & Ht).
  { unfold make_walker, set_current_positions. destruct st, ranges as [|r ranges]; simpl; try done; by case_bool_decide. }
  split; rewrite ?Ht, ?Hin; try done.
  - split; [done|]. by rewrite Hend.
  - by apply make_walker_segments.
  - by unfold todo; rewrite Hend.
  - apply changes_between_nil.
  - by destruct st.
  - intros x _. by destruct (inside _ x).
Qed.

(** ** Calls of the walker *)

Fixpoint advance_all (w : walker) (calls : list (position * tombstone)) : outcome Empty_set (list (progress V) * walker) :=
  match calls with
  | [] => Ret ([], w)
  | (pos, new) :: calls =>
    '(p, w) ← advance_to types w pos new;
    '(ps, w) ← advance_all w calls;
    Ret (p :: ps, w)
  end.

(** The positions do not go back, and only change the tombstone among the rows. *)
Fixpoint calls_ok (m : place) (t : tombstone) (calls : list (position * tombstone)) : Prop :=
  match calls with
  | [] => True
  | (pos, new) :: calls =>
    position_ok types pos /\ place_lt (general_place pos) m = false /\ place_lt top_place (general_place pos) = false /\
    (t = new \/ clustered_position pos) /\ normal new /\ calls_ok (general_place pos) new calls
  end.

(** The changes of the tombstone that the calls make. *)
Fixpoint changes_given (t : tombstone) (calls : list (position * tombstone)) : list change :=
  match calls with
  | [] => []
  | (pos, new) :: calls => given t pos new ++ changes_given new calls
  end.

Fixpoint last_place (m : place) (calls : list (position * tombstone)) : place :=
  match calls with
  | [] => m
  | (pos, _) :: calls => last_place (general_place pos) calls
  end.

Lemma tracks_advance_all segs0 w m ins outs calls :
  tracks segs0 w m ins outs -> calls_ok m (w_tombstone w) calls -> place_lt m nowhere = false -> place_lt top_place m = false ->
  exists ps w', advance_all w calls = Ret (ps, w') /\
  pg_contained <$> ps = (fun call => inside segs0 (general_place call.1)) <$> calls /\
  tracks segs0 w' (last_place m calls) (ins ++ changes_given (w_tombstone w) calls) (outs ++ (ps ≫= pg_rts)).
Proof using Htypes.
  revert w m ins outs. induction calls as [|[pos new] calls IH]; intros w m ins outs Htr Hcalls Hm Htop.
  { exists [], w. simpl. by rewrite !app_nil_r. }
  destruct Hcalls as (Hpos & Hpm & Hpt & Hnew & Hnn & Hcalls).
  destruct (tracks_advance segs0 w m ins outs pos new) as (rts & w1 & Hadv & _ & _ & Htr1); try done; [by left|].
  assert (w_tombstone w1 = new) as Hw1.
  { by rewrite (tracks_tombstone _ _ _ _ _ Htr1), last_tombstone_app, <- (tracks_tombstone _ _ _ _ _ Htr), last_given. }
  destruct (IH w1 (general_place pos) _ _ Htr1) as (ps & w' & Hall & Hcon & Htr'); [by rewrite Hw1|places [nowhere (V := V); m; general_place pos]|done|].
  rewrite Hw1, <- !app_assoc in Htr'.
  eexists (_ :: ps), w'. cbn [advance_all]. rewrite Hadv. cbn [mbind outcome_bind]. rewrite Hall. split; [done|]. cbn [fmap list_fmap pg_contained fst].
  rewrite Hcon. done.
Qed.

(** A walker over clustering ranges that are in order, advanced to positions that do not go
    back, returns from every call; a position is contained exactly if it is in one of the ranges
    (or is the static row, if that was asked for), and the changes that it makes, up to the last
    position, make active at every place in the ranges what the changes that it was given make
    active there, and nothing outside of the ranges; they are in order and in between nothing is
    left open outside of the ranges. *)
Theorem advance_to_correct ranges with_static_row calls :
  ranges_in_order ranges -> calls_ok nowhere no_tombstone calls ->
  exists ps w', advance_all (make_walker ranges with_static_row) calls = Ret (ps, w') /\
  pg_contained <$> ps = (fun call => requested with_static_row ranges (general_place call.1)) <$> calls /\
  (forall x, place_lt (last_place nowhere calls) x = false ->
    active_at no_tombstone (ps ≫= pg_rts) x =
    if requested with_static_row ranges x then active_at no_tombstone (changes_given no_tombstone calls) x else no_tombstone) /\
  StronglySorted (fun c d => place_lt (change_place d) (change_place c) = false) (ps ≫= pg_rts) /\
  last_tombstone no_tombstone (ps ≫= pg_rts) = if w_in_current w' then last_tombstone no_tombstone (changes_given no_tombstone calls) else no_tombstone.
Proof using Htypes.
  intros Hr Hcalls. pose proof (tracks_start ranges with_static_row Hr) as Htr.
  pose proof (tracks_tombstone _ _ _ _ _ Htr) as Ht. simpl in Ht.
  destruct (tracks_advance_all _ _ _ _ _ calls Htr) as (ps & w' & Hall & Hcon & [_ _ _ _ Hwt _ _ [_ Hsort] Hlast Hact]).
  - by rewrite Ht.
  - places [nowhere (V := V)].
  - unfold place_ltb. by rewrite (proj2 (place_nowhere types after_all_clustered_rows) : cmp top_place nowhere = Gt).
  - rewrite Ht in *. simpl in *. exists ps, w'. split; [done|]. split.
    { rewrite Hcon. apply list_fmap_ext. intros _ call _. by apply make_walker_inside. }
    split; [|split; [done|by rewrite <- Hwt]]. intros x Hx. by rewrite <- make_walker_inside, Hact.
Qed.

(** * The slicer *)

Context {D St R : Type}.
Abbreviation fragment := (mutation_fragment_v2 V D St R).

Fixpoint slice (sl : partition_slicer V) (fs : list fragment) : outcome Empty_set (list fragment * partition_slicer V) :=
  match fs with
  | [] => Ret ([], sl)
  | f :: fs =>
    '(out, sl) ← slicer_apply types sl f;
    '(out', sl) ← slice sl fs;
    Ret (out ++ out', sl)
  end.

(** Rows and changes of a partition, at places that do not go back. *)
Fixpoint stream_in_order (m : place) (fs : list fragment) : Prop :=
  match fs with
  | [] => True
  | clustering_row_v2 ck _ :: fs =>
    (length ck <= length types)%nat /\ place_lt (key_place ck) m = false /\ stream_in_order (key_place ck) fs
  | range_tombstone_change_v2 c :: fs =>
    clustered_position (rtc_position c) /\ place_lt (change_place c) m = false /\ normal (rtc_tombstone c) /\ stream_in_order (change_place c) fs
  | _ => False
  end.

Fixpoint stream_end (m : place) (fs : list fragment) : place :=
  match fs with
  | [] => m
  | f :: fs => stream_end (default m (fragment_place f)) fs
  end.

Definition places_between (m u : place) (ps : list place) : Prop :=
  Forall (fun p => place_lt p m = false /\ place_lt u p = false) ps /\ StronglySorted (fun p q => place_lt q p = false) ps.

Lemma places_between_app m n u ps qs :
  places_between m n ps -> places_between n u qs -> place_lt n m = false -> place_lt u n = false -> places_between m u (ps ++ qs).
Proof using Htypes.
  intros [Hps Hsp] [Hqs Hsq] Hn Hu. rewrite !Forall_forall in *. split.
  - rewrite Forall_forall. intros p [Hp|Hp]%elem_of_app; [destruct (Hps p Hp)|destruct (Hqs p Hp)]; split; try done; places [m; n; u; p].
  - apply StronglySorted_app_2; [|done|done]. intros p q Hp Hq. destruct (Hps p Hp), (Hqs q Hq). places [n; p; q].
Qed.

Lemma places_between_changes m u cs : changes_between m u cs -> places_between m u (omap fragment_place (range_tombstone_change_v2 <$> cs : list fragment)).
Proof using.
  intros [Hall Hs]. assert (omap fragment_place (range_tombstone_change_v2 <$> cs : list fragment) = change_place <$> cs) as ->.
  { clear. induction cs; simpl; [done|]. by f_equal. }
  split; [by apply Forall_fmap|]. clear Hall. induction Hs as [|c cs Hs IH Hc]; constructor; [done|]. by apply Forall_fmap.
Qed.

Lemma tracks_redundant segs0 w m ins outs c :
  tracks segs0 w m ins outs -> rtc_tombstone c = w_tombstone w -> change_place c = m -> tracks segs0 w m (ins ++ [c]) outs.
Proof using Htypes.
  intros [Hok Hsegs Hin Htodo Ht Hn Hins Houts Hlast Hact] Hc <-. split; try done.
  - by rewrite last_tombstone_app.
  - apply Forall_app. split; [done|]. constructor; [|constructor]. places [change_place c].
  - intros x Hx. rewrite Hact by done. destruct (inside segs0 x); [|done]. destruct (place_lt x (change_place c)) eqn:Hxc.
    + rewrite active_at_app_l; [done|]. by intros d ->%list_elem_of_singleton.
    + assert (forall d, d ∈ ins -> place_lt x (change_place d) = false) as Hall.
      { intros d Hd. rewrite Forall_forall in Hins. specialize (Hins d Hd). places [x; change_place c; change_place d]. }
      rewrite (active_at_app types _ ins [c]) by done. simpl. rewrite Hxc, Hc, Ht.
      rewrite <- (app_nil_r ins) at 1. by rewrite (active_at_app types _ ins []).
Qed.

(** Rows that are in the ranges. *)
Definition rows_inside (segs0 : list segment) (rows : list (list V * R * tombstone)) : list (list V * R * tombstone) :=
  filter (fun row => inside segs0 (key_place row.1.1) = true) rows.

Lemma slicer_apply_spec segs0 sl m ins outs f fs :
  tracks segs0 (sl_ranges_walker sl) m ins outs -> stream_in_order m (f :: fs) -> place_lt m nowhere = false -> place_lt top_place m = false ->
  exists out sl' m', slicer_apply types sl f = Ret (out, sl') /\ Some m' = fragment_place f /\ stream_in_order m' fs /\
  place_lt m' m = false /\ place_lt top_place m' = false /\ places_between m m' (omap fragment_place out) /\
  rows_read (last_tombstone no_tombstone outs) out = rows_inside segs0 (rows_read (last_tombstone no_tombstone ins) [f]) /\
  tracks segs0 (sl_ranges_walker sl') m' (ins ++ changes_of [f]) (outs ++ changes_of out).
Proof using Htypes.
  intros Htr Hf Hm Htop. set (w := sl_ranges_walker sl) in *. destruct f as [d|st|ck r|c|]; try done.
  - destruct Hf as (Hlen & Hlt & Hfs). pose proof (key_is_clustered types ck Hlen) as Hcl.
    assert (general_place (for_key ck) = key_place ck) as Hg by (by rewrite (general_clustered types)).
    destruct (tracks_advance segs0 w m ins outs (for_key ck) (w_tombstone w)) as (rts & w1 & Hadv & Hbet & Hin & Htr1);
      try first [done|by rewrite Hg|by left|apply Hcl|apply (tracks_normal _ _ _ _ _ Htr)]. rewrite Hg in *.
    unfold slicer_apply. fold w. rewrite Hadv. cbn [mbind outcome_bind pg_contained pg_rts].
    unfold given in Htr1. rewrite bool_decide_eq_true_2, app_nil_r in Htr1 by done.
    eexists _, _, _. split; [done|]. split; [done|]. split; [done|]. split; [done|]. split; [by rewrite <- Hg, (general_clustered types); [apply top_last|]|].
    pose proof (places_between_changes _ _ _ Hbet) as Hpl. pose proof (tracks_last _ _ _ _ _ Htr1) as Hlast. rewrite Hin in Hlast.
    rewrite rows_read_changes. unfold rows_inside. cbn [rows_read]. rewrite <- last_tombstone_app, Hlast.
    assert (changes_of [clustering_row_v2 ck r : fragment] = []) as -> by done. rewrite app_nil_r.
    rewrite filter_cons. cbn [fst]. unfold changes_of in *. destruct (inside segs0 (key_place ck)) eqn:Hi; simpl.
    + split.
      { rewrite omap_app. apply (places_between_app _ (key_place ck)); [done| |done|places [key_place ck]].
        split; [|repeat constructor]. constructor; [|constructor]. split; places [key_place ck]. }
      split; [by rewrite (tracks_tombstone _ _ _ _ _ Htr1)|]. rewrite omap_app. fold (changes_of (range_tombstone_change_v2 <$> rts : list fragment)).
      rewrite changes_of_map. simpl. by rewrite app_nil_r.
    + rewrite !app_nil_r. fold (changes_of (range_tombstone_change_v2 <$> rts : list fragment)). by rewrite changes_of_map.
  - destruct Hf as (Hcl & Hlt & Hn & Hfs). unfold change_place in *. set (pos := rtc_position c) in *.
    assert (general_place pos = position_place pos) as Hg by (by apply (general_clustered types)).
    destruct (tracks_advance segs0 w m ins outs pos (rtc_tombstone c)) as (rts & w1 & Hadv & Hbet & Hin & Htr1);
      try first [done|by rewrite Hg|by left|by right|apply Hcl]. rewrite Hg in *.
    unfold slicer_apply. fold w pos. rewrite Hadv. cbn [mbind outcome_bind pg_contained pg_rts].
    eexists _, _, _. split; [done|]. split; [done|]. split; [done|]. split; [done|]. split; [apply top_last|].
    rewrite !app_nil_r. split; [by apply places_between_changes|]. split; [by rewrite rows_read_only_changes|]. rewrite changes_of_map.
    change (changes_of [range_tombstone_change_v2 c]) with [c]. unfold given in Htr1. case_bool_decide as Heq; [|by destruct c].
    rewrite app_nil_r in Htr1. apply tracks_redundant; [done| |done].
    cbn [sl_ranges_walker]. by rewrite (tracks_tombstone _ _ _ _ _ Htr1), <- Heq, (tracks_tombstone _ _ _ _ _ Htr).
Qed.

Lemma rows_inside_app segs0 a b : rows_inside segs0 (a ++ b) = rows_inside segs0 a ++ rows_inside segs0 b.
Proof using. apply filter_app. Qed.

Lemma slice_stream_spec segs0 fs : forall sl m ins outs,
  tracks segs0 (sl_ranges_walker sl) m ins outs -> stream_in_order m fs -> place_lt m nowhere = false -> place_lt top_place m = false ->
  exists out sl', slice sl fs = Ret (out, sl') /\ place_lt (stream_end m fs) m = false /\ place_lt top_place (stream_end m fs) = false /\
  places_between m (stream_end m fs) (omap fragment_place out) /\
  rows_read (last_tombstone no_tombstone outs) out = rows_inside segs0 (rows_read (last_tombstone no_tombstone ins) fs) /\
  tracks segs0 (sl_ranges_walker sl') (stream_end m fs) (ins ++ changes_of fs) (outs ++ changes_of out).
Proof using Htypes.
  induction fs as [|f fs IH]; intros sl m ins outs Htr Hfs Hm Htop.
  { exists [], sl. cbn [stream_end]. split_and!; try done; [places [m]|by split; constructor|by rewrite !app_nil_r]. }
  destruct (slicer_apply_spec segs0 sl m ins outs f fs) as (out & sl1 & m1 & Happ & Hm1 & Hfs1 & Hlt & Htop1 & Hpl & Hrows & Htr1); [done..|].
  destruct (IH sl1 m1 _ _ Htr1 Hfs1) as (out' & sl' & Hsl & Hend & Htop' & Hpl' & Hrows' & Htr'); [places [nowhere (V := V); m; m1]|done|].
  exists (out ++ out'), sl'. cbn [slice stream_end]. rewrite Happ. cbn [mbind outcome_bind]. rewrite Hsl. cbn [mbind outcome_bind].
  rewrite <- Hm1. cbn [default from_option id]. split; [done|]. split; [places [m; m1; stream_end m1 fs]|]. split; [done|]. split.
  { rewrite omap_app. by apply (places_between_app _ m1). }
  rewrite !last_tombstone_app in Hrows'. rewrite <- !app_assoc in Htr'. unfold changes_of in *. rewrite <- !omap_app in Htr'. split.
  - rewrite rows_read_app, Hrows. unfold changes_of. rewrite Hrows'. change (f :: fs) with ([f] ++ fs).
    by rewrite (rows_read_app _ [f] fs), rows_inside_app.
  - done.
Qed.

Lemma slice_app sl a b out sl1 out' sl2 :
  slice sl a = Ret (out, sl1) -> slice sl1 b = Ret (out', sl2) -> slice sl (a ++ b) = Ret (out ++ out', sl2).
Proof using.
  revert sl out. induction a as [|f a IH]; intros sl out; cbn [slice app]; [by intros [= <- <-]|].
  destruct (slicer_apply types sl f) as [[o sl0]| |]; [|done..]. cbn [mbind outcome_bind].
  destruct (slice sl0 a) as [[o' sl0']| |] eqn:Ha; [|done..]. cbn [mbind outcome_bind]. intros [= <- <-] Hb.
  rewrite (IH sl0 o' Ha Hb). cbn [mbind outcome_bind]. by rewrite app_assoc.
Qed.

(** With no tombstone active, advancing makes no changes. *)
Lemma walk_quiet inc segs pos : (walk inc segs pos no_tombstone no_tombstone).1.2 = [].
Proof using.
  revert inc. induction segs as [|[s e] segs IH]; intros inc; [done|]. cbn [walk]. destruct (negb inc && _); [done|].
  unfold open_segment, close_segment. change (tombstone_bool no_tombstone) with false. rewrite andb_false_r.
  destruct (position_less types pos e); [done|]. specialize (IH false). by destruct (walk false segs pos _ _) as [[c rts] remaining].
Qed.

Lemma advance_quiet w pos p w' :
  walker_ok w -> w_tombstone w = no_tombstone -> advance_to types w pos no_tombstone = Ret (p, w') -> pg_rts p = [].
Proof using.
  intros Hok Ht Hadv. pose proof (advance_to_walk w pos no_tombstone Hok) as Hw. rewrite Ht in Hw.
  pose proof (walk_quiet (w_in_current w) (todo w) pos) as Hq. destruct (walk _ _ _ _ _) as [[c rts] remaining]. simpl in Hq. subst rts.
  destruct Hw as (w1 & Hadv' & _). rewrite Hadv in Hadv'. injection Hadv' as -> _. simpl.
  case_bool_decide; [|done]. unfold walk_end. by destruct (position_less types pos _).
Qed.

Lemma slicer_end segs0 sl m ins outs :
  tracks segs0 (sl_ranges_walker sl) m ins outs -> last_tombstone no_tombstone ins = no_tombstone ->
  place_lt m nowhere = false -> place_lt top_place m = false ->
  exists sl', slicer_apply types sl (partition_end_v2 : fragment) = Ret ([partition_end_v2], sl') /\
  tracks segs0 (sl_ranges_walker sl') beyond ins outs.
Proof using Htypes.
  intros Htr Hlast Hm Htop. set (w := sl_ranges_walker sl) in *. pose proof (tracks_tombstone _ _ _ _ _ Htr) as Ht. rewrite Hlast in Ht.
  assert (place_lt beyond m = false) as Hb.
  { pose proof (proj1 (place_beyond types after_all_clustered_rows)) as Hbt. fold top_place in Hbt. places [m; top_place; beyond (V := V)]. }
  destruct (tracks_advance segs0 w m ins outs for_partition_end no_tombstone) as (rts & w1 & Hadv & _ & _ & Htr1); try first [done|by left].
  pose proof (advance_quiet _ _ _ _ (tracks_ok _ _ _ _ _ Htr) Ht Hadv) as Hq. simpl in Hq. subst rts.
  unfold slicer_apply. fold w. rewrite Ht, Hadv. cbn. eexists. split; [done|]. simpl.
  unfold given in Htr1. by rewrite bool_decide_eq_true_2, !app_nil_r in Htr1 by done.
Qed.

(** C18: Slicing the stream of a partition, with or without a static row, to clustering ranges that
    are in order returns; the static row, the end of the partition and the rows in the ranges
    remain, each row with the same tombstone active at it; the changes make active in the ranges
    what the stream made active there, and nothing outside; positions do not go back, and the
    stream ends with no tombstone active. *)
Theorem slicer_correct ranges (statics : option St) (fs : list fragment) :
  ranges_in_order ranges -> stream_in_order nowhere fs -> last_tombstone no_tombstone (changes_of fs) = no_tombstone ->
  let static := match statics with Some st => [static_row_v2 st] | None => [] end in
  exists out sl', slice (make_slicer ranges) (static ++ fs ++ [partition_end_v2]) = Ret (static ++ out ++ [partition_end_v2], sl') /\
  rows_read no_tombstone out = filter (fun row => in_ranges ranges (key_place row.1.1) = true) (rows_read no_tombstone fs) /\
  (forall p, active_at no_tombstone (changes_of out) (position_place p) =
    if in_ranges ranges (position_place p) then active_at no_tombstone (changes_of fs) (position_place p) else no_tombstone) /\
  StronglySorted (fun p q => place_lt q p = false) (omap fragment_place out) /\
  last_tombstone no_tombstone (changes_of out) = no_tombstone.
Proof using Htypes.
  intros Hr Hfs Hlast static. pose proof (tracks_start ranges false Hr) as Htr.
  assert (forall x, inside (todo (make_walker ranges false)) x = in_ranges ranges x) as Hin by (intros x; by apply make_walker_inside).
  set (segs0 := todo (make_walker ranges false)) in *.
  assert (place_lt nowhere (nowhere (V := V)) = false /\ place_lt top_place nowhere = false) as [Hnn Htn].
  { split; [places [nowhere (V := V)]|]. unfold place_ltb. by rewrite (proj2 (place_nowhere types after_all_clustered_rows) : cmp top_place nowhere = Gt). }
  destruct (slice_stream_spec segs0 fs (make_slicer ranges) nowhere [] []) as (out & sl1 & Hsl & Hend & Htop & [_ Hsort] & Hrows & Htr1); [done..|].
  simpl in Htr1, Hrows. destruct (slicer_end segs0 sl1 _ _ _ Htr1 Hlast) as (sl' & Happ & Htr2).
  { places [nowhere (V := V); stream_end nowhere fs]. }
  { done. }
  exists out, sl'. split.
  { eapply slice_app; [|eapply slice_app; [exact Hsl|]]; [by destruct statics|]. cbn [slice]. by rewrite Happ. }
  split.
  { rewrite Hrows. unfold rows_inside. apply list_filter_iff. intros row. by rewrite Hin. }
  split; [|split; [done|]].
  - intros p. rewrite <- Hin. apply (tracks_active _ _ _ _ _ Htr2). unfold place_ltb. by rewrite (proj2 (place_beyond types p)).
  - rewrite (tracks_last _ _ _ _ _ Htr2), (tracks_tombstone _ _ _ _ _ Htr2), Hlast. by destruct (w_in_current _).
Qed.

End theory.

(** * Witnesses *)

Module WalkerExamples.
Import RangeTombstoneExamples.

#[local] Instance walker_types : ColumnTypes columns.
Proof. repeat constructor; apply Z_compare_total. Qed.

Definition range (from to : Z) : clustering_range Z := mk_interval (Some (IntervalBound [from] true)) (Some (IntervalBound [to] true)) false.
Definition two_ranges : list (clustering_range Z) := [range 1 3; range 6 8].
Definition from_key (k : Z) : position_in_partition Z := position_of_bound (BoundView [k] incl_start).
Definition old : tombstone := Tombstone 10 0.

Ltac conjuncts := repeat (hnf; lazymatch goal with |- _ /\ _ => split end).
Ltac in_order_by_computation := conjuncts; try done; try (simpl; lia); first [by left|right; conjuncts; [done|simpl; lia|done]|idtac].

Lemma two_ranges_in_order : ranges_in_order columns two_ranges.
Proof. conjuncts; try done; simpl; lia. Qed.

(** A tombstone from 2 on, with rows in between. *)
Definition calls : list (position_in_partition Z * tombstone) :=
  [(for_static_row, no_tombstone); (from_key 2, old); (for_key [4; 0], old); (for_key [7; 0], old); (from_key 8, no_tombstone)].

Lemma advance_to_correct_witness :
  exists ps w', advance_all columns (make_walker two_ranges true) calls = Ret (ps, w') /\ pg_contained <$> ps = [true; true; false; true; true].
Proof.
  destruct (advance_to_correct columns two_ranges true calls two_ranges_in_order) as (ps & w' & Hall & Hcon & _).
  { in_order_by_computation. }
  exists ps, w'. split; [exact Hall|]. rewrite Hcon. reflexivity.
Defined.

Abbreviation fragment := (mutation_fragment_v2 Z () () Z).

Definition stream : list fragment :=
  [clustering_row_v2 [1; 0] 100; range_tombstone_change_v2 (RangeTombstoneChange (from_key 2) old); clustering_row_v2 [3; 5] 101;
   clustering_row_v2 [4; 0] 102; clustering_row_v2 [7; 0] 103; range_tombstone_change_v2 (RangeTombstoneChange (from_key 8) no_tombstone);
   clustering_row_v2 [8; 1] 104; clustering_row_v2 [9; 1] 105].

Lemma slicer_correct_witness :
  exists out sl', slice columns (make_slicer two_ranges) (static_row_v2 tt :: stream ++ [partition_end_v2]) =
    Ret (static_row_v2 tt :: out ++ [partition_end_v2], sl') /\
  rows_read no_tombstone out = [([1; 0], 100, no_tombstone); ([3; 5], 101, old); ([7; 0], 103, old); ([8; 1], 104, no_tombstone)].
Proof.
  destruct (slicer_correct columns two_ranges (Some tt) stream two_ranges_in_order) as (out & sl' & Hsl & Hrows & _).
  { in_order_by_computation. }
  { reflexivity. }
  exists out, sl'. split; [exact Hsl|]. rewrite Hrows. reflexivity.
Defined.

(** The changes depend on the positions at which the walker is called: with a call after the ranges,
    a tombstone that ends after all rows is opened and closed once more. *)
Lemma redundant_changes_after_ranges :
  let changes_made calls := '(ps, _) ← advance_all columns (make_walker [range 1 3] false) calls; Ret (E := Empty_set) (ps ≫= pg_rts) in
  let until_3 := [RangeTombstoneChange (from_key 2) old; RangeTombstoneChange (position_of_bound (BoundView [3] incl_end)) no_tombstone] in
  changes_made [(from_key 2, old); (after_all_clustered_rows, no_tombstone)] = Ret until_3 /\
  changes_made [(from_key 2, old); (for_key [4; 0], old); (after_all_clustered_rows, no_tombstone)] =
    Ret (until_3 ++ [RangeTombstoneChange after_all_clustered_rows old; RangeTombstoneChange after_all_clustered_rows no_tombstone]).
Proof. by vm_compute. Qed.

End WalkerExamples.
