(* ===== verification/Uuid.v ===== *)
(** UUIDs that hold a time ([src/utils/UUID.hh], [src/utils/UUID_gen.hh], a part of
    [src/utils/UUID_gen.cc]): how the time is laid out in the bits, how they are made, written and
    compared.

    An [int64_t] is a [Z] in its range. The random bits and the identifier of the node, and what the
    clock says, are arguments. Conversions of durations that leave the 64 bits are undefined in the
    source and abort here. *)
From S2P Require Import Prelude Bytes Ordering.
Open Scope Z_scope.

(** * The layout of a UUID *)

Record UUID := Uuid { most_sig_bits : Z; least_sig_bits : Z }.

#[export] Instance UUID_eq_dec : EqDecision UUID.
Proof. solve_decision. Defined.

Inductive uuid_error := time_does_not_fit | timeuuid_submicro_out_of_range.

Definition version (u : UUID) : Z := Z.land (Z.shiftr (most_sig_bits u) 12) 0xf.
Definition is_timestamp (u : UUID) : bool := version u =? 1.
Definition is_null (u : UUID) : bool := (most_sig_bits u =? 0) && (least_sig_bits u =? 0).

(** What [timestamp()] computes, and the function with its assertion. *)
Definition timestamp_bits (u : UUID) : Z :=
  let msb := most_sig_bits u in
  i64 (Z.lor (Z.lor (Z.shiftl (Z.land msb 0xFFF) 48) (Z.shiftl (Z.land (Z.shiftr msb 16) 0xFFFF) 32)) (Z.shiftr (u64 msb) 32)).
Definition uuid_timestamp {E} (u : UUID) : outcome E Z :=
  check (is_timestamp u) ;; Ret (timestamp_bits u).

(** [operator<=>]. *)
Definition uuid_compare (u v : UUID) : comparison :=
  then_compare (u64 (most_sig_bits u) ?= u64 (most_sig_bits v)) (u64 (least_sig_bits u) ?= u64 (least_sig_bits v)).

Definition uuid_serialize (u : UUID) : list Z := be_bytes 8 (most_sig_bits u) ++ be_bytes 8 (least_sig_bits u).

Definition byte_at (b : list Z) (i : nat) : Z := u8 (default 0 (b !! i)).
Definition timeuuid_read_msb (b : list Z) : Z :=
  Z.lor (Z.lor (Z.lor (Z.lor (Z.lor (Z.lor (Z.lor
    (Z.shiftl (Z.land (byte_at b 6) 0xf) 56) (Z.shiftl (byte_at b 7) 48))
    (Z.shiftl (byte_at b 4) 40)) (Z.shiftl (byte_at b 5) 32))
    (Z.shiftl (byte_at b 0) 24)) (Z.shiftl (byte_at b 1) 16))
    (Z.shiftl (byte_at b 2) 8)) (byte_at b 3).
Definition uuid_read_lsb (b : list Z) : Z :=
  Z.lor (Z.lor (Z.lor (Z.lor (Z.lor (Z.lor (Z.lor
    (Z.shiftl (byte_at b 8) 56) (Z.shiftl (byte_at b 9) 48))
    (Z.shiftl (byte_at b 10) 40)) (Z.shiftl (byte_at b 11) 32))
    (Z.shiftl (byte_at b 12) 24)) (Z.shiftl (byte_at b 13) 16))
    (Z.shiftl (byte_at b 14) 8)) (byte_at b 15).

(** On serialized UUIDs, and on UUIDs. *)
Definition timeuuid_bytes_compare (o1 o2 : list Z) : comparison :=
  let timeuuid_read_lsb o := Z.lxor (uuid_read_lsb o) 0x8080808080808080 in
  then_compare (timeuuid_read_msb o1 ?= timeuuid_read_msb o2) (timeuuid_read_lsb o1 ?= timeuuid_read_lsb o2).
Definition timeuuid_tri_compare (u1 u2 : UUID) : comparison := timeuuid_bytes_compare (uuid_serialize u1) (uuid_serialize u2).
Definition uuid_tri_compare_timeuuid (o1 o2 : list Z) : comparison :=
  then_compare (timeuuid_read_msb o1 ?= timeuuid_read_msb o2) (uuid_read_lsb o1 ?= uuid_read_lsb o2).

(** * Making UUIDs *)

Definition START_EPOCH : Z := -122192928000000000.
Definition MIN_CLOCK_SEQ_AND_NODE : Z := i64 0x8080808080808080.
Definition MAX_CLOCK_SEQ_AND_NODE : Z := 0x7f7f7f7f7f7f7f7f.
Definition SUBMICRO_LIMIT : Z := Z.shiftl 1 17.

(** Arithmetic on durations, which must not leave 64 bits. *)
Definition duration {E} (x : Z) : outcome E Z :=
  if bool_decide (- 2 ^ 63 <= x < 2 ^ 63) then Ret x else Abort undefined_behaviour.

(** Of a duration in units of [unit] tenths of a microsecond: 10 for microseconds, 10000 for
    milliseconds. *)
Definition from_unix_timestamp {E} (unit d : Z) : outcome E Z :=
  dmc ← duration (d * unit);
  duration (dmc - START_EPOCH).

Definition create_time (dmc : Z) : outcome uuid_error Z :=
  let msb := u64 dmc in
  if negb (Z.land 0xf000000000000000 msb =? 0) then Throw time_does_not_fit
  else Ret (i64 (Z.lor (Z.lor (Z.lor (u64 (Z.shiftl (Z.land 0x00000000ffffffff msb) 32))
    (Z.shiftr (Z.land 0x0000ffff00000000 msb) 16)) (Z.shiftr (Z.land 0x0fff000000000000 msb) 48)) 0x0000000000001000)).

(** [create_time_safe]: the state is [_last_used_time]. *)
Definition create_time_safe (last_used_time millis : Z) : outcome uuid_error (Z * Z) :=
  when_ ← from_unix_timestamp 10000 millis;
  when_ ← (if last_used_time <? when_ then Ret when_ else duration (last_used_time + 1));
  msb ← create_time when_;
  Ret (msb, when_).

Definition make_uuid (msb lsb : Z) : outcome uuid_error UUID :=
  check (is_timestamp (Uuid msb lsb)) ;; Ret (Uuid msb lsb).

Definition get_time_UUID (clock_seq_and_node last_used_time millis : Z) : outcome uuid_error (UUID * Z) :=
  '(msb, last_used_time) ← create_time_safe last_used_time millis;
  u ← make_uuid msb clock_seq_and_node;
  Ret (u, last_used_time).
Definition get_time_UUID_raw (when_ clock_seq_and_node : Z) : outcome uuid_error UUID :=
  msb ← create_time when_; make_uuid msb clock_seq_and_node.
Definition get_random_time_UUID_from_micros (random when_in_micros : Z) : outcome uuid_error UUID :=
  dmc ← from_unix_timestamp 10 when_in_micros; msb ← create_time dmc; make_uuid msb random.
Definition min_time_UUID (time : Z) : outcome uuid_error UUID :=
  dmc ← from_unix_timestamp 1 time; msb ← create_time dmc; make_uuid msb MIN_CLOCK_SEQ_AND_NODE.
Definition max_time_UUID (millis : Z) : outcome uuid_error UUID :=
  m ← duration (millis + 1);
  dmc ← from_unix_timestamp 10000 m;
  msb ← create_time (dmc - 1);
  make_uuid msb MAX_CLOCK_SEQ_AND_NODE.

Definition get_time_UUID_bytes_from_micros_and_submicros (spoof_node when_in_micros submicros : Z) : outcome uuid_error (list Z) :=
  if (submicros <? 0) || (SUBMICRO_LIMIT <=? submicros) then Throw timeuuid_submicro_out_of_range
  else
    dmc ← from_unix_timestamp 10 when_in_micros;
    dmc ← duration (dmc + Z.land (Z.shiftr submicros 14) 0x7);
    msb ← create_time dmc;
    let clockseq := Z.lxor (Z.land submicros 0x3fff) 0x80 in
    let lsb := Z.lor (i64 (Z.shiftl (Z.lor clockseq 0x8000) 48)) spoof_node in
    Ret (be_bytes 8 msb ++ be_bytes 8 lsb).

Definition get_UUID (raw : list Z) : outcome uuid_error UUID :=
  check (bool_decide (length raw = 16%nat)) ;;
  Ret (Uuid (i64 (be_load (take 8 raw))) (i64 (be_load (drop 8 raw)))).
Definition decompose (u : UUID) : list Z :=
  ((fun i => i8 (Z.shiftr (u64 (most_sig_bits u)) ((7 - Z.of_nat i) * 8))) <$> seq 0 8) ++
  ((fun i => i8 (Z.shiftr (u64 (least_sig_bits u)) ((7 - Z.of_nat i) * 8))) <$> seq 0 8).

Definition unix_timestamp_decimicros {E} (u : UUID) : outcome E Z :=
  t ← uuid_timestamp u; duration (t + START_EPOCH).
Definition unix_timestamp_micros {E} (u : UUID) : outcome E Z :=
  t ← unix_timestamp_decimicros u; Ret (Z.quot t 10).
Definition unix_timestamp {E} (u : UUID) : outcome E Z :=
  t ← unix_timestamp_decimicros u; Ret (Z.quot t 10000).
Definition unix_timestamp_in_sec {E} (u : UUID) : outcome E Z :=
  t ← unix_timestamp u; Ret (Z.quot t 1000).
Definition micros_timestamp {E} (u : UUID) : outcome E Z :=
  t ← uuid_timestamp u; t ← duration (t + START_EPOCH); Ret (Z.quot t 10).

Definition negate (o : UUID) : UUID :=
  let lsb := least_sig_bits o in
  let clock_mask := 0x3FFF in
  let clock := Z.land (Z.shiftr lsb 48) clock_mask in
  let clock := Z.land (Z.lnot clock) clock_mask in
  let lsb := Z.land lsb (Z.lnot (Z.shiftl clock_mask 48)) in
  Uuid (most_sig_bits o) (Z.lor lsb (Z.shiftl clock 48)).

(** * Bits as arithmetic *)

(** A mask of [n] bits from [k] on. *)
Lemma land_mask_at x n k : 0 <= n -> 0 <= k -> Z.land (Z.shiftl (2 ^ n - 1) k) x = (x / 2 ^ k) mod 2 ^ n * 2 ^ k.
Proof.
  intros Hn Hk. rewrite <- land_mask, <- Z.shiftr_div_pow2, <- Z.shiftl_mul_pow2 by done.
  apply Z.bits_inj'. intros i Hi. rewrite Z.land_spec. destruct (decide (i < k)).
  - rewrite !Z.shiftl_spec_low by lia. done.
  - rewrite !Z.shiftl_spec, Z.land_spec, Z.shiftr_spec by lia. rewrite andb_comm. f_equal. f_equal. lia.
Qed.

Lemma lor_disjoint a b k : 0 <= k -> 0 <= b < 2 ^ k -> Z.lor (a * 2 ^ k) b = a * 2 ^ k + b.
Proof. intros. rewrite <- Z.shiftl_mul_pow2 by done. rewrite lor_shiftl by done. by rewrite Z.shiftl_mul_pow2. Qed.

(** The fields of the upper half: the low 32 bits of the time, the next 16, and the top 12. *)
Definition time_low (d : Z) : Z := d mod 2 ^ 32.
Definition time_mid (d : Z) : Z := d / 2 ^ 32 mod 2 ^ 16.
Definition time_hi (d : Z) : Z := d / 2 ^ 48 mod 2 ^ 12.

Lemma time_parts d : 0 <= d < 2 ^ 60 -> d = time_hi d * 2 ^ 48 + time_mid d * 2 ^ 32 + time_low d.
Proof. unfold time_hi, time_mid, time_low. intros. Z.div_mod_to_equations. lia. Qed.

Lemma time_fields d : 0 <= time_low d < 2 ^ 32 /\ 0 <= time_mid d < 2 ^ 16 /\ 0 <= time_hi d < 2 ^ 12.
Proof. unfold time_hi, time_mid, time_low. repeat split; apply Z.mod_pos_bound; lia. Qed.

Lemma create_time_eq d :
  0 <= d < 2 ^ 60 -> create_time d = Ret (i64 (time_low d * 2 ^ 32 + time_mid d * 2 ^ 16 + 2 ^ 12 + time_hi d)).
Proof.
  intros Hd. unfold create_time. rewrite (to_unsigned_id 64) by (split; lia). pose proof (time_fields d) as (Hl & Hm & Hh).
  change 0xf000000000000000 with (Z.shiftl (2 ^ 4 - 1) 60). rewrite land_mask_at, (Z.div_small d) by lia. cbn [Z.eqb negb Z.modulo Z.mul Z.div_eucl].
  change (0 mod 2 ^ 4 * 2 ^ 60 =? 0) with true. cbn [negb]. do 2 f_equal.
  change 0x00000000ffffffff with (Z.shiftl (2 ^ 32 - 1) 0). change 0x0000ffff00000000 with (Z.shiftl (2 ^ 16 - 1) 32).
  change 0x0fff000000000000 with (Z.shiftl (2 ^ 12 - 1) 48). rewrite !land_mask_at by lia. rewrite Z.div_1_r, Z.mul_1_r.
  fold (time_mid d) (time_low d) (time_hi d). rewrite Z.shiftl_mul_pow2, !Z.shiftr_div_pow2 by lia.
  rewrite to_unsigned_id by (split; lia). change (2 ^ 32) with (2 ^ 16 * 2 ^ 16) at 2. rewrite Z.mul_assoc, !Z.div_mul by lia.
  rewrite <- (Z.lor_assoc _ _ 0x1000), <- Z.lor_assoc. rewrite (Z.lor_comm (time_hi d)). change 0x1000 with (1 * 2 ^ 12).
  rewrite (lor_disjoint 1 (time_hi d) 12) by lia. rewrite (lor_disjoint (time_mid d) _ 16) by lia. rewrite lor_disjoint by lia. lia.
Qed.

Lemma version_eq u : version u = most_sig_bits u / 2 ^ 12 mod 2 ^ 4.
Proof. unfold version. change 0xf with (2 ^ 4 - 1). by rewrite land_mask, Z.shiftr_div_pow2 by lia. Qed.

Lemma timestamp_bits_eq u :
  timestamp_bits u = i64 (most_sig_bits u mod 2 ^ 12 * 2 ^ 48 + most_sig_bits u / 2 ^ 16 mod 2 ^ 16 * 2 ^ 32 + u64 (most_sig_bits u) / 2 ^ 32).
Proof.
  unfold timestamp_bits. set (m := most_sig_bits u). change 0xFFF with (2 ^ 12 - 1). change 0xFFFF with (2 ^ 16 - 1).
  rewrite !land_mask, !Z.shiftl_mul_pow2, !Z.shiftr_div_pow2 by lia.
  pose proof (to_unsigned_fits 64 m ltac:(lia)) as Hm. unfold fits_unsigned in Hm.
  pose proof (Z.mod_pos_bound (m / 2 ^ 16) (2 ^ 16)). pose proof (Z.mod_pos_bound m (2 ^ 12)).
  assert (0 <= u64 m / 2 ^ 32 < 2 ^ 32) by (Z.div_mod_to_equations; lia).
  rewrite <- Z.lor_assoc. rewrite (lor_disjoint (m / 2 ^ 16 mod 2 ^ 16)) by lia. rewrite lor_disjoint by lia. f_equal. lia.
Qed.

(** The time that a UUID was made of is the one that it has. *)
Lemma uuid_of_time d msb lsb : 0 <= d < 2 ^ 60 -> create_time d = Ret msb -> is_timestamp (Uuid msb lsb) = true /\ timestamp_bits (Uuid msb lsb) = d.
Proof.
  intros Hd. rewrite create_time_eq by done. intros [= <-]. pose proof (time_fields d) as (Hl & Hm & Hh). pose proof (time_parts d Hd) as Hp.
  unfold is_timestamp. rewrite version_eq, timestamp_bits_eq. cbn [most_sig_bits]. rewrite to_unsigned_signed by lia.
  set (l := time_low d) in *. set (m := time_mid d) in *. set (h := time_hi d) in *. rewrite (to_unsigned_id 64) by (split; lia).
  assert (exists q, i64 (l * 2 ^ 32 + m * 2 ^ 16 + 2 ^ 12 + h) = q * 2 ^ 64 + (l * 2 ^ 32 + m * 2 ^ 16 + 2 ^ 12 + h)) as [q Hq].
  { unfold to_signed. set (x := l * 2 ^ 32 + m * 2 ^ 16 + 2 ^ 12 + h). exists (- ((x + 2 ^ 63) / 2 ^ 64)). change (64 - 1) with 63.
    pose proof (Z.div_mod (x + 2 ^ 63) (2 ^ 64)). lia. }
  rewrite Hq. clear Hq. split.
  - apply Z.eqb_eq. Z.div_mod_to_equations. lia.
  - rewrite Hp at 1. rewrite to_signed_id; [|lia|].
    + f_equal; [f_equal|]; Z.div_mod_to_equations; lia.
    + split; Z.div_mod_to_equations; lia.
Qed.

(** * The order of UUIDs *)

Lemma join_mod x a b : 0 <= a -> 0 <= b -> (x / 2 ^ b) mod 2 ^ a * 2 ^ b + x mod 2 ^ b = x mod 2 ^ (b + a).
Proof. intros. rewrite Z.pow_add_r by done. rewrite Z.rem_mul_r by lia. lia. Qed.

Lemma join_at x k a b kb ba : 0 <= k -> 0 <= a -> 0 <= b -> kb = k + b -> ba = b + a ->
  (x / 2 ^ kb) mod 2 ^ a * 2 ^ b + (x / 2 ^ k) mod 2 ^ b = (x / 2 ^ k) mod 2 ^ ba.
Proof. intros ??? -> ->. rewrite <- join_mod by done. by rewrite Z.div_div, <- Z.pow_add_r by lia. Qed.

Lemma be_bytes_8 x :
  be_bytes 8 x = [i8 (Z.shiftr x 56); i8 (Z.shiftr x 48); i8 (Z.shiftr x 40); i8 (Z.shiftr x 32);
    i8 (Z.shiftr x 24); i8 (Z.shiftr x 16); i8 (Z.shiftr x 8); i8 (Z.shiftr x 0)].
Proof. by rewrite !be_bytes_S_cons. Qed.

(** Eight bytes that are put together. *)
Lemma lor_bytes a b c d e f g h :
  0 <= b < 2 ^ 8 -> 0 <= c < 2 ^ 8 -> 0 <= d < 2 ^ 8 -> 0 <= e < 2 ^ 8 -> 0 <= f < 2 ^ 8 -> 0 <= g < 2 ^ 8 -> 0 <= h < 2 ^ 8 ->
  Z.lor (Z.lor (Z.lor (Z.lor (Z.lor (Z.lor (Z.lor (Z.shiftl a 56) (Z.shiftl b 48)) (Z.shiftl c 40)) (Z.shiftl d 32))
    (Z.shiftl e 24)) (Z.shiftl f 16)) (Z.shiftl g 8)) h =
  a * 2 ^ 56 + b * 2 ^ 48 + c * 2 ^ 40 + d * 2 ^ 32 + e * 2 ^ 24 + f * 2 ^ 16 + g * 2 ^ 8 + h.
Proof.
  intros. rewrite <- !Z.lor_assoc, !Z.shiftl_mul_pow2 by lia.
  rewrite (lor_disjoint g h) by lia. rewrite (lor_disjoint f) by lia. rewrite (lor_disjoint e) by lia. rewrite (lor_disjoint d) by lia.
  rewrite (lor_disjoint c) by lia. rewrite (lor_disjoint b) by lia. rewrite lor_disjoint by lia. lia.
Qed.

Lemma byte_range b i : 0 <= byte_at b i < 2 ^ 8.
Proof. apply Z.mod_pos_bound. lia. Qed.

(** The 60 bits of a UUID in the order of the time. *)
Definition time_of (u : UUID) : Z :=
  most_sig_bits u mod 2 ^ 12 * 2 ^ 48 + most_sig_bits u / 2 ^ 16 mod 2 ^ 16 * 2 ^ 32 + most_sig_bits u / 2 ^ 32 mod 2 ^ 32.

Lemma time_of_range u : 0 <= time_of u < 2 ^ 60.
Proof.
  unfold time_of. pose proof (Z.mod_pos_bound (most_sig_bits u) (2 ^ 12)). pose proof (Z.mod_pos_bound (most_sig_bits u / 2 ^ 16) (2 ^ 16)).
  pose proof (Z.mod_pos_bound (most_sig_bits u / 2 ^ 32) (2 ^ 32)). lia.
Qed.

Lemma timestamp_bits_time u : timestamp_bits u = time_of u.
Proof.
  rewrite timestamp_bits_eq. set (m := most_sig_bits u).
  assert (u64 m / 2 ^ 32 = m / 2 ^ 32 mod 2 ^ 32) as ->.
  { unfold to_unsigned. change 64 with (32 + 32). rewrite <- join_mod by lia.
    rewrite Z.div_add_l, (Z.div_small (m mod 2 ^ 32)) by (try apply Z.mod_pos_bound; lia). lia. }
  pose proof (time_of_range u) as Hr. apply to_signed_id; [lia|]. change (fits_signed 64 (time_of u)). unfold fits_signed. lia.
Qed.

Lemma serialize_msb u : timeuuid_read_msb (uuid_serialize u) = time_of u.
Proof.
  unfold timeuuid_read_msb. rewrite lor_bytes by apply byte_range. unfold uuid_serialize. rewrite !be_bytes_8. cbn [byte_at app lookup list_lookup default from_option id].
  unfold byte_at. cbn [lookup list_lookup default from_option id]. rewrite !to_unsigned_signed by lia. unfold to_unsigned, time_of. set (m := most_sig_bits u).
  rewrite !Z.shiftr_div_pow2 by lia. change 0xf with (2 ^ 4 - 1). rewrite land_mask by lia. rewrite Z.mod_mod_divide by (by exists (2 ^ 4)).
  pose proof (join_at m 0 4 8 8 12) as H0. pose proof (join_at m 16 8 8 24 16) as H1. pose proof (join_at m 32 24 8 40 32) as H2.
  pose proof (join_at m 40 16 8 48 24) as H3. pose proof (join_at m 48 8 8 56 16) as H4. change (2 ^ 0) with 1 in *. rewrite !Z.div_1_r in *. lia.
Qed.

Lemma serialize_lsb u : uuid_read_lsb (uuid_serialize u) = u64 (least_sig_bits u).
Proof.
  unfold uuid_read_lsb. rewrite lor_bytes by apply byte_range. unfold uuid_serialize.
  assert (forall i, byte_at (be_bytes 8 (most_sig_bits u) ++ be_bytes 8 (least_sig_bits u)) (8 + i) = byte_at (be_bytes 8 (least_sig_bits u)) i) as Hb.
  { intros i. unfold byte_at. rewrite lookup_app_r by (rewrite length_be_bytes; lia). rewrite length_be_bytes. do 3 f_equal. lia. }
  pose proof (Hb 0%nat) as H0. pose proof (Hb 1%nat) as H1. pose proof (Hb 2%nat) as H2. pose proof (Hb 3%nat) as H3. pose proof (Hb 4%nat) as H4.
  pose proof (Hb 5%nat) as H5. pose proof (Hb 6%nat) as H6. pose proof (Hb 7%nat) as H7. cbn [Nat.add] in *. rewrite H0, H1, H2, H3, H4, H5, H6, H7.
  rewrite <- (be_load_bytes 8 (least_sig_bits u) : be_load _ = u64 _). rewrite be_bytes_8. rewrite !be_load_cons. unfold byte_at. cbn [lookup list_lookup default from_option id length].
  change (be_load []) with 0. change (8 * Z.of_nat 7) with 56. change (8 * Z.of_nat 6) with 48. change (8 * Z.of_nat 5) with 40. change (8 * Z.of_nat 4) with 32.
  change (8 * Z.of_nat 3) with 24. change (8 * Z.of_nat 2) with 16. change (8 * Z.of_nat 1) with 8. change (8 * Z.of_nat 0) with 0. lia.
Qed.

Lemma lxor_split a r c m k : 0 <= k -> 0 <= r < 2 ^ k -> 0 <= m < 2 ^ k -> Z.lxor (a * 2 ^ k + r) (c * 2 ^ k + m) = Z.lxor a c * 2 ^ k + Z.lxor r m.
Proof.
  intros Hk Hr Hm. set (x := a * 2 ^ k + r). set (y := c * 2 ^ k + m).
  assert (x / 2 ^ k = a /\ y / 2 ^ k = c) as [Ha Hc] by (unfold x, y; split; rewrite Z.div_add_l, Z.div_small by lia; lia).
  assert (x mod 2 ^ k = r /\ y mod 2 ^ k = m) as [Hr' Hm'] by (unfold x, y; split; rewrite Z.add_comm, Z.mod_add, Z.mod_small by lia; lia).
  rewrite (Z.div_mod (Z.lxor x y) (2 ^ k)) by lia. rewrite <- Z.shiftr_div_pow2, Z.shiftr_lxor, !Z.shiftr_div_pow2, Ha, Hc by lia.
  rewrite <- Z.land_ones by done.
  assert (Z.land (Z.lxor x y) (Z.ones k) = Z.lxor r m) as ->; [|lia].
  rewrite <- Hr', <- Hm', <- !Z.land_ones by done. apply Z.bits_inj'. intros i Hi. rewrite !Z.lxor_spec, !Z.land_spec, Z.lxor_spec.
  by destruct (Z.testbit x i), (Z.testbit y i), (Z.testbit (Z.ones k) i).
Qed.

(** Bytes compared as signed numbers: the sign bits are flipped. *)
Definition flipped (bs : list Z) : Z := Z.lxor (be_load bs) (be_load (replicate (length bs) (-128))).

Lemma flip_byte b : is_i8 b -> Z.lxor (u8 b) 128 = b + 128.
Proof.
  unfold fits_signed. change (2 ^ (8 - 1)) with 128. intros Hb.
  assert (forallb (fun n => Z.lxor (u8 (Z.of_nat n - 128)) 128 =? Z.of_nat n) (seq 0 256) = true) as Hall by done.
  rewrite forallb_forall in Hall. specialize (Hall (Z.to_nat (b + 128))). rewrite in_seq, Z2Nat.id in Hall by lia.
  replace (b + 128 - 128) with b in Hall by lia. apply Z.eqb_eq, Hall. lia.
Qed.

Lemma flipped_cons b bs : is_i8 b -> flipped (b :: bs) = (b + 128) * 2 ^ (8 * Z.of_nat (length bs)) + flipped bs.
Proof.
  intros Hb. unfold flipped. cbn [length replicate]. rewrite !be_load_cons, length_replicate.
  pose proof (be_load_range (replicate (length bs) (-128))) as Hr. rewrite length_replicate in Hr.
  rewrite lxor_split; [|lia|apply be_load_range|done]. change (u8 (-128)) with 128. by rewrite flip_byte.
Qed.

Lemma flipped_range bs : Forall is_i8 bs -> 0 <= flipped bs < 2 ^ (8 * Z.of_nat (length bs)).
Proof.
  induction 1 as [|b bs Hb _ IH]; [done|]. rewrite flipped_cons by done. cbn [length].
  replace (8 * Z.of_nat (S (length bs))) with (8 + 8 * Z.of_nat (length bs)) by lia. rewrite Z.pow_add_r by lia. set (n := 2 ^ (8 * Z.of_nat (length bs))) in *.
  unfold fits_signed in Hb. change (2 ^ (8 - 1)) with 128 in Hb. change (2 ^ 8) with 256. nia.
Qed.

Lemma flipped_compare bs cs :
  Forall is_i8 bs -> Forall is_i8 cs -> length bs = length cs -> (flipped bs ?= flipped cs) = list_compare Z.compare bs cs.
Proof.
  intros Hbs. revert cs. induction Hbs as [|b bs Hb Hbs IH]; intros [|c cs] Hcs Hlen; try done. apply Forall_cons in Hcs as [Hc Hcs].
  injection Hlen as Hlen. rewrite !flipped_cons, Hlen by done. cbn [list_compare]. rewrite <- (IH cs) by done.
  pose proof (flipped_range bs Hbs) as H1. pose proof (flipped_range cs Hcs) as H2. rewrite Hlen in H1. set (n := 2 ^ _) in *.
  destruct (Z.compare_spec b c) as [->|Hlt|Hgt].
  - destruct (Z.compare_spec (flipped bs) (flipped cs)) as [->| |]; [apply Z.compare_refl|apply Z.compare_lt_iff|apply Z.compare_gt_iff]; lia.
  - apply Z.compare_lt_iff. nia.
  - apply Z.compare_gt_iff. nia.
Qed.

(** The order of time UUIDs: by time, then by the bytes of the lower half as signed numbers. *)
Definition timeuuid_order (u v : UUID) : comparison :=
  then_compare (time_of u ?= time_of v) (list_compare Z.compare (be_bytes 8 (least_sig_bits u)) (be_bytes 8 (least_sig_bits v))).

Lemma serialize_flipped u : Z.lxor (uuid_read_lsb (uuid_serialize u)) 0x8080808080808080 = flipped (be_bytes 8 (least_sig_bits u)).
Proof. rewrite serialize_lsb. unfold flipped. by rewrite be_load_bytes, length_be_bytes. Qed.

Lemma timeuuid_tri_compare_order u v : timeuuid_tri_compare u v = timeuuid_order u v.
Proof.
  unfold timeuuid_tri_compare, timeuuid_bytes_compare, timeuuid_order. cbv zeta. rewrite !serialize_msb, !serialize_flipped.
  by rewrite flipped_compare by (apply be_bytes_i8 || by rewrite !length_be_bytes).
Qed.

(** * Times *)

(** The times that a UUID can hold, in units of a tenth of a microsecond. *)
Definition unix_time_fits (t : Z) : Prop := 0 <= t - START_EPOCH < 2 ^ 60.

Lemma duration_Ret {E} x : - 2 ^ 63 <= x < 2 ^ 63 -> duration (E := E) x = Ret x.
Proof. intros. unfold duration. by rewrite bool_decide_eq_true_2. Qed.

Lemma from_unix_timestamp_Ret {E} unit d : unix_time_fits (d * unit) -> from_unix_timestamp (E := E) unit d = Ret (d * unit - START_EPOCH).
Proof.
  unfold unix_time_fits, START_EPOCH. intros Hd. unfold from_unix_timestamp. rewrite duration_Ret by lia. cbn [mbind outcome_bind].
  by rewrite duration_Ret by (unfold START_EPOCH; lia).
Qed.

Lemma create_time_Ret d lsb :
  0 <= d < 2 ^ 60 -> exists msb, create_time d = Ret msb /\ make_uuid msb lsb = Ret (Uuid msb lsb) /\ time_of (Uuid msb lsb) = d /\ is_timestamp (Uuid msb lsb) = true.
Proof.
  intros Hd. eexists. split; [by apply create_time_eq|]. destruct (uuid_of_time d _ lsb Hd (create_time_eq d Hd)) as [Ht Hb].
  unfold make_uuid. rewrite Ht. rewrite <- timestamp_bits_time. done.
Qed.

Lemma uuid_timestamp_Ret {E} u : is_timestamp u = true -> uuid_timestamp (E := E) u = Ret (time_of u).
Proof. intros Hu. unfold uuid_timestamp. by rewrite Hu, timestamp_bits_time. Qed.

Lemma micros_timestamp_Ret {E} u : is_timestamp u = true -> micros_timestamp (E := E) u = Ret (Z.quot (time_of u + START_EPOCH) 10).
Proof.
  intros Hu. unfold micros_timestamp. rewrite uuid_timestamp_Ret by done. cbn [mbind outcome_bind]. pose proof (time_of_range u).
  by rewrite duration_Ret by (unfold START_EPOCH; lia).
Qed.

(** A ballot that is made of a time in microseconds. *)
Lemma random_time_UUID_spec random micros :
  unix_time_fits (micros * 10) ->
  exists u, get_random_time_UUID_from_micros random micros = Ret u /\ is_timestamp u = true /\ time_of u = micros * 10 - START_EPOCH /\
  least_sig_bits u = random /\ forall E, micros_timestamp (E := E) u = Ret micros.
Proof.
  intros Hm. destruct (create_time_Ret (micros * 10 - START_EPOCH) random Hm) as (msb & Hc & Hmk & Ht & His).
  exists (Uuid msb random). unfold get_random_time_UUID_from_micros. rewrite from_unix_timestamp_Ret by done. cbn [mbind outcome_bind]. rewrite Hc.
  cbn [mbind outcome_bind]. split; [done|]. split; [done|]. split; [done|]. split; [done|]. intros E. rewrite micros_timestamp_Ret, Ht by done.
  f_equal. replace (micros * 10 - START_EPOCH + START_EPOCH) with (micros * 10) by lia. by apply Z.quot_mul.
Qed.

(** UUIDs that are made one after the other have growing times, whatever the clock says. *)
Lemma create_time_safe_spec last millis :
  unix_time_fits (millis * 10000) -> -1 <= last < 2 ^ 60 - 1 ->
  let t := Z.max (last + 1) (millis * 10000 - START_EPOCH) in
  exists msb, create_time_safe last millis = Ret (msb, t) /\ forall lsb, time_of (Uuid msb lsb) = t /\ is_timestamp (Uuid msb lsb) = true.
Proof.
  intros Hm Hl t. unfold unix_time_fits in Hm. destruct (create_time_Ret t 0) as (msb & Hc & _ & _ & _); [unfold t; lia|].
  exists msb. unfold create_time_safe. rewrite from_unix_timestamp_Ret by done. cbn [mbind outcome_bind].
  assert ((if last <? millis * 10000 - START_EPOCH then Ret (millis * 10000 - START_EPOCH) else duration (last + 1)) = Ret (E := uuid_error) t) as ->.
  { unfold t. destruct (Z.ltb_spec last (millis * 10000 - START_EPOCH)); [f_equal; lia|]. rewrite duration_Ret by lia. f_equal. lia. }
  cbn [mbind outcome_bind]. rewrite Hc. split; [done|]. intros lsb. rewrite <- timestamp_bits_time.
  destruct (uuid_of_time t msb lsb) as [? ?]; [unfold t; lia|done|done].
Qed.

(** * UUIDs with a part below the microsecond *)

Lemma small_bit s n i : 0 <= s < 2 ^ n -> 0 <= n <= i -> Z.testbit s i = false.
Proof.
  intros Hs Hi. destruct (decide (s = 0)) as [->|]; [apply Z.bits_0|]. apply Z.bits_above_log2; [lia|].
  apply Z.lt_le_trans with n; [apply Z.log2_lt_pow2; lia|lia].
Qed.

Lemma clockseq_flipped s : 0 <= s < 2 ^ 14 -> Z.lxor (Z.lor (Z.lxor s 0x80) 0x8000) 0x8080 = s /\ 0 <= Z.lor (Z.lxor s 0x80) 0x8000 < 2 ^ 16.
Proof.
  intros Hs. assert (Z.land (Z.lxor s 0x80) 0x8000 = 0) as Hland.
  { apply Z.bits_inj'. intros i Hi. rewrite Z.land_spec, Z.lxor_spec, Z.bits_0. change 0x8000 with (2 ^ 15). change 0x80 with (2 ^ 7).
    rewrite !Z.pow2_bits_eqb by lia. destruct (Z.eqb_spec 15 i) as [<-|]; [|apply andb_false_r]. by rewrite (small_bit s 14) by lia. }
  assert (0 <= Z.lxor s 0x80 < 2 ^ 14) as Hx.
  { pose proof (lxor_split 0 s 0 0x80 14) as Hsp. rewrite !Z.mul_0_l, !Z.add_0_l in Hsp.
    assert (Z.lxor s 0x80 = Z.lxor s 0x80 mod 2 ^ 14) as ->; [|apply Z.mod_pos_bound; lia].
    rewrite <- Z.land_ones by lia. apply Z.bits_inj'. intros i Hi. rewrite Z.land_spec, Z.lxor_spec, Z.testbit_ones_nonneg by lia.
    change 0x80 with (2 ^ 7). rewrite Z.pow2_bits_eqb by lia. destruct (Z.ltb_spec i 14); [by rewrite andb_true_r|].
    rewrite (small_bit s 14) by lia. destruct (Z.eqb_spec 7 i); [lia|done]. }
  split.
  - rewrite <- Z.lxor_lor by done. rewrite !Z.lxor_assoc. change (Z.lxor 0x80 (Z.lxor 0x8000 0x8080)) with 0. apply Z.lxor_0_r.
  - rewrite Z.lor_comm. change 0x8000 with (1 * 2 ^ 15). rewrite lor_disjoint by lia. lia.
Qed.

Lemma submicro_spec node micros s :
  unix_time_fits (micros * 10) -> unix_time_fits (micros * 10 + 7) -> 0 <= s < 2 ^ 17 -> 0 <= node < 2 ^ 48 ->
  exists msb lsb, get_time_UUID_bytes_from_micros_and_submicros node micros s = Ret (uuid_serialize (Uuid msb lsb)) /\
  time_of (Uuid msb lsb) = micros * 10 + s / 2 ^ 14 - START_EPOCH /\ is_timestamp (Uuid msb lsb) = true /\
  Z.lxor (u64 lsb) 0x8080808080808080 = s mod 2 ^ 14 * 2 ^ 48 + Z.lxor node 0x808080808080.
Proof.
  intros Hm Hm7 Hs Hnode. unfold unix_time_fits in *. assert (0 <= s / 2 ^ 14 < 2 ^ 3) as Hhi by (Z.div_mod_to_equations; lia).
  pose proof (Z.mod_pos_bound s (2 ^ 14) ltac:(lia)) as Hlo. destruct (clockseq_flipped (s mod 2 ^ 14) Hlo) as [Hflip Hc].
  set (clockseq := Z.lor (Z.lxor (s mod 2 ^ 14) 0x80) 0x8000) in *. set (lsb := Z.lor (i64 (Z.shiftl clockseq 48)) node).
  destruct (create_time_Ret (micros * 10 + s / 2 ^ 14 - START_EPOCH) lsb) as (msb & Hcr & _ & Ht & His); [lia|].
  exists msb, lsb. split_and!; try done.
  - unfold get_time_UUID_bytes_from_micros_and_submicros. change SUBMICRO_LIMIT with (2 ^ 17).
    assert ((s <? 0) || (2 ^ 17 <=? s) = false) as -> by lia. rewrite from_unix_timestamp_Ret by done. cbn [mbind outcome_bind].
    change 0x7 with (2 ^ 3 - 1). change 0x3fff with (2 ^ 14 - 1). rewrite !land_mask, Z.shiftr_div_pow2, (Z.mod_small (s / 2 ^ 14)) by lia.
    replace (micros * 10 - START_EPOCH + s / 2 ^ 14) with (micros * 10 + s / 2 ^ 14 - START_EPOCH) by lia. rewrite duration_Ret by (unfold START_EPOCH in *; lia).
    cbn [mbind outcome_bind]. rewrite Hcr. done.
  - assert (u64 lsb = clockseq * 2 ^ 48 + node) as ->.
    { unfold lsb. unfold to_unsigned. rewrite <- Z.land_ones, Z.land_lor_distr_l, !Z.land_ones by lia. fold (u64 (i64 (Z.shiftl clockseq 48))).
      rewrite to_unsigned_signed, Z.shiftl_mul_pow2, to_unsigned_id, (Z.mod_small node) by (try split; lia). by rewrite lor_disjoint by lia. }
    change 0x8080808080808080 with (0x8080 * 2 ^ 48 + 0x808080808080). rewrite lxor_split by lia. by rewrite Hflip.
Qed.

(** C26: UUIDs that are made of a time in microseconds and a number below 2^17 are ordered like the
    pairs, by the comparison of serialized time UUIDs; a number that is not below 2^17 is refused. *)
Theorem submicro_order node micros1 s1 micros2 s2 :
  0 <= node < 2 ^ 48 -> unix_time_fits (micros1 * 10) -> unix_time_fits (micros1 * 10 + 7) -> unix_time_fits (micros2 * 10) -> unix_time_fits (micros2 * 10 + 7) ->
  (0 <= s1 < 2 ^ 17 -> 0 <= s2 < 2 ^ 17 ->
   exists b1 b2, get_time_UUID_bytes_from_micros_and_submicros node micros1 s1 = Ret b1 /\
   get_time_UUID_bytes_from_micros_and_submicros node micros2 s2 = Ret b2 /\
   timeuuid_bytes_compare b1 b2 = then_compare (micros1 ?= micros2) (s1 ?= s2)) /\
  (~ 0 <= s1 < 2 ^ 17 -> get_time_UUID_bytes_from_micros_and_submicros node micros1 s1 = Throw timeuuid_submicro_out_of_range).
Proof.
  intros Hnode Hm1 Hm1' Hm2 Hm2'. split.
  - intros Hs1 Hs2. destruct (submicro_spec node micros1 s1) as (msb1 & lsb1 & -> & Ht1 & _ & Hl1); [done..|].
    destruct (submicro_spec node micros2 s2) as (msb2 & lsb2 & -> & Ht2 & _ & Hl2); [done..|].
    eexists _, _. split; [done|]. split; [done|]. unfold timeuuid_bytes_compare. rewrite !serialize_msb, !serialize_lsb. cbn [least_sig_bits].
    rewrite Ht1, Ht2, Hl1, Hl2. pose proof (Z.div_mod s1 (2 ^ 14)). pose proof (Z.div_mod s2 (2 ^ 14)).
    pose proof (Z.mod_pos_bound s1 (2 ^ 14)). pose proof (Z.mod_pos_bound s2 (2 ^ 14)). unfold then_compare.
    repeat case Z.compare_spec; intros; try done; exfalso; lia.
  - intros Hs. unfold get_time_UUID_bytes_from_micros_and_submicros. change SUBMICRO_LIMIT with (2 ^ 17).
    by assert ((s1 <? 0) || (2 ^ 17 <=? s1) = true) as -> by lia.
Qed.

(** [get_time_UUID] called again and again; the clock may stand still and go back. *)
Fixpoint get_time_UUIDs (clock_seq_and_node last_used_time : Z) (clock : list Z) : outcome uuid_error (list UUID) :=
  match clock with
  | [] => Ret []
  | millis :: clock =>
    '(u, last_used_time) ← get_time_UUID clock_seq_and_node last_used_time millis;
    us ← get_time_UUIDs clock_seq_and_node last_used_time clock;
    Ret (u :: us)
  end.

Lemma get_time_UUIDs_spec node clock : forall last,
  Forall (fun millis => unix_time_fits (millis * 10000) /\ millis * 10000 - START_EPOCH + Z.of_nat (length clock) < 2 ^ 60) clock ->
  -1 <= last -> last + Z.of_nat (length clock) < 2 ^ 60 ->
  exists us, get_time_UUIDs node last clock = Ret us /\ length us = length clock /\
  Forall (fun u => is_timestamp u = true /\ last < time_of u /\ least_sig_bits u = node) us /\ StronglySorted (fun u v => time_of u < time_of v) us.
Proof.
  induction clock as [|millis clock IH]; intros last Hclock Hl Hlen; cbn [get_time_UUIDs].
  { exists []. repeat split; constructor. }
  cbn [length] in *. apply Forall_cons in Hclock as [[Hm Hm'] Hclock]. destruct (create_time_safe_spec last millis) as (msb & Hc & Hu); [done|lia|].
  set (t := Z.max (last + 1) (millis * 10000 - START_EPOCH)) in *. destruct (Hu node) as [Ht His].
  unfold get_time_UUID. rewrite Hc. cbn [mbind outcome_bind]. unfold make_uuid. rewrite His. cbn [check mbind outcome_bind].
  destruct (IH t) as (us & -> & Hlus & Hall & Hsort).
  { eapply Forall_impl; [done|]. intros x [? ?]. split; [done|]. lia. }
  { unfold t. lia. }
  { unfold t, unix_time_fits in *. lia. }
  cbn [mbind outcome_bind]. eexists. split; [done|]. split; [simpl; lia|]. split.
  - constructor; [split; [done|]; rewrite Ht; split; [unfold t; lia|done]|]. eapply Forall_impl; [done|]. intros u (? & ? & ?). split; [done|]. split; [unfold t in *; lia|done].
  - constructor; [done|]. eapply Forall_impl; [done|]. intros u (_ & Hlt & _). by rewrite Ht.
Qed.

(** C25: The UUIDs that a shard makes one after the other are time UUIDs in strictly growing order, for
    every sequence of clock readings, also if the clock stands still or goes back. *)
Theorem time_UUIDs_grow node clock :
  Forall (fun millis => unix_time_fits (millis * 10000) /\ millis * 10000 - START_EPOCH + Z.of_nat (length clock) < 2 ^ 60) clock ->
  exists us, get_time_UUIDs node 0 clock = Ret us /\ length us = length clock /\
  Forall (fun u => is_timestamp u = true) us /\ StronglySorted (fun u v => timeuuid_tri_compare u v = Lt) us.
Proof.
  intros Hclock. destruct (get_time_UUIDs_spec node clock 0 Hclock) as (us & Hus & Hlen & Hall & Hs); [lia| |].
  { destruct clock as [|millis clock]; [done|]. apply Forall_cons in Hclock as [[Hm Hb] _]. unfold unix_time_fits in Hm. lia. }
  exists us. split; [done|]. split; [done|]. split; [eapply Forall_impl; [done|]; by intros u (? & _)|].
  clear -Hs. induction Hs as [|u us Hs IH Hu]; constructor; [done|]. eapply Forall_impl; [done|]. intros v Hv.
  rewrite timeuuid_tri_compare_order. unfold timeuuid_order. simpl in Hv. by rewrite (proj2 (Z.compare_lt_iff _ _) Hv).
Qed.

(** ** Serialization and negation *)

Definition uuid_ok (u : UUID) : Prop := is_i64 (most_sig_bits u) /\ is_i64 (least_sig_bits u).

Lemma get_UUID_serialize u : uuid_ok u -> get_UUID (uuid_serialize u) = Ret u.
Proof.
  intros [Hm Hl]. unfold get_UUID, uuid_serialize. rewrite length_app, !length_be_bytes. cbn [check bool_decide mbind outcome_bind Nat.add].
  rewrite take_app_length', drop_app_length' by (by rewrite length_be_bytes).
  pose proof (be_load_signed 8) as Hb. change (8 * Z.of_nat 8) with 64 in Hb. rewrite !Hb by done. by destruct u.
Qed.

Lemma shiftr_u64 x k : 0 <= k <= 56 -> i8 (Z.shiftr (u64 x) k) = i8 (Z.shiftr x k).
Proof.
  intros Hk. rewrite <- (to_signed_unsigned 8 (Z.shiftr (u64 x) k)), <- (to_signed_unsigned 8 (Z.shiftr x k)) by lia. f_equal. unfold to_unsigned.
  rewrite <- !Z.land_ones by lia. apply Z.bits_inj'. intros i Hi. rewrite !Z.land_spec, !Z.shiftr_spec, Z.testbit_ones_nonneg by lia.
  destruct (Z.ltb_spec i 8); [|by rewrite !andb_false_r]. rewrite Z.land_spec, Z.testbit_ones_nonneg by lia. destruct (Z.ltb_spec (i + k) 64); [by rewrite andb_true_r|lia].
Qed.

Lemma decompose_serialize u : decompose u = uuid_serialize u.
Proof. unfold decompose, uuid_serialize. rewrite !be_bytes_8. cbn [seq fmap list_fmap]. by rewrite !shiftr_u64 by lia. Qed.

Lemma negate_bit u i : 0 <= i -> Z.testbit (least_sig_bits (negate u)) i = xorb (Z.testbit (least_sig_bits u) i) ((48 <=? i) && (i <? 62)).
Proof.
  intros Hi. unfold negate. cbn [least_sig_bits]. change 0x3FFF with (Z.ones 14). rewrite Z.lor_spec, Z.land_spec, Z.lnot_spec by lia.
  rewrite !Z.shiftl_spec by lia. destruct (Z.leb_spec 48 i).
  - rewrite Z.land_spec, Z.lnot_spec, Z.land_spec, Z.shiftr_spec, Z.testbit_ones_nonneg by lia. replace (i - 48 + 48) with i by lia.
    destruct (Z.ltb_spec (i - 48) 14), (Z.ltb_spec i 62); try lia; by destruct (Z.testbit (least_sig_bits u) i).
  - rewrite !(Z.testbit_neg_r _ (i - 48)) by lia. simpl. by destruct (Z.testbit _ i).
Qed.

Lemma negate_involutive u : negate (negate u) = u /\ negate u <> u.
Proof.
  split.
  - destruct u as [m l]. change (Uuid m (least_sig_bits (negate (negate (Uuid m l)))) = Uuid m l). f_equal. apply Z.bits_inj'. intros i Hi.
    rewrite !negate_bit by done. cbn [least_sig_bits]. by destruct (Z.testbit l i), ((48 <=? i) && (i <? 62)).
  - intros Heq. pose proof (negate_bit u 48 ltac:(lia)) as Hb. rewrite Heq in Hb. change ((48 <=? 48) && (48 <? 62)) with true in Hb. by destruct (Z.testbit (least_sig_bits u) 48).
Qed.

(** * Witnesses *)

Module UuidExamples.

Lemma submicro_order_witness :
  exists b1 b2, get_time_UUID_bytes_from_micros_and_submicros 77 1700000000000000 131071 = Ret b1 /\
  get_time_UUID_bytes_from_micros_and_submicros 77 1700000000000001 5 = Ret b2 /\ timeuuid_bytes_compare b1 b2 = Lt.
Proof.
  destruct (submicro_order 77 1700000000000000 131071 1700000000000001 5) as [H _]; [by vm_compute..|].
  destruct H as (b1 & b2 & H1 & H2 & H3); [by vm_compute..|]. exists b1, b2. split; [exact H1|]. split; [exact H2|]. rewrite H3. reflexivity.
Defined.

Lemma time_UUIDs_grow_witness :
  exists us, get_time_UUIDs 77 0 [1700000000000; 1700000000000; 1600000000000] = Ret us /\ length us = 3%nat /\
  StronglySorted (fun u v => timeuuid_tri_compare u v = Lt) us.
Proof.
  destruct (time_UUIDs_grow 77 [1700000000000; 1700000000000; 1600000000000]) as (us & H1 & H2 & _ & H3).
  { repeat constructor; by vm_compute. }
  exists us. split; [exact H1|]. split; [exact H2|exact H3].
Defined.

End UuidExamples.
