(* ===== verification/Cells.v ===== *)
(** Cells, row markers, row tombstones and rows ([src/mutation/atomic_cell.hh],
    [src/mutation/atomic_cell.cc], parts of [src/mutation/mutation_partition.hh] and
    [src/mutation/mutation_partition.cc]).

    A row of a table has a marker, a tombstone and, for each column, a cell, each with the time at
    which it was written. Replicas merge rows; reads and compaction drop what is deleted or expired.
    Atomic columns are modelled; collections and counters, whose cells merge by their own rules, are
    not. The collector of garbage is left out: it is given what is purged. *)
From S2P Require Import Prelude Bytes Ordering RangeTombstones.
Open Scope Z_scope.

Section cells.
Context {V : Type} (compare_unsigned : V -> V -> comparison).

(** * Atomic cells *)

(** A live cell has a value and perhaps an expiry and a time to live; a dead one the time at which it
    was deleted. *)
Inductive atomic_cell :=
  | live_cell (ts : Z) (value : V) (expiring : option (Z * Z))
  | dead_cell (ts deletion : Z).

Definition cell_is_live (c : atomic_cell) : bool := match c with live_cell _ _ _ => true | dead_cell _ _ => false end.
Definition is_live_and_has_ttl (c : atomic_cell) : bool := match c with live_cell _ _ (Some _) => true | _ => false end.
Definition cell_timestamp (c : atomic_cell) : Z := match c with live_cell ts _ _ | dead_cell ts _ => ts end.

(** For a cell that is dead or has a time to live; any other fails an assertion of [expiry]. *)
Definition cell_deletion_time (c : atomic_cell) : option Z :=
  match c with
  | dead_cell _ d => Some d
  | live_cell _ _ (Some (expiry, ttl)) => Some (expiry - ttl)
  | live_cell _ _ None => None
  end.
Definition has_expired (c : atomic_cell) (now : Z) : bool :=
  match c with live_cell _ _ (Some (expiry, _)) => expiry <=? now | _ => false end.
Definition is_covered_by (c : atomic_cell) (t : tombstone) : bool := cell_timestamp c <=? timestamp t.
Definition cell_is_live_at (c : atomic_cell) (t : tombstone) (now : Z) : bool :=
  cell_is_live c && negb (is_covered_by c t) && negb (has_expired c now).

Definition compare_atomic_cell_for_merge (left right : atomic_cell) : comparison :=
  if negb (cell_timestamp left =? cell_timestamp right) then cell_timestamp left ?= cell_timestamp right
  else
    match left, right with
    | live_cell _ _ _, dead_cell _ _ => Lt
    | dead_cell _ _, live_cell _ _ _ => Gt
    | live_cell _ v1 None, live_cell _ v2 (Some _) => Lt
    | live_cell _ v1 (Some _), live_cell _ v2 None => Gt
    | live_cell _ v1 (Some (expiry1, ttl1)), live_cell _ v2 (Some (expiry2, ttl2)) =>
      if negb (expiry1 =? expiry2) then expiry1 ?= expiry2
      else if negb (ttl2 =? ttl1) then ttl2 ?= ttl1
      else compare_unsigned v1 v2
    | live_cell _ v1 None, live_cell _ v2 None => compare_unsigned v1 v2
    | dead_cell _ d1, dead_cell _ d2 => u64 d1 ?= u64 d2
    end.

(** * Row markers *)

Definition no_ttl : Z := 0.
Definition dead : Z := -1.

Record row_marker := RowMarker {
  rm_timestamp : Z;
  rm_ttl : Z;
  rm_expiry : Z;
}.
Definition no_marker : row_marker := RowMarker missing_timestamp no_ttl 0.
Definition marker_at (created_at : Z) : row_marker := RowMarker created_at no_ttl 0.
Definition marker_of_tombstone (t : tombstone) : row_marker := RowMarker (timestamp t) dead (deletion_time t).

Definition is_missing (m : row_marker) : bool := rm_timestamp m =? missing_timestamp.
Definition marker_is_live (m : row_marker) : bool := negb (is_missing m) && negb (rm_ttl m =? dead).
Definition marker_is_live_at (m : row_marker) (t : tombstone) (now : Z) : bool :=
  if is_missing m || (rm_ttl m =? dead) then false
  else if negb (rm_ttl m =? no_ttl) && (rm_expiry m <=? now) then false
  else timestamp t <? rm_timestamp m.
Definition is_expiring (m : row_marker) : bool := negb (rm_ttl m =? no_ttl).
Definition marker_deletion_time (m : row_marker) : Z := if rm_ttl m =? dead then rm_expiry m else rm_expiry m - rm_ttl m.

(** 1, -1 or 0. *)
Definition compare_row_marker_for_merge (left right : row_marker) : Z :=
  if negb (rm_timestamp left =? rm_timestamp right) then if rm_timestamp right <? rm_timestamp left then 1 else -1
  else if negb (eqb (marker_is_live left) (marker_is_live right)) then if marker_is_live left then -1 else 1
  else if marker_is_live left then
    if negb (eqb (is_expiring left) (is_expiring right)) then if is_expiring left then 1 else -1
    else if is_expiring left then
      if negb (rm_expiry left =? rm_expiry right) then if rm_expiry left <? rm_expiry right then -1 else 1
      else if negb (rm_ttl left =? rm_ttl right) then if rm_ttl left <? rm_ttl right then 1 else -1
      else 0
    else 0
  else
    if negb (marker_deletion_time left =? marker_deletion_time right) then
      if u64 (marker_deletion_time left) <? u64 (marker_deletion_time right) then -1 else 1
    else 0.

Definition marker_apply (m rm : row_marker) : row_marker := if compare_row_marker_for_merge m rm <? 0 then rm else m.

(** * Row tombstones *)

(** [_shadowable] is a tombstone with other rules. *)
Record row_tombstone := RowTombstone {
  regular : tombstone;
  shadowable : tombstone;
}.
Definition no_row_tombstone : row_tombstone := RowTombstone no_tombstone no_tombstone.
Definition row_tombstone_of (t : tombstone) : row_tombstone := RowTombstone t t.

Definition is_shadowed_by (t : tombstone) (m : row_marker) : bool := marker_is_live m && (timestamp t <? rm_timestamp m).
Definition maybe_shadow (t : row_tombstone) (m : row_marker) : row_tombstone :=
  if is_shadowed_by (shadowable t) m then RowTombstone (regular t) (regular t) else t.
Definition is_shadowable (t : row_tombstone) : bool := tombstone_less (regular t) (shadowable t).
Definition max_deletion_time (t : row_tombstone) : Z := Z.max (deletion_time (regular t)) (deletion_time (shadowable t)).

Definition rt_apply_tombstone (t : row_tombstone) (reg : tombstone) : row_tombstone :=
  RowTombstone (tombstone_apply (regular t) reg) (tombstone_apply (shadowable t) reg).
Definition rt_apply_shadowable (t : row_tombstone) (sh : tombstone) (m : row_marker) : row_tombstone :=
  maybe_shadow (RowTombstone (regular t) (tombstone_apply (shadowable t) sh)) m.
Definition rt_apply_row_tombstone (this t : row_tombstone) (m : row_marker) : row_tombstone :=
  maybe_shadow (RowTombstone (tombstone_apply (regular this) (regular t)) (tombstone_apply (shadowable this) (shadowable t))) m.

(** * Rows *)

(** The cells by the id of their column. *)
Abbreviation row := (gmap Z atomic_cell).

(** [row::apply_monotonically], for one cell and for a row. *)
Definition apply_cell (dst src : atomic_cell) : atomic_cell :=
  match compare_atomic_cell_for_merge dst src with Lt => src | _ => dst end.
Definition row_apply (dst src : row) : row := union_with (fun d s => Some (apply_cell d s)) dst src.

Record deletable_row := DeletableRow {
  deleted_at : row_tombstone;
  marker : row_marker;
  row_cells : row;
}.
Definition empty_row : deletable_row := DeletableRow no_row_tombstone no_marker ∅.

Definition dr_apply_tombstone (r : deletable_row) (t : tombstone) : deletable_row :=
  DeletableRow (maybe_shadow (rt_apply_tombstone (deleted_at r) t) (marker r)) (marker r) (row_cells r).
Definition dr_apply_shadowable (r : deletable_row) (t : tombstone) : deletable_row :=
  DeletableRow (rt_apply_shadowable (deleted_at r) t (marker r)) (marker r) (row_cells r).
Definition dr_apply_row_tombstone (r : deletable_row) (t : row_tombstone) : deletable_row :=
  DeletableRow (rt_apply_row_tombstone (deleted_at r) t (marker r)) (marker r) (row_cells r).
Definition dr_apply_marker (r : deletable_row) (m : row_marker) : deletable_row :=
  let m := marker_apply (marker r) m in DeletableRow (maybe_shadow (deleted_at r) m) m (row_cells r).
Definition dr_remove_tombstone (r : deletable_row) : deletable_row := DeletableRow no_row_tombstone (marker r) (row_cells r).

(** [deletable_row::apply]. *)
Definition dr_apply (r src : deletable_row) : deletable_row :=
  let cells := row_apply (row_cells r) (row_cells src) in
  let m := marker_apply (marker r) (marker src) in
  DeletableRow (rt_apply_row_tombstone (deleted_at r) (deleted_at src) m) m cells.

Definition dr_empty (r : deletable_row) : bool :=
  negb (tombstone_bool (shadowable (deleted_at r))) && is_missing (marker r) && bool_decide (row_cells r = ∅).

Definition row_is_live (r : row) (t : tombstone) (now : Z) : bool :=
  existsb (fun '(_, c) => cell_is_live_at c t now) (map_to_list r).
Definition dr_is_live (r : deletable_row) (base : tombstone) (now : Z) : bool :=
  let base := tombstone_apply base (shadowable (deleted_at r)) in
  marker_is_live_at (marker r) base now || row_is_live (row_cells r) base now.

(** The cells of a row that another row has not, or only older ones. *)
Definition row_difference (r other : row) : row :=
  merge (fun c o => match c, o with
    | Some c, Some o => match compare_atomic_cell_for_merge c o with Gt => Some c | _ => None end
    | _, _ => c
    end) r other.
Definition dr_difference (r other : deletable_row) : deletable_row :=
  let dr := if tombstone_less (shadowable (deleted_at other)) (shadowable (deleted_at r)) then dr_apply_row_tombstone empty_row (deleted_at r) else empty_row in
  let dr := if 0 <? compare_row_marker_for_merge (marker r) (marker other) then dr_apply_marker dr (marker r) else dr in
  DeletableRow (deleted_at dr) (marker dr) (row_difference (row_cells r) (row_cells other)).

(** * Compaction *)

(** [can_gc]: whether a tombstone (and is it shadowable) may be purged; [gc_before]: from when on
    tombstones are kept. *)
Section compaction.
Context (can_gc : tombstone -> bool -> bool) (now gc_before : Z).

Definition marker_compact_and_expire (m : row_marker) (tomb : tombstone) : bool * row_marker :=
  if is_missing m then (false, m)
  else if rm_timestamp m <=? timestamp tomb then (false, RowMarker missing_timestamp (rm_ttl m) (rm_expiry m))
  else
    let m := if (no_ttl <? rm_ttl m) && (rm_expiry m <=? now) then RowMarker (rm_timestamp m) dead (rm_expiry m - rm_ttl m) else m in
    let m := if (rm_ttl m =? dead) && (rm_expiry m <? gc_before) && can_gc (Tombstone (rm_timestamp m) (rm_expiry m)) false
             then RowMarker missing_timestamp (rm_ttl m) (rm_expiry m) else m in
    (negb (is_missing m) && negb (rm_ttl m =? dead), m).

(** One cell of [row::compact_and_expire]: what is left of it. *)
Definition can_erase_cell (c : atomic_cell) : bool :=
  match cell_deletion_time c with Some d => (d <? gc_before) && can_gc (Tombstone (cell_timestamp c) d) false | None => false end.
Definition compact_cell (tomb : row_tombstone) (c : atomic_cell) : option atomic_cell :=
  if is_covered_by c (regular tomb) then None
  else if is_covered_by c (shadowable tomb) then None
  else if has_expired c now then
    if can_erase_cell c then None
    else match cell_deletion_time c with Some d => Some (dead_cell (cell_timestamp c) d) | None => None end
  else if negb (cell_is_live c) then if can_erase_cell c then None else Some c
  else Some c.
(** Whether it counts as live. *)
Definition counts_as_live (tomb : row_tombstone) (c : atomic_cell) : bool :=
  negb (is_covered_by c (regular tomb)) && negb (is_covered_by c (shadowable tomb)) && negb (has_expired c now) && cell_is_live c.

(** [shadows]: [dead_marker_shadows_row], of views whose key has a regular column of the base. *)
Definition max_tombstone : tombstone := Tombstone (2 ^ 63 - 1) (2 ^ 63 - 1).
Definition row_compact_and_expire (view_with_base_column : bool) (r : row) (tomb : row_tombstone) (m : row_marker) : bool * row :=
  let tomb := if view_with_base_column && negb (marker_is_live m) then rt_apply_shadowable tomb max_tombstone no_marker else tomb in
  (existsb (fun '(_, c) => counts_as_live tomb c) (map_to_list r), omap (compact_cell tomb) r).

Definition dr_compact_and_expire (view_with_base_column : bool) (r : deletable_row) (tomb : tombstone) : bool * deletable_row :=
  let r := dr_apply_tombstone r tomb in
  let '(live_marker, m) := marker_compact_and_expire (marker r) (shadowable (deleted_at r)) in
  let '(live_cells, cells) := row_compact_and_expire view_with_base_column (row_cells r) (deleted_at r) m in
  let r := DeletableRow (deleted_at r) m cells in
  let t := deleted_at r in
  let purge := negb (tombstone_less tomb (shadowable t)) ||
    ((max_deletion_time t <? gc_before) && can_gc (shadowable t) (is_shadowable t)) in
  (live_marker || live_cells, if purge then dr_remove_tombstone r else r).

End compaction.
End cells.
Arguments atomic_cell : clear implicits.
Arguments deletable_row : clear implicits.
