(* ===== verification/CellsTheory.v ===== *)
(** What the order in which cells and markers are preferred is, that replicas that merge rows
    converge, and what compaction keeps. *)
From S2P Require Import Prelude Bytes Ordering RangeTombstones RangeTombstonesTheory Cells.
Open Scope Z_scope.

(** * Tombstones *)

Lemma tombstone_less_iff a b : tombstone_less a b = true <-> timestamp a < timestamp b \/ timestamp a = timestamp b /\ deletion_time a < deletion_time b.
Proof.
  unfold tombstone_less. rewrite bool_decide_eq_true. unfold tombstone_compare.
  destruct (Z.compare_spec (timestamp a) (timestamp b)), (Z.compare_spec (deletion_time a) (deletion_time b)); split; intros; try done; lia.
Qed.

Lemma tombstone_less_false a b : tombstone_less a b = false <-> timestamp b < timestamp a \/ timestamp a = timestamp b /\ deletion_time b <= deletion_time a.
Proof. rewrite <- not_true_iff_false, tombstone_less_iff. lia. Qed.

Lemma tombstone_eq a b : timestamp a = timestamp b -> deletion_time a = deletion_time b -> a = b.
Proof. destruct a, b. simpl. by intros -> ->. Qed.

(** Goals about merged tombstones, by cases. *)
Ltac innermost a := lazymatch a with context [tombstone_less _ _] => fail | _ => idtac end.
Ltac tombs :=
  unfold tombstone_apply in *;
  repeat match goal with
    | |- context [tombstone_less ?a ?b] => innermost a; innermost b; destruct (tombstone_less a b) eqn:?
    | H : context [tombstone_less ?a ?b] |- _ =>
      lazymatch type of H with tombstone_less _ _ = _ => fail | _ => innermost a; innermost b; destruct (tombstone_less a b) eqn:? end
    end;
  repeat match goal with
    | H : tombstone_less _ _ = true |- _ => apply tombstone_less_iff in H
    | H : tombstone_less _ _ = false |- _ => apply tombstone_less_false in H
    end;
  simplify_eq/=; try done; try (apply tombstone_eq; lia); try lia; try (exfalso; lia).

Lemma apply_not_less a b c d : tombstone_less a b = false -> tombstone_less c d = false -> tombstone_less (tombstone_apply a c) (tombstone_apply b d) = false.
Proof. intros. tombs. Qed.

Section theory.
Context {V : Type} (compare_unsigned : V -> V -> comparison) `{!TotalOrder compare_unsigned}.
Abbreviation cell := (atomic_cell V).
Abbreviation deletable_row := (deletable_row V).
Abbreviation cell_compare := (compare_atomic_cell_for_merge compare_unsigned).

(** * The order of cells *)

(** Later writes first; then tombstones before expiring cells before others; then the later expiry,
    the shorter time to live, the greater value. *)
Definition cell_key (c : cell) : list Z :=
  match c with
  | live_cell ts _ None => [ts; 0; 0; 0]
  | live_cell ts _ (Some (expiry, ttl)) => [ts; 1; expiry; - ttl]
  | dead_cell ts d => [ts; 2; u64 d; 0]
  end.
Definition cell_values (c : cell) : list V := match c with live_cell _ v _ => [v] | dead_cell _ _ => [] end.
Definition cell_order (a b : cell) : comparison :=
  then_compare (list_compare Z.compare (cell_key a) (cell_key b)) (list_compare compare_unsigned (cell_values a) (cell_values b)).

Lemma then_compare_Eq c : then_compare c Eq = c.
Proof using. by destruct c. Qed.

Lemma cell_compare_order a b : cell_compare a b = cell_order a b.
Proof using.
  unfold compare_atomic_cell_for_merge, cell_order.
  destruct a as [ts v [[e t]|]|ts d], b as [ts' v' [[e' t']|]|ts' d']; cbn [cell_timestamp cell_key cell_values list_compare];
    destruct (Z.eqb_spec ts ts') as [->|Hts]; cbn [negb]; rewrite ?Z.compare_refl; cbn [then_compare Z.compare Pos.compare Pos.compare_cont];
    rewrite ?then_compare_Eq; try done; try (by destruct (Z.compare_spec ts ts')).
  destruct (Z.eqb_spec e e') as [->|He]; cbn [negb]; [|by destruct (Z.compare_spec e e')]. rewrite Z.compare_refl. cbn [then_compare].
  rewrite Z.compare_opp. destruct (Z.eqb_spec t' t) as [->|Ht]; cbn [negb]; [by rewrite Z.compare_refl|].
  by destruct (Z.compare_spec t' t).
Qed.

#[export] Instance cell_compare_total : TotalOrder cell_compare.
Proof using All.
  pose proof (lex_total (list_compare Z.compare) (list_compare compare_unsigned) cell_key cell_values) as [Hr Hs Ht].
  split; intros *; rewrite !cell_compare_order; [apply Hr|apply Hs|apply Ht].
Qed.

Lemma apply_cell_greater a b : apply_cell compare_unsigned a b = greater cell_compare a b.
Proof using. done. Qed.

(** * The order of markers *)

Definition marker_ok (m : row_marker) : Prop := is_i64 (marker_deletion_time m).

Definition marker_key (m : row_marker) : list Z :=
  if marker_is_live m then if is_expiring m then [rm_timestamp m; 0; 1; rm_expiry m; - rm_ttl m] else [rm_timestamp m; 0; 0]
  else [rm_timestamp m; 1; u64 (marker_deletion_time m)].
Definition marker_compare (a b : row_marker) : comparison := list_compare Z.compare (marker_key a) (marker_key b).

#[export] Instance marker_compare_total : TotalOrder marker_compare.
Proof using. apply (by_key_total (list_compare Z.compare)). Qed.

Lemma compare_row_marker_order a b :
  marker_ok a -> marker_ok b -> compare_row_marker_for_merge a b = match marker_compare a b with Lt => -1 | Eq => 0 | Gt => 1 end.
Proof using.
  intros Ha Hb. unfold compare_row_marker_for_merge, marker_compare, marker_key.
  destruct (Z.eqb_spec (rm_timestamp a) (rm_timestamp b)) as [Hts|Hts]; cbn [negb].
  - destruct (marker_is_live a), (marker_is_live b); cbn [eqb negb].
    + destruct (is_expiring a), (is_expiring b); cbn [eqb negb list_compare]; rewrite Hts, ?Z.compare_refl; cbn [then_compare Z.compare]; try done.
      destruct (Z.eqb_spec (rm_expiry a) (rm_expiry b)) as [He|He]; cbn [negb]; rewrite ?He, ?Z.compare_refl; cbn [then_compare].
      * rewrite Z.compare_opp. destruct (Z.eqb_spec (rm_ttl a) (rm_ttl b)) as [Ht|Ht]; cbn [negb]; [by rewrite Ht, Z.compare_refl|].
        destruct (Z.ltb_spec (rm_ttl a) (rm_ttl b)), (Z.compare_spec (rm_ttl b) (rm_ttl a)); try done; lia.
      * destruct (Z.ltb_spec (rm_expiry a) (rm_expiry b)), (Z.compare_spec (rm_expiry a) (rm_expiry b)); try done; lia.
    + destruct (is_expiring a); cbn [list_compare]; rewrite Hts, Z.compare_refl; done.
    + destruct (is_expiring b); cbn [list_compare]; rewrite Hts, Z.compare_refl; done.
    + cbn [list_compare]. rewrite Hts, Z.compare_refl. cbn [then_compare Z.compare Pos.compare Pos.compare_cont]. rewrite then_compare_Eq.
      destruct (Z.eqb_spec (marker_deletion_time a) (marker_deletion_time b)) as [Hd|Hd]; cbn [negb]; [by rewrite Hd, Z.compare_refl|].
      destruct (Z.ltb_spec (u64 (marker_deletion_time a)) (u64 (marker_deletion_time b))), (Z.compare_spec (u64 (marker_deletion_time a)) (u64 (marker_deletion_time b))); try done; try lia.
      exfalso. apply Hd. rewrite <- (to_signed_of_unsigned 64 (marker_deletion_time a)), <- (to_signed_of_unsigned 64 (marker_deletion_time b)) by (done || lia). congruence.
  - destruct (marker_is_live a), (is_expiring a), (marker_is_live b), (is_expiring b); cbn [list_compare];
      destruct (Z.ltb_spec (rm_timestamp b) (rm_timestamp a)), (Z.compare_spec (rm_timestamp a) (rm_timestamp b)); try done; lia.
Qed.

Lemma marker_apply_greater a b : marker_ok a -> marker_ok b -> marker_apply a b = greater marker_compare a b.
Proof using. intros. unfold marker_apply, greater. rewrite compare_row_marker_order by done. by destruct (marker_compare a b). Qed.

(** * Merging rows *)

Definition cells_eqv (a b : gmap Z cell) : Prop := forall id, option_Forall2 (fun c d => cell_compare c d = Eq) (a !! id) (b !! id).

Abbreviation row_apply := (row_apply compare_unsigned).
Abbreviation dr_apply := (dr_apply compare_unsigned).

#[local] Instance cells_mergeable : Mergeable (fun _ => True) cells_eqv row_apply.
Proof using All.
  pose proof (greater_mergeable cell_compare) as [[Hr Hs Ht] _ Hp Hc Ha Hi].
  assert (forall a b id, row_apply a b !! id = union_with (fun d s => Some (greater cell_compare d s)) (a !! id) (b !! id)) as Hl.
  { intros a b id. unfold Cells.row_apply. by rewrite lookup_union_with. }
  split.
  - split.
    + intros a id. destruct (a !! id); constructor. apply Hr.
    + intros a b H id. destruct (H id); constructor. by apply Hs.
    + intros a b c H1 H2 id. specialize (H1 id). specialize (H2 id). destruct H1; inversion H2; constructor. by eapply Ht.
  - done.
  - intros a a' b b' _ _ _ _ H1 H2 id. rewrite !Hl. destruct (H1 id), (H2 id); constructor; try done. by apply Hp.
  - intros a b _ _ id. rewrite !Hl. destruct (a !! id), (b !! id); constructor; try apply Hr. by apply Hc.
  - intros a b c _ _ _ id. rewrite !Hl. destruct (a !! id), (b !! id), (c !! id); simpl; constructor; try apply Hr. by apply Ha.
  - intros a _ id. rewrite Hl. destruct (a !! id); constructor. by apply Hi.
Qed.

(** The marker is not that of a deleted row, the shadowable tombstone is not before the regular one
    and not hidden by the marker. *)
Record live_row_ok (r : deletable_row) : Prop := {
  row_marker_ok : marker_ok (marker r);
  row_marker_time : missing_timestamp <= rm_timestamp (marker r);
  row_marker_not_dead : rm_ttl (marker r) <> dead;
  row_regular : tombstone_less (shadowable (deleted_at r)) (regular (deleted_at r)) = false;
  row_shadow : is_shadowed_by (shadowable (deleted_at r)) (marker r) = true -> shadowable (deleted_at r) = regular (deleted_at r);
}.

Definition marker_normal (m : row_marker) : Prop := missing_timestamp <= rm_timestamp m /\ rm_ttl m <> dead.

Lemma marker_live_ts m : marker_normal m -> marker_is_live m = (missing_timestamp <? rm_timestamp m).
Proof using.
  intros [Ht Hd]. unfold marker_is_live, is_missing. destruct (Z.eqb_spec (rm_ttl m) dead); [done|]. cbn [negb]. rewrite andb_true_r.
  destruct (Z.eqb_spec (rm_timestamp m) missing_timestamp), (Z.ltb_spec missing_timestamp (rm_timestamp m)); try done; lia.
Qed.

Lemma marker_compare_ts m m' : marker_compare m m' <> Gt -> rm_timestamp m <= rm_timestamp m'.
Proof using.
  unfold marker_compare, marker_key. destruct (marker_is_live m), (is_expiring m), (marker_is_live m'), (is_expiring m'); cbn [list_compare];
    destruct (Z.compare_spec (rm_timestamp m) (rm_timestamp m')); cbn [then_compare]; intros; try done; lia.
Qed.

Lemma shadowed_mono t m m' :
  marker_normal m -> marker_normal m' -> marker_compare m m' <> Gt -> is_shadowed_by t m = true -> is_shadowed_by t m' = true.
Proof using.
  intros Hm Hm' Hle%marker_compare_ts. unfold is_shadowed_by. rewrite !marker_live_ts by done. rewrite !andb_true_iff, !Z.ltb_lt. lia.
Qed.

Lemma shadowed_older t t' m : timestamp t' <= timestamp t -> is_shadowed_by t m = true -> is_shadowed_by t' m = true.
Proof using. unfold is_shadowed_by. rewrite !andb_true_iff, !Z.ltb_lt. intros ? [? ?]. split; [done|lia]. Qed.

Definition effective_shadowable (reg sh : tombstone) (m : row_marker) : tombstone := if is_shadowed_by sh m then reg else sh.

Lemma rt_apply_row_eq a b m :
  rt_apply_row_tombstone a b m =
  let reg := tombstone_apply (regular a) (regular b) in RowTombstone reg (effective_shadowable reg (tombstone_apply (shadowable a) (shadowable b)) m).
Proof using. unfold rt_apply_row_tombstone, maybe_shadow, effective_shadowable. simpl. by destruct (is_shadowed_by _ _). Qed.

(** Hiding a tombstone before it is merged makes no difference. *)
Lemma shadow_early reg rb s t m m' :
  marker_normal m -> marker_normal m' -> marker_compare m m' <> Gt -> tombstone_less s rb = false ->
  effective_shadowable reg (tombstone_apply t (effective_shadowable rb s m)) m' = effective_shadowable reg (tombstone_apply t s) m'.
Proof using.
  intros Hm Hm' Hle Hrb. unfold effective_shadowable at 2. destruct (is_shadowed_by s m) eqn:Hs; [|done].
  pose proof (shadowed_mono s m m' Hm Hm' Hle Hs) as Hs'. unfold effective_shadowable. destruct (tombstone_less t s) eqn:Hts.
  - assert (tombstone_apply t s = s) as -> by (unfold tombstone_apply; by rewrite Hts). rewrite Hs', (shadowed_older s); [done| |done]. tombs.
  - assert (tombstone_apply t s = t) as -> by tombs. by assert (tombstone_apply t rb = t) as -> by tombs.
Qed.

Lemma effective_eqv reg sh m m' :
  marker_normal m -> marker_normal m' -> marker_compare m m' = Eq -> effective_shadowable reg sh m = effective_shadowable reg sh m'.
Proof using.
  intros Hm Hm' Heq. unfold effective_shadowable. destruct (is_shadowed_by sh m) eqn:H1, (is_shadowed_by sh m') eqn:H2; try done; exfalso.
  - rewrite (shadowed_mono sh m m') in H2; [done..| |done]. by rewrite Heq.
  - rewrite (shadowed_mono sh m' m) in H1; [done..| |done]. rewrite (cmp_sym marker_compare), Heq. done.
Qed.

Definition row_eqv (a b : deletable_row) : Prop :=
  deleted_at a = deleted_at b /\ marker_compare (marker a) (marker b) = Eq /\ cells_eqv (row_cells a) (row_cells b).

Lemma marker_greater_normal a b : marker_normal a -> marker_normal b -> marker_normal (greater marker_compare a b).
Proof using. intros. unfold greater. by destruct (marker_compare a b). Qed.
Lemma marker_greater_le a b : marker_compare a (greater marker_compare a b) <> Gt /\ marker_compare b (greater marker_compare a b) <> Gt.
Proof using. unfold greater. destruct (marker_compare a b) eqn:H; split; rank_with marker_compare [a; b]. Qed.

Lemma row_ok_normal r : live_row_ok r -> marker_normal (marker r).
Proof using. intros [_ ? ? _ _]. done. Qed.

Lemma dr_apply_eq a b :
  live_row_ok a -> live_row_ok b ->
  dr_apply a b =
  let m := greater marker_compare (marker a) (marker b) in
  let reg := tombstone_apply (regular (deleted_at a)) (regular (deleted_at b)) in
  DeletableRow (RowTombstone reg (effective_shadowable reg (tombstone_apply (shadowable (deleted_at a)) (shadowable (deleted_at b))) m)) m
    (row_apply (row_cells a) (row_cells b)).
Proof using. intros Ha Hb. unfold Cells.dr_apply. by rewrite marker_apply_greater, rt_apply_row_eq by (apply Ha || apply Hb). Qed.

Lemma dr_apply_ok a b : live_row_ok a -> live_row_ok b -> live_row_ok (dr_apply a b).
Proof using.
  intros Ha Hb. rewrite dr_apply_eq by done. cbv zeta. set (m := greater marker_compare (marker a) (marker b)).
  pose proof (marker_greater_normal _ _ (row_ok_normal a Ha) (row_ok_normal b Hb)) as [Hm1 Hm2]. fold m in Hm1, Hm2.
  destruct Ha as [Ha1 Ha2 Ha3 Ha4 Ha5], Hb as [Hb1 Hb2 Hb3 Hb4 Hb5]. split; cbn [marker deleted_at shadowable regular]; try done.
  - unfold m, greater. by destruct (marker_compare _ _).
  - unfold effective_shadowable. destruct (is_shadowed_by (tombstone_apply _ _) m); [tombs|by apply apply_not_less].
  - unfold effective_shadowable. destruct (is_shadowed_by (tombstone_apply _ _) m) eqn:Hs; [done|]. by rewrite Hs.
Qed.
Lemma dr_assoc_l a b c :
  live_row_ok a -> live_row_ok b -> live_row_ok c ->
  dr_apply a (dr_apply b c) =
  let m := greater marker_compare (marker a) (greater marker_compare (marker b) (marker c)) in
  let reg := tombstone_apply (regular (deleted_at a)) (tombstone_apply (regular (deleted_at b)) (regular (deleted_at c))) in
  let sh := tombstone_apply (shadowable (deleted_at a)) (tombstone_apply (shadowable (deleted_at b)) (shadowable (deleted_at c))) in
  DeletableRow (RowTombstone reg (effective_shadowable reg sh m)) m (row_apply (row_cells a) (row_apply (row_cells b) (row_cells c))).
Proof using.
  intros Ha Hb Hc. rewrite dr_apply_eq by (done || by apply dr_apply_ok). rewrite dr_apply_eq by done. cbn [marker deleted_at regular shadowable row_cells]. cbv zeta.
  rewrite shadow_early; [done|..].
  - apply marker_greater_normal; by apply row_ok_normal.
  - repeat apply marker_greater_normal; by apply row_ok_normal.
  - apply marker_greater_le.
  - apply apply_not_less; [apply Hb|apply Hc].
Qed.

Lemma dr_comm a b : live_row_ok a -> live_row_ok b -> row_eqv (dr_apply a b) (dr_apply b a).
Proof using All.
  intros Ha Hb. rewrite !dr_apply_eq by done. cbv zeta. unfold row_eqv. cbn [deleted_at marker row_cells].
  assert (marker_compare (greater marker_compare (marker a) (marker b)) (greater marker_compare (marker b) (marker a)) = Eq) as Hm.
  { pose proof (greater_mergeable marker_compare) as [_ _ _ Hc _ _]. by apply Hc. }
  split; [|split; [done|]].
  - rewrite (tombstone_apply_comm (regular (deleted_at b))), (tombstone_apply_comm (shadowable (deleted_at b))). f_equal.
    apply effective_eqv; [apply marker_greater_normal; by apply row_ok_normal..|done].
  - by apply (merge_comm (row_cells a) (row_cells b)).
Qed.

#[local] Instance rows_mergeable : Mergeable live_row_ok row_eqv dr_apply.
Proof using All.
  pose proof (greater_mergeable marker_compare) as [[Hr Hs Ht] _ Hp Hc Ha Hi].
  pose proof cells_mergeable as [[Cr Cs Ct] _ Cp Cc Ca Ci].
  assert (Equivalence row_eqv) as Heqv.
  { split; [intros r; by split_and!|intros r s (? & ? & ?); split_and!; [done|by apply Hs|by apply Cs]|].
    intros r s t (H1 & ? & ?) (? & ? & ?). split_and!; [by rewrite H1|by eapply Ht|by eapply Ct]. }
  split; [done| | |by intros; apply dr_comm| |].
  - intros. by apply dr_apply_ok.
  - intros a a' b b' Ha1 Ha2 Hb1 Hb2 (Hd1 & Hm1 & Hc1) (Hd2 & Hm2 & Hc2). rewrite !dr_apply_eq by done. cbv zeta. unfold row_eqv. cbn [deleted_at marker row_cells].
    assert (marker_compare (greater marker_compare (marker a) (marker b)) (greater marker_compare (marker a') (marker b')) = Eq) as Hm by (by apply Hp).
    split; [|split; [done|by apply Cp]]. rewrite Hd1, Hd2. f_equal.
    apply effective_eqv; [apply marker_greater_normal; by apply row_ok_normal..|done].
  - intros a b c H1 H2 H3. rewrite dr_assoc_l by done. transitivity (dr_apply c (dr_apply a b)).
    + rewrite dr_assoc_l by done. cbv zeta. unfold row_eqv. cbn [deleted_at marker row_cells].
      set (m1 := greater marker_compare (marker a) _). set (m2 := greater marker_compare (marker c) _).
      assert (marker_compare m1 m2 = Eq) as Hm.
      { eapply Ht; [by apply Ha|]. by apply Hc. }
      assert (marker_normal m1 /\ marker_normal m2) as [Hn1 Hn2].
      { split; repeat apply marker_greater_normal; by apply row_ok_normal. }
      split; [|split; [done|]].
      * rewrite !tombstone_apply_assoc. rewrite (tombstone_apply_comm (regular (deleted_at c))), (tombstone_apply_comm (shadowable (deleted_at c))).
        rewrite <- !tombstone_apply_assoc, (tombstone_apply_comm (regular (deleted_at c))), (tombstone_apply_comm (shadowable (deleted_at c))).
        f_equal. by apply effective_eqv.
      * eapply Ct; [by apply Ca|]. by apply Cc.
    + symmetry. apply dr_comm; [by apply dr_apply_ok|done].
  - intros a H. rewrite dr_apply_eq by done. cbv zeta. unfold row_eqv. cbn [deleted_at marker row_cells].
    rewrite !tombstone_apply_idem. split; [|split; [by apply Hi|by apply Ci]].
    assert (greater marker_compare (marker a) (marker a) = marker a) as ->.
    { unfold greater. by rewrite (cmp_refl marker_compare). }
    destruct (deleted_at a) as [reg sh] eqn:Hd. unfold effective_shadowable. cbn [regular shadowable].
    destruct (is_shadowed_by sh (marker a)) eqn:Hsh; [|done]. pose proof (row_shadow a H) as Hs'. rewrite Hd in Hs'. simpl in Hs'. by rewrite (Hs' Hsh).
Qed.

(** C21: Replicas that merge the same writes to a row, in any order and any number of times, end with
    the same tombstones and with markers and cells that compare equal, if no write has the marker of a
    deleted row. *)
Theorem rows_converge r writes1 writes2 :
  live_row_ok r -> Forall live_row_ok writes1 -> Forall live_row_ok writes2 -> (forall w, w ∈ writes1 <-> w ∈ writes2) ->
  row_eqv (fold_left dr_apply writes1 r) (fold_left dr_apply writes2 r).
Proof using All. apply (merge_all_converges live_row_ok row_eqv dr_apply). Qed.

(** * Compaction *)

(** As above, but the marker may be that of a deleted row. *)
Record row_ok (r : deletable_row) : Prop := {
  ok_regular : tombstone_less (shadowable (deleted_at r)) (regular (deleted_at r)) = false;
  ok_shadow : is_shadowed_by (shadowable (deleted_at r)) (marker r) = true -> shadowable (deleted_at r) = regular (deleted_at r);
  ok_ttl : dead <= rm_ttl (marker r);
}.

Lemma apply_timestamp a b : timestamp (tombstone_apply a b) = Z.max (timestamp a) (timestamp b).
Proof using. tombs. Qed.

(** Applying the tombstone of the partition hides no more than it deletes. *)
Lemma apply_tombstone_shadowable r t :
  row_ok r -> deleted_at (dr_apply_tombstone r t) = RowTombstone (tombstone_apply (regular (deleted_at r)) t) (tombstone_apply (shadowable (deleted_at r)) t).
Proof using.
  intros [_ Hsh _]. unfold dr_apply_tombstone, maybe_shadow, rt_apply_tombstone. cbn [deleted_at shadowable regular].
  destruct (is_shadowed_by (tombstone_apply (shadowable (deleted_at r)) t) (marker r)) eqn:Hs; [|done].
  rewrite Hsh; [done|]. eapply shadowed_older; [|done]. rewrite apply_timestamp. lia.
Qed.

Lemma row_is_live_iff (r : gmap Z cell) t now : row_is_live r t now = true <-> exists id c, r !! id = Some c /\ cell_is_live_at c t now = true.
Proof using.
  unfold row_is_live. rewrite existsb_exists. split.
  - intros ([id c] & Hin & Hc). exists id, c. split; [|done]. apply elem_of_map_to_list. by apply list_elem_of_In.
  - intros (id & c & Hid & Hc). exists (id, c). split; [|done]. apply list_elem_of_In. by apply elem_of_map_to_list.
Qed.

Section compaction.
Context (can_gc : tombstone -> bool -> bool) (now gc_before : Z).
Abbreviation compact := (dr_compact_and_expire can_gc now gc_before).

Lemma marker_compact_live m t : dead <= rm_ttl m -> fst (marker_compact_and_expire can_gc now gc_before m t) = marker_is_live_at m t now.
Proof using.
  intros Hm. unfold marker_compact_and_expire, marker_is_live_at. destruct (is_missing m) eqn:Hmiss; [done|]. cbn [orb].
  unfold is_missing, no_ttl, dead in *. destruct (Z.leb_spec (rm_timestamp m) (timestamp t)) as [Hts|Hts].
  { assert ((timestamp t <? rm_timestamp m) = false) as -> by lia. cbn [fst]. by repeat case_match. }
  assert ((timestamp t <? rm_timestamp m) = true) as -> by lia. cbn [fst].
  destruct (Z.eqb_spec (rm_ttl m) (-1)) as [Hd|Hd].
  - rewrite Hd. cbn [Z.ltb Z.compare andb rm_ttl]. rewrite Hd. cbn [Z.eqb andb]. destruct (_ && can_gc _ _); cbn [rm_ttl rm_timestamp]; rewrite ?Hd; by rewrite andb_false_r.
  - destruct (Z.eqb_spec (rm_ttl m) 0) as [H0|H0]; cbn [negb andb].
    + rewrite H0. cbn [Z.ltb Z.compare andb]. rewrite H0. cbn [Z.eqb andb]. rewrite H0, Hmiss. done.
    + assert ((0 <? rm_ttl m) = true) as -> by lia. cbn [andb]. destruct (rm_expiry m <=? now); cbn [rm_ttl rm_timestamp rm_expiry].
      * cbn [Z.eqb Pos.eqb andb]. destruct (_ && can_gc _ _); cbn [rm_ttl rm_timestamp]; by rewrite andb_false_r.
      * destruct (Z.eqb_spec (rm_ttl m) (-1)); [done|]. cbn [andb]. destruct (Z.eqb_spec (rm_ttl m) (-1)); [done|]. by rewrite Hmiss.
Qed.

(** What is left of a marker is live later if the marker was, also under an older tombstone. *)
Lemma marker_compact_later m t t' now' :
  dead <= rm_ttl m -> now <= now' -> timestamp t' <= timestamp t -> missing_timestamp <= timestamp t' ->
  marker_is_live_at (snd (marker_compact_and_expire can_gc now gc_before m t)) t' now' = marker_is_live_at m t now'.
Proof using.
  intros Hm Hnow Ht Ht'. unfold marker_compact_and_expire. destruct (is_missing m) eqn:Hmiss; [cbn [snd]; unfold marker_is_live_at; by rewrite Hmiss|].
  destruct (Z.leb_spec (rm_timestamp m) (timestamp t)) as [Hts|Hts].
  { unfold marker_is_live_at. assert ((timestamp t <? rm_timestamp m) = false) as -> by lia. by repeat case_match. }
  cbn [snd]. set (m1 := if (no_ttl <? rm_ttl m) && _ then _ else m).
  assert (marker_is_live_at m1 t' now' = marker_is_live_at m t now' /\ (rm_ttl m1 = dead -> marker_is_live_at m t now' = false)) as [H1 H2].
  { unfold m1, marker_is_live_at. rewrite Hmiss. unfold no_ttl, dead in *.
    assert ((timestamp t <? rm_timestamp m) = true) as -> by lia. assert ((timestamp t' <? rm_timestamp m) = true) as Hx by lia.
    destruct ((0 <? rm_ttl m) && (rm_expiry m <=? now)) eqn:He.
    - apply andb_true_iff in He as [He1 He2]. unfold is_missing in *. cbn [rm_timestamp rm_ttl rm_expiry]. rewrite Hmiss. cbn [orb Z.eqb Pos.eqb].
      destruct (Z.eqb_spec (rm_ttl m) (-1)); [done|]. destruct (Z.eqb_spec (rm_ttl m) 0); [lia|]. cbn [negb andb].
      assert ((rm_expiry m <=? now') = true) as -> by lia. done.
    - rewrite Hmiss, Hx. split; [done|]. intros ->. done. }
  destruct (_ && can_gc _ _) eqn:Hgc; [|done]. apply andb_true_iff in Hgc as [[Hd _]%andb_true_iff _]. apply Z.eqb_eq in Hd.
  rewrite H2 by done. unfold marker_is_live_at, is_missing. cbn [rm_timestamp]. by rewrite Z.eqb_refl.
Qed.

Lemma counts_as_live_eq (tomb : row_tombstone) (c : cell) :
  tombstone_less (shadowable tomb) (regular tomb) = false -> counts_as_live now tomb c = cell_is_live_at c (shadowable tomb) now.
Proof using.
  intros Hle%tombstone_less_false. unfold counts_as_live, cell_is_live_at, is_covered_by.
  destruct (Z.leb_spec (cell_timestamp c) (timestamp (regular tomb))), (Z.leb_spec (cell_timestamp c) (timestamp (shadowable tomb))); try lia; cbn [negb andb];
    rewrite ?andb_false_r; try done. by rewrite andb_true_r, andb_comm.
Qed.

(** A cell that is live later is kept, and what is left but not live was not live. *)
Lemma compact_cell_later (tomb : row_tombstone) (c : cell) now' :
  tombstone_less (shadowable tomb) (regular tomb) = false -> now <= now' ->
  match compact_cell can_gc now gc_before tomb c with
  | Some c' => is_covered_by c' (shadowable tomb) = false /\ (c' = c \/ cell_is_live c' = false /\ cell_is_live_at c (shadowable tomb) now' = false)
  | None => cell_is_live_at c (shadowable tomb) now' = false
  end.
Proof using.
  intros Hle%tombstone_less_false Hnow. unfold compact_cell, cell_is_live_at.
  destruct (is_covered_by c (regular tomb)) eqn:H1.
  { assert (is_covered_by c (shadowable tomb) = true) as -> by (unfold is_covered_by in *; lia). by rewrite andb_false_r. }
  destruct (is_covered_by c (shadowable tomb)) eqn:H2; [by rewrite andb_false_r|]. destruct (has_expired c now) eqn:He.
  - assert (has_expired c now' = true) as He'.
    { unfold has_expired in *. destruct c as [ts v [[e t]|]|]; try done. lia. }
    rewrite He', andb_false_r. destruct (can_erase_cell _ _ c); [done|]. destruct (cell_deletion_time c) eqn:Hd; [|done].
    split; [by destruct c|]. by right.
  - destruct (cell_is_live c) eqn:Hl; cbn [negb]; [by split; [|left]|]. destruct (can_erase_cell _ _ c); [done|]. by split; [|left].
Qed.

(** The cells that are left: those that are live later, and none that is deleted. *)
Lemma compacted_cells (tomb : row_tombstone) (r : gmap Z cell) now' :
  tombstone_less (shadowable tomb) (regular tomb) = false -> now <= now' ->
  let cells := omap (compact_cell can_gc now gc_before tomb) r in
  (forall id c, cell_is_live_at c (shadowable tomb) now' = true -> cells !! id = Some c <-> r !! id = Some c) /\
  (forall id c, cells !! id = Some c -> is_covered_by c (shadowable tomb) = false).
Proof using.
  intros HT Hnow cells. split; intros id c; [intros Hc|]; unfold cells; rewrite lookup_omap; (destruct (r !! id) as [c0|]; [|done]); cbn [mbind option_bind];
    pose proof (compact_cell_later tomb c0 now' HT Hnow) as Hk; destruct (compact_cell _ _ _ tomb c0) as [c1|].
  - destruct Hk as [_ [->|[Hd Hd0]]]; [done|]. split; intros [= ->]; exfalso; [|by rewrite Hd0 in Hc]. unfold cell_is_live_at in Hc. by rewrite Hd in Hc.
  - split; [done|]. intros [= ->]. by rewrite Hk in Hc.
  - intros [= ->]. apply Hk.
  - done.
Qed.

(** A dead marker stays dead, and the marker that is left says so. *)
Lemma marker_compact_result m t : fst (marker_compact_and_expire can_gc now gc_before m t) = marker_is_live (snd (marker_compact_and_expire can_gc now gc_before m t)).
Proof using.
  unfold marker_compact_and_expire, marker_is_live. destruct (is_missing m) eqn:Hm; [cbn [fst snd]; by rewrite Hm|].
  by destruct (rm_timestamp m <=? timestamp t).
Qed.
Lemma marker_dead_at m t now' : marker_is_live m = false -> marker_is_live_at m t now' = false.
Proof using. unfold marker_is_live, marker_is_live_at. by destruct (is_missing m), (rm_ttl m =? dead). Qed.

(** Under the largest shadowable tombstone nothing is left. *)
Lemma shadowed_cells (tomb : row_tombstone) (r : gmap Z cell) :
  (forall id c, r !! id = Some c -> cell_timestamp c < 2 ^ 63) ->
  row_compact_and_expire can_gc now gc_before true r tomb no_marker = (false, ∅).
Proof using.
  intros Hr. unfold row_compact_and_expire. change (negb (marker_is_live no_marker)) with true. cbn [andb].
  set (T := rt_apply_shadowable tomb max_tombstone no_marker).
  assert (forall id c, r !! id = Some c -> is_covered_by c (shadowable T) = true) as Hcov.
  { intros id c Hc%Hr. unfold is_covered_by, T, rt_apply_shadowable, maybe_shadow. change (is_shadowed_by _ no_marker) with false.
    cbn [shadowable]. rewrite apply_timestamp. cbn [max_tombstone timestamp]. lia. }
  f_equal.
  - apply not_true_is_false. intros (p & Hp & Hl)%existsb_exists. destruct p as [id c]. apply list_elem_of_In, elem_of_map_to_list in Hp.
    unfold counts_as_live in Hl. rewrite (Hcov id c Hp), !andb_false_r in Hl. done.
  - apply map_eq. intros id. rewrite lookup_omap, lookup_empty. destruct (r !! id) as [c|] eqn:Hc; [|done]. cbn [mbind option_bind].
    unfold compact_cell. rewrite (Hcov id c Hc). by destruct (is_covered_by c (regular T)).
Qed.

(** What a query sees of a row under a tombstone of its partition. In a view whose key has a regular
    column of the base table a row lives by its marker only, and its cells with it. *)
Definition row_is_read (view_with_base_column : bool) (r : deletable_row) (base : tombstone) now : bool :=
  if view_with_base_column then marker_is_live_at (marker r) (tombstone_apply base (shadowable (deleted_at r))) now
  else dr_is_live r base now.
Definition cell_is_read (view_with_base_column : bool) (r : deletable_row) (base : tombstone) now (c : cell) : bool :=
  let base := tombstone_apply base (shadowable (deleted_at r)) in
  cell_is_live_at c base now && (negb view_with_base_column || marker_is_live_at (marker r) base now).

(** Rows that are read alike, and nothing but the cells of one of them is left. *)
Lemma read_alike (view : bool) (r r' : deletable_row) base now' :
  let T := tombstone_apply base (shadowable (deleted_at r)) in let T' := tombstone_apply base (shadowable (deleted_at r')) in
  timestamp T' <= timestamp T -> marker_is_live_at (marker r') T' now' = marker_is_live_at (marker r) T now' ->
  (forall id c, cell_is_live_at c T now' = true -> (negb view || marker_is_live_at (marker r) T now') = true ->
    row_cells r' !! id = Some c <-> row_cells r !! id = Some c) ->
  (forall id c, row_cells r' !! id = Some c -> is_covered_by c T = false) ->
  row_is_read view r' base now' = row_is_read view r base now' /\
  forall id c, (row_cells r' !! id = Some c /\ cell_is_read view r' base now' c = true) <->
    (row_cells r !! id = Some c /\ cell_is_read view r base now' c = true).
Proof using.
  intros T T' HT Hm Hcells Hcov.
  assert (forall id c, (row_cells r' !! id = Some c /\ cell_is_read view r' base now' c = true) <->
    (row_cells r !! id = Some c /\ cell_is_read view r base now' c = true)) as Hread.
  { intros id c. unfold cell_is_read. fold T T'. rewrite Hm, !andb_true_iff. split; intros (Hid & Hl & Hv).
    - assert (cell_is_live_at c T now' = true) as Hl'.
      { unfold cell_is_live_at in *. rewrite (Hcov _ _ Hid). by destruct (cell_is_live c), (has_expired c now'), (is_covered_by c _). }
      split; [by apply Hcells|done].
    - split; [by apply Hcells|]. split; [|done]. unfold cell_is_live_at, is_covered_by in *. revert Hl.
      destruct (cell_is_live c), (has_expired c now'); cbn [andb negb]; rewrite ?andb_true_r, ?andb_false_r; try done.
      destruct (Z.leb_spec (cell_timestamp c) (timestamp T)), (Z.leb_spec (cell_timestamp c) (timestamp T')); done || lia. }
  split; [|exact Hread]. unfold row_is_read. destruct view; [exact Hm|]. unfold dr_is_live. fold T T'. rewrite Hm. f_equal.
  apply eq_true_iff_eq. rewrite !row_is_live_iff. unfold cell_is_read in Hread. fold T T' in Hread. cbn [negb orb] in Hread.
  split; intros (id & c & Hc); exists id, c; specialize (Hread id c); rewrite !andb_true_r in Hread; by apply Hread.
Qed.

(** C22: Compacting a row under a tombstone of its partition, whatever is purged, says whether the
    row is live, and loses nothing that can still be read: at every later time the compacted row is
    live if and only if the row was, and the same cells can be read from it. This holds for the
    tables and for the views whose rows live by their marker ([dead_marker_shadows_row]), where a
    dead marker makes the row dead and takes all cells with it. *)
Theorem compact_and_expire_correct (view_with_base_column : bool) (r : deletable_row) tomb now' :
  row_ok r -> (forall id c, row_cells r !! id = Some c -> cell_timestamp c < 2 ^ 63) ->
  missing_timestamp <= timestamp tomb -> now <= now' ->
  let '(live, r') := compact view_with_base_column r tomb in
  live = row_is_read view_with_base_column r tomb now /\
  row_is_read view_with_base_column r' tomb now' = row_is_read view_with_base_column r tomb now' /\
  forall id c, (row_cells r' !! id = Some c /\ cell_is_read view_with_base_column r' tomb now' c = true) <->
    (row_cells r !! id = Some c /\ cell_is_read view_with_base_column r tomb now' c = true).
Proof using.
  intros Hok Hcts Htomb Hnow. unfold dr_compact_and_expire. rewrite (apply_tombstone_shadowable r tomb Hok).
  change (marker (dr_apply_tombstone r tomb)) with (marker r). change (row_cells (dr_apply_tombstone r tomb)) with (row_cells r).
  cbn [shadowable]. set (T := RowTombstone (tombstone_apply (regular (deleted_at r)) tomb) (tombstone_apply (shadowable (deleted_at r)) tomb)).
  change (tombstone_apply (shadowable (deleted_at r)) tomb) with (shadowable T).
  assert (tombstone_less (shadowable T) (regular T) = false) as HT by (apply apply_not_less; [apply Hok|tombs]).
  assert (tombstone_apply tomb (shadowable (deleted_at r)) = shadowable T) as HTr by (by rewrite tombstone_apply_comm).
  pose proof (marker_compact_live (marker r) (shadowable T) (ok_ttl r Hok)) as Hml.
  pose proof (marker_compact_result (marker r) (shadowable T)) as Hmr.
  pose proof (fun t' => marker_compact_later (marker r) (shadowable T) t' now' (ok_ttl r Hok) Hnow) as Hmlater.
  destruct (marker_compact_and_expire can_gc now gc_before (marker r) (shadowable T)) as [lm m]. cbn [fst snd] in Hml, Hmr, Hmlater.
  assert (exists lc cells, row_compact_and_expire can_gc now gc_before view_with_base_column (row_cells r) T m = (lc, cells) /\
    (lm || lc) = row_is_read view_with_base_column r tomb now /\
    (forall id c, cell_is_live_at c (shadowable T) now' = true ->
      (negb view_with_base_column || marker_is_live_at (marker r) (shadowable T) now') = true -> cells !! id = Some c <-> row_cells r !! id = Some c) /\
    (forall id c, cells !! id = Some c -> is_covered_by c (shadowable T) = false)) as (lc & cells & -> & Hlive & Hcells & Hcov).
  { destruct (view_with_base_column && negb (marker_is_live m)) eqn:Hshadow.
    - apply andb_true_iff in Hshadow as [-> Hdead%negb_true_iff]. exists false, ∅. split_and!.
      + rewrite <- (shadowed_cells T (row_cells r) Hcts). unfold row_compact_and_expire. by rewrite Hdead.
      + unfold row_is_read. by rewrite HTr, orb_false_r.
      + intros id c _ Hl. cbn [negb orb] in Hl.
        by rewrite <- (Hmlater (shadowable T)), marker_dead_at in Hl by (done || unfold T; cbn [shadowable]; rewrite apply_timestamp; lia).
      + intros id c. by rewrite lookup_empty.
    - destruct (compacted_cells T (row_cells r) now' HT Hnow) as [Hcells Hcov]. unfold row_compact_and_expire. rewrite Hshadow.
      eexists _, _. split_and!; [done| |by intros id c Hl _; apply Hcells|exact Hcov].
      unfold row_is_read, dr_is_live. rewrite HTr, <- Hml. destruct view_with_base_column.
      + cbn [andb] in Hshadow. apply negb_false_iff in Hshadow. by rewrite Hmr, Hshadow.
      + f_equal. unfold row_is_live. clear -HT. induction (map_to_list (row_cells r)) as [|[id c] l IH]; [done|]. cbn [existsb].
        by rewrite IH, counts_as_live_eq. }
  split; [exact Hlive|]. match goal with |- row_is_read _ ?r' _ _ = _ /\ _ => set (r0 := r') end.
  assert (row_cells r0 = cells /\ marker r0 = m) as [Hc Hm] by (unfold r0; by case_match).
  assert (timestamp (tombstone_apply tomb (shadowable (deleted_at r0))) <= timestamp (shadowable T) /\
          missing_timestamp <= timestamp (tombstone_apply tomb (shadowable (deleted_at r0)))) as [Hle Hge].
  { rewrite apply_timestamp. unfold r0. case_match; cbn [deleted_at dr_remove_tombstone shadowable no_row_tombstone]; unfold T; cbn [shadowable];
      rewrite !apply_timestamp; cbn [no_tombstone timestamp]; lia. }
  apply read_alike; rewrite ?HTr, ?Hc, ?Hm; [done|by apply Hmlater|done|done].
Qed.
End compaction.

(** * Differences *)

(** Rows of tables that are no views: deletions are not shadowable. *)
Record plain_row (r : deletable_row) : Prop := {
  plain_marker : marker_ok (marker r);
  plain_marker_time : missing_timestamp <= rm_timestamp (marker r);
  plain_deleted : shadowable (deleted_at r) = regular (deleted_at r);
  plain_time : tombstone_less (regular (deleted_at r)) no_tombstone = false;
}.

Lemma no_marker_least m : marker_ok m -> missing_timestamp <= rm_timestamp m -> marker_compare no_marker m <> Gt.
Proof using.
  intros Hm Ht. unfold marker_compare, marker_key. change (marker_is_live no_marker) with false. change (u64 (marker_deletion_time no_marker)) with 0.
  change (rm_timestamp no_marker) with missing_timestamp. destruct (marker_is_live m) eqn:Hl.
  - assert (missing_timestamp < rm_timestamp m).
    { unfold marker_is_live, is_missing in Hl. apply andb_true_iff in Hl as [Hl%negb_true_iff%Z.eqb_neq _]. lia. }
    destruct (is_expiring m); cbn [list_compare]; by destruct (Z.compare_spec missing_timestamp (rm_timestamp m)); try lia.
  - cbn [list_compare]. destruct (Z.compare_spec missing_timestamp (rm_timestamp m)); cbn [then_compare]; try done; try lia.
    change (1 ?= 1) with Eq. cbn [then_compare]. rewrite then_compare_Eq. apply Z.compare_le_iff. apply Z.mod_pos_bound. lia.
Qed.

Lemma apply_none t : tombstone_less t no_tombstone = false -> tombstone_apply no_tombstone t = t /\ tombstone_apply t no_tombstone = t.
Proof using.
  intros H. rewrite (tombstone_apply_comm t). assert (tombstone_apply no_tombstone t = t) as ->; [|done].
  unfold tombstone_apply. destruct (tombstone_less no_tombstone t) eqn:H'; [done|]. apply tombstone_less_false in H, H'. apply tombstone_eq; lia.
Qed.

Lemma row_apply_difference a b : row_apply b (row_difference compare_unsigned a b) = row_apply b a.
Proof using All.
  apply map_eq. intros id. unfold Cells.row_apply, row_difference. rewrite !lookup_union_with, lookup_merge.
  destruct (a !! id) as [c|], (b !! id) as [d|]; try done. cbn [diag_None union_with option_union_with from_option].
  unfold apply_cell. rewrite (cmp_sym cell_compare c d). destruct (cell_compare c d) eqn:Hc; cbn; by rewrite ?(cmp_sym cell_compare c d), ?Hc.
Qed.

Lemma difference_marker a b :
  plain_row a -> plain_row b -> marker_apply (marker b) (marker (dr_difference compare_unsigned a b)) = marker_apply (marker b) (marker a).
Proof using.
  intros Ha Hb. pose proof (no_marker_least _ (plain_marker a Ha) (plain_marker_time a Ha)) as Hna.
  pose proof (no_marker_least _ (plain_marker b Hb) (plain_marker_time b Hb)) as Hnb. assert (marker_ok no_marker) as Hno by (split; done).
  assert (marker (dr_difference compare_unsigned a b) =
    if 0 <? compare_row_marker_for_merge (marker a) (marker b) then marker_apply no_marker (marker a) else no_marker) as ->.
  { unfold dr_difference. cbn [marker]. by destruct (0 <? _), (tombstone_less _ _). }
  rewrite compare_row_marker_order by (apply Ha || apply Hb). rewrite (marker_apply_greater no_marker) by (done || apply Ha).
  assert (marker_compare (marker b) no_marker <> Lt) as Hbn by rank_with marker_compare [marker b; no_marker].
  destruct (marker_compare (marker a) (marker b)) eqn:Hc; cbn [Z.ltb Z.compare].
  1,2: rewrite !marker_apply_greater by (done || apply Ha || apply Hb); unfold greater; rewrite (cmp_sym marker_compare (marker a)), Hc; by destruct (marker_compare (marker b) no_marker).
  assert (greater marker_compare no_marker (marker a) = marker a) as ->; [|done].
  assert (marker_compare no_marker (marker a) = Lt) as Hlt by rank_with marker_compare [marker a; marker b; no_marker]. unfold greater. by rewrite Hlt.
Qed.

Lemma plain_shadow t m : maybe_shadow (RowTombstone t t) m = RowTombstone t t.
Proof using. unfold maybe_shadow. simpl. by destruct (is_shadowed_by _ _). Qed.

Lemma difference_deleted a b :
  plain_row a -> plain_row b ->
  exists t, deleted_at (dr_difference compare_unsigned a b) = RowTombstone t t /\
    tombstone_apply (regular (deleted_at b)) t = tombstone_apply (regular (deleted_at b)) (regular (deleted_at a)).
Proof using.
  intros Ha Hb. pose proof (plain_time a Ha) as Hta. pose proof (plain_time b Hb) as Htb.
  pose proof (plain_deleted a Ha) as Hpa. pose proof (plain_deleted b Hb) as Hpb.
  unfold dr_difference. rewrite Hpa, Hpb. destruct (deleted_at a) as [ra sa], (deleted_at b) as [rb sb]. cbn [regular shadowable] in *. subst sa sb.
  exists (if tombstone_less rb ra then ra else no_tombstone). split.
  - destruct (tombstone_less rb ra) eqn:Hl; unfold dr_apply_marker, dr_apply_row_tombstone, rt_apply_row_tombstone; cbn [deleted_at marker empty_row no_row_tombstone regular shadowable];
      rewrite ?(proj1 (apply_none ra Hta)), ?plain_shadow; destruct (0 <? _); cbn [deleted_at]; unfold no_row_tombstone; by rewrite ?plain_shadow.
  - destruct (tombstone_less rb ra) eqn:Hl; [done|]. rewrite (proj2 (apply_none rb Htb)). unfold tombstone_apply. by rewrite Hl.
Qed.

(** C23: What a row has more than another is enough to bring the other up to date: applying the
    difference is the same as applying the row (for rows whose deletions are not shadowable). *)
Theorem dr_difference_correct a b :
  plain_row a -> plain_row b -> dr_apply b (dr_difference compare_unsigned a b) = dr_apply b a.
Proof using All.
  intros Ha Hb. unfold Cells.dr_apply. rewrite (difference_marker a b) by done.
  change (row_cells (dr_difference compare_unsigned a b)) with (row_difference compare_unsigned (row_cells a) (row_cells b)). rewrite row_apply_difference.
  destruct (difference_deleted a b Ha Hb) as (t & -> & Ht). f_equal. unfold rt_apply_row_tombstone. cbn [regular shadowable].
  rewrite (plain_deleted a Ha), (plain_deleted b Hb), Ht. done.
Qed.

End theory.

Module CellsExamples.

Definition never_gc (_ : tombstone) (_ : bool) : bool := false.
Definition view_deletion : deletable_row Z := DeletableRow (RowTombstone no_tombstone (Tombstone 10 100)) no_marker ∅.
Definition insertion : deletable_row Z := DeletableRow no_row_tombstone (marker_at 20) {[ 0 := live_cell 20 7 None ]}.
Definition update : deletable_row Z := DeletableRow no_row_tombstone no_marker {[ 0 := live_cell 20 9 None; 1 := live_cell 5 1 None ]}.
Definition row_deletion : deletable_row Z := DeletableRow no_row_tombstone (marker_of_tombstone (Tombstone 30 300)) ∅.

Lemma rows_converge_witness :
  row_eqv Z.compare (fold_left (dr_apply Z.compare) [insertion; update] view_deletion) (fold_left (dr_apply Z.compare) [update; insertion; update] view_deletion).
Proof.
  apply (rows_converge Z.compare).
  - split; vm_compute; intuition congruence.
  - repeat apply Forall_cons_2; try apply Forall_nil_2; split; vm_compute; intuition congruence.
  - repeat apply Forall_cons_2; try apply Forall_nil_2; split; vm_compute; intuition congruence.
  - set_solver.
Defined.

Definition new_row : deletable_row Z := DeletableRow no_row_tombstone (marker_at 20) ∅.
Definition old_cell : deletable_row Z := DeletableRow no_row_tombstone no_marker {[ 0 := live_cell 5 1 None ]}.

(** The difference forgets a deletion that a shadowable one covers: once a newer row supersedes the
    latter, what the former deleted is back. *)
Lemma difference_loses_deletion :
  let a := DeletableRow (row_tombstone_of (Tombstone 8 80)) no_marker ∅ in
  let d := dr_difference Z.compare a view_deletion in
  let deleted writes := shadowable (deleted_at (fold_left (dr_apply Z.compare) writes view_deletion)) in
  cell_is_live_at (live_cell 5 1 None) (deleted [a; old_cell; new_row]) 0 = false /\
  cell_is_live_at (live_cell 5 1 None) (deleted [d; old_cell; new_row]) 0 = true.
Proof. by vm_compute. Qed.

Lemma dr_difference_correct_witness :
  dr_apply Z.compare insertion (dr_difference Z.compare update insertion) = dr_apply Z.compare insertion update.
Proof. apply (dr_difference_correct Z.compare); split; vm_compute; intuition congruence. Defined.

(** C24: Merging rows is not commutative and associative once a write carries the marker of a deleted
    row: replicas that merge the same four writes - a shadowable deletion, the row marker that
    supersedes it, the marker of a deleted row and an older cell - in two orders disagree on whether
    the row is live. *)
Theorem dead_marker_diverges :
  exists writes1 writes2 : list (deletable_row Z),
    (forall w, w ∈ writes1 <-> w ∈ writes2) /\ Forall row_ok writes1 /\
    dr_is_live (fold_left (dr_apply Z.compare) writes1 empty_row) no_tombstone 0 = true /\
    dr_is_live (fold_left (dr_apply Z.compare) writes2 empty_row) no_tombstone 0 = false.
Proof.
  exists [view_deletion; new_row; row_deletion; old_cell], [view_deletion; row_deletion; new_row; old_cell].
  split; [set_solver|]. split; [|by vm_compute].
  repeat apply Forall_cons_2; try apply Forall_nil_2; split; vm_compute; done.
Qed.

(** A deleted row, an expired cell, a live one and one that a shadowable tombstone hides. *)
Definition mixed : deletable_row Z :=
  DeletableRow (RowTombstone (Tombstone 5 50) (Tombstone 10 100)) no_marker
    {[ 0 := live_cell 30 1 (Some (200, 100)); 1 := live_cell 30 2 None; 2 := live_cell 7 3 None; 3 := dead_cell 30 60 ]}.
(** The same row under a dead marker: a table keeps its live cell, a view keeps nothing. *)
Lemma compact_and_expire_correct_witness :
  (dr_compact_and_expire never_gc 250 0 false mixed (Tombstone 6 60)).1 = true /\
  row_is_read false (dr_compact_and_expire never_gc 250 0 false mixed (Tombstone 6 60)).2 (Tombstone 6 60) 300 = true /\
  (dr_compact_and_expire never_gc 250 0 true mixed (Tombstone 6 60)).1 = false /\
  row_is_read true (dr_compact_and_expire never_gc 250 0 true mixed (Tombstone 6 60)).2 (Tombstone 6 60) 300 = false.
Proof.
  assert (row_ok mixed) as Hok by (split; vm_compute; done).
  assert (map_Forall (fun _ c => cell_timestamp c < 2 ^ 63) (row_cells mixed)) as Hts by (refine (bool_decide_unpack _ _); vm_compute; done).
  pose proof (compact_and_expire_correct never_gc 250 0 false mixed (Tombstone 6 60) 300 Hok Hts ltac:(vm_compute; done) ltac:(lia)) as H.
  pose proof (compact_and_expire_correct never_gc 250 0 true mixed (Tombstone 6 60) 300 Hok Hts ltac:(vm_compute; done) ltac:(lia)) as H'.
  destruct (dr_compact_and_expire _ _ _ false _ _) as [live r'], (dr_compact_and_expire _ _ _ true _ _) as [live' r''].
  destruct H as (Hl & Hr & _), H' as (Hl' & Hr' & _). cbn [fst snd]. rewrite Hl, Hr, Hl', Hr'. vm_compute. done.
Defined.

End CellsExamples.
