(* ===== verification/Paxos.v ===== *)
(** Lightweight transactions: the Paxos state of a replica in [system.paxos]
    ([db/system_keyspace.cc], [service/paxos/paxos_state.cc]) and the coordinator of a
    conditional update ([class paxos_response_handler] of [service/storage_proxy.cc]), for one
    partition. *)
From stdpp Require Import functions.
From S2P Require Import Prelude Bytes Ordering RangeTombstones Cells Uuid.

(** * Ballots *)

#[export] Instance UUID_eq_dec : EqDecision UUID.
Proof. solve_decision. Defined.

(** [UUID::timestamp], [UUID_gen::micros_timestamp], [unix_timestamp] and [unix_timestamp_in_sec] of a
    time UUID; that every ballot is one is part of the invariant of runs. *)
Definition ballot_timestamp (b : UUID) : Z := timestamp_bits b.
Definition ballot_micros (b : UUID) : Z := Z.quot (ballot_timestamp b + START_EPOCH) 10.
Definition ballot_millis (b : UUID) : Z := Z.quot (ballot_timestamp b + START_EPOCH) 10000.
Definition ballot_sec (b : UUID) : Z := Z.quot (ballot_millis b) 1000.

(** [UUID_gen::min_time_UUID()]. *)
Definition min_ballot : UUID := match min_time_UUID 0 with Ret u => u | _ => Uuid 0 0 end.

(** [client_state::get_timestamp_for_paxos]. *)
Definition get_timestamp_for_paxos (last_timestamp_micros clock min_timestamp_to_use : Z) : Z :=
  let current := Z.max clock min_timestamp_to_use in
  if current <=? last_timestamp_micros then last_timestamp_micros + 1 else current.

Abbreviation node := Z (only parsing).

Section paxos.
(** The mutations, the results of queries with their digest, the time the state is kept, and the bytes
    of the values of cells, in their order. *)
Context {M D : Type} `{!EqDecision M, !EqDecision D}.
Context (empty_mutation : M) (digest_of : D -> Z) (paxos_grace_seconds : Z).

Record proposal := Proposal { ballot : UUID; update : M }.
#[global] Instance proposal_eq_dec : EqDecision proposal.
Proof using EqDecision0. solve_decision. Defined.

Definition proposal_less (lhs rhs : proposal) : bool := ballot_timestamp (ballot lhs) <? ballot_timestamp (ballot rhs).

(** * The table [system.paxos] *)

Inductive paxos_value := uuid_value (u : UUID) | blob_value (m : M).
Context (compare_unsigned : paxos_value -> paxos_value -> comparison).

Abbreviation paxos_row := (gmap Z (atomic_cell paxos_value)).

(** The regular columns. *)
Definition promise_column : Z := 0.
Definition most_recent_commit_column : Z := 1.
Definition most_recent_commit_at_column : Z := 2.
Definition proposal_column : Z := 3.
Definition proposal_ballot_column : Z := 4.

(** What an UPDATE or DELETE with a timestamp and a time to live writes; [None] is [null]. *)
Definition written_cell (ts ttl now : Z) (v : option paxos_value) : atomic_cell paxos_value :=
  match v with
  | Some v => live_cell ts v (if ttl =? 0 then None else Some (now + ttl, ttl))
  | None => dead_cell ts now
  end.
Definition execute_cql (row : paxos_row) (ts ttl now : Z) (columns : list (Z * option paxos_value)) : paxos_row :=
  row_apply compare_unsigned row (written_cell ts ttl now <$> list_to_map columns).

Definition save_paxos_promise (row : paxos_row) (b : UUID) (now : Z) : paxos_row :=
  execute_cql row (ballot_micros b) paxos_grace_seconds now [(promise_column, Some (uuid_value b))].
Definition save_paxos_proposal (row : paxos_row) (p : proposal) (now : Z) : paxos_row :=
  execute_cql row (ballot_micros (ballot p)) paxos_grace_seconds now
    [(promise_column, Some (uuid_value (ballot p))); (proposal_ballot_column, Some (uuid_value (ballot p))); (proposal_column, Some (blob_value (update p)))].
Definition save_paxos_decision (row : paxos_row) (d : proposal) (now : Z) : paxos_row :=
  execute_cql row (ballot_micros (ballot d)) paxos_grace_seconds now
    [(proposal_ballot_column, None); (proposal_column, None);
     (most_recent_commit_at_column, Some (uuid_value (ballot d))); (most_recent_commit_column, Some (blob_value (update d)))].
Definition delete_paxos_decision (row : paxos_row) (b : UUID) (now : Z) : paxos_row :=
  execute_cql row (ballot_micros b) 0 now [(most_recent_commit_column, None)].

Record paxos_state := PaxosState {
  promised_ballot : UUID;
  accepted_proposal : option proposal;
  most_recent_commit : option proposal;
}.
#[global] Instance paxos_state_eq_dec : EqDecision paxos_state.
Proof using EqDecision0. solve_decision. Defined.

(** [row.has(column)] with the value. *)
Definition column_value (row : paxos_row) (now column : Z) : option paxos_value :=
  match row !! column with
  | Some (live_cell ts v e) => if cell_is_live_at (live_cell ts v e) no_tombstone now then Some v else None
  | _ => None
  end.
Definition column_uuid (row : paxos_row) (now column : Z) : option UUID :=
  match column_value row now column with Some (uuid_value u) => Some u | _ => None end.
Definition column_blob (row : paxos_row) (now column : Z) : option M :=
  match column_value row now column with Some (blob_value m) => Some m | _ => None end.

Inductive paxos_error := missing_column.

Definition load_paxos_state (row : paxos_row) (now : Z) : outcome paxos_error paxos_state :=
  let promised := default min_ballot (column_uuid row now promise_column) in
  accepted ← (match column_blob row now proposal_column with
    | Some m => match column_uuid row now proposal_ballot_column with Some b => Ret (Some (Proposal b m)) | None => Throw missing_column end
    | None => Ret None
    end);
  let most_recent :=
    (fun b => Proposal b (default empty_mutation (column_blob row now most_recent_commit_column))) <$> column_uuid row now most_recent_commit_at_column in
  Ret (PaxosState promised accepted most_recent).

(** * A replica *)

(** What the query that accompanies a promise gave. *)
Inductive data_or_digest := full_result (data : D) | only_digest (digest : Z).
#[global] Instance data_or_digest_eq_dec : EqDecision data_or_digest.
Proof using EqDecision1. solve_decision. Defined.

Inductive prepare_response :=
  | promise_rejected (promised : UUID)
  | promise (accepted : option proposal) (commit : option proposal) (data : option data_or_digest).
#[global] Instance prepare_response_eq_dec : EqDecision prepare_response.
Proof using EqDecision0 EqDecision1. solve_decision. Defined.

(** What holds the lock of the partition: a request that is about to save. *)
Inductive paxos_operation := preparing (b : UUID) (st : paxos_state) | accepting (p : proposal).

Record replica := Replica {
  r_row : paxos_row;
  r_lock : option paxos_operation;
  r_learning : list proposal; (** decisions that are applied to the table, but not saved *)
  r_table : list M; (** the mutations that were applied to the table, newest first *)
  r_truncated_at : Z;
}.
Definition r_set_row row r := Replica row (r_lock r) (r_learning r) (r_table r) (r_truncated_at r).
Definition r_set_lock l r := Replica (r_row r) l (r_learning r) (r_table r) (r_truncated_at r).
Definition r_set_learning l r := Replica (r_row r) (r_lock r) l (r_table r) (r_truncated_at r).
Definition r_set_table l r := Replica (r_row r) (r_lock r) (r_learning r) l (r_truncated_at r).

(** [paxos_state::prepare]: up to the saving of the promise, and after it. *)
Definition prepare_start (r : replica) (b : UUID) (now : Z) : outcome paxos_error (replica * option prepare_response) :=
  st ← load_paxos_state (r_row r) now;
  if ballot_timestamp (promised_ballot st) <? ballot_timestamp b then Ret (r_set_lock (Some (preparing b st)) r, None)
  else Ret (r, Some (promise_rejected (promised_ballot st))).
Definition prepare_finish (r : replica) (b : UUID) (st : paxos_state) (data : option data_or_digest) (now : Z) : replica * prepare_response :=
  (r_set_lock None (r_set_row (save_paxos_promise (r_row r) b now) r), promise (accepted_proposal st) (most_recent_commit st) data).

(** [paxos_state::accept]. *)
Definition accept_start (r : replica) (p : proposal) (now : Z) : outcome paxos_error (replica * option bool) :=
  st ← load_paxos_state (r_row r) now;
  if bool_decide (ballot p = promised_ballot st) || (ballot_timestamp (promised_ballot st) <? ballot_timestamp (ballot p))
  then Ret (r_set_lock (Some (accepting p)) r, None) else Ret (r, Some false).
Definition accept_finish (r : replica) (p : proposal) (now : Z) : replica * bool :=
  (r_set_lock None (r_set_row (save_paxos_proposal (r_row r) p now) r), true).

(** A request whose write fails: it may have taken effect. *)
Definition save_fails (r : replica) (saved : bool) (now : Z) : replica :=
  match r_lock r with
  | Some (preparing b _) => r_set_lock None (if saved then r_set_row (save_paxos_promise (r_row r) b now) r else r)
  | Some (accepting p) => r_set_lock None (if saved then r_set_row (save_paxos_proposal (r_row r) p now) r else r)
  | None => r
  end.

(** [paxos_state::learn], which takes no lock: the mutation, then the saving of the decision. *)
Definition learn_start (r : replica) (d : proposal) : replica :=
  let r := if r_truncated_at r <=? ballot_millis (ballot d) then r_set_table (update d :: r_table r) r else r in
  r_set_learning (d :: r_learning r) r.
Definition learn_finish (r : replica) (d : proposal) (now : Z) : replica :=
  r_set_learning (filter (fun d' => d' <> d) (r_learning r)) (r_set_row (save_paxos_decision (r_row r) d now) r).

(** [paxos_state::prune]. *)
Definition prune (r : replica) (b : UUID) (now : Z) : replica := r_set_row (delete_paxos_decision (r_row r) b now) r.

(** A process that stops: what is on disk is left. *)
Definition crash (r : replica) : replica := r_set_lock None (r_set_learning [] r).

(** * Collecting promises *)

Record prepare_summary := PrepareSummary {
  committed_ballots_by_replica : gmap node UUID;
  promised : bool;
  most_recent_promised_ballot : UUID;
  ps_most_recent_commit : option proposal;
  most_recent_proposal : option proposal;
  ps_data : option D;
}.
Definition empty_summary : prepare_summary := PrepareSummary ∅ true min_ballot None None None.

Definition update_most_recent_promised_ballot (s : prepare_summary) (b : UUID) : prepare_summary :=
  if ballot_timestamp (most_recent_promised_ballot s) <? ballot_timestamp b
  then PrepareSummary (committed_ballots_by_replica s) (promised s) b (ps_most_recent_commit s) (most_recent_proposal s) (ps_data s) else s.

Definition replicas_missing_most_recent_commit (s : prepare_summary) (now_in_sec : Z) : list node :=
  match ps_most_recent_commit s with
  | None => []
  | Some d =>
    if ballot_sec (ballot d) + paxos_grace_seconds <? now_in_sec then []
    else omap (fun '(n, b) => if bool_decide (b = ballot d) then None else Some n) (map_to_list (committed_ballots_by_replica s))
  end.

(** The outcome of a request to a replica. *)
Inductive rpc_outcome (A : Type) := rpc_reply (a : A) | rpc_timeout | rpc_error.
#[global] Arguments rpc_reply {A} _.
#[global] Arguments rpc_timeout {A}.
#[global] Arguments rpc_error {A}.

Inductive write_exception := mutation_write_timeout | mutation_write_failure.

(** The state of a phase that waits for replicas, or its result. *)
Inductive waiting (T R : Type) := wait_more (t : T) | wait_result (r : R) | wait_exception (e : write_exception).
#[global] Arguments wait_more {T R} _.
#[global] Arguments wait_result {T R} _.
#[global] Arguments wait_exception {T R} _.

Record prepare_tracker := PrepareTracker {
  pt_peers : list node; (** that have not answered *)
  pt_summary : prepare_summary;
  pt_errors : nat;
  pt_digests_match : bool;
  pt_digest : option Z;
}.

(** The part of [on_prepare_response] that compares the results of the queries. *)
Definition compare_digests (t : prepare_tracker) (data : option data_or_digest) : bool * option Z * option D :=
  if pt_digests_match t then
    match data with
    | Some dd =>
      let d := match dd with full_result d => Some d | only_digest _ => None end in
      let digest := match dd with full_result d => digest_of d | only_digest g => g end in
      let '(matches, digest') :=
        match pt_digest t with
        | Some g => (g =? digest, Some g)
        | None => (true, Some digest)
        end in
      if matches then (true, digest', match ps_data (pt_summary t) with Some x => Some x | None => d end) else (false, None, None)
    | None => (false, None, None)
    end
  else (pt_digests_match t, pt_digest t, ps_data (pt_summary t)).

(** [on_prepare_response] for a promise, up to the counting of the replies. *)
Definition add_promise (t : prepare_tracker) (peer : node) (accepted commit : option proposal) (data : option data_or_digest) : prepare_tracker :=
  let s := pt_summary t in
  let mrc_ballot := match commit with Some d => ballot d | None => min_ballot end in
  let mrc :=
    match commit with
    | Some d => match ps_most_recent_commit s with
        | Some c => if proposal_less c d then Some d else Some c
        | None => Some d
        end
    | None => ps_most_recent_commit s
    end in
  let ballots := match committed_ballots_by_replica s !! peer with Some _ => committed_ballots_by_replica s | None => <[peer := mrc_ballot]> (committed_ballots_by_replica s) end in
  let s1 := match accepted with Some p => update_most_recent_promised_ballot s (ballot p) | None => s end in
  let mrp :=
    match accepted with
    | Some p => match most_recent_proposal s with
        | Some q => if proposal_less q p then Some p else Some q
        | None => Some p
        end
    | None => most_recent_proposal s
    end in
  let '(matches, digest, data) := compare_digests t data in
  PrepareTracker (pt_peers t) (PrepareSummary ballots (promised s) (most_recent_promised_ballot s1) mrc mrp data) (pt_errors t) matches digest.

(** [handle_one_msg] of [prepare_ballot], when the answer of a peer is there. *)
Definition handle_prepare_response (live_endpoints required_participants : nat) (t : prepare_tracker) (peer : node) (o : rpc_outcome prepare_response)
    : waiting prepare_tracker prepare_summary :=
  let t := PrepareTracker (filter (fun n => n <> peer) (pt_peers t)) (pt_summary t) (pt_errors t) (pt_digests_match t) (pt_digest t) in
  match o with
  | rpc_timeout => wait_exception mutation_write_timeout
  | rpc_error =>
    let errors := S (pt_errors t) in
    if bool_decide (live_endpoints < required_participants + errors)%nat then wait_exception mutation_write_failure
    else wait_more (PrepareTracker (pt_peers t) (pt_summary t) errors (pt_digests_match t) (pt_digest t))
  | rpc_reply (promise_rejected b) =>
    let s := update_most_recent_promised_ballot (pt_summary t) b in
    wait_result (PrepareSummary (committed_ballots_by_replica s) false (most_recent_promised_ballot s) (ps_most_recent_commit s) (most_recent_proposal s) (ps_data s))
  | rpc_reply (promise accepted commit data) =>
    let t := add_promise t peer accepted commit data in
    if bool_decide (size (committed_ballots_by_replica (pt_summary t)) = required_participants) then wait_result (pt_summary t) else wait_more t
  end.

Definition prepare_ballot (live_endpoints : list node) : prepare_tracker := PrepareTracker live_endpoints empty_summary 0 true None.

(** * Collecting acceptances *)

Record accept_tracker := AcceptTracker {
  at_peers : list node;
  at_accepts : nat;
  at_rejects : nat;
  at_errors : nat;
}.
Definition all_replies (t : accept_tracker) : nat := (at_accepts t + at_rejects t + at_errors t)%nat.
Definition non_accept_replies (t : accept_tracker) : nat := (at_rejects t + at_errors t)%nat.

Definition handle_accept_response (live_endpoints required_participants : nat) (timeout_if_partially_accepted : bool)
    (t : accept_tracker) (peer : node) (o : rpc_outcome bool) : waiting accept_tracker bool :=
  let peers := filter (fun n => n <> peer) (at_peers t) in
  let t := match o with
    | rpc_timeout => AcceptTracker peers (at_accepts t) (at_rejects t) (at_errors t)
    | rpc_error => AcceptTracker peers (at_accepts t) (at_rejects t) (S (at_errors t))
    | rpc_reply true => AcceptTracker peers (S (at_accepts t)) (at_rejects t) (at_errors t)
    | rpc_reply false => AcceptTracker peers (at_accepts t) (S (at_rejects t)) (at_errors t)
    end in
  if bool_decide (at_accepts t = required_participants) then wait_result true
  else match o with
    | rpc_timeout => wait_exception mutation_write_timeout
    | _ =>
      if bool_decide (live_endpoints < required_participants + at_errors t)%nat then wait_exception mutation_write_failure
      else if bool_decide (live_endpoints < required_participants + non_accept_replies t)%nat && negb timeout_if_partially_accepted then wait_result false
      else if bool_decide (all_replies t = live_endpoints) then
        if bool_decide (at_accepts t = 0%nat) && bool_decide (at_errors t = 0%nat) then wait_result false
        else wait_exception mutation_write_timeout
      else wait_more t
    end.

Definition accept_proposal (live_endpoints : list node) : accept_tracker := AcceptTracker live_endpoints 0 0 0.

(** * The coordinator *)

Record participants := Participants { endpoints : list node; required_participants : nat }.

(** [storage_proxy::get_paxos_participants], after the filtering by data center; [None] is
    [unavailable_exception]. *)
Definition get_paxos_participants (natural pending : list node) (is_alive : node -> bool) : option participants :=
  let pending := filter (fun p => p ∉ natural) pending in
  let quorum_size := S (length natural / 2) in
  let required := (quorum_size + length pending)%nat in
  let live := filter (fun n => is_alive n = true) (natural ++ pending) in
  if bool_decide (length live < required)%nat then None
  else if bool_decide (1 < length pending)%nat then None
  else Some (Participants live required).

(** Where a conditional update waits: at the top of the loop of [begin_and_repair_paxos], for promises, for
    acceptances of a value that is replayed, for a replayed decision to be learned, for the repair of
    replicas that miss a commit, for [cas_request::apply], for acceptances of its own value, for
    its own decision to be learned; or it has ended. *)
Inductive phase :=
  | beginning (min_timestamp_micros_to_use : Z)
  | preparing_ballot (min_timestamp_micros_to_use : Z) (b : UUID) (t : prepare_tracker)
  | replaying (min_timestamp_micros_to_use : Z) (p : proposal) (t : accept_tracker)
  | learning_replayed (min_timestamp_micros_to_use : Z) (p : proposal)
  | repairing (min_timestamp_micros_to_use : Z) (b : UUID) (data : option D)
  | prepared (b : UUID) (data : option D)
  | proposing (p : proposal) (t : accept_tracker)
  | learning (p : proposal)
  | succeeded
  | failed.

Record handler := Handler {
  h_participants : participants;
  h_last_timestamp : Z; (** of the client *)
  h_learned : nat;
  h_awaited : list (node * proposal); (** replies to [learn] that are to come *)
  h_phase : phase;
}.
Definition h_set_phase ph h := Handler (h_participants h) (h_last_timestamp h) (h_learned h) (h_awaited h) ph.
Definition h_set_last_timestamp t h := Handler (h_participants h) t (h_learned h) (h_awaited h) (h_phase h).
Definition h_set_learned n h := Handler (h_participants h) (h_last_timestamp h) n (h_awaited h) (h_phase h).
Definition h_set_awaited l h := Handler (h_participants h) (h_last_timestamp h) (h_learned h) l (h_phase h).
Definition h_live (h : handler) : list node := endpoints (h_participants h).
Definition h_required (h : handler) : nat := required_participants (h_participants h).

(** Everything that is ever sent. *)
Inductive message :=
  | prepare_request (b : UUID)
  | prepare_reply (n : node) (b : UUID) (r : prepare_response)
  | accept_request (p : proposal)
  | accept_reply (n : node) (p : proposal) (accepted : bool)
  | learn_request (d : proposal)
  | learn_reply (n : node) (d : proposal)
  | prune_request (b : UUID).
#[global] Instance message_eq_dec : EqDecision message.
Proof using EqDecision0 EqDecision1. solve_decision. Defined.

(** The head of the loop of [begin_and_repair_paxos]: a new ballot. *)
Definition begin_round (h : handler) (min_timestamp clock random : Z) : handler * list message :=
  let micros := get_timestamp_for_paxos (h_last_timestamp h) clock min_timestamp in
  let h := h_set_last_timestamp micros h in
  match get_random_time_UUID_from_micros random micros with
  | Ret b => (h_set_phase (preparing_ballot min_timestamp b (prepare_ballot (h_live h))) h, [prepare_request b])
  | _ => (h_set_phase failed h, [])
  end.

(** The rest of it, when the promises are there. *)
Definition after_prepare (h : handler) (min_timestamp : Z) (b : UUID) (s : prepare_summary) : handler * list message :=
  if negb (promised s) then (h_set_phase (beginning min_timestamp) h, [])
  else
    let min_timestamp := ballot_micros (most_recent_promised_ballot s) + 1 in
    let unfinished :=
      match most_recent_proposal s with
      | Some p => if match ps_most_recent_commit s with Some c => proposal_less c p | None => true end then Some p else None
      | None => None
      end in
    match unfinished with
    | Some p =>
      let refreshed := Proposal b (update p) in
      (h_set_phase (replaying min_timestamp refreshed (accept_proposal (h_live h))) h, [accept_request refreshed])
    | None =>
      match replicas_missing_most_recent_commit s (ballot_sec b), ps_most_recent_commit s with
      | _ :: _, Some d => (h_set_phase (repairing min_timestamp b (ps_data s)) h, [learn_request d])
      | _, _ => (h_set_phase (prepared b (ps_data s)) h, [])
      end
    end.

(** [learn_decision]: the decision goes to the replicas; [ph] is where its completion is awaited. *)
Definition learn_decision (h : handler) (p : proposal) (ph : phase) : handler * list message :=
  (h_set_phase ph (h_set_awaited (h_awaited h ++ ((fun n => (n, p)) <$> h_live h)) h), [learn_request p]).

(** [paxos_response_handler::learned]. *)
Definition learned (h : handler) (ep : node) : handler * bool :=
  if bool_decide (h_learned h < h_required h)%nat && bool_decide (ep ∈ h_live h)
  then (h_set_learned (S (h_learned h)) h, bool_decide (S (h_learned h) = h_required h))
  else (h, false).
(** [cas_mutation::reply]; a prune may be dropped if there are too many. *)
Definition learn_replied (h : handler) (ep : node) (d : proposal) (dropped : bool) : handler * list message :=
  let h := h_set_awaited (filter (fun e => e <> (ep, d)) (h_awaited h)) h in
  let '(h, all) := learned h ep in
  (h, if all && negb dropped then [prune_request (ballot d)] else []).

(** What can happen to a coordinator. *)
Inductive handler_event :=
  | begins (clock random : Z)
  | gives_up (** an exception, such as that of a deadline, ends the operation *)
  | prepare_answer (n : node) (o : rpc_outcome prepare_response)
  | accept_answer (n : node) (o : rpc_outcome bool)
  | write_completes (success : bool) (** of a decision or of a repair, with its consistency level *)
  | applied (m : M) (** the result of [cas_request::apply], or an empty mutation *)
  | learn_answer (n : node) (d : proposal) (dropped : bool).

Definition handler_step (h : handler) (e : handler_event) : option (handler * list message) :=
  match e, h_phase h with
  | begins clock random, beginning min_timestamp => Some (begin_round h min_timestamp clock random)
  | gives_up, _ => Some (h_set_phase failed h, [])
  | prepare_answer n o, preparing_ballot min_timestamp b t =>
    if bool_decide (n ∈ pt_peers t) then
      match handle_prepare_response (length (h_live h)) (h_required h) t n o with
      | wait_more t => Some (h_set_phase (preparing_ballot min_timestamp b t) h, [])
      | wait_result s => Some (after_prepare h min_timestamp b s)
      | wait_exception _ => Some (h_set_phase failed h, [])
      end
    else None
  | accept_answer n o, replaying min_timestamp p t =>
    if bool_decide (n ∈ at_peers t) then
      match handle_accept_response (length (h_live h)) (h_required h) false t n o with
      | wait_more t => Some (h_set_phase (replaying min_timestamp p t) h, [])
      | wait_result true => Some (learn_decision h p (learning_replayed min_timestamp p))
      | wait_result false => Some (h_set_phase (beginning min_timestamp) h, [])
      | wait_exception _ => Some (h_set_phase failed h, [])
      end
    else None
  | accept_answer n o, proposing p t =>
    if bool_decide (n ∈ at_peers t) then
      match handle_accept_response (length (h_live h)) (h_required h) true t n o with
      | wait_more t => Some (h_set_phase (proposing p t) h, [])
      | wait_result true => Some (learn_decision h p (learning p))
      | wait_result false => Some (h_set_phase (beginning 0) h, [])
      | wait_exception _ => Some (h_set_phase failed h, [])
      end
    else None
  | write_completes success, learning_replayed min_timestamp p => Some (h_set_phase (if success then beginning min_timestamp else failed) h, [])
  | write_completes success, repairing min_timestamp b data => Some (h_set_phase (if success then prepared b data else beginning min_timestamp) h, [])
  | write_completes success, learning p => Some (h_set_phase (if success then succeeded else failed) h, [])
  | applied m, prepared b data =>
    let p := Proposal b m in Some (h_set_phase (proposing p (accept_proposal (h_live h))) h, [accept_request p])
  | learn_answer n d dropped, _ =>
    if bool_decide ((n, d) ∈ h_awaited h) then Some (learn_replied h n d dropped) else None
  | _, _ => None
  end.

(** * Replicas and coordinators together *)

Record net := Net {
  replicas : node -> replica;
  handlers : nat -> handler;
  sent : list message; (** newest first; messages may get lost, arrive late and more than once *)
}.

Inductive replica_event :=
  | receive_prepare (b : UUID) (now : Z)
  | saved_promise (data : option data_or_digest) (now : Z)
  | receive_accept (p : proposal) (now : Z)
  | saved_proposal (now : Z)
  | save_failed (saved : bool) (now : Z)
  | receive_learn (d : proposal)
  | saved_decision (d : proposal) (now : Z)
  | receive_prune (b : UUID) (now : Z)
  | stops.

Definition replica_step (n : node) (r : replica) (e : replica_event) : option (replica * list message) :=
  match e with
  | receive_prepare b now =>
    match r_lock r, prepare_start r b now with
    | None, Ret (r, o) => Some (r, match o with Some a => [prepare_reply n b a] | None => [] end)
    | None, _ => Some (r, [])
    | _, _ => None
    end
  | saved_promise data now =>
    match r_lock r with
    | Some (preparing b st) => let '(r, a) := prepare_finish r b st data now in Some (r, [prepare_reply n b a])
    | _ => None
    end
  | receive_accept p now =>
    match r_lock r, accept_start r p now with
    | None, Ret (r, o) => Some (r, match o with Some a => [accept_reply n p a] | None => [] end)
    | None, _ => Some (r, [])
    | _, _ => None
    end
  | saved_proposal now =>
    match r_lock r with
    | Some (accepting p) => let '(r, a) := accept_finish r p now in Some (r, [accept_reply n p a])
    | _ => None
    end
  | save_failed saved now => Some (save_fails r saved now, [])
  | receive_learn d => Some (learn_start r d, [])
  | saved_decision d now => if bool_decide (d ∈ r_learning r) then Some (learn_finish r d now, [learn_reply n d]) else None
  | receive_prune b now => Some (prune r b now, [])
  | stops => Some (crash r, [])
  end.

Inductive event := at_replica (n : node) (e : replica_event) | at_handler (i : nat) (e : handler_event).

(** A request or reply that is received was sent. *)
Definition was_sent (s : net) (e : event) : bool :=
  match e with
  | at_replica _ (receive_prepare b _) => bool_decide (prepare_request b ∈ sent s)
  | at_replica _ (receive_accept p _) => bool_decide (accept_request p ∈ sent s)
  | at_replica _ (receive_learn d) => bool_decide (learn_request d ∈ sent s)
  | at_replica _ (receive_prune b _) => bool_decide (prune_request b ∈ sent s)
  | at_handler i (prepare_answer n (rpc_reply r)) =>
    match h_phase (handlers s i) with preparing_ballot _ b _ => bool_decide (prepare_reply n b r ∈ sent s) | _ => false end
  | at_handler i (accept_answer n (rpc_reply a)) =>
    match h_phase (handlers s i) with replaying _ p _ | proposing p _ => bool_decide (accept_reply n p a ∈ sent s) | _ => false end
  | at_handler i (learn_answer n d _) => bool_decide (learn_reply n d ∈ sent s)
  | _ => true
  end.

Definition net_step (s : net) (e : event) : option net :=
  if was_sent s e then
    match e with
    | at_replica n e => '(r, ms) ← replica_step n (replicas s n) e; Some (Net (<[n := r]> (replicas s)) (handlers s) (ms ++ sent s))
    | at_handler i e => '(h, ms) ← handler_step (handlers s i) e; Some (Net (replicas s) (<[i := h]> (handlers s)) (ms ++ sent s))
    end
  else None.

(** Assumptions on what happens: the random parts of ballots make them unique, and the state that is
    loaded is not past the time for which it is kept. *)
Definition state_is_kept (row : paxos_row) (now : Z) : bool := forallb (fun '(_, c) => negb (has_expired c now)) (map_to_list row).
Definition event_ok (s : net) (e : event) : bool :=
  match e with
  | at_handler i (begins clock random) =>
    match handler_step (handlers s i) (begins clock random) with
    | Some (_, ms) => forallb (fun m => match m with prepare_request b => bool_decide (prepare_request b ∉ sent s) | _ => true end) ms
    | None => true
    end
  | at_replica n (receive_prepare _ now) | at_replica n (receive_accept _ now) => state_is_kept (r_row (replicas s n)) now
  | _ => true
  end.

Definition run (s : net) (es : list event) : option net := foldl (fun s e => s ≫= fun s => if event_ok s e then net_step s e else None) (Some s) es.

(** The start: no replica has any state, and the coordinators have the participants that were alive when
    each of them was made. *)
Definition empty_replica (truncated_at : Z) : replica := Replica ∅ None [] [] truncated_at.
Definition make_handler (natural pending : list node) (is_alive : node -> bool) (last_timestamp : Z) : handler :=
  match get_paxos_participants natural pending is_alive with
  | Some ps => Handler ps last_timestamp 0 [] (beginning 0)
  | None => Handler (Participants [] 0) last_timestamp 0 [] failed
  end.
Definition initial (natural pending : list node) (alive : nat -> node -> bool) (last_timestamp : nat -> Z) (truncated_at : node -> Z) : net :=
  Net (fun n => empty_replica (truncated_at n)) (fun i => make_handler natural pending (alive i) (last_timestamp i)) [].

End paxos.
