(* ===== verification/PaxosTheory.v ===== *)
(** What is proved of the lightweight transactions of [Paxos]: that the coordinator's two rounds of
    requests end with the right result, and that a value that a quorum accepted is never
    replaced before it is learned. *)
From stdpp Require Import functions.
From S2P Require Import Prelude Bytes Ordering RangeTombstones RangeTombstonesTheory Cells CellsTheory Uuid Paxos.

(** * Rounds of requests *)

(** The answers of the peers, one after the other, until there is a result. *)
Fixpoint collect {T R O} (handle : T -> Z -> O -> waiting T R) (t : T) (answers : list (Z * O)) : waiting T R :=
  match answers with
  | [] => wait_more t
  | (n, o) :: rest => match handle t n o with wait_more t => collect handle t rest | r => r end
  end.

Definition answered_with {O} (P : O -> bool) (answers : list (Z * O)) : nat := length (filter (fun e => P e.2 = true) answers).
Definition is_accept (o : rpc_outcome bool) : bool := match o with rpc_reply true => true | _ => false end.
Definition is_reject (o : rpc_outcome bool) : bool := match o with rpc_reply false => true | _ => false end.
Definition is_error {A} (o : rpc_outcome A) : bool := match o with rpc_error => true | _ => false end.
Definition is_timeout {A} (o : rpc_outcome A) : bool := match o with rpc_timeout => true | _ => false end.

Lemma answered_cons {O} (P : O -> bool) n o (l : list (Z * O)) : answered_with P ((n, o) :: l) = ((if P o then 1 else 0) + answered_with P l)%nat.
Proof. unfold answered_with. rewrite filter_cons. cbn [snd]. destruct (P o); [by rewrite decide_True|by rewrite decide_False]. Qed.
Lemma answered_snoc {O} (P : O -> bool) n o (l : list (Z * O)) : answered_with P (l ++ [(n, o)]) = (answered_with P l + (if P o then 1 else 0))%nat.
Proof. unfold answered_with. rewrite filter_app, length_app, filter_cons. cbn [snd]. destruct (P o); [by rewrite decide_True|by rewrite decide_False]. Qed.

Lemma answered_total (l : list (Z * rpc_outcome bool)) :
  (answered_with is_accept l + answered_with is_reject l + answered_with is_error l + answered_with is_timeout l)%nat = length l.
Proof. induction l as [|[n [[]| |]] l IH]; [done|..]; rewrite !answered_cons; cbn [is_accept is_reject is_error is_timeout length]; lia. Qed.

Section accepting.
Context (live required : nat) (partial : bool).
Abbreviation handle := (handle_accept_response live required partial).

(** The tracker after some answers, none of which gave a result. *)
Definition tracks (seen : list (Z * rpc_outcome bool)) (t : accept_tracker) : Prop :=
  at_accepts t = answered_with is_accept seen /\ at_rejects t = answered_with is_reject seen /\ at_errors t = answered_with is_error seen /\
  answered_with is_timeout seen = 0%nat /\ (at_accepts t < required)%nat.

(** What each result means. *)
Definition accept_result_ok (answers : list (Z * rpc_outcome bool)) (r : waiting accept_tracker bool) : Prop :=
  match r with
  | wait_result true => (required <= answered_with is_accept answers)%nat
  | wait_result false =>
    if partial then answered_with is_reject answers = length answers
    else (live < required + answered_with is_reject answers + answered_with is_error answers)%nat
  | wait_exception mutation_write_timeout => answered_with is_timeout answers <> 0%nat \/ (answered_with is_accept answers + answered_with is_error answers <> 0)%nat
  | wait_exception mutation_write_failure => (live < required + answered_with is_error answers)%nat
  | wait_more _ => False
  end.

(** One answer: a result that the answers so far justify, or a tracker of them if some are missing. *)
Lemma handle_accept_spec seen t n o :
  tracks seen t -> (length (seen ++ [(n, o)]) <= live)%nat ->
  match handle t n o with
  | wait_more t' => tracks (seen ++ [(n, o)]) t' /\ (length (seen ++ [(n, o)]) < live)%nat
  | r => accept_result_ok (seen ++ [(n, o)]) r /\ (r = wait_result false -> partial = true -> length (seen ++ [(n, o)]) = live)
  end.
Proof using.
  intros (Ha & Hr & He & Ht & Hlt) Hlen. pose proof (answered_total (seen ++ [(n, o)])) as Htot.
  unfold handle_accept_response, tracks, accept_result_ok, all_replies, non_accept_replies. rewrite !answered_snoc in *. rewrite !Ha, !Hr, !He in *.
  destruct o as [[]| |]; cbn [is_accept is_reject is_error is_timeout at_accepts at_rejects at_errors at_peers] in *;
    repeat (case_bool_decide || case_match); simplify_eq/=; rewrite ?answered_snoc in *; cbn [is_accept is_reject is_error is_timeout] in *; repeat split; intros; try lia; try done.
Qed.

Lemma answered_app {O} (P : O -> bool) (l k : list (Z * O)) : answered_with P (l ++ k) = (answered_with P l + answered_with P k)%nat.
Proof using. unfold answered_with. by rewrite filter_app, length_app. Qed.

Lemma collect_accepts rest seen t :
  tracks seen t -> length (seen ++ rest) = live -> rest <> [] -> accept_result_ok (seen ++ rest) (collect handle t rest).
Proof using.
  revert seen t. induction rest as [|[n o] rest IH]; intros seen t Ht Hlen Hne; [done|]. cbn [collect].
  assert (seen ++ (n, o) :: rest = (seen ++ [(n, o)]) ++ rest) as Happ by (by rewrite <- app_assoc). rewrite Happ, (length_app (seen ++ [(n, o)])) in Hlen. rewrite Happ.
  pose proof (handle_accept_spec seen t n o Ht ltac:(lia)) as H.
  destruct (handle t n o) as [t'|[]|[]].
  - destruct H as [Ht' Hl]. apply IH; [done|by rewrite length_app|]. intros ->. cbn [length] in Hlen. lia.
  - destruct H as [H _]. unfold accept_result_ok in *. rewrite (answered_app _ (seen ++ [(n, o)]) rest). lia.
  - destruct H as [H Hall]. unfold accept_result_ok in *. destruct partial.
    + specialize (Hall eq_refl eq_refl). destruct rest; [by rewrite app_nil_r|]. cbn [length] in Hlen. lia.
    + rewrite !(answered_app _ (seen ++ [(n, o)]) rest). lia.
  - destruct H as [H _]. unfold accept_result_ok in *. rewrite !(answered_app _ (seen ++ [(n, o)]) rest). lia.
  - destruct H as [H _]. unfold accept_result_ok in *. rewrite !(answered_app _ (seen ++ [(n, o)]) rest). lia.
Qed.

(** C13: When every live replica has answered a proposal, or failed to, [accept_proposal] has its result:
    it succeeds only if the required number of replicas accepted. For a new value it reports a
    refusal only if every replica refused, so that nobody can replay the value; for a replayed one, if
    the required number has become impossible. *)
Theorem accept_proposal_correct (peers : list Z) (answers : list (Z * rpc_outcome bool)) :
  length answers = live -> (0 < required <= live)%nat -> accept_result_ok answers (collect handle (accept_proposal peers) answers).
Proof using.
  intros Hlen Hreq. apply (collect_accepts answers []); [|done|by intros ->; cbn [length] in Hlen; lia].
  repeat split. cbn [accept_proposal at_accepts]. lia.
Qed.
End accepting.

(** * Collecting promises *)

(** The newest of some proposals. *)
Definition is_newest {M} (l : list (@proposal M)) (o : option (@proposal M)) : Prop :=
  match o with
  | Some p => p ∈ l /\ forall q, q ∈ l -> ballot_timestamp (ballot q) <= ballot_timestamp (ballot p)
  | None => l = []
  end.

Lemma is_newest_cons {M} (l : list (@proposal M)) (p : proposal) (o : option proposal) :
  is_newest l o -> is_newest (p :: l) (match o with Some q => if proposal_less q p then Some p else Some q | None => Some p end).
Proof.
  destruct o as [q|]; cbn [is_newest].
  - intros [Hq Hmax]. unfold proposal_less. destruct (Z.ltb_spec (ballot_timestamp (ballot q)) (ballot_timestamp (ballot p))); cbn [is_newest];
      (split; [set_solver|]); intros r [->|Hr]%elem_of_cons; try lia; specialize (Hmax r Hr); lia.
  - intros ->. split; [set_solver|]. intros q ->%list_elem_of_singleton. lia.
Qed.

Section preparing.
Context {M D : Type} (digest_of : D -> Z).
Abbreviation proposal := (@proposal M).
Abbreviation reply := (Z * (option proposal * option proposal))%type.
Abbreviation prepare_summary := (@prepare_summary M D).

Definition accepted_in (rs : list reply) : list proposal := omap (fun r => r.2.1) rs.
Definition commits_in (rs : list reply) : list proposal := omap (fun r => r.2.2) rs.

(** The summary of some promises. *)
Record summarizes (rs : list reply) (s : prepare_summary) : Prop := {
  sum_nodes : forall n, n ∈ dom (committed_ballots_by_replica s) <-> n ∈ rs.*1;
  sum_size : size (committed_ballots_by_replica s) = length rs;
  sum_ballot : forall n acc com, (n, (acc, com)) ∈ rs -> committed_ballots_by_replica s !! n = Some (match com with Some d => ballot d | None => min_ballot end);
  sum_promised : promised s = true;
  sum_proposal : is_newest (accepted_in rs) (most_recent_proposal s);
  sum_commit : is_newest (commits_in rs) (ps_most_recent_commit s);
  sum_newest : forall p, p ∈ accepted_in rs -> ballot_timestamp (ballot p) <= ballot_timestamp (most_recent_promised_ballot s);
}.

Lemma empty_summarizes : summarizes [] empty_summary.
Proof using. split; try done; set_solver. Qed.

Lemma update_promised_ts (s : prepare_summary) b :
  ballot_timestamp (most_recent_promised_ballot (update_most_recent_promised_ballot s b)) = Z.max (ballot_timestamp (most_recent_promised_ballot s)) (ballot_timestamp b).
Proof using. unfold update_most_recent_promised_ballot. destruct (Z.ltb_spec (ballot_timestamp (most_recent_promised_ballot s)) (ballot_timestamp b)); cbn [most_recent_promised_ballot]; lia. Qed.

Lemma add_promise_summarizes rs (t : @prepare_tracker M D) n acc com data :
  summarizes rs (pt_summary t) -> n ∉ rs.*1 -> summarizes ((n, (acc, com)) :: rs) (pt_summary (add_promise digest_of t n acc com data)).
Proof using.
  intros H Hn. unfold add_promise. destruct (compare_digests digest_of t data) as [[matches digest] data']. cbn [pt_summary].
  assert (committed_ballots_by_replica (pt_summary t) !! n = None) as Hnone.
  { apply not_elem_of_dom. by rewrite (sum_nodes _ _ H). }
  rewrite Hnone. split; cbn [committed_ballots_by_replica promised most_recent_proposal ps_most_recent_commit most_recent_promised_ballot].
  - intros m. rewrite dom_insert, elem_of_union, elem_of_singleton, (sum_nodes _ _ H). cbn. by rewrite elem_of_cons.
  - rewrite map_size_insert_None by done. cbn [length]. by rewrite (sum_size _ _ H).
  - intros m a c [[= -> -> ->]|Hin]%elem_of_cons; [by rewrite lookup_insert_eq|].
    rewrite lookup_insert_ne; [by apply (sum_ballot _ _ H m a c)|]. intros ->. apply Hn. apply list_elem_of_fmap. by exists (m, (a, c)).
  - apply H.
  - destruct acc as [p|]; cbn; [|apply H]. apply (is_newest_cons (accepted_in rs) p), H.
  - destruct com as [d|]; cbn; [|apply H]. apply (is_newest_cons (commits_in rs) d), H.
  - intros p. destruct acc as [q|]; cbn; [|apply H]. rewrite update_promised_ts. intros [->|Hp]%elem_of_cons; [lia|]. pose proof (sum_newest _ _ H p Hp). lia.
Qed.
(** The promises among the answers, newest first. *)
Abbreviation answer := (Z * rpc_outcome (@prepare_response M D))%type.
Definition promise_in (e : answer) : option reply := match e with (n, rpc_reply (promise acc com _)) => Some (n, (acc, com)) | _ => None end.
Definition promises_in (seen : list answer) : list reply := omap promise_in seen.

Lemma promises_in_nodes n seen : n ∈ (promises_in seen).*1 -> n ∈ seen.*1.
Proof using.
  rewrite !list_elem_of_fmap. intros ([m ac] & -> & ([k o] & He & Hin)%list_elem_of_omap). exists (k, o). split; [|done]. cbn.
  destruct o as [[]| |]; by simplify_eq/=.
Qed.

Context (live required : nat).
Abbreviation handle := (handle_prepare_response digest_of live required).

Record prepare_tracks (seen : list answer) (t : @prepare_tracker M D) : Prop := {
  ptr_summary : summarizes (promises_in seen) (pt_summary t);
  ptr_short : (length (promises_in seen) < required)%nat;
  ptr_errors : pt_errors t = answered_with is_error seen;
  ptr_possible : (required + pt_errors t <= live)%nat;
  ptr_all : (length (promises_in seen) + answered_with is_error seen = length seen)%nat;
}.

(** What each result means. *)
Definition prepare_result_ok (seen : list answer) (r : waiting (@prepare_tracker M D) prepare_summary) : Prop :=
  match r with
  | wait_result s =>
    if promised s then summarizes (promises_in seen) s /\ length (promises_in seen) = required
    else exists n b, (n, rpc_reply (promise_rejected b)) ∈ seen /\ ballot_timestamp b <= ballot_timestamp (most_recent_promised_ballot s)
  | wait_exception mutation_write_timeout => answered_with is_timeout seen <> 0%nat
  | wait_exception mutation_write_failure => (live < required + answered_with is_error seen)%nat
  | wait_more _ => False
  end.

Lemma handle_prepare_spec seen t n o :
  prepare_tracks seen t -> n ∉ seen.*1 ->
  match handle t n o with
  | wait_more t' => prepare_tracks ((n, o) :: seen) t' /\ pt_peers t' = filter (fun m => m <> n) (pt_peers t) /\ (S (length seen) < live)%nat
  | r => prepare_result_ok ((n, o) :: seen) r
  end.
Proof using.
  intros H Hn. unfold handle_prepare_response. destruct o as [[b|acc com data]| |].
  - cbn [prepare_result_ok promised most_recent_promised_ballot pt_summary]. exists n, b. split; [set_solver|]. rewrite update_promised_ts. lia.
  - set (t0 := PrepareTracker _ _ _ _ _).
    assert (summarizes ((n, (acc, com)) :: promises_in seen) (pt_summary (add_promise digest_of t0 n acc com data))) as Hs.
    { apply add_promise_summarizes; [apply H|]. by intros ?%promises_in_nodes. }
    rewrite (sum_size _ _ Hs). cbn [length]. pose proof (ptr_short _ _ H). pose proof (ptr_possible _ _ H). pose proof (ptr_all _ _ H). pose proof (ptr_errors _ _ H).
    case_bool_decide; cbn [prepare_result_ok]; [by rewrite (sum_promised _ _ Hs)|].
    assert (pt_peers (add_promise digest_of t0 n acc com data) = pt_peers t0 /\ pt_errors (add_promise digest_of t0 n acc com data) = pt_errors t) as [Hp He].
    { unfold add_promise. by destruct (compare_digests digest_of t0 data) as [[? ?] ?]. }
    split; [|split; [done|lia]]. split; [done|cbn [promises_in omap list_omap promise_in length]..]; rewrite ?answered_cons, ?He; cbn [is_error]; try done;
      unfold promises_in in *; lia.
  - cbn [prepare_result_ok]. rewrite answered_cons. cbn. lia.
  - cbn [pt_errors]. pose proof (ptr_errors _ _ H). pose proof (ptr_all _ _ H). pose proof (ptr_short _ _ H).
    case_bool_decide; cbn [prepare_result_ok]; rewrite ?answered_cons; cbn [is_error]; [lia|].
    split; [|split; [done|lia]]. split; cbn [pt_summary pt_errors]; rewrite ?answered_cons; cbn [is_error promises_in omap list_omap promise_in length]; try apply H; unfold promises_in in *; try lia.
Qed.

Lemma collect_promises rest seen t :
  prepare_tracks seen t -> NoDup (rest.*1 ++ seen.*1) -> (length rest + length seen)%nat = live -> rest <> [] ->
  exists used, (forall e, e ∈ used -> e ∈ rest \/ e ∈ seen) /\ prepare_result_ok used (collect handle t rest).
Proof using.
  revert seen t. induction rest as [|[n o] rest IH]; intros seen t Ht Hnd Hlen Hne; [done|]. cbn [collect]. cbn in Hnd. apply NoDup_cons in Hnd as [Hn Hnd].
  pose proof (handle_prepare_spec seen t n o Ht ltac:(set_solver)) as H. destruct (handle t n o) as [t'|s|e].
  - destruct H as (Ht' & _ & Hl). cbn [length] in Hlen. destruct (IH ((n, o) :: seen) t' Ht') as (used & Hused & Hr).
    + cbn. by rewrite <- Permutation_middle, NoDup_cons.
    + cbn [length]. lia.
    + intros ->. cbn [length] in Hlen. lia.
    + exists used. split; [|done]. intros e He. specialize (Hused e He). set_solver.
  - exists ((n, o) :: seen). split; [set_solver|done].
  - exists ((n, o) :: seen). split; [set_solver|done].
Qed.

(** C14: When every live replica has answered a ballot, or failed to, [prepare_ballot] has its result. A
    summary that lets the coordinator go on sums up the required number of promises by different
    replicas: the newest proposal and the newest commit that they know, and what each of them
    committed last; one that does not has a ballot at least as new as that of a replica that refused. *)
Theorem prepare_ballot_correct (peers : list Z) (answers : list answer) :
  NoDup answers.*1 -> length answers = live -> (0 < required <= live)%nat ->
  exists used, (forall e, e ∈ used -> e ∈ answers) /\ prepare_result_ok used (collect handle (prepare_ballot peers) answers).
Proof using.
  intros Hnd Hlen Hreq. destruct (collect_promises answers [] (prepare_ballot peers)) as (used & Hused & Hr).
  - split; cbn; try lia. apply empty_summarizes.
  - by rewrite app_nil_r.
  - cbn. lia.
  - intros ->. cbn in Hlen. lia.
  - exists used. split; [|done]. intros e He. destruct (Hused e He); set_solver.
Qed.
End preparing.

Module TrackerExamples.
Definition two_of_three : list (Z * rpc_outcome bool) := [(1, rpc_reply true); (2, rpc_error); (3, rpc_reply true)].
Lemma accept_proposal_correct_witness :
  accept_result_ok 3 2 true two_of_three (collect (handle_accept_response 3 2 true) (accept_proposal [1; 2; 3]) two_of_three).
Proof. apply accept_proposal_correct; [reflexivity|lia]. Defined.

Definition two_promises : list (Z * rpc_outcome (@prepare_response Z Z)) :=
  [(1, rpc_reply (promise (Some (Proposal min_ballot 7)) None None)); (2, rpc_error); (3, rpc_reply (promise None None None))].
Lemma prepare_ballot_correct_witness :
  exists used, (forall e, e ∈ used -> e ∈ two_promises) /\
  prepare_result_ok 3 2 used (collect (handle_prepare_response id 3 2) (prepare_ballot [1; 2; 3]) two_promises).
Proof. apply prepare_ballot_correct; [|reflexivity|lia]. apply (bool_decide_unpack _). by vm_compute. Defined.
End TrackerExamples.
