(* ===== verification/PaxosRows.v ===== *)
(** The Paxos table of a replica: what its cells hold however the writes of promises, proposals,
    decisions and prunes are interleaved, and what loading it gives.
*)
From stdpp Require Import functions.
From S2P Require Import Prelude Bytes Ordering RangeTombstones RangeTombstonesTheory Cells CellsTheory Uuid Paxos PaxosTheory.

(** * Ballots *)

Abbreviation ts := ballot_timestamp (only parsing).
Abbreviation micros := ballot_micros (only parsing).

(** A ballot of [begin_and_repair_paxos]: a time UUID of a whole number of microseconds. *)
Definition ballot_ok (b : UUID) : Prop := is_timestamp b = true /\ ballot_timestamp b = ballot_micros b * 10 - START_EPOCH.

Lemma create_time_fits d msb : - 2 ^ 63 <= d < 2 ^ 63 -> create_time d = Ret msb -> 0 <= d < 2 ^ 60.
Proof.
  intros Hd H. unfold create_time in H. destruct (Z.eqb_spec (Z.land 0xf000000000000000 (u64 d)) 0) as [Hz|]; [|done].
  assert (0 <= u64 d < 2 ^ 64) as Hu by (apply Z.mod_pos_bound; lia).
  assert (Z.shiftr (Z.land 0xf000000000000000 (u64 d)) 60 = Z.shiftr (u64 d) 60) as Hs.
  { rewrite Z.shiftr_land. change (Z.shiftr 0xf000000000000000 60) with (Z.ones 4). rewrite Z.land_comm, Z.land_ones by lia.
    apply Z.mod_small. rewrite Z.shiftr_div_pow2 by lia. split; [apply Z.div_pos; lia|]. apply Z.div_lt_upper_bound; lia. }
  rewrite Hz, Z.shiftr_0_l, Z.shiftr_div_pow2 in Hs by lia. assert (u64 d < 2 ^ 60) by (symmetry in Hs; apply Z.div_small_iff in Hs; lia).
  unfold to_unsigned in *. destruct (decide (0 <= d)); [rewrite Z.mod_small in * by lia; lia|].
  assert (d mod 2 ^ 64 = d + 2 ^ 64) by (rewrite <- (Z.mod_small (d + 2 ^ 64) (2 ^ 64)) by lia; by rewrite Z.add_mod, Z_mod_same_full, Z.add_0_r, Z.mod_mod by lia). lia.
Qed.

Lemma random_ballot_ok random when_ b : get_random_time_UUID_from_micros random when_ = Ret b -> ballot_ok b.
Proof.
  intros H. assert (unix_time_fits (when_ * 10)) as Hfits.
  { unfold get_random_time_UUID_from_micros, from_unix_timestamp, duration in H. repeat case_bool_decide; try done. cbn [mbind outcome_bind] in H.
    case_bool_decide; [|done]. cbn [mbind outcome_bind] in H. destruct (create_time (when_ * 10 - START_EPOCH)) as [msb| |] eqn:Hc; try done. by apply create_time_fits in Hc. }
  destruct (random_time_UUID_spec random when_ Hfits) as (u & Hu & His & Ht & _ & Hm). rewrite H in Hu. injection Hu as <-.
  specialize (Hm unit). rewrite micros_timestamp_Ret in Hm by done. injection Hm as Hm.
  unfold ballot_ok, ballot_micros, ballot_timestamp. rewrite timestamp_bits_time, Hm. split; [done|]. lia.
Qed.

Lemma ballot_lt a b : ballot_ok a -> ballot_ok b -> ballot_timestamp a < ballot_timestamp b <-> ballot_micros a < ballot_micros b.
Proof. intros [_ ->] [_ ->]. lia. Qed.
Lemma ballot_le a b : ballot_ok a -> ballot_ok b -> ballot_timestamp a <= ballot_timestamp b <-> ballot_micros a <= ballot_micros b.
Proof. intros [_ ->] [_ ->]. lia. Qed.

(** * Quorums *)

Section quorums.
Context (all : list Z) (required : nat) (Hmajority : (length all < required + required)%nat).

Definition quorum (q : list Z) : Prop := NoDup q /\ q ⊆ all /\ length q = required.

Lemma quorums_meet q1 q2 : quorum q1 -> quorum q2 -> exists n, n ∈ q1 /\ n ∈ q2.
Proof using Hmajority.
  intros (Hn1 & Hs1 & Hl1) (Hn2 & Hs2 & Hl2). destruct (decide (Exists (fun n => n ∈ q2) q1)) as [H|H].
  - apply Exists_exists in H as (n & ? & ?). by exists n.
  - exfalso. assert (NoDup (q1 ++ q2)) as Hn.
    { apply NoDup_app. split; [done|]. split; [|done]. intros n Hn Hn'. apply H, Exists_exists. by exists n. }
    assert (q1 ++ q2 ⊆+ all) as Hsub%submseteq_length by (apply NoDup_submseteq; [done|]; intros n [?|?]%elem_of_app; auto).
    rewrite length_app in Hsub. lia.
Qed.
End quorums.

(** * The columns of the table *)

Section paxos.
Context {M D : Type} `{!EqDecision M, !EqDecision D}.
Context (empty_mutation : M) (digest_of : D -> Z) (paxos_grace_seconds : Z) (compare_unsigned : @paxos_value M -> @paxos_value M -> comparison).
Abbreviation proposal := (@proposal M).
Abbreviation message := (@message M D).
Abbreviation cell := (atomic_cell (@paxos_value M)).
Abbreviation paxos_row := (gmap Z cell).
Abbreviation apply_cell := (apply_cell compare_unsigned).
Abbreviation execute_cql := (execute_cql compare_unsigned).

Lemma apply_newer (a b : cell) : cell_timestamp a < cell_timestamp b -> apply_cell a b = b.
Proof using.
  intros H. unfold Cells.apply_cell, compare_atomic_cell_for_merge. assert ((cell_timestamp a =? cell_timestamp b) = false) as -> by lia. cbn [negb].
  apply Z.compare_lt_iff in H. by rewrite H.
Qed.
Lemma apply_older (a b : cell) : cell_timestamp b < cell_timestamp a -> apply_cell a b = a.
Proof using.
  intros H. unfold Cells.apply_cell, compare_atomic_cell_for_merge. assert ((cell_timestamp a =? cell_timestamp b) = false) as -> by lia. cbn [negb].
  apply Z.compare_gt_iff in H. by rewrite H.
Qed.
Lemma apply_cases (a b : cell) : apply_cell a b = a \/ apply_cell a b = b.
Proof using. unfold Cells.apply_cell. destruct (compare_atomic_cell_for_merge _ _ _); auto. Qed.
Lemma apply_dead_live t d v e : apply_cell (dead_cell t d) (live_cell t v e) = dead_cell t d.
Proof using. unfold Cells.apply_cell, compare_atomic_cell_for_merge. cbn [cell_timestamp]. by rewrite Z.eqb_refl. Qed.
Lemma apply_live_dead t d v e : apply_cell (live_cell t v e) (dead_cell t d) = dead_cell t d.
Proof using. unfold Cells.apply_cell, compare_atomic_cell_for_merge. cbn [cell_timestamp]. rewrite Z.eqb_refl. by destruct e as [[? ?]|]. Qed.
Lemma apply_same t v e e' : exists e'', apply_cell (live_cell t v e) (live_cell t v e') = live_cell t v e''.
Proof using. destruct (apply_cases (live_cell t v e) (live_cell t v e')) as [->| ->]; by eexists. Qed.
Lemma apply_timestamp_max (a b : cell) : cell_timestamp (apply_cell a b) = Z.max (cell_timestamp a) (cell_timestamp b).
Proof using.
  destruct (Z.lt_total (cell_timestamp a) (cell_timestamp b)) as [H|[H|H]]; [rewrite apply_newer by done; lia| |rewrite apply_older by done; lia].
  destruct (apply_cases a b) as [->| ->]; lia.
Qed.

(** A column that has a cell of a given time or a later one. *)
Definition at_least (c : option cell) (t : Z) : Prop := match c with Some c => t <= cell_timestamp c | None => False end.
Definition merged (c : option cell) (new : cell) : option cell := Some (match c with Some c => apply_cell c new | None => new end).

Lemma at_least_merged c new t : at_least c t -> at_least (merged c new) t.
Proof using. destruct c as [c|]; [|done]. cbn. rewrite apply_timestamp_max. lia. Qed.
Lemma at_least_new c new : at_least (merged c new) (cell_timestamp new).
Proof using. destruct c as [c|]; cbn; [|lia]. rewrite apply_timestamp_max. lia. Qed.
Lemma at_least_le c t t' : t' <= t -> at_least c t -> at_least c t'.
Proof using. destruct c; cbn; [lia|done]. Qed.

Lemma execute_lookup row t ttl now columns c :
  execute_cql row t ttl now columns !! c =
  match list_to_map (M := gmap Z (option paxos_value)) columns !! c with Some v => merged (row !! c) (written_cell t ttl now v) | None => row !! c end.
Proof using.
  unfold Paxos.execute_cql, row_apply. rewrite lookup_union_with, lookup_fmap.
  destruct (list_to_map columns !! c) as [v|], (row !! c) as [old|]; done.
Qed.

(** * What the row of a replica holds *)

Section row.
Context (S : list message).

Definition promise_ok (promise : option cell) : Prop :=
  forall c, promise = Some c -> exists b e, c = live_cell (ballot_micros b) (uuid_value b) e /\ prepare_request b ∈ S.

(** The proposal and its ballot are written together; one that was erased is not newer than the commit. *)
Definition proposal_ok (prop prop_ballot promise commit_at : option cell) : Prop :=
  match prop, prop_ballot with
  | None, None => True
  | Some (live_cell t v _), Some (live_cell t' v' _) =>
    t' = t /\ at_least promise t /\
    exists p, accept_request p ∈ S /\ t = ballot_micros (ballot p) /\ v = blob_value (update p) /\ v' = uuid_value (ballot p)
  | Some (dead_cell t _), Some (dead_cell t' _) => t' = t /\ at_least commit_at t
  | _, _ => False
  end.

(** So are a commit and its ballot; the commit may be pruned. *)
Definition commit_ok (commit commit_at : option cell) : Prop :=
  match commit_at with
  | None => match commit with Some (live_cell _ _ _) => False | _ => True end
  | Some (dead_cell _ _) => False
  | Some (live_cell t v _) =>
    exists d, learn_request d ∈ S /\ t = ballot_micros (ballot d) /\ v = uuid_value (ballot d) /\
    match commit with
    | None => False
    | Some (dead_cell t' _) => t <= t'
    | Some (live_cell t' v' _) => t' = t /\ exists d', learn_request d' ∈ S /\ ballot d' = ballot d /\ v' = blob_value (update d')
    end
  end.

Record row_ok (row : paxos_row) : Prop := {
  ro_promise : promise_ok (row !! promise_column);
  ro_proposal : proposal_ok (row !! proposal_column) (row !! proposal_ballot_column) (row !! promise_column) (row !! most_recent_commit_at_column);
  ro_commit : commit_ok (row !! most_recent_commit_column) (row !! most_recent_commit_at_column);
}.

Lemma promise_ok_merged promise b t ttl now :
  promise_ok promise -> prepare_request b ∈ S -> t = ballot_micros b -> promise_ok (merged promise (written_cell t ttl now (Some (uuid_value b)))).
Proof using.
  intros H Hb -> c. assert (exists e, written_cell (ballot_micros b) ttl now (Some (uuid_value b)) = live_cell (ballot_micros b) (uuid_value b) e) as [e ->] by (by eexists).
  destruct promise as [old|]; cbn; intros [= <-]; [|by exists b, e]. destruct (apply_cases old (live_cell (ballot_micros b) (uuid_value b) e)) as [->| ->]; [by apply H|by exists b, e].
Qed.

Lemma proposal_ok_mono prop pb promise commit_at promise' commit_at' :
  (forall t, at_least promise t -> at_least promise' t) -> (forall t, at_least commit_at t -> at_least commit_at' t) ->
  proposal_ok prop pb promise commit_at -> proposal_ok prop pb promise' commit_at'.
Proof using.
  intros H1 H2. unfold proposal_ok. destruct prop as [[]|], pb as [[]|]; try done; [intros (? & ? & ?)|intros [? ?]]; (split; [done|]); auto.
Qed.

(** Two proposals of the same time are the same. *)
Context (Hsame : forall p q, accept_request p ∈ S -> accept_request q ∈ S -> ballot_micros (ballot p) = ballot_micros (ballot q) -> p = q).
Context (Hsame' : forall d d', learn_request d ∈ S -> learn_request d' ∈ S -> ballot_micros (ballot d) = ballot_micros (ballot d') -> ballot d = ballot d').

Lemma save_proposal_ok prop pb promise commit_at p e now :
  proposal_ok prop pb promise commit_at -> accept_request p ∈ S ->
  proposal_ok (merged prop (live_cell (ballot_micros (ballot p)) (blob_value (update p)) e)) (merged pb (live_cell (ballot_micros (ballot p)) (uuid_value (ballot p)) e))
    (merged promise (live_cell (ballot_micros (ballot p)) now e)) commit_at.
Proof using Hsame.
  intros H Hp. set (t := ballot_micros (ballot p)). set (promise' := merged promise _).
  assert (at_least promise' t) as Hnew by (apply (at_least_new promise)).
  assert (forall t, at_least promise t -> at_least promise' t) as Hold by (intros; by apply at_least_merged).
  destruct prop as [[t0 v0 e0|t0 d0]|], pb as [[t1 v1 e1|t1 d1]|]; try done; unfold merged.
  - destruct H as (-> & Hpr & q & Hq & Ht & -> & ->). destruct (Z.lt_total t0 t) as [Hlt|[Heq|Hlt]].
    + rewrite !apply_newer by done. cbn. split; [done|]. split; [done|]. by exists p.
    + assert (q = p) as -> by (apply Hsame; [done|done|unfold t in *; congruence]). rewrite Heq.
      destruct (apply_same t (blob_value (update p)) e0 e) as [e2 ->], (apply_same t (uuid_value (ballot p)) e1 e) as [e3 ->]. cbn. split; [done|]. split; [done|]. by exists p.
    + rewrite !apply_older by done. cbn. split; [done|]. split; [by apply Hold|]. by exists q.
  - destruct H as [-> Hc]. destruct (Z.lt_total t0 t) as [Hlt|[Heq|Hlt]].
    + rewrite !apply_newer by done. cbn. split; [done|]. split; [done|]. by exists p.
    + rewrite Heq in *. rewrite !apply_dead_live. done.
    + by rewrite !apply_older.
  - cbn. split; [done|]. split; [done|]. by exists p.
Qed.

Lemma save_decision_proposal_ok prop pb promise commit_at t now commit_at' :
  proposal_ok prop pb promise commit_at -> (forall t, at_least commit_at t -> at_least commit_at' t) -> at_least commit_at' t ->
  proposal_ok (merged prop (dead_cell t now)) (merged pb (dead_cell t now)) promise commit_at'.
Proof using.
  intros H Hold Hnew. destruct prop as [[t0 v0 e0|t0 d0]|], pb as [[t1 v1 e1|t1 d1]|]; try done; unfold merged; destruct H as [-> H] || idtac.
  - destruct (Z.lt_total t0 t) as [Hlt|[Heq|Hlt]].
    + by rewrite !apply_newer.
    + subst t0. by rewrite !apply_live_dead.
    + by rewrite !apply_older.
  - specialize (Hold _ H). destruct (Z.lt_total t0 t) as [Hlt|[Heq|Hlt]].
    + by rewrite !apply_newer.
    + subst t0. destruct (apply_cases (dead_cell t d0) (dead_cell t now)) as [->| ->], (apply_cases (dead_cell t d1) (dead_cell t now)) as [->| ->]; done.
    + by rewrite !apply_older.
Qed.

Lemma save_commit_ok commit commit_at d e :
  commit_ok commit commit_at -> learn_request d ∈ S ->
  commit_ok (merged commit (live_cell (ballot_micros (ballot d)) (blob_value (update d)) e)) (merged commit_at (live_cell (ballot_micros (ballot d)) (uuid_value (ballot d)) e)).
Proof using Hsame'.
  intros H Hd. set (t := ballot_micros (ballot d)). destruct commit_at as [[t0 v0 e0|]|]; [|done|].
  - destruct H as (d0 & Hd0 & -> & -> & Hc). set (t0 := ballot_micros (ballot d0)) in *. unfold merged.
    destruct commit as [[t1 v1 e1|t1 x1]|]; [| |done].
    + destruct Hc as (-> & d1 & Hd1 & Hb & ->). destruct (Z.lt_total t0 t) as [Hlt|[Heq|Hlt]].
      * rewrite !apply_newer by done. exists d. repeat split; try done. by exists d.
      * assert (ballot d0 = ballot d) as Hb0 by (by apply Hsame'). unfold t0 in *. rewrite Heq, Hb0 in *.
        destruct (apply_cases (live_cell t (blob_value (update d1)) e1) (live_cell t (blob_value (update d)) e)) as [->| ->],
          (apply_same t (uuid_value (ballot d)) e0 e) as [e2 ->]; exists d; repeat split; try done; (by exists d1) || by exists d.
      * rewrite !apply_older by done. exists d0. repeat split; try done. by exists d1.
    + destruct (Z.lt_total t0 t) as [Hlt|[Heq|Hlt]].
      * rewrite (apply_newer (live_cell t0 _ _)) by done. exists d. repeat split; try done.
        destruct (Z.lt_total t1 t) as [Hlt1|[Heq1|Hlt1]]; [rewrite apply_newer by done; split; [done|]; by exists d|rewrite Heq1, apply_dead_live; lia|rewrite apply_older by done; lia].
      * assert (ballot d0 = ballot d) as Hb0 by (by apply Hsame'). unfold t0 in *. rewrite Heq, Hb0 in *.
        assert (match apply_cell (dead_cell t1 x1) (live_cell t (blob_value (update d)) e) with dead_cell t' _ => t <= t' | live_cell _ _ _ => False end) as Hdead.
        { destruct (decide (t1 = t)) as [->|]; [by rewrite apply_dead_live|]. rewrite apply_older; [done|]. cbn. lia. }
        destruct (apply_cell (dead_cell t1 x1) _) as [|t2 x2]; [done|].
        destruct (apply_same t (uuid_value (ballot d)) e0 e) as [e2 ->]. by exists d.
      * rewrite !apply_older by (cbn; lia). by exists d0.
  - unfold merged. exists d. repeat split; try done. destruct commit as [[|t1 x1]|]; [done| |split; [done|]; by exists d].
    destruct (Z.lt_total t1 t) as [Hlt1|[Heq1|Hlt1]]; [rewrite apply_newer by done; split; [done|]; by exists d|rewrite Heq1, apply_dead_live; lia|rewrite apply_older by done; lia].
Qed.

Lemma prune_commit_ok commit commit_at t now : commit_ok commit commit_at -> commit_ok (merged commit (dead_cell t now)) commit_at.
Proof using.
  unfold commit_ok, merged. destruct commit_at as [[t0 v0 e0|]|]; [|done|].
  - intros (d & Hd & -> & -> & Hc). exists d. repeat split; try done. destruct commit as [[t1 v1 e1|t1 x1]|]; [| |done].
    + destruct Hc as (-> & d1 & Hd1 & Hb & ->). destruct (Z.lt_total (ballot_micros (ballot d)) t) as [Hlt|[<-|Hlt]];
        [rewrite apply_newer by done; lia|rewrite apply_live_dead; lia|rewrite apply_older by done; split; [done|]; by exists d1].
    + pose proof (apply_timestamp_max (dead_cell t1 x1) (dead_cell t now)) as Hmax. cbn [cell_timestamp] in Hmax.
      destruct (apply_cases (dead_cell t1 x1) (dead_cell t now)) as [H|H]; rewrite H in *; cbn [cell_timestamp] in Hmax; lia.
  - intros H. destruct commit as [[|t1 x1]|]; [done| |done]. by destruct (apply_cases (dead_cell t1 x1) (dead_cell t now)) as [->| ->].
Qed.
End row.

(** * Saving and loading *)

Abbreviation save_paxos_promise := (save_paxos_promise paxos_grace_seconds compare_unsigned).
Abbreviation save_paxos_proposal := (save_paxos_proposal paxos_grace_seconds compare_unsigned).
Abbreviation save_paxos_decision := (save_paxos_decision paxos_grace_seconds compare_unsigned).
Abbreviation delete_paxos_decision := (delete_paxos_decision compare_unsigned).
Abbreviation load_paxos_state := (load_paxos_state empty_mutation).

(** The cells of a statement that are concerned. *)
Ltac columns :=
  rewrite ?execute_lookup; cbn [list_to_map foldr fst snd uncurry];
  repeat (rewrite lookup_insert_eq || rewrite lookup_insert_ne by done || rewrite lookup_empty).

(** What holds of a row that has more than another. *)
Definition row_grows (row row' : paxos_row) : Prop :=
  (forall t, at_least (row !! promise_column) t -> at_least (row' !! promise_column) t) /\
  (forall t, at_least (row !! proposal_column) t -> at_least (row' !! proposal_column) t).

Lemma save_promise_spec S row b now :
  row_ok S row -> prepare_request b ∈ S ->
  let row' := save_paxos_promise row b now in row_ok S row' /\ row_grows row row' /\ at_least (row' !! promise_column) (ballot_micros b).
Proof using.
  intros [H1 H2 H3] Hb row'. unfold row', row_grows, Paxos.save_paxos_promise. columns.
  assert (forall c t, at_least c t -> at_least (merged c (written_cell (ballot_micros b) paxos_grace_seconds now (Some (uuid_value b)))) t) by (intros; by apply at_least_merged).
  split; [|split; [split; auto|apply (at_least_new (row !! promise_column))]]. split; columns; [by apply promise_ok_merged| |done].
  eapply proposal_ok_mono; [..|done]; auto.
Qed.

Lemma save_proposal_spec S row p now :
  (forall p q, accept_request p ∈ S -> accept_request q ∈ S -> ballot_micros (ballot p) = ballot_micros (ballot q) -> p = q) ->
  row_ok S row -> accept_request p ∈ S -> prepare_request (ballot p) ∈ S ->
  let row' := save_paxos_proposal row p now in
  row_ok S row' /\ row_grows row row' /\ at_least (row' !! promise_column) (ballot_micros (ballot p)) /\ at_least (row' !! proposal_column) (ballot_micros (ballot p)).
Proof using.
  intros Hsame [H1 H2 H3] Hp Hb row'. unfold row', row_grows, Paxos.save_paxos_proposal. columns.
  assert (forall c v t, at_least c t -> at_least (merged c (written_cell (ballot_micros (ballot p)) paxos_grace_seconds now v)) t) by (intros; by apply at_least_merged).
  split; [|split; [split; auto|split; [apply (at_least_new (row !! promise_column))|apply (at_least_new (row !! proposal_column))]]].
  split; columns; [by apply promise_ok_merged| |done]. by apply save_proposal_ok.
Qed.

Lemma save_decision_spec S row d now :
  (forall d d', learn_request d ∈ S -> learn_request d' ∈ S -> ballot_micros (ballot d) = ballot_micros (ballot d') -> ballot d = ballot d') ->
  row_ok S row -> learn_request d ∈ S ->
  let row' := save_paxos_decision row d now in row_ok S row' /\ row_grows row row' /\ row' !! promise_column = row !! promise_column.
Proof using.
  intros Hsame [H1 H2 H3] Hd row'. unfold row', row_grows, Paxos.save_paxos_decision. columns.
  assert (forall c v t, at_least c t -> at_least (merged c (written_cell (ballot_micros (ballot d)) paxos_grace_seconds now v)) t) by (intros; by apply at_least_merged).
  split; [|split; [split; auto|done]]. split; columns; [done| |by apply save_commit_ok].
  eapply save_decision_proposal_ok; [done|auto|apply (at_least_new (row !! most_recent_commit_at_column))].
Qed.

Lemma prune_spec S row b now :
  row_ok S row -> let row' := delete_paxos_decision row b now in row_ok S row' /\ row_grows row row' /\ row' !! promise_column = row !! promise_column.
Proof using.
  intros [H1 H2 H3] row'. unfold row', row_grows, Paxos.delete_paxos_decision. columns. split; [|done]. split; columns; [done|done|by apply prune_commit_ok].
Qed.

(** Nothing of the state is past its time. *)
Definition nothing_expired (row : paxos_row) (now : Z) : Prop := forall column c, row !! column = Some c -> has_expired c now = false.

Lemma micros_not_missing b : (ballot_micros b <=? missing_timestamp) = false.
Proof using.
  unfold ballot_micros, ballot_timestamp. rewrite timestamp_bits_time. pose proof (time_of_range b) as Hr. apply Z.leb_gt.
  assert (- 2 ^ 60 <= Z.quot (time_of b + START_EPOCH) 10); [|unfold missing_timestamp; lia].
  replace (- 2 ^ 60) with (Z.quot (- 2 ^ 60 * 10) 10) by (by rewrite Z.quot_mul). apply Z.quot_le_mono; unfold START_EPOCH; lia.
Qed.

Lemma column_live (row : paxos_row) now column b v e :
  nothing_expired row now -> row !! column = Some (live_cell (ballot_micros b) v e) -> column_value row now column = Some v.
Proof using.
  intros Hexp Hc. unfold column_value. rewrite Hc. unfold cell_is_live_at, is_covered_by. cbn [cell_is_live cell_timestamp no_tombstone timestamp].
  by rewrite micros_not_missing, (Hexp _ _ Hc).
Qed.

(** A proposal or a commit that is at least as new as a time. *)
Definition knows (acc com : option proposal) (t : Z) : Prop :=
  (exists a, acc = Some a /\ t <= ballot_micros (ballot a)) \/ (exists c, com = Some c /\ t <= ballot_micros (ballot c)).

Record state_ok (S : list message) (row : paxos_row) (st : @paxos_state M) : Prop := {
  so_promised : row !! promise_column = None \/
    exists e, row !! promise_column = Some (live_cell (ballot_micros (promised_ballot st)) (uuid_value (promised_ballot st)) e) /\ prepare_request (promised_ballot st) ∈ S;
  so_accepted : forall a, accepted_proposal st = Some a -> accept_request a ∈ S /\ at_least (row !! promise_column) (ballot_micros (ballot a));
  so_commit : forall c, most_recent_commit st = Some c ->
    exists d, learn_request d ∈ S /\ ballot d = ballot c /\ (update c = update d \/ update c = empty_mutation);
  so_knows : forall t, at_least (row !! proposal_column) t -> knows (accepted_proposal st) (most_recent_commit st) t;
}.

Lemma load_spec S row now : row_ok S row -> nothing_expired row now -> exists st, load_paxos_state row now = Ret st /\ state_ok S row st.
Proof using.
  intros [H1 H2 H3] Hexp. unfold Paxos.load_paxos_state.
  set (promised := default min_ballot (column_uuid row now promise_column)).
  assert (row !! promise_column = None \/ exists e, row !! promise_column = Some (live_cell (ballot_micros promised) (uuid_value promised) e) /\ prepare_request promised ∈ S) as Hpr.
  { destruct (row !! promise_column) as [c|] eqn:Hc; [|by left]. right. destruct (H1 c eq_refl) as (b & e & -> & Hb).
    unfold promised, column_uuid. rewrite (column_live _ _ _ _ _ _ Hexp Hc). by exists e. }
  set (com := (fun b => Proposal b _) <$> column_uuid row now most_recent_commit_at_column).
  assert ((forall c, com = Some c -> exists d, learn_request d ∈ S /\ ballot d = ballot c /\ (update c = update d \/ update c = empty_mutation)) /\
    (forall t, at_least (row !! most_recent_commit_at_column) t -> exists c, com = Some c /\ t <= ballot_micros (ballot c))) as [Hcom Hcom'].
  { unfold com, column_uuid, column_blob. destruct (row !! most_recent_commit_at_column) as [[t v e|]|] eqn:Hc; [|done|].
    - destruct H3 as (d & Hd & -> & -> & Hm). rewrite (column_live _ _ _ _ _ _ Hexp Hc). cbn. split; [|intros t ?; by eexists].
      intros c [= <-]. cbn. destruct (row !! most_recent_commit_column) as [[t' v' e'|t' x']|] eqn:Hm'; [| |done].
      + destruct Hm as (-> & d' & Hd' & Hb & ->). rewrite (column_live _ _ _ _ _ _ Hexp Hm'). exists d'. auto.
      + exists d. unfold column_value. rewrite Hm'. auto.
    - split; [|done]. intros c Hx. unfold column_value in Hx. by rewrite Hc in Hx. }
  clearbody promised com. unfold proposal_ok in H2. destruct (row !! proposal_column) as [[t v e|t x]|] eqn:Hp, (row !! proposal_ballot_column) as [[t' v' e'|t' x']|] eqn:Hb; try done.
  - destruct H2 as (-> & Hle & p & Hpm & -> & -> & ->). unfold column_blob, column_uuid. rewrite (column_live _ _ _ _ _ _ Hexp Hp), (column_live _ _ _ _ _ _ Hexp Hb). cbn.
    eexists. split; [done|]. split; cbn; [done| |done|].
    + intros a [= <-]. by destruct p.
    + intros t Ht. rewrite Hp in Ht. left. eexists. split; [done|]. done.
  - destruct H2 as [-> Hle]. unfold column_blob, column_value. rewrite Hp. cbn. eexists. split; [done|]. split; cbn; [done|done|done|].
    intros t0 Ht. rewrite Hp in Ht. cbn in Ht. right. destruct (Hcom' t Hle) as (c & -> & ?). exists c. split; [done|]. lia.
  - unfold column_blob, column_value. rewrite Hp. cbn. eexists. split; [done|]. split; cbn; [done|done|done|]. intros t Ht. by rewrite Hp in Ht.
Qed.
End paxos.
