(* ===== verification/PaxosSafety.v ===== *)
(** Lightweight transactions are safe: the invariant of a run of replicas and coordinators, and what
    follows from it about the values that are proposed, learned and applied. *)
From stdpp Require Import functions.
From S2P Require Import Prelude Bytes Ordering RangeTombstones Cells Uuid Paxos PaxosTheory PaxosRows.

Section safety.
Context {M D : Type} `{!EqDecision M, !EqDecision D}.
Context (empty_mutation : M) (digest_of : D -> Z) (paxos_grace_seconds : Z) (compare_unsigned : @paxos_value M -> @paxos_value M -> comparison).
Abbreviation proposal := (@proposal M).
Abbreviation message := (@message M D).
Abbreviation replica := (@replica M).
Abbreviation replica_step := (replica_step empty_mutation paxos_grace_seconds compare_unsigned).
Abbreviation row_grows := (@row_grows M).

(** * The invariant of a replica *)

(** What is said of the state that a replica loaded for a promise, and of a promise. *)
Record promise_sound (S : list message) (b : UUID) (acc com : option proposal) : Prop := {
  ps_accepted : forall a, acc = Some a -> accept_request a ∈ S /\ ballot_timestamp (ballot a) < ballot_timestamp b;
  ps_commit : forall c, com = Some c -> exists d, learn_request d ∈ S /\ ballot d = ballot c /\ (update c = update d \/ update c = empty_mutation);
}.

Definition lock_ok (S : list message) (n : Z) (r : replica) : Prop :=
  match r_lock r with
  | None => True
  | Some (preparing b st) =>
    prepare_request b ∈ S /\ (forall c, r_row r !! promise_column = Some c -> cell_timestamp c < ballot_micros b) /\
    promise_sound S b (accepted_proposal st) (most_recent_commit st) /\
    (forall p, accept_reply n p true ∈ S -> knows (accepted_proposal st) (most_recent_commit st) (ballot_micros (ballot p)))
  | Some (accepting p) =>
    accept_request p ∈ S /\ (forall c, r_row r !! promise_column = Some c -> cell_timestamp c <= ballot_micros (ballot p))
  end.

Record replica_ok (S : list message) (n : Z) (r : replica) : Prop := {
  rk_row : row_ok S (r_row r);
  rk_promised : forall b acc com data, prepare_reply n b (promise acc com data) ∈ S -> at_least (r_row r !! promise_column) (ballot_micros b);
  rk_accepted : forall p, accept_reply n p true ∈ S ->
    accept_request p ∈ S /\ at_least (r_row r !! proposal_column) (ballot_micros (ballot p));
  rk_replies : forall b acc com data p, prepare_reply n b (promise acc com data) ∈ S -> accept_reply n p true ∈ S ->
    ballot_micros (ballot p) < ballot_micros b -> knows acc com (ballot_micros (ballot p));
  rk_unique : forall b acc com data b' acc' com' data',
    prepare_reply n b (promise acc com data) ∈ S -> prepare_reply n b' (promise acc' com' data') ∈ S -> ballot_micros b = ballot_micros b' -> b = b';
  rk_lock : lock_ok S n r;
  rk_learning : forall d, d ∈ r_learning r -> learn_request d ∈ S;
  rk_table : forall m, m ∈ r_table r -> exists d, learn_request d ∈ S /\ update d = m;
}.

(** What a replica has sent itself. *)
Definition from_replica (n : Z) (m : message) : Prop :=
  match m with prepare_reply n' _ _ | accept_reply n' _ _ | learn_reply n' _ => n' = n | _ => False end.

Lemma row_ok_mono S S' row : S ⊆ S' -> row_ok S row -> row_ok (M := M) (D := D) S' row.
Proof using.
  intros HS [H1 H2 H3]. split.
  - intros c Hc. destruct (H1 c Hc) as (b & e & -> & Hb). exists b, e. auto.
  - unfold proposal_ok in *. destruct (row !! proposal_column) as [[]|], (row !! proposal_ballot_column) as [[]|]; try done.
    destruct H2 as (? & ? & p & ? & ?). split; [done|]. split; [done|]. exists p. auto.
  - unfold commit_ok in *. destruct (row !! most_recent_commit_at_column) as [[]|]; try done. destruct H3 as (d & ? & ? & ? & H3). exists d. repeat split; auto.
    destruct (row !! most_recent_commit_column) as [[]|]; try done. destruct H3 as (? & d' & ? & ?). split; [done|]. exists d'. auto.
Qed.

Lemma promise_sound_mono S S' b acc com : S ⊆ S' -> promise_sound S b acc com -> promise_sound S' b acc com.
Proof using.
  intros HS [H1 H2]. split; [intros a Ha; destruct (H1 a Ha); auto|]. intros c Hc. destruct (H2 c Hc) as (d & ? & ?). exists d. auto.
Qed.

(** Messages of others change nothing. *)
Lemma replica_ok_mono ms S n r : (forall m, m ∈ ms -> ~ from_replica n m) -> replica_ok S n r -> replica_ok (ms ++ S) n r.
Proof using.
  intros Hms H. assert (S ⊆ ms ++ S) as HS by set_solver.
  assert (forall m, from_replica n m -> m ∈ ms ++ S -> m ∈ S) as Hown.
  { intros m Hm [Hin|Hin]%elem_of_app; [|done]. by destruct (Hms m Hin). }
  split.
  - eapply row_ok_mono; [done|apply H].
  - intros b acc com data Hin%Hown; [|done]. by apply (rk_promised _ _ _ H) in Hin.
  - intros p Hin%Hown; [|done]. apply (rk_accepted _ _ _ H) in Hin as [? ?]. auto.
  - intros b acc com data p H1%Hown H2%Hown; [|done|done]. by apply (rk_replies _ _ _ H b acc com data p).
  - intros b acc com data b' acc' com' data' H1%Hown H2%Hown; [|done|done]. by eapply (rk_unique _ _ _ H).
  - pose proof (rk_lock _ _ _ H) as Hl. unfold lock_ok in *. destruct (r_lock r) as [[b st|p]|]; [|destruct Hl; auto|done].
    destruct Hl as (? & ? & Hs & Hk). split; [auto|]. split; [done|]. split; [by eapply promise_sound_mono|]. intros p Hin%Hown; [|done]. auto.
  - intros d Hd. apply HS. by apply (rk_learning _ _ _ H).
  - intros m Hm. destruct (rk_table _ _ _ H m Hm) as (d & ? & ?). exists d. auto.
Qed.

(** Nor do messages of its own that promise and accept nothing. *)
Lemma replica_ok_reply m S n r :
  match m with prepare_reply _ _ (promise _ _ _) | accept_reply _ _ true => False | _ => True end -> replica_ok S n r -> replica_ok (m :: S) n r.
Proof using.
  intros Hm H. assert (S ⊆ m :: S) as HS by set_solver. split.
  - eapply row_ok_mono; [done|apply H].
  - intros b acc com data [?|Hin]%elem_of_cons; [by subst m|]. by apply (rk_promised _ _ _ H) in Hin.
  - intros p [?|Hin]%elem_of_cons; [by subst m|]. apply (rk_accepted _ _ _ H) in Hin as [? ?]. auto.
  - intros b acc com data p [?|H1]%elem_of_cons [?|H2]%elem_of_cons; try by subst m. by apply (rk_replies _ _ _ H b acc com data p).
  - intros b acc com data b' acc' com' data' [?|H1]%elem_of_cons [?|H2]%elem_of_cons; try by subst m. by eapply (rk_unique _ _ _ H).
  - pose proof (rk_lock _ _ _ H) as Hl. unfold lock_ok in *. destruct (r_lock r) as [[b st|p]|]; [|destruct Hl; auto|done].
    destruct Hl as (? & ? & Hs & Hk). split; [auto|]. split; [done|]. split; [by eapply promise_sound_mono|]. intros p [?|Hin]%elem_of_cons; [by subst m|]. auto.
  - intros d Hd. apply HS. by apply (rk_learning _ _ _ H).
  - intros x Hx. destruct (rk_table _ _ _ H x Hx) as (d & ? & ?). exists d. auto.
Qed.

(** A step that sends nothing: a row that grows, and a lock, decisions and a table that are sound. *)
Lemma replica_ok_quiet S n r r' :
  replica_ok S n r -> row_ok S (r_row r') -> row_grows (r_row r) (r_row r') -> lock_ok S n r' ->
  (forall d, d ∈ r_learning r' -> learn_request d ∈ S) -> (forall m, m ∈ r_table r' -> exists d, learn_request d ∈ S /\ update d = m) -> replica_ok S n r'.
Proof using.
  intros H Hrow [Hg1 Hg2] Hl Hd Ht. split; try done; try apply H.
  - intros b acc com data Hin. apply Hg1. by eapply (rk_promised _ _ _ H).
  - intros p Hin. destruct (rk_accepted _ _ _ H p Hin). auto.
Qed.

Lemma lock_same_row S n r r' : r_lock r' = r_lock r -> r_row r' !! promise_column = r_row r !! promise_column -> lock_ok S n r -> lock_ok S n r'.
Proof using. intros Hl Hr. unfold lock_ok. by rewrite Hl, Hr. Qed.

(** * The steps of a replica *)

(** What is known of everything that was sent. *)
Record sent_facts (S : list message) : Prop := {
  sf_ballots : forall b, prepare_request b ∈ S -> ballot_ok b;
  sf_prepared : forall p, accept_request p ∈ S -> prepare_request (ballot p) ∈ S;
  sf_learned : forall d, learn_request d ∈ S -> prepare_request (ballot d) ∈ S;
  sf_same : forall p q, accept_request p ∈ S -> accept_request q ∈ S -> ballot_micros (ballot p) = ballot_micros (ballot q) -> p = q;
  sf_same_decision : forall d d', learn_request d ∈ S -> learn_request d' ∈ S -> ballot_micros (ballot d) = ballot_micros (ballot d') -> ballot d = ballot d';
}.

Definition reply_sound (S : list message) (m : message) : Prop :=
  match m with prepare_reply _ b (promise acc com _) => promise_sound S b acc com | _ => True end.

(** What a replica sent, and what is received was sent and is not too late. *)
Definition received (S : list message) (r : replica) (e : @replica_event M D) : Prop :=
  match e with
  | receive_prepare b now => prepare_request b ∈ S /\ nothing_expired (r_row r) now
  | receive_accept p now => accept_request p ∈ S /\ nothing_expired (r_row r) now
  | receive_learn d => learn_request d ∈ S
  | _ => True
  end.

Section replica_step.
Context (S : list message) (HS : sent_facts S) (n : Z).

Lemma load_below row st b :
  state_ok empty_mutation S row st -> ballot_ok b -> ballot_timestamp (promised_ballot st) < ballot_timestamp b ->
  forall c, row !! promise_column = Some c -> cell_timestamp c < ballot_micros b.
Proof using HS.
  intros H Hb Hlt c Hc. destruct (so_promised _ _ _ _ H) as [Hn|(e & He & Hp)]; [by rewrite Hn in Hc|]. rewrite He in Hc. injection Hc as <-. cbn.
  apply ballot_lt; [by apply (sf_ballots S HS)|done|done].
Qed.

Lemma receive_prepare_ok r b now :
  replica_ok S n r -> r_lock r = None -> received S r (receive_prepare (D := D) b now) ->
  exists r' o, prepare_start (D := D) empty_mutation r b now = Ret (r', o) /\ replica_ok S n r' /\ (forall a, o = Some a -> exists b', a = promise_rejected b').
Proof using HS.
  intros H Hnone [Hb Hexp]. destruct (load_spec empty_mutation S (r_row r) now (rk_row _ _ _ H) Hexp) as (st & Hload & Hst).
  unfold prepare_start. rewrite Hload. cbn [mbind outcome_bind]. destruct (Z.ltb_spec (ballot_timestamp (promised_ballot st)) (ballot_timestamp b)) as [Hlt|Hge].
  - eexists _, _. split; [done|]. split; [|done]. pose proof (sf_ballots S HS b Hb) as Hbok.
    apply (replica_ok_quiet _ _ r); [done|apply H|done| |apply H|apply H]. unfold lock_ok. cbn. split; [done|].
    pose proof (load_below _ _ _ Hst Hbok Hlt) as Hbelow. split; [done|]. split; [split; [|apply Hst]|].
    + intros a Ha. destruct (so_accepted _ _ _ _ Hst a Ha) as [Har Hal]. split; [done|].
      destruct (r_row r !! promise_column) as [c|] eqn:Hc; [|done]. specialize (Hbelow c eq_refl). cbn in Hal.
      apply ballot_lt; [by apply (sf_ballots S HS), (sf_prepared S HS)|done|lia].
    + intros p Hp. apply (so_knows _ _ _ _ Hst). by apply (rk_accepted _ _ _ H).
  - eexists _, _. split; [done|]. split; [done|]. intros a [= <-]. by eexists.
Qed.

Lemma receive_accept_ok r p now :
  replica_ok S n r -> r_lock r = None -> received S r (receive_accept (D := D) p now) ->
  exists r' o, accept_start empty_mutation r p now = Ret (r', o) /\ replica_ok S n r' /\ (forall a, o = Some a -> a = false).
Proof using HS.
  intros H Hnone [Hp Hexp]. destruct (load_spec empty_mutation S (r_row r) now (rk_row _ _ _ H) Hexp) as (st & Hload & Hst).
  unfold accept_start. rewrite Hload. cbn [mbind outcome_bind]. destruct (_ || _) eqn:Hor.
  - eexists _, _. split; [done|]. split; [|done]. apply (replica_ok_quiet _ _ r); [done|apply H|done| |apply H|apply H]. unfold lock_ok. cbn. split; [done|].
    intros c Hc. apply orb_true_iff in Hor as [Heq%bool_decide_eq_true|Hlt%Z.ltb_lt].
    + destruct (so_promised _ _ _ _ Hst) as [Hn|(e & He & _)]; [by rewrite Hn in Hc|]. rewrite He in Hc. injection Hc as <-. cbn. rewrite Heq. lia.
    + pose proof (load_below _ _ (ballot p) Hst (sf_ballots S HS _ (sf_prepared S HS p Hp)) Hlt c Hc). lia.
  - eexists _, _. split; [done|]. split; [done|]. by intros a [= <-].
Qed.

(** Saving a promise or a proposal, with or without telling anybody. *)
Lemma save_promise_quiet r b st now :
  replica_ok S n r -> r_lock r = Some (preparing b st) ->
  replica_ok S n (r_set_lock None (r_set_row (save_paxos_promise paxos_grace_seconds compare_unsigned (r_row r) b now) r)).
Proof using HS.
  intros H Hlock. pose proof (rk_lock _ _ _ H) as Hl. unfold lock_ok in Hl. rewrite Hlock in Hl. destruct Hl as (Hb & _).
  destruct (save_promise_spec paxos_grace_seconds compare_unsigned S (r_row r) b now (rk_row _ _ _ H) Hb) as (Hok & Hg & _).
  apply (replica_ok_quiet _ _ r); [done|done|done|done|apply H|apply H].
Qed.

Lemma save_proposal_quiet r p now :
  replica_ok S n r -> r_lock r = Some (accepting p) ->
  replica_ok S n (r_set_lock None (r_set_row (save_paxos_proposal paxos_grace_seconds compare_unsigned (r_row r) p now) r)).
Proof using HS.
  intros H Hlock. pose proof (rk_lock _ _ _ H) as Hl. unfold lock_ok in Hl. rewrite Hlock in Hl. destruct Hl as (Hp & _).
  destruct (save_proposal_spec paxos_grace_seconds compare_unsigned S (r_row r) p now (sf_same S HS) (rk_row _ _ _ H) Hp (sf_prepared S HS p Hp)) as (Hok & Hg & _).
  apply (replica_ok_quiet _ _ r); [done|done|done|done|apply H|apply H].
Qed.

Lemma saved_promise_ok r b st data now :
  replica_ok S n r -> r_lock r = Some (preparing b st) ->
  let '(r', a) := prepare_finish paxos_grace_seconds compare_unsigned r b st data now in
  replica_ok (prepare_reply n b a :: S) n r' /\ reply_sound S (prepare_reply n b a).
Proof using HS.
  intros H Hlock. pose proof (rk_lock _ _ _ H) as Hl. unfold lock_ok in Hl. rewrite Hlock in Hl. destruct Hl as (Hb & Hbelow & Hsound & Hknows).
  destruct (save_promise_spec paxos_grace_seconds compare_unsigned S (r_row r) b now (rk_row _ _ _ H) Hb) as (_ & _ & Hnew).
  pose proof (save_promise_quiet r b st now H Hlock) as H'. cbn [prepare_finish]. split; [|done].
  set (r' := r_set_lock _ _) in *. set (m := prepare_reply n b _).
  assert (S ⊆ m :: S) as Hsub by set_solver. split; try apply H'.
  - eapply row_ok_mono; [done|apply H'].
  - intros b' acc com data' [[= -> -> -> ->]|Hin]%elem_of_cons; [done|]. by eapply (rk_promised _ _ _ H').
  - intros p [[=]|Hin]%elem_of_cons. destruct (rk_accepted _ _ _ H' p Hin). auto.
  - intros b' acc com data' p [[= -> -> -> ->]|Hin]%elem_of_cons [[=]|Hp]%elem_of_cons Hlt; [by apply Hknows|]. by eapply (rk_replies _ _ _ H').
  - assert (forall b' acc com data', prepare_reply n b' (promise acc com data') ∈ S -> ballot_micros b' < ballot_micros b) as Hold.
    { intros b' acc com data' Hin. pose proof (rk_promised _ _ _ H _ _ _ _ Hin) as Hal. destruct (r_row r !! promise_column) as [c|] eqn:Hc; [|done].
      specialize (Hbelow c eq_refl). cbn in Hal. lia. }
    intros b1 ? ? ? b2 ? ? ? [[= -> -> -> ->]|H1]%elem_of_cons [[= -> -> -> ->]|H2]%elem_of_cons Heq; [done| | |by eapply (rk_unique _ _ _ H')].
    + specialize (Hold _ _ _ _ H2). lia.
    + specialize (Hold _ _ _ _ H1). lia.
  - intros d Hd. apply Hsub. by apply (rk_learning _ _ _ H').
  - intros x Hx. destruct (rk_table _ _ _ H' x Hx) as (d & ? & ?). exists d. auto.
Qed.

Lemma saved_proposal_ok r p now :
  replica_ok S n r -> r_lock r = Some (accepting p) ->
  let '(r', a) := accept_finish paxos_grace_seconds compare_unsigned r p now in replica_ok (accept_reply n p a :: S) n r'.
Proof using HS.
  intros H Hlock. pose proof (rk_lock _ _ _ H) as Hl. unfold lock_ok in Hl. rewrite Hlock in Hl. destruct Hl as (Hp & Hle).
  destruct (save_proposal_spec paxos_grace_seconds compare_unsigned S (r_row r) p now (sf_same S HS) (rk_row _ _ _ H) Hp (sf_prepared S HS p Hp)) as (_ & _ & _ & Hnew).
  pose proof (save_proposal_quiet r p now H Hlock) as H'. cbn [accept_finish].
  set (r' := r_set_lock _ _) in *. set (m := accept_reply n p _). assert (S ⊆ m :: S) as Hsub by set_solver. split; try apply H'.
  - eapply row_ok_mono; [done|apply H'].
  - intros b' acc com data' [[=]|Hin]%elem_of_cons. by eapply (rk_promised _ _ _ H').
  - intros q [[= ->]|Hin]%elem_of_cons; [auto|]. destruct (rk_accepted _ _ _ H' q Hin). auto.
  - intros b acc com data q [[=]|Hin]%elem_of_cons [[= ->]|Hq]%elem_of_cons Hlt; [|by eapply (rk_replies _ _ _ H')].
    pose proof (rk_promised _ _ _ H _ _ _ _ Hin) as Hal. destruct (r_row r !! promise_column) as [c|] eqn:Hc; [|done]. specialize (Hle c eq_refl). cbn in Hal. lia.
  - intros b1 ? ? ? b2 ? ? ? [[=]|H1]%elem_of_cons [[=]|H2]%elem_of_cons Heq. by eapply (rk_unique _ _ _ H').
  - intros d Hd. apply Hsub. by apply (rk_learning _ _ _ H').
  - intros x Hx. destruct (rk_table _ _ _ H' x Hx) as (d & ? & ?). exists d. auto.
Qed.
(** Every step of a replica keeps its invariant. *)
Lemma replica_step_ok r e r' ms :
  replica_ok S n r -> received S r e -> replica_step n r e = Some (r', ms) ->
  replica_ok (ms ++ S) n r' /\ forall m, m ∈ ms -> from_replica n m /\ reply_sound S m.
Proof using HS EqDecision1.
  intros H Hrec Hstep. destruct e as [b now|data now|p now|now|saved now|d|d now|b now|]; cbn [Paxos.replica_step] in Hstep.
  - destruct (r_lock r) eqn:Hl; [done|]. destruct (receive_prepare_ok r b now H Hl Hrec) as (r1 & o & Hs & Hr & Ho). rewrite Hs in Hstep. injection Hstep as <- <-.
    split; [|by destruct o as [a|]; [intros m ->%list_elem_of_singleton; destruct (Ho a eq_refl) as [? ->]|set_solver]].
    destruct o as [a|]; [|done]. destruct (Ho a eq_refl) as [b' ->]. by apply replica_ok_reply.
  - destruct (r_lock r) as [[b st|]|] eqn:Hl; try done. pose proof (saved_promise_ok r b st data now H Hl) as Hs.
    destruct (prepare_finish _ _ r b st data now) as [r1 a]. injection Hstep as <- <-. destruct Hs as [? ?]. split; [done|]. by intros m ->%list_elem_of_singleton.
  - destruct (r_lock r) eqn:Hl; [done|]. destruct (receive_accept_ok r p now H Hl Hrec) as (r1 & o & Hs & Hr & Ho). rewrite Hs in Hstep. injection Hstep as <- <-.
    split; [|by destruct o as [a|]; [intros m ->%list_elem_of_singleton|set_solver]].
    destruct o as [a|]; [|done]. rewrite (Ho a eq_refl). by apply replica_ok_reply.
  - destruct (r_lock r) as [[|p]|] eqn:Hl; try done. pose proof (saved_proposal_ok r p now H Hl) as Hs.
    destruct (accept_finish _ _ r p now) as [r1 a]. injection Hstep as <- <-. split; [done|]. by intros m ->%list_elem_of_singleton.
  - injection Hstep as <- <-. split; [|set_solver]. cbn [app]. unfold save_fails. destruct (r_lock r) as [[b st|p]|] eqn:Hl; [| |done].
    + destruct saved; [by eapply save_promise_quiet|]. by apply (replica_ok_quiet _ _ r); try apply H.
    + destruct saved; [by eapply save_proposal_quiet|]. by apply (replica_ok_quiet _ _ r); try apply H.
  - injection Hstep as <- <-. split; [|set_solver]. cbn [app]. unfold learn_start. cbn in Hrec.
    apply (replica_ok_quiet _ _ r); [done|by destruct (_ <=? _); apply H|by destruct (_ <=? _)| | |].
    + apply (lock_same_row _ _ r); [by destruct (_ <=? _)..|apply H].
    + intros d'. destruct (_ <=? _); cbn; (intros [->|Hd]%elem_of_cons; [done|by apply (rk_learning _ _ _ H)]).
    + intros m. destruct (_ <=? _); cbn; [intros [->|Hm]%elem_of_cons; [by exists d|]|intros Hm]; by apply (rk_table _ _ _ H).
  - case_bool_decide as Hd; [|done]. injection Hstep as <- <-. split; [|by intros m ->%list_elem_of_singleton].
    destruct (save_decision_spec paxos_grace_seconds compare_unsigned S (r_row r) d now (sf_same_decision S HS) (rk_row _ _ _ H) (rk_learning _ _ _ H d Hd)) as (Hok & Hg & Hp).
    apply replica_ok_reply; [done|]. apply (replica_ok_quiet _ _ r); [done|done|done| | |apply H].
    + apply (lock_same_row _ _ r); [done|done|apply H].
    + cbn. intros d' [_ Hd']%list_elem_of_filter. by apply (rk_learning _ _ _ H).
  - injection Hstep as <- <-. split; [|set_solver]. cbn [app].
    destruct (prune_spec compare_unsigned S (r_row r) b now (rk_row _ _ _ H)) as (Hok & Hg & Hp).
    apply (replica_ok_quiet _ _ r); [done|done|done| |apply H|apply H]. apply (lock_same_row _ _ r); [done|done|apply H].
  - injection Hstep as <- <-. split; [|set_solver]. cbn [app]. apply (replica_ok_quiet _ _ r); [done|apply H|done|done| |apply H]. cbn. set_solver.
Qed.
End replica_step.

(** * The invariant of a coordinator *)

Section coordinators.
Context (all : list Z) (required : nat).
Abbreviation quorum := (quorum all required).
Abbreviation handler := (@handler M D).
Abbreviation reply := (Z * (option proposal * option proposal))%type.

(** A value that a quorum has accepted. *)
Definition chosen (S : list message) (p : proposal) : Prop := exists q, quorum q /\ forall n, n ∈ q -> accept_reply n p true ∈ S.

(** The promises of a quorum, and what they allow to propose: the newest accepted value if it is newer
    than every commit, or any value. *)
Definition promised_by (S : list message) (b : UUID) (rs : list reply) : Prop :=
  quorum rs.*1 /\ forall n acc com, (n, (acc, com)) ∈ rs -> exists data, prepare_reply n b (promise acc com data) ∈ S.
Definition may_replay (rs : list reply) (p : proposal) : Prop :=
  exists a, a ∈ accepted_in rs /\ update p = update a /\
  (forall a', a' ∈ accepted_in rs -> ballot_timestamp (ballot a') <= ballot_timestamp (ballot a)) /\
  (forall c, c ∈ commits_in rs -> ballot_timestamp (ballot c) < ballot_timestamp (ballot a)).
Definition free_choice (rs : list reply) : Prop :=
  forall a, a ∈ accepted_in rs -> exists c, c ∈ commits_in rs /\ ballot_timestamp (ballot a) <= ballot_timestamp (ballot c).

(** A message that may be sent when [S] was sent before. *)
Definition justified (m : message) (S : list message) : Prop :=
  match m with
  | accept_request p => prepare_request (ballot p) ∈ S /\ (forall m, accept_request (Proposal (ballot p) m) ∉ S) /\ exists rs, promised_by S (ballot p) rs /\ (may_replay rs p \/ free_choice rs)
  | learn_request d =>
    exists q, accept_request q ∈ S /\ chosen S q /\ ballot q = ballot d /\ (q = d \/ learn_request q ∈ S) /\ (update d = update q \/ update d = empty_mutation)
  | prepare_request b => ballot_ok b /\ prepare_request b ∉ S
  | prepare_reply _ b (promise acc com _) => promise_sound S b acc com
  | _ => True
  end.
Fixpoint history (S : list message) : Prop := match S with [] => True | m :: earlier => justified m earlier /\ history earlier end.

(** The ballot that a coordinator has and has not proposed a value for. *)
Definition open_ballot (h : handler) : option UUID :=
  match h_phase h with preparing_ballot _ b _ | repairing _ b _ | prepared b _ => Some b | _ => None end.

Definition accept_tracker_ok (S : list message) (h : handler) (p : proposal) (t : accept_tracker) : Prop :=
  accept_request p ∈ S /\ at_peers t ⊆ h_live h /\
  exists l, NoDup l /\ l ⊆ h_live h /\ length l = at_accepts t /\ forall n, n ∈ l -> (n ∉ at_peers t) /\ accept_reply n p true ∈ S.

Definition prepare_tracker_ok (S : list message) (h : handler) (b : UUID) (t : @prepare_tracker M D) : Prop :=
  pt_peers t ⊆ h_live h /\
  exists seen, prepare_tracks (length (h_live h)) required seen t /\ NoDup seen.*1 /\ seen.*1 ⊆ h_live h /\
    (forall n, n ∈ seen.*1 -> n ∉ pt_peers t) /\ (forall n r, (n, rpc_reply r) ∈ seen -> prepare_reply n b r ∈ S).

Record handler_ok (S : list message) (h : handler) : Prop := {
  ho_participants : h_phase h = failed \/ NoDup (h_live h) /\ h_live h ⊆ all /\ h_required h = required /\ (required <= length (h_live h))%nat;
  ho_open : forall b, open_ballot h = Some b -> prepare_request b ∈ S /\ forall m, accept_request (Proposal b m) ∉ S;
  ho_phase :
    match h_phase h with
    | preparing_ballot _ b t => prepare_tracker_ok S h b t
    | repairing _ b _ | prepared b _ => exists rs, promised_by S b rs /\ free_choice rs
    | replaying _ p t | proposing p t => accept_tracker_ok S h p t
    | _ => True
    end;
}.

Lemma promised_by_mono S S' b rs : S ⊆ S' -> promised_by S b rs -> promised_by S' b rs.
Proof using. intros HS [Hq H]. split; [done|]. intros n acc com Hin. destruct (H n acc com Hin) as [data ?]. exists data. auto. Qed.
Lemma chosen_mono S S' p : S ⊆ S' -> chosen S p -> chosen S' p.
Proof using. intros HS (q & Hq & H). exists q. auto. Qed.

Lemma accept_tracker_mono S S' h p t : S ⊆ S' -> accept_tracker_ok S h p t -> accept_tracker_ok S' h p t.
Proof using.
  intros HS (? & ? & l & ? & ? & ? & Hl). split; [auto|]. split; [done|]. exists l. split; [done|]. split; [done|]. split; [done|].
  intros n Hn. destruct (Hl n Hn). auto.
Qed.

(** What others send is no concern of a coordinator, unless it is a proposal with its ballot. *)
Lemma handler_ok_mono ms S h :
  (forall b m, open_ballot h = Some b -> accept_request (Proposal b m) ∉ ms) -> handler_ok S h -> handler_ok (ms ++ S) h.
Proof using.
  intros Hms H. assert (S ⊆ ms ++ S) as HS by set_solver. split; [apply H| |].
  - intros b Hb. destruct (ho_open _ _ H b Hb) as [? Hn]. split; [auto|]. intros m [?|?]%elem_of_app; [by eapply Hms|by eapply Hn].
  - pose proof (ho_phase _ _ H) as Hp. destruct (h_phase h) as [|? b t|? p t| |? b ?|b ?|p t| | |]; try done.
    + destruct Hp as (? & seen & ? & ? & ? & ? & Hr). split; [done|]. exists seen. do 4 (split; [done|]). auto.
    + by eapply accept_tracker_mono.
    + destruct Hp as (rs & ? & ?). exists rs. split; [by eapply promised_by_mono|done].
    + destruct Hp as (rs & ? & ?). exists rs. split; [by eapply promised_by_mono|done].
    + by eapply accept_tracker_mono.
Qed.

(** * The steps of a coordinator *)

(** One answer to a proposal: the replicas that are counted have accepted. *)
Lemma accept_answer_ok S h p t partial n o :
  h_phase h <> failed -> NoDup (h_live h) -> h_live h ⊆ all ->
  accept_tracker_ok S h p t -> n ∈ at_peers t -> (forall a, o = rpc_reply a -> accept_reply n p a ∈ S) ->
  match handle_accept_response (length (h_live h)) required partial t n o with
  | wait_more t' => accept_tracker_ok S h p t'
  | wait_result true => chosen S p
  | _ => True
  end.
Proof using.
  intros Hph Hnd Hall (Hp & Hpeers & l & Hl & Hsub & Hlen & Hacc) Hn Ho.
  set (peers := filter (fun m => m <> n) (at_peers t)).
  set (l' := match o with rpc_reply true => n :: l | _ => l end).
  set (t' := match o with
    | rpc_timeout => AcceptTracker peers (at_accepts t) (at_rejects t) (at_errors t)
    | rpc_error => AcceptTracker peers (at_accepts t) (at_rejects t) (Datatypes.S (at_errors t))
    | rpc_reply true => AcceptTracker peers (Datatypes.S (at_accepts t)) (at_rejects t) (at_errors t)
    | rpc_reply false => AcceptTracker peers (at_accepts t) (Datatypes.S (at_rejects t)) (at_errors t)
    end).
  assert (NoDup l' /\ l' ⊆ h_live h /\ length l' = at_accepts t' /\ (forall m, m ∈ l' -> (m ∉ at_peers t') /\ accept_reply m p true ∈ S)) as (H1 & H2 & H3 & H4).
  { assert (forall m, m ∈ l -> m ∉ peers) as Hnp by (intros m Hm [_ ?]%list_elem_of_filter; by apply (Hacc m Hm)).
    unfold l', t'. destruct o as [[]| |]; cbn [at_accepts at_peers]; try (repeat split; try done; try apply Hacc; auto; done).
    split; [apply NoDup_cons; split; [|done]; intros Hin; by apply (Hacc n Hin)|]. split; [intros m [->|Hm]%elem_of_cons; auto|].
    split; [cbn; lia|]. intros m [->|Hm]%elem_of_cons; [|split; [auto|by apply Hacc]]. split; [|by apply Ho]. intros [? _]%list_elem_of_filter. done. }
  assert (handle_accept_response (length (h_live h)) required partial t n o = wait_result true -> chosen S p) as Hres.
  { intros Hr. assert (at_accepts t' = required) as Heq.
    { unfold handle_accept_response in Hr. fold peers in Hr. fold t' in Hr. case_bool_decide; [done|]. destruct o; repeat (case_bool_decide || case_match); simplify_eq. }
    exists l'. split; [split; [done|]; split; [set_solver|lia]|]. intros m Hm. by apply H4. }
  assert (forall t1, handle_accept_response (length (h_live h)) required partial t n o = wait_more t1 -> t1 = t') as Hmore.
  { intros t1 Hr. unfold handle_accept_response in Hr. fold peers in Hr. fold t' in Hr. case_bool_decide; [done|]. destruct o; repeat (case_bool_decide || case_match); simplify_eq; done. }
  destruct (handle_accept_response _ _ _ _ _ _) as [t1|[]|]; [|by apply Hres|done..]. rewrite (Hmore t1 eq_refl). split; [done|]. split; [|by exists l'].
  unfold t'. destruct o as [[]| |]; cbn [at_peers]; intros m [_ ?]%list_elem_of_filter; auto.
Qed.
(** One answer to a ballot. *)
Lemma promises_in_NoDup (seen : list (Z * rpc_outcome (@prepare_response M D))) : NoDup seen.*1 -> NoDup (promises_in seen).*1.
Proof using.
  induction seen as [|[n o] seen IH]; [constructor|]. cbn. intros [Hn Hnd]%NoDup_cons. destruct o as [[b|acc com data]| |]; cbn; try by apply IH.
  apply NoDup_cons. split; [by intros ?%promises_in_nodes|by apply IH].
Qed.

Lemma prepare_answer_ok S h b t n o :
  h_live h ⊆ all -> prepare_tracker_ok S h b t -> n ∈ pt_peers t -> (forall r, o = rpc_reply r -> prepare_reply n b r ∈ S) ->
  match handle_prepare_response digest_of (length (h_live h)) required t n o with
  | wait_more t' => prepare_tracker_ok S h b t'
  | wait_result s => promised s = true -> exists rs, promised_by S b rs /\ summarizes rs s
  | _ => True
  end.
Proof using.
  intros Hall (Hpeers & seen & Ht & Hnd & Hsub & Hdis & Hrep) Hn Ho.
  assert (n ∉ seen.*1) as Hfresh by (intros Hin; by apply (Hdis n Hin)).
  assert (NoDup ((n, o) :: seen).*1 /\ ((n, o) :: seen).*1 ⊆ h_live h) as [Hnd' Hsub'] by (cbn; split; [by apply NoDup_cons|intros m [->|?]%elem_of_cons; auto]).
  assert (forall m r, (m, rpc_reply r) ∈ (n, o) :: seen -> prepare_reply m b r ∈ S) as Hrep'.
  { intros m r [[= -> Hr]|Hin]%elem_of_cons; [by apply Ho|by apply Hrep]. }
  pose proof (handle_prepare_spec digest_of (length (h_live h)) required seen t n o Ht Hfresh) as Hspec.
  destruct (handle_prepare_response digest_of (length (h_live h)) required t n o) as [t'|s|]; [| |done].
  - destruct Hspec as (Ht' & Hp' & _). split; [rewrite Hp'; intros m [_ ?]%list_elem_of_filter; auto|].
    exists ((n, o) :: seen). split; [done|]. split; [done|]. split; [done|]. split; [|done].
    intros m Hm. rewrite Hp'. intros [Hne Hin]%list_elem_of_filter. cbn in Hm. apply elem_of_cons in Hm as [->|Hm]; [done|]. by apply (Hdis m Hm).
  - intros Hpr. cbn [prepare_result_ok] in Hspec. rewrite Hpr in Hspec. destruct Hspec as [Hsum Hlen].
    exists (promises_in ((n, o) :: seen)). split; [|done]. split.
    + split; [by apply promises_in_NoDup|]. split; [|by rewrite length_fmap]. intros m Hm%promises_in_nodes. auto.
    + intros m acc com ([k o'] & He & Hin)%list_elem_of_omap. destruct o' as [[|acc' com' data]| |]; simplify_eq/=. exists data. by apply Hrep'.
Qed.

(** Everything in a history was justified when it was sent. *)
Lemma history_elem S m : history S -> m ∈ S -> exists earlier, justified m earlier /\ earlier ⊆ S /\ history earlier.
Proof using.
  induction S as [|m' S IH]; [by intros _ ?%not_elem_of_nil|]. intros [Hj HS] [->|Hin]%elem_of_cons; [exists S; set_solver|].
  destruct (IH HS Hin) as (e & ? & ? & ?). exists e. set_solver.
Qed.

Lemma history_learned S d : history S -> learn_request d ∈ S ->
  exists q, accept_request q ∈ S /\ chosen S q /\ ballot q = ballot d /\ learn_request q ∈ S /\ (update d = update q \/ update d = empty_mutation).
Proof using.
  intros HS Hd. destruct (history_elem S _ HS Hd) as (e & (q & Hq & Hc & Hb & Hl & Hu) & He & _). exists q. split; [auto|]. split; [by eapply chosen_mono|].
  split; [done|]. split; [destruct Hl as [->|]; auto|done].
Qed.

Lemma history_unique S p q : history S -> accept_request p ∈ S -> accept_request q ∈ S -> ballot p = ballot q -> p = q.
Proof using.
  induction S as [|m S IH]; [by intros _ ?%not_elem_of_nil|]. intros [Hj HS] [Hp|Hp]%elem_of_cons [Hq|Hq]%elem_of_cons Hb.
  - congruence.
  - subst m. destruct Hj as (_ & Hj & _). rewrite Hb in Hj. specialize (Hj (update q)). by destruct q.
  - subst m. destruct Hj as (_ & Hj & _). rewrite <- Hb in Hj. specialize (Hj (update p)). by destruct p.
  - by apply IH.
Qed.

(** The rest of [begin_and_repair_paxos] sends only what is justified. *)
Lemma after_prepare_ok S h min_ts b s rs h' ms :
  history S -> promised s = true -> promised_by S b rs -> summarizes rs s -> prepare_request b ∈ S -> (forall m, accept_request (Proposal b m) ∉ S) ->
  after_prepare paxos_grace_seconds h min_ts b s = (h', ms) ->
  (forall m, m ∈ ms -> justified m S) /\ (length ms <= 1)%nat /\ h_participants h' = h_participants h /\
  ((exists p, ms = [accept_request p] /\ ballot p = b /\ exists mt, h_phase h' = replaying mt p (accept_proposal (h_live h))) \/
   (forall p, accept_request p ∉ ms) /\ open_ballot h' = Some b /\ (exists rs, promised_by S b rs /\ free_choice rs) /\
   ((exists mt d, h_phase h' = repairing mt b d) \/ exists d, h_phase h' = prepared b d)) /\
  (forall m n, m ∈ ms -> ~ from_replica n m) /\ (forall b', prepare_request b' ∉ ms).
Proof using.
  intros HS Hpr Hby Hsum Hb Hnew. unfold after_prepare. rewrite Hpr. cbn [negb].
  set (unfinished := match most_recent_proposal s with Some _ => _ | None => None end).
  pose proof (sum_proposal _ _ Hsum) as Hmrp. pose proof (sum_commit _ _ Hsum) as Hmrc.
  destruct unfinished as [p|] eqn:Hun; unfold unfinished in Hun.
  - assert (may_replay rs (Proposal b (update p))) as Hreplay.
    { destruct (most_recent_proposal s) as [p'|]; [|done]. destruct Hmrp as [Hin Hmax]. exists p'.
      destruct (ps_most_recent_commit s) as [c|]; cbn in Hmrc.
      - destruct (proposal_less c p') eqn:Hless; [|done]. injection Hun as <-. apply Z.ltb_lt in Hless. destruct Hmrc as [_ Hcmax].
        split; [done|]. split; [done|]. split; [done|]. intros c' Hc'. specialize (Hcmax c' Hc'). lia.
      - injection Hun as <-. split; [done|]. split; [done|]. split; [done|]. rewrite Hmrc. set_solver. }
    intros [= <- <-]. split; [|split; [done|split; [done|split; [|split]]]].
    + intros m ->%list_elem_of_singleton. split; [done|]. split; [done|]. exists rs. auto.
    + left. eexists. split; [done|]. split; [done|]. by eexists.
    + intros m n ->%list_elem_of_singleton. by intros [].
    + intros b' Hin%list_elem_of_singleton. done.
  - assert (free_choice rs) as Hfree.
    { intros a Ha. destruct (most_recent_proposal s) as [p|]; cbn in Hmrp; [|rewrite Hmrp in Ha; set_solver]. destruct Hmrp as [_ Hmax]. specialize (Hmax a Ha).
      destruct (ps_most_recent_commit s) as [c|]; [|done]. destruct (proposal_less c p) eqn:Hless; [done|]. apply Z.ltb_ge in Hless. destruct Hmrc as [Hin _]. exists c. split; [done|lia]. }
    assert (forall d, ps_most_recent_commit s = Some d -> justified (learn_request d) S) as Hlearn.
    { intros d Hd. rewrite Hd in Hmrc. destruct Hmrc as [Hin _]. apply list_elem_of_omap in Hin as ([n [acc com]] & Hin & Hc). simplify_eq/=.
      destruct Hby as [_ Hrep]. destruct (Hrep _ _ _ Hin) as [data Hr]. destruct (history_elem S _ HS Hr) as (e & [_ Hsound] & He & _).
      destruct (Hsound d eq_refl) as (d0 & Hd0 & Hb0 & Hu0). destruct (history_learned S d0 HS (He _ Hd0)) as (q & Hq & Hc & Hbq & Hl & Hu).
      exists q. split; [done|]. split; [done|]. split; [congruence|]. split; [by right|]. destruct Hu0 as [->|]; [destruct Hu as [->|]|]; auto. }
    destruct (replicas_missing_most_recent_commit paxos_grace_seconds s (ballot_sec b)) as [|n0 missing]; [|destruct (ps_most_recent_commit s) as [d|]];
      intros [= <- <-]; (split; [|split; [cbn; lia|split; [done|split; [right|split]]]]).
    all: try (intros m; set_solver).
    all: try (intros m ->%list_elem_of_singleton; by apply Hlearn).
    all: try (intros m n ->%list_elem_of_singleton; by intros []).
    all: try (intros b' Hin%list_elem_of_singleton; done).
    all: try (intros m n ?%not_elem_of_nil; done).
    all: split; [intros p; set_solver|]; split; [done|]; split; [by exists rs|].
    all: try (right; by eexists). left. by eexists _, _.
Qed.
End coordinators.
End safety.
