(* ===== verification/PaxosRuns.v ===== *)
(** Runs of replicas and coordinators of lightweight transactions, in any order of their steps, with
    messages that get lost, repeated and delayed, and what holds of them. *)
From stdpp Require Import functions.
From S2P Require Import Prelude Bytes Ordering RangeTombstones Cells Uuid Paxos PaxosTheory PaxosRows PaxosSafety.

Section runs.
Context {M D : Type} `{!EqDecision M, !EqDecision D}.
Context (empty_mutation : M) (digest_of : D -> Z) (paxos_grace_seconds : Z) (compare_unsigned : @paxos_value M -> @paxos_value M -> comparison).
Abbreviation proposal := (@proposal M).
Abbreviation message := (@message M D).
Abbreviation handler := (@handler M D).
Abbreviation net := (@net M D).
Abbreviation handler_step := (handler_step digest_of paxos_grace_seconds).
Abbreviation net_step := (net_step empty_mutation digest_of paxos_grace_seconds compare_unsigned).

Implicit Types (h : handler) (ms : list message) (p : proposal).

Section step.
Context (all : list Z) (required : nat).
Abbreviation handler_ok := (handler_ok all required).
Abbreviation history := (history empty_mutation all required).
Abbreviation justified := (justified empty_mutation all required).
Abbreviation chosen := (chosen all required).

Definition answer_sent (S : list message) (h : handler) (e : @handler_event M D) : Prop :=
  match e, h_phase h with
  | prepare_answer n (rpc_reply r), preparing_ballot _ b _ => prepare_reply n b r ∈ S
  | accept_answer n (rpc_reply a), replaying _ p _ | accept_answer n (rpc_reply a), proposing p _ => accept_reply n p a ∈ S
  | _, _ => True
  end.

Lemma history_add ms (S : list message) : (length ms <= 1)%nat -> (forall m, m ∈ ms -> justified m S) -> history S -> history (ms ++ S).
Proof using. destruct ms as [|m [|]]; cbn; [done| |lia]. intros _ H HS. split; [|done]. apply H. set_solver. Qed.

(** What a step of a coordinator must keep. *)
Definition step_ok (S : list message) (h h' : handler) (ms : list message) : Prop :=
  handler_ok (ms ++ S) h' /\ history (ms ++ S) /\ (forall p, accept_request p ∈ ms -> open_ballot h = Some (ballot p)) /\
  (forall b, open_ballot h' = Some b -> open_ballot h = Some b \/ prepare_request b ∈ ms) /\ (forall m n, m ∈ ms -> ~ from_replica n m).

(** A step to a phase in which nothing is known, after which only what is justified was sent. *)
Lemma handler_moves (S : list message) h h' (ms : list message) :
  handler_ok S h -> history S -> (length ms <= 1)%nat -> (forall m, m ∈ ms -> justified m S) -> (forall p, accept_request p ∉ ms) -> (forall m n, m ∈ ms -> ~ from_replica n m) ->
  h_participants h' = h_participants h -> (h_phase h = failed -> h_phase h' = failed) -> open_ballot h' = None ->
  match h_phase h' with replaying _ _ _ | proposing _ _ => False | _ => True end -> step_ok S h h' ms.
Proof using.
  intros H HS Hlen Hj Hna Hown Hpart Hnf Hopen Hph. split; [|split; [by apply history_add|split; [intros p Hp; by destruct (Hna p)|split; [by rewrite Hopen|done]]]].
  split.
  - destruct (ho_participants _ _ _ _ H) as [|Hp]; [by left; apply Hnf|]. right. unfold h_live, h_required in *. by rewrite Hpart.
  - by rewrite Hopen.
  - unfold open_ballot in Hopen. by destruct (h_phase h').
Qed.

Lemma handler_silent (S : list message) h h' :
  handler_ok S h -> history S -> h_participants h' = h_participants h -> (h_phase h = failed -> h_phase h' = failed) -> open_ballot h' = None ->
  match h_phase h' with replaying _ _ _ | proposing _ _ => False | _ => True end -> step_ok S h h' [].
Proof using. intros. apply handler_moves; try done; cbn; try lia; intros *; by intros ?%not_elem_of_nil. Qed.

Lemma handler_ok_ext (S : list message) h h' : h_participants h' = h_participants h -> h_phase h' = h_phase h -> handler_ok S h -> handler_ok S h'.
Proof using.
  intros Hpa Hph [H1 H2 H3]. assert (h_live h' = h_live h) as Hl by (unfold h_live; by rewrite Hpa). split.
  - unfold h_required in *. by rewrite Hph, Hl, Hpa.
  - unfold open_ballot in *. by rewrite Hph.
  - rewrite Hph. unfold prepare_tracker_ok, accept_tracker_ok in *. by rewrite Hl.
Qed.

Context (Hpositive : (0 < required)%nat).

(** A handler whose phase is known, and its participants. *)
Lemma handler_participants (S : list message) h : handler_ok S h -> h_phase h <> failed -> NoDup (h_live h) /\ h_live h ⊆ all /\ h_required h = required /\ (required <= length (h_live h))%nat.
Proof using. intros H Hnf. by destruct (ho_participants _ _ _ _ H). Qed.

Lemma begin_round_ok (S : list message) h min_ts clock random h' ms :
  history S -> handler_ok S h -> h_phase h = beginning min_ts -> (forall b, prepare_request b ∈ ms -> prepare_request b ∉ S) ->
  begin_round h min_ts clock random = (h', ms) -> step_ok S h h' ms.
Proof using Hpositive.
  intros HS H Hph Hfresh. destruct (handler_participants S h H) as (Hnd & Hall & Hreq & Hle); [by rewrite Hph|]. unfold begin_round.
  destruct (get_random_time_UUID_from_micros random _) as [b| |] eqn:Hb; intros [= <- <-].
  2,3: by apply handler_silent.
  assert (justified (prepare_request b) S) as Hj by (split; [by eapply random_ballot_ok|apply Hfresh; set_solver]).
  split; [|split; [apply history_add; [cbn; lia| |done]; by intros m ->%list_elem_of_singleton|split; [set_solver|split; [|by intros m n ->%list_elem_of_singleton []]]]].
  - split.
    + right. done.
    + cbn. intros b' [= <-]. split; [set_solver|]. intros m [Hm|Hm]%elem_of_cons; [done|].
      destruct (history_elem _ _ _ _ _ HS Hm) as (e & [Hp _] & He & _). destruct Hj as [_ Hj]. apply Hj. apply He, Hp.
    + cbn. split; [done|]. exists []. split; [|split; [constructor|split; [set_solver|split; set_solver]]].
      split; [apply empty_summarizes|done|done| |done]. cbn [pt_errors prepare_ballot]. change (required + 0 <= length (h_live h))%nat. lia.
  - cbn. intros b' [= <-]. right. set_solver.
Qed.

(** The answers to a proposal: a learned decision was chosen. *)
Lemma accepting_ok (S : list message) h p t partial n o h' ms :
  history S -> handler_ok S h -> accept_tracker_ok S h p t -> h_phase h <> failed -> open_ballot h = None -> n ∈ at_peers t -> (forall a, o = rpc_reply a -> accept_reply n p a ∈ S) ->
  match handle_accept_response (length (h_live h)) (h_required h) partial t n o with
  | wait_more t => h_participants h' = h_participants h /\ ms = [] /\ (h_phase h' = proposing p t \/ exists mt, h_phase h' = replaying mt p t)
  | wait_result true => exists ph, (h', ms) = learn_decision h p ph /\ (ph = learning p \/ exists mt, ph = learning_replayed mt p)
  | wait_result false => h_participants h' = h_participants h /\ ms = [] /\ exists mt, h_phase h' = beginning mt
  | wait_exception _ => h_participants h' = h_participants h /\ ms = [] /\ h_phase h' = failed
  end -> step_ok S h h' ms.
Proof using Hpositive.
  intros HS H Ht Hnf Hopen Hn Ho. destruct (handler_participants S h H Hnf) as (Hnd & Hall & Hreq & Hle). rewrite Hreq.
  pose proof (accept_answer_ok all required S h p t partial n o Hnf Hnd Hall Ht Hn Ho) as Hans.
  destruct (handle_accept_response (length (h_live h)) required partial t n o) as [t'|[]|].
  - intros (Hpa & -> & Hph). assert (open_ballot h' = None) as Hopen' by (unfold open_ballot; by destruct Hph as [->|[? ->]]).
    split; [|split; [done|split; [set_solver|split; [by rewrite Hopen'|set_solver]]]]. assert (h_live h' = h_live h) as Hl by (unfold h_live; by rewrite Hpa).
    split; [right; unfold h_required in *; by rewrite Hl, Hpa|by rewrite Hopen'|].
    unfold accept_tracker_ok in *. destruct Hph as [->|[? ->]]; by rewrite Hl.
  - intros (ph & [= -> ->] & Hph). apply handler_moves; try done.
    + intros m ->%list_elem_of_singleton. exists p. split; [apply Ht|]. split; [done|]. split; [done|]. split; [by left|by left].
    + intros q. by intros ?%list_elem_of_singleton.
    + intros m k ->%list_elem_of_singleton. by intros [].
    + unfold open_ballot. cbn. by destruct Hph as [->|[? ->]].
    + cbn. by destruct Hph as [->|[? ->]].
  - intros (Hpa & -> & mt & Hph). apply handler_silent; try done; unfold open_ballot; by rewrite Hph.
  - intros (Hpa & -> & Hph). apply handler_silent; try done; unfold open_ballot; by rewrite Hph.
Qed.

(** Every step of a coordinator. *)
Lemma handler_step_ok (S : list message) h e h' ms :
  history S -> handler_ok S h -> answer_sent S h e -> (forall b, prepare_request b ∈ ms -> prepare_request b ∉ S) ->
  handler_step h e = Some (h', ms) -> step_ok S h h' ms.
Proof using Hpositive.
  intros HS H Hsent Hfresh Hstep. destruct e as [clock random| |n o|n o|success|m|n d dropped].
  - cbn in Hstep. destruct (h_phase h) as [mt| | | | | | | | |] eqn:Hph; try done. injection Hstep as Hstep. by eapply begin_round_ok.
  - cbn in Hstep. injection Hstep as <- <-. by apply handler_silent.
  - cbn in Hstep. destruct (h_phase h) as [|mt b t| | | | | | | |] eqn:Hph; try done. case_bool_decide as Hn; [|done].
    destruct (handler_participants S h H) as (Hnd & Hall & Hreq & Hle); [by rewrite Hph|]. pose proof (ho_phase _ _ _ _ H) as Hp. rewrite Hph in Hp.
    pose proof (ho_open _ _ _ _ H b) as Hopen. unfold open_ballot in Hopen. rewrite Hph in Hopen. destruct (Hopen eq_refl) as [Hb Hnew].
    assert (forall r, o = rpc_reply r -> prepare_reply n b r ∈ S) as Ho by (intros r ->; unfold answer_sent in Hsent; by rewrite Hph in Hsent).
    pose proof (prepare_answer_ok digest_of all required S h b t n o Hall Hp Hn Ho) as Hans. rewrite Hreq in Hstep.
    destruct (handle_prepare_response digest_of (length (h_live h)) required t n o) as [t'|s|].
    + injection Hstep as <- <-. split; [|split; [done|split; [set_solver|split; [|set_solver]]]].
      * split; [by right| |exact Hans]. cbn. by intros b' [= <-].
      * intros b' Hb'. left. unfold open_ballot in *. by rewrite Hph.
    + destruct (promised s) eqn:Hpr.
      * destruct (Hans eq_refl) as (rs & Hby & Hsum). injection Hstep as Hstep.
        destruct (after_prepare_ok empty_mutation paxos_grace_seconds all required S h mt b s rs h' ms HS Hpr Hby Hsum Hb Hnew Hstep) as (Hj & Hlen & Hpa & Hcase & Hown & Hnp).
        assert (h_live h' = h_live h) as Hl by (unfold h_live; by rewrite Hpa).
        assert (NoDup (h_live h') /\ h_live h' ⊆ all /\ h_required h' = required /\ (required <= length (h_live h'))%nat) as Hpart by (unfold h_required in *; by rewrite Hl, Hpa).
        split; [|split; [by apply history_add|split; [|split; [|done]]]].
        -- destruct Hcase as [(p & -> & Hpb & mt' & Hph')|(Hna & Hopen' & Hfree & Hph')].
           ++ split; [by right|unfold open_ballot; by rewrite Hph'|]. rewrite Hph'. split; [set_solver|]. cbn. rewrite Hl. split; [done|]. exists [].
              split; [constructor|]. split; [set_solver|]. split; [done|set_solver].
           ++ split; [by right| |].
              ** intros b' Hb'. rewrite Hopen' in Hb'. injection Hb' as <-. split; [set_solver|]. intros x [Hx|Hx]%elem_of_app; [by destruct (Hna _ Hx)|by eapply Hnew].
              ** destruct Hfree as (rs' & Hby' & Hf). assert (promised_by all required (ms ++ S) b rs') by (eapply promised_by_mono; [|done]; set_solver).
                 destruct Hph' as [(? & ? & ->)|(? & ->)]; by exists rs'.
        -- intros p Hin. unfold open_ballot. rewrite Hph. destruct Hcase as [(p' & -> & Hpb & _)|(Hna & _)]; [|by destruct (Hna p)].
           apply list_elem_of_singleton in Hin as [= ->]. by rewrite Hpb.
        -- intros b' Hb'. left. unfold open_ballot at 1. rewrite Hph. destruct Hcase as [(p' & -> & Hpb & mt' & Hph')|(_ & Hopen' & _)]; [unfold open_ballot in Hb'; by rewrite Hph' in Hb'|congruence].
      * unfold after_prepare in Hstep. rewrite Hpr in Hstep. cbn in Hstep. injection Hstep as <- <-. apply handler_silent; try done. by rewrite Hph.
    + injection Hstep as <- <-. by apply handler_silent.
  - cbn in Hstep. destruct (h_phase h) as [| |mt p t| | | |p t| | |] eqn:Hph; try done; (case_bool_decide as Hn; [|done]); pose proof (ho_phase _ _ _ _ H) as Hp; rewrite Hph in Hp;
      assert (forall a, o = rpc_reply a -> accept_reply n p a ∈ S) as Ho by (intros a ->; unfold answer_sent in Hsent; by rewrite Hph in Hsent).
    + eapply (accepting_ok S h p t false n o); try done; [by rewrite Hph|unfold open_ballot; by rewrite Hph|].
      destruct (handle_accept_response _ _ _ _ _ _) as [t'|[]|]; injection Hstep as <- <-; try (split; [done|]; split; [done|]); eauto.
    + eapply (accepting_ok S h p t true n o); try done; [by rewrite Hph|unfold open_ballot; by rewrite Hph|].
      destruct (handle_accept_response _ _ _ _ _ _) as [t'|[]|]; injection Hstep as <- <-; try (split; [done|]; split; [done|]); eauto.
  - cbn in Hstep. pose proof (ho_phase _ _ _ _ H) as Hp. destruct (h_phase h) as [| | |mt p|mt b d| | |p| |] eqn:Hph; try done; injection Hstep as <- <-.
    + apply handler_silent; try done; destruct success; done || by rewrite Hph.
    + destruct success; [|apply handler_silent; try done; by rewrite Hph].
      destruct (handler_participants S h H) as (Hnd & Hall & Hreq & Hle); [by rewrite Hph|].
      split; [|split; [done|split; [set_solver|split; [|set_solver]]]]; [|intros b' Hb'; left; unfold open_ballot in *; by rewrite Hph].
      split; [by right| |exact Hp]. cbn. intros b' [= <-]. apply (ho_open _ _ _ _ H). unfold open_ballot. by rewrite Hph.
    + apply handler_silent; try done; destruct success; done || by rewrite Hph.
  - cbn in Hstep. destruct (h_phase h) as [| | | | |b d| | | |] eqn:Hph; try done. injection Hstep as <- <-.
    destruct (handler_participants S h H) as (Hnd & Hall & Hreq & Hle); [by rewrite Hph|]. pose proof (ho_phase _ _ _ _ H) as Hp. rewrite Hph in Hp. destruct Hp as (rs & Hby & Hfree).
    pose proof (ho_open _ _ _ _ H b) as Hopen. unfold open_ballot in Hopen. rewrite Hph in Hopen. destruct (Hopen eq_refl) as [Hb Hnew].
    split; [|split; [apply history_add; [cbn; lia| |done]|split; [|split; [done|]]]].
    + split; [by right|done|]. cbn. split; [set_solver|]. cbn. split; [done|]. exists []. split; [constructor|]. split; [set_solver|]. split; [done|set_solver].
    + intros x ->%list_elem_of_singleton. split; [done|]. split; [done|]. exists rs. auto.
    + intros p [= ->]%list_elem_of_singleton. unfold open_ballot. by rewrite Hph.
    + intros x k ->%list_elem_of_singleton. by intros [].
  - assert (h_participants h' = h_participants h /\ h_phase h' = h_phase h /\ (ms = [] \/ exists b, ms = [prune_request b])) as (Hpa & Hph & Hms).
    { cbn in Hstep. case_bool_decide as Hd; [|done]. unfold learn_replied, learned in Hstep. destruct (bool_decide _ && bool_decide _); cbn in Hstep;
        [destruct (_ && negb dropped)|]; injection Hstep as <- <-; (split; [done|]); (split; [done|]); eauto. }
    split; [|split; [|split; [|split]]].
    + apply (handler_ok_ext _ h); [done|done|]. apply handler_ok_mono; [|done]. destruct Hms as [->|[b ->]]; set_solver.
    + destruct Hms as [->|[b ->]]; done.
    + destruct Hms as [->|[b ->]]; set_solver.
    + intros b Hb. left. unfold open_ballot in *. by rewrite Hph in Hb.
    + destruct Hms as [->|[b ->]]; [set_solver|]. intros x k ->%list_elem_of_singleton. by intros [].
Qed.

(** * The invariant of a run *)

Context (Hmajority : (length all < required + required)%nat).
Abbreviation replica_ok := (replica_ok empty_mutation).

Record net_ok (s : net) : Prop := {
  no_history : history (sent s);
  no_replicas : forall n, replica_ok (sent s) n (replicas s n);
  no_handlers : forall i, handler_ok (sent s) (handlers s i);
  no_open : forall i j b, open_ballot (handlers s i) = Some b -> open_ballot (handlers s j) = Some b -> i = j;
}.

(** Two proposals of the same time are one, since the quorums that promised them meet. *)
Lemma net_same s p q :
  net_ok s -> accept_request p ∈ sent s -> accept_request q ∈ sent s -> ballot_micros (ballot p) = ballot_micros (ballot q) -> p = q.
Proof using Hmajority.
  intros H Hp Hq Heq. apply (history_unique empty_mutation all required (sent s)); try done; [apply H|].
  destruct (history_elem _ _ _ _ _ (no_history _ H) Hp) as (e1 & (_ & _ & rs1 & [Hq1 Hr1] & _) & He1 & _).
  destruct (history_elem _ _ _ _ _ (no_history _ H) Hq) as (e2 & (_ & _ & rs2 & [Hq2 Hr2] & _) & He2 & _).
  destruct (quorums_meet all required Hmajority _ _ Hq1 Hq2) as (n & Hn1 & Hn2).
  apply list_elem_of_fmap in Hn1 as ([n1 [a1 c1]] & -> & Hn1), Hn2 as ([n2 [a2 c2]] & Hn & Hn2). cbn in Hn. subst n2.
  destruct (Hr1 _ _ _ Hn1) as [d1 Hd1], (Hr2 _ _ _ Hn2) as [d2 Hd2]. by eapply (rk_unique _ _ _ _ (no_replicas _ H n1)); eauto.
Qed.

Lemma net_sent_facts s : net_ok s -> sent_facts (sent s).
Proof using Hmajority.
  intros H. pose proof (no_history _ H) as Hh.
  assert (forall p, accept_request p ∈ sent s -> prepare_request (ballot p) ∈ sent s) as Hprep.
  { intros p Hp. destruct (history_elem _ _ _ _ _ Hh Hp) as (e & [Hb _] & He & _). auto. }
  split.
  - intros b Hb. destruct (history_elem _ _ _ _ _ Hh Hb) as (e & [Hok _] & _). done.
  - done.
  - intros d Hd. destruct (history_learned _ _ _ _ _ Hh Hd) as (q & Hq & _ & <- & _). auto.
  - intros p q Hp Hq. by apply (net_same s).
  - intros d d' Hd Hd' Heq. destruct (history_learned _ _ _ _ _ Hh Hd) as (q & Hq & _ & Hb & _), (history_learned _ _ _ _ _ Hh Hd') as (q' & Hq' & _ & Hb' & _).
    rewrite <- Hb, <- Hb'. f_equal. apply (net_same s q q' H Hq Hq'). congruence.
Qed.

Lemma history_replies ms (S : list message) n :
  history S -> (forall m, m ∈ ms -> from_replica n m /\ reply_sound empty_mutation S m) -> history (ms ++ S).
Proof using.
  intros HS. induction ms as [|m ms IH]; intros Hms; [done|]. cbn [app PaxosSafety.history]. split; [|apply IH; intros; apply Hms; by right].
  destruct (Hms m) as [Hf Hr]; [by left|]. destruct m as [| ? ? []| | | | |]; try done. cbn in *. eapply promise_sound_mono; [|done]. intros x Hx. apply elem_of_app. by right.
Qed.

(** Only the head of the loop sends ballots. *)
Lemma only_begin_prepares h e h' ms b :
  handler_step h e = Some (h', ms) -> prepare_request b ∈ ms -> exists clock random, e = begins clock random.
Proof using.
  intros Hh Hb. destruct e as [clock random| |n o|n o|success|m|n d dropped]; [by eexists _, _|exfalso..]; cbn in Hh.
  - injection Hh as <- <-. by apply not_elem_of_nil in Hb.
  - destruct (h_phase h); try done. case_bool_decide; [|done]. destruct (handle_prepare_response _ _ _ _ _ _) as [t'|sm|].
    + injection Hh as <- <-. by apply not_elem_of_nil in Hb.
    + injection Hh as Hh. unfold after_prepare in Hh.
      repeat (case_match; simplify_eq); try (by apply not_elem_of_nil in Hb); by apply list_elem_of_singleton in Hb.
    + injection Hh as <- <-. by apply not_elem_of_nil in Hb.
  - destruct (h_phase h); try done; (case_bool_decide; [|done]); destruct (handle_accept_response _ _ _ _ _ _) as [t'|[]|]; injection Hh as <- <-;
      (by apply not_elem_of_nil in Hb) || by apply list_elem_of_singleton in Hb.
  - destruct (h_phase h); try done; injection Hh as <- <-; by apply not_elem_of_nil in Hb.
  - destruct (h_phase h); try done. injection Hh as <- <-. by apply list_elem_of_singleton in Hb.
  - case_bool_decide; [|done]. unfold learn_replied in Hh. destruct (learned _ _) as [h1 x]. injection Hh as <- <-.
    destruct (x && negb dropped); [by apply list_elem_of_singleton in Hb|by apply not_elem_of_nil in Hb].
Qed.

Lemma net_step_ok s e s' : net_ok s -> event_ok digest_of paxos_grace_seconds s e = true -> net_step s e = Some s' -> net_ok s'.
Proof using Hmajority Hpositive EqDecision1.
  intros H Hok Hstep. unfold Paxos.net_step in Hstep. destruct (was_sent s e) eqn:Hsent; [|done]. destruct e as [n e|i e].
  - destruct (replica_step _ _ _ n (replicas s n) e) as [[r ms]|] eqn:Hr; [|done]. injection Hstep as <-.
    destruct (replica_step_ok empty_mutation paxos_grace_seconds compare_unsigned (sent s) (net_sent_facts s H) n (replicas s n) e r ms) as [Hr' Hms]; [apply H| |done|].
    { unfold received. destruct e as [b now| |p now| | |d| | |]; cbn in Hsent, Hok; try done; try (apply bool_decide_eq_true in Hsent); try done.
      all: split; [done|]; intros c x Hx; unfold state_is_kept in Hok; rewrite forallb_forall in Hok; specialize (Hok (c, x)); cbn in Hok;
        apply negb_true_iff, Hok, list_elem_of_In, elem_of_map_to_list; done. }
    split; cbn.
    + eapply history_replies; [apply H|done].
    + intros n'. destruct (decide (n' = n)) as [->|Hne]; [by rewrite fn_lookup_insert|]. rewrite fn_lookup_insert_ne by done. apply replica_ok_mono; [|apply H].
      intros m Hm Hf. destruct (Hms m Hm) as [Hf' _]. destruct m; cbn in *; congruence.
    + intros j. apply handler_ok_mono; [|apply H]. intros b m _ Hm. by destruct (Hms _ Hm) as [? _].
    + apply H.
  - destruct (handler_step (handlers s i) e) as [[h ms]|] eqn:Hh; [|done]. injection Hstep as <-.
    assert (forall b, prepare_request b ∈ ms -> prepare_request b ∉ sent s) as Hfresh.
    { intros b Hb. destruct (only_begin_prepares _ _ _ _ _ Hh Hb) as (clock & random & ->). cbn in Hok. cbn in Hh. rewrite Hh in Hok. rewrite forallb_forall in Hok.
      specialize (Hok _ (proj1 (list_elem_of_In _ _) Hb)). by apply bool_decide_eq_true in Hok. }
    assert (answer_sent (sent s) (handlers s i) e) as Hans.
    { unfold answer_sent. cbn in Hsent. destruct e as [| |n [r| |]|n [a| |]| | |]; try done; destruct (h_phase (handlers s i)); try done; by apply bool_decide_eq_true in Hsent. }
    destruct (handler_step_ok (sent s) (handlers s i) e h ms) as (Hh' & HS & Hacc & Hopen & Hown); [apply H|apply H|done|done|done|].
    split; cbn.
    + done.
    + intros n. apply replica_ok_mono; [|apply H]. intros m Hm. by apply Hown.
    + intros j. destruct (decide (j = i)) as [->|Hne]; [by rewrite fn_lookup_insert|]. rewrite fn_lookup_insert_ne by done. apply handler_ok_mono; [|apply H].
      intros b m Hb Hm. apply Hacc in Hm. cbn in Hm. apply Hne. by eapply (no_open _ H).
    + assert (forall j b, j <> i -> open_ballot (handlers s j) = Some b -> open_ballot h = Some b -> False) as Hother.
      { intros j b Hne Hj Hb. destruct (Hopen b Hb) as [Hb'|Hb']; [apply Hne; by eapply (no_open _ H)|].
        destruct (ho_open _ _ _ _ (no_handlers _ H j) b Hj) as [Hin _]. by apply (Hfresh b Hb'). }
      intros j k b. destruct (decide (j = i)) as [->|Hj], (decide (k = i)) as [->|Hk]; rewrite ?fn_lookup_insert, ?fn_lookup_insert_ne by done; intros H1 H2; try done.
      * by destruct (Hother k b).
      * by destruct (Hother j b).
      * by eapply (no_open _ H).
Qed.

(** * What was chosen is not lost *)

(** What promises report was proposed and chosen before. *)
Lemma promised_accepted (S : list message) b rs a : history S -> promised_by all required S b rs -> a ∈ accepted_in rs -> accept_request a ∈ S.
Proof using.
  intros HS [_ Hrep] ([n [acc com]] & Hin & Ha)%list_elem_of_omap. simplify_eq/=. destruct (Hrep _ _ _ Hin) as [data Hr].
  destruct (history_elem _ _ _ _ _ HS Hr) as (e & [Hs _] & He & _). destruct (Hs a eq_refl). auto.
Qed.
Lemma promised_commit (S : list message) b rs c :
  history S -> promised_by all required S b rs -> c ∈ commits_in rs ->
  exists q, accept_request q ∈ S /\ chosen S q /\ ballot q = ballot c /\ learn_request q ∈ S.
Proof using.
  intros HS [_ Hrep] ([n [acc com]] & Hin & Hc)%list_elem_of_omap. simplify_eq/=. destruct (Hrep _ _ _ Hin) as [data Hr].
  destruct (history_elem _ _ _ _ _ HS Hr) as (e & [_ Hs] & He & _). destruct (Hs c eq_refl) as (d & Hd & <- & _).
  destruct (history_learned _ _ _ _ _ HS (He _ Hd)) as (q & ? & ? & ? & ? & _). by exists q.
Qed.

(** The promises for a later ballot know of everything that was chosen. *)
Lemma promised_knows s p b rs (S : list message) :
  net_ok s -> chosen (sent s) p -> S ⊆ sent s -> promised_by all required S b rs -> ballot_micros (ballot p) < ballot_micros b ->
  (exists a, a ∈ accepted_in rs /\ ballot_micros (ballot p) <= ballot_micros (ballot a)) \/
  (exists c, c ∈ commits_in rs /\ ballot_micros (ballot p) <= ballot_micros (ballot c)).
Proof using Hmajority.
  intros H (Q & HQ & Hacc) Hsub [Hquo Hrep] Hlt. destruct (quorums_meet all required Hmajority _ _ HQ Hquo) as (n & Hn & Hn').
  apply list_elem_of_fmap in Hn' as ([n' [acc com]] & -> & Hin). cbn in *. destruct (Hrep _ _ _ Hin) as [data Hr].
  assert (knows acc com (ballot_micros (ballot p))) as [(a & -> & Hle)|(c & -> & Hle)].
  { eapply (rk_replies _ _ _ _ (no_replicas _ H n')); [apply Hsub, Hr|by apply Hacc|done]. }
  - left. exists a. split; [|done]. apply list_elem_of_omap. by eexists.
  - right. exists c. split; [|done]. apply list_elem_of_omap. by eexists.
Qed.

(** The value was learned, with its ballot or a later one. *)
Definition was_learned (s : net) (p : proposal) : Prop :=
  exists d, learn_request d ∈ sent s /\ chosen (sent s) d /\ ballot_micros (ballot p) <= ballot_micros (ballot d) /\ update d = update p.

Lemma chosen_proposed s p : net_ok s -> chosen (sent s) p -> accept_request p ∈ sent s.
Proof using Hpositive Hmajority.
  intros H (Q & (_ & _ & Hlen) & Hacc). destruct Q as [|n Q]; [cbn in Hlen; lia|]. by apply (rk_accepted _ _ _ _ (no_replicas _ H n)), Hacc; left.
Qed.

Lemma history_agreement s p (S : list message) q :
  net_ok s -> chosen (sent s) p -> accept_request p ∈ sent s -> S ⊆ sent s -> history S -> accept_request q ∈ S -> ballot_micros (ballot p) < ballot_micros (ballot q) ->
  update q = update p \/ was_learned s p.
Proof using Hmajority Hpositive.
  intros H Hc Hp. pose proof (net_sent_facts s H) as Hf. revert q. induction S as [|m S IH]; intros q Hsub HS Hq Hlt; [by apply not_elem_of_nil in Hq|].
  assert (S ⊆ sent s) as Hsub' by (intros x Hx; apply Hsub; by right).
  apply elem_of_cons in Hq as [Hq|Hq]; [|by apply IH; try apply HS]. subst m. destruct HS as [(_ & _ & rs & Hby & Hrule) HS].
  assert (forall a, accept_request a ∈ S -> ballot_micros (ballot p) <= ballot_micros (ballot a) -> update a = update p \/ was_learned s p) as Hearlier.
  { intros a Ha Hle. destruct (decide (ballot_micros (ballot p) = ballot_micros (ballot a))) as [Heq|Hne].
    - left. f_equal. symmetry. by apply (net_same s p a); auto.
    - apply IH; [done|done|done|lia]. }
  assert (forall c, c ∈ commits_in rs -> ballot_ok (ballot c) /\ (ballot_micros (ballot p) <= ballot_micros (ballot c) -> was_learned s p)) as Hcommit.
  { intros c Hcin. destruct (promised_commit _ _ _ _ HS Hby Hcin) as (a & Ha & Hca & Hba & Hla). rewrite <- Hba.
    split; [by apply (sf_ballots _ Hf), (sf_prepared _ Hf); auto|]. intros Hle.
    destruct (Hearlier a Ha Hle) as [Hu|?]; [|done]. exists a. split; [auto|]. split; [by eapply chosen_mono|done]. }
  assert (forall a, a ∈ accepted_in rs -> accept_request a ∈ S /\ ballot_ok (ballot a)) as Haok.
  { intros a Ha. pose proof (promised_accepted _ _ _ _ HS Hby Ha). split; [done|]. apply (sf_ballots _ Hf), (sf_prepared _ Hf). auto. }
  pose proof (promised_knows s p _ rs S H Hc Hsub' Hby Hlt) as Hnewer. destruct Hrule as [(a & Ha & Hu & Hmax & Hless)|Hfree].
  - destruct (Haok a Ha) as [Har Hao]. rewrite Hu. apply Hearlier; [done|]. destruct Hnewer as [(a' & Ha' & Hle)|(c & Hc' & Hle)].
    + specialize (Hmax a' Ha'). apply ballot_le in Hmax; [lia|by apply Haok|done].
    + specialize (Hless c Hc'). apply ballot_lt in Hless; [lia|by apply Hcommit|done].
  - right. destruct Hnewer as [(a & Ha & Hle)|(c & Hc' & Hle)]; [|by apply (Hcommit c)].
    destruct (Hfree a Ha) as (c & Hc' & Hac). apply ballot_le in Hac; [|by apply Haok|by apply Hcommit]. apply (Hcommit c); [done|lia].
Qed.
End step.

(** * Reachable states *)

(** The replicas of the partition and how many have to answer, as [get_paxos_participants] sees them. *)
Section reachable.
Context (natural pending : list Z) (Hnatural : NoDup natural) (Hpending : NoDup pending).
Context (alive : nat -> Z -> bool) (last_timestamp : nat -> Z) (truncated_at : Z -> Z).

Definition all_participants : list Z := natural ++ filter (fun n => n ∉ natural) pending.
Definition all_required : nat := (S (length natural / 2) + length (filter (fun n => n ∉ natural) pending))%nat.

Definition reachable (s : net) : Prop :=
  exists es, run empty_mutation digest_of paxos_grace_seconds compare_unsigned (initial natural pending alive last_timestamp truncated_at) es = Some s.

Lemma participants_majority : (length all_participants < all_required + all_required)%nat.
Proof using.
  unfold all_participants, all_required. rewrite length_app. pose proof (Nat.div_mod (length natural) 2 ltac:(lia)). pose proof (Nat.mod_upper_bound (length natural) 2 ltac:(lia)). lia.
Qed.

Lemma participants_positive : (0 < all_required)%nat.
Proof using. unfold all_required. lia. Qed.

Lemma initial_ok : net_ok all_participants all_required (initial natural pending alive last_timestamp truncated_at).
Proof using Hnatural Hpending.
  split; [done| | |].
  - intros n. split; cbn; try done; try (intros; set_solver).
  - intros i. unfold initial, make_handler. cbn [handlers sent]. destruct (get_paxos_participants natural pending (alive i)) as [ps|] eqn:Hps; [|split; cbn; auto; done].
    unfold get_paxos_participants in Hps. case_bool_decide as Hlen; [done|]. case_bool_decide; [done|]. injection Hps as <-. split; [right|done|done].
    unfold h_live, h_required. cbn [h_participants endpoints required_participants]. split; [|split; [|split; [done|unfold all_required in *; lia]]].
    + apply NoDup_filter. apply NoDup_app. split; [done|]. split; [|by apply NoDup_filter]. intros x Hx [Hn _]%list_elem_of_filter. done.
    + intros x [_ Hx]%list_elem_of_filter. done.
  - intros i j b. unfold initial, make_handler. cbn. by destruct (get_paxos_participants natural pending (alive i)).
Qed.

Lemma reachable_ok s : reachable s -> net_ok all_participants all_required s.
Proof using Hnatural Hpending EqDecision1.
  intros [es Hrun]. revert Hrun. unfold run. generalize initial_ok. generalize (initial (M := M) (D := D) natural pending alive last_timestamp truncated_at) as s0.
  induction es as [|e es IH]; intros s0 H0; cbn [foldl]; [by intros [= <-]|]. cbn [mbind option_bind].
  destruct (event_ok _ _ s0 e) eqn:Hok; [|intros Hx; exfalso; revert Hx; clear; induction es; cbn; done].
  destruct (net_step s0 e) as [s1|] eqn:Hs; [|intros Hx; exfalso; revert Hx; clear; induction es; cbn; done].
  apply IH. eapply net_step_ok; [..|done|done|done]; [apply participants_positive|apply participants_majority].
Qed.

Abbreviation chosen s := (chosen all_participants all_required (sent s)).

(** C10: A value that a quorum of replicas accepted is not lost: whatever replicas and coordinators do, with
    messages that are lost, repeated and delayed, writes that fail and processes that stop, every
    proposal with a later ballot has the same value, unless that value was sent out to be learned,
    as a decision that a quorum accepted, with its ballot or a later one. *)
Theorem paxos_agreement s p q :
  reachable s -> chosen s p -> accept_request q ∈ sent s -> ballot_timestamp (ballot p) < ballot_timestamp (ballot q) ->
  update q = update p \/
  exists d, learn_request d ∈ sent s /\ chosen s d /\ ballot_timestamp (ballot p) <= ballot_timestamp (ballot d) /\ update d = update p.
Proof using Hnatural Hpending EqDecision1.
  intros Hs Hc Hq Hlt. pose proof (reachable_ok s Hs) as H. pose proof (net_sent_facts _ _ participants_majority s H) as Hf.
  assert (forall p, accept_request p ∈ sent s -> ballot_ok (ballot p)) as Hok by (intros; by apply (sf_ballots _ Hf), (sf_prepared _ Hf)).
  pose proof (chosen_proposed _ _ participants_positive participants_majority s p H Hc) as Hp.
  apply ballot_lt in Hlt; [|by apply Hok..].
  destruct (history_agreement _ _ participants_positive participants_majority s p (sent s) q H Hc Hp) as [Hu|(d & Hd & Hcd & Hle & Hu)]; [done|apply H|done|done|by left|].
  right. exists d. split; [done|]. split; [done|]. split; [|done]. apply ballot_le; [by apply Hok| |done].
  by apply (sf_ballots _ Hf), (sf_learned _ Hf).
Qed.

(** C11: Every mutation that Paxos applies to the table of a replica is one that a quorum accepted, or an
    empty one in its place; and no two different values are accepted with the same ballot. *)
Theorem paxos_integrity s :
  reachable s ->
  (forall n m, m ∈ r_table (replicas s n) -> m = empty_mutation \/ exists p, chosen s p /\ update p = m) /\
  (forall n n' p p', accept_reply n p true ∈ sent s -> accept_reply n' p' true ∈ sent s -> ballot p = ballot p' -> p = p').
Proof using Hnatural Hpending EqDecision1.
  intros Hs. pose proof (reachable_ok s Hs) as H. split.
  - intros n m Hm. destruct (rk_table _ _ _ _ (no_replicas _ _ _ H n) m Hm) as (d & Hd & <-).
    destruct (history_learned _ _ _ _ _ (no_history _ _ _ H) Hd) as (q & _ & Hc & _ & _ & [->| ->]); [right; by exists q|by left].
  - intros n n' p p' Hp%(rk_accepted _ _ _ _ (no_replicas _ _ _ H n)) Hp'%(rk_accepted _ _ _ _ (no_replicas _ _ _ H n')).
    apply (history_unique _ _ _ _ _ _ (no_history _ _ _ H)); [apply Hp|apply Hp'].
Qed.
End reachable.
End runs.

(** * Examples *)

Module PaxosExamples.

(** Three replicas; mutations and results are numbers, and 0 changes nothing. *)
Definition value_compare (v w : @paxos_value Z) : comparison :=
  match v, w with
  | uuid_value u, uuid_value u' => uuid_compare u u'
  | blob_value m, blob_value m' => m ?= m'
  | uuid_value _, blob_value _ => Lt
  | blob_value _, uuid_value _ => Gt
  end.
Abbreviation example_run := (run (M := Z) (D := Z) 0 id 864000 value_compare).
Definition start : @net Z Z := initial [1; 2; 3] [] (fun _ _ => true) (fun _ => 0) (fun _ => 0).
Definition ballot_at (random micros : Z) : UUID := match get_random_time_UUID_from_micros random micros with Ret b => b | _ => min_ballot end.

(** Rounds of messages, at second [t]. *)
Definition promises (i : nat) (b : UUID) (t : Z) (answers : list (Z * @prepare_response Z Z)) : list (@event Z Z) :=
  answers ≫= fun '(n, a) => [at_replica n (receive_prepare b t); at_replica n (saved_promise None t); at_handler i (prepare_answer n (rpc_reply a))].
Definition acceptances (i : nat) (p : proposal) (t : Z) (ns : list Z) : list (@event Z Z) :=
  ns ≫= fun n => [at_replica n (receive_accept p t); at_replica n (saved_proposal t); at_handler i (accept_answer n (rpc_reply true))].
Definition learns (n : Z) (d : proposal) (t : Z) : list (@event Z Z) := [at_replica n (receive_learn d); at_replica n (saved_decision d t)].
Definition nothing : @prepare_response Z Z := promise None None None.

Definition b0 := ballot_at 11 1000000.
Definition b1 := ballot_at 12 2000000.
Definition b2 := ballot_at 13 3000000.
Definition b3 := ballot_at 14 4000000.
Definition b4 := ballot_at 15 5000000.

(** A coordinator proposes 7, two replicas accept it, and it hears of one; another one takes over. *)
Definition p7 : @proposal Z := Proposal b0 7.
Definition take_over : list (@event Z Z) :=
  [at_handler 0 (begins 1000000 11)] ++ promises 0 b0 1 [(1, nothing); (2, nothing)] ++ [at_handler 0 (applied 7)] ++
  acceptances 0 p7 1 [1] ++ [at_replica 2 (receive_accept p7 1); at_replica 2 (saved_proposal 1)] ++
  [at_handler 1 (begins 2000000 12)] ++ promises 1 b1 2 [(2, promise (Some p7) None None); (3, nothing)].
Definition taken_over : @net Z Z := default start (example_run start take_over).

Lemma taken_over_reached : example_run start take_over = Some taken_over.
Proof. unfold taken_over. assert (match example_run start take_over with Some _ => true | None => false end = true) as H by (by vm_compute). by destruct (example_run start take_over). Qed.

Definition q7 : @proposal Z := Proposal b1 7.

Lemma paxos_agreement_witness :
  update q7 = update p7 \/
  exists d, learn_request d ∈ sent taken_over /\ chosen (all_participants [1; 2; 3] []) (all_required [1; 2; 3] []) (sent taken_over) d /\
    ballot_timestamp (ballot p7) <= ballot_timestamp (ballot d) /\ update d = update p7.
Proof.
  apply (paxos_agreement 0 id 864000 value_compare [1; 2; 3] [] ltac:(repeat constructor; set_solver) ltac:(constructor) (fun _ _ => true) (fun _ => 0) (fun _ => 0) taken_over p7 q7).
  - exists take_over. exact taken_over_reached.
  - exists [1; 2]. split; [split; [repeat constructor; set_solver|split; [set_solver|done]]|].
    intros n Hn. apply elem_of_cons in Hn as [->|Hn]; [|apply list_elem_of_singleton in Hn as ->]; apply (bool_decide_unpack _); by vm_compute.
  - apply (bool_decide_unpack _). by vm_compute.
  - by vm_compute.
Defined.

(** The other one has the 7 accepted again, and a replica learns it. *)
Definition learned_run : list (@event Z Z) := take_over ++ acceptances 1 q7 2 [2; 3] ++ learns 2 q7 2.
Definition learned_7 : @net Z Z := default start (example_run start learned_run).

Lemma learned_reached : example_run start learned_run = Some learned_7.
Proof. unfold learned_7. assert (match example_run start learned_run with Some _ => true | None => false end = true) as H by (by vm_compute). by destruct (example_run start learned_run). Qed.

Lemma paxos_integrity_witness :
  7 ∈ r_table (replicas learned_7 2) /\
  (7 = 0 \/ exists p, chosen (all_participants [1; 2; 3] []) (all_required [1; 2; 3] []) (sent learned_7) p /\ update p = 7).
Proof.
  pose proof (paxos_integrity 0 id 864000 value_compare [1; 2; 3] [] ltac:(repeat constructor; set_solver) ltac:(constructor) (fun _ _ => true) (fun _ => 0) (fun _ => 0) learned_7) as H.
  specialize (H (ex_intro _ learned_run learned_reached)). assert (7 ∈ r_table (replicas learned_7 2)) as Hin by (apply (bool_decide_unpack _); by vm_compute).
  split; [exact Hin|exact (proj1 H 2 7 Hin)].
Defined.

(** A coordinator replays the 7, which only one replica had accepted; one replica learns it, which is
    enough for consistency level ONE, and its reply is counted. Then the coordinator goes on with its own 9.
    The reply of the first replica that learns the 9 completes the count, and the commit is pruned. *)
Definition p9 : @proposal Z := Proposal b2 9.
Definition pruned_early : list (@event Z Z) :=
  [at_handler 0 (begins 1000000 11)] ++ promises 0 b0 1 [(1, nothing); (2, nothing)] ++ [at_handler 0 (applied 7)] ++ acceptances 0 p7 1 [1] ++
  [at_handler 1 (begins 2000000 12)] ++ promises 1 b1 2 [(1, promise (Some p7) None None); (2, nothing)] ++ acceptances 1 q7 2 [1; 2] ++
  learns 1 q7 2 ++ [at_handler 1 (learn_answer 1 q7 false); at_handler 1 (write_completes true); at_handler 1 (begins 3000000 13)] ++
  promises 1 b2 3 [(1, promise None (Some q7) None); (2, promise (Some q7) None None)] ++ learns 2 q7 3 ++
  [at_handler 1 (write_completes true); at_handler 1 (applied 9)] ++ acceptances 1 p9 3 [1; 2] ++ learns 1 p9 3 ++
  [at_handler 1 (learn_answer 1 p9 false); at_handler 1 (write_completes true)] ++ [at_replica 1 (receive_prune b2 3)] ++
  (* the next two coordinators *)
  [at_handler 2 (begins 4000000 14)] ++ promises 2 b3 4 [(1, promise None (Some (Proposal b2 0)) None); (2, promise (Some p9) (Some q7) None)] ++
  learns 2 (Proposal b2 0) 4 ++ [at_handler 2 gives_up; at_handler 3 (begins 5000000 15)] ++
  promises 3 b4 5 [(2, promise None (Some (Proposal b2 0)) None); (3, nothing)] ++ learns 3 (Proposal b2 0) 5 ++ [at_handler 3 (write_completes true)].

Definition lost (s : @net Z Z) : bool :=
  match h_phase (handlers s 1), h_phase (handlers s 3) with succeeded, prepared _ _ => true | _, _ => false end &&
  bool_decide (accept_reply 1 p9 true ∈ sent s) && bool_decide (accept_reply 2 p9 true ∈ sent s) &&
  bool_decide (prepare_reply 2 b4 (promise None (Some (Proposal b2 0)) None) ∈ sent s) && bool_decide (prepare_reply 3 b4 nothing ∈ sent s) &&
  bool_decide (update p9 ∉ r_table (replicas s 2)) && bool_decide (update p9 ∉ r_table (replicas s 3)).
Lemma pruned_early_lost : match example_run start pruned_early with Some s => lost s | None => false end = true.
Proof. vm_compute. reflexivity. Qed.

(** C12: A conditional update can be lost after its client was told that it succeeded: the replies to
    [learn] are counted over all decisions of a coordinator, so that a commit may be pruned when one replica
    has learned it; the empty mutation that a replica then reports in its place is taught to the others.
    In the end no member of a quorum that promises a later ballot has the update, and its coordinator
    is free to propose any value. *)
Theorem premature_prune_loses_update :
  exists es s, example_run start es = Some s /\
    h_phase (handlers s 1) = succeeded /\ chosen (all_participants [1; 2; 3] []) (all_required [1; 2; 3] []) (sent s) p9 /\
    (exists b data, h_phase (handlers s 3) = prepared b data) /\
    (forall n, n ∈ [2; 3] -> exists com, prepare_reply n b4 (promise None com None) ∈ sent s /\ (update p9 ∉ r_table (replicas s n))).
Proof.
  pose proof pruned_early_lost as H. destruct (example_run start pruned_early) as [s|] eqn:Hs; [|discriminate H]. exists pruned_early, s. split; [exact Hs|]. clear Hs.
  unfold lost in H. repeat match type of H with _ && _ = true => apply andb_true_iff in H as [H ?%bool_decide_eq_true] end.
  destruct (h_phase (handlers s 1)); try discriminate H. destruct (h_phase (handlers s 3)); try discriminate H.
  split; [reflexivity|]. split; [|split; [by eexists _, _|]].
  - exists [1; 2]. split; [split; [repeat constructor; set_solver|split; [set_solver|done]]|].
    intros n Hn. apply elem_of_cons in Hn as [->|Hn]; [assumption|]. apply list_elem_of_singleton in Hn as ->. assumption.
  - intros n Hn. apply elem_of_cons in Hn as [->|Hn]; [eexists; split; eassumption|]. apply list_elem_of_singleton in Hn as ->. eexists. split; eassumption.
Qed.

(** A refusal that reports a ballot of second 5 does not make the next ballot newer. *)
Lemma retry_ignores_rejection :
  let h := make_handler (M := Z) (D := Z) [1; 2; 3] [] (fun _ => true) 0 in
  let refused := PrepareSummary ∅ false b4 None None None in
  (begin_round (after_prepare 864000 h 0 b0 refused).1 0 1100000 16).2 = [prepare_request (ballot_at 16 1100000)] /\
  ballot_timestamp (ballot_at 16 1100000) < ballot_timestamp b4.
Proof. by vm_compute. Qed.

(** Promises that report a commit newer than the ballot do not stop the coordinator. *)
Lemma newer_commit_accepted :
  let h := make_handler (M := Z) (D := Z) [1; 2; 3] [] (fun _ => true) 0 in
  let newer := PrepareSummary {[1 := b4; 2 := b4]} true min_ballot (Some (Proposal b4 7)) None None in
  h_phase (after_prepare 864000 h 0 b0 newer).1 = prepared b0 None.
Proof. by vm_compute. Qed.
End PaxosExamples.
